(* ===== verification/_CoqProject ===== *)
-Q . S2P
Prelude.v
AppConfig.v
Json.v
Http.v
Tenancy.v
Pipeline.v
StateStore.v
RedisStore.v
Run.v
SourceManager.v
PodWatcher.v
RunHistory.v
Dispatcher.v
Backplane.v
KubeDispatcher.v
Coordinator.v
CoordinatorFacts.v
CoordinatorTheorems.v
Reaper.v
ReaperTheorems.v
Auth.v
GithubProvider.v
GithubTheorems.v
Server.v
ServerTheorems.v
Startup.v
System.v
EndToEnd.v
Encoding.v
