(* ===== verification/Prelude.v ===== *)
(** * Jefferies: a verification library

    Jefferies runs CI pipelines. A pipeline document is parsed and validated
    ([pipelines]); a run of it is supervised by one coordinator
    ([coordinator/src/coordinator.rs]) that takes a lease in the state store
    ([state_store]), dispatches the nodes whose dependencies succeeded as
    Kubernetes jobs ([coordinator/src/kube_dispatcher.rs]), learns of their
    fate from the backplane, from a pod watcher
    ([coordinator/src/pod_watcher.rs]) and from status objects in S3
    ([coordinator/src/source_manager.rs]), writes the history to Postgres
    ([run_history]) and cleans up. Other servers may act on the same store at
    any time; a run whose coordinator died is resumed by the reaper of another
    server ([coordinator/src/reaper.rs]), which also removes what finished runs
    left behind. Runs start from GitHub webhooks and retries ([providers]); the
    HTTP server ([server]) shows and cancels them for the tenants ([tenancy]) that
    a login ([auth]) is authorised for, and passes completions and cancellations
    on through the backplane ([backplane]).

    ** The files and the code

    - [Prelude] (this file): Rust's [Result], state-passing programs [M], 64-bit
      arithmetic, strings as byte sequences, iteration orders of hash maps, and
      the lemmas and tactics shared by the rest.
    - [AppConfig]: [app_config/src/lib.rs] and [config/default.toml]. The
      settings, their accessors, and the layers they are loaded from.
    - [Pipeline]: [pipelines/src/pipeline.rs]. The document, [from_yaml] with
      its validation, the trigger filters, [node_info].
    - [StateStore]: [state_store/src/lib.rs]. [RunState], the [StateStore] trait
      (a type class), the contract [StateStoreSpec] that clients may rely on,
      and the in-memory store (module [InMemory]) with the proof that it meets
      the contract.
    - [RedisStore]: the store on Redis of the same file, with its scripts as
      atomic requests that may fail or whose answer may be lost, and the proof
      that it meets the same contract.
    - [Run]: [coordinator/src/run.rs]. Node statuses, ready nodes, the [mark_*]
      operations, completion, conversion from and to [RunState].
    - [SourceManager]: [coordinator/src/source_manager.rs]. Keys, the multipart
      upload, status and log reads, presigned URLs, cleanup.
    - [PodWatcher]: [coordinator/src/pod_watcher.rs]. Classification of pods
      and the watcher's loop.
    - [RunHistory]: [run_history/src/lib.rs]. The trait (a type class) and, in
      module [Postgres], every statement on the two tables of the migrations.
    - [Dispatcher]: [coordinator/src/dispatcher.rs]. The trait (a type class)
      and the logging dispatcher.
    - [KubeDispatcher]: [coordinator/src/kube_dispatcher.rs]. An instance of the
      [Dispatcher] class over a cluster and a bucket.
    - [Coordinator]: [coordinator/src/coordinator.rs]. Every method of the
      coordinator, its event loop, [start_coordinator];
      [CoordinatorFacts] and [CoordinatorTheorems] hold its lemmas and theorems.
    - [Reaper]: [coordinator/src/reaper.rs]. Every sweep, over any store,
      dispatcher and history; [ReaperTheorems] has what they guarantee.
    - [Backplane]: [backplane/src/lib.rs]. The trait, RabbitMQ as a sequence of
      calls to a broker (module [Rabbit]) and the in-memory bus (module
      [InMemoryBus]).
    - [Tenancy]: [tenancy/src/lib.rs]. The tenancy document, its validation and
      the registries.
    - [Auth]: [auth/src/handlers.rs], [session.rs], [extractor.rs]. Login,
      callback, sessions, and the extractor in front of tenant routes.
    - [GithubProvider]: [providers/src/github.rs]. Webhooks, the choice of
      pipelines, launches, retries and check runs; [GithubTheorems].
    - [Server]: [server/src/lib.rs]. The handlers, the probes and the router over
      the extractor; [ServerTheorems].
    - [Json], [Http]: JSON values and status codes, shared by the last three.
    - [Startup]: [server::serve], [main] and the constructors of the clients.
    - [System]: any number of coordinators on one store, in any interleaving of
      their calls.
    - [EndToEnd]: how the fate of a node reaches the coordinator of its run: from
      a poke through the server and the bus, from a lost pod through the watcher.
    - [Encoding]: the JSON that the serde derives of the source write and read:
      run states with their pipeline documents, events, status objects. It builds
      the libraries that [RedisStore], [Backplane] and [Coordinator] take as
      parameters from a JSON printer and parser.

    ** How the code is represented

    A method of a stateful component is a function on the component's state
    ([M S A] is [S → A * S]) with the same guards, calls and early returns in
    the same order. A component that is reached through a trait object is a
    type class with the trait's methods; the coordinator is a definition over
    any instances of [StateStore], [Dispatcher] and [RunHistory], whose states
    are fields of its own. Errors are values of [result]. Unsigned 64-bit
    integers are integers whose wrapping, saturating and failing operations are
    written out. Hash maps are finite maps, and the order in which one is
    iterated is an arbitrary enumeration ([HashOrder]), so theorems hold for
    every order.

    Concurrency is a schedule. The coordinator's [select!] loop consumes a list
    of ticks; each tick carries what the other servers did to the store, the
    cluster and the history since the last iteration, the time that passed, and
    the event that [select!] picked. A timer task is an entry of
    [node_phase_handles] with its delay and its message; the schedules of
    [started_runs_end] deliver such messages. Tasks that only copy messages
    from one channel to another are the identity. [trace] is the one field that
    is not in the code: it lists the calls with an outside effect, so that
    theorems can speak of their order; it also shows the one place where the task
    of a coordinator can panic, [tokio::time::interval] on a zero period. Several
    coordinators on one store are programs over it: [System] runs each against an
    arbitrary sequence of answers of the store (its [Oracle]) and then interleaves
    the calls that they made, so that every order of the calls, with crashes
    between any two of them, is an execution.

    Libraries and services are parameters: the YAML and JSON parsers, the clock,
    the S3 client, the Kubernetes API, SHA-256, the AMQP client, tokio's broadcast
    channels, the session and OpenID Connect libraries, GitHub's API, HMAC, the
    config crate, and the constructors of the client libraries ([Clients]). Where
    a theorem relies on their documented behaviour, the law is a field of the
    class that introduces them ([KubeApi], [Digest], [StateStoreSpec],
    [BroadcastSpec], [SessionSpec], [ConfigLaws], [JsonText], [LuaText]), and the
    [Example] modules give concrete instances. A request that fails may have been
    carried out: the laws of [KubeApi] allow for an answer that is lost, and so do
    the servers of [RedisStore], [Postgres] and [Backplane]. One hypothesis is not
    a law of a class: [events_start_triggered_pipelines] takes every read of a
    file of a commit to get the same answer.

    ** What the theorems show

    - Documents ([Pipeline]): acceptance is exactly well-formedness, each error
      names a real defect, the hand-written scanners decide their grammars,
      triggers and merged node views are characterised.
    - Scheduling ([Run], [CoordinatorTheorems]): statuses only advance; a node is
      dispatched at most once and only after its dependencies succeeded; a
      coordinator that still waits after any schedule has a running node with a
      timer and nothing ready, and every started run ends once enough timers have
      fired, if the interval of the reconciliation is not zero and every renewal
      of its lease succeeds; how a failure stops it.
    - Ends: a run is given up exactly when it cannot subscribe or finds at a
      heartbeat that its lease is not renewed; every other run that ends is
      recorded exactly once, with success only if every node succeeded.
    - Leases and versions: saves are compare-and-swap, stale writers are
      rejected, tokens increase, a start takes a free lease and goes on from the
      stored run if it can read one. Whatever coordinators share a store and
      however their calls interleave, a stored run only advances and fits its
      pipeline, and between its first save and its deletion it is advanced by one
      of them per version ([System]).
    - The watcher reports each signal once and deletions only when justified.
    - History: rows are never lost, finalising only touches runs in progress,
      node rows merge, a listing is a page of one sorted list of all the matching
      runs; the nodes of a run are shown as recorded, or with what their status
      objects say while they are not completed.
    - Cluster objects: names fit, volumes do not clash, secrets are injected where
      asked, a dispatch that fails takes its config map back, the deadline covers
      the timeouts.
    - The Redis store refines the abstract machine of the contract even when
      answers are lost, and its tokens increase.
    - The reaper resumes orphans from their stored state, keeps recorded runs,
      records a finished run before it deletes it, and its sweep of unfinished
      rows only adds to the history.
    - The backplane: RabbitMQ publishes on the key that the run's queue is bound
      to; the bus delivers in order, to each subscriber, what was published since
      it joined, up to the capacity of the channel.
    - Tenants: a tenancy document is accepted exactly when it is valid; sessions
      only carry tenants that a verified token vouches for; a delivery acts only
      for the tenant whose app signed it; a run's routes answer only to its own
      tenant, who sees it as soon as it is launched.
    - Launches: events start the triggered pipelines of the commit, retries repeat
      a run of the same tenant, a run that needs its source has it, complete,
      before it takes a lease, and a run that is taken over keeps the check run of
      its row.
    - Round trips: a run state is read back from Redis as it was written, and an
      event from RabbitMQ as it was published ([Encoding]).
    - Completions: a poke that is answered with success reaches the run's
      coordinator, which gives the node the status that it would have found in S3;
      a coordinator that resumes a run fails the nodes whose pods are gone
      ([EndToEnd]).
    - Start: the settings are those of the last layer that has them, each from its
      own place and of its own type; the steps of the start are taken in order,
      each with its settings, and stop at the first failure ([AppConfig],
      [Startup]).
    - Surprises: the theorems [overtaken_coordinator_destroys_run],
      [rehydration_fails_healthy_node], [late_completion_erases_failure_code],
      [abort_cancels_no_node], [cyclic_document_completes_unrun],
      [root_mount_accepted], [distinct_nodes_share_a_job],
      [failed_read_reaps_live_run], [return_to_may_leave_site],
      [pull_request_runs_foreign_pipeline], [installation_needs_no_signature],
      [listing_mixes_slug_and_owner], [url_without_scheme_logs_password],
      [zero_interval_kills_runs], [duplicate_names_drop_a_node] and
      [recreation_overwrites_fresh_run] are
      about behaviour that the documentation does not announce.

    ** Bounds and fuel

    The upload loop takes fuel: one more than the number of bytes of the body,
    and every iteration sends at least one byte ([upload_parts_faithful] shows
    that it never runs out). Receiving from the in-memory bus takes two rounds:
    after a lag the next receive returns an event ([bus_delivers]). The event
    loop recurses on its schedule; [None] means that the schedule ended while the
    coordinator was still waiting. A readiness probe takes the number of checks
    that end before its timeout. Versions are below 10^14 where the
    contract of the store promises anything about them ([version_ok]): Redis'
    scripts read them as Lua numbers, which are exact that far. A schedule ends a started run when it has more timer messages than
    the run's weight (two for a pending node, one for a running one).

    ** Not modelled

    Logging, tracing and metrics ([log_vault_paths] among them); sqlx's
    encoding of rows and the JSON of the rows that only the API shows, which are
    the identity on their fields; serde_json's text and the reading of YAML, where
    the derived readers work on the parser's own events; path matching, CORS, tracing spans and the wait for the
    shutdown signal of the HTTP server, whose routes are the constructors of
    [Route]. Postgres is modelled as its two tables with their keys and one
    statement per transaction, as the code uses it; a statement that fails gives
    nothing back to the sequence of row ids. [System] has coordinators and
    deletions only: it leaves out the reaper's sweep of rows, which may replace a
    state that is still at version 0 ([recreation_overwrites_fresh_run]). *)

From Stdlib Require Export ZArith Ascii String Sorted.
From stdpp Require Export base tactics list gmap strings pretty sorting fin_maps.

#[global] Set Default Goal Selector "!".

(** ** Results: Rust's [Result<T, E>] with the [?] operator *)

Inductive result (E A : Type) : Type :=
| Ok (a : A)
| Err (e : E).
Arguments Ok {E A} a.
Arguments Err {E A} e.

#[export] Instance result_ret {E} : MRet (result E) := λ A a, Ok a.
#[export] Instance result_bind {E} : MBind (result E) :=
  λ A B f r, match r with Ok a => f a | Err e => Err e end.

Definition map_err {E E' A} (f : E → E') (r : result E A) : result E' A :=
  match r with Ok a => Ok a | Err e => Err (f e) end.

Definition is_ok {E A} (r : result E A) : bool :=
  match r with Ok _ => true | Err _ => false end.

(** [Result::ok] *)
Definition ok {E A} (r : result E A) : option A :=
  match r with Ok a => Some a | Err _ => None end.

Definition unwrap_or {A} (d : A) (o : option A) : A := default d o.

(** A [for] loop whose body may return early with an error. *)
Fixpoint try_each {E A} (f : A → result E unit) (l : list A) : result E unit :=
  match l with
  | [] => Ok ()
  | x :: l => match f x with Ok _ => try_each f l | Err e => Err e end
  end.

(** [if cond { return Err(e) }] *)
Definition ensure {E} (b : bool) (e : E) : result E unit :=
  if b then Ok () else Err e.

(** ** State-passing programs

    A stateful operation maps the state to its result and the new state. *)

Definition M (S A : Type) : Type := S → A * S.

#[export] Instance state_ret {S} : MRet (M S) := λ A a s, (a, s).
#[export] Instance state_bind {S} : MBind (M S) :=
  λ A B f m s, let '(a, s') := m s in f a s'.

Definition gets {S A} (f : S → A) : M S A := λ s, (f s, s).
Definition modify {S} (f : S → S) : M S unit := λ s, ((), f s).

(** [for x in l { body(x) }] *)
Fixpoint for_each {S A} (l : list A) (body : A → M S unit) : M S unit :=
  match l with
  | [] => mret ()
  | x :: l => _ ← body x; for_each l body
  end.

(** [for x in l { if body(x) { return true } } false] *)
Fixpoint for_until {S A} (l : list A) (body : A → M S bool) : M S bool :=
  match l with
  | [] => mret false
  | x :: l => b ← body x; if (b : bool) then mret true else for_until l body
  end.

(** ** Machine integers

    Unsigned and signed 64-bit integers are integers in range; the wrapping,
    saturating and fallible conversions are written out. *)

Definition u64_max : Z := 18446744073709551615.
Definition i64_max : Z := 9223372036854775807.
Definition u64_add (a b : Z) : Z := ((a + b) `mod` (u64_max + 1))%Z.
Definition u64_saturating_add (a b : Z) : Z := Z.min (a + b)%Z u64_max.
Definition u64_saturating_sub (a b : Z) : Z := Z.max (a - b)%Z 0.
(** [x as i64] *)
Definition as_i64 (x : Z) : Z :=
  let r := (x `mod` (u64_max + 1))%Z in
  if decide (r ≤ i64_max)%Z then r else (r - (u64_max + 1))%Z.
(** [x as u64] *)
Definition as_u64 (x : Z) : Z := (x `mod` (u64_max + 1))%Z.
(** [x as u32] *)
Definition as_u32 (x : Z) : Z := (x `mod` 4294967296)%Z.
(** [i64::try_from], [u32::try_from] of an unsigned value *)
Definition try_i64 (x : Z) : option Z := if decide (x ≤ i64_max)%Z then Some x else None.
Definition try_u32 (x : Z) : option Z := if decide (x < 4294967296)%Z then Some x else None.

(** ** Strings

    A Rust string is its sequence of UTF-8 bytes. *)

Abbreviation bytes := String.list_ascii_of_string.
Abbreviation of_bytes := String.string_of_list_ascii.

Definition byte_in (lo hi c : ascii) : bool :=
  (nat_of_ascii lo <=? nat_of_ascii c) && (nat_of_ascii c <=? nat_of_ascii hi).
Definition is_ascii_lowercase (c : ascii) : bool := byte_in "a" "z" c.
Definition is_ascii_uppercase (c : ascii) : bool := byte_in "A" "Z" c.
Definition is_ascii_digit (c : ascii) : bool := byte_in "0" "9" c.
Definition is_ascii_alphabetic (c : ascii) : bool := is_ascii_lowercase c || is_ascii_uppercase c.
Definition is_ascii_alphanumeric (c : ascii) : bool := is_ascii_alphabetic c || is_ascii_digit c.
Definition to_ascii_lowercase (c : ascii) : ascii :=
  if is_ascii_uppercase c then ascii_of_nat (nat_of_ascii c + 32) else c.

Definition byte_eqb (a b : ascii) : bool := bool_decide (a = b).
Definition str_eqb (a b : string) : bool := bool_decide (a = b).
#[global] Arguments byte_eqb : simpl never.
#[global] Arguments str_eqb : simpl never.

(** [s.strip_prefix(p)] *)
Fixpoint strip_prefix (p s : string) : option string :=
  match p, s with
  | EmptyString, _ => Some s
  | String a p, String b s => if byte_eqb a b then strip_prefix p s else None
  | String _ _, EmptyString => None
  end.
Definition starts_with (p s : string) : bool := bool_decide (is_Some (strip_prefix p s)).

(** [s.ends_with(c)] for a one-byte character, [s.ends_with(suffix)] *)
Definition ends_with_byte (c : ascii) (s : string) : bool :=
  match last (bytes s) with Some d => byte_eqb c d | None => false end.
Definition ends_with (p s : string) : bool := bool_decide (suffix (bytes p) (bytes s)).

(** [s.contains(p)] *)
Fixpoint contains (p s : string) : bool :=
  starts_with p s || match s with EmptyString => false | String _ s => contains p s end.

(** [s.split(c)]: always at least one piece. *)
Fixpoint split_byte (c : ascii) (s : string) : list string :=
  match s with
  | EmptyString => [EmptyString]
  | String d s =>
      if byte_eqb c d then EmptyString :: split_byte c s
      else match split_byte c s with
           | w :: ws => String d w :: ws
           | [] => [String d EmptyString]
           end
  end.

(** [s.split_once(c)] and [s.rsplit_once(c)] *)
Fixpoint split_once (c : ascii) (s : string) : option (string * string) :=
  match s with
  | EmptyString => None
  | String d s =>
      if byte_eqb c d then Some (EmptyString, s)
      else match split_once c s with
           | Some (a, b) => Some (String d a, b)
           | None => None
           end
  end.
Fixpoint rsplit_once (c : ascii) (s : string) : option (string * string) :=
  match s with
  | EmptyString => None
  | String d s =>
      match rsplit_once c s with
      | Some (a, b) => Some (String d a, b)
      | None => if byte_eqb c d then Some (EmptyString, s) else None
      end
  end.

(** ** Hash maps and hash sets

    Their contents are finite maps and sets; the order in which the standard
    library iterates over them is not specified, so it is a parameter: any
    enumeration of the entries. *)

Class HashOrder : Type := {
  hash_iter : ∀ {A : Type}, gmap string A → list (string * A);
  hash_iter_perm : ∀ {A : Type} (m : gmap string A), hash_iter m ≡ₚ map_to_list m;
}.

(** One possible order, used to evaluate the definitions. *)
Definition canonical_order : HashOrder :=
  {| hash_iter := λ A m, map_to_list m; hash_iter_perm := λ A m, reflexivity _ |}.

Definition hash_keys `{HashOrder} {A} (m : gmap string A) : list string := (hash_iter m).*1.
Definition hash_values `{HashOrder} {A} (m : gmap string A) : list A := (hash_iter m).*2.

(** Ordered sets and maps iterate in byte-lexicographic key order. *)
Definition btree_keys (s : gset string) : list string := merge_sort String.le (elements s).
Definition btree_values {A} (m : gmap string A) : list A :=
  omap (λ k, m !! k) (btree_keys (dom m)).

(** ** Tactics *)

Create Rewrite HintDb bools.

(** Case analysis on the boolean or option tested by the goal. *)
Ltac break_match :=
  match goal with
  | |- context [match ?x with _ => _ end] => destruct x eqn:?
  end.
Ltac break_match_in H :=
  match type of H with
  | context [match ?x with _ => _ end] => destruct x eqn:?
  end.
Ltac reflect_bools :=
  repeat match goal with
  | H : (_ && _) = true |- _ => apply andb_true_iff in H as [? ?]
  | H : (_ || _) = false |- _ => apply orb_false_iff in H as [? ?]
  | H : negb _ = true |- _ => apply negb_true_iff in H
  | H : negb _ = false |- _ => apply negb_false_iff in H
  | H : bool_decide _ = true |- _ => apply bool_decide_eq_true in H
  | H : bool_decide _ = false |- _ => apply bool_decide_eq_false in H
  end.

(** ** Generic lemmas *)

Section results.
Context {E A : Type}.
Implicit Types (r : result E A) (f : A → result E unit) (l : list A).

Lemma try_each_ok f l : try_each f l = Ok () ↔ Forall (λ x, f x = Ok ()) l.
Proof.
  induction l as [|x l IH]; simpl; [by split|].
  rewrite Forall_cons. destruct (f x) as [[]|e] eqn:Hx; [by naive_solver|].
  split; [done|]. intros [? _]; congruence.
Qed.

Lemma try_each_err f l e :
  try_each f l = Err e ↔
  ∃ l1 x l2, l = l1 ++ x :: l2 ∧ Forall (λ y, f y = Ok ()) l1 ∧ f x = Err e.
Proof.
  induction l as [|x l IH]; simpl.
  { split; [done|]. intros (l1 & ? & ? & ? & _); by destruct l1. }
  destruct (f x) as [[]|e'] eqn:Hx.
  - rewrite IH. split.
    + intros (l1 & y & l2 & -> & ? & ?). exists (x :: l1), y, l2. naive_solver.
    + intros (l1 & y & l2 & Heq & Hl & Hy). destruct l1 as [|z l1]; simplify_eq/=; [congruence|].
      inversion Hl; subst. eauto 10.
  - split.
    + intros [= ->]. exists [], x, l. by rewrite Hx.
    + intros (l1 & y & l2 & Heq & Hl & Hy). destruct l1 as [|z l1]; simplify_eq/=; [congruence|].
      inversion Hl; subst. congruence.
Qed.

Lemma ensure_ok b (e : E) : ensure b e = Ok () ↔ b = true.
Proof. by destruct b. Qed.
End results.

(** ** Strings as lists of bytes *)
Lemma byte_eqb_true a b : byte_eqb a b = true ↔ a = b.
Proof. apply bool_decide_eq_true. Qed.
Lemma byte_eqb_false a b : byte_eqb a b = false ↔ a ≠ b.
Proof. apply bool_decide_eq_false. Qed.
Lemma str_eqb_true a b : str_eqb a b = true ↔ a = b.
Proof. apply bool_decide_eq_true. Qed.
Lemma str_eqb_false a b : str_eqb a b = false ↔ a ≠ b.
Proof. apply bool_decide_eq_false. Qed.
Lemma byte_eqb_refl a : byte_eqb a a = true.
Proof. by apply byte_eqb_true. Qed.

#[export] Hint Rewrite byte_eqb_true byte_eqb_false str_eqb_true str_eqb_false byte_eqb_refl
  negb_true_iff negb_false_iff andb_true_iff orb_true_iff andb_false_iff orb_false_iff
  bool_decide_eq_true bool_decide_eq_false : bools.

Lemma bytes_app (a b : string) : bytes (a +:+ b) = bytes a ++ bytes b.
Proof. induction a as [|c a IH]; [done|]. simpl. by f_equal. Qed.
Lemma bytes_inj (a b : string) : bytes a = bytes b → a = b.
Proof.
  intros H. rewrite <-(string_of_list_ascii_of_string a), <-(string_of_list_ascii_of_string b).
  by f_equal.
Qed.
Lemma bytes_length (a : string) : length (bytes a) = String.length a.
Proof. induction a as [|c a IH]; simpl; congruence. Qed.
Lemma bytes_of_bytes (l : list ascii) : bytes (of_bytes l) = l.
Proof. apply list_ascii_of_string_of_list_ascii. Qed.
Lemma str_length_app (a b : string) : String.length (a +:+ b) = String.length a + String.length b.
Proof. by rewrite <-!bytes_length, bytes_app, length_app. Qed.
Lemma str_app_assoc (a b c : string) : (a +:+ b) +:+ c = a +:+ (b +:+ c).
Proof. apply bytes_inj. by rewrite !bytes_app, (assoc_L (++)). Qed.
Lemma str_app_nil_r (a : string) : a +:+ "" = a.
Proof. apply bytes_inj. by rewrite bytes_app, app_nil_r. Qed.
Lemma app_tail_inj (a b t : string) : a +:+ t = b +:+ t → a = b.
Proof.
  intros Heq. apply bytes_inj. apply (f_equal bytes) in Heq. rewrite !bytes_app in Heq.
  by apply app_inv_tail in Heq.
Qed.
Lemma bytes_nil (a : string) : bytes a = [] ↔ a = "".
Proof. by destruct a. Qed.

Lemma strip_prefix_some p s t : strip_prefix p s = Some t ↔ s = p +:+ t.
Proof.
  revert s; induction p as [|a p IH]; intros s; simpl.
  - split; [by intros [= ->]|by intros ->].
  - destruct s as [|b s]; [by split|].
    destruct (byte_eqb a b) eqn:E; autorewrite with bools in E.
    + subst b. rewrite IH. split; [by intros ->|]. intros H. by injection H.
    + split; [done|]. intros H. injection H. congruence.
Qed.
Lemma strip_prefix_app p t : strip_prefix p (p +:+ t) = Some t.
Proof. by apply strip_prefix_some. Qed.
Lemma starts_with_true p s : starts_with p s = true ↔ ∃ t, s = p +:+ t.
Proof.
  unfold starts_with. rewrite bool_decide_eq_true. split.
  - intros [t Ht]. exists t. by apply strip_prefix_some.
  - intros [t Ht]. exists t. by apply strip_prefix_some.
Qed.
Lemma starts_with_cons a p b s :
  starts_with (String a p) (String b s) = byte_eqb a b && starts_with p s.
Proof. unfold starts_with; simpl. by destruct (byte_eqb a b). Qed.
Lemma starts_with_nil s : starts_with "" s = true.
Proof. apply starts_with_true. by exists s. Qed.

Lemma split_byte_nonempty c s : split_byte c s ≠ [].
Proof. induction s as [|d s IH]; simpl; [done|]. repeat case_match; done. Qed.
Lemma split_byte_sep c s : split_byte c (String c s) = "" :: split_byte c s.
Proof. simpl. by rewrite byte_eqb_refl. Qed.
Lemma split_byte_other c d s w ws :
  c ≠ d → split_byte c s = w :: ws → split_byte c (String d s) = String d w :: ws.
Proof. intros Hcd Hs. simpl. apply byte_eqb_false in Hcd. by rewrite Hcd, Hs. Qed.
(** A separator-free prefix stays in the first piece. *)
Lemma split_byte_app c a b :
  c ∉ bytes a → split_byte c (a +:+ String c b) = a :: split_byte c b.
Proof.
  induction a as [|d a IH]; intros Ha; simpl.
  - apply split_byte_sep.
  - assert (c ≠ d ∧ c ∉ bytes a) as [? ?] by set_solver.
    by apply split_byte_other; [|apply IH].
Qed.
Lemma split_byte_none c a : c ∉ bytes a → split_byte c a = [a].
Proof.
  induction a as [|d a IH]; intros Ha; simpl; [done|].
  assert (c ≠ d ∧ c ∉ bytes a) as [Hd ?] by set_solver.
  apply byte_eqb_false in Hd. by rewrite Hd, IH.
Qed.

Lemma ends_with_byte_cons c d s :
  ends_with_byte c (String d s) = if str_eqb s "" then byte_eqb c d else ends_with_byte c s.
Proof. destruct s as [|e s]; [done|]. reflexivity. Qed.

Lemma split_tail_segments c s :
  Forall (.≠ "") (tail (split_byte c s)) ↔
  ends_with_byte c s = false ∧ contains (String c (String c "")) s = false.
Proof.
  induction s as [|d s IH]; [by split; auto|].
  rewrite ends_with_byte_cons. simpl contains. rewrite starts_with_cons.
  destruct (byte_eqb c d) eqn:Hcd; autorewrite with bools in Hcd.
  - subst d. rewrite split_byte_sep. simpl tail.
    destruct s as [|e s]; [by split; [intros ?%Forall_inv|intros []]|].
    rewrite starts_with_cons, starts_with_nil, andb_true_r. replace (str_eqb (String e s) "") with false by done.
    destruct (split_byte c (String e s)) as [|w ws] eqn:Hs; [by apply split_byte_nonempty in Hs|].
    simpl in IH. rewrite Forall_cons, IH. destruct (byte_eqb c e) eqn:Hce; autorewrite with bools in Hce.
    + subst e. rewrite split_byte_sep in Hs. injection Hs as <- _. naive_solver.
    + simpl orb. assert (w ≠ ""); [|tauto].
      simpl in Hs. apply byte_eqb_false in Hce. rewrite Hce in Hs. case_match; by simplify_eq.
  - destruct (split_byte c s) as [|w ws] eqn:Hs; [by apply split_byte_nonempty in Hs|].
    rewrite (split_byte_other _ _ _ _ _ Hcd Hs). simpl tail in *. rewrite IH.
    destruct s as [|e s]; [|by rewrite starts_with_cons].
    by replace (str_eqb "" "") with true by done.
Qed.

(** ** Enumerations of maps and sets *)
Lemma elem_of_hash_iter `{HashOrder} {A} (m : gmap string A) k v :
  (k, v) ∈ hash_iter m ↔ m !! k = Some v.
Proof. by rewrite (hash_iter_perm m), elem_of_map_to_list. Qed.
Lemma elem_of_hash_keys `{HashOrder} {A} (m : gmap string A) k :
  k ∈ hash_keys m ↔ is_Some (m !! k).
Proof.
  unfold hash_keys. rewrite list_elem_of_fmap. split.
  - intros ([k' v] & -> & Hin). apply elem_of_hash_iter in Hin. eauto.
  - intros [v Hv]. exists (k, v). by rewrite elem_of_hash_iter.
Qed.
Lemma NoDup_hash_iter `{HashOrder} {A} (m : gmap string A) : NoDup (hash_iter m).
Proof. rewrite (hash_iter_perm m). apply NoDup_map_to_list. Qed.
Lemma NoDup_hash_keys `{HashOrder} {A} (m : gmap string A) : NoDup (hash_keys m).
Proof. unfold hash_keys. rewrite (hash_iter_perm m). apply NoDup_fst_map_to_list. Qed.
Lemma elem_of_hash_values `{HashOrder} {A} (m : gmap string A) v :
  v ∈ hash_values m ↔ ∃ k, m !! k = Some v.
Proof.
  unfold hash_values. rewrite list_elem_of_fmap. split.
  - intros ([k v'] & -> & Hin). apply elem_of_hash_iter in Hin. eauto.
  - intros [k Hk]. exists (k, v). by rewrite elem_of_hash_iter.
Qed.
Lemma NoDup_hash_values `{HashOrder} {A} (m : gmap string A) :
  NoDup (hash_values m) ↔ ∀ i j x, m !! i = Some x → m !! j = Some x → i = j.
Proof.
  unfold hash_values. split.
  - intros Hnd i j x Hi Hj. apply elem_of_hash_iter in Hi, Hj.
    apply list_elem_of_lookup in Hi as [a Ha], Hj as [b Hb].
    assert (a = b) as ->; [|congruence].
    eapply (NoDup_lookup _ _ _ x Hnd); rewrite list_lookup_fmap; [by rewrite Ha|by rewrite Hb].
  - intros Hinj. apply NoDup_fmap_2_strong; [|apply NoDup_hash_iter].
    intros [i x] [j y] Hi Hj ?; simplify_eq/=. apply elem_of_hash_iter in Hi, Hj.
    f_equal. eauto.
Qed.

Lemma elem_of_btree_keys (s : gset string) k : k ∈ btree_keys s ↔ k ∈ s.
Proof. unfold btree_keys. by rewrite merge_sort_Permutation, elem_of_elements. Qed.
Lemma btree_keys_sorted (s : gset string) : StronglySorted String.le (btree_keys s).
Proof. apply StronglySorted_merge_sort; apply _. Qed.
Lemma NoDup_btree_keys (s : gset string) : NoDup (btree_keys s).
Proof. unfold btree_keys. rewrite merge_sort_Permutation. apply NoDup_elements. Qed.
Lemma elem_of_btree_values {A} (m : gmap string A) v : v ∈ btree_values m ↔ ∃ k, m !! k = Some v.
Proof.
  unfold btree_values. rewrite list_elem_of_omap. split.
  - intros (k & _ & Hk). eauto.
  - intros (k & Hk). exists k. split; [|done]. apply elem_of_btree_keys, elem_of_dom. eauto.
Qed.

(** A hash set is a hash map to unit; it iterates like one. *)
Definition hash_set_iter `{HashOrder} (s : gset string) : list string := hash_keys (gset_to_gmap () s).
Lemma elem_of_hash_set_iter `{HashOrder} (s : gset string) x : x ∈ hash_set_iter s ↔ x ∈ s.
Proof.
  unfold hash_set_iter. rewrite elem_of_hash_keys. split.
  - intros [[] Hx]. by apply lookup_gset_to_gmap_Some in Hx as [? _].
  - intros Hx. exists (). by apply lookup_gset_to_gmap_Some.
Qed.

(** [iter.map(..).collect::<HashMap<_, _>>()]: a later entry replaces an
    earlier one of the same key. *)
Definition collect_map {A B} (key : A → string) (val : A → B) (l : list A) : gmap string B :=
  foldl (λ m x, <[key x := val x]> m) ∅ l.
Lemma collect_map_snoc {A B} (key : A → string) (val : A → B) l x :
  collect_map key val (l ++ [x]) = <[key x := val x]> (collect_map key val l).
Proof. unfold collect_map. by rewrite foldl_app. Qed.
Lemma collect_map_lookup_Some {A B} (key : A → string) (val : A → B) l k v :
  collect_map key val l !! k = Some v → ∃ x, x ∈ l ∧ key x = k ∧ val x = v.
Proof.
  induction l as [|x l IH] using rev_ind; [done|]. rewrite collect_map_snoc, lookup_insert_Some.
  intros [[<- <-]|[_ (y & ? & ? & ?)%IH]]; [exists x|exists y]; set_solver.
Qed.
(** The last separator splits. *)
Lemma rsplit_once_none c s : c ∉ bytes s → rsplit_once c s = None.
Proof.
  induction s as [|d s IH]; [done|]. intros Hc. cbn. rewrite IH by set_solver. by rewrite (proj2 (byte_eqb_false c d)) by set_solver.
Qed.
Lemma rsplit_once_last c a b : c ∉ bytes b → rsplit_once c (a +:+ String c b) = Some (a, b).
Proof.
  intros Hb. induction a as [|d a IH].
  - change ("" +:+ String c b) with (String c b). cbn [rsplit_once]. by rewrite (rsplit_once_none c b Hb), (proj2 (byte_eqb_true c c) eq_refl).
  - change (String d a +:+ String c b) with (String d (a +:+ String c b)). cbn [rsplit_once]. by rewrite IH.
Qed.
Lemma collect_map_last {A B} (key : A → string) (val : A → B) l k v :
  collect_map key val l !! k = Some v → ∃ before x after, l = before ++ x :: after ∧ key x = k ∧ (k ∉ key <$> after) ∧ val x = v.
Proof.
  induction l as [|x l IH] using rev_ind; [done|]. rewrite collect_map_snoc, lookup_insert_Some.
  intros [[<- <-]|[Hne (b & y & a & -> & ? & ? & ?)%IH]]; [exists l, x, []; set_solver|].
  exists b, y, (a ++ [x]). rewrite <-app_assoc, fmap_app. set_solver.
Qed.
Lemma collect_map_dom {A B} (key : A → string) (val : A → B) l :
  dom (collect_map key val l) = list_to_set (key <$> l) :> gset string.
Proof.
  induction l as [|x l IH] using rev_ind; [apply dom_empty_L|].
  rewrite collect_map_snoc, dom_insert_L, IH, fmap_app, list_to_set_app_L. set_solver.
Qed.
Lemma collect_map_lookup_is_Some {A B} (key : A → string) (val : A → B) l k :
  is_Some (collect_map key val l !! k) ↔ k ∈ key <$> l.
Proof. by rewrite <-elem_of_dom, collect_map_dom, elem_of_list_to_set. Qed.

(** ** Maps kept under prefixed keys

    A store that keeps objects of several kinds under string keys, seen as the
    map of one kind. *)
Definition keyed_map {A B} (unkey : string → option string) (dec : A → option B) (m : gmap string A) : gmap string B :=
  map_fold (λ k v acc, match unkey k, dec v with Some r, Some b => <[r := b]> acc | _, _ => acc end) ∅ m.

Section keyed.
Context {A B : Type} (key : string → string) (unkey : string → option string) (dec : A → option B).
Hypothesis unkey_key : ∀ k r, unkey k = Some r ↔ k = key r.

Lemma keyed_map_lookup m r : keyed_map unkey dec m !! r = m !! key r ≫= dec.
Proof.
  unfold keyed_map. revert r.
  refine (map_fold_weak_ind (λ acc m, ∀ r, acc !! r = m !! key r ≫= dec) _ _ _ _ m); [done|].
  intros k v m' acc Hk IH r. destruct (unkey k) as [r0|] eqn:Hu.
  - apply unkey_key in Hu as ->. destruct (decide (r0 = r)) as [->|Hne].
    + rewrite lookup_insert_eq. simpl. destruct (dec v) as [b|]; [by rewrite lookup_insert_eq|]. by rewrite IH, Hk.
    + assert (key r0 ≠ key r) as Hkey.
      { intros Heq. pose proof (proj2 (unkey_key (key r) r0) (eq_sym Heq)) as H1.
        pose proof (proj2 (unkey_key (key r) r) eq_refl) as H2. congruence. }
      rewrite lookup_insert_ne by done. destruct (dec v); [rewrite lookup_insert_ne by done|]; apply IH.
  - rewrite lookup_insert_ne; [apply IH|]. intros ->. by rewrite (proj2 (unkey_key (key r) r) eq_refl) in Hu.
Qed.

Lemma keyed_map_insert m r v b : dec v = Some b →
  keyed_map unkey dec (<[key r := v]> m) = <[r := b]> (keyed_map unkey dec m).
Proof.
  intros Hv. apply map_eq. intros q. rewrite keyed_map_lookup, !lookup_insert. case_decide as Hk; case_decide as Hr.
  - exact Hv.
  - exfalso. apply Hr. pose proof (proj2 (unkey_key (key q) r) (eq_sym Hk)) as H1.
    pose proof (proj2 (unkey_key (key q) q) eq_refl) as H2. congruence.
  - subst. done.
  - by rewrite keyed_map_lookup.
Qed.
Lemma keyed_map_delete m r : keyed_map unkey dec (delete (key r) m) = delete r (keyed_map unkey dec m).
Proof.
  apply map_eq. intros q. rewrite keyed_map_lookup, !lookup_delete. case_decide as Hk; case_decide as Hr; try done.
  - exfalso. apply Hr. pose proof (proj2 (unkey_key (key q) r) (eq_sym Hk)) as H1.
    pose proof (proj2 (unkey_key (key q) q) eq_refl) as H2. congruence.
  - subst. done.
  - by rewrite keyed_map_lookup.
Qed.
Lemma keyed_map_other m m' : (∀ r, m' !! key r = m !! key r) → keyed_map unkey dec m' = keyed_map unkey dec m.
Proof. intros Heq. apply map_eq. intros q. by rewrite !keyed_map_lookup, Heq. Qed.
End keyed.

(** [s.strip_suffix(p)] *)
Definition strip_suffix (p s : string) : option string :=
  (λ t, of_bytes (reverse (bytes t))) <$> strip_prefix (of_bytes (reverse (bytes p))) (of_bytes (reverse (bytes s))).
Lemma strip_suffix_some p s t : strip_suffix p s = Some t ↔ s = t +:+ p.
Proof.
  unfold strip_suffix. split.
  - intros (u & Hu & ->)%fmap_Some. apply strip_prefix_some in Hu. apply bytes_inj.
    apply (f_equal (λ x, reverse (bytes x))) in Hu. rewrite bytes_app, !bytes_of_bytes, reverse_app, !reverse_involutive in Hu.
    by rewrite bytes_app, bytes_of_bytes.
  - intros ->. apply fmap_Some. exists (of_bytes (reverse (bytes t))). split.
    + apply strip_prefix_some, bytes_inj. by rewrite bytes_of_bytes, !bytes_app, reverse_app, !bytes_of_bytes.
    + rewrite bytes_of_bytes, reverse_involutive. apply bytes_inj. by rewrite bytes_of_bytes.
Qed.

(** ** Relations between the states before and after a program *)

Definition preserves {S A} (R : S → S → Prop) (m : M S A) : Prop := ∀ s, R s (m s).2.

Section preserves.
Context {S : Type} (R : S → S → Prop) `{!PreOrder R}.

Lemma preserves_ret {A} (a : A) : preserves R (mret a).
Proof. intros s. reflexivity. Qed.
Lemma preserves_bind {A B} (m : M S A) (f : A → M S B) :
  preserves R m → (∀ a, preserves R (f a)) → preserves R (m ≫= f).
Proof.
  intros Hm Hf s. unfold mbind, state_bind. specialize (Hm s). destruct (m s) as [a s1].
  etrans; [exact Hm|apply Hf].
Qed.
Lemma preserves_gets {A} (f : S → A) : preserves R (gets f).
Proof. intros s. reflexivity. Qed.
Lemma preserves_for_each {A} (l : list A) body : (∀ a, preserves R (body a)) → preserves R (for_each l body).
Proof. intros Hb. induction l as [|a l IH]; [apply preserves_ret|]. by apply preserves_bind. Qed.
Lemma preserves_for_until {A} (l : list A) body : (∀ a, preserves R (body a)) → preserves R (for_until l body).
Proof.
  intros Hb. induction l as [|a l IH]; [apply preserves_ret|]. apply preserves_bind; [done|].
  intros []; [apply preserves_ret|done].
Qed.
Lemma preserves_mono {A} (R' : S → S → Prop) (m : M S A) :
  (∀ s s', R s s' → R' s s') → preserves R m → preserves R' m.
Proof. intros HR Hm s. apply HR, Hm. Qed.
End preserves.

(** ** State-passing programs that may fail *)
Lemma bind_eq {S A B} (m : M S A) (f : A → M S B) s : (m ≫= f) s = f (m s).1 (m s).2.
Proof. unfold mbind, state_bind. by destruct (m s). Qed.

(** The [?] operator between calls. *)
Definition bind_ok {S E A B} (m : M S (result E A)) (f : A → M S (result E B)) : M S (result E B) :=
  r ← m; match r with Ok a => f a | Err e => mret (Err e) end.
Notation "x ←? m ; k" := (bind_ok m (λ x, k)) (at level 20, m at level 100, k at level 200, only parsing).

Lemma preserves_bind_ok {S E A B} (R : S → S → Prop) `{!PreOrder R} (m : M S (result E A)) (f : A → M S (result E B)) :
  preserves R m → (∀ a, preserves R (f a)) → preserves R (bind_ok m f).
Proof. intros Hm Hf. apply preserves_bind; [done..|]. intros [a|e]; [apply Hf|by apply preserves_ret]. Qed.

(** How a server deals with a request: it answers, it refuses, or it executes
    the request and the answer is lost. *)
Inductive Reply := Served | Refused (msg : string) | Lost (msg : string).
