(* ===== verification/Json.v ===== *)
(** * JSON values (serde_json)

    The value type that the webhook and token payloads are parsed into, and the
    accessors the code uses on it. Parsing text is a parameter of the users. *)

From S2P Require Import Prelude.

#[warnings="-register-all"]
Inductive Json :=
| JNull
| JBool (b : bool)
| JNumber (text : string)
| JString (s : string)
| JArray (items : list Json)
| JObject (fields : list (string * Json)).

Definition json_assoc (key : string) (fields : list (string * Json)) : option Json :=
  snd <$> List.find (λ p, str_eqb p.1 key) fields.

(** [v.get(key)] *)
Definition json_get (key : string) (v : Json) : option Json :=
  match v with JObject fields => json_assoc key fields | _ => None end.
(** [v.pointer("/a/b")], for names that are not array indices. *)
Fixpoint json_pointer (path : list string) (v : Json) : option Json :=
  match path with
  | [] => Some v
  | key :: path => json_get key v ≫= json_pointer path
  end.
Definition as_str (v : Json) : option string := match v with JString s => Some s | _ => None end.
Definition as_array (v : Json) : option (list Json) := match v with JArray l => Some l | _ => None end.
