(* ===== verification/Http.v ===== *)
(** * HTTP status codes *)

From S2P Require Import Prelude.

Definition OK : Z := 200.
Definition NO_CONTENT : Z := 204.
Definition SEE_OTHER : Z := 303.
Definition BAD_REQUEST : Z := 400.
Definition UNAUTHORIZED : Z := 401.
Definition FORBIDDEN : Z := 403.
Definition NOT_FOUND : Z := 404.
Definition INTERNAL_SERVER_ERROR : Z := 500.
Definition NOT_IMPLEMENTED : Z := 501.
Definition SERVICE_UNAVAILABLE : Z := 503.
