(* ===== verification/Tenancy.v ===== *)
(** * Tenants and GitHub apps (tenancy/src/lib.rs)

    The tenancy document, its validation, and the registries that webhooks and
    logins are resolved against. The YAML parser and the file system are
    parameters. The file proves which documents are accepted and what a look-up
    in the registries of an accepted document returns. *)

From S2P Require Import Prelude.

(** ** The document *)

Record GithubAppConfig := mkApp { app_id_of : string; app_app_id : string; app_webhook_secret : string; app_private_key : string }.

Record GithubTenantBinding := mkBinding { org_name : string; app_ref : string }.
Inductive TenantProvider := Github (binding : GithubTenantBinding).
Record TenantConfig := mkTenant {
  slug : string; display_name : option string; connector_ids : list string; provider : TenantProvider }.
Definition github_binding (t : TenantConfig) : GithubTenantBinding := match provider t with Github b => b end.

Record TenancyDocument := mkDocument { github_apps : list GithubAppConfig; tenants : list TenantConfig }.

Inductive TenancyError :=
| TenancyNotFound (path : string)
| TenancyIo (path source : string)
| TenancyParse (msg : string)
| TenancyValidation (msg : string).

Record GithubAppRegistry := mkAppRegistry { by_id : gmap string GithubAppConfig }.
Record TenantRegistry := mkTenantRegistry {
  by_slug : gmap string TenantConfig;
  by_connector_and_org : gmap (string * string) TenantConfig;
  by_app_and_org : gmap (string * string) TenantConfig }.
Record TenancyRegistry := mkRegistry { reg_apps : GithubAppRegistry; reg_tenants : TenantRegistry }.

Definition find_for_connector_and_org (r : TenantRegistry) (connector_id org : string) : option TenantConfig :=
  by_connector_and_org r !! (connector_id, org).

(** ** Text *)

(** The first character of UTF-8 text. *)
Definition first_char (s : string) : string :=
  match s with
  | EmptyString => ""
  | String c _ =>
      let n := nat_of_ascii c in
      of_bytes (take (if (n <? 128)%nat then 1 else if (n <? 224)%nat then 2 else if (n <? 240)%nat then 3 else 4) (bytes s))
  end.

(** [s.trim().is_empty()]: nothing but Unicode white space. *)
Fixpoint is_blank (l : list N) : bool :=
  match l with
  | [] => true
  | (32 | 9 | 10 | 11 | 12 | 13)%N :: l => is_blank l
  | (194 :: (133 | 160) :: l)%N => is_blank l
  | (225 :: 154 :: 128 :: l)%N => is_blank l
  | (226 :: 128 :: c :: l)%N =>
      ((c <=? 138) && (128 <=? c) || (c =? 168) || (c =? 169) || (c =? 175))%N && is_blank l
  | (226 :: 129 :: 159 :: l)%N => is_blank l
  | (227 :: 128 :: 128 :: l)%N => is_blank l
  | _ => false
  end.
Definition trim_is_empty (s : string) : bool := is_blank (N_of_ascii <$> bytes s).

(** [s.parse::<u64>()] *)
Definition digits_value (l : list ascii) : option Z :=
  foldl (λ acc c, v ← acc; if is_ascii_digit c then Some (v * 10 + Z.of_nat (nat_of_ascii c) - 48)%Z else None) (Some 0%Z) l.
Definition parse_u64 (s : string) : option Z :=
  let digits := match bytes s with "+"%char :: l => l | l => l end in
  match digits with
  | [] => None
  | _ => v ← digits_value digits; if (v <=? u64_max)%Z then Some v else None
  end.

(** ** Validation *)

Definition invalid {A} (msg : string) : result TenancyError A := Err (TenancyValidation msg).

Definition is_slug_alnum (c : ascii) : bool := is_ascii_lowercase c || is_ascii_digit c.
Definition is_org_alnum (c : ascii) : bool := is_ascii_alphanumeric c.

(** The loop over the characters after the first. *)
Fixpoint check_chars (ok : ascii → bool) (bad : string → string) (s : string) : result TenancyError unit :=
  match s with
  | EmptyString => Ok ()
  | String c rest => if ok c || byte_eqb c "-" then check_chars ok bad rest else invalid (bad (first_char s))
  end.

Definition SLUG_MAX_LEN : nat := 63.
Definition APP_ID_MAX_LEN : nat := 63.
Definition ORG_NAME_MAX_LEN : nat := 39.

Definition validate_dns_label (value : string) (max_len : nat) (label : string) : result TenancyError unit :=
  match value with
  | EmptyString => invalid (label +:+ " must not be empty")
  | String c rest =>
      if (max_len <? String.length value)%nat
      then invalid (label +:+ " '" +:+ value +:+ "' exceeds " +:+ pretty max_len +:+ " characters")
      else if negb (is_slug_alnum c)
      then invalid (label +:+ " '" +:+ value +:+ "' must start with a lowercase letter or digit")
      else check_chars is_slug_alnum
             (λ c, label +:+ " '" +:+ value +:+ "' contains invalid character '" +:+ c +:+ "' (allowed: a-z, 0-9, '-')") rest
  end.

Definition validate_org_name (slug org : string) : result TenancyError unit :=
  match org with
  | EmptyString => invalid ("Tenant '" +:+ slug +:+ "' has empty org_name")
  | String c rest =>
      if (ORG_NAME_MAX_LEN <? String.length org)%nat
      then invalid ("Tenant '" +:+ slug +:+ "' org_name '" +:+ org +:+ "' exceeds " +:+ pretty ORG_NAME_MAX_LEN +:+ " characters")
      else if negb (is_org_alnum c)
      then invalid ("Tenant '" +:+ slug +:+ "' org_name '" +:+ org +:+ "' must start with an alphanumeric character")
      else check_chars is_org_alnum
             (λ c, "Tenant '" +:+ slug +:+ "' org_name '" +:+ org +:+ "' contains invalid character '" +:+ c
                     +:+ "' (allowed: a-z, A-Z, 0-9, '-')") rest
  end.

Definition validate_slug (slug : string) : result TenancyError unit := validate_dns_label slug SLUG_MAX_LEN "Tenant slug".
Definition validate_app_id_field (id : string) : result TenancyError unit := validate_dns_label id APP_ID_MAX_LEN "github_apps id".

Definition validate_app_entry (app : GithubAppConfig) : result TenancyError unit :=
  _ ← validate_app_id_field (app_id_of app);
  if negb (bool_decide (is_Some (parse_u64 (app_app_id app))))
  then invalid ("github_apps[" +:+ app_id_of app +:+ "] has invalid app_id '" +:+ app_app_id app +:+ "'; expected unsigned integer")
  else if str_eqb (app_webhook_secret app) ""
  then invalid ("github_apps[" +:+ app_id_of app +:+ "] has empty webhook_secret")
  else if trim_is_empty (app_private_key app)
  then invalid ("github_apps[" +:+ app_id_of app +:+ "] has empty private_key")
  else Ok ().

Definition validate_connector_ids (slug : string) (ids : list string) : result TenancyError unit :=
  match ids with
  | [] => invalid ("Tenant '" +:+ slug +:+ "' has empty connector_ids")
  | _ => try_each (λ id, if trim_is_empty id
                         then invalid ("Tenant '" +:+ slug +:+ "' has empty entry in connector_ids") else Ok ()) ids
  end.

Definition validate_tenant_binding (slug : string) (b : GithubTenantBinding) (apps : GithubAppRegistry) : result TenancyError unit :=
  _ ← validate_org_name slug (org_name b);
  match by_id apps !! app_ref b with
  | None => invalid ("Tenant '" +:+ slug +:+ "' references unknown github_app '" +:+ app_ref b +:+ "'")
  | Some _ => Ok ()
  end.

Definition validate_tenant (t : TenantConfig) (apps : GithubAppRegistry) : result TenancyError unit :=
  _ ← validate_slug (slug t);
  _ ← validate_connector_ids (slug t) (connector_ids t);
  match provider t with Github b => validate_tenant_binding (slug t) b apps end.

(** ** Building the registries *)

Fixpoint add_apps (apps : list GithubAppConfig) (by_id : gmap string GithubAppConfig)
  : result TenancyError (gmap string GithubAppConfig) :=
  match apps with
  | [] => Ok by_id
  | app :: apps =>
      _ ← validate_app_entry app;
      if bool_decide (is_Some (by_id !! app_id_of app)) then invalid ("Duplicate github_apps id: " +:+ app_id_of app)
      else add_apps apps (<[app_id_of app := app]> by_id)
  end.
Definition build_apps (apps : list GithubAppConfig) : result TenancyError GithubAppRegistry :=
  by_id ← add_apps apps ∅; mret (mkAppRegistry by_id).

Fixpoint add_connectors (t : TenantConfig) (org : string) (ids : list string) (m : gmap (string * string) TenantConfig)
  : result TenancyError (gmap (string * string) TenantConfig) :=
  match ids with
  | [] => Ok m
  | id :: ids =>
      if bool_decide (is_Some (m !! (id, org)))
      then invalid ("Duplicate (connector_id, org_name) pair: (" +:+ id +:+ ", " +:+ org +:+ ") across tenants")
      else add_connectors t org ids (<[(id, org) := t]> m)
  end.

Definition add_tenant (apps : GithubAppRegistry) (t : TenantConfig) (r : TenantRegistry) : result TenancyError TenantRegistry :=
  _ ← validate_tenant t apps;
  if bool_decide (is_Some (by_slug r !! slug t)) then invalid ("Duplicate tenant slug: " +:+ slug t)
  else
    let b := github_binding t in
    let app_org_key := (app_ref b, org_name b) in
    if bool_decide (is_Some (by_app_and_org r !! app_org_key))
    then invalid ("Duplicate (github_app, org_name) pair: (" +:+ app_ref b +:+ ", " +:+ org_name b
                    +:+ ") referenced by tenant '" +:+ slug t +:+ "'")
    else
      connectors ← add_connectors t (org_name b) (connector_ids t) (by_connector_and_org r);
      mret (mkTenantRegistry (<[slug t := t]> (by_slug r)) connectors (<[app_org_key := t]> (by_app_and_org r))).

Fixpoint add_tenants (apps : GithubAppRegistry) (ts : list TenantConfig) (r : TenantRegistry) : result TenancyError TenantRegistry :=
  match ts with
  | [] => Ok r
  | t :: ts => r ← add_tenant apps t r; add_tenants apps ts r
  end.
Definition build_tenants (ts : list TenantConfig) (apps : GithubAppRegistry) : result TenancyError TenantRegistry :=
  add_tenants apps ts (mkTenantRegistry ∅ ∅ ∅).

Definition from_document (doc : TenancyDocument) : result TenancyError TenancyRegistry :=
  apps ← build_apps (github_apps doc);
  ts ← build_tenants (tenants doc) apps;
  mret (mkRegistry apps ts).

(** ** Loading *)

Inductive IoError := IoNotFound | IoOther (msg : string).

Section load.
Variables (read_to_string : string → result IoError string) (from_str : string → result string TenancyDocument).
(** [JEFFERIES__TENANCY__PATH] *)
Variable tenancy_path_env : option string.

Definition DEFAULT_TENANCY_PATH : string := "/etc/jefferies/tenancy/tenants.yaml".

Definition read_tenancy_file (path : string) : result TenancyError string :=
  map_err (λ e, match e with IoNotFound => TenancyNotFound path | IoOther m => TenancyIo path m end) (read_to_string path).
Definition parse_tenancy_yaml (yaml : string) : result TenancyError TenancyDocument := map_err TenancyParse (from_str yaml).

Definition load_from_path (path : string) : result TenancyError TenancyRegistry :=
  contents ← read_tenancy_file path;
  document ← parse_tenancy_yaml contents;
  from_document document.
Definition load_from_env : result TenancyError TenancyRegistry :=
  load_from_path (default DEFAULT_TENANCY_PATH tenancy_path_env).
End load.

(** ** Specifications *)

Definition DnsLabel (max : nat) (s : string) : Prop :=
  ∃ c rest, s = String c rest ∧ String.length s ≤ max ∧ is_slug_alnum c = true ∧
    Forall (λ b, is_slug_alnum b = true ∨ b = "-"%char) (bytes rest).
Definition OrgName (s : string) : Prop :=
  ∃ c rest, s = String c rest ∧ String.length s ≤ 39 ∧ is_org_alnum c = true ∧
    Forall (λ b, is_org_alnum b = true ∨ b = "-"%char) (bytes rest).

Definition AppOk (a : GithubAppConfig) : Prop :=
  DnsLabel 63 (app_id_of a) ∧ is_Some (parse_u64 (app_app_id a)) ∧ app_webhook_secret a ≠ "" ∧
  trim_is_empty (app_private_key a) = false.
Definition TenantOk (app_ids : list string) (t : TenantConfig) : Prop :=
  DnsLabel 63 (slug t) ∧ connector_ids t ≠ [] ∧ Forall (λ id, trim_is_empty id = false) (connector_ids t) ∧
  OrgName (org_name (github_binding t)) ∧ app_ref (github_binding t) ∈ app_ids.

Definition app_org (t : TenantConfig) : string * string := (app_ref (github_binding t), org_name (github_binding t)).
Definition connector_orgs (t : TenantConfig) : list (string * string) :=
  (λ id, (id, org_name (github_binding t))) <$> connector_ids t.

Record ValidTenancy (doc : TenancyDocument) : Prop := {
  vt_apps : Forall AppOk (github_apps doc);
  vt_app_ids : NoDup (app_id_of <$> github_apps doc);
  vt_tenants : Forall (TenantOk (app_id_of <$> github_apps doc)) (tenants doc);
  vt_slugs : NoDup (slug <$> tenants doc);
  vt_app_orgs : NoDup (app_org <$> tenants doc);
  vt_connector_orgs : NoDup (tenants doc ≫= connector_orgs);
}.

Definition is_validation (e : TenancyError) : Prop := ∃ msg, e = TenancyValidation msg.

(** A check that accepts exactly what a predicate says, any error being a
    validation error. *)
Definition decides (r : result TenancyError unit) (P : Prop) : Prop :=
  match r with Ok _ => P | Err e => ¬ P ∧ is_validation e end.

(** ** Lemmas: the validators *)
Lemma decides_invalid P msg : ¬ P → decides (invalid msg) P.
Proof. intros HP. split; [done|by exists msg]. Qed.
Lemma decides_iff r P Q : (P ↔ Q) → decides r P → decides r Q.
Proof. intros [HPQ HQP]. destruct r; simpl; [done|]. intros [HP Hv]. split; [|done]. by intros HQ%HQP. Qed.
#[export] Instance decides_proper r : Proper (iff ==> iff) (decides r).
Proof. intros P Q HPQ. split; apply decides_iff; [done|by symmetry]. Qed.
Lemma decides_bind r (k : unit → result TenancyError unit) P Q :
  decides r P → (∀ u, decides (k u) Q) → decides (r ≫= k) (P ∧ Q).
Proof.
  unfold mbind, result_bind. destruct r as [u|e]; simpl.
  - intros HP Hk. eapply decides_iff, Hk. tauto.
  - intros [HP Hv] _. split; [|done]. tauto.
Qed.
Lemma decides_if (b : bool) r P Q msg : (b = true → ¬ P) → (b = false → P) → decides r Q →
  decides (if b then invalid msg else r) (P ∧ Q).
Proof.
  intros Ht Hf Hr. destruct b; [apply decides_invalid; naive_solver|].
  eapply decides_iff, Hr. naive_solver.
Qed.

Lemma check_chars_decides ok bad s :
  decides (check_chars ok bad s) (Forall (λ b, ok b = true ∨ b = "-"%char) (bytes s)).
Proof.
  induction s as [|c s IH]; simpl; [constructor|]. destruct (ok c || byte_eqb c "-") eqn:E.
  - eapply decides_iff, IH. rewrite Forall_cons. apply orb_true_iff in E as [E|E%byte_eqb_true]; naive_solver.
  - apply decides_invalid. apply orb_false_iff in E as [E1 E2%byte_eqb_false]. rewrite Forall_cons. naive_solver congruence.
Qed.

Lemma dns_label_decides value max label : decides (validate_dns_label value max label) (DnsLabel max value).
Proof.
  destruct value as [|c rest]; [apply decides_invalid; by intros (? & ? & ? & _)|].
  eapply (decides_iff _ (String.length (String c rest) ≤ max ∧ is_slug_alnum c = true ∧
    Forall (λ b, is_slug_alnum b = true ∨ b = "-"%char) (bytes rest))).
  { split; [intros (H1 & H2 & H3); by exists c, rest|]. by intros (? & ? & [= <- <-] & ? & ? & ?). }
  unfold validate_dns_label. apply decides_if; [intros ?%Nat.ltb_lt; lia|intros ?%Nat.ltb_ge; lia|].
  apply decides_if; [by intros ->%negb_true_iff|by intros ?%negb_false_iff|]. apply check_chars_decides.
Qed.

Lemma org_name_decides sl org : decides (validate_org_name sl org) (OrgName org).
Proof.
  destruct org as [|c rest]; [apply decides_invalid; by intros (? & ? & ? & _)|].
  eapply (decides_iff _ (String.length (String c rest) ≤ 39 ∧ is_org_alnum c = true ∧
    Forall (λ b, is_org_alnum b = true ∨ b = "-"%char) (bytes rest))).
  { split; [intros (H1 & H2 & H3); by exists c, rest|]. by intros (? & ? & [= <- <-] & ? & ? & ?). }
  unfold validate_org_name, ORG_NAME_MAX_LEN. apply decides_if; [intros ?%Nat.ltb_lt; lia|intros ?%Nat.ltb_ge; lia|].
  apply decides_if; [by intros ->%negb_true_iff|by intros ?%negb_false_iff|]. apply check_chars_decides.
Qed.

Lemma app_entry_decides a : decides (validate_app_entry a) (AppOk a).
Proof.
  unfold validate_app_entry, AppOk. apply decides_bind; [apply dns_label_decides|intros _].
  apply decides_if; [intros ?%negb_true_iff%bool_decide_eq_false; done|intros ?%negb_false_iff%bool_decide_eq_true; done|].
  apply decides_if; [by intros E%str_eqb_true []|by intros ?%str_eqb_false|].
  eapply (decides_iff _ (trim_is_empty (app_private_key a) = false ∧ True)); [tauto|].
  apply decides_if; [congruence|done|exact I].
Qed.

Lemma connector_ids_decides sl ids :
  decides (validate_connector_ids sl ids) (ids ≠ [] ∧ Forall (λ id, trim_is_empty id = false) ids).
Proof.
  unfold validate_connector_ids. destruct ids as [|i ids]; [by apply decides_invalid; intros []|].
  eapply (decides_iff _ (Forall (λ id, trim_is_empty id = false) (i :: ids))); [naive_solver|].
  generalize (i :: ids). clear. induction l as [|i l IH]; simpl; [constructor|].
  destruct (trim_is_empty i) eqn:E.
  - apply decides_invalid. rewrite Forall_cons. naive_solver congruence.
  - eapply decides_iff, IH. rewrite Forall_cons. naive_solver.
Qed.

Lemma tenant_decides t apps (ids : list string) : (∀ id, is_Some (by_id apps !! id) ↔ id ∈ ids) →
  decides (validate_tenant t apps) (TenantOk ids t).
Proof.
  intros Hids. unfold validate_tenant, TenantOk. apply decides_bind; [apply dns_label_decides|intros _].
  eapply decides_iff; [symmetry; apply and_assoc|]. apply decides_bind; [apply connector_ids_decides|intros _].
  unfold github_binding. destruct (provider t) as [b]. unfold validate_tenant_binding.
  apply decides_bind; [apply org_name_decides|intros _]. rewrite <- Hids.
  destruct (by_id apps !! app_ref b); [by eexists|]. apply decides_invalid. by intros [].
Qed.

(** ** Lemmas: the registries *)

(** What inserting a list of keyed values into a map yields. *)
Definition extends {K A} `{Countable K} (key : A → K) (l : list A) (m m' : gmap K A) : Prop :=
  ∀ k v, m' !! k = Some v ↔ (v ∈ l ∧ key v = k) ∨ m !! k = Some v.
Definition fresh_keys {K A} `{Countable K} (keys : list K) (m : gmap K A) : Prop :=
  NoDup keys ∧ ∀ k, k ∈ keys → m !! k = None.

Lemma fresh_cons {K A} `{Countable K} (k : K) (v : A) keys (m : gmap K A) :
  fresh_keys (k :: keys) m ↔ m !! k = None ∧ fresh_keys keys (<[k := v]> m).
Proof.
  unfold fresh_keys. rewrite NoDup_cons. split.
  - intros [[Hk Hnd] Hf]. split; [apply Hf; by left|]. split; [done|]. intros k' Hk'.
    rewrite lookup_insert_ne by (intros ->; done). apply Hf. by right.
  - intros (Hk & Hnd & Hf). split; [split; [|done]|].
    + intros Hin%Hf. by rewrite lookup_insert_eq in Hin.
    + intros k' [->|Hin]%elem_of_cons; [done|]. specialize (Hf k' Hin). by apply lookup_insert_None in Hf as [].
Qed.
Lemma extends_cons {K A} `{Countable K} (key : A → K) a l (m m' : gmap K A) : m !! key a = None →
  extends key l (<[key a := a]> m) m' → extends key (a :: l) m m'.
Proof.
  intros Hn He k v. rewrite (He k v), lookup_insert_Some, elem_of_cons. split; [naive_solver|].
  intros [[[->|Hin] <-]|Hm]; [by right; left|by left|]. right; right. split; [congruence|done].
Qed.
Lemma extends_nil {K A} `{Countable K} (key : A → K) (m : gmap K A) : extends key [] m m.
Proof. intros k v. set_solver. Qed.

Lemma add_apps_spec apps m :
  match add_apps apps m with
  | Ok m' => Forall AppOk apps ∧ fresh_keys (app_id_of <$> apps) m ∧ extends app_id_of apps m m'
  | Err e => ¬ (Forall AppOk apps ∧ fresh_keys (app_id_of <$> apps) m) ∧ is_validation e
  end.
Proof.
  revert m; induction apps as [|a apps IH]; intros m; simpl.
  { split; [constructor|]. split; [split; [constructor|set_solver]|apply extends_nil]. }
  pose proof (app_entry_decides a) as Ha. pose proof (fresh_cons (app_id_of a) a (app_id_of <$> apps) m) as Hc.
  unfold mbind, result_bind. destruct (validate_app_entry a) as [u|e]; simpl in Ha; [|rewrite Forall_cons; tauto].
  case_bool_decide as Hin.
  - split; [|by eexists]. intros (_ & [Hn _]%Hc). rewrite Hn in Hin. by apply is_Some_None in Hin.
  - apply eq_None_not_Some in Hin. specialize (IH (<[app_id_of a := a]> m)). destruct (add_apps _ _) as [m'|e].
    + destruct IH as (Hok & Hf & He). split; [by constructor|]. split; [by apply Hc|]. by apply extends_cons.
    + destruct IH as [Hno Hv]. split; [|done]. rewrite Forall_cons. intros [[_ Hok] [_ Hf]%Hc]. by apply Hno.
Qed.

Lemma build_apps_spec apps :
  match build_apps apps with
  | Ok r => Forall AppOk apps ∧ NoDup (app_id_of <$> apps) ∧
      ∀ id a, by_id r !! id = Some a ↔ a ∈ apps ∧ app_id_of a = id
  | Err e => ¬ (Forall AppOk apps ∧ NoDup (app_id_of <$> apps)) ∧ is_validation e
  end.
Proof.
  unfold build_apps, mbind, result_bind. pose proof (add_apps_spec apps ∅) as Hs. unfold fresh_keys in Hs.
  destruct (add_apps apps ∅) as [m|e]; simpl.
  - destruct Hs as (Hok & [Hnd _] & He). split; [done|]. split; [done|]. intros id a. rewrite (He id a), lookup_empty. naive_solver.
  - destruct Hs as [Hno Hv]. split; [|done]. intros [Hok Hnd]. apply Hno. by split.
Qed.

Lemma fresh_app {K A} `{Countable K} (l1 l2 : list K) (m m' : gmap K A) :
  (∀ k, is_Some (m' !! k) ↔ k ∈ l1 ∨ is_Some (m !! k)) →
  fresh_keys (l1 ++ l2) m ↔ fresh_keys l1 m ∧ fresh_keys l2 m'.
Proof.
  intros Hm. unfold fresh_keys. rewrite NoDup_app. setoid_rewrite elem_of_app. setoid_rewrite eq_None_not_Some.
  setoid_rewrite Hm. naive_solver.
Qed.

Lemma add_connectors_spec t org ids m :
  let keys := (λ id, (id, org)) <$> ids in
  match add_connectors t org ids m with
  | Ok m' => fresh_keys keys m ∧ ∀ k v, m' !! k = Some v ↔ k ∈ keys ∧ v = t ∨ m !! k = Some v
  | Err e => ¬ fresh_keys keys m ∧ is_validation e
  end.
Proof.
  revert m; induction ids as [|id ids IH]; intros m keys; simpl.
  { split; [split; [constructor|set_solver]|]. set_solver. }
  pose proof (fresh_cons (id, org) t ((λ id, (id, org)) <$> ids) m) as Hc. case_bool_decide as Hin.
  - split; [|by eexists]. intros [Hn _]%Hc. rewrite Hn in Hin. by apply is_Some_None in Hin.
  - apply eq_None_not_Some in Hin. specialize (IH (<[(id, org) := t]> m)). destruct (add_connectors _ _ _ _) as [m'|e].
    + destruct IH as [Hf He]. split; [by apply Hc|]. intros k v. unfold keys. cbn [fmap list_fmap]. rewrite (He k v), lookup_insert_Some, elem_of_cons.
      split; [naive_solver|]. intros [[[->|Hk] ->]|Hm]; [by right; left|by left|]. right; right. split; [congruence|done].
    + destruct IH as [Hno Hv]. split; [|done]. intros [_ Hf]%Hc. by apply Hno.
Qed.

Lemma add_tenant_spec apps ids t r : (∀ id, is_Some (by_id apps !! id) ↔ id ∈ ids) →
  let ok := TenantOk ids t ∧ by_slug r !! slug t = None ∧ by_app_and_org r !! app_org t = None ∧
            fresh_keys (connector_orgs t) (by_connector_and_org r) in
  match add_tenant apps t r with
  | Ok r' => ok ∧ by_slug r' = <[slug t := t]> (by_slug r) ∧ by_app_and_org r' = <[app_org t := t]> (by_app_and_org r) ∧
      ∀ k v, by_connector_and_org r' !! k = Some v ↔ k ∈ connector_orgs t ∧ v = t ∨ by_connector_and_org r !! k = Some v
  | Err e => ¬ ok ∧ is_validation e
  end.
Proof.
  intros Hids ok. unfold add_tenant. pose proof (tenant_decides t apps ids Hids) as Ht. cbv zeta.
  unfold mbind, result_bind. destruct (validate_tenant t apps) as [u|e]; simpl in Ht; [|unfold ok; tauto].
  case_bool_decide as Hs.
  { split; [|by eexists]. intros (_ & Hn & _). rewrite Hn in Hs. by apply is_Some_None in Hs. }
  apply eq_None_not_Some in Hs. change (app_ref _, org_name _) with (app_org t). case_bool_decide as Ha.
  { split; [|by eexists]. intros (_ & _ & Hn & _). rewrite Hn in Ha. by apply is_Some_None in Ha. }
  apply eq_None_not_Some in Ha. pose proof (add_connectors_spec t (org_name (github_binding t)) (connector_ids t)
    (by_connector_and_org r)) as Hc. change (fmap _ (connector_ids t)) with (connector_orgs t) in Hc. cbv zeta in Hc.
  destruct (add_connectors _ _ _ _) as [m|e].
  - destruct Hc as [Hf Hm]. by split.
  - destruct Hc as [Hno Hv]. split; [|done]. by intros (_ & _ & _ & Hf).
Qed.

Record tenants_fit (ids : list string) (ts : list TenantConfig) (r : TenantRegistry) : Prop := {
  fit_ok : Forall (TenantOk ids) ts;
  fit_slugs : fresh_keys (slug <$> ts) (by_slug r);
  fit_app_orgs : fresh_keys (app_org <$> ts) (by_app_and_org r);
  fit_connectors : fresh_keys (ts ≫= connector_orgs) (by_connector_and_org r);
}.

Lemma tenants_fit_cons ids t ts r r' :
  by_slug r' = <[slug t := t]> (by_slug r) → by_app_and_org r' = <[app_org t := t]> (by_app_and_org r) →
  (∀ k v, by_connector_and_org r' !! k = Some v ↔ k ∈ connector_orgs t ∧ v = t ∨ by_connector_and_org r !! k = Some v) →
  tenants_fit ids (t :: ts) r ↔
  (TenantOk ids t ∧ by_slug r !! slug t = None ∧ by_app_and_org r !! app_org t = None ∧
   fresh_keys (connector_orgs t) (by_connector_and_org r)) ∧ tenants_fit ids ts r'.
Proof.
  intros Hs Ha Hc.
  assert (∀ k, is_Some (by_connector_and_org r' !! k) ↔ k ∈ connector_orgs t ∨ is_Some (by_connector_and_org r !! k)) as Hdom.
  { intros k. unfold is_Some. setoid_rewrite (Hc k). naive_solver. }
  pose proof (fresh_app (connector_orgs t) (ts ≫= connector_orgs) _ _ Hdom) as Hf.
  pose proof (fresh_cons (slug t) t (slug <$> ts) (by_slug r)) as Hfs. pose proof (fresh_cons (app_org t) t (app_org <$> ts) (by_app_and_org r)) as Hfa.
  rewrite <- Hs in Hfs. rewrite <- Ha in Hfa. split.
  - intros [[Ht Hts]%Forall_cons [? ?]%Hfs [? ?]%Hfa F4]. cbn [mbind list_bind] in F4. apply Hf in F4 as [? ?].
    by split; [|split].
  - intros [(Ht & ? & ? & ?) [? ? ? ?]]. split; [by constructor|by apply Hfs|by apply Hfa|by apply Hf].
Qed.

Lemma add_tenants_spec apps ids ts r : (∀ id, is_Some (by_id apps !! id) ↔ id ∈ ids) →
  match add_tenants apps ts r with
  | Ok r' => tenants_fit ids ts r ∧ extends slug ts (by_slug r) (by_slug r') ∧
      extends app_org ts (by_app_and_org r) (by_app_and_org r') ∧
      ∀ k v, by_connector_and_org r' !! k = Some v ↔ (v ∈ ts ∧ k ∈ connector_orgs v) ∨ by_connector_and_org r !! k = Some v
  | Err e => ¬ tenants_fit ids ts r ∧ is_validation e
  end.
Proof.
  intros Hids. revert r; induction ts as [|t ts IH]; intros r; cbn [add_tenants].
  { split; [split; [constructor|split; [constructor|set_solver]..]|]. split; [apply extends_nil|]. split; [apply extends_nil|set_solver]. }
  unfold mbind, result_bind. pose proof (add_tenant_spec apps ids t r Hids) as Ht. cbv zeta in Ht.
  destruct (add_tenant apps t r) as [r1|e].
  - destruct Ht as (Hok & Hs & Ha & Hc). pose proof (tenants_fit_cons ids t ts r r1 Hs Ha Hc) as Hfit.
    specialize (IH r1). destruct (add_tenants apps ts r1) as [r2|e].
    + destruct IH as (Hf & He1 & He2 & He3). rewrite Hs in He1. rewrite Ha in He2. split; [by apply Hfit|].
      split; [apply extends_cons; [apply Hok|done]|]. split; [apply extends_cons; [apply Hok|done]|].
      intros k v. rewrite (He3 k v), (Hc k v), elem_of_cons. naive_solver.
    + destruct IH as [Hno Hv]. split; [|done]. by intros [_ Hf]%Hfit.
  - destruct Ht as [Hno Hv]. split; [|done]. intros [[? ?]%Forall_cons Hfs Hfa Hfc]. apply Hno.
    apply (fresh_cons _ t) in Hfs as [? _]. apply (fresh_cons _ t) in Hfa as [? _]. split_and!; [done..|].
    destruct Hfc as [Hnd Hn]. cbn [mbind list_bind] in Hnd, Hn. apply NoDup_app in Hnd as [? _]. split; [done|].
    intros k Hk. apply Hn. apply elem_of_app. by left.
Qed.

(** How the registries of a document answer. *)
Record indexes (doc : TenancyDocument) (reg : TenancyRegistry) : Prop := {
  ix_apps id a : by_id (reg_apps reg) !! id = Some a ↔ a ∈ github_apps doc ∧ app_id_of a = id;
  ix_slugs s t : by_slug (reg_tenants reg) !! s = Some t ↔ t ∈ tenants doc ∧ slug t = s;
  ix_app_orgs k t : by_app_and_org (reg_tenants reg) !! k = Some t ↔ t ∈ tenants doc ∧ app_org t = k;
  ix_connectors c o t : find_for_connector_and_org (reg_tenants reg) c o = Some t ↔
    t ∈ tenants doc ∧ c ∈ connector_ids t ∧ o = org_name (github_binding t);
}.

Lemma from_document_lookups doc :
  match from_document doc with
  | Ok reg => ValidTenancy doc ∧ indexes doc reg
  | Err e => ¬ ValidTenancy doc ∧ is_validation e
  end.
Proof.
  unfold from_document, build_tenants, mbind, result_bind. pose proof (build_apps_spec (github_apps doc)) as Happs.
  destruct (build_apps (github_apps doc)) as [apps|e]; simpl.
  2:{ destruct Happs as [Hno Hv]. split; [|done]. intros [? ? _ _ _ _]. by apply Hno. }
  destruct Happs as (Hok & Hnd & Hids).
  assert (∀ id, is_Some (by_id apps !! id) ↔ id ∈ app_id_of <$> github_apps doc) as Hdom.
  { intros id. unfold is_Some. setoid_rewrite (Hids id). rewrite list_elem_of_fmap. naive_solver. }
  pose proof (add_tenants_spec apps _ (tenants doc) (mkTenantRegistry ∅ ∅ ∅) Hdom) as Hts.
  assert (tenants_fit (app_id_of <$> github_apps doc) (tenants doc) (mkTenantRegistry ∅ ∅ ∅) ↔ ValidTenancy doc) as Hfit.
  { split; [by intros [? [? _] [? _] [? _]]|]. intros [? ? ? ? ? ?]. by repeat split. }
  destruct (add_tenants _ _ _) as [r|e]; cbn.
  - destruct Hts as (Hf%Hfit & H1 & H2 & H3). cbn in H1, H2, H3. split; [done|]. split; [done|..].
    + intros s t. rewrite (H1 s t), lookup_empty. naive_solver.
    + intros k t. rewrite (H2 k t), lookup_empty. naive_solver.
    + intros c o t. unfold find_for_connector_and_org. cbn. rewrite (H3 (c, o) t), lookup_empty. unfold connector_orgs.
      rewrite list_elem_of_fmap. naive_solver.
  - destruct Hts as [Hno Hv]. split; [|done]. by intros ?%Hfit.
Qed.

(** ** Properties *)

(** C26: a tenancy document is accepted exactly when it is valid: apps with
    distinct DNS ids, a numeric app id, a secret and a key; tenants with
    distinct DNS slugs, an organisation name in GitHub's grammar, a known app,
    trusted connectors, and no two of them with the same app and organisation
    or the same connector and organisation. The registries then find an app by
    its id and a tenant by its slug, its app and organisation, or any of its
    connectors and its organisation, and nothing else; a document that is not
    valid is refused with a validation error. *)
Theorem from_document_spec doc :
  ((∃ reg, from_document doc = Ok reg) ↔ ValidTenancy doc) ∧
  ∀ r, from_document doc = r → match r with Ok reg => indexes doc reg | Err e => is_validation e end.
Proof.
  pose proof (from_document_lookups doc) as Hspec. split.
  - split; [intros [reg Hr]; by rewrite Hr in Hspec; apply Hspec|]. intros Hv.
    destruct (from_document doc) as [reg|e]; [by exists reg|]. by destruct Hspec.
  - intros r <-. destruct (from_document doc); apply Hspec.
Qed.
