(* ===== verification/Pipeline.v ===== *)
(** * Pipelines: the parsed [.jefferies/*.yaml] document

    Models [pipelines/src/pipeline.rs]: the document's data, its validation
    ([Pipeline::from_yaml]), the trigger filters and the per-node view
    [node_info] that the coordinator and the dispatcher consume.  The YAML
    parser is a parameter.  The last part relates the validators to
    declarative specifications. *)

From S2P Require Import Prelude.

(** ** Data *)

Inductive PipelineError : Type :=
| YamlParseError (msg : string)
| UnknownDependency (node dependency : string)
| SelfDependency (node : string)
| EmptySteps (node : string)
| InvalidQuantity (node field value : string)
| InvalidVolume (node name reason : string)
| InvalidSecret (node name reason : string).

Inductive FileSecret : Type :=
| FileSecretDefault (name : string)
| FileSecretCustom (name path : string).

Record Secrets : Type := mkSecrets { secrets_env : list string; secrets_files : list FileSecret }.

Record Refs : Type := mkRefs { branches : option (list string); tags : option (list string) }.

Record PipelineTriggers : Type := mkTriggers {
  trig_push : option Refs;
  trig_pull_request : option Refs;
  trig_schedule : option string;
}.

Inductive PipelineStep : Type :=
| Inline (cmd : string)
| Named (name run : string).

Record PipelineNode : Type := mkNode {
  pn_name : string;
  pn_image : option string;
  pn_timeout_secs : option Z;
  pn_startup_timeout_secs : option Z;
  pn_checkout : option bool;
  pn_after : list string;
  pn_env : gmap string string;
  pn_secrets : Secrets;
  pn_steps : list PipelineStep;
  pn_privileged : bool;
  pn_cache_size : option string;
  pn_cpu : option string;
  pn_memory : option string;
  pn_volumes : gmap string string;
}.

Record Pipeline : Type := mkPipeline {
  pl_name : string;
  pl_timeout_secs : option Z;
  pl_fail_fast : option bool;
  pl_on : option PipelineTriggers;
  pl_env : gmap string string;
  pl_secrets : Secrets;
  pl_nodes : list PipelineNode;
}.

#[export] Instance file_secret_eq_dec : EqDecision FileSecret.
Proof. solve_decision. Defined.
#[export] Instance secrets_eq_dec : EqDecision Secrets.
Proof. solve_decision. Defined.
#[export] Instance refs_eq_dec : EqDecision Refs.
Proof. solve_decision. Defined.
#[export] Instance pipeline_triggers_eq_dec : EqDecision PipelineTriggers.
Proof. solve_decision. Defined.
#[export] Instance pipeline_step_eq_dec : EqDecision PipelineStep.
Proof. solve_decision. Defined.
#[export] Instance pipeline_node_eq_dec : EqDecision PipelineNode.
Proof. solve_decision. Defined.
#[export] Instance pipeline_eq_dec : EqDecision Pipeline.
Proof. solve_decision. Defined.

Record FileSecretSpec : Type := mkFileSecretSpec { fss_name : string; fss_path : option string }.

Record NodeInfo : Type := mkNodeInfo {
  ni_name : string;
  ni_image : string;
  ni_steps : list string;
  ni_dependencies : list string;
  ni_timeout_secs : option Z;
  ni_startup_timeout_secs : option Z;
  ni_checkout : bool;
  ni_env : gmap string string;
  ni_env_secrets : list string;
  ni_file_secrets : list FileSecretSpec;
  ni_privileged : bool;
  ni_cache_size : option string;
  ni_cpu : option string;
  ni_memory : option string;
  ni_volumes : gmap string string;
}.

(** ** Field deserialisers

    A present field holds an optional value ([null] or a document); an absent
    field takes the [serde(default)].  A present-but-null [push:] or
    [branches:] becomes the empty filter, not the absence of the filter. *)

Definition refs_default : Refs := mkRefs None None.
Definition deserialize_trigger (value : option Refs) : option Refs := Some (default refs_default value).
Definition deserialize_ref_filter (value : option (list string)) : option (list string) :=
  Some (default [] value).
Definition trigger_field (field : option (option Refs)) : option Refs := field ≫= deserialize_trigger.
Definition ref_filter_field (field : option (option (list string))) : option (list string) :=
  field ≫= deserialize_ref_filter.

(** ** Secrets *)

Definition secrets_is_empty (s : Secrets) : bool :=
  match secrets_env s, secrets_files s with [], [] => true | _, _ => false end.
Definition file_secret_name (f : FileSecret) : string :=
  match f with FileSecretDefault n => n | FileSecretCustom n _ => n end.
Definition file_secret_path (f : FileSecret) : option string :=
  match f with FileSecretDefault _ => None | FileSecretCustom _ p => Some p end.

(** Ordered-set union of the pipeline's and the node's names. *)
Definition merge_env_secrets (pipeline_env node_env : list string) : list string :=
  btree_keys (list_to_set pipeline_env ∪ list_to_set node_env).

(** Later entries of the same name replace earlier ones. *)
Definition merge_file_secrets_map (files : list FileSecret) : gmap string FileSecretSpec :=
  foldl (λ m f, <[file_secret_name f := mkFileSecretSpec (file_secret_name f) (file_secret_path f)]> m)
    ∅ files.
Definition merge_file_secrets (pipeline_files node_files : list FileSecret) : list FileSecretSpec :=
  btree_values (merge_file_secrets_map (pipeline_files ++ node_files)).

(** ** Syntactic validators *)

Definition MAX_SECRET_NAME_LEN : nat := 30.

Definition is_valid_env_var_name (s : string) : bool :=
  let is_first b := is_ascii_alphabetic b || byte_eqb b "_" in
  let is_rest b := is_ascii_alphanumeric b || byte_eqb b "_" in
  match bytes s with
  | [] => false
  | b :: rest => is_first b && forallb is_rest rest
  end.

Definition secret_name_violation (name : string) : option string :=
  if str_eqb name "" then Some "name must not be empty"
  else if (MAX_SECRET_NAME_LEN <? String.length name)%nat
       then Some ("name must be at most " +:+ pretty MAX_SECRET_NAME_LEN +:+ " characters")
  else if negb (is_valid_env_var_name name)
       then Some "name must match POSIX env-var pattern: [A-Za-z_][A-Za-z0-9_]*"
  else None.

Definition file_secret_path_violation (path : string) : option string :=
  if negb (starts_with "/" path) then Some ("path '" +:+ path +:+ "' must be absolute")
  else if ends_with_byte "/" path then Some ("path '" +:+ path +:+ "' must not end with '/'")
  else if contains "//" path then Some ("path '" +:+ path +:+ "' must not contain '//'")
  else if existsb (str_eqb "..") (split_byte "/" path)
       then Some ("path '" +:+ path +:+ "' must not contain '..' segments")
  else None.

Definition is_valid_dns1123_label (s : string) : bool :=
  if str_eqb s "" || (63 <? String.length s)%nat then false else
  let is_alnum b := is_ascii_lowercase b || is_ascii_digit b in
  let bs := bytes s in
  match head bs, last bs with
  | Some first, Some final =>
      if negb (is_alnum first) || negb (is_alnum final) then false
      else forallb (λ b, is_alnum b || byte_eqb b "-") bs
  | _, _ => false
  end.

(** The scanner's cursor [i] is the suffix of bytes still to read. *)
Definition is_sign (b : ascii) : bool := byte_eqb b "+" || byte_eqb b "-".
Definition skip_sign (bs : list ascii) : list ascii :=
  match bs with b :: rest => if is_sign b then rest else bs | [] => bs end.

Fixpoint scan_mantissa (bs : list ascii) (saw_digit saw_dot : bool) : bool * list ascii :=
  match bs with
  | [] => (saw_digit, [])
  | b :: rest =>
      if is_ascii_digit b then scan_mantissa rest true saw_dot
      else if byte_eqb b "." && negb saw_dot then scan_mantissa rest saw_digit true
      else (saw_digit, bs)
  end.

(** The exponent loop: [any] is set by every digit, anything else rejects. *)
Fixpoint scan_exponent_digits (bs : list ascii) (any : bool) : bool :=
  match bs with
  | [] => any
  | b :: rest => if is_ascii_digit b then scan_exponent_digits rest true else false
  end.

Definition is_exponent_mark (b : ascii) : bool := byte_eqb b "e" || byte_eqb b "E".
Definition is_decimal_suffix (b : ascii) : bool :=
  byte_eqb b "n" || byte_eqb b "u" || byte_eqb b "m" || byte_eqb b "k".
Definition is_binary_suffix (b : ascii) : bool :=
  byte_eqb b "K" || byte_eqb b "M" || byte_eqb b "G" || byte_eqb b "T" || byte_eqb b "P" || byte_eqb b "E".

Definition is_valid_quantity (s : string) : bool :=
  if str_eqb s "" then false else
  let '(saw_digit, rest) := scan_mantissa (skip_sign (bytes s)) false false in
  if negb saw_digit then false else
  match rest with
  | [] => true
  | b :: after =>
      let is_exponent :=
        is_exponent_mark b &&
        match after with c :: _ => is_ascii_digit c || is_sign c | [] => false end in
      if is_exponent then scan_exponent_digits (skip_sign after) false
      else if is_decimal_suffix b then match after with [] => true | _ => false end
      else if is_binary_suffix b then
        match after with
        | [] => true
        | c :: after' => if byte_eqb c "i" then match after' with [] => true | _ => false end else false
        end
      else false
  end.

(** ** Document validation *)

Definition RESERVED_VOLUME_NAMES : list string := ["tube-bin"; "workspace"; "user-script"; "cache"].
Definition RESERVED_MOUNT_PATHS : list string := ["/shared"; "/workspace"; "/etc/conn"; "/tmp/cache"].

Definition is_reserved_path (candidate reserved : string) : bool :=
  str_eqb candidate reserved
  || starts_with (reserved +:+ "/") candidate
  || starts_with (candidate +:+ "/") reserved.

Definition validate_dependencies (p : Pipeline) : result PipelineError unit :=
  let node_names : gset string := list_to_set (pn_name <$> pl_nodes p) in
  try_each (λ node,
    try_each (λ dep,
      if str_eqb dep (pn_name node) then Err (SelfDependency (pn_name node))
      else if negb (bool_decide (dep ∈ node_names))
           then Err (UnknownDependency (pn_name node) dep)
      else Ok ()) (pn_after node)) (pl_nodes p).

Definition validate_steps_present (p : Pipeline) : result PipelineError unit :=
  try_each (λ node,
    match pn_steps node with [] => Err (EmptySteps (pn_name node)) | _ => Ok () end) (pl_nodes p).

Definition validate_quantities (p : Pipeline) : result PipelineError unit :=
  try_each (λ node,
    try_each (λ '(field, value),
      match value with
      | Some v => if negb (is_valid_quantity v)
                  then Err (InvalidQuantity (pn_name node) field v) else Ok ()
      | None => Ok ()
      end)
      [("cpu", pn_cpu node); ("memory", pn_memory node); ("cache_size", pn_cache_size node)])
    (pl_nodes p).

Definition dns_reason : string :=
  "name must be a valid DNS-1123 label (lowercase alphanumeric and '-', 1-63 chars, must start and end with an alphanumeric character)".

(** The body of the loop over one volume; [seen_paths] is threaded. *)
Definition check_volume (node : PipelineNode) (seen_paths : gset string) (name mount_path : string)
  : result PipelineError unit :=
  let invalid reason := Err (InvalidVolume (pn_name node) name reason) in
  if negb (is_valid_dns1123_label name) then invalid dns_reason
  else if bool_decide (name ∈ RESERVED_VOLUME_NAMES)
       then invalid ("name '" +:+ name +:+ "' is reserved for internal use")
  else if negb (starts_with "/" mount_path)
       then invalid ("mount path '" +:+ mount_path +:+ "' must be absolute")
  else if existsb (is_reserved_path mount_path) RESERVED_MOUNT_PATHS
       then invalid ("mount path '" +:+ mount_path +:+ "' overlaps a reserved mount")
  else if bool_decide (mount_path ∈ seen_paths)
       then invalid ("mount path '" +:+ mount_path +:+ "' is used by another volume on this node")
  else Ok ().

Fixpoint check_volumes (node : PipelineNode) (seen_paths : gset string) (l : list (string * string))
  : result PipelineError unit :=
  match l with
  | [] => Ok ()
  | (name, mount_path) :: l =>
      match check_volume node seen_paths name mount_path with
      | Ok _ => check_volumes node ({[mount_path]} ∪ seen_paths) l
      | Err e => Err e
      end
  end.

Definition validate_volumes `{HashOrder} (p : Pipeline) : result PipelineError unit :=
  try_each (λ node, check_volumes node ∅ (hash_iter (pn_volumes node))) (pl_nodes p).

Definition validate_secrets (p : Pipeline) : result PipelineError unit :=
  try_each (λ node,
    _ ← try_each (λ name,
          match secret_name_violation name with
          | Some reason => Err (InvalidSecret (pn_name node) name reason)
          | None => Ok ()
          end) (merge_env_secrets (secrets_env (pl_secrets p)) (secrets_env (pn_secrets node)));
    try_each (λ spec,
      match secret_name_violation (fss_name spec) with
      | Some reason => Err (InvalidSecret (pn_name node) (fss_name spec) reason)
      | None =>
          match fss_path spec ≫= file_secret_path_violation with
          | Some reason => Err (InvalidSecret (pn_name node) (fss_name spec) reason)
          | None => Ok ()
          end
      end) (merge_file_secrets (secrets_files (pl_secrets p)) (secrets_files (pn_secrets node))))
    (pl_nodes p).

(** [Pipeline::from_yaml]; [serde_from_str] is the YAML deserialiser. *)
Definition validate `{HashOrder} (p : Pipeline) : result PipelineError Pipeline :=
  _ ← validate_dependencies p;
  _ ← validate_steps_present p;
  _ ← validate_quantities p;
  _ ← validate_volumes p;
  _ ← validate_secrets p;
  mret p.

Definition from_yaml `{HashOrder} (serde_from_str : string → result string Pipeline) (yaml : string)
  : result PipelineError Pipeline :=
  match serde_from_str yaml with
  | Ok pipeline => validate pipeline
  | Err e => Err (YamlParseError e)
  end.

(** ** Accessors and triggers *)

Definition pipeline_timeout_secs (p : Pipeline) : option Z := pl_timeout_secs p.
Definition fail_fast_override (p : Pipeline) : option bool := pl_fail_fast p.

Definition ref_filter_matches (allowed : list string) (candidate : string) : bool :=
  match allowed with [] => true | _ => existsb (λ a, str_eqb a candidate) allowed end.

Definition refs_match_push (refs : Refs) (branch tag : option string) : bool :=
  match branches refs, tags refs with
  | None, None => true
  | _, _ =>
      match branch, tag with
      | Some b, _ => match branches refs with Some allowed => ref_filter_matches allowed b | None => false end
      | None, Some t => match tags refs with Some allowed => ref_filter_matches allowed t | None => false end
      | None, None => false
      end
  end.

Definition refs_match_branch_filter (filter : option (list string)) (branch : string) : bool :=
  match filter with None => true | Some allowed => ref_filter_matches allowed branch end.

Definition triggered_by_push (p : Pipeline) (branch tag : option string) : bool :=
  match pl_on p with
  | None => false
  | Some triggers =>
      match trig_push triggers with
      | None => false
      | Some push_trigger => refs_match_push push_trigger branch tag
      end
  end.

Definition triggered_by_pull_request (p : Pipeline) (branch : string) : bool :=
  match pl_on p with
  | None => false
  | Some triggers =>
      match trig_pull_request triggers with
      | None => false
      | Some pr_trigger => refs_match_branch_filter (branches pr_trigger) branch
      end
  end.

(** ** The per-node view *)

Definition step_command (step : PipelineStep) : string :=
  match step with Inline cmd => cmd | Named _ run => run end.

Definition node_info_of (p : Pipeline) (n : PipelineNode) : NodeInfo := {|
  ni_name := pn_name n;
  ni_image := default "" (pn_image n);
  ni_steps := step_command <$> pn_steps n;
  ni_dependencies := pn_after n;
  ni_timeout_secs := pn_timeout_secs n;
  ni_startup_timeout_secs := pn_startup_timeout_secs n;
  ni_checkout := default false (pn_checkout n);
  ni_env := pn_env n ∪ pl_env p;
  ni_env_secrets := merge_env_secrets (secrets_env (pl_secrets p)) (secrets_env (pn_secrets n));
  ni_file_secrets := merge_file_secrets (secrets_files (pl_secrets p)) (secrets_files (pn_secrets n));
  ni_privileged := pn_privileged n;
  ni_cache_size := pn_cache_size n;
  ni_cpu := pn_cpu n;
  ni_memory := pn_memory n;
  ni_volumes := pn_volumes n;
|}.

Definition node_info (p : Pipeline) : list NodeInfo := node_info_of p <$> pl_nodes p.

(** ** Specifications *)

Definition Digits (l : list ascii) : Prop := Forall (λ b, is_ascii_digit b = true) l.

(** [sign? (digits | digits . digits) suffix?] with at least one digit. *)
Inductive Sign : list ascii → Prop :=
| sign_none : Sign []
| sign_some b : is_sign b = true → Sign [b].
Inductive Mantissa : list ascii → Prop :=
| mantissa_int ds : Digits ds → ds ≠ [] → Mantissa ds
| mantissa_frac ds es : Digits ds → Digits es → ds ++ es ≠ [] → Mantissa (ds ++ "."%char :: es).
Inductive QuantitySuffix : list ascii → Prop :=
| suffix_none : QuantitySuffix []
| suffix_exponent e sg ds :
    is_exponent_mark e = true → Sign sg → Digits ds → ds ≠ [] → QuantitySuffix (e :: sg ++ ds)
| suffix_decimal b : is_decimal_suffix b = true → QuantitySuffix [b]
| suffix_binary b : is_binary_suffix b = true → QuantitySuffix [b]
| suffix_binary_i b : is_binary_suffix b = true → QuantitySuffix [b; "i"%char].
Definition Quantity (s : string) : Prop :=
  ∃ sg m suf, bytes s = sg ++ m ++ suf ∧ Sign sg ∧ Mantissa m ∧ QuantitySuffix suf.

Definition label_byte (b : ascii) : bool := is_ascii_lowercase b || is_ascii_digit b.
Definition Dns1123Label (s : string) : Prop :=
  1 ≤ String.length s ≤ 63 ∧
  Forall (λ b, label_byte b = true ∨ b = "-"%char) (bytes s) ∧
  (∀ b, head (bytes s) = Some b ∨ last (bytes s) = Some b → label_byte b = true).

Definition SecretName (s : string) : Prop :=
  String.length s ≤ 30 ∧
  ∃ b rest, bytes s = b :: rest ∧
    (is_ascii_alphabetic b = true ∨ b = "_"%char) ∧
    Forall (λ c, is_ascii_alphanumeric c = true ∨ c = "_"%char) rest.

(** ["/"], then non-empty segments none of which is [".."]. *)
Definition SecretPath (path : string) : Prop :=
  ∃ segs, split_byte "/" path = "" :: segs ∧ segs ≠ [] ∧ Forall (λ s, s ≠ "" ∧ s ≠ "..") segs.

(** Two paths overlap, as far as their text tells: they are equal, or one of
    them and a slash begin the other. *)
Definition TextOverlap (path reserved : string) : Prop :=
  path = reserved ∨ (∃ t, path = (reserved +:+ "/") +:+ t) ∨ (∃ t, reserved = (path +:+ "/") +:+ t).
Definition VolumeOk (name mount_path : string) : Prop :=
  Dns1123Label name ∧ (name ∉ ["tube-bin"; "workspace"; "user-script"; "cache"]) ∧ (∃ t, mount_path = "/" +:+ t) ∧
  ∀ reserved, reserved ∈ ["/shared"; "/workspace"; "/etc/conn"; "/tmp/cache"] → ¬ TextOverlap mount_path reserved.
Definition VolumesOk (vs : gmap string string) : Prop :=
  (∀ name path, vs !! name = Some path → VolumeOk name path) ∧
  (∀ n1 n2 path, vs !! n1 = Some path → vs !! n2 = Some path → n1 = n2).

Definition DependenciesOk (p : Pipeline) (n : PipelineNode) : Prop :=
  ∀ d, d ∈ pn_after n → d ≠ pn_name n ∧ d ∈ pn_name <$> pl_nodes p.
Definition QuantitiesOk (n : PipelineNode) : Prop :=
  ∀ v, Some v ∈ [pn_cpu n; pn_memory n; pn_cache_size n] → Quantity v.
Definition SecretsOk (p : Pipeline) (n : PipelineNode) : Prop :=
  (∀ s, s ∈ secrets_env (pl_secrets p) ++ secrets_env (pn_secrets n) → SecretName s) ∧
  (∀ l1 f l2, secrets_files (pl_secrets p) ++ secrets_files (pn_secrets n) = l1 ++ f :: l2 →
    file_secret_name f ∉ file_secret_name <$> l2 →
    SecretName (file_secret_name f) ∧ ∀ path, file_secret_path f = Some path → SecretPath path).

Definition WellFormed (p : Pipeline) : Prop :=
  ∀ n, n ∈ pl_nodes p →
    DependenciesOk p n ∧ pn_steps n ≠ [] ∧ QuantitiesOk n ∧ VolumesOk (pn_volumes n) ∧ SecretsOk p n.

(** Who a filter admits: no filter on either kind admits every push; otherwise
    a branch push needs the branch filter, a tag push the tag filter. *)
Definition Admits (filter : option (list string)) (name : string) : Prop :=
  ∃ allowed, filter = Some allowed ∧ (allowed = [] ∨ name ∈ allowed).
Definition PushMatches (refs : Refs) (branch tag : option string) : Prop :=
  (branches refs = None ∧ tags refs = None) ∨
  (∃ b, branch = Some b ∧ Admits (branches refs) b) ∨
  (∃ t, branch = None ∧ tag = Some t ∧ Admits (tags refs) t).

(** What each reported error says about the document. *)
Definition ErrorDescribes (p : Pipeline) (e : PipelineError) : Prop :=
  match e with
  | YamlParseError _ => False
  | UnknownDependency node dep =>
      ∃ n, n ∈ pl_nodes p ∧ pn_name n = node ∧ dep ∈ pn_after n ∧ dep ∉ pn_name <$> pl_nodes p
  | SelfDependency node => ∃ n, n ∈ pl_nodes p ∧ pn_name n = node ∧ node ∈ pn_after n
  | EmptySteps node => ∃ n, n ∈ pl_nodes p ∧ pn_name n = node ∧ pn_steps n = []
  | InvalidQuantity node field v =>
      ∃ n, n ∈ pl_nodes p ∧ pn_name n = node ∧ ¬ Quantity v ∧
        (field, Some v) ∈ [("cpu", pn_cpu n); ("memory", pn_memory n); ("cache_size", pn_cache_size n)]
  | InvalidVolume node name _ =>
      ∃ n path, n ∈ pl_nodes p ∧ pn_name n = node ∧ pn_volumes n !! name = Some path ∧
        (¬ VolumeOk name path ∨ ∃ other, other ≠ name ∧ pn_volumes n !! other = Some path)
  | InvalidSecret node name _ =>
      ∃ n, n ∈ pl_nodes p ∧ pn_name n = node ∧
        (¬ SecretName name ∨
         ∃ path, mkFileSecretSpec name (Some path) ∈
                   merge_file_secrets (secrets_files (pl_secrets p)) (secrets_files (pn_secrets n)) ∧
                 ¬ SecretPath path)
  end.

(** ** Lemmas: the quantity scanner *)
Lemma digit_facts b :
  is_ascii_digit b = true →
  byte_eqb b "." = false ∧ is_sign b = false ∧ is_exponent_mark b = false.
Proof.
  intros H. repeat split; (destruct b as [[] [] [] [] [] [] [] []]; vm_compute in H |- *; congruence).
Qed.

Lemma scan_digits_app ds bs sd dot :
  Digits ds →
  scan_mantissa (ds ++ bs) sd dot =
  scan_mantissa bs (match ds with [] => sd | _ => true end) dot.
Proof.
  intros Hds. revert sd. induction Hds as [|d ds Hd Hds IH]; intros sd; simpl; [done|].
  rewrite Hd, IH. by destruct ds.
Qed.

Lemma scan_mantissa_dot ds bs sd :
  Digits ds → scan_mantissa (ds ++ "."%char :: bs) sd false =
  scan_mantissa bs (match ds with [] => sd | _ => true end) true.
Proof. intros Hds. by rewrite scan_digits_app. Qed.

(** The scanner stops at [rest]: its first byte cannot extend the mantissa. *)
Definition stops (rest : list ascii) (saw_dot : bool) : Prop :=
  match rest with
  | [] => True
  | b :: _ => is_ascii_digit b = false ∧ (byte_eqb b "." && negb saw_dot) = false
  end.

Lemma scan_stop rest sd dot : stops rest dot → scan_mantissa rest sd dot = (sd, rest).
Proof. destruct rest as [|b rest]; simpl; [done|]. by intros [-> ->]. Qed.

Lemma scan_digits_split bs dot :
  ∃ ds rest, bs = ds ++ rest ∧ Digits ds ∧
    (stops rest dot ∨ (dot = false ∧ ∃ after, rest = "."%char :: after)).
Proof.
  induction bs as [|b bs IH].
  { exists [], []. split_and!; [done|constructor|by left]. }
  destruct (is_ascii_digit b) eqn:Hb.
  - destruct IH as (ds & rest & -> & ? & ?). exists (b :: ds), rest.
    split_and!; [done|by constructor|done].
  - exists [], (b :: bs). split_and!; [done|constructor|].
    destruct (byte_eqb b "." && negb dot) eqn:Hd; [right|left; by split].
    autorewrite with bools in Hd. destruct Hd as [-> ->]. eauto.
Qed.

Lemma suffix_stops suf : QuantitySuffix suf → stops suf false.
Proof.
  assert (∀ b, is_exponent_mark b || is_decimal_suffix b || is_binary_suffix b = true →
    is_ascii_digit b = false ∧ (byte_eqb b "." && true) = false) as Hb.
  { intros b H. split; (destruct b as [[] [] [] [] [] [] [] []]; vm_compute in H |- *; congruence). }
  intros H. destruct H as [|e ?? He|b He|b He|b He]; simpl; [done|..];
    apply Hb; rewrite He, ?orb_true_r; done.
Qed.

Lemma stops_any rest dot : stops rest false → stops rest dot.
Proof. destruct rest as [|b rest]; simpl; [done|]. intros [? ?]. split; [done|]. by destruct (byte_eqb b "."). Qed.

Lemma scan_exponent_iff bs any :
  scan_exponent_digits bs any = true ↔ Digits bs ∧ (any = true ∨ bs ≠ []).
Proof.
  revert any; induction bs as [|b bs IH]; intros any; simpl.
  - split; [by intros ->; split; [constructor|left]|by intros [_ [|]]].
  - destruct (is_ascii_digit b) eqn:Hb.
    + rewrite IH. unfold Digits. rewrite Forall_cons. naive_solver.
    + split; [done|]. intros [Hd _]. inversion Hd; congruence.
Qed.

(** What [is_valid_quantity] does after the mantissa. *)
Definition suffix_ok (rest : list ascii) : bool :=
  match rest with
  | [] => true
  | b :: after =>
      if is_exponent_mark b &&
         match after with c :: _ => is_ascii_digit c || is_sign c | [] => false end
      then scan_exponent_digits (skip_sign after) false
      else if is_decimal_suffix b then match after with [] => true | _ => false end
      else if is_binary_suffix b then
        match after with
        | [] => true
        | c :: after' => if byte_eqb c "i" then match after' with [] => true | _ => false end else false
        end
      else false
  end.

Lemma exponent_not_decimal b : is_exponent_mark b = true → is_decimal_suffix b = false.
Proof. intros H. destruct b as [[] [] [] [] [] [] [] []]; vm_compute in H |- *; congruence. Qed.
Lemma decimal_not_binary b : is_decimal_suffix b = true → is_binary_suffix b = false ∧ is_exponent_mark b = false.
Proof. intros H. destruct b as [[] [] [] [] [] [] [] []]; vm_compute in H |- *; split; congruence. Qed.
Lemma binary_not_decimal b : is_binary_suffix b = true → is_decimal_suffix b = false.
Proof. intros H. destruct b as [[] [] [] [] [] [] [] []]; vm_compute in H |- *; congruence. Qed.

Lemma skip_sign_app sg ds : Sign sg → Digits ds → ds ≠ [] → skip_sign (sg ++ ds) = ds.
Proof.
  intros [|b Hb] Hds Hne; simpl; [|by rewrite Hb].
  destruct Hds as [|d ds Hd]; [done|]. simpl. by rewrite (proj1 (proj2 (digit_facts d Hd))).
Qed.
Lemma skip_sign_split bs : ∃ sg, Sign sg ∧ bs = sg ++ skip_sign bs.
Proof.
  destruct bs as [|b bs]; simpl; [exists []; by split; [constructor|]|].
  destruct (is_sign b) eqn:Hb; [exists [b]|exists []]; by split; [constructor|].
Qed.

Lemma suffix_ok_exponent e sg ds :
  is_exponent_mark e = true → Sign sg → Digits ds → ds ≠ [] → suffix_ok (e :: sg ++ ds) = true.
Proof.
  intros He Hsg Hds Hne. simpl. rewrite He, (skip_sign_app sg ds) by done.
  assert (match sg ++ ds with c :: _ => is_ascii_digit c || is_sign c | [] => false end = true) as ->.
  { destruct Hsg as [|b Hb]; simpl; [|by rewrite Hb, orb_true_r].
    destruct Hds as [|d ds Hd]; [done|]. simpl. by rewrite Hd. }
  apply scan_exponent_iff. auto.
Qed.

Lemma suffix_ok_iff rest : suffix_ok rest = true ↔ QuantitySuffix rest.
Proof.
  split.
  - destruct rest as [|b after]; [constructor|]. simpl.
    destruct (is_exponent_mark b && _) eqn:He.
    { apply andb_true_iff in He as [He _]. rewrite scan_exponent_iff. intros [Hd [|Hne]]; [done|].
      destruct (skip_sign_split after) as (sg & Hsg & Heq). rewrite Heq. by constructor. }
    destruct (is_decimal_suffix b) eqn:Hdec; [by destruct after; [constructor|]|].
    destruct (is_binary_suffix b) eqn:Hbin; [|done].
    destruct after as [|c after]; [by constructor|].
    destruct (byte_eqb c "i") eqn:Hc; [|done]. apply byte_eqb_true in Hc as ->.
    by destruct after; [constructor|].
  - intros [|e sg ds He Hsg Hds Hne|b Hb|b Hb|b Hb]; [done|by apply suffix_ok_exponent|..]; simpl.
    + destruct (decimal_not_binary b Hb) as [_ ->]. by rewrite Hb.
    + rewrite (binary_not_decimal b Hb), Hb. by destruct (is_exponent_mark b).
    + rewrite (binary_not_decimal b Hb), Hb. by destruct (is_exponent_mark b).
Qed.

Lemma is_valid_quantity_unfold s :
  is_valid_quantity s =
  let '(saw_digit, rest) := scan_mantissa (skip_sign (bytes s)) false false in
  saw_digit && suffix_ok rest.
Proof.
  unfold is_valid_quantity. destruct (str_eqb s "") eqn:Hs.
  - by apply str_eqb_true in Hs as ->.
  - destruct (scan_mantissa _ _ _) as [[] rest]; [|done]. simpl. by destruct rest.
Qed.

(** A mantissa never starts with a sign, so the scanner's split is unique. *)
Lemma skip_sign_mantissa sg m rest : Sign sg → Mantissa m → skip_sign (sg ++ m ++ rest) = m ++ rest.
Proof.
  intros [|b Hb] Hm; simpl; [|by rewrite Hb].
  assert (∀ b l, m ++ rest = b :: l → is_sign b = false) as Hns.
  { intros b l. destruct Hm as [ds Hds Hne|ds es Hds _ _]; destruct Hds as [|d ds Hd Hds]; simpl;
      [done|intros [= <- _]; by apply digit_facts|intros [= <- _]; done|intros [= <- _]; by apply digit_facts]. }
  destruct (m ++ rest) as [|b l] eqn:E; simpl; [done|]. by rewrite (Hns b l).
Qed.

Lemma scan_of_mantissa m suf :
  Mantissa m → stops suf false → scan_mantissa (m ++ suf) false false = (true, suf).
Proof.
  intros [ds Hds Hne|ds es Hds Hes Hne] Hs.
  - rewrite scan_digits_app by done. destruct ds; [done|]. by apply scan_stop.
  - rewrite <-(assoc_L (++)). simpl. rewrite scan_mantissa_dot, scan_digits_app by done.
    rewrite scan_stop by by apply stops_any. destruct ds, es; done.
Qed.

Lemma mantissa_of_scan bs rest :
  scan_mantissa bs false false = (true, rest) → ∃ m, bs = m ++ rest ∧ Mantissa m.
Proof.
  destruct (scan_digits_split bs false) as (ds & r & -> & Hds & [Hs|[_ [after ->]]]).
  - rewrite scan_digits_app, scan_stop by done. intros [= Hd ->]. exists ds. split; [done|].
    constructor; [done|]. by destruct ds.
  - rewrite scan_mantissa_dot by done.
    destruct (scan_digits_split after true) as (es & r & -> & Hes & [Hs|[? _]]); [|done].
    rewrite scan_digits_app, scan_stop by done. intros [= Hd ->].
    exists (ds ++ "."%char :: es). split; [by rewrite <-(assoc_L (++))|].
    constructor; [done..|]. destruct ds, es; done.
Qed.

Lemma quantity_valid_iff s : is_valid_quantity s = true ↔ Quantity s.
Proof.
  rewrite is_valid_quantity_unfold. split.
  - destruct (skip_sign_split (bytes s)) as (sg & Hsg & Heq).
    destruct (scan_mantissa _ _ _) as [sd rest] eqn:Hscan. intros [-> Hok]%andb_true_iff.
    apply mantissa_of_scan in Hscan as (m & Hm & ?). apply suffix_ok_iff in Hok.
    exists sg, m, rest. by rewrite Heq, Hm.
  - intros (sg & m & suf & -> & Hsg & Hm & Hsuf).
    rewrite skip_sign_mantissa by done. rewrite scan_of_mantissa; [|done|by apply suffix_stops].
    simpl. by apply suffix_ok_iff.
Qed.

(** ** Lemmas: the other validators *)
Lemma dns_valid_iff s : is_valid_dns1123_label s = true ↔ Dns1123Label s.
Proof.
  unfold is_valid_dns1123_label, Dns1123Label. cbv beta zeta. rewrite <-bytes_length.
  destruct (str_eqb s "") eqn:Hs; simpl.
  { apply str_eqb_true in Hs as ->. simpl. split; [done|lia]. }
  apply str_eqb_false in Hs. assert (bytes s ≠ []) as Hne by by rewrite bytes_nil.
  destruct (Nat.ltb_spec 63 (length (bytes s))) as [Hlen|Hlen]; [split; [done|lia]|].
  destruct (bytes s) as [|b bs] eqn:Hbs; [done|]. clear Hne.
  change (head (b :: bs)) with (Some b). cbv beta iota.
  destruct (last (b :: bs)) as [c|] eqn:Hlast; [|by apply last_None in Hlast].
  fold (label_byte b) (label_byte c).
  assert (forallb (λ b, (is_ascii_lowercase b || is_ascii_digit b) || byte_eqb b "-") (b :: bs) = true ↔
    Forall (λ b, label_byte b = true ∨ b = "-"%char) (b :: bs)) as Hall.
  { rewrite forallb_forall, Forall_forall. setoid_rewrite list_elem_of_In.
    apply forall_proper; intros d. unfold label_byte. by rewrite orb_true_iff, byte_eqb_true. }
  set (all := forallb _ (b :: bs)) in *. clearbody all.
  destruct (label_byte b) eqn:Hb; [destruct (label_byte c) eqn:Hc|]; simpl negb; simpl orb; cbv iota.
  - rewrite Hall. simpl in *. split; [|by intros (_ & ? & _)].
    intros ?. split_and!; [lia|lia|done|]. intros d [[= <-]|[= <-]]; done.
  - split; [done|]. intros (_ & _ & H). by rewrite H in Hc by auto.
  - split; [done|]. intros (_ & _ & H). by rewrite H in Hb by auto.
Qed.

Lemma secret_name_ok_iff s : secret_name_violation s = None ↔ SecretName s.
Proof.
  unfold secret_name_violation, SecretName, is_valid_env_var_name.
  destruct (str_eqb s "") eqn:Hs.
  { apply str_eqb_true in Hs as ->. split; [done|]. by intros (_ & ? & ? & [=] & _). }
  destruct (Nat.ltb_spec MAX_SECRET_NAME_LEN (String.length s)) as [Hlen|Hlen]; unfold MAX_SECRET_NAME_LEN in Hlen; [split; [done|lia]|].
  destruct (bytes s) as [|b bs]; simpl; [split; [done|by intros (_ & ? & ? & [=] & _)]|].
  assert (forallb (λ b, is_ascii_alphanumeric b || byte_eqb b "_") bs = true ↔
    Forall (λ b, is_ascii_alphanumeric b = true ∨ b = "_"%char) bs) as Hall.
  { rewrite forallb_forall, Forall_forall. setoid_rewrite list_elem_of_In.
    apply forall_proper; intros d. by rewrite orb_true_iff, byte_eqb_true. }
  destruct (_ && _) eqn:Hv; simpl.
  - apply andb_true_iff in Hv as [Hb Hr]. rewrite orb_true_iff, byte_eqb_true in Hb.
    split; [|done]. intros _. split; [lia|]. exists b, bs. rewrite <-Hall. auto.
  - split; [done|]. intros (_ & ? & ? & [= <- <-] & Hb & Hr). rewrite <-Hall in Hr.
    rewrite Hr, andb_true_r in Hv. rewrite <-byte_eqb_true, <-orb_true_iff in Hb. congruence.
Qed.

Lemma no_dotdot_iff l : existsb (str_eqb "..") l = false ↔ Forall (.≠ "..") l.
Proof.
  induction l as [|x l IH]; simpl; [done|].
  rewrite orb_false_iff, str_eqb_false, Forall_cons, IH. naive_solver.
Qed.

Lemma secret_path_ok_iff path : file_secret_path_violation path = None ↔ SecretPath path.
Proof.
  unfold file_secret_path_violation, SecretPath.
  destruct (starts_with "/" path) eqn:Hst; simpl.
  - apply starts_with_true in Hst as [t ->]. simpl String.append.
    change ("/" +:+ t) with (String "/" t). rewrite split_byte_sep.
    pose proof (split_tail_segments "/" (String "/" t)) as Hseg.
    rewrite split_byte_sep in Hseg. simpl tail in Hseg.
    destruct (ends_with_byte "/" (String "/" t)) eqn:He.
    { split; [done|]. intros (segs & [= <-] & _ & Hall). destruct Hseg as [Hseg _].
      destruct Hseg as [? _]; [|done]. eapply Forall_impl; [done|]; naive_solver. }
    destruct (contains "//" (String "/" t)) eqn:Hc.
    { split; [done|]. intros (segs & [= <-] & _ & Hall). destruct Hseg as [Hseg _].
      destruct Hseg as [_ ?]; [|congruence]. eapply Forall_impl; [done|]; naive_solver. }
    simpl existsb. destruct (existsb (str_eqb "..") (split_byte "/" t)) eqn:Hd; simpl.
    + split; [done|]. intros (segs & [= <-] & _ & Hall). exfalso.
      assert (existsb (str_eqb "..") (split_byte "/" t) = false) as Hf; [|congruence].
      apply no_dotdot_iff. eapply Forall_impl; [done|]; naive_solver.
    + split; [|done]. intros _. exists (split_byte "/" t). split_and!; [done|apply split_byte_nonempty|].
      apply Forall_and. split; [by apply Hseg|by apply no_dotdot_iff].
  - split; [done|]. intros (segs & Hsp & Hne & _).
    destruct path as [|c t]; [simpl in Hsp; by simplify_eq|].
    rewrite starts_with_cons, starts_with_nil, andb_true_r in Hst.
    simpl in Hsp. rewrite Hst in Hsp. case_match; by simplify_eq.
Qed.

Lemma merge_env_secrets_elem a b s : s ∈ merge_env_secrets a b ↔ s ∈ a ++ b.
Proof. unfold merge_env_secrets. rewrite elem_of_btree_keys. set_solver. Qed.

Lemma is_reserved_path_iff path reserved : is_reserved_path path reserved = true ↔ TextOverlap path reserved.
Proof.
  unfold is_reserved_path, TextOverlap. rewrite !orb_true_iff, str_eqb_true, !starts_with_true. tauto.
Qed.
Lemma unreserved_iff path l :
  existsb (is_reserved_path path) l = false ↔ ∀ reserved, reserved ∈ l → ¬ TextOverlap path reserved.
Proof.
  rewrite <-not_true_iff_false, existsb_exists. setoid_rewrite <-list_elem_of_In. setoid_rewrite is_reserved_path_iff. naive_solver.
Qed.

Lemma check_volume_ok node seen name path :
  check_volume node seen name path = Ok () ↔ VolumeOk name path ∧ path ∉ seen.
Proof.
  unfold check_volume, VolumeOk. cbv zeta. rewrite <-dns_valid_iff, <-starts_with_true.
  rewrite <-(unreserved_iff path). fold RESERVED_MOUNT_PATHS RESERVED_VOLUME_NAMES. generalize (existsb (is_reserved_path path) RESERVED_MOUNT_PATHS).
  intros overlaps. destruct (is_valid_dns1123_label name); simpl; [|naive_solver].
  case_bool_decide as Hr; [naive_solver|].
  destruct (starts_with "/" path); simpl; [|naive_solver].
  destruct overlaps; [naive_solver|]. case_bool_decide; naive_solver.
Qed.

Lemma check_volumes_ok node seen l :
  check_volumes node seen l = Ok () ↔
  Forall (λ '(name, path), VolumeOk name path) l ∧ NoDup l.*2 ∧ Forall (.∉ seen) l.*2.
Proof.
  revert seen; induction l as [|[name path] l IH]; intros seen; simpl.
  { split; [|done]. repeat split; constructor. }
  rewrite !Forall_cons, NoDup_cons.
  assert (check_volumes node ({[path]} ∪ seen) l = Ok () ↔
    Forall (λ '(name, path), VolumeOk name path) l ∧ NoDup l.*2 ∧
    ((path ∉ l.*2) ∧ Forall (.∉ seen) l.*2)) as IH'.
  { rewrite IH. do 2 (apply and_iff_compat_l). rewrite !Forall_forall. set_solver. }
  destruct (check_volume node seen name path) as [[]|e] eqn:Hc.
  - apply check_volume_ok in Hc. rewrite IH'. tauto.
  - split; [done|]. intros ([Hv _] & _ & Hs & _).
    assert (check_volume node seen name path = Ok ()) by by apply check_volume_ok. congruence.
Qed.

Lemma validate_volumes_ok `{HashOrder} p :
  validate_volumes p = Ok () ↔ ∀ n, n ∈ pl_nodes p → VolumesOk (pn_volumes n).
Proof.
  unfold validate_volumes. rewrite try_each_ok, Forall_forall.
  apply forall_proper; intros n. apply forall_proper; intros _.
  rewrite check_volumes_ok. fold (hash_values (pn_volumes n)). rewrite NoDup_hash_values.
  unfold VolumesOk. rewrite !Forall_forall. split.
  - intros (Hv & Hnd & _). split; [|naive_solver]. intros name path Hp.
    by apply (Hv (name, path)), elem_of_hash_iter.
  - intros [Hv Hnd]. split_and!; [|naive_solver|set_solver].
    intros [name path] Hin. by apply Hv, elem_of_hash_iter.
Qed.

Lemma validate_dependencies_ok p :
  validate_dependencies p = Ok () ↔ ∀ n, n ∈ pl_nodes p → DependenciesOk p n.
Proof.
  unfold validate_dependencies, DependenciesOk. rewrite try_each_ok, Forall_forall.
  apply forall_proper; intros n. apply forall_proper; intros _.
  rewrite try_each_ok, Forall_forall. apply forall_proper; intros d. apply forall_proper; intros _.
  destruct (str_eqb d (pn_name n)) eqn:Hs; autorewrite with bools in Hs; [naive_solver|].
  case_bool_decide as Hin; simpl; rewrite elem_of_list_to_set in Hin; naive_solver.
Qed.

Lemma validate_steps_ok p :
  validate_steps_present p = Ok () ↔ ∀ n, n ∈ pl_nodes p → pn_steps n ≠ [].
Proof.
  unfold validate_steps_present. rewrite try_each_ok, Forall_forall.
  apply forall_proper; intros n. apply forall_proper; intros _. by destruct (pn_steps n).
Qed.

Lemma validate_quantities_ok p :
  validate_quantities p = Ok () ↔ ∀ n, n ∈ pl_nodes p → QuantitiesOk n.
Proof.
  unfold validate_quantities, QuantitiesOk. rewrite try_each_ok, Forall_forall.
  apply forall_proper; intros n. apply forall_proper; intros _. rewrite try_each_ok.
  rewrite !Forall_cons, Forall_nil. setoid_rewrite <-quantity_valid_iff.
  assert (∀ field o, (match o with
     | Some v => if negb (is_valid_quantity v) then Err (InvalidQuantity (pn_name n) field v) else Ok ()
     | None => Ok () end = Ok ()) ↔ ∀ v, o = Some v → is_valid_quantity v = true) as Hone.
  { intros field [v|]; [destruct (is_valid_quantity v) eqn:Hv; simpl|]; naive_solver congruence. }
  rewrite !Hone. setoid_rewrite elem_of_cons. setoid_rewrite elem_of_cons.
  setoid_rewrite elem_of_cons. setoid_rewrite elem_of_nil. naive_solver.
Qed.

Lemma merge_file_secrets_map_app files f :
  merge_file_secrets_map (files ++ [f]) =
  <[file_secret_name f := mkFileSecretSpec (file_secret_name f) (file_secret_path f)]>
    (merge_file_secrets_map files).
Proof. unfold merge_file_secrets_map. by rewrite foldl_app. Qed.

(** The entry under a name is the last file of that name. *)
Lemma merge_file_secrets_map_lookup files name spec :
  merge_file_secrets_map files !! name = Some spec ↔
  ∃ l1 f l2, files = l1 ++ f :: l2 ∧ file_secret_name f = name ∧
    (name ∉ file_secret_name <$> l2) ∧ spec = mkFileSecretSpec name (file_secret_path f).
Proof.
  induction files as [|f files IH] using rev_ind.
  { split; [done|]. intros ([] & ? & ? & ? & _); simplify_eq/=. }
  rewrite merge_file_secrets_map_app. destruct (decide (file_secret_name f = name)) as [<-|Hne].
  - rewrite lookup_insert_eq. split.
    + intros [= <-]. exists files, f, []. split_and!; [done|done|set_solver|done].
    + intros (l1 & g & l2 & Heq & Hg & Hnot & ->). destruct l2 as [|h l2 _] using rev_ind.
      * apply app_inj_tail in Heq as [_ ->]. done.
      * rewrite app_comm_cons, (assoc_L (++)) in Heq. apply app_inj_tail in Heq as [_ ->]. set_solver.
  - rewrite lookup_insert_ne, IH by done. split.
    + intros (l1 & g & l2 & -> & Hg & Hnot & ->). exists l1, g, (l2 ++ [f]).
      rewrite <-(assoc_L (++)). split_and!; [done|done|set_solver|done].
    + intros (l1 & g & l2 & Heq & Hg & Hnot & ->). destruct l2 as [|h l2 _] using rev_ind.
      * apply app_inj_tail in Heq as [_ ->]. done.
      * rewrite app_comm_cons, (assoc_L (++)) in Heq. apply app_inj_tail in Heq as [-> ->].
        exists l1, g, l2. split_and!; [done|done|set_solver|done].
Qed.

(** The merged list has the last file of each name. *)
Lemma secrets_ok_merged p n :
  SecretsOk p n ↔
  (∀ s, s ∈ secrets_env (pl_secrets p) ++ secrets_env (pn_secrets n) → SecretName s) ∧
  (∀ spec, spec ∈ merge_file_secrets (secrets_files (pl_secrets p)) (secrets_files (pn_secrets n)) →
    SecretName (fss_name spec) ∧ ∀ path, fss_path spec = Some path → SecretPath path).
Proof.
  unfold SecretsOk, merge_file_secrets. apply and_iff_compat_l. setoid_rewrite elem_of_btree_values.
  setoid_rewrite merge_file_secrets_map_lookup. split.
  - intros H spec (name & l1 & f & l2 & Hl & <- & Hnot & ->). by apply (H l1 f l2).
  - intros H l1 f l2 Hl Hnot. apply (H (mkFileSecretSpec (file_secret_name f) (file_secret_path f))).
    by exists (file_secret_name f), l1, f, l2.
Qed.

Lemma validate_secrets_ok p :
  validate_secrets p = Ok () ↔ ∀ n, n ∈ pl_nodes p → SecretsOk p n.
Proof.
  unfold validate_secrets. rewrite try_each_ok, Forall_forall. setoid_rewrite secrets_ok_merged.
  apply forall_proper; intros n. apply forall_proper; intros _.
  set (names := merge_env_secrets _ _). set (specs := merge_file_secrets _ _).
  set (A := try_each _ names). set (B := try_each _ specs).
  assert (A = Ok () ↔ ∀ s, s ∈ secrets_env (pl_secrets p) ++ secrets_env (pn_secrets n) →
      SecretName s) as HA.
  { unfold A. rewrite try_each_ok, Forall_forall. apply forall_proper; intros s.
    unfold names. rewrite <-merge_env_secrets_elem, <-secret_name_ok_iff. destruct (secret_name_violation s); naive_solver. }
  assert (B = Ok () ↔ ∀ spec, spec ∈ specs → SecretName (fss_name spec) ∧
      ∀ path, fss_path spec = Some path → SecretPath path) as HB.
  { unfold B. rewrite try_each_ok, Forall_forall. apply forall_proper; intros s.
    setoid_rewrite <-secret_path_ok_iff. rewrite <-secret_name_ok_iff.
    destruct (secret_name_violation (fss_name s)); [naive_solver|].
    destruct (fss_path s) as [path|]; simpl; [|naive_solver].
    destruct (file_secret_path_violation path) eqn:E; naive_solver congruence. }
  rewrite <-HB, <-HA.
  destruct A as [[]|]; simpl; naive_solver.
Qed.

Lemma validate_ok_steps `{HashOrder} p q :
  validate p = Ok q ↔
  q = p ∧ validate_dependencies p = Ok () ∧ validate_steps_present p = Ok () ∧
  validate_quantities p = Ok () ∧ validate_volumes p = Ok () ∧ validate_secrets p = Ok ().
Proof.
  unfold validate. cbv [mret result_ret mbind result_bind]. split.
  - intros Hv. repeat (break_match_in Hv; [|done]). injection Hv as <-.
    repeat match goal with a : () |- _ => destruct a end. done.
  - by intros (-> & -> & -> & -> & -> & ->).
Qed.

Lemma validate_ok `{HashOrder} p q : validate p = Ok q ↔ q = p ∧ WellFormed p.
Proof.
  rewrite validate_ok_steps, validate_dependencies_ok, validate_steps_ok, validate_quantities_ok,
    validate_volumes_ok, validate_secrets_ok.
  apply and_iff_compat_l. unfold WellFormed. split.
  - intros (? & ? & ? & ? & ?) n Hn. auto 10.
  - intros Hw. split_and!; intros n Hn; by destruct (Hw n Hn) as (? & ? & ? & ? & ?).
Qed.

Lemma ref_filter_matches_iff allowed c :
  ref_filter_matches allowed c = true ↔ allowed = [] ∨ c ∈ allowed.
Proof.
  unfold ref_filter_matches. destruct allowed as [|a l]; [naive_solver|].
  rewrite existsb_exists. setoid_rewrite str_eqb_true. setoid_rewrite <-list_elem_of_In.
  naive_solver.
Qed.

Lemma admits_iff filter c :
  match filter with Some allowed => ref_filter_matches allowed c | None => false end = true ↔
  Admits filter c.
Proof.
  unfold Admits. destruct filter as [allowed|]; [|naive_solver].
  rewrite ref_filter_matches_iff. naive_solver.
Qed.

Lemma refs_match_branch_filter_iff filter c :
  refs_match_branch_filter filter c = true ↔ filter = None ∨ Admits filter c.
Proof.
  rewrite <-admits_iff. destruct filter as [allowed|]; simpl; [|naive_solver].
  split; [by right|by intros [|]].
Qed.

Lemma refs_match_push_iff refs branch tag :
  refs_match_push refs branch tag = true ↔ PushMatches refs branch tag.
Proof.
  unfold refs_match_push, PushMatches. destruct branch as [b|]; [|destruct tag as [t|]].
  - pose proof (admits_iff (branches refs) b).
    destruct (branches refs), (tags refs); naive_solver.
  - pose proof (admits_iff (tags refs) t).
    destruct (branches refs), (tags refs); naive_solver.
  - destruct (branches refs), (tags refs); naive_solver.
Qed.

(** ** Lemmas: what the errors report *)
Lemma validate_dependencies_err p e : validate_dependencies p = Err e → ErrorDescribes p e.
Proof.
  unfold validate_dependencies.
  intros (l1 & n & l2 & Hn & _ & (m1 & d & m2 & Hd & _ & He)%try_each_err)%try_each_err.
  assert (n ∈ pl_nodes p) by (rewrite Hn; set_solver).
  assert (d ∈ pn_after n) by (rewrite Hd; set_solver).
  destruct (str_eqb d (pn_name n)) eqn:Hs.
  - apply str_eqb_true in Hs as ->. injection He as <-. simpl. eauto.
  - case_bool_decide as Hin; simpl in He; [done|]. injection He as <-. simpl.
    rewrite elem_of_list_to_set in Hin. eauto 10.
Qed.

Lemma validate_steps_err p e : validate_steps_present p = Err e → ErrorDescribes p e.
Proof.
  unfold validate_steps_present. intros (l1 & n & l2 & Hn & _ & He)%try_each_err.
  destruct (pn_steps n) eqn:Hs; [|done]. injection He as <-. simpl.
  exists n. rewrite Hn. set_solver.
Qed.

Lemma validate_quantities_err p e : validate_quantities p = Err e → ErrorDescribes p e.
Proof.
  unfold validate_quantities.
  intros (l1 & n & l2 & Hn & _ & (m1 & [field value] & m2 & Hd & _ & He)%try_each_err)%try_each_err.
  destruct value as [v|]; [|done]. destruct (is_valid_quantity v) eqn:Hq; simpl in He; [done|].
  injection He as <-. simpl. exists n. rewrite <-quantity_valid_iff, Hq, Hd.
  split_and!; [rewrite Hn; set_solver|done|done|set_solver].
Qed.

Lemma check_volumes_err node seen l e :
  check_volumes node seen l = Err e →
  ∃ l1 name path l2 reason, l = l1 ++ (name, path) :: l2 ∧
    e = InvalidVolume (pn_name node) name reason ∧
    (¬ VolumeOk name path ∨ path ∈ seen ∨ path ∈ l1.*2).
Proof.
  revert seen; induction l as [|[name path] l IH]; intros seen; simpl; [done|].
  destruct (check_volume node seen name path) as [[]|e'] eqn:Hc.
  - intros (l1 & n & q & l2 & reason & -> & -> & Hbad)%IH.
    exists ((name, path) :: l1), n, q, l2, reason. split_and!; [done|done|set_solver].
  - intros [= ->]. assert (∃ reason, e = InvalidVolume (pn_name node) name reason) as [reason ->].
    { unfold check_volume in Hc. cbv zeta in Hc. repeat case_match; simplify_eq; eauto. }
    exists [], name, path, l, reason. split_and!; [done..|].
    destruct (decide (path ∈ seen)); [by right; left|]. left. intros Hv.
    assert (check_volume node seen name path = Ok ()) by by apply check_volume_ok. congruence.
Qed.

Lemma validate_volumes_err `{HashOrder} p e : validate_volumes p = Err e → ErrorDescribes p e.
Proof.
  unfold validate_volumes. intros (l1 & n & l2 & Hn & _ & He)%try_each_err.
  apply check_volumes_err in He as (m1 & name & path & m2 & reason & Hm & -> & Hbad).
  simpl. exists n, path. split_and!; [rewrite Hn; set_solver|done|..].
  - apply elem_of_hash_iter. rewrite Hm. set_solver.
  - destruct Hbad as [?|[?|Hin]]; [by left|set_solver|right].
    apply list_elem_of_fmap in Hin as ([other q] & -> & Hin). exists other. split.
    + intros ->. pose proof (NoDup_hash_iter (pn_volumes n)) as Hnd. rewrite Hm in Hnd.
      apply NoDup_app in Hnd as (_ & Hnd & _). specialize (Hnd _ Hin). set_solver.
    + apply elem_of_hash_iter. rewrite Hm. set_solver.
Qed.

Lemma validate_secrets_err p e : validate_secrets p = Err e → ErrorDescribes p e.
Proof.
  unfold validate_secrets. intros (l1 & n & l2 & Hn & _ & He)%try_each_err.
  assert (n ∈ pl_nodes p) as Hin by (rewrite Hn; set_solver). clear Hn.
  cbv [mbind result_bind] in He.
  destruct (try_each _ (merge_env_secrets _ _)) as [[]|e'] eqn:Henv.
  - apply try_each_err in He as (m1 & spec & m2 & Hm & _ & He).
    destruct (secret_name_violation (fss_name spec)) eqn:Hname.
    + injection He as <-. simpl. exists n. rewrite <-secret_name_ok_iff. naive_solver.
    + destruct (fss_path spec) as [path|] eqn:Hpath; simpl in He; [|done].
      destruct (file_secret_path_violation path) eqn:Hv; [|done]. injection He as <-. simpl.
      exists n. split_and!; [done..|]. right. exists path. rewrite <-secret_path_ok_iff, Hm.
      destruct spec; simplify_eq/=. set_solver.
  - injection He as <-. apply try_each_err in Henv as (m1 & name & m2 & _ & _ & Hv).
    destruct (secret_name_violation name) eqn:Hname; [|done]. injection Hv as <-. simpl.
    exists n. rewrite <-secret_name_ok_iff. naive_solver.
Qed.

(** ** A concrete document, for the witnesses *)

Definition no_secrets : Secrets := mkSecrets [] [].
Definition sample_node (name : string) (after : list string) (volumes : gmap string string) : PipelineNode := {|
  pn_name := name; pn_image := None; pn_timeout_secs := None; pn_startup_timeout_secs := None;
  pn_checkout := None; pn_after := after; pn_env := ∅; pn_secrets := no_secrets;
  pn_steps := [Inline "cargo build"]; pn_privileged := false; pn_cache_size := None;
  pn_cpu := None; pn_memory := None; pn_volumes := volumes;
|}.
Definition sample_pipeline (nodes : list PipelineNode) : Pipeline := {|
  pl_name := "ci"; pl_timeout_secs := None; pl_fail_fast := None; pl_on := None; pl_env := ∅;
  pl_secrets := no_secrets; pl_nodes := nodes;
|}.

(** ** Properties *)


(** Every validation error describes a real defect of the document: the
    node it names exists and has the dependency, quantity, volume or secret
    that is reported, and that item violates its specification. *)
Theorem validate_error_describes `{HashOrder} p e : validate p = Err e → ErrorDescribes p e.
Proof.
  unfold validate. cbv [mret result_ret mbind result_bind]. intros Hv.
  destruct (validate_dependencies p) eqn:H1; [|by injection Hv as ->; apply validate_dependencies_err].
  destruct (validate_steps_present p) eqn:H2; [|by injection Hv as ->; apply validate_steps_err].
  destruct (validate_quantities p) eqn:H3; [|by injection Hv as ->; apply validate_quantities_err].
  destruct (validate_volumes p) eqn:H4; [|by injection Hv as ->; apply validate_volumes_err].
  destruct (validate_secrets p) eqn:H5; [done|by injection Hv as ->; apply validate_secrets_err].
Qed.

Example validate_error_describes_witness :
  let p := sample_pipeline [sample_node "Build" [] ∅; sample_node "Test" ["Typo"] ∅] in
  @validate canonical_order p = Err (UnknownDependency "Test" "Typo") ∧
  ErrorDescribes p (UnknownDependency "Test" "Typo").
Proof.
  intros p. assert (@validate canonical_order p = Err (UnknownDependency "Test" "Typo")) as Hv
    by (vm_compute; reflexivity).
  split; [exact Hv|]. exact (@validate_error_describes canonical_order p _ Hv).
Defined.

(** The hand-written scanners decide their grammars: resource quantities,
    DNS-1123 labels, secret names and secret file paths. *)
Theorem validators_decide_grammars s :
  (is_valid_quantity s = true ↔ Quantity s) ∧
  (is_valid_dns1123_label s = true ↔ Dns1123Label s) ∧
  (secret_name_violation s = None ↔ SecretName s) ∧
  (file_secret_path_violation s = None ↔ SecretPath s).
Proof.
  split_and!; [apply quantity_valid_iff|apply dns_valid_iff|apply secret_name_ok_iff|
    apply secret_path_ok_iff].
Qed.

(** The per-node view keeps the nodes and their dependencies in order; a
    node's environment entry overrides the pipeline's; the secret names are the
    union of both levels in strictly sorted order; and the file secret under a name is
    the last one listed, the node's after the pipeline's. *)
Theorem node_info_merges p n :
  n ∈ pl_nodes p →
  node_info_of p n ∈ node_info p ∧
  ni_name <$> node_info p = pn_name <$> pl_nodes p ∧
  ni_dependencies (node_info_of p n) = pn_after n ∧
  (∀ k, ni_env (node_info_of p n) !! k =
        match pn_env n !! k with Some v => Some v | None => pl_env p !! k end) ∧
  (∀ s, s ∈ ni_env_secrets (node_info_of p n) ↔
        s ∈ secrets_env (pl_secrets p) ∨ s ∈ secrets_env (pn_secrets n)) ∧
  StronglySorted String.le (ni_env_secrets (node_info_of p n)) ∧
  NoDup (ni_env_secrets (node_info_of p n)) ∧
  (∀ spec, spec ∈ ni_file_secrets (node_info_of p n) ↔
     ∃ l1 f l2, secrets_files (pl_secrets p) ++ secrets_files (pn_secrets n) = l1 ++ f :: l2 ∧
       (file_secret_name f ∉ file_secret_name <$> l2) ∧
       spec = mkFileSecretSpec (file_secret_name f) (file_secret_path f)).
Proof.
  intros Hn. unfold node_info. split_and!.
  - by apply list_elem_of_fmap_2.
  - by rewrite <-list_fmap_compose.
  - done.
  - intros k. simpl. rewrite lookup_union. by destruct (pn_env n !! k), (pl_env p !! k).
  - intros s. simpl. by rewrite merge_env_secrets_elem, elem_of_app.
  - apply btree_keys_sorted.
  - apply NoDup_btree_keys.
  - intros spec. simpl. unfold merge_file_secrets. rewrite elem_of_btree_values.
    setoid_rewrite merge_file_secrets_map_lookup. naive_solver.
Qed.

Example node_info_merges_witness :
  let n := sample_node "Build" [] ∅ in let p := sample_pipeline [n] in
  n ∈ pl_nodes p ∧ node_info_of p n ∈ node_info p.
Proof.
  intros n p. assert (n ∈ pl_nodes p) as Hn by (apply list_elem_of_here).
  split; [exact Hn|]. exact (proj1 (node_info_merges p n Hn)).
Defined.

(** A push triggers a pipeline exactly when it has a push trigger that
    admits it: no filter at all, or a branch filter admitting the branch, or,
    for a tag push, a tag filter admitting the tag; a filter list that is empty
    admits every name. A pull request is filtered by its base branch alone. *)
Theorem triggers_iff p branch tag base :
  (triggered_by_push p branch tag = true ↔
   ∃ t refs, pl_on p = Some t ∧ trig_push t = Some refs ∧ PushMatches refs branch tag) ∧
  (triggered_by_pull_request p base = true ↔
   ∃ t refs, pl_on p = Some t ∧ trig_pull_request t = Some refs ∧
     (branches refs = None ∨ Admits (branches refs) base)).
Proof.
  unfold triggered_by_push, triggered_by_pull_request.
  destruct (pl_on p) as [t|]; [|naive_solver]. split.
  - destruct (trig_push t) as [refs|] eqn:Ht; [|naive_solver].
    rewrite refs_match_push_iff. naive_solver.
  - destruct (trig_pull_request t) as [refs|] eqn:Ht; [|naive_solver].
    rewrite refs_match_branch_filter_iff. naive_solver.
Qed.

(** The reserved-mount check compares with an added slash, so a mount path
    that already ends in one is not recognised as a parent: a document that
    mounts a user volume at [/] is accepted, although [/] contains every
    reserved mount path. *)
Theorem root_mount_accepted `{HashOrder} :
  ∃ p n, validate p = Ok p ∧ n ∈ pl_nodes p ∧ pn_volumes n !! "data" = Some "/" ∧
    Forall (λ reserved, starts_with "/" reserved = true) RESERVED_MOUNT_PATHS.
Proof.
  set (n := sample_node "Build" [] {["data" := "/"]}).
  exists (sample_pipeline [n]), n. split_and!.
  - apply validate_ok_steps. split_and!; [done|vm_compute; reflexivity..| |vm_compute; reflexivity].
    apply validate_volumes_ok. intros m ->%list_elem_of_singleton. split.
    + intros name path Hp. change (pn_volumes n) with ({["data" := "/"]} : gmap string string) in Hp.
      apply lookup_singleton_Some in Hp as [<- <-].
      apply (check_volume_ok n ∅ "data" "/"). vm_compute. reflexivity.
    + intros n1 n2 path H1 H2. change (pn_volumes n) with ({["data" := "/"]} : gmap string string) in *.
      apply lookup_singleton_Some in H1 as [<- _], H2 as [<- _]. done.
  - apply list_elem_of_here.
  - reflexivity.
  - repeat constructor.
Qed.
