(* ===== verification/StateStore.v ===== *)
(** * The run-state store: shared state and leases

    Models [state_store/src/lib.rs]: the run state, the [StateStore] trait as a
    type class, the contract its clients rely on as a second class, and the
    in-memory implementation.  *)

From S2P Require Import Prelude Pipeline.

(** ** Data *)

Inductive NodeStatus : Type := Pending | Running | Success | Failed.
#[export] Instance node_status_eq_dec : EqDecision NodeStatus.
Proof. solve_decision. Defined.

Record RunState : Type := mkRunState {
  rs_version : Z;
  rs_statuses : gmap string NodeStatus;
  rs_dependencies : gmap string (list string);
  rs_pipeline : Pipeline;
}.

#[export] Instance run_state_eq_dec : EqDecision RunState.
Proof. solve_decision. Defined.

Record LeaseData : Type := mkLease { lease_version : Z; lease_server_id : string }.

Inductive StateStoreError : Type :=
| RedisError (msg : string)
| PoolError (msg : string)
| SerializationError (msg : string)
| StoreError (msg : string)
| RuntimeError (msg : string).

(** No node is running and none is waiting with all its dependencies met. *)
Definition run_state_is_terminal (state : RunState) : bool :=
  if bool_decide (map_Exists (λ _ s, s = Running) (rs_statuses state)) then false else
  let has_dispatchable :=
    bool_decide (map_Exists (λ node deps,
      rs_statuses state !! node = Some Pending ∧
      Forall (λ d, rs_statuses state !! d = Some Success) deps) (rs_dependencies state)) in
  negb has_dispatchable.

(** ** The trait *)

Class StateStore (S : Type) : Type := {
  save_run : string → RunState → Z → M S (result StateStoreError bool);
  load_run : string → M S (result StateStoreError (option RunState));
  delete_run : string → M S (result StateStoreError unit);
  try_acquire_lease : string → string → Z → M S (result StateStoreError (option Z));
  renew_lease : string → string → Z → Z → M S (result StateStoreError bool);
  release_lease : string → M S (result StateStoreError unit);
  get_orphaned_runs : M S (result StateStoreError (list string));
  list_terminal_unleased_runs : M S (result StateStoreError (list string));
  store_ping : M S (result StateStoreError unit);
}.

(** ** The contract

    What every implementation promises of the two maps it keeps: compare and
    swap on the run's version and at most one lease per run. A failed call may
    have been executed all the same, its answer lost; it never does anything
    else. The promise covers the states that the calls themselves produce, and
    versions that a Lua script handles without rounding. *)

Definition version_ok (v : Z) : Prop := (0 ≤ v < 100000000000000)%Z.

Definition cas_accepts (current : option RunState) (expected_version : Z) : bool :=
  match current with
  | Some st => bool_decide (rs_version st = expected_version)
  | None => bool_decide (expected_version = 0%Z)
  end.

Definition holds_lease (l : option LeaseData) (server_id : string) (version : Z) : bool :=
  match l with
  | Some d => bool_decide (lease_server_id d = server_id) && bool_decide (lease_version d = version)
  | None => false
  end.

(** A query of the reaper: stored runs, each once, on one side of the terminal
    test. *)
Definition lists_runs (runs : gmap string RunState) (terminal : bool) (l : list string) : Prop :=
  NoDup l ∧ ∀ r, r ∈ l → ∃ st, runs !! r = Some st ∧ run_state_is_terminal st = terminal.

(** Run ids are UUIDs; what matters is that they do not contain the separator of
    the store's keys. *)
Definition run_ids_ok (runs : gmap string RunState) : Prop :=
  ∀ r, is_Some (runs !! r) → ":"%char ∉ bytes r.

Class StateStoreSpec (S : Type) `{StateStore S} : Type := {
  runs_of : S → gmap string RunState;
  leases_of : S → gmap string LeaseData;
  store_ok : S → Prop;
  save_run_spec : ∀ r st v s, store_ok s → version_ok (rs_version st) → version_ok v →
    let '(res, s') := save_run r st v s in
    store_ok s' ∧ leases_of s' = leases_of s ∧
    match res with
    | Ok b => b = cas_accepts (runs_of s !! r) v ∧ runs_of s' = (if b then <[r := st]> (runs_of s) else runs_of s)
    | Err _ => runs_of s' = runs_of s ∨ cas_accepts (runs_of s !! r) v = true ∧ runs_of s' = <[r := st]> (runs_of s)
    end;
  load_run_spec : ∀ r s, store_ok s →
    let '(res, s') := load_run r s in
    store_ok s' ∧ runs_of s' = runs_of s ∧ leases_of s' = leases_of s ∧
    match res with Ok o => o = runs_of s !! r | Err _ => True end;
  delete_run_spec : ∀ r s, store_ok s →
    let '(res, s') := delete_run r s in
    store_ok s' ∧ leases_of s' = leases_of s ∧
    match res with
    | Ok _ => runs_of s' = delete r (runs_of s)
    | Err _ => runs_of s' = runs_of s ∨ runs_of s' = delete r (runs_of s)
    end;
  release_lease_spec : ∀ r s, store_ok s →
    let '(res, s') := release_lease r s in
    store_ok s' ∧ runs_of s' = runs_of s ∧
    match res with
    | Ok _ => leases_of s' = delete r (leases_of s)
    | Err _ => leases_of s' = leases_of s ∨ leases_of s' = delete r (leases_of s)
    end;
  try_acquire_lease_spec : ∀ r server ttl s, store_ok s → (0 < ttl)%Z →
    let '(res, s') := try_acquire_lease r server ttl s in
    store_ok s' ∧ runs_of s' = runs_of s ∧
    match res with
    | Ok (Some v) => leases_of s !! r = None ∧
        ∃ w, leases_of s' = <[r := mkLease w server]> (leases_of s) ∧ (version_ok v → w = v)
    | Ok None => is_Some (leases_of s !! r) ∧ leases_of s' = leases_of s
    | Err _ => leases_of s' = leases_of s ∨
        leases_of s !! r = None ∧ ∃ v, leases_of s' = <[r := mkLease v server]> (leases_of s)
    end;
  renew_lease_spec : ∀ r server v ttl s, store_ok s → version_ok v → (0 < ttl)%Z →
    let '(res, s') := renew_lease r server v ttl s in
    store_ok s' ∧ runs_of s' = runs_of s ∧ leases_of s' = leases_of s ∧
    match res with Ok b => b = holds_lease (leases_of s !! r) server v | Err _ => True end;
  get_orphaned_runs_spec : ∀ s, store_ok s → run_ids_ok (runs_of s) →
    let '(res, s') := get_orphaned_runs s in
    store_ok s' ∧ runs_of s' = runs_of s ∧ leases_of s' = leases_of s ∧
    match res with Ok l => lists_runs (runs_of s) false l | Err _ => True end;
  list_terminal_unleased_runs_spec : ∀ s, store_ok s → run_ids_ok (runs_of s) →
    let '(res, s') := list_terminal_unleased_runs s in
    store_ok s' ∧ runs_of s' = runs_of s ∧ leases_of s' = leases_of s ∧
    match res with Ok l => lists_runs (runs_of s) true l | Err _ => True end;
  store_ping_spec : ∀ s, store_ok s →
    let '(_, s') := store_ping s in store_ok s' ∧ runs_of s' = runs_of s ∧ leases_of s' = leases_of s;
}.

(** ** The in-memory implementation *)

Module InMemory.

Record InMemoryLeaseEntry : Type := mkEntry { le_server_id : string; le_version : Z }.

Record InMemoryStateStore : Type := mkStore {
  runs : gmap string RunState;
  leases : gmap string InMemoryLeaseEntry;
  lease_counter : Z;
}.

Definition new : InMemoryStateStore := mkStore ∅ ∅ 0.

Definition im_save_run (run_id : string) (state : RunState) (expected_version : Z)
  : M InMemoryStateStore (result StateStoreError bool) := λ s,
  let insert := (Ok true, mkStore (<[run_id := state]> (runs s)) (leases s) (lease_counter s)) in
  match runs s !! run_id with
  | Some entry => if bool_decide (rs_version entry ≠ expected_version) then (Ok false, s) else insert
  | None => if bool_decide (expected_version ≠ 0%Z) then (Ok false, s) else insert
  end.

Definition im_load_run (run_id : string) : M InMemoryStateStore (result StateStoreError (option RunState)) :=
  λ s, (Ok (runs s !! run_id), s).

Definition im_delete_run (run_id : string) : M InMemoryStateStore (result StateStoreError unit) :=
  λ s, (Ok (), mkStore (delete run_id (runs s)) (leases s) (lease_counter s)).

Definition im_try_acquire_lease (run_id server_id : string) (_ttl_secs : Z)
  : M InMemoryStateStore (result StateStoreError (option Z)) := λ s,
  match leases s !! run_id with
  | Some _ => (Ok None, s)
  | None =>
      let version := u64_add (lease_counter s) 1 in
      (Ok (Some version), mkStore (runs s) (<[run_id := mkEntry server_id version]> (leases s)) version)
  end.

Definition im_renew_lease (run_id server_id : string) (lease_version _ttl_secs : Z)
  : M InMemoryStateStore (result StateStoreError bool) := λ s,
  match leases s !! run_id with
  | Some entry =>
      if bool_decide (le_server_id entry = server_id) && bool_decide (le_version entry = lease_version)
      then (Ok true, s) else (Ok false, s)
  | None => (Ok false, s)
  end.

Definition im_release_lease (run_id : string) : M InMemoryStateStore (result StateStoreError unit) :=
  λ s, (Ok (), mkStore (runs s) (delete run_id (leases s)) (lease_counter s)).

Definition unleased (s : InMemoryStateStore) (run_id : string) : bool :=
  match leases s !! run_id with Some _ => false | None => true end.

Definition im_get_orphaned_runs `{HashOrder} : M InMemoryStateStore (result StateStoreError (list string)) :=
  λ s, (Ok ((List.filter (λ '(run_id, state), negb (run_state_is_terminal state) && unleased s run_id)
              (hash_iter (runs s))).*1), s).

Definition im_list_terminal_unleased_runs `{HashOrder}
  : M InMemoryStateStore (result StateStoreError (list string)) :=
  λ s, (Ok ((List.filter (λ '(run_id, state), run_state_is_terminal state && unleased s run_id)
              (hash_iter (runs s))).*1), s).

#[export] Instance in_memory_store `{HashOrder} : StateStore InMemoryStateStore := {|
  save_run := im_save_run;
  load_run := im_load_run;
  delete_run := im_delete_run;
  try_acquire_lease := im_try_acquire_lease;
  renew_lease := im_renew_lease;
  release_lease := im_release_lease;
  get_orphaned_runs := im_get_orphaned_runs;
  list_terminal_unleased_runs := im_list_terminal_unleased_runs;
  store_ping := mret (Ok ());
|}.

(** Any sequence of calls, by any number of servers. *)
Inductive Call : Type :=
| CSave (run_id : string) (state : RunState) (expected_version : Z)
| CDelete (run_id : string)
| CAcquire (run_id server_id : string)
| CRenew (run_id server_id : string) (lease_version : Z)
| CRelease (run_id : string).

Definition exec (c : Call) (s : InMemoryStateStore) : InMemoryStateStore :=
  match c with
  | CSave r st v => (im_save_run r st v s).2
  | CDelete r => (im_delete_run r s).2
  | CAcquire r sv => (im_try_acquire_lease r sv 30 s).2
  | CRenew r sv v => (im_renew_lease r sv v 30 s).2
  | CRelease r => (im_release_lease r s).2
  end.
Definition exec_all (cs : list Call) (s : InMemoryStateStore) : InMemoryStateStore :=
  foldl (λ s c, exec c s) s cs.

End InMemory.
Import InMemory.

(** ** Lemmas *)
Lemma terminal_iff state :
  run_state_is_terminal state = true ↔
  (∀ n, rs_statuses state !! n ≠ Some Running) ∧
  (∀ n deps, rs_dependencies state !! n = Some deps → rs_statuses state !! n = Some Pending →
     ∃ d, d ∈ deps ∧ rs_statuses state !! d ≠ Some Success).
Proof.
  unfold run_state_is_terminal. case_bool_decide as Hr.
  - destruct Hr as (n & s & Hn & ->). naive_solver.
  - assert (∀ n, rs_statuses state !! n ≠ Some Running) as Hnr.
    { intros n Hn. apply Hr. by exists n, Running. }
    rewrite negb_true_iff, bool_decide_eq_false. split.
    + intros Hd. split; [done|]. intros n deps Hdeps Hp.
      assert (¬ Forall (λ d, rs_statuses state !! d = Some Success) deps) as Hnot.
      { intros Hall. apply Hd. exists n, deps. auto. }
      apply not_Forall_Exists, Exists_exists in Hnot as (d & ? & ?); [eauto|]. intros d. apply _.
    + intros [_ Hall] (n & deps & Hdeps & Hp & Hs).
      destruct (Hall n deps Hdeps Hp) as (d & Hd & Hne). rewrite Forall_forall in Hs. by apply Hne, Hs.
Qed.

Definition entry_lease (e : InMemoryLeaseEntry) : LeaseData := mkLease (le_version e) (le_server_id e).

Lemma elem_of_filter_fst {A} (f : string * A → bool) (l : list (string * A)) k :
  k ∈ (List.filter f l).*1 ↔ ∃ v, (k, v) ∈ l ∧ f (k, v) = true.
Proof.
  rewrite list_elem_of_fmap. setoid_rewrite list_elem_of_In. split.
  - intros ([k' v] & -> & Hin%List.filter_In). eauto.
  - intros (v & Hin & Hf). exists (k, v). rewrite List.filter_In. auto.
Qed.

Lemma NoDup_filter_hash_keys `{HashOrder} {A} (f : string * A → bool) (m : gmap string A) :
  NoDup (List.filter f (hash_iter m)).*1.
Proof.
  pose proof (NoDup_hash_keys m) as Hnd. unfold hash_keys in Hnd.
  induction (hash_iter m) as [|p l IH]; [constructor|]. rewrite fmap_cons, NoDup_cons in Hnd. destruct Hnd as [Hp Hnd].
  cbn [List.filter]. destruct (f p); [|by apply IH]. rewrite fmap_cons. constructor; [|by apply IH].
  intros Hin. apply Hp. apply list_elem_of_fmap in Hin as (q & -> & Hq). apply list_elem_of_fmap_2.
  apply list_elem_of_In. by apply list_elem_of_In, List.filter_In in Hq as [? _].
Qed.

#[export] Instance in_memory_spec `{HashOrder} : StateStoreSpec InMemoryStateStore.
Proof.
  refine {| runs_of := runs; leases_of s := entry_lease <$> leases s; store_ok _ := True |}.
  - intros r st v s _ _ _. simpl. unfold im_save_run, cas_accepts.
    destruct (runs s !! r) as [e|]; case_bool_decide; simpl; case_bool_decide; done.
  - done.
  - done.
  - intros r s _. simpl. by rewrite fmap_delete.
  - intros r sv ttl s _ _. simpl. unfold im_try_acquire_lease.
    destruct (leases s !! r) as [e|] eqn:He; simpl; rewrite lookup_fmap, He; [by split_and!; eauto|].
    split_and!; [done..|]. eexists. by rewrite fmap_insert.
  - intros r sv v ttl s _ _ _. simpl. unfold im_renew_lease, holds_lease. rewrite lookup_fmap.
    destruct (leases s !! r) as [e|]; [|done]. simpl. by repeat case_bool_decide.
  - intros s _ _. simpl. split_and!; [done..|]. split; [apply NoDup_filter_hash_keys|].
    intros r (st & Hin & Hf)%elem_of_filter_fst. apply elem_of_hash_iter in Hin. exists st.
    apply andb_true_iff in Hf as [Hf _]. split; [done|]. by apply negb_true_iff.
  - intros s _ _. simpl. split_and!; [done..|]. split; [apply NoDup_filter_hash_keys|].
    intros r (st & Hin & Hf)%elem_of_filter_fst. apply elem_of_hash_iter in Hin. exists st.
    by apply andb_true_iff in Hf as [Hf _].
  - done.
Defined.

(** The counter bounds every lease, and only grows (below the [u64] limit). *)
Definition counter_inv (s : InMemoryStateStore) : Prop :=
  (0 ≤ lease_counter s)%Z ∧ ∀ r e, leases s !! r = Some e → (0 < le_version e ≤ lease_counter s)%Z.

Lemma u64_add_small a b : (0 ≤ a + b ≤ u64_max)%Z → u64_add a b = (a + b)%Z.
Proof. intros ?. unfold u64_add. apply Z.mod_small. lia. Qed.

Lemma acquire_inv r sv ttl s v s' :
  im_try_acquire_lease r sv ttl s = (Ok (Some v), s') →
  leases s !! r = None ∧ v = u64_add (lease_counter s) 1 ∧
  s' = mkStore (runs s) (<[r := mkEntry sv v]> (leases s)) v.
Proof. unfold im_try_acquire_lease. by case_match; intros; simplify_eq. Qed.

Lemma exec_counter c s :
  counter_inv s → (lease_counter s < u64_max)%Z →
  counter_inv (exec c s) ∧ (lease_counter s ≤ lease_counter (exec c s) ≤ lease_counter s + 1)%Z.
Proof.
  intros [H0 Hl] Hmax. assert (u64_add (lease_counter s) 1 = lease_counter s + 1)%Z as Hadd
    by (apply u64_add_small; lia).
  destruct c as [r st v|r|r sv|r sv v|r]; simpl.
  - unfold im_save_run. repeat case_match; simpl; (split; [done|lia]).
  - split; [done|simpl; lia].
  - unfold im_try_acquire_lease. destruct (leases s !! r) eqn:Hr; simpl; [by split; [|lia]|].
    rewrite Hadd. split; [|lia]. split; [simpl; lia|]. simpl. intros r' e.
    rewrite lookup_insert_Some. intros [[<- <-]|[_ ?%Hl]]; simpl; lia.
  - unfold im_renew_lease. repeat case_match; simpl; (split; [done|lia]).
  - split; [|simpl; lia]. split; [done|]. simpl. intros r' e [_ ?%Hl]%lookup_delete_Some. done.
Qed.

Lemma exec_all_counter cs s :
  counter_inv s → (lease_counter s + Z.of_nat (length cs) ≤ u64_max)%Z →
  counter_inv (exec_all cs s) ∧
  (lease_counter s ≤ lease_counter (exec_all cs s) ≤ lease_counter s + Z.of_nat (length cs))%Z.
Proof.
  revert s; induction cs as [|c cs IH]; intros s Hinv Hlen; simpl in *; [split; [done|lia]|].
  destruct (exec_counter c s Hinv) as [Hinv' Hc]; [lia|].
  destruct (IH (exec c s) Hinv') as [? ?]; [lia|]. split; [done|lia].
Qed.

(** ** Properties *)

(** Optimistic concurrency holds for every implementation of the contract:
    once a save that moves a run to a new version is accepted, any other writer
    that still expects the old version is rejected, and its save changes nothing
    (for versions within the range of the contract). *)
Theorem stale_writer_rejected {S} `{StateStoreSpec S} (r : string) (st1 st2 : RunState) (v : Z) (s s1 s2 : S) b :
  store_ok s → version_ok (rs_version st1) → version_ok (rs_version st2) → version_ok v →
  save_run r st1 v s = (Ok true, s1) → rs_version st1 ≠ v →
  save_run r st2 v s1 = (Ok b, s2) →
  b = false ∧ runs_of s2 = runs_of s1 ∧ runs_of s2 !! r = Some st1.
Proof.
  intros Hok Hv1 Hv2 Hv H1 Hne H2. pose proof (save_run_spec r st1 v s Hok Hv1 Hv) as P1. rewrite H1 in P1.
  destruct P1 as (Hok1 & _ & _ & P1). pose proof (save_run_spec r st2 v s1 Hok1 Hv2 Hv) as P2. rewrite H2 in P2.
  destruct P2 as (_ & _ & Hb & P2). rewrite P1, lookup_insert_eq in Hb. simpl in Hb.
  rewrite bool_decide_eq_false_2 in Hb by done. subst b. rewrite P2. split_and!; [done..|]. rewrite P1. apply lookup_insert_eq.
Qed.

Example stale_writer_rejected_witness :
  let st v := mkRunState v ∅ ∅ (sample_pipeline []) in
  let s1 := (im_save_run "r" (st 1%Z) 0 new).2 in
  im_save_run "r" (st 1%Z) 0 new = (Ok true, s1) ∧ im_save_run "r" (st 1%Z) 0 s1 = (Ok false, s1) ∧
  runs s1 !! "r" = Some (st 1%Z).
Proof.
  intros st s1.
  assert (im_save_run "r" (st 1%Z) 0 new = (Ok true, s1)) as H1 by reflexivity.
  assert (im_save_run "r" (st 1%Z) 0 s1 = (Ok false, s1)) as H2 by reflexivity.
  assert (rs_version (st 1%Z) ≠ 0%Z) as Hne by discriminate.
  assert (version_ok 1) as Hv1 by (by split). assert (version_ok 0) as Hv0 by (by split).
  split; [exact H1|]. split; [exact H2|].
  exact (proj2 (proj2 (@stale_writer_rejected _ (@in_memory_store canonical_order)
    (@in_memory_spec canonical_order) "r" (st 1%Z) (st 1%Z) 0 new s1 s1 false I Hv1 Hv1 Hv0 H1 Hne H2))).
Defined.

(** Lease fencing tokens of the in-memory store are unique and strictly
    increasing over every history of calls: a lease acquired later, for any
    run, carries a larger version than one acquired before, so the earlier
    holder's renewal under its old token fails from then on. *)
Theorem fencing_tokens_increase r1 sv1 r2 sv2 s v1 s1 cs v2 s2 :
  counter_inv s → (lease_counter s + Z.of_nat (length cs) + 2 ≤ u64_max)%Z →
  im_try_acquire_lease r1 sv1 30 s = (Ok (Some v1), s1) →
  im_try_acquire_lease r2 sv2 30 (exec_all cs s1) = (Ok (Some v2), s2) →
  (v1 < v2)%Z ∧ counter_inv s2 ∧ (im_renew_lease r2 sv1 v1 30 s2).1 = Ok false.
Proof.
  intros Hinv Hmax H1 H2. pose proof H1 as (_ & Hv1 & Hs1)%acquire_inv.
  pose proof (exec_counter (CAcquire r1 sv1) s Hinv) as E1. simpl in E1. rewrite H1 in E1.
  destruct E1 as [Hinv1 Hc1]; [lia|]. simpl in *. rewrite u64_add_small in Hv1 by (destruct Hinv; lia).
  destruct (exec_all_counter cs s1 Hinv1) as [Hinv2 Hc2]; [lia|].
  pose proof H2 as (_ & Hv2 & Hs2)%acquire_inv.
  pose proof (exec_counter (CAcquire r2 sv2) _ Hinv2) as E2. simpl in E2. rewrite H2 in E2.
  destruct E2 as [Hinv3 Hc3]; [lia|]. rewrite u64_add_small in Hv2 by (destruct Hinv2; lia).
  assert (lease_counter s1 = v1) as Hcnt by by rewrite Hs1.
  split_and!; [lia|done|]. unfold im_renew_lease. rewrite Hs2. simpl. rewrite lookup_insert_eq. simpl.
  rewrite (bool_decide_eq_false_2 (v2 = v1)) by lia. by rewrite andb_false_r.
Qed.

Example fencing_tokens_increase_witness :
  let s1 := (im_try_acquire_lease "r" "a" 30 new).2 in
  let s2 := (im_try_acquire_lease "r" "b" 30 (exec_all [CRelease "r"] s1)).2 in
  im_try_acquire_lease "r" "a" 30 new = (Ok (Some 1%Z), s1) ∧
  im_try_acquire_lease "r" "b" 30 (exec_all [CRelease "r"] s1) = (Ok (Some 2%Z), s2) ∧
  (im_renew_lease "r" "a" 1 30 s2).1 = Ok false.
Proof.
  intros s1 s2.
  assert (counter_inv new) as Hinv.
  { split; [vm_compute; discriminate|]. intros r e He. discriminate He. }
  assert (lease_counter new + Z.of_nat (length [CRelease "r"]) + 2 ≤ u64_max)%Z as Hmax
    by (vm_compute; discriminate).
  assert (im_try_acquire_lease "r" "a" 30 new = (Ok (Some 1%Z), s1)) as H1 by reflexivity.
  assert (im_try_acquire_lease "r" "b" 30 (exec_all [CRelease "r"] s1) = (Ok (Some 2%Z), s2)) as H2
    by reflexivity.
  split; [exact H1|]. split; [exact H2|].
  exact (proj2 (proj2 (fencing_tokens_increase "r" "a" "r" "b" new 1 s1 [CRelease "r"] 2 s2 Hinv Hmax H1 H2))).
Defined.

(** The two reaper queries of the in-memory store split the unleased runs:
    each unleased stored run is reported by exactly one of them, the orphan
    query when some node is running or dispatchable and the terminal query
    otherwise; a leased run is reported by neither. *)
Theorem reaper_queries_partition `{HashOrder} s orphaned terminal s1 s2 r :
  im_get_orphaned_runs s = (Ok orphaned, s1) → im_list_terminal_unleased_runs s = (Ok terminal, s2) →
  s1 = s ∧ s2 = s ∧
  (r ∈ orphaned ↔ ∃ st, runs s !! r = Some st ∧ leases s !! r = None ∧ run_state_is_terminal st = false) ∧
  (r ∈ terminal ↔ ∃ st, runs s !! r = Some st ∧ leases s !! r = None ∧ run_state_is_terminal st = true).
Proof.
  unfold im_get_orphaned_runs, im_list_terminal_unleased_runs. intros [= <- <-] [= <- <-].
  rewrite !elem_of_filter_fst. setoid_rewrite elem_of_hash_iter.
  setoid_rewrite andb_true_iff. setoid_rewrite negb_true_iff. unfold unleased.
  destruct (leases s !! r); naive_solver.
Qed.

Example reaper_queries_partition_witness :
  let st := mkRunState 0 {["build" := Running]} {["build" := []]} (sample_pipeline []) in
  let s := mkStore {["r" := st]} ∅ 0 in
  im_get_orphaned_runs (H := canonical_order) s = (Ok ["r"], s) ∧
  im_list_terminal_unleased_runs (H := canonical_order) s = (Ok [], s) ∧
  ("r" ∈ ["r"] ↔ ∃ st, runs s !! "r" = Some st ∧ leases s !! "r" = None ∧ run_state_is_terminal st = false).
Proof.
  intros st s.
  assert (im_get_orphaned_runs (H := canonical_order) s = (Ok ["r"], s)) as H1 by (vm_compute; reflexivity).
  assert (im_list_terminal_unleased_runs (H := canonical_order) s = (Ok [], s)) as H2 by (vm_compute; reflexivity).
  split; [exact H1|]. split; [exact H2|].
  exact (proj1 (proj2 (proj2 (@reaper_queries_partition canonical_order s _ _ _ _ "r" H1 H2)))).
Defined.
