(* ===== verification/RedisStore.v ===== *)
(** * The Redis state store (state_store/src/lib.rs)

    The commands and Lua scripts of [RedisStateStore] on a Redis server: keys
    with values and expiry times, requests that may fail or whose answer may be
    lost. The JSON libraries of Rust and of Redis's Lua are parameters ([Encoding] derives
    the former from the source's structures). The file
    ends with the proof that the store meets the contract. *)

From S2P Require Import Prelude Pipeline StateStore.

(** ** The server *)

Inductive RedisValue := RString (s : string) | RInt (n : Z).

Record Redis := mkRedis {
  r_db : gmap string RedisValue;
  r_expires : gmap string Z;
  r_now : Z;
  r_replies : list Reply;
}.

Definition unexpired (s : Redis) (key : string) : bool :=
  match r_expires s !! key with Some t => (r_now s <? t)%Z | None => true end.
(** What clients see: the keys that have not expired. *)
Definition live (s : Redis) : gmap string RedisValue := base.filter (λ p, unexpired s p.1 = true) (r_db s).

Definition with_replies (rs : list Reply) (s : Redis) : Redis := mkRedis (r_db s) (r_expires s) (r_now s) rs.

(** GET, SET, DEL, EXISTS, INCR and EXPIRE. *)
Definition value_string (v : RedisValue) : string := match v with RString s => s | RInt n => pretty n end.
Definition redis_get (key : string) : M Redis (result string (option string)) :=
  gets (λ s, Ok (value_string <$> live s !! key)).
Definition redis_set (key value : string) : M Redis (result string unit) := λ s,
  (Ok (), mkRedis (<[key := RString value]> (r_db s)) (delete key (r_expires s)) (r_now s) (r_replies s)).
Definition redis_del (key : string) : M Redis (result string Z) := λ s,
  (Ok (if bool_decide (is_Some (live s !! key)) then 1 else 0)%Z,
   mkRedis (delete key (r_db s)) (delete key (r_expires s)) (r_now s) (r_replies s)).
Definition redis_exists (key : string) : M Redis (result string Z) :=
  gets (λ s, Ok (if bool_decide (is_Some (live s !! key)) then 1 else 0)%Z).
Definition redis_incr (key : string) : M Redis (result string Z) := λ s,
  match live s !! key with
  | Some (RString _) => (Err "value is not an integer or out of range", s)
  | Some (RInt n) =>
      if (n =? i64_max)%Z then (Err "increment or decrement would overflow", s)
      else (Ok (n + 1)%Z, mkRedis (<[key := RInt (n + 1)]> (r_db s)) (r_expires s) (r_now s) (r_replies s))
  | None => (Ok 1%Z, mkRedis (<[key := RInt 1]> (r_db s)) (delete key (r_expires s)) (r_now s) (r_replies s))
  end.
Definition redis_expire (key : string) (secs : Z) : M Redis (result string Z) := λ s,
  match live s !! key with
  | None => (Ok 0%Z, s)
  | Some _ =>
      if (secs <=? 0)%Z then (Ok 1%Z, mkRedis (delete key (r_db s)) (delete key (r_expires s)) (r_now s) (r_replies s))
      else (Ok 1%Z, mkRedis (r_db s) (<[key := (r_now s + secs)%Z]> (r_expires s)) (r_now s) (r_replies s))
  end.

(** ** Keys *)

Definition state_key (run_id : string) : string := "jefferies:run:" +:+ run_id +:+ ":state".
Definition lease_key (run_id : string) : string := "jefferies:run:" +:+ run_id +:+ ":lease".
Definition version_key (run_id : string) : string := lease_key run_id +:+ ":ver".

(** The part that the star of the pattern [jefferies:run:*:state] matches. *)
Definition unkey (suffix key : string) : option string := strip_prefix "jefferies:run:" key ≫= strip_suffix suffix.
Definition redis_keys `{HashOrder} : M Redis (result string (list string)) :=
  gets (λ s, Ok (List.filter (λ key, bool_decide (is_Some (unkey ":state" key))) (hash_keys (live s)))).

(** ** The libraries *)

Class RedisLibraries : Type := {
  (** serde_json *)
  state_to_string : RunState → result string string;
  state_from_str : string → result string RunState;
  (** cjson and [tonumber] in Redis's Lua: the version of a decoded state, if
      it has one, and the encoded lease *)
  cjson_decode_version : string → result string (option Z);
  cjson_encode_lease : LeaseData → string;
  cjson_decode_lease : string → result string LeaseData;
  lua_number : Z → Z;
  state_round_trip st j : state_to_string st = Ok j → state_from_str j = Ok st;
  state_version_decoded st j : state_to_string st = Ok j → cjson_decode_version j = Ok (Some (lua_number (rs_version st)));
  lease_decoded v server : ∃ w, cjson_decode_lease (cjson_encode_lease (mkLease v server)) = Ok (mkLease w server) ∧
    (version_ok v → w = v);
  (** Numbers of at most 14 digits are exact. *)
  lua_number_exact v : version_ok v → lua_number v = v;
}.

(** ** The store *)

Section operations.
Context `{RedisLibraries}.

(** Taking a connection from the pool. *)
Definition pool_get : M Redis (result StateStoreError unit) := λ s,
  match r_replies s with
  | [] | Served :: _ => (Ok (), with_replies (tail (r_replies s)) s)
  | Refused e :: rs | Lost e :: rs => (Err (PoolError e), with_replies rs s)
  end.

(** One request: a command, or a script, which runs atomically. *)
Definition query {A} (cmd : M Redis (result string A)) : M Redis (result StateStoreError A) := λ s,
  match r_replies s with
  | [] | Served :: _ => let '(r, s') := cmd (with_replies (tail (r_replies s)) s) in (map_err RedisError r, s')
  | Refused e :: rs => (Err (RedisError e), with_replies rs s)
  | Lost e :: rs => (Err (RedisError e), (cmd (with_replies rs s)).2)
  end.

Definition save_script (key value : string) (expected_version : Z) : M Redis (result string Z) :=
  current ←? redis_get key;
  match current with
  | None =>
      if (lua_number expected_version =? 0)%Z then _ ←? redis_set key value; mret (Ok 1%Z) else mret (Ok 0%Z)
  | Some current =>
      match cjson_decode_version current with
      | Err e => mret (Err e)
      | Ok version =>
          if bool_decide (version = Some (lua_number expected_version))
          then _ ←? redis_set key value; mret (Ok 1%Z) else mret (Ok 0%Z)
      end
  end.

Definition redis_save_run (run_id : string) (state : RunState) (expected_version : Z)
  : M Redis (result StateStoreError bool) :=
  _ ←? pool_get;
  match state_to_string state with
  | Err e => mret (Err (SerializationError e))
  | Ok value =>
      r ←? query (save_script (state_key run_id) value expected_version);
      mret (Ok (r =? 1)%Z)
  end.

Definition redis_load_run (run_id : string) : M Redis (result StateStoreError (option RunState)) :=
  _ ←? pool_get;
  value ←? query (redis_get (state_key run_id));
  mret (match value with
        | Some json => match state_from_str json with Ok st => Ok (Some st) | Err e => Err (SerializationError e) end
        | None => Ok None
        end).

Definition redis_delete_run (run_id : string) : M Redis (result StateStoreError unit) :=
  _ ←? pool_get; _ ←? query (redis_del (state_key run_id)); mret (Ok ()).

Definition acquire_script (key server_id : string) (ttl_secs : Z) : M Redis (result string (option Z)) :=
  existing ←? redis_get key;
  match existing with
  | Some _ => mret (Ok None)
  | None =>
      version ←? redis_incr (key +:+ ":ver");
      _ ←? redis_set key (cjson_encode_lease (mkLease version server_id));
      _ ←? redis_expire key ttl_secs;
      mret (Ok (Some version))
  end.

Definition redis_try_acquire_lease (run_id server_id : string) (ttl_secs : Z)
  : M Redis (result StateStoreError (option Z)) :=
  _ ←? pool_get;
  r ←? query (acquire_script (lease_key run_id) server_id ttl_secs);
  mret (Ok (as_u64 <$> r)).

Definition renew_script (key server_id : string) (version ttl_secs : Z) : M Redis (result string Z) :=
  current ←? redis_get key;
  match current with
  | None => mret (Ok 0%Z)
  | Some current =>
      match cjson_decode_lease current with
      | Err e => mret (Err e)
      | Ok decoded =>
          if bool_decide (lease_server_id decoded = server_id) && bool_decide (lease_version decoded = lua_number version)
          then _ ←? redis_expire key ttl_secs; mret (Ok 1%Z)
          else mret (Ok 0%Z)
      end
  end.

Definition redis_renew_lease (run_id server_id : string) (lease_version ttl_secs : Z)
  : M Redis (result StateStoreError bool) :=
  _ ←? pool_get;
  r ←? query (renew_script (lease_key run_id) server_id lease_version ttl_secs);
  mret (Ok (r =? 1)%Z).

Definition redis_release_lease (run_id : string) : M Redis (result StateStoreError unit) :=
  _ ←? pool_get; _ ←? query (redis_del (lease_key run_id)); mret (Ok ()).

(** [EXISTS], a failed request counting as no. *)
Definition lease_exists (run_id : string) : M Redis bool :=
  r ← query (redis_exists (lease_key run_id));
  mret (match r with Ok n => (0 <? n)%Z | Err _ => false end).

(** The loop that both reaper queries share: unleased runs on one side of the
    terminal test. *)
Fixpoint scan_keys (terminal : bool) (keys found : list string) : M Redis (result StateStoreError (list string)) :=
  match keys with
  | [] => mret (Ok found)
  | key :: keys =>
      match split_byte ":" key with
      | _ :: _ :: run_id :: _ :: _ =>
          value ←? query (redis_get key);
          match value ≫= λ json, ok (state_from_str json) with
          | None => scan_keys terminal keys found
          | Some state =>
              if negb (Bool.eqb (run_state_is_terminal state) terminal) then scan_keys terminal keys found
              else
                leased ← lease_exists run_id;
                scan_keys terminal keys (if (leased : bool) then found else found ++ [run_id])
          end
      | _ => scan_keys terminal keys found
      end
  end.

Definition redis_scan `{HashOrder} (terminal : bool) : M Redis (result StateStoreError (list string)) :=
  _ ←? pool_get;
  keys ←? query redis_keys;
  scan_keys terminal keys [].

Definition redis_get_orphaned_runs `{HashOrder} : M Redis (result StateStoreError (list string)) := redis_scan false.
Definition redis_list_terminal_unleased_runs `{HashOrder} : M Redis (result StateStoreError (list string)) :=
  redis_scan true.

Definition redis_ping : M Redis (result StateStoreError unit) :=
  _ ←? pool_get; _ ←? query (mret (Ok "PONG")); mret (Ok ()).

#[export] Instance redis_store `{HashOrder} : StateStore Redis := {
  save_run := redis_save_run;
  load_run := redis_load_run;
  delete_run := redis_delete_run;
  try_acquire_lease := redis_try_acquire_lease;
  renew_lease := redis_renew_lease;
  release_lease := redis_release_lease;
  get_orphaned_runs := redis_get_orphaned_runs;
  list_terminal_unleased_runs := redis_list_terminal_unleased_runs;
  store_ping := redis_ping;
}.
End operations.

(** ** Lemmas: what clients see *)
Lemma live_lookup s k : live s !! k = if unexpired s k then r_db s !! k else None.
Proof.
  unfold live. rewrite map_lookup_filter. destruct (r_db s !! k) as [v|]; simpl; [|by destruct (unexpired s k)].
  destruct (unexpired s k) eqn:Hu; [by rewrite option_guard_True|by rewrite option_guard_False by (cbn; congruence)].
Qed.

Lemma live_unexpired s k v : live s !! k = Some v → unexpired s k = true.
Proof. rewrite live_lookup. by destruct (unexpired s k). Qed.

Lemma live_set k v s : live (redis_set k v s).2 = <[k := RString v]> (live s).
Proof.
  apply map_eq. intros q. rewrite lookup_insert, !live_lookup. unfold unexpired, redis_set. cbn.
  rewrite lookup_insert, lookup_delete. by case_decide.
Qed.
Lemma live_del k s : live (redis_del k s).2 = delete k (live s).
Proof.
  apply map_eq. intros q. rewrite lookup_delete, !live_lookup. unfold unexpired, redis_del. cbn.
  rewrite !lookup_delete. by case_decide.
Qed.
Lemma live_incr k s n : live s !! k = None ∧ n = 1%Z ∨ (∃ m, live s !! k = Some (RInt m) ∧ m ≠ i64_max ∧ n = (m + 1)%Z) →
  (redis_incr k s).1 = Ok n ∧ live (redis_incr k s).2 = <[k := RInt n]> (live s).
Proof.
  unfold redis_incr. intros [[Hk ->]|(m & Hk & Hm & ->)]; rewrite Hk; cbn.
  - split; [done|]. apply map_eq. intros q. rewrite lookup_insert, !live_lookup. unfold unexpired. cbn.
    rewrite lookup_insert, lookup_delete. by case_decide.
  - rewrite (proj2 (Z.eqb_neq _ _) Hm). cbn. split; [done|]. apply map_eq. intros q.
    rewrite lookup_insert, !live_lookup. unfold unexpired. cbn. rewrite lookup_insert. case_decide as Hq; [|done].
    subst q. apply live_unexpired in Hk. unfold unexpired in Hk. by rewrite Hk.
Qed.
Lemma live_expire k secs s : (0 < secs)%Z → live (redis_expire k secs s).2 = live s.
Proof.
  intros Hs. unfold redis_expire. destruct (live s !! k) as [v|] eqn:Hk; [|done]. apply live_unexpired in Hk.
  rewrite (proj2 (Z.leb_gt _ _) Hs). cbn. apply map_eq. intros q. rewrite !live_lookup. unfold unexpired in *. cbn.
  rewrite lookup_insert. case_decide as Hq; [|done]. subst q. rewrite (proj2 (Z.ltb_lt _ _)) by lia. by rewrite Hk.
Qed.

(** ** Lemmas: keys *)
Lemma unkey_some suffix k r : unkey suffix k = Some r ↔ k = "jefferies:run:" +:+ r +:+ suffix.
Proof.
  unfold unkey. rewrite bind_Some. setoid_rewrite strip_prefix_some. setoid_rewrite strip_suffix_some. naive_solver.
Qed.

Lemma key_suffix_differ a b p q : last (bytes p) ≠ last (bytes q) → is_Some (last (bytes p)) → is_Some (last (bytes q)) →
  a +:+ p ≠ b +:+ q.
Proof.
  intros Hne [x Hx] [y Hy] Heq. apply (f_equal (λ s, last (bytes s))) in Heq. rewrite !bytes_app, !last_app, Hx, Hy in Heq.
  congruence.
Qed.
Lemma state_lease_differ r q : state_key r ≠ lease_key q.
Proof.
  unfold state_key, lease_key. intros Heq. rewrite <-!str_app_assoc in Heq. apply (f_equal bytes) in Heq.
  rewrite !bytes_app in Heq. apply app_inj_2 in Heq as [_ Heq]; [discriminate Heq|done].
Qed.
Lemma state_version_differ r q : state_key r ≠ version_key q.
Proof. unfold state_key, version_key. rewrite <-str_app_assoc. apply key_suffix_differ; [done|by eexists..]. Qed.
Lemma lease_version_differ r q : lease_key r ≠ version_key q.
Proof. unfold version_key. unfold lease_key at 1. rewrite <-str_app_assoc. apply key_suffix_differ; [done|by eexists..]. Qed.

Lemma key_inj suffix r q : "jefferies:run:" +:+ r +:+ suffix = "jefferies:run:" +:+ q +:+ suffix → r = q.
Proof. intros Heq. apply unkey_some in Heq. rewrite (proj2 (unkey_some _ _ _) eq_refl) in Heq. congruence. Qed.

Section facts.
Context `{RedisLibraries, HashOrder}.

(** ** The contents, as the contract sees them *)

Definition decode_state (v : RedisValue) : option RunState := ok (state_from_str (value_string v)).
Definition decode_lease (v : RedisValue) : option LeaseData := ok (cjson_decode_lease (value_string v)).
Definition redis_runs (s : Redis) : gmap string RunState := keyed_map (unkey ":state") decode_state (live s).
Definition redis_leases (s : Redis) : gmap string LeaseData := keyed_map (unkey ":lease") decode_lease (live s).

Definition decode_token (v : RedisValue) : option Z := match v with RInt n => Some n | RString _ => None end.
Definition redis_tokens (s : Redis) : gmap string Z := keyed_map (unkey ":lease:ver") decode_token (live s).

(** The values that the store writes. *)
Record redis_ok (s : Redis) : Prop := {
  ok_states r v : live s !! state_key r = Some v → ∃ st j, v = RString j ∧ state_from_str j = Ok st ∧
    cjson_decode_version j = Ok (Some (lua_number (rs_version st))) ∧ version_ok (rs_version st);
  ok_leases r v : live s !! lease_key r = Some v → ∃ j d, v = RString j ∧ cjson_decode_lease j = Ok d;
  ok_versions r v : live s !! version_key r = Some v → ∃ n, v = RInt n ∧ (0 ≤ n ≤ i64_max)%Z;
}.

Lemma redis_runs_lookup s r : redis_runs s !! r = live s !! state_key r ≫= decode_state.
Proof. apply keyed_map_lookup. intros k q. apply unkey_some. Qed.
Lemma redis_leases_lookup s r : redis_leases s !! r = live s !! lease_key r ≫= decode_lease.
Proof. apply keyed_map_lookup. intros k q. apply unkey_some. Qed.

Lemma redis_tokens_lookup s r : redis_tokens s !! r = live s !! version_key r ≫= decode_token.
Proof. apply keyed_map_lookup. intros k q. rewrite unkey_some. unfold version_key, lease_key. by rewrite !str_app_assoc. Qed.

Lemma view_same s s' : live s' = live s → redis_ok s →
  redis_ok s' ∧ redis_runs s' = redis_runs s ∧ redis_leases s' = redis_leases s.
Proof. intros Hl [? ? ?]. unfold redis_runs, redis_leases. rewrite Hl. split; [split; by rewrite Hl|done]. Qed.

Lemma view_set_state s s' r st j : live s' = <[state_key r := RString j]> (live s) →
  state_to_string st = Ok j → version_ok (rs_version st) → redis_ok s →
  redis_ok s' ∧ redis_runs s' = <[r := st]> (redis_runs s) ∧ redis_leases s' = redis_leases s.
Proof.
  intros Hl Hj Hv [Hs Hle Hve]. split_and!.
  - split; intros q v; rewrite Hl.
    + intros [[Hk <-]|[_ Hk]]%lookup_insert_Some; [|by apply (Hs q)]. exists st, j.
      split_and!; [done|by apply state_round_trip|by apply state_version_decoded|done].
    + rewrite lookup_insert_ne by apply state_lease_differ. apply Hle.
    + rewrite lookup_insert_ne by apply state_version_differ. apply Hve.
  - unfold redis_runs. rewrite Hl. apply (keyed_map_insert state_key); [intros k q; apply unkey_some|].
    unfold decode_state. cbn. by rewrite (state_round_trip _ _ Hj).
  - unfold redis_leases. apply (keyed_map_other lease_key); [intros k q; apply unkey_some|]. intros q. rewrite Hl.
    by rewrite lookup_insert_ne by apply state_lease_differ.
Qed.

Lemma view_del_state s s' r : live s' = delete (state_key r) (live s) → redis_ok s →
  redis_ok s' ∧ redis_runs s' = delete r (redis_runs s) ∧ redis_leases s' = redis_leases s.
Proof.
  intros Hl [Hs Hle Hve]. split_and!.
  - split; intros q v; rewrite Hl; intros [_ Hk]%lookup_delete_Some; eauto.
  - unfold redis_runs. rewrite Hl. apply (keyed_map_delete state_key). intros k q; apply unkey_some.
  - unfold redis_leases. apply (keyed_map_other lease_key); [intros k q; apply unkey_some|]. intros q. rewrite Hl.
    by rewrite lookup_delete_ne by apply state_lease_differ.
Qed.

Lemma view_del_lease s s' r : live s' = delete (lease_key r) (live s) → redis_ok s →
  redis_ok s' ∧ redis_runs s' = redis_runs s ∧ redis_leases s' = delete r (redis_leases s).
Proof.
  intros Hl [Hs Hle Hve]. split_and!.
  - split; intros q v; rewrite Hl; intros [_ Hk]%lookup_delete_Some; eauto.
  - unfold redis_runs. apply (keyed_map_other state_key); [intros k q; apply unkey_some|]. intros q. rewrite Hl.
    by rewrite lookup_delete_ne by (symmetry; apply state_lease_differ).
  - unfold redis_leases. rewrite Hl. apply (keyed_map_delete lease_key). intros k q; apply unkey_some.
Qed.

Lemma tokens_set_other s s' : (∀ r, live s' !! version_key r = live s !! version_key r) → redis_tokens s' = redis_tokens s.
Proof. intros Hl. apply map_eq. intros q. by rewrite !redis_tokens_lookup, Hl. Qed.

Lemma view_acquire s s' r server n :
  live s' = <[lease_key r := RString (cjson_encode_lease (mkLease n server))]> (<[version_key r := RInt n]> (live s)) →
  (0 ≤ n ≤ i64_max)%Z → redis_ok s →
  redis_ok s' ∧ redis_runs s' = redis_runs s ∧ redis_tokens s' = <[r := n]> (redis_tokens s) ∧
  ∃ w, redis_leases s' = <[r := mkLease w server]> (redis_leases s) ∧ (version_ok n → w = n).
Proof.
  intros Hl Hn [Hs Hle Hve]. destruct (lease_decoded n server) as (w & Hw & Hexact). split_and!.
  - split; intros q v; rewrite Hl.
    + rewrite !lookup_insert_ne; [apply Hs|symmetry; apply state_version_differ|symmetry; apply state_lease_differ].
    + intros [[_ <-]|[_ Hk]]%lookup_insert_Some; [by eexists _, _|].
      rewrite lookup_insert_ne in Hk by (symmetry; apply lease_version_differ). eauto.
    + rewrite lookup_insert_ne by apply lease_version_differ. intros [[_ <-]|[_ Hk]]%lookup_insert_Some; eauto.
  - unfold redis_runs. apply (keyed_map_other state_key); [intros k q; apply unkey_some|]. intros q. rewrite Hl.
    rewrite !lookup_insert_ne; [done|symmetry; apply state_version_differ|symmetry; apply state_lease_differ].
  - apply map_eq. intros q. rewrite lookup_insert, !redis_tokens_lookup, Hl, lookup_insert_ne by apply lease_version_differ.
    rewrite lookup_insert. destruct (decide (r = q)) as [->|Hne]; [by rewrite decide_True|].
    rewrite decide_False; [done|]. unfold version_key. intros Heq%app_tail_inj. apply Hne. by apply (key_inj ":lease").
  - exists w. split; [|done]. unfold redis_leases. rewrite Hl.
    rewrite (keyed_map_insert lease_key _ _ ltac:(intros k q; apply unkey_some) _ _ _ (mkLease w server)).
    + f_equal. apply (keyed_map_other lease_key); [intros k q; apply unkey_some|]. intros q.
      by rewrite lookup_insert_ne by (symmetry; apply lease_version_differ).
    + unfold decode_lease. cbn. by rewrite Hw.
Qed.

(** ** Requests *)

(** The shape of an operation: take a connection, send one request. *)
Definition request {A B} (cmd : M Redis (result string A)) (g : A → result StateStoreError B)
  : M Redis (result StateStoreError B) :=
  _ ←? pool_get; r ←? query cmd; mret (g r).

Lemma query_cases {A} (cmd : M Redis (result string A)) s :
  ∃ s0, live s0 = live s ∧
  (query cmd s = (map_err RedisError (cmd s0).1, (cmd s0).2) ∨
   ∃ e, query cmd s = (Err e, s0) ∨ query cmd s = (Err e, (cmd s0).2)).
Proof.
  unfold query. destruct (r_replies s) as [|[|e|e] rs].
  - exists (with_replies [] s). split; [done|]. left. by destruct (cmd _).
  - exists (with_replies rs s). split; [done|]. left. by destruct (cmd _).
  - exists (with_replies rs s). split; [done|]. right. eauto.
  - exists (with_replies rs s). split; [done|]. right. eauto.
Qed.

Lemma pool_cases s : ∃ s1, live s1 = live s ∧ (pool_get s = (Ok (), s1) ∨ ∃ e, pool_get s = (Err e, s1)).
Proof.
  unfold pool_get. destruct (r_replies s) as [|[|e|e] rs];
    [exists (with_replies [] s)|exists (with_replies rs s)..]; (split; [done|]); eauto.
Qed.

(** The request was executed or not; if it was not, or its answer was lost, or
    it failed, the operation fails. *)
Lemma request_cases {A B} (cmd : M Redis (result string A)) (g : A → result StateStoreError B) s :
  ∃ s0, live s0 = live s ∧
  match request cmd g s with
  | (Err _, s') => live s' = live s ∨ s' = (cmd s0).2
  | (Ok b, s') => ∃ a, cmd s0 = (Ok a, s') ∧ g a = Ok b
  end.
Proof.
  destruct (pool_cases s) as (s1 & Hs1 & Hpool).
  unfold request, bind_ok. rewrite bind_eq. destruct Hpool as [Hp|[e Hp]]; rewrite Hp; cbn [fst snd].
  2: { exists s. split; [done|]. by left. }
  destruct (query_cases cmd s1) as (s0 & Hs0 & Hq). exists s0. split; [congruence|]. rewrite bind_eq.
  destruct Hq as [Hq|(e & [Hq|Hq])]; rewrite Hq; cbn [fst snd].
  - destruct (cmd s0) as [[a|e] s2]; cbn; [|by right]. destruct (g a) as [b|e] eqn:Hg; [by exists a|by right].
  - left. cbn. congruence.
  - by right.
Qed.

(** ** Scripts *)
Lemma save_script_spec r value v s : redis_ok s → version_ok v →
  let accepts := cas_accepts (redis_runs s !! r) v in
  (save_script (state_key r) value v s).1 = Ok (if accepts then 1 else 0)%Z ∧
  live (save_script (state_key r) value v s).2 = if accepts then <[state_key r := RString value]> (live s) else live s.
Proof.
  intros Hok Hv. cbv zeta. unfold save_script, bind_ok, mbind, state_bind. cbn [redis_get gets].
  rewrite redis_runs_lookup, lua_number_exact by done. pose proof (ok_states _ Hok r) as Hst.
  destruct (live s !! state_key r) as [x|]; cbn [fmap option_fmap option_map mbind option_bind].
  - destruct (Hst x eq_refl) as (st0 & j & -> & Hj & Hc & Hv0). unfold decode_state. cbn [value_string cas_accepts ok].
    rewrite Hj, Hc. cbn [ok cas_accepts]. rewrite (lua_number_exact _ Hv0).
    destruct (decide (rs_version st0 = v)) as [->|Hne].
    + rewrite !bool_decide_eq_true_2 by done. split; [done|]. apply live_set.
    + rewrite !bool_decide_eq_false_2 by congruence. done.
  - cbn [cas_accepts]. destruct (Z.eqb_spec v 0) as [->|Hne].
    + rewrite bool_decide_eq_true_2 by done. split; [done|]. apply live_set.
    + by rewrite bool_decide_eq_false_2.
Qed.

(** The token that the next lease of a run gets. *)
Definition next_token (s : Redis) (r : string) : Z :=
  match live s !! version_key r with Some (RInt n) => (n + 1)%Z | _ => 1%Z end.

Lemma acquire_script_spec r server ttl s : redis_ok s → (0 < ttl)%Z →
  let '(res, s') := acquire_script (lease_key r) server ttl s in
  match res with
  | Ok None => is_Some (redis_leases s !! r) ∧ live s' = live s
  | Ok (Some n) => redis_leases s !! r = None ∧ n = next_token s r ∧ (0 ≤ n ≤ i64_max)%Z ∧
      live s' = <[lease_key r := RString (cjson_encode_lease (mkLease n server))]> (<[version_key r := RInt n]> (live s))
  | Err _ => live s' = live s
  end.
Proof.
  intros Hok Httl. unfold acquire_script, bind_ok, mbind, state_bind. cbn [redis_get gets]. rewrite redis_leases_lookup.
  pose proof (ok_leases _ Hok r) as Hle. destruct (live s !! lease_key r) as [x|]; cbn [fmap option_fmap option_map mbind option_bind].
  { destruct (Hle x eq_refl) as (j & d & -> & Hd). unfold decode_lease. cbn. by rewrite Hd. }
  change (lease_key r +:+ ":ver") with (version_key r).
  assert ((∃ e, redis_incr (version_key r) s = (Err e, s)) ∨ ∃ n s1, redis_incr (version_key r) s = (Ok n, s1) ∧
    n = next_token s r ∧ (0 ≤ n ≤ i64_max)%Z ∧ live s1 = <[version_key r := RInt n]> (live s)) as [[e He]|(n & s1 & He & Hn0 & Hn & H1)].
  { unfold next_token. pose proof (ok_versions _ Hok r) as Hve. destruct (live s !! version_key r) as [x|] eqn:Hx.
    - destruct (Hve x eq_refl) as (m & -> & Hm). destruct (decide (m = i64_max)) as [->|Hne].
      + left. unfold redis_incr. rewrite Hx. by eexists.
      + right. destruct (live_incr (version_key r) s (m + 1)) as [H1 H2]; [right; by exists m|].
        destruct (redis_incr (version_key r) s) as [a s1]. exists (m + 1)%Z, s1. cbn in H1. subst a. split_and!; [done|done|lia|lia|done].
    - right. destruct (live_incr (version_key r) s 1) as [H1 H2]; [by left|].
      destruct (redis_incr (version_key r) s) as [a s1]. exists 1%Z, s1. cbn in H1. by subst a. }
  { by rewrite He. }
  rewrite He. pose proof (live_set (lease_key r) (cjson_encode_lease (mkLease n server)) s1) as H2.
  destruct (redis_set (lease_key r) (cjson_encode_lease (mkLease n server)) s1) as [[u|e] s2] eqn:Hset; [|discriminate Hset].
  pose proof (live_expire (lease_key r) ttl s2 Httl) as H3. cbn [snd] in H2, H3.
  destruct (redis_expire (lease_key r) ttl s2) as [[u4|e] s3] eqn:Hexp.
  - cbn in *. split_and!; [done|done|apply Hn|apply Hn|]. by rewrite H3, H2, H1.
  - unfold redis_expire in Hexp. by repeat case_match.
Qed.

Lemma renew_script_spec r server v ttl s : redis_ok s → version_ok v → (0 < ttl)%Z →
  (renew_script (lease_key r) server v ttl s).1 = Ok (if holds_lease (redis_leases s !! r) server v then 1 else 0)%Z ∧
  live (renew_script (lease_key r) server v ttl s).2 = live s.
Proof.
  intros Hok Hv Httl. unfold renew_script, bind_ok, mbind, state_bind. cbn [redis_get gets]. rewrite redis_leases_lookup.
  pose proof (ok_leases _ Hok r) as Hle. destruct (live s !! lease_key r) as [x|]; cbn [fmap option_fmap option_map mbind option_bind]; [|done].
  destruct (Hle x eq_refl) as (j & d & -> & Hd). unfold decode_lease. cbn [value_string]. rewrite Hd, lua_number_exact by done.
  cbn [ok holds_lease]. destruct (bool_decide _ && bool_decide _); [|done].
  pose proof (live_expire (lease_key r) ttl s Httl) as He. destruct (redis_expire (lease_key r) ttl s) as [[u|e] s'] eqn:Hexp; [done|].
  unfold redis_expire in Hexp. by repeat case_match.
Qed.

(** ** The reaper's queries *)
Lemma split_state_key r : ":"%char ∉ bytes r → split_byte ":" (state_key r) = ["jefferies"; "run"; r; "state"].
Proof.
  intros Hr. unfold state_key. change ("jefferies:run:" +:+ r +:+ ":state") with
    ("jefferies" +:+ String ":" ("run" +:+ String ":" (r +:+ String ":" "state"))).
  rewrite !split_byte_app; [done|done| |]; apply (bool_decide_unpack _); vm_compute; exact I.
Qed.

Lemma query_get key s : ∃ s0, live s0 = live s ∧
  (query (redis_get key) s = (Ok (value_string <$> live s !! key), s0) ∨ ∃ e, query (redis_get key) s = (Err e, s0)).
Proof.
  destruct (query_cases (redis_get key) s) as (s0 & Hs0 & Hq). exists s0. split; [done|].
  destruct Hq as [Hq|(e & [Hq|Hq])]; rewrite Hq; [left; cbn; by rewrite Hs0|eauto..].
Qed.
Lemma lease_exists_live r s : live (lease_exists r s).2 = live s.
Proof.
  unfold lease_exists. rewrite bind_eq. cbn. destruct (query_cases (redis_exists (lease_key r)) s) as (s0 & Hs0 & Hq).
  destruct Hq as [Hq|(e & [Hq|Hq])]; rewrite Hq; done.
Qed.

Definition scanned (s : Redis) (terminal : bool) (keys found : list string) (o : result StateStoreError (list string) * Redis) : Prop :=
  live o.2 = live s ∧
  match o.1 with
  | Ok l => ∃ new, l = found ++ new ∧ NoDup new ∧
      ∀ r, r ∈ new → state_key r ∈ keys ∧ ∃ st, redis_runs s !! r = Some st ∧ run_state_is_terminal st = terminal
  | Err _ => True
  end.

Lemma scanned_skip s s' terminal key keys found o : live s' = live s →
  scanned s' terminal keys found o → scanned s terminal (key :: keys) found o.
Proof.
  intros Hl [H1 H2]. split; [congruence|]. destruct o.1 as [l|e]; [|done]. destruct H2 as (new & -> & Hnd & Hnew).
  exists new. split_and!; [done..|]. intros r Hr. destruct (Hnew r Hr) as (Hk & st & Hst & ?).
  split; [by right|]. exists st. split; [|done]. unfold redis_runs in *. by rewrite <-Hl.
Qed.

Lemma scan_keys_spec terminal keys found s : run_ids_ok (redis_runs s) → NoDup keys →
  (∀ k, k ∈ keys → is_Some (unkey ":state" k)) → scanned s terminal keys found (scan_keys terminal keys found s).
Proof.
  intros Hids Hnd. revert found s Hids. induction Hnd as [|key keys Hkey Hnd IH]; intros found s Hids Hkeys.
  { split; [done|]. exists []. rewrite app_nil_r. split_and!; [done|constructor|]. set_solver. }
  assert (∀ found s', live s' = live s → scanned s terminal (key :: keys) found (scan_keys terminal keys found s')) as Hskip.
  { intros found' s' Hl. apply (scanned_skip s s'); [done|]. apply IH; [|set_solver].
    unfold redis_runs in *. by rewrite Hl. }
  destruct (Hkeys key) as [q Hq%unkey_some]; [by left|]. fold (state_key q) in Hq. subst key. cbn [scan_keys].
  destruct (split_byte ":" (state_key q)) as [|p1 [|p2 [|run_id [|p4 ps]]]] eqn:Hsplit; [by apply Hskip..|].
  unfold bind_ok. rewrite bind_eq. destruct (query_get (state_key q) s) as (s0 & Hs0 & [Hg|[e Hg]]); rewrite Hg; cbn [fst snd].
  2: { split; [exact Hs0|done]. }
  assert (redis_runs s !! q = (value_string <$> live s !! state_key q) ≫= λ json, ok (state_from_str json)) as Hrun.
  { rewrite redis_runs_lookup. by destruct (live s !! state_key q). }
  rewrite <-Hrun. destruct (redis_runs s !! q) as [st|] eqn:Hst; [|by apply Hskip].
  destruct (Bool.eqb (run_state_is_terminal st) terminal) eqn:Ht; cbn [negb]; [|by apply Hskip].
  apply Bool.eqb_prop in Ht. rewrite split_state_key in Hsplit by (apply Hids; eauto).
  injection Hsplit as <- <- <- _ _. rewrite bind_eq. pose proof (lease_exists_live q s0) as Hl.
  destruct (lease_exists q s0) as [[] s1]; cbn [fst snd] in *; [apply Hskip; congruence|].
  destruct (IH (found ++ [q]) s1) as [H1 H2].
  { unfold redis_runs in *. by rewrite Hl, Hs0. } { set_solver. }
  split; [congruence|]. destruct (scan_keys terminal keys (found ++ [q]) s1) as [[l|e] s2]; [|done]. cbn [fst snd] in *.
  destruct H2 as (new & -> & Hn & Hnew). exists (q :: new). split; [by rewrite <-(assoc_L (++))|]. split.
  - constructor; [|done]. intros Hin. by destruct (Hnew q Hin) as [? _].
  - intros r [->|Hr]%elem_of_cons; [split; [by left|by exists st]|]. destruct (Hnew r Hr) as (Hk & st' & Hst' & ?).
    split; [by right|]. exists st'. split; [|done]. unfold redis_runs in *. by rewrite <-Hs0, <-Hl.
Qed.

Lemma redis_scan_spec terminal s : redis_ok s → run_ids_ok (redis_runs s) →
  let '(res, s') := redis_scan terminal s in
  redis_ok s' ∧ redis_runs s' = redis_runs s ∧ redis_leases s' = redis_leases s ∧
  match res with Ok l => lists_runs (redis_runs s) terminal l | Err _ => True end.
Proof.
  intros Hok Hids. unfold redis_scan, bind_ok. rewrite bind_eq.
  destruct (pool_cases s) as (s1 & Hs1 & Hpool).
  destruct Hpool as [->|[e ->]]; cbn [fst snd]; [|by apply view_same in Hs1 as (? & ? & ?)].
  rewrite bind_eq. destruct (query_cases redis_keys s1) as (s0 & Hs0 & Hq).
  assert (live s0 = live s) as Hlive by congruence.
  destruct Hq as [->|(e & [->| ->])]; cbn [fst snd]; [|by apply view_same in Hlive as (? & ? & ?)..].
  cbn [redis_keys gets map_err fst snd]. set (keys := List.filter _ _).
  destruct (view_same s s0 Hlive Hok) as (Hok0 & Hr0 & Hl0).
  destruct (scan_keys_spec terminal keys [] s0) as [H1 H2].
  - by rewrite Hr0.
  - apply NoDup_ListNoDup, List.NoDup_filter, NoDup_ListNoDup, NoDup_hash_keys.
  - intros k Hk. apply list_elem_of_In, List.filter_In in Hk as [_ Hk]. by apply bool_decide_eq_true in Hk.
  - destruct (scan_keys terminal keys [] s0) as [res s2]. cbn [fst snd] in *.
    destruct (view_same s0 s2 H1 Hok0) as (? & ? & ?). split_and!; [done|congruence|congruence|].
    destruct res as [l|e]; [|done]. destruct H2 as (new & -> & Hnd & Hnew). split; [done|].
    intros r Hr. destruct (Hnew r Hr) as (_ & st & Hst & ?). exists st. by rewrite <-Hr0.
Qed.

(** ** The contract *)
Lemma redis_save_spec r st v s : redis_ok s → version_ok (rs_version st) → version_ok v →
  let '(res, s') := redis_save_run r st v s in
  redis_ok s' ∧ redis_leases s' = redis_leases s ∧
  match res with
  | Ok b => b = cas_accepts (redis_runs s !! r) v ∧ redis_runs s' = (if b then <[r := st]> (redis_runs s) else redis_runs s)
  | Err _ => redis_runs s' = redis_runs s ∨ cas_accepts (redis_runs s !! r) v = true ∧ redis_runs s' = <[r := st]> (redis_runs s)
  end.
Proof.
  intros Hok Hst Hv. destruct (state_to_string st) as [value|e] eqn:Hj.
  - assert (redis_save_run r st v = request (save_script (state_key r) value v) (λ n, Ok (n =? 1)%Z)) as Hrun
      by (unfold redis_save_run; by rewrite Hj).
    rewrite Hrun. destruct (request_cases (save_script (state_key r) value v) (λ n, Ok (n =? 1)%Z) s) as (s0 & Hs0 & Hreq).
    destruct (view_same s s0 Hs0 Hok) as (Hok0 & Hr0 & Hl0).
    destruct (save_script_spec r value v s0 Hok0 Hv) as [H1 H2]. rewrite Hr0, Hs0 in *.
    assert (∀ s', live s' = (if cas_accepts (redis_runs s !! r) v then <[state_key r := RString value]> (live s) else live s) →
      redis_ok s' ∧ redis_leases s' = redis_leases s ∧
      redis_runs s' = if cas_accepts (redis_runs s !! r) v then <[r := st]> (redis_runs s) else redis_runs s) as Hview.
    { intros s' Hlive. destruct (cas_accepts (redis_runs s !! r) v).
      - by destruct (view_set_state s s' r st value Hlive Hj Hst Hok) as (? & ? & ?).
      - by destruct (view_same s s' Hlive Hok) as (? & ? & ?). }
    destruct (request _ _ s) as [[b|e] s'].
    + destruct Hreq as (a & Ha & Hb). rewrite Ha in H1, H2. cbn [fst snd] in *. injection H1 as ->.
      destruct (Hview s' H2) as (? & ? & ->). split_and!; [done|done| |]; injection Hb as <-; by destruct (cas_accepts _ _).
    + destruct Hreq as [Hsame| ->].
      * destruct (view_same s s' Hsame Hok) as (? & ? & ?). split_and!; [done|done|by left].
      * destruct (Hview _ H2) as (? & ? & ->). split_and!; [done..|]. destruct (cas_accepts _ _); [by right|by left].
  - unfold redis_save_run, bind_ok. rewrite bind_eq. destruct (pool_cases s) as (s1 & Hs1 & [->|[e1 ->]]); cbn [fst snd].
    + rewrite Hj. cbn. destruct (view_same s s1 Hs1 Hok) as (? & ? & ?). split_and!; [done..|by left].
    + destruct (view_same s s1 Hs1 Hok) as (? & ? & ?). cbn. split_and!; [done..|by left].
Qed.

(** A request for DEL. *)
Lemma redis_del_request key s :
  let '(res, s') := request (redis_del key) (λ _, Ok () : result StateStoreError unit) s in
  match res with Ok _ => live s' = delete key (live s) | Err _ => live s' = live s ∨ live s' = delete key (live s) end.
Proof.
  destruct (request_cases (redis_del key) (λ _, Ok () : result StateStoreError unit) s) as (s0 & Hs0 & Hreq).
  pose proof (live_del key s0) as Hd. rewrite Hs0 in Hd. destruct (request _ _ s) as [[u|e] s'].
  - destruct Hreq as (a & Ha & _). by rewrite Ha in Hd.
  - destruct Hreq as [?| ->]; [by left|by right].
Qed.

Lemma redis_delete_spec r s : redis_ok s →
  let '(res, s') := redis_delete_run r s in
  redis_ok s' ∧ redis_leases s' = redis_leases s ∧
  match res with
  | Ok _ => redis_runs s' = delete r (redis_runs s)
  | Err _ => redis_runs s' = redis_runs s ∨ redis_runs s' = delete r (redis_runs s)
  end.
Proof.
  intros Hok. pose proof (redis_del_request (state_key r) s) as Hd.
  change (redis_delete_run r) with (request (redis_del (state_key r)) (λ _, Ok () : result StateStoreError unit)).
  destruct (request _ _ s) as [[u|e] s'].
  - by destruct (view_del_state s s' r Hd Hok) as (? & ? & ?).
  - destruct Hd as [Hd|Hd]; [destruct (view_same s s' Hd Hok) as (? & ? & ?)|destruct (view_del_state s s' r Hd Hok) as (? & ? & ?)];
      (split_and!; [done..|]); [by left|by right].
Qed.

Lemma redis_release_spec r s : redis_ok s →
  let '(res, s') := redis_release_lease r s in
  redis_ok s' ∧ redis_runs s' = redis_runs s ∧
  match res with
  | Ok _ => redis_leases s' = delete r (redis_leases s)
  | Err _ => redis_leases s' = redis_leases s ∨ redis_leases s' = delete r (redis_leases s)
  end.
Proof.
  intros Hok. pose proof (redis_del_request (lease_key r) s) as Hd.
  change (redis_release_lease r) with (request (redis_del (lease_key r)) (λ _, Ok () : result StateStoreError unit)).
  destruct (request _ _ s) as [[u|e] s'].
  - by destruct (view_del_lease s s' r Hd Hok) as (? & ? & ?).
  - destruct Hd as [Hd|Hd]; [destruct (view_same s s' Hd Hok) as (? & ? & ?)|destruct (view_del_lease s s' r Hd Hok) as (? & ? & ?)];
      (split_and!; [done..|]); [by left|by right].
Qed.

Lemma redis_load_spec r s : redis_ok s →
  let '(res, s') := redis_load_run r s in
  redis_ok s' ∧ redis_runs s' = redis_runs s ∧ redis_leases s' = redis_leases s ∧
  match res with Ok o => o = redis_runs s !! r | Err _ => True end.
Proof.
  intros Hok. pose (g := λ value : option string, match value with
    | Some json => match state_from_str json with Ok st => Ok (Some st) | Err e => Err (SerializationError e) end
    | None => Ok None end).
  replace (redis_load_run r) with (request (redis_get (state_key r)) g) by reflexivity.
  destruct (request_cases (redis_get (state_key r)) g s) as (s0 & Hs0 & Hreq).
  destruct (view_same s s0 Hs0 Hok) as (Hok0 & Hr0 & Hl0). destruct (request _ _ s) as [[o|e] s'].
  - destruct Hreq as (a & Ha & Hg). unfold redis_get, gets in Ha. injection Ha as <- <-. split_and!; [done..|].
    rewrite <-Hr0, redis_runs_lookup. destruct (live s0 !! state_key r) as [x|]; cbn in *; [|congruence].
    unfold decode_state. destruct (state_from_str (value_string x)); cbn in *; congruence.
  - destruct Hreq as [Hs| ->]; [by destruct (view_same s s' Hs Hok) as (? & ? & ?)|done].
Qed.

Lemma redis_ping_spec s : redis_ok s →
  let '(_, s') := redis_ping s in redis_ok s' ∧ redis_runs s' = redis_runs s ∧ redis_leases s' = redis_leases s.
Proof.
  intros Hok. pose (g := λ _ : string, Ok () : result StateStoreError unit).
  replace redis_ping with (request (mret (Ok "PONG")) g) by reflexivity.
  destruct (request_cases (mret (Ok "PONG")) g s) as (s0 & Hs0 & Hreq).
  destruct (view_same s s0 Hs0 Hok) as (Hok0 & Hr0 & Hl0). destruct (request _ _ s) as [[o|e] s'].
  - destruct Hreq as (a & [= <- <-] & _). done.
  - destruct Hreq as [Hs| ->]; [by destruct (view_same s s' Hs Hok) as (? & ? & ?)|done].
Qed.

Lemma next_token_tokens s r : redis_ok s → next_token s r = (default 0 (redis_tokens s !! r) + 1)%Z.
Proof.
  intros Hok. unfold next_token. rewrite redis_tokens_lookup. pose proof (ok_versions _ Hok r) as Hv.
  destruct (live s !! version_key r) as [x|]; [|done]. by destruct (Hv x eq_refl) as (n & -> & _).
Qed.

(** The request took the lease. *)
Definition acquired (s s' : Redis) (r server : string) : Prop :=
  redis_leases s !! r = None ∧ redis_runs s' = redis_runs s ∧
  redis_tokens s' = <[r := next_token s r]> (redis_tokens s) ∧ (0 ≤ next_token s r ≤ i64_max)%Z ∧
  ∃ w, redis_leases s' = <[r := mkLease w server]> (redis_leases s) ∧ (version_ok (next_token s r) → w = next_token s r).

Lemma view_live s s' : live s' = live s → redis_ok s →
  redis_ok s' ∧ redis_runs s' = redis_runs s ∧ redis_leases s' = redis_leases s ∧ redis_tokens s' = redis_tokens s.
Proof.
  intros Hl Hok. destruct (view_same s s' Hl Hok) as (? & ? & ?). split_and!; [done..|]. apply tokens_set_other. by rewrite Hl.
Qed.

Lemma redis_acquire_view r server ttl s : redis_ok s → (0 < ttl)%Z →
  let '(res, s') := redis_try_acquire_lease r server ttl s in
  let same := redis_runs s' = redis_runs s ∧ redis_leases s' = redis_leases s ∧ redis_tokens s' = redis_tokens s in
  redis_ok s' ∧
  match res with
  | Ok (Some v) => v = next_token s r ∧ acquired s s' r server
  | Ok None => is_Some (redis_leases s !! r) ∧ same
  | Err _ => same ∨ acquired s s' r server
  end.
Proof.
  intros Hok Httl. pose (g := λ n, Ok (as_u64 <$> n) : result StateStoreError (option Z)).
  change (redis_try_acquire_lease r server ttl) with (request (acquire_script (lease_key r) server ttl) g).
  destruct (request_cases (acquire_script (lease_key r) server ttl) g s) as (s0 & Hs0 & Hreq).
  destruct (view_live s s0 Hs0 Hok) as (Hok0 & Hr0 & Hl0 & Ht0).
  assert (next_token s0 r = next_token s r) as Hnext by (unfold next_token; by rewrite Hs0).
  pose proof (acquire_script_spec r server ttl s0 Hok0 Httl) as Hscript.
  assert (∀ n s', acquire_script (lease_key r) server ttl s0 = (Ok (Some n), s') →
    redis_ok s' ∧ n = next_token s r ∧ acquired s s' r server) as Hacq.
  { intros n s' Hn. rewrite Hn in Hscript. destruct Hscript as (Hnone & Hn' & Hrange & Hlive).
    destruct (view_acquire s0 s' r server n Hlive Hrange Hok0) as (Hok' & Hr & Ht & w & Hw & Hexact).
    rewrite Hl0 in Hnone, Hw. rewrite Hnext in Hn'. rewrite Hn' in *. split_and!; [done..|].
    split_and!; [done|congruence|congruence|lia|lia|by exists w]. }
  assert (∀ s', live s' = live s0 → redis_ok s' ∧ redis_runs s' = redis_runs s ∧ redis_leases s' = redis_leases s ∧
    redis_tokens s' = redis_tokens s) as Hsame.
  { intros s' Hlive. apply view_live; [congruence|done]. }
  destruct (request (acquire_script (lease_key r) server ttl) g s) as [[b|e] s'].
  - destruct Hreq as (n & Hn & Hb). injection Hb as <-. destruct n as [n|]; cbn [fmap option_fmap option_map].
    + destruct (Hacq n s' Hn) as (? & -> & Hgot). split; [done|]. split; [|done]. destruct Hgot as (_ & _ & _ & Hrange & _).
      unfold as_u64. apply Z.mod_small. unfold i64_max, u64_max in *. lia.
    + rewrite Hn in Hscript. destruct Hscript as [Hs Hlive]. rewrite Hl0 in Hs. by destruct (Hsame s' Hlive) as (? & ? & ? & ?).
  - destruct Hreq as [Hs| ->].
    + destruct (view_live s s' Hs Hok) as (? & ? & ? & ?). split; [done|by left].
    + destruct (acquire_script (lease_key r) server ttl s0) as [[[n|]|e'] s2] eqn:Hn; cbn [snd].
      * destruct (Hacq n s2 eq_refl) as (? & _ & ?). split; [done|by right].
      * destruct Hscript as [_ Hlive]. destruct (Hsame s2 Hlive) as (? & ? & ? & ?). split; [done|by left].
      * destruct (Hsame s2 Hscript) as (? & ? & ? & ?). split; [done|by left].
Qed.

Lemma redis_acquire_spec r server ttl s : redis_ok s → (0 < ttl)%Z →
  let '(res, s') := redis_try_acquire_lease r server ttl s in
  redis_ok s' ∧ redis_runs s' = redis_runs s ∧
  match res with
  | Ok (Some v) => redis_leases s !! r = None ∧
      ∃ w, redis_leases s' = <[r := mkLease w server]> (redis_leases s) ∧ (version_ok v → w = v)
  | Ok None => is_Some (redis_leases s !! r) ∧ redis_leases s' = redis_leases s
  | Err _ => redis_leases s' = redis_leases s ∨
      redis_leases s !! r = None ∧ ∃ v, redis_leases s' = <[r := mkLease v server]> (redis_leases s)
  end.
Proof.
  intros Hok Httl. pose proof (redis_acquire_view r server ttl s Hok Httl) as Hv.
  destruct (redis_try_acquire_lease r server ttl s) as [[[v|]|e] s']; destruct Hv as [? Hv]; (split; [done|]).
  - destruct Hv as (-> & ? & ? & _ & _ & ?). done.
  - destruct Hv as (? & ? & ? & _). done.
  - destruct Hv as [(? & ? & _)|(? & ? & _ & _ & w & ? & _)]; (split; [done|]); [by left|right; eauto].
Qed.

Lemma redis_renew_spec r server v ttl s : redis_ok s → version_ok v → (0 < ttl)%Z →
  let '(res, s') := redis_renew_lease r server v ttl s in
  redis_ok s' ∧ redis_runs s' = redis_runs s ∧ redis_leases s' = redis_leases s ∧
  match res with Ok b => b = holds_lease (redis_leases s !! r) server v | Err _ => True end.
Proof.
  intros Hok Hv Httl. 
  change (redis_renew_lease r server v ttl) with
    (request (renew_script (lease_key r) server v ttl) (λ n, Ok (n =? 1)%Z : result StateStoreError bool)).
  destruct (request_cases (renew_script (lease_key r) server v ttl) (λ n, Ok (n =? 1)%Z : result StateStoreError bool) s)
    as (s0 & Hs0 & Hreq).
  destruct (view_same s s0 Hs0 Hok) as (Hok0 & Hr0 & Hl0).
  destruct (renew_script_spec r server v ttl s0 Hok0 Hv Httl) as [H1 H2]. rewrite Hl0 in H1.
  destruct (request _ _ s) as [[b|e] s'].
  + destruct Hreq as (n & Hn & Hb). rewrite Hn in H1, H2. cbn [fst snd] in *. injection H1 as ->. injection Hb as <-.
    destruct (view_same s0 s' H2 Hok0) as (? & ? & ?). split_and!; [done|congruence|congruence|].
    by destruct (holds_lease _ _ _).
  + destruct Hreq as [Hs| ->]; [by destruct (view_same s s' Hs Hok) as (? & ? & ?)|].
    destruct (view_same s0 _ H2 Hok0) as (? & ? & ?). split_and!; [done|congruence|congruence|done].
Qed.

#[export] Instance redis_spec : StateStoreSpec Redis.
Proof.
  refine {| runs_of := redis_runs; leases_of := redis_leases; store_ok := redis_ok |}.
  - exact redis_save_spec.
  - exact redis_load_spec.
  - exact redis_delete_spec.
  - exact redis_release_spec.
  - exact redis_acquire_spec.
  - exact redis_renew_spec.
  - intros s Hok Hids. exact (redis_scan_spec false s Hok Hids).
  - intros s Hok Hids. exact (redis_scan_spec true s Hok Hids).
  - exact redis_ping_spec.
Defined.
(** ** Expiry

    State and counter keys never expire; a lease is the only thing that time
    takes away. *)

Definition no_expiry (s : Redis) : Prop :=
  ∀ r, r_expires s !! state_key r = None ∧ r_expires s !! version_key r = None.

Record frame (s s' : Redis) : Prop := {
  fr_tokens r : live s' !! version_key r = live s !! version_key r;
  fr_expiry : no_expiry s → no_expiry s';
}.
#[export] Instance frame_preorder : PreOrder frame.
Proof.
  split; [done|]. intros s1 s2 s3 [T1 E1] [T2 E2]. split; [|by auto]. intros r. by rewrite T2, T1.
Qed.

Lemma frame_set k v : (∀ r, k ≠ version_key r) → preserves frame (redis_set k v).
Proof.
  intros Hk s. split; [intros r; by rewrite live_set, lookup_insert_ne|]. intros He r. destruct (He r) as [H1 H2].
  cbn. by rewrite !lookup_delete_None, H1, H2; auto.
Qed.
Lemma frame_del k : (∀ r, k ≠ version_key r) → preserves frame (redis_del k).
Proof.
  intros Hk s. split; [intros r; by rewrite live_del, lookup_delete_ne|]. intros He r. destruct (He r) as [H1 H2].
  cbn. by rewrite !lookup_delete_None, H1, H2; auto.
Qed.
Lemma no_expiry_expire r secs s : no_expiry s → no_expiry (redis_expire (lease_key r) secs s).2.
Proof.
  intros He q. destruct (He q) as [H1 H2]. unfold redis_expire. destruct (live s !! lease_key r); [|done].
  destruct (secs <=? 0)%Z; cbn.
  - rewrite !lookup_delete_None. auto.
  - rewrite !lookup_insert_ne; [done|apply lease_version_differ|symmetry; apply state_lease_differ].
Qed.
Lemma frame_expire r secs : (0 < secs)%Z → preserves frame (redis_expire (lease_key r) secs).
Proof. intros Hs s. split; [intros q; by rewrite live_expire|]. apply no_expiry_expire. Qed.
Lemma frame_replies rs s : frame s (with_replies rs s).
Proof. done. Qed.
Lemma frame_pool_get : preserves frame pool_get.
Proof. intros s. unfold pool_get. by destruct (r_replies s) as [|[]]. Qed.
Lemma frame_query {A} (cmd : M Redis (result string A)) : preserves frame cmd → preserves frame (query cmd).
Proof.
  intros Hc s. unfold query. assert (∀ rs, frame s (cmd (with_replies rs s)).2) as Hr
    by (intros rs; etrans; [apply (frame_replies rs)|apply Hc]).
  destruct (r_replies s) as [|[|e|e] rs]; cbn; [| |done|apply Hr].
  - specialize (Hr []). by destruct (cmd _).
  - specialize (Hr rs). by destruct (cmd _).
Qed.
Lemma frame_request {A B} (cmd : M Redis (result string A)) (g : A → result StateStoreError B) :
  preserves frame cmd → preserves frame (request cmd g).
Proof.
  intros Hc. unfold request. apply preserves_bind_ok; [exact _|apply frame_pool_get|intros _].
  apply preserves_bind_ok; [exact _|by apply frame_query|]. intros a. by apply preserves_ret; exact _.
Qed.

Lemma state_not_version r : ∀ q, state_key r ≠ version_key q.
Proof. intros q. apply state_version_differ. Qed.
Lemma lease_not_version r : ∀ q, lease_key r ≠ version_key q.
Proof. intros q. apply lease_version_differ. Qed.

Ltac frames :=
  repeat first
    [ apply preserves_bind_ok; [exact _| |intros ?]
    | apply frame_set; auto using state_not_version, lease_not_version
    | apply frame_del; auto using state_not_version, lease_not_version
    | apply frame_expire; assumption
    | apply preserves_ret; exact _
    | apply preserves_gets; exact _
    | match goal with
      | |- preserves _ (match ?x with _ => _ end) => destruct x
      | |- preserves _ (if ?x then _ else _) => destruct x
      end ].

Lemma frame_save r st v : preserves frame (redis_save_run r st v).
Proof.
  unfold redis_save_run. apply preserves_bind_ok; [exact _|apply frame_pool_get|intros _].
  destruct (state_to_string st); [|by apply preserves_ret; exact _].
  apply preserves_bind_ok; [exact _|apply frame_query|intros ?; by apply preserves_ret; exact _].
  unfold save_script, redis_get. frames.
Qed.
Lemma frame_load r : preserves frame (redis_load_run r).
Proof. apply frame_request. unfold redis_get. frames. Qed.
Lemma frame_delete r : preserves frame (redis_delete_run r).
Proof. apply frame_request. frames. Qed.
Lemma frame_release r : preserves frame (redis_release_lease r).
Proof. apply frame_request. frames. Qed.
Lemma frame_renew r server v ttl : (0 < ttl)%Z → preserves frame (redis_renew_lease r server v ttl).
Proof. intros Ht. apply frame_request. unfold renew_script, redis_get. frames. Qed.

(** Acquiring changes a counter but no expiry of states and counters. *)
Definition lasting (s s' : Redis) : Prop := no_expiry s → no_expiry s'.
#[export] Instance lasting_preorder : PreOrder lasting.
Proof. split; [by intros s ?|]. unfold lasting. intros ???. auto. Qed.
Lemma lasting_incr k : preserves lasting (redis_incr k).
Proof.
  intros s He r. destruct (He r) as [H1 H2]. unfold redis_incr.
  destruct (live s !! k) as [[|n]|]; [done|by destruct (_ =? _)%Z|]. cbn. rewrite !lookup_delete_None. auto.
Qed.
Lemma lasting_acquire r server ttl : preserves lasting (redis_try_acquire_lease r server ttl).
Proof.
  assert (preserves lasting (acquire_script (lease_key r) server ttl)) as Hs.
  { unfold acquire_script. apply preserves_bind_ok; [exact _|by apply preserves_gets; exact _|].
    intros [v|]; [by apply preserves_ret; exact _|]. apply preserves_bind_ok; [exact _|apply lasting_incr|intros n].
    apply preserves_bind_ok; [exact _|intros s; exact (fr_expiry _ _ (frame_set _ _ (lease_not_version r) s))|intros _].
    apply preserves_bind_ok; [exact _|intros s; exact (no_expiry_expire r ttl s)|]. intros ?. by apply preserves_ret; exact _. }
  unfold redis_try_acquire_lease. apply preserves_bind_ok; [exact _|intros s; exact (fr_expiry _ _ (frame_pool_get s))|intros _].
  apply preserves_bind_ok; [exact _| |intros a; by apply preserves_ret; exact _].
  intros s He. unfold query. assert (∀ rs, no_expiry (acquire_script (lease_key r) server ttl (with_replies rs s)).2) as Hr
    by (intros rs; by apply Hs).
  destruct (r_replies s) as [|[|e|e] rs]; cbn; [| |exact He|apply Hr].
  - specialize (Hr []). by destruct (acquire_script _ _ _ _).
  - specialize (Hr rs). by destruct (acquire_script _ _ _ _).
Qed.

(** ** The store as an abstract machine

    The contents as three maps: the runs, the leases in force and the last token
    given for each run. A call has one of the effects the contract names, and
    time only ends leases. *)

Record Contents := mkContents {
  s_runs : gmap string RunState; s_leases : gmap string LeaseData; s_tokens : gmap string Z }.

Inductive RedisCall :=
| DoSave (r : string) (st : RunState) (v : Z)
| DoLoad (r : string)
| DoDelete (r : string)
| DoAcquire (r server : string) (ttl : Z)
| DoRenew (r server : string) (v ttl : Z)
| DoRelease (r : string)
| Wait (secs : Z).

Inductive Answer := Saved (b : bool) | Loaded (o : option RunState) | Token (o : option Z) | Renewed (b : bool) | Done | Failed.

Inductive abstract_step : Contents → RedisCall → Answer → Contents → Prop :=
| abs_failed x c : abstract_step x c Failed x
| abs_save runs leases tokens r st v (b := cas_accepts (runs !! r) v) :
    abstract_step (mkContents runs leases tokens) (DoSave r st v) (Saved b)
      (mkContents (if b then <[r := st]> runs else runs) leases tokens)
| abs_save_lost runs leases tokens r st v :
    cas_accepts (runs !! r) v = true →
    abstract_step (mkContents runs leases tokens) (DoSave r st v) Failed (mkContents (<[r := st]> runs) leases tokens)
| abs_load x r : abstract_step x (DoLoad r) (Loaded (s_runs x !! r)) x
| abs_delete runs leases tokens r a : a = Done ∨ a = Failed →
    abstract_step (mkContents runs leases tokens) (DoDelete r) a (mkContents (delete r runs) leases tokens)
| abs_taken x r server ttl : is_Some (s_leases x !! r) → abstract_step x (DoAcquire r server ttl) (Token None) x
| abs_acquire runs leases tokens r server ttl a w (token := (default 0 (tokens !! r) + 1)%Z) :
    leases !! r = None → (version_ok token → w = token) → a = Token (Some token) ∨ a = Failed →
    abstract_step (mkContents runs leases tokens) (DoAcquire r server ttl) a
      (mkContents runs (<[r := mkLease w server]> leases) (<[r := token]> tokens))
| abs_renew x r server v ttl : abstract_step x (DoRenew r server v ttl) (Renewed (holds_lease (s_leases x !! r) server v)) x
| abs_release runs leases tokens r a : a = Done ∨ a = Failed →
    abstract_step (mkContents runs leases tokens) (DoRelease r) a (mkContents runs (delete r leases) tokens)
| abs_wait runs leases leases' tokens secs : leases' ⊆ leases →
    abstract_step (mkContents runs leases tokens) (Wait secs) Done (mkContents runs leases' tokens).

Inductive abstract_steps : Contents → list RedisCall → list Answer → Contents → Prop :=
| abs_nil x : abstract_steps x [] [] x
| abs_cons x y z c cs a answers : abstract_step x c a y → abstract_steps y cs answers z →
    abstract_steps x (c :: cs) (a :: answers) z.

(** The concrete calls. *)
Definition call_ok (c : RedisCall) : Prop :=
  match c with
  | DoSave _ st v => version_ok (rs_version st) ∧ version_ok v
  | DoAcquire _ _ ttl => (0 < ttl)%Z
  | DoRenew _ _ v ttl => version_ok v ∧ (0 < ttl)%Z
  | Wait secs => (0 ≤ secs)%Z
  | DoLoad _ | DoDelete _ | DoRelease _ => True
  end.
Definition answer {A} (f : A → Answer) (m : M Redis (result StateStoreError A)) : M Redis Answer :=
  r ← m; mret (match r with Ok a => f a | Err _ => Failed end).
Definition wait (secs : Z) : M Redis Answer := λ s, (Done, mkRedis (r_db s) (r_expires s) (r_now s + secs) (r_replies s)).
Definition redis_call (c : RedisCall) : M Redis Answer :=
  match c with
  | DoSave r st v => answer Saved (redis_save_run r st v)
  | DoLoad r => answer Loaded (redis_load_run r)
  | DoDelete r => answer (λ _, Done) (redis_delete_run r)
  | DoAcquire r server ttl => answer Token (redis_try_acquire_lease r server ttl)
  | DoRenew r server v ttl => answer Renewed (redis_renew_lease r server v ttl)
  | DoRelease r => answer (λ _, Done) (redis_release_lease r)
  | Wait secs => wait secs
  end.
Fixpoint redis_calls (cs : list RedisCall) : M Redis (list Answer) :=
  match cs with
  | [] => mret []
  | c :: cs => a ← redis_call c; answers ← redis_calls cs; mret (a :: answers)
  end.

Definition contents (s : Redis) : Contents := mkContents (redis_runs s) (redis_leases s) (redis_tokens s).
Record redis_inv (s : Redis) : Prop := { ri_ok : redis_ok s; ri_lasting : no_expiry s }.

Lemma frame_tokens s s' : frame s s' → redis_tokens s' = redis_tokens s.
Proof. intros [Ht _]. by apply tokens_set_other. Qed.

Lemma wait_step secs s : (0 ≤ secs)%Z → redis_inv s →
  redis_inv (wait secs s).2 ∧ abstract_step (contents s) (Wait secs) Done (contents (wait secs s).2).
Proof.
  intros Hsecs [[Hs Hle Hv] He]. cbn. set (s' := mkRedis _ _ _ _).
  assert (∀ k v, live s' !! k = Some v → live s !! k = Some v) as Hsub.
  { intros k v. rewrite !live_lookup. unfold unexpired, s'. cbn. destruct (r_expires s !! k) as [t|]; [|done].
    destruct (Z.ltb_spec (r_now s + secs) t); [|done]. by rewrite (proj2 (Z.ltb_lt _ _)) by lia. }
  assert (∀ k, r_expires s !! k = None → live s' !! k = live s !! k) as Hsame.
  { intros k Hk. rewrite !live_lookup. unfold unexpired, s'. cbn. by rewrite Hk. }
  split; [split; [split; intros r v Hk%Hsub; eauto|exact He]|]. unfold contents.
  replace (redis_runs s') with (redis_runs s); [replace (redis_tokens s') with (redis_tokens s)|].
  - apply abs_wait. apply map_subseteq_spec. intros r d. rewrite !redis_leases_lookup.
    intros (v & Hv' & Hd)%bind_Some. by rewrite (Hsub _ _ Hv').
  - symmetry. apply tokens_set_other. intros r. apply Hsame. exact (proj2 (He r)).
  - apply map_eq. intros r. rewrite !redis_runs_lookup. f_equal. symmetry. apply Hsame. exact (proj1 (He r)).
Qed.
(** The machine simulates a call. *)
Definition simulated (c : RedisCall) (s : Redis) : Prop :=
  redis_inv (redis_call c s).2 ∧ abstract_step (contents s) c (redis_call c s).1 (contents (redis_call c s).2).

(** For calls that leave the tokens alone. *)
Lemma answered {A} (f : A → Answer) (m : M Redis (result StateStoreError A)) c s :
  redis_call c = answer f m → redis_inv s → frame s (m s).2 → redis_ok (m s).2 →
  abstract_step (contents s) c (match (m s).1 with Ok a => f a | Err _ => Failed end)
    (mkContents (redis_runs (m s).2) (redis_leases (m s).2) (redis_tokens s)) →
  simulated c s.
Proof.
  intros Hc [_ He] Hf Hok Hstep. unfold simulated, answer in *. rewrite Hc, bind_eq. cbn.
  split; [split; [done|by apply (fr_expiry _ _ Hf)]|]. unfold contents at 2. by rewrite (frame_tokens _ _ Hf).
Qed.

Lemma save_simulated r st v s : redis_inv s → version_ok (rs_version st) → version_ok v → simulated (DoSave r st v) s.
Proof.
  intros Hinv Hst Hv. pose proof (redis_save_spec r st v s (ri_ok _ Hinv) Hst Hv) as Hspec. pose proof (frame_save r st v s) as Hf.
  apply (answered Saved (redis_save_run r st v)); try done; destruct (redis_save_run r st v s) as [res s'];
    destruct Hspec as (Hok & Hl & Hr); [exact Hok|]. cbn [fst snd]. rewrite Hl. destruct res as [b|e].
  - destruct Hr as [-> ->]. apply abs_save.
  - destruct Hr as [->|[Ha ->]]; [apply abs_failed|by apply abs_save_lost].
Qed.

Lemma load_simulated r s : redis_inv s → simulated (DoLoad r) s.
Proof.
  intros Hinv. pose proof (redis_load_spec r s (ri_ok _ Hinv)) as Hspec. pose proof (frame_load r s) as Hf.
  apply (answered Loaded (redis_load_run r)); try done; destruct (redis_load_run r s) as [res s'];
    destruct Hspec as (Hok & Hr & Hl & Ho); [exact Hok|]. cbn [fst snd]. rewrite Hr, Hl.
  destruct res as [o|e]; [|apply abs_failed]. subst o. apply (abs_load (contents s)).
Qed.

Lemma delete_simulated r s : redis_inv s → simulated (DoDelete r) s.
Proof.
  intros Hinv. pose proof (redis_delete_spec r s (ri_ok _ Hinv)) as Hspec. pose proof (frame_delete r s) as Hf.
  apply (answered (λ _, Done) (redis_delete_run r)); try done; destruct (redis_delete_run r s) as [res s'];
    destruct Hspec as (Hok & Hl & Hr); [exact Hok|]. cbn [fst snd]. rewrite Hl. destruct res as [o|e].
  - rewrite Hr. apply abs_delete. by left.
  - destruct Hr as [->| ->]; [apply abs_failed|apply abs_delete; by right].
Qed.

Lemma release_simulated r s : redis_inv s → simulated (DoRelease r) s.
Proof.
  intros Hinv. pose proof (redis_release_spec r s (ri_ok _ Hinv)) as Hspec. pose proof (frame_release r s) as Hf.
  apply (answered (λ _, Done) (redis_release_lease r)); try done; destruct (redis_release_lease r s) as [res s'];
    destruct Hspec as (Hok & Hr & Hl); [exact Hok|]. cbn [fst snd]. rewrite Hr. destruct res as [o|e].
  - rewrite Hl. apply abs_release. by left.
  - destruct Hl as [->| ->]; [apply abs_failed|apply abs_release; by right].
Qed.

Lemma renew_simulated r server v ttl s : redis_inv s → version_ok v → (0 < ttl)%Z → simulated (DoRenew r server v ttl) s.
Proof.
  intros Hinv Hv Ht. pose proof (redis_renew_spec r server v ttl s (ri_ok _ Hinv) Hv Ht) as Hspec.
  pose proof (frame_renew r server v ttl Ht s) as Hf.
  apply (answered Renewed (redis_renew_lease r server v ttl)); try done; destruct (redis_renew_lease r server v ttl s) as [res s'];
    destruct Hspec as (Hok & Hr & Hl & Hb); [exact Hok|]. cbn [fst snd]. rewrite Hr, Hl.
  destruct res as [b|e]; [|apply abs_failed]. subst b. apply (abs_renew (contents s)).
Qed.

Lemma acquire_simulated r server ttl s : redis_inv s → (0 < ttl)%Z → simulated (DoAcquire r server ttl) s.
Proof.
  intros [Hok He] Ht. pose proof (redis_acquire_view r server ttl s Hok Ht) as Hspec.
  pose proof (lasting_acquire r server ttl s He) as Hlast. unfold simulated. cbn [redis_call]. unfold answer. rewrite bind_eq. cbn.
  destruct (redis_try_acquire_lease r server ttl s) as [res s']. destruct Hspec as [Hok' Hspec]. cbn [fst snd] in *.
  split; [by split|]. unfold contents.
  assert (∀ a, acquired s s' r server → a = Token (Some (next_token s r)) ∨ a = Failed →
    abstract_step (mkContents (redis_runs s) (redis_leases s) (redis_tokens s)) (DoAcquire r server ttl) a
      (mkContents (redis_runs s') (redis_leases s') (redis_tokens s'))) as Hacq.
  { intros a (Hnone & -> & -> & _ & w & -> & Hw) Ha. rewrite next_token_tokens in * by done. by apply abs_acquire. }
  destruct res as [[v|]|e].
  - destruct Hspec as [-> Hgot]. apply Hacq; [done|by left].
  - destruct Hspec as (Htaken & -> & -> & ->). by apply abs_taken.
  - destruct Hspec as [(-> & -> & ->)|Hgot]; [apply abs_failed|]. apply Hacq; [done|by right].
Qed.

Lemma call_step c s : call_ok c → redis_inv s → simulated c s.
Proof.
  intros Hc Hinv. destruct c; cbn [call_ok] in Hc.
  - destruct Hc. by apply save_simulated.
  - by apply load_simulated.
  - by apply delete_simulated.
  - by apply acquire_simulated.
  - destruct Hc. by apply renew_simulated.
  - by apply release_simulated.
  - by apply wait_step.
Qed.

Lemma redis_calls_steps cs s : Forall call_ok cs → redis_inv s →
  redis_inv (redis_calls cs s).2 ∧ abstract_steps (contents s) cs (redis_calls cs s).1 (contents (redis_calls cs s).2).
Proof.
  intros Hall. revert s. induction Hall as [|c cs Hc Hall IH]; intros s Hinv; [by split; [|constructor]|].
  cbn [redis_calls]. rewrite !bind_eq. destruct (call_step c s Hc Hinv) as [Hi Hs].
  destruct (redis_call c s) as [a s1]. cbn [fst snd] in *. destruct (IH s1 Hi) as [Hi2 Hs2].
  destruct (redis_calls cs s1) as [answers s2]. cbn in *. split; [done|]. by eapply abs_cons.
Qed.

(** The last token of a run never decreases. *)
Lemma abstract_tokens x cs answers y r : abstract_steps x cs answers y →
  (default 0 (s_tokens x !! r) ≤ default 0 (s_tokens y !! r))%Z.
Proof.
  induction 1 as [|x y z c cs a answers Hs _ IH]; [lia|]. etrans; [|exact IH]. clear IH. destruct Hs; cbn; try lia.
  destruct (decide (r0 = r)) as [->|Hne]; [rewrite lookup_insert_eq; subst token; simpl; lia|].
  by rewrite lookup_insert_ne.
Qed.

(** ** Properties *)

(** C20: the Redis store refines an abstract machine of three maps. Over any
    sequence of calls and of waiting, with connections that fail and answers that
    get lost, each call has the effect and the answer of one step of the
    machine: saves compare and swap, a lease is taken only when it is free and
    with a new token, and nothing but releasing and time ends one. *)
Theorem redis_refines_machine cs s :
  redis_inv s → Forall call_ok cs →
  let '(answers, s') := redis_calls cs s in
  redis_inv s' ∧ abstract_steps (contents s) cs answers (contents s').
Proof.
  intros Hinv Hall. destruct (redis_calls_steps cs s Hall Hinv) as [H1 H2]. by destruct (redis_calls cs s).
Qed.

(** Fencing on Redis: however the first lease ended, a lease of the same run
    acquired later has a larger token, and its holder's predecessor can no
    longer renew. *)
Theorem redis_tokens_increase r server1 server2 ttl v1 v2 cs s s1 s2 :
  redis_inv s → (0 < ttl)%Z → Forall call_ok cs → version_ok v1 → version_ok v2 →
  redis_try_acquire_lease r server1 ttl s = (Ok (Some v1), s1) →
  redis_try_acquire_lease r server2 ttl (redis_calls cs s1).2 = (Ok (Some v2), s2) →
  (v1 < v2)%Z ∧ (redis_renew_lease r server1 v1 ttl s2).1 ≠ Ok true.
Proof.
  intros [Hok He] Httl Hcs Hv1 Hv2 H1 H2.
  pose proof (redis_acquire_view r server1 ttl s Hok Httl) as A1. pose proof (lasting_acquire r server1 ttl s He) as E1.
  rewrite H1 in A1, E1. destruct A1 as (Hok1 & -> & _ & _ & Ht1 & _).
  destruct (redis_calls_steps cs s1 Hcs) as [[Hok2 He2] Hsteps]; [by split|]. apply abstract_tokens with (r := r) in Hsteps.
  pose proof (redis_acquire_view r server2 ttl _ Hok2 Httl) as A2. rewrite H2 in A2.
  destruct A2 as (Hok3 & -> & _ & _ & _ & _ & w & Hl & Hw). rewrite (Hw Hv2) in Hl.
  assert (next_token s r < next_token (redis_calls cs s1).2 r)%Z as Hlt.
  { cbn [contents s_tokens] in Hsteps. rewrite Ht1, lookup_insert_eq in Hsteps. rewrite (next_token_tokens _ _ Hok2). cbn in Hsteps. lia. }
  split; [exact Hlt|]. pose proof (redis_renew_spec r server1 (next_token s r) ttl s2 Hok3 Hv1 Httl) as Hr.
  destruct (redis_renew_lease r server1 (next_token s r) ttl s2) as [[b|e] s3]; [|done]. destruct Hr as (_ & _ & _ & ->).
  cbn [fst]. rewrite Hl, lookup_insert_eq. cbn. rewrite (bool_decide_eq_false_2 (next_token _ _ = _)) by lia.
  by rewrite andb_false_r.
Qed.
End facts.

(** ** A concrete server *)

Module Example.
#[export] Existing Instance canonical_order.

(** Two states and their JSON. *)
Definition state (v : Z) : RunState := mkRunState v {["build" := Running]} {["build" := []]} (sample_pipeline []).
Definition samples : list (string * RunState) := [("{version:0}", state 0); ("{version:1}", state 1)].

Fixpoint pos_bits (p : positive) : string :=
  match p with xH => "" | xO p => String "0" (pos_bits p) | xI p => String "1" (pos_bits p) end.
Fixpoint bits_pos (s : string) : positive :=
  match s with
  | EmptyString => xH
  | String c s => if byte_eqb c "0" then xO (bits_pos s) else xI (bits_pos s)
  end.
Lemma bits_pos_bits p : bits_pos (pos_bits p) = p.
Proof. induction p; simpl; by f_equal. Qed.

Definition to_json (st : RunState) : result string string :=
  match List.find (λ p, bool_decide (p.2 = st)) samples with Some p => Ok p.1 | None => Err "no sample" end.
Definition from_json (j : string) : result string RunState :=
  match List.find (λ p, str_eqb p.1 j) samples with Some p => Ok p.2 | None => Err "no sample" end.

Lemma json_round_trip st j : to_json st = Ok j → from_json j = Ok st.
Proof.
  unfold to_json, samples. cbn [List.find snd fst]. case_bool_decide as H0; [intros [= <-]; by subst st|].
  case_bool_decide as H1; [intros [= <-]; by subst st|done].
Qed.

#[export, refine] Instance redis_libraries : RedisLibraries := {|
  state_to_string := to_json;
  state_from_str := from_json;
  cjson_decode_version j := match from_json j with Ok st => Ok (Some (rs_version st)) | Err e => Err e end;
  cjson_encode_lease d := pos_bits (encode (lease_version d, lease_server_id d));
  cjson_decode_lease j :=
    match decode (bits_pos j) with Some (v, server) => Ok (mkLease v server) | None => Err "not a lease" end;
  lua_number v := v |}.
Proof.
  - exact json_round_trip.
  - intros st j Hj. by rewrite (json_round_trip _ _ Hj).
  - intros v server. exists v. cbn. by rewrite bits_pos_bits, decode_encode.
  - done.
Defined.

Definition server (replies : list Reply) : Redis := mkRedis ∅ ∅ 1000 replies.
Lemma server_inv replies : redis_inv (server replies).
Proof. split; [split; intros r v Hv; discriminate Hv|]. by intros r. Qed.

(** A save whose answer is lost, a lease that expires and is taken over. *)
Definition history : list RedisCall :=
  [DoSave "r" (state 0) 0; DoAcquire "r" "a" 30; DoSave "r" (state 1) 0; DoSave "r" (state 1) 0; Wait 31;
   DoAcquire "r" "b" 30; DoRenew "r" "a" 1 30].
Definition lost_save : list Reply := [Served; Served; Served; Served; Served; Lost "connection reset"].
Lemma history_ok : Forall call_ok history.
Proof. repeat constructor; vm_compute; congruence. Qed.

Lemma redis_refines_machine_witness :
  (redis_calls history (server lost_save)).1 =
    [Saved true; Token (Some 1%Z); Failed; Saved false; Done; Token (Some 2%Z); Renewed false] ∧
  ∃ x, abstract_steps (contents (server lost_save)) history (redis_calls history (server lost_save)).1 x.
Proof.
  split; [vm_compute; reflexivity|].
  pose proof (redis_refines_machine history (server lost_save) (server_inv _) history_ok) as Hs.
  destruct (redis_calls history (server lost_save)) as [answers s']. exists (contents s'). exact (proj2 Hs).
Defined.

Lemma redis_tokens_increase_witness :
  let s1 := (redis_try_acquire_lease "r" "a" 30 (server [])).2 in
  let s2 := (redis_try_acquire_lease "r" "b" 30 (redis_calls [Wait 31] s1).2).2 in
  (redis_renew_lease "r" "a" 1 30 s2).1 ≠ Ok true.
Proof.
  pose (s1 := (redis_try_acquire_lease "r" "a" 30 (server [])).2).
  pose (s2 := (redis_try_acquire_lease "r" "b" 30 (redis_calls [Wait 31] s1).2).2).
  assert (redis_try_acquire_lease "r" "a" 30 (server []) = (Ok (Some 1%Z), s1)) as H1 by (vm_compute; reflexivity).
  assert (redis_try_acquire_lease "r" "b" 30 (redis_calls [Wait 31] s1).2 = (Ok (Some 2%Z), s2)) as H2 by (vm_compute; reflexivity).
  assert (Forall call_ok [Wait 31]) as Hok by (repeat constructor; vm_compute; congruence).
  assert (0 < 30)%Z as Ht by reflexivity. assert (version_ok 1) as Hv1 by (by split). assert (version_ok 2) as Hv2 by (by split).
  exact (proj2 (redis_tokens_increase "r" "a" "b" 30 1 2 [Wait 31] (server []) s1 s2 (server_inv _) Ht Hok Hv1 Hv2 H1 H2)).
Defined.
End Example.
