(* ===== verification/Run.v ===== *)
(** * The in-memory run: node statuses and the dependency graph

    Models [coordinator/src/run.rs]: the scheduling state machine of one run.
    Its completion test is the same condition as the store's terminal test. *)

From S2P Require Import Prelude Pipeline StateStore.

Record PipelineRun : Type := mkRun {
  statuses : gmap string NodeStatus;
  dependencies : gmap string (gset string);
}.

(** ** Operations *)

(** [PipelineRun::new] *)
Definition new_run (nodes : list NodeInfo) : PipelineRun := {|
  statuses := collect_map ni_name (λ _, Pending) nodes;
  dependencies := collect_map ni_name (λ n, list_to_set (ni_dependencies n)) nodes;
|}.

Definition deps_satisfied (run : PipelineRun) (node : string) : bool :=
  match dependencies run !! node with
  | Some deps => bool_decide (set_Forall (λ dep, statuses run !! dep = Some Success) deps)
  | None => true
  end.

Definition ready_nodes `{HashOrder} (run : PipelineRun) : list string :=
  (List.filter (λ '(name, status), bool_decide (status = Pending) && deps_satisfied run name)
    (hash_iter (statuses run))).*1.

Definition set_status (node : string) (s : NodeStatus) (run : PipelineRun) : PipelineRun :=
  mkRun (<[node := s]> (statuses run)) (dependencies run).

Definition mark_running (node : string) : M PipelineRun bool := λ run,
  if bool_decide (statuses run !! node = Some Pending)
  then (true, set_status node Running run) else (false, run).

Definition mark_success (node : string) : M PipelineRun bool := λ run,
  match statuses run !! node with
  | Some Running | Some Pending => (true, set_status node Success run)
  | _ => (false, run)
  end.

Definition mark_failed (node : string) : M PipelineRun bool := λ run,
  match statuses run !! node with
  | Some Running | Some Pending => (true, set_status node Failed run)
  | _ => (false, run)
  end.

Definition mark_dispatch_failed (node : string) : M PipelineRun bool := λ run,
  if bool_decide (statuses run !! node = Some Pending)
  then (true, set_status node Failed run) else (false, run).

Definition is_complete `{HashOrder} (run : PipelineRun) : bool :=
  let any_running := bool_decide (map_Exists (λ _ s, s = Running) (statuses run)) in
  if any_running then false
  else match ready_nodes run with [] => true | _ => false end.

Definition from_run_state (state : RunState) : PipelineRun :=
  mkRun (rs_statuses state) (list_to_set <$> rs_dependencies state).

Definition to_run_state `{HashOrder} (run : PipelineRun) (version : Z) (pipeline : Pipeline) : RunState :=
  mkRunState version (statuses run) (hash_set_iter <$> dependencies run) pipeline.

(** ** Specification: how one node's status may move *)

Definition is_terminal (s : NodeStatus) : bool :=
  match s with Success | Failed => true | Pending | Running => false end.

(** Reflexive: an operation may leave a node alone. *)
Definition status_le (s t : NodeStatus) : bool :=
  match s, t with
  | Pending, _ => true
  | Running, (Running | Success | Failed) => true
  | Success, Success | Failed, Failed => true
  | _, _ => false
  end.

(** The graph is fixed, no node appears or disappears, statuses only advance. *)
Definition run_le (r1 r2 : PipelineRun) : Prop :=
  dependencies r2 = dependencies r1 ∧
  ∀ n, match statuses r1 !! n, statuses r2 !! n with
       | Some s, Some t => status_le s t = true
       | None, None => True
       | _, _ => False
       end.

(** Statuses and dependencies are kept for the same nodes, as
    [PipelineRun::new] establishes. *)
Definition run_wf (run : PipelineRun) : Prop := dom (statuses run) = dom (dependencies run).

(** Every dependency is a node of the run. *)
Definition run_closed (run : PipelineRun) : Prop :=
  ∀ n deps d, dependencies run !! n = Some deps → d ∈ deps → is_Some (statuses run !! d).

(** A ranking that decreases along dependencies: the graph has no cycle. *)
Definition acyclic_by (rank : string → nat) (run : PipelineRun) : Prop :=
  ∀ n deps d, dependencies run !! n = Some deps → d ∈ deps → rank d < rank n.

(** [n] waits for a node that failed. *)
Inductive BlockedByFailure (run : PipelineRun) : string → Prop :=
| blocked_here n deps d :
    dependencies run !! n = Some deps → d ∈ deps → statuses run !! d = Some Failed →
    BlockedByFailure run n
| blocked_above n deps d :
    dependencies run !! n = Some deps → d ∈ deps → BlockedByFailure run d →
    BlockedByFailure run n.

(** The number of steps the statuses can still take. *)
Definition status_weight (s : NodeStatus) : nat :=
  match s with Pending => 2 | Running => 1 | Success | Failed => 0 end.
Definition run_weight (run : PipelineRun) : nat :=
  map_fold (λ _ s acc, status_weight s + acc) 0 (statuses run).

(** ** Lemmas *)
Lemma elem_of_ready `{HashOrder} run n :
  n ∈ ready_nodes run ↔ statuses run !! n = Some Pending ∧ deps_satisfied run n = true.
Proof.
  unfold ready_nodes. rewrite elem_of_filter_fst. setoid_rewrite elem_of_hash_iter.
  setoid_rewrite andb_true_iff. setoid_rewrite bool_decide_eq_true. naive_solver.
Qed.

Lemma NoDup_ready `{HashOrder} run : NoDup (ready_nodes run).
Proof.
  unfold ready_nodes. pose proof (NoDup_hash_keys (statuses run)) as Hnd. revert Hnd. unfold hash_keys.
  induction (hash_iter (statuses run)) as [|[k v] l IH]; simpl; [done|].
  rewrite NoDup_cons. intros [Hk Hnd]. destruct (_ && _); simpl; [|by apply IH].
  apply NoDup_cons. split; [|by apply IH]. rewrite elem_of_filter_fst. intros (w & Hin & _).
  apply Hk. apply list_elem_of_fmap. by exists (k, w).
Qed.

Lemma deps_satisfied_true run n :
  deps_satisfied run n = true ↔
  ∀ deps d, dependencies run !! n = Some deps → d ∈ deps → statuses run !! d = Some Success.
Proof.
  unfold deps_satisfied. destruct (dependencies run !! n) as [deps|]; [|naive_solver].
  rewrite bool_decide_eq_true. unfold set_Forall. naive_solver.
Qed.

Lemma is_complete_iff `{HashOrder} run :
  is_complete run = true ↔
  (∀ n, statuses run !! n ≠ Some Running) ∧
  (∀ n, statuses run !! n = Some Pending → deps_satisfied run n = false).
Proof.
  unfold is_complete. case_bool_decide as Hr.
  - destruct Hr as (n & s & Hn & ->). naive_solver.
  - assert (∀ n, statuses run !! n ≠ Some Running) as Hnr.
    { intros n Hn. apply Hr. by exists n, Running. }
    assert (match ready_nodes run with [] => true | _ => false end = true ↔ ready_nodes run = []) as ->
      by by destruct (ready_nodes run).
    split.
    + intros Hnil. split; [done|]. intros n Hn. destruct (deps_satisfied run n) eqn:Hd; [|done].
      assert (n ∈ ready_nodes run) as Hin by by apply elem_of_ready. rewrite Hnil in Hin. set_solver.
    + intros [_ Hall]. destruct (ready_nodes run) as [|n l] eqn:Hl; [done|].
      assert (n ∈ ready_nodes run) as Hin by (rewrite Hl; set_solver).
      apply elem_of_ready in Hin as [Hp Hd]. specialize (Hall n Hp). congruence.
Qed.

#[export] Instance run_le_preorder : PreOrder run_le.
Proof.
  split.
  - intros r. split; [done|]. intros n. destruct (statuses r !! n) as [[]|]; done.
  - intros r1 r2 r3 [Hd1 H1] [Hd2 H2]. split; [congruence|]. intros n.
    specialize (H1 n). specialize (H2 n).
    destruct (statuses r1 !! n) as [[]|], (statuses r2 !! n) as [[]|], (statuses r3 !! n) as [[]|]; done.
Qed.

Lemma set_status_le run n s t :
  statuses run !! n = Some s → status_le s t = true → run_le run (set_status n t run).
Proof.
  intros Hn Hst. split; [done|]. intros m. simpl. destruct (decide (n = m)) as [<-|Hne].
  - by rewrite lookup_insert_eq, Hn.
  - rewrite lookup_insert_ne by done. by destruct (statuses run !! m) as [[]|].
Qed.

(** The shape shared by the four [mark_*] operations. *)
Lemma mark_running_spec n run :
  mark_running n run =
  if bool_decide (statuses run !! n = Some Pending) then (true, set_status n Running run) else (false, run).
Proof. done. Qed.

Lemma mark_cases (mark : M PipelineRun bool) n run :
  mark = mark_running n ∨ mark = mark_success n ∨ mark = mark_failed n ∨ mark = mark_dispatch_failed n →
  (mark run = (false, run)) ∨
  ∃ s t, statuses run !! n = Some s ∧ is_terminal s = false ∧ s ≠ t ∧ status_le s t = true ∧
    mark run = (true, set_status n t run).
Proof.
  unfold mark_running, mark_success, mark_failed, mark_dispatch_failed.
  intros [->|[->|[->| ->]]]; cbv beta;
    (case_bool_decide || destruct (statuses run !! n) as [[]|] eqn:?);
    first [by left|right; eexists _, _; (split_and!; [first [eassumption|reflexivity]| | | |reflexivity]); done].
Qed.

Lemma mark_le (mark : M PipelineRun bool) n run :
  mark = mark_running n ∨ mark = mark_success n ∨ mark = mark_failed n ∨ mark = mark_dispatch_failed n →
  run_le run (mark run).2.
Proof.
  intros Hm. destruct (mark_cases mark n run Hm) as [->|(s & t & ? & _ & _ & ? & ->)]; [done|].
  by eapply set_status_le.
Qed.
Lemma mark_running_le n run : run_le run (mark_running n run).2.
Proof. apply (mark_le _ n); auto. Qed.
Lemma mark_success_le n run : run_le run (mark_success n run).2.
Proof. apply (mark_le _ n); auto. Qed.
Lemma mark_failed_le n run : run_le run (mark_failed n run).2.
Proof. apply (mark_le _ n); auto. Qed.
Lemma mark_dispatch_failed_le n run : run_le run (mark_dispatch_failed n run).2.
Proof. apply (mark_le _ n); auto. Qed.

Lemma run_le_wf r1 r2 : run_le r1 r2 → run_wf r1 → run_wf r2.
Proof.
  unfold run_wf. intros [Hd Hs] Hwf. rewrite Hd, <-Hwf. apply set_eq. intros n.
  rewrite !elem_of_dom. specialize (Hs n).
  destruct (statuses r1 !! n), (statuses r2 !! n); naive_solver.
Qed.
Lemma run_le_acyclic rank r1 r2 : run_le r1 r2 → acyclic_by rank r1 → acyclic_by rank r2.
Proof. intros [Hd _] Ha n deps d. rewrite Hd. apply Ha. Qed.
Lemma run_le_closed r1 r2 : run_le r1 r2 → run_closed r1 → run_closed r2.
Proof.
  intros [Hd Hs] Hc n deps d. rewrite Hd. intros Hn Hin. destruct (Hc n deps d Hn Hin) as [s Hsd].
  specialize (Hs d). rewrite Hsd in Hs. destruct (statuses r2 !! d); [by eexists|done].
Qed.

Lemma run_le_terminal r1 r2 n s :
  run_le r1 r2 → statuses r1 !! n = Some s → is_terminal s = true → statuses r2 !! n = Some s.
Proof.
  intros [_ Hs] Hn Ht. specialize (Hs n). rewrite Hn in Hs.
  destruct s, (statuses r2 !! n) as [[]|]; done.
Qed.

Lemma new_run_wf nodes : run_wf (new_run nodes).
Proof. unfold run_wf. simpl. by rewrite !collect_map_dom. Qed.
Lemma new_run_pending nodes n s : statuses (new_run nodes) !! n = Some s → s = Pending.
Proof. simpl. by intros (? & _ & _ & <-)%collect_map_lookup_Some. Qed.

(** Removing the weight of one node. *)
Lemma run_weight_set run n s t :
  statuses run !! n = Some s →
  run_weight (set_status n t run) + status_weight s = run_weight run + status_weight t.
Proof.
  intros Hn. unfold run_weight. simpl. rewrite <-(insert_delete_id (statuses run) n s) at 2 by done.
  rewrite <-insert_delete_eq.
  assert (∀ u, map_fold (λ _ s acc, status_weight s + acc) 0 (<[n := u]> (delete n (statuses run))) =
    status_weight u + map_fold (λ _ s acc, status_weight s + acc) 0 (delete n (statuses run))) as Hf.
  { intros u. apply (map_fold_insert_L (λ _ s acc, status_weight s + acc) 0); [|apply lookup_delete_eq].
    intros. lia. }
  rewrite !Hf. lia.
Qed.

Lemma mark_failed_weight n run :
  (mark_failed n run).1 = true → run_weight (mark_failed n run).2 < run_weight run.
Proof.
  unfold mark_failed. destruct (statuses run !! n) as [[]|] eqn:Hn; simpl; try done; intros _;
    pose proof (run_weight_set run n _ Failed Hn); simpl in *; lia.
Qed.

Lemma complete_blocked `{HashOrder} rank run n :
  acyclic_by rank run → run_wf run → run_closed run → is_complete run = true →
  statuses run !! n = Some Pending → BlockedByFailure run n.
Proof.
  intros Hac Hwf Hcl [Hnr Hnp]%is_complete_iff. remember (rank n) as k eqn:Hk. revert n Hk.
  induction k as [k IH] using lt_wf_ind. intros n -> Hn.
  assert (is_Some (dependencies run !! n)) as [deps Hdeps].
  { apply elem_of_dom. rewrite <-Hwf. apply elem_of_dom. eauto. }
  pose proof (Hnp n Hn) as Hunsat. unfold deps_satisfied in Hunsat. rewrite Hdeps in Hunsat.
  apply bool_decide_eq_false, not_set_Forall_Exists in Hunsat; [|apply _].
  destruct Hunsat as (d & Hd & Hs). destruct (Hcl n deps d Hdeps Hd) as [s Hsd].
  destruct s.
  - eapply blocked_above; [done..|]. eapply IH; [by eapply Hac|done|done].
  - by apply Hnr in Hsd.
  - done.
  - by eapply blocked_here.
Qed.

(** ** Properties *)

(** The scheduler's state machine: each [mark_*] operation either reports
    [false] and changes nothing or moves its one node forward along
    Pending, Running, then Success or Failed, and touches no other node; a terminal status never changes
    and the graph is fixed. *)
Theorem mark_transitions (mark : M PipelineRun bool) n run :
  mark = mark_running n ∨ mark = mark_success n ∨ mark = mark_failed n ∨ mark = mark_dispatch_failed n →
  run_le run (mark run).2 ∧
  ((mark run).1 = true ↔ (mark run).2 ≠ run) ∧
  (∀ m, m ≠ n → statuses (mark run).2 !! m = statuses run !! m) ∧
  (∀ s, statuses run !! n = Some s → is_terminal s = true → (mark run).1 = false).
Proof.
  intros Hm. split; [by apply (mark_le _ n)|].
  destruct (mark_cases mark n run Hm) as [->|(s & t & Hn & Hns & Hne & _ & ->)]; simpl.
  { naive_solver. }
  split_and!.
  - split; [|done]. intros _ Heq. assert (statuses (set_status n t run) !! n = Some s) as Ht by by rewrite Heq.
    simpl in Ht. rewrite lookup_insert_eq in Ht. congruence.
  - intros m ?. by rewrite lookup_insert_ne.
  - intros s' ? Hs'. simplify_eq. congruence.
Qed.

Example mark_transitions_witness :
  let run := mkRun {["build" := Pending]} {["build" := ∅]} in
  (mark_success "build" run).1 = true ∧ run_le run (mark_success "build" run).2.
Proof.
  intros run. split; [reflexivity|].
  exact (proj1 (mark_transitions (mark_success "build") "build" run (or_intror (or_introl eq_refl)))).
Defined.

(** The coordinator's completion test on the live run and the store's
    terminal test on the state saved from it agree, so a run the coordinator
    calls complete is what the reaper sweeps as terminal, and conversely. *)
Theorem complete_agrees_with_store `{HashOrder} run version p :
  run_wf run → run_state_is_terminal (to_run_state run version p) = is_complete run.
Proof.
  intros Hwf. apply eq_iff_eq_true. rewrite terminal_iff, is_complete_iff. simpl.
  apply and_iff_compat_l. split.
  - intros Hall n Hn.
    assert (is_Some (dependencies run !! n)) as [deps Hdeps].
    { apply elem_of_dom. rewrite <-Hwf. apply elem_of_dom. eauto. }
    destruct (Hall n (hash_set_iter deps)) as (d & Hd & Hs); [by rewrite lookup_fmap, Hdeps|done|].
    apply not_true_iff_false. rewrite deps_satisfied_true. intros Hsat.
    apply Hs. eapply Hsat; [done|]. by apply elem_of_hash_set_iter.
  - intros Hall n l Hl Hn. apply lookup_fmap_Some in Hl as (deps & <- & Hdeps).
    specialize (Hall n Hn). unfold deps_satisfied in Hall. rewrite Hdeps in Hall.
    apply bool_decide_eq_false, not_set_Forall_Exists in Hall; [|apply _].
    destruct Hall as (d & Hd & Hs). exists d. by rewrite elem_of_hash_set_iter.
Qed.

Example complete_agrees_with_store_witness :
  let run := mkRun {["build" := Failed; "test" := Pending]} {["build" := ∅; "test" := {["build"]}]} in
  run_wf run ∧ run_state_is_terminal (@to_run_state canonical_order run 3 (sample_pipeline [])) =
    @is_complete canonical_order run.
Proof.
  intros run. assert (run_wf run) as Hwf by (unfold run_wf; vm_compute; reflexivity).
  split; [exact Hwf|]. exact (@complete_agrees_with_store canonical_order run 3 (sample_pipeline []) Hwf).
Defined.

(** C38: on an acyclic, closed graph a run is never abandoned half way: when
    it is complete, every node has succeeded, has failed, or waits, directly or
    through other waiting nodes, for a node that failed; with no failure every
    node has succeeded. *)
Theorem complete_run_outcomes `{HashOrder} rank run n s :
  acyclic_by rank run → run_wf run → run_closed run → is_complete run = true →
  statuses run !! n = Some s →
  s = Success ∨ s = Failed ∨ (s = Pending ∧ BlockedByFailure run n ∧ ∃ d, statuses run !! d = Some Failed).
Proof.
  intros Hac Hwf Hcl Hc Hn. destruct s; [|by apply is_complete_iff in Hc as [? _]; naive_solver|by left|by right; left].
  right; right. assert (BlockedByFailure run n) as Hb by by eapply complete_blocked.
  split_and!; [done..|]. clear Hn. induction Hb; eauto.
Qed.

Example complete_run_outcomes_witness :
  let run := mkRun {["build" := Failed; "test" := Pending]} {["build" := ∅; "test" := {["build"]}]} in
  let rank n := if str_eqb n "test" then 1 else 0 in
  @is_complete canonical_order run = true ∧
  (Pending = Success ∨ Pending = Failed ∨ (Pending = Pending ∧ BlockedByFailure run "test" ∧
    ∃ d, statuses run !! d = Some Failed)).
Proof.
  intros run rank.
  assert (acyclic_by rank run) as Hac.
  { intros n deps d Hn Hd.
    change (dependencies run) with ({["build" := ∅; "test" := {["build"]}]} : gmap string (gset string)) in Hn.
    apply lookup_insert_Some in Hn as [[<- <-]|[_ Hn]]; [by apply elem_of_empty in Hd|].
    apply lookup_singleton_Some in Hn as [<- <-]. apply elem_of_singleton in Hd as ->.
    vm_compute. constructor. }
  assert (run_wf run) as Hwf by (unfold run_wf; vm_compute; reflexivity).
  assert (run_closed run) as Hcl.
  { intros n deps d Hn Hd.
    change (dependencies run) with ({["build" := ∅; "test" := {["build"]}]} : gmap string (gset string)) in Hn.
    apply lookup_insert_Some in Hn as [[<- <-]|[_ Hn]]; [by apply elem_of_empty in Hd|].
    apply lookup_singleton_Some in Hn as [<- <-]. apply elem_of_singleton in Hd as ->.
    exists Failed. reflexivity. }
  assert (@is_complete canonical_order run = true) as Hc by (vm_compute; reflexivity).
  split; [exact Hc|].
  exact (@complete_run_outcomes canonical_order rank run "test" Pending Hac Hwf Hcl Hc eq_refl).
Defined.

(** Nothing rejects a dependency cycle: a document whose nodes depend on
    each other passes validation, and its run is complete before anything is
    dispatched, with every node still pending. *)
Theorem cyclic_document_completes_unrun `{HashOrder} :
  ∃ p, validate p = Ok p ∧ pl_nodes p ≠ [] ∧
    is_complete (new_run (node_info p)) = true ∧
    ∀ n s, statuses (new_run (node_info p)) !! n = Some s → s = Pending.
Proof.
  exists (sample_pipeline [sample_node "a" ["b"] ∅; sample_node "b" ["a"] ∅]). split_and!.
  - apply validate_ok_steps. split_and!; [done|vm_compute; reflexivity..| |vm_compute; reflexivity].
    apply validate_volumes_ok. intros n Hn.
    assert (pn_volumes n = ∅) as -> by (repeat (apply elem_of_cons in Hn as [->|Hn]; [done|]); by apply elem_of_nil in Hn).
    split; intros *; by rewrite lookup_empty.
  - done.
  - apply is_complete_iff. split; [by intros n Hn%new_run_pending|].
    intros n Hn%mk_is_Some%collect_map_lookup_is_Some.
    repeat (apply elem_of_cons in Hn as [->|Hn]; [vm_compute; reflexivity|]). by apply elem_of_nil in Hn.
  - apply new_run_pending.
Qed.

(** Saving a run and resuming from the saved state gives back the same
    run, whatever the iteration order of the dependency sets. *)
Theorem run_state_round_trip `{HashOrder} run version p :
  from_run_state (to_run_state run version p) = run.
Proof.
  destruct run as [sts deps]. unfold from_run_state, to_run_state. simpl. f_equal.
  rewrite <-map_fmap_compose. transitivity (id <$> deps); [|apply map_fmap_id].
  apply map_fmap_ext. intros n d _. simpl. apply set_eq. intros x.
  by rewrite elem_of_list_to_set, elem_of_hash_set_iter.
Qed.

(** Nothing rejects two nodes of one name either: such a document is accepted,
    the run keeps one status under the name, and the map by which the
    coordinator finds what to run has the later node only. *)
Theorem duplicate_names_drop_a_node `{HashOrder} :
  ∃ p first second, validate p = Ok p ∧ pl_nodes p = [first; second] ∧ pn_steps first ≠ pn_steps second ∧
    size (statuses (new_run (node_info p))) = 1 ∧
    collect_map ni_name id (node_info p) = {[pn_name first := node_info_of p second]}.
Proof.
  set (node step := mkNode "a" None None None None [] ∅ (mkSecrets [] []) [Inline step] false None None None ∅).
  set (p := sample_pipeline [node "make"; node "make deploy"]). exists p, (node "make"), (node "make deploy"). split_and!.
  - apply validate_ok_steps. split_and!; [done|vm_compute; reflexivity..| |vm_compute; reflexivity].
    apply validate_volumes_ok. intros n Hn.
    assert (pn_volumes n = ∅) as -> by (repeat (apply elem_of_cons in Hn as [->|Hn]; [done|]); by apply elem_of_nil in Hn).
    split; intros *; by rewrite lookup_empty.
  - done.
  - done.
  - vm_compute. reflexivity.
  - unfold collect_map. cbn [node_info fmap list_fmap pl_nodes p sample_pipeline foldl]. cbn [node_info_of ni_name pn_name node id].
    by rewrite insert_insert_eq.
Qed.
