(* ===== verification/SourceManager.v ===== *)
(** * Source and status objects in S3

    Models [coordinator/src/source_manager.rs]: the object keys of a run, the
    multipart upload of the source tarball, the reading of node status and log
    objects and the cleanup of a run.  The S3 client and the JSON decoder are
    parameters. *)

From S2P Require Import Prelude.

(** ** Data *)

Inductive SourceError : Type :=
| Download (msg : string)
| S3Error (msg : string)
| Presign (msg : string)
| NotFound (msg : string).

Definition source_error_to_string (e : SourceError) : string :=
  match e with
  | Download m => "GitHub tarball download failed: " +:+ m
  | S3Error m => "S3 operation failed: " +:+ m
  | Presign m => "Presign configuration error: " +:+ m
  | NotFound m => "Status not found: " +:+ m
  end.

Record NodeOutcome : Type := mkOutcome {
  no_success : option bool;
  no_started_at : option Z;
  no_finished_at : option Z;
}.

Inductive ReconcileResult : Type :=
| Completed (success : bool) (started_at_ms : option Z) (finished_at_ms : Z)
| InProgress (started_at_ms : Z)
| StillRunning
| TransientReadError (msg : string).

(** [ReconcileResult::from(&NodeOutcome)] *)
Definition reconcile_from (outcome : NodeOutcome) : ReconcileResult :=
  match no_success outcome, no_finished_at outcome, no_started_at outcome with
  | Some success, Some finished_at_ms, started_at_ms => Completed success started_at_ms finished_at_ms
  | _, _, Some started_at_ms => InProgress started_at_ms
  | _, _, _ => StillRunning
  end.

(** ** Keys *)

Definition PRESIGN_EXPIRES_SECS : Z := 43200.
Definition PART_SIZE : Z := 8 * 1024 * 1024.
#[global] Arguments PART_SIZE : simpl never.

Definition source_key (run_id : string) : string := "runs/" +:+ run_id +:+ "/source.tar.gz".
Definition status_key (run_id node_name : string) : string :=
  "runs/" +:+ run_id +:+ "/nodes/" +:+ node_name +:+ "/status.json".
Definition logs_key (run_id node_name : string) : string :=
  "runs/" +:+ run_id +:+ "/nodes/" +:+ node_name +:+ "/output.log".
Definition run_prefix (run_id : string) : string := "runs/" +:+ run_id +:+ "/".

(** ** The S3 client *)

Record CompletedPart : Type := mkPart { e_tag : string; part_number : Z }.

Inductive GetObject : Type :=
| ObjectBody (body : result string (list ascii))
| NoSuchKey
| GetFailed (msg : string).

Inductive HeadBucket : Type :=
| BucketFound
| BucketNotFound
| HeadFailed (msg : string).

Record LifecycleRule : Type := mkRule { lr_id : string; lr_prefix : string; lr_days : Z }.

Class S3Client (B : Type) : Type := {
  s3_create_multipart_upload : string → M B (result string (option string));
  s3_upload_part : string → string → Z → list ascii → M B (result string (option string));
  s3_complete_multipart_upload : string → string → list CompletedPart → M B (result string unit);
  s3_abort_multipart_upload : string → string → M B (result string unit);
  s3_get_object : string → M B GetObject;
  s3_list_objects_v2 : string → M B (result string (list (option string)));
  s3_delete_objects : list string → M B (result string unit);
  presigning_expires_in : Z → result string Z;
  s3_presigned_get : string → Z → result string string;
  s3_presigned_put : string → option string → Z → result string string;
  s3_head_bucket : M B HeadBucket;
  s3_create_bucket : M B (result string unit);
  s3_put_bucket_lifecycle : LifecycleRule → M B (result string unit);
}.

(** A frame of the download body; the end of the list is the end of the body. *)
Inductive Frame : Type :=
| DataFrame (chunk : list ascii)
| TrailersFrame
| FrameError (msg : string).

(** The client, and what it has accepted: parts of uploads, and the completion of
    uploads. The two lists are not part of the program; they are there for the
    theorems. *)
Record SentPart : Type := mkSent { sp_key : string; sp_upload_id : string; sp_number : Z; sp_data : list ascii }.
Record CompletedUpload : Type := mkCompleted { cu_key : string; cu_upload_id : string; cu_parts : list CompletedPart }.
Record Upload (B : Type) : Type := mkUpload {
  up_client : B; up_parts : list SentPart; up_completed : list CompletedUpload }.
Arguments mkUpload {B}. Arguments up_client {B}. Arguments up_parts {B}. Arguments up_completed {B}.

(** A call of the client that is neither. *)
Definition with_client {B} (c : B) (u : Upload B) : Upload B := mkUpload c (up_parts u) (up_completed u).

Section operations.
Context {B : Type} `{S3Client B}.
Variable from_slice : list ascii → result string NodeOutcome.
Variable from_utf8_lossy : list ascii → string.

Definition byte_len (l : list ascii) : Z := Z.of_nat (length l).

(** The inner loop: read frames until a full part is buffered ([false]) or the
    body ends ([true]). *)
Fixpoint fill_buffer (buffer : list ascii) (frames : list Frame)
  : result SourceError (bool * list ascii * list Frame) :=
  if (PART_SIZE <=? byte_len buffer)%Z then Ok (false, buffer, frames)
  else match frames with
       | [] => Ok (true, buffer, [])
       | DataFrame chunk :: frames => fill_buffer (buffer ++ chunk) frames
       | TrailersFrame :: frames => fill_buffer buffer frames
       | FrameError e :: _ => Err (Download e)
       end.

(** The outer loop; [None] is running out of fuel. *)
Fixpoint upload_loop (fuel : nat) (key upload_id : string) (buffer : list ascii) (frames : list Frame)
    (number : Z) (parts : list CompletedPart)
  : M (Upload B) (option (result SourceError (list CompletedPart))) := λ u,
  match fuel with
  | 0 => (None, u)
  | S fuel =>
      match fill_buffer buffer frames with
      | Err e => (Some (Err e), u)
      | Ok (body_done, buffer, frames) =>
          match buffer with
          | [] => (Some (Ok parts), u)
          | _ =>
              let '(part_vec, buffer) :=
                if (PART_SIZE <? byte_len buffer)%Z
                then (take (Z.to_nat PART_SIZE) buffer, drop (Z.to_nat PART_SIZE) buffer)
                else (buffer, []) in
              let '(r, client) := s3_upload_part key upload_id number part_vec (up_client u) in
              match r with
              | Err e => (Some (Err (S3Error e)), with_client client u)
              | Ok tag =>
                  let u := mkUpload client (up_parts u ++ [mkSent key upload_id number part_vec]) (up_completed u) in
                  let parts := parts ++ [mkPart (default "" tag) number] in
                  if (body_done : bool) then (Some (Ok parts), u)
                  else upload_loop fuel key upload_id buffer frames (number + 1)%Z parts u
              end
          end
      end
  end.

Definition frame_data (f : Frame) : list ascii :=
  match f with DataFrame chunk => chunk | _ => [] end.
Definition body_data (frames : list Frame) : list ascii := frames ≫= frame_data.

(** One iteration per byte of the body is more than enough. *)
Definition upload_parts (key upload_id : string) (frames : list Frame)
  : M (Upload B) (option (result SourceError (list CompletedPart))) :=
  upload_loop (S (length (body_data frames))) key upload_id [] frames 1 [].

(** [upload_source], from the response body of the tarball download on. *)
Definition upload_source (run_id : string) (download : result string (list Frame))
  : M (Upload B) (option (result SourceError unit)) := λ u,
  match download with
  | Err e => (Some (Err (Download e)), u)
  | Ok frames =>
      let key := source_key run_id in
      let '(r, c) := s3_create_multipart_upload key (up_client u) in
      let u := with_client c u in
      match r with
      | Err e => (Some (Err (S3Error e)), u)
      | Ok None => (Some (Err (S3Error "S3 did not return an upload ID")), u)
      | Ok (Some upload_id) =>
          let '(r, u) := upload_parts key upload_id frames u in
          match r with
          | None => (None, u)
          | Some (Ok parts) =>
              let '(r, c) := s3_complete_multipart_upload key upload_id parts (up_client u) in
              (Some (map_err S3Error r),
               mkUpload c (up_parts u) (up_completed u ++ (if is_ok r then [mkCompleted key upload_id parts] else [])))
          | Some (Err e) =>
              let '(_, c) := s3_abort_multipart_upload key upload_id (up_client u) in
              (Some (Err e), with_client c u)
          end
      end
  end.

Definition get_node_status (run_id node_name : string) : M B (result SourceError NodeOutcome) := λ b,
  let '(r, b) := s3_get_object (status_key run_id node_name) b in
  (match r with
   | NoSuchKey => Err (NotFound ("run=" +:+ run_id +:+ " node=" +:+ node_name))
   | GetFailed e => Err (S3Error e)
   | ObjectBody (Err e) => Err (S3Error e)
   | ObjectBody (Ok bs) => map_err S3Error (from_slice bs)
   end, b).

Definition sm_get_node_log (run_id node_name : string) : M B (result SourceError (option string)) := λ b,
  let '(r, b) := s3_get_object (logs_key run_id node_name) b in
  (match r with
   | NoSuchKey => Ok None
   | GetFailed e => Err (S3Error e)
   | ObjectBody (Err e) => Err (S3Error e)
   | ObjectBody (Ok bs) => Ok (Some (from_utf8_lossy bs))
   end, b).

Definition read_one_outcome (run_id node_name : string) : M B ReconcileResult := λ b,
  let '(r, b) := get_node_status run_id node_name b in
  (match r with
   | Ok outcome => reconcile_from outcome
   | Err (NotFound _) => StillRunning
   | Err e => TransientReadError (source_error_to_string e)
   end, b).

(** The concurrent reads, in the order they complete. *)
Fixpoint sm_read_outcomes (run_id : string) (nodes : list string) : M B (gmap string ReconcileResult) :=
  match nodes with
  | [] => mret ∅
  | node_name :: nodes =>
      result ← read_one_outcome run_id node_name;
      rest ← sm_read_outcomes run_id nodes;
      mret (<[node_name := result]> rest)
  end.

Definition sm_cleanup_run (run_id : string) : M B (result SourceError unit) := λ b,
  let '(listed, b) := s3_list_objects_v2 (run_prefix run_id) b in
  match listed with
  | Err e => (Err (S3Error e), b)
  | Ok contents =>
      match omap id contents with
      | [] => (Ok (), b)
      | identifiers =>
          let '(r, b) := s3_delete_objects identifiers b in (map_err S3Error r, b)
      end
  end.

(** Presigned URLs. *)
Definition presign_config : result SourceError Z := map_err Presign (presigning_expires_in PRESIGN_EXPIRES_SECS).

Definition get_source_url (run_id : string) : result SourceError string :=
  config ← presign_config; map_err Presign (s3_presigned_get (source_key run_id) config).
Definition put_status_url (run_id node_name : string) : result SourceError string :=
  config ← presign_config; map_err Presign (s3_presigned_put (status_key run_id node_name) None config).
Definition put_logs_url (run_id node_name : string) : result SourceError string :=
  config ← presign_config; map_err Presign (s3_presigned_put (logs_key run_id node_name) (Some "text/plain") config).

(** [a.div_ceil(b)] *)
Definition div_ceil (a b : Z) : Z := ((a + b - 1) / b)%Z.
Definition expiration_rule : LifecycleRule :=
  mkRule "run-artifact-expiration" "runs/" (div_ceil PRESIGN_EXPIRES_SECS 86400).
(** The rule has the fields that its builder requires. *)
Definition apply_lifecycle_policy : M B (result SourceError unit) :=
  r ← s3_put_bucket_lifecycle expiration_rule; mret (map_err S3Error r).

Definition sm_ping : M B (result SourceError unit) :=
  head ← s3_head_bucket;
  match head with
  | BucketFound => apply_lifecycle_policy
  | BucketNotFound =>
      r ← s3_create_bucket;
      match r with
      | Ok _ => apply_lifecycle_policy
      | Err e => mret (Err (S3Error e))
      end
  | HeadFailed e => mret (Err (S3Error e))
  end.
End operations.

(** ** Specification of a part list *)

(** Parts numbered from [first]; every part but the last is full, the last is
    not empty and not larger than a part. *)
Inductive PartsFrom : Z → list (Z * list ascii) → Prop :=
| parts_none first : PartsFrom first []
| parts_last first body :
    (0 < byte_len body <= PART_SIZE)%Z → PartsFrom first [(first, body)]
| parts_full first body rest :
    byte_len body = PART_SIZE → rest ≠ [] → PartsFrom (first + 1) rest → PartsFrom first ((first, body) :: rest).

(** ** Lemmas *)
Lemma byte_len_app a b : byte_len (a ++ b) = (byte_len a + byte_len b)%Z.
Proof. unfold byte_len. rewrite length_app. lia. Qed.

Lemma fill_buffer_spec buffer frames :
  match fill_buffer buffer frames with
  | Ok (body_done, buffer', frames') =>
      buffer' ++ body_data frames' = buffer ++ body_data frames ∧
      (if body_done then frames' = [] ∧ (byte_len buffer' < PART_SIZE)%Z else (PART_SIZE <= byte_len buffer')%Z)
  | Err e => ∃ msg, e = Download msg ∧ FrameError msg ∈ frames
  end.
Proof.
  revert buffer; induction frames as [|f frames IH]; intros buffer; simpl;
    destruct (Z.leb_spec PART_SIZE (byte_len buffer)); [done|done|done|].
  destruct f as [chunk| |msg]; simpl.
  - specialize (IH (buffer ++ chunk)).
    destruct (fill_buffer (buffer ++ chunk) frames) as [[[[] b'] fr']|e];
      [by rewrite (assoc_L (++))..|]. destruct IH as (msg & -> & ?). exists msg. set_solver.
  - specialize (IH buffer). destruct (fill_buffer buffer frames) as [[[[] b'] fr']|e]; [done..|].
    destruct IH as (msg & -> & ?). exists msg. set_solver.
  - exists msg. set_solver.
Qed.

Lemma part_size_pos : (0 < PART_SIZE)%Z.
Proof. done. Qed.
#[local] Strategy opaque [PART_SIZE].

(** What the outer loop appends to the accepted parts. *)
Lemma upload_loop_spec {B} `{S3Client B} fuel key id buffer frames number parts (u : Upload B) :
  (length (buffer ++ body_data frames) < fuel) →
  match upload_loop fuel key id buffer frames number parts u with
  | (None, _) => False
  | (Some (Err _), _) => True
  | (Some (Ok parts'), u') =>
      ∃ sent, up_parts u' = up_parts u ++ (uncurry (mkSent key id) <$> sent) ∧ up_completed u' = up_completed u ∧
        PartsFrom number sent ∧ concat sent.*2 = buffer ++ body_data frames ∧
        part_number <$> parts' = (part_number <$> parts) ++ sent.*1
  end.
Proof.
  pose proof part_size_pos as Hpos.
  revert buffer frames number parts u; induction fuel as [|fuel IH]; intros buffer frames number parts u Hfuel;
    simpl; [lia|].
  pose proof (fill_buffer_spec buffer frames) as Hfill.
  destruct (fill_buffer buffer frames) as [[[body_done buf] fr]|e]; [|done].
  destruct Hfill as [Hcat Hdone]. rewrite <-Hcat in *. clear Hcat buffer frames.
  destruct buf as [|b0 buf0] eqn:Hbuf.
  { destruct body_done; [|change (byte_len []) with 0%Z in Hdone; lia]. destruct Hdone as [-> _].
    exists []. split_and!; [by rewrite app_nil_r|done|constructor|done|by rewrite app_nil_r]. }
  rewrite <-Hbuf in *. assert (0 < byte_len buf)%Z as Hne by (subst buf; unfold byte_len; simpl; lia).
  clear Hbuf b0 buf0. destruct (Z.ltb_spec PART_SIZE (byte_len buf)) as [Hbig|Hsmall].
  - destruct body_done; [lia|]. destruct (s3_upload_part _ _ _ _ _) as [[tag|e] client]; [|done].
    set (hd := take (Z.to_nat PART_SIZE) buf). set (tl := drop (Z.to_nat PART_SIZE) buf).
    assert (buf = hd ++ tl) as Hsplit by (symmetry; apply take_drop).
    assert (byte_len hd = PART_SIZE) as Hhd.
    { unfold byte_len, hd in *. rewrite length_take. lia. }
    match goal with |- context [upload_loop fuel _ _ tl fr ?n ?p ?v] => specialize (IH tl fr n p v) end.
    destruct (upload_loop fuel _ _ _ _ _ _ _) as [[[parts'|e]|] u']; [|done|].
    + destruct IH as (sent & Hup & Hdone' & Hparts & Hcat & Hnum).
      { rewrite Hsplit, <-(assoc_L (++)), length_app in Hfuel. unfold byte_len in Hhd. lia. }
      exists ((number, hd) :: sent). rewrite !fmap_cons; cbn [concat fst snd up_parts up_completed part_number uncurry] in *. split_and!.
      * by rewrite Hup, <-(assoc_L (++)).
      * done.
      * constructor; [done| |done]. intros ->. simpl in Hcat. symmetry in Hcat.
        apply app_eq_nil in Hcat as [Htl _]. rewrite Hsplit, Htl, app_nil_r in Hbig. lia.
      * by rewrite Hcat, (assoc_L (++)), <-Hsplit.
      * by rewrite Hnum, fmap_app, <-(assoc_L (++)).
    + apply IH. rewrite Hsplit, <-(assoc_L (++)), length_app in Hfuel. unfold byte_len in Hhd. lia.
  - destruct (s3_upload_part _ _ _ _ _) as [[tag|e] client]; [|done]. destruct body_done.
    + destruct Hdone as [-> _]. exists [(number, buf)]. simpl. rewrite fmap_app, !app_nil_r.
      split_and!; [done|done|by constructor|done..].
    + match goal with |- context [upload_loop fuel _ _ [] fr ?n ?p ?v] => specialize (IH [] fr n p v) end.
      destruct (upload_loop fuel _ _ _ _ _ _ _) as [[[parts'|e]|] u']; [|done|].
      * destruct IH as (sent & Hup & Hdone' & Hparts & Hcat & Hnum).
        { rewrite length_app in Hfuel. unfold byte_len in Hne. simpl. lia. }
        exists ((number, buf) :: sent). rewrite !fmap_cons; cbn [concat fst snd up_parts up_completed part_number uncurry] in *. split_and!.
        -- by rewrite Hup, <-(assoc_L (++)).
        -- done.
        -- destruct sent as [|p sent]; [by constructor|]. constructor; [lia|done|done].
        -- by rewrite Hcat.
        -- by rewrite Hnum, fmap_app, <-(assoc_L (++)).
      * apply IH. rewrite length_app in Hfuel. unfold byte_len in Hne. simpl. lia.
Qed.

(** Keys: a run id without a slash is recovered from any key of the run. *)
Lemma runs_key_inj r1 r2 t1 t2 :
  "/"%char ∉ bytes r1 → "/"%char ∉ bytes r2 →
  "runs/" +:+ r1 +:+ "/" +:+ t1 = "runs/" +:+ r2 +:+ "/" +:+ t2 → r1 = r2 ∧ t1 = t2.
Proof.
  intros H1 H2 Heq. apply (inj (String.append "runs/")) in Heq.
  apply (f_equal (split_once "/")) in Heq.
  assert (∀ r t, "/"%char ∉ bytes r → split_once "/" (r +:+ "/" +:+ t) = Some (r, t)) as Hsplit.
  { intros r t. induction r as [|c r IH]; intros Hr; [done|].
    assert ("/"%char ≠ c ∧ "/"%char ∉ bytes r) as [Hc Hr'] by set_solver.
    change (String c r +:+ "/" +:+ t) with (String c (r +:+ "/" +:+ t)). simpl split_once.
    apply byte_eqb_false in Hc. by rewrite Hc, IH. }
  rewrite !Hsplit in Heq by done. by simplify_eq.
Qed.

Lemma status_logs_differ a b : a +:+ "/status.json" ≠ b +:+ "/output.log".
Proof.
  intros Heq. apply (f_equal (λ s, last (bytes s))) in Heq. rewrite !bytes_app, !last_app in Heq. done.
Qed.

(** ** Properties *)

(** C39: the multipart upload of the source tarball always terminates, and when
    it succeeds the parts S3 accepted are numbered consecutively from 1, every
    part but the last has exactly the part size (above S3's minimum), the last
    one is not empty, their concatenation is the downloaded body byte for byte,
    all of them were sent under the given key and upload id, and the completion
    request lists exactly those part numbers. *)
Theorem upload_parts_faithful {B} `{S3Client B} key id frames (u : Upload B) :
  match upload_parts key id frames u with
  | (None, _) => False
  | (Some (Err _), _) => True
  | (Some (Ok parts), u') =>
      ∃ sent, up_parts u' = up_parts u ++ (uncurry (mkSent key id) <$> sent) ∧ PartsFrom 1 sent ∧
        concat sent.*2 = body_data frames ∧ part_number <$> parts = sent.*1
  end.
Proof.
  unfold upload_parts. pose proof (upload_loop_spec (S (length (body_data frames))) key id [] frames 1 [] u) as Hs.
  destruct (upload_loop _ _ _ _ _ _ _ u) as [[[parts|e]|] u']; [|done|].
  - destruct Hs as (sent & ? & _ & ? & ? & ?); [simpl; lia|]. by exists sent.
  - apply Hs. simpl. lia.
Qed.

(** A status object reports completion only when it carries both the
    success flag and the finish time; otherwise a start time makes the node in
    progress, and neither makes it still running. *)
Theorem reconcile_from_spec outcome :
  (∀ success started finished, reconcile_from outcome = Completed success started finished ↔
     outcome = mkOutcome (Some success) started (Some finished)) ∧
  (∀ started, reconcile_from outcome = InProgress started ↔
     no_started_at outcome = Some started ∧ (no_success outcome = None ∨ no_finished_at outcome = None)) ∧
  (∀ msg, reconcile_from outcome ≠ TransientReadError msg).
Proof.
  destruct outcome as [[success|] [started|] [finished|]]; unfold reconcile_from; simpl;
    (split_and!; [intros s st f|intros st|intros msg]);
    repeat split; intros; simplify_eq; intuition congruence.
Qed.

(** The objects of different runs and nodes never share a key, for run
    ids without a slash (they are UUIDs), and every key of a run is under the
    prefix that its cleanup deletes, and under no other run's. *)
Theorem run_keys_separate r1 r2 n1 n2 :
  "/"%char ∉ bytes r1 → "/"%char ∉ bytes r2 →
  (status_key r1 n1 = status_key r2 n2 → r1 = r2 ∧ n1 = n2) ∧
  (logs_key r1 n1 = logs_key r2 n2 → r1 = r2 ∧ n1 = n2) ∧
  status_key r1 n1 ≠ logs_key r2 n2 ∧
  (∀ key, key ∈ [source_key r1; status_key r1 n1; logs_key r1 n1] →
     starts_with (run_prefix r2) key = true ↔ r1 = r2).
Proof.
  intros H1 H2. split_and!.
  - intros Heq. apply runs_key_inj in Heq as [-> Heq]; [|done..]. split; [done|].
    apply (inj (String.append "nodes/")) in Heq. by apply app_tail_inj in Heq.
  - intros Heq. apply runs_key_inj in Heq as [-> Heq]; [|done..]. split; [done|].
    apply (inj (String.append "nodes/")) in Heq. by apply app_tail_inj in Heq.
  - unfold status_key, logs_key. rewrite <-!str_app_assoc. apply status_logs_differ.
  - assert (∀ t, starts_with (run_prefix r2) ("runs/" +:+ r1 +:+ "/" +:+ t) = true ↔ r1 = r2) as Hpre.
    { intros t. rewrite starts_with_true. unfold run_prefix. split.
      - intros [t' Heq]. rewrite !str_app_assoc in Heq. by apply runs_key_inj in Heq as [-> _].
      - intros ->. exists t. by rewrite !str_app_assoc. }
    intros key Hin. repeat (apply elem_of_cons in Hin as [->|Hin]); [..|by apply elem_of_nil in Hin];
      apply Hpre.
Qed.

Example run_keys_separate_witness :
  ("/"%char ∉ bytes "run-1") ∧ starts_with (run_prefix "run-1") (status_key "run-1" "build") = true.
Proof.
  assert ("/"%char ∉ bytes "run-1") as H1 by (apply (bool_decide_unpack _); vm_compute; exact I).
  split; [exact H1|].
  refine (proj2 (proj2 (proj2 (proj2 (run_keys_separate "run-1" "run-1" "build" "build" H1 H1))) _ _) eq_refl).
  apply list_elem_of_further, list_elem_of_here.
Defined.
