(* ===== verification/PodWatcher.v ===== *)
(** * The pod watcher (coordinator/src/pod_watcher.rs)

    Classification of a Kubernetes pod's status into a signal for the
    coordinator, the watcher's own state and its command and event loop. The
    pod, container status and watch event types are the fields the code reads
    of the Kubernetes API objects; what the API server sends is the input of
    the loop. *)

From S2P Require Import Prelude.

(** ** Failure reasons *)

Inductive InfraFailureReason :=
| ImagePullFailed (image message : string)
| OOMKilled
| InitContainerFailed (name message : string)
| ContainerCreateError (msg : string)
| ContainerTerminated (exit_code : Z) (reason message : string)
| PodStartTimeout
| PodDeletedUnexpectedly
| NodeLost
| DispatchFailed (msg : string).

#[export] Instance infra_failure_reason_eq_dec : EqDecision InfraFailureReason.
Proof. solve_decision. Defined.

Definition stable_code (r : InfraFailureReason) : string :=
  match r with
  | ImagePullFailed _ _ => "ImagePullFailed"
  | OOMKilled => "OOMKilled"
  | InitContainerFailed _ _ => "InitContainerFailed"
  | ContainerCreateError _ => "ContainerCreateError"
  | ContainerTerminated _ _ _ => "ContainerTerminated"
  | PodStartTimeout => "PodStartTimeout"
  | PodDeletedUnexpectedly => "PodDeletedUnexpectedly"
  | NodeLost => "NodeLost"
  | DispatchFailed _ => "DispatchFailed"
  end.

Definition full_message (r : InfraFailureReason) : string :=
  match r with
  | ImagePullFailed image message => "Image '" +:+ image +:+ "' could not be pulled: " +:+ message
  | OOMKilled => "Container was killed for exceeding its memory limit (OOMKilled)"
  | InitContainerFailed name message => "Init container '" +:+ name +:+ "' failed: " +:+ message
  | ContainerCreateError msg => "Container could not be created: " +:+ msg
  | ContainerTerminated exit_code reason message =>
      let reason_part := if str_eqb reason "" then "" else " (" +:+ reason +:+ ")" in
      let message_part := if str_eqb message "" then "" else ": " +:+ message in
      "Container exited with code " +:+ pretty exit_code +:+ reason_part +:+ message_part
  | PodStartTimeout => "Pod did not enter the Running phase within the configured startup timeout"
  | PodDeletedUnexpectedly => "Pod was deleted while running"
  | NodeLost => "Cluster node was lost while the pod was running"
  | DispatchFailed msg => "Failed to dispatch node to Kubernetes: " +:+ msg
  end.

Definition user_message_from_code (code : string) : option string :=
  if str_eqb code "ImagePullFailed" then
    Some "Failed to pull the container image. Verify the image name, tag, and registry permissions."
  else if str_eqb code "OOMKilled" then
    Some "The container ran out of memory. Increase its memory limit or reduce its memory usage."
  else if str_eqb code "ContainerCreateError" then
    Some "The container could not be created. Check the pod configuration for invalid mounts, environment variables, or security settings."
  else if str_eqb code "ContainerTerminated" then
    Some "The container exited unexpectedly before reporting completion. Check the container's logs for the failure cause."
  else if str_eqb code "PodStartTimeout" then
    Some "The pod did not start in time. The cluster may be out of capacity, or the image may be very large."
  else if str_eqb code "DispatchFailed" then
    Some "Kubernetes rejected the Pod for this node. Check the node's resource limits, image, and any cluster admission policies (SCC, ResourceQuota, LimitRange)."
  else None.

Definition user_message (r : InfraFailureReason) : option string :=
  match r with
  | ImagePullFailed image _ =>
      Some ("Failed to pull image '" +:+ image +:+ "'. Verify the image name, tag, and registry permissions.")
  | DispatchFailed msg =>
      Some ("Kubernetes rejected the Pod for this node: " +:+ msg +:+
            ". Check the node's resource limits, image, and any cluster admission policies (SCC, ResourceQuota, LimitRange).")
  | OOMKilled | ContainerCreateError _ | PodStartTimeout => user_message_from_code (stable_code r)
  | ContainerTerminated exit_code _ _ =>
      Some ("The container exited unexpectedly with code " +:+ pretty exit_code +:+
            " before reporting completion. Check the container's logs for the failure cause.")
  | InitContainerFailed _ _ | PodDeletedUnexpectedly | NodeLost => None
  end.

(** ** Signals and commands *)

Inductive PodSignal :=
| PodRunning (node_name pod_uid : string)
| InfraFailure (node_name pod_uid : string) (reason : InfraFailureReason).

Definition signal_node_name (s : PodSignal) : string :=
  match s with PodRunning n _ | InfraFailure n _ _ => n end.
Definition signal_pod_uid (s : PodSignal) : string :=
  match s with PodRunning _ u | InfraFailure _ u _ => u end.

Inductive WatcherCommand :=
| ExpectDeletion (node_name : string)
| Shutdown.

(** ** The Kubernetes objects, as far as the watcher reads them *)

Record Waiting := mkWaiting { w_reason : option string; w_message : option string }.
Record Terminated := mkTerminated {
  t_exit_code : Z; t_reason : option string; t_message : option string }.
Record ContainerState := mkContainerState {
  waiting : option Waiting; terminated : option Terminated; running : option () }.
Record ContainerStatus := mkContainerStatus {
  cs_name : string; cs_image : string; cs_state : option ContainerState }.
Record PodStatus := mkPodStatus {
  init_container_statuses : option (list ContainerStatus);
  container_statuses : option (list ContainerStatus) }.
Record Pod := mkPod {
  annotations : option (gmap string string); uid : option string; pod_status : option PodStatus }.

Definition NODE_NAME_ANNOTATION : string := "the-conn.com/node-name".

Definition node_name_for (pod : Pod) : option string :=
  a ← annotations pod; a !! NODE_NAME_ANNOTATION.

Definition is_pull_failure (reason : string) : bool :=
  str_eqb reason "ImagePullBackOff" || str_eqb reason "ErrImagePull".
Definition is_create_failure (reason : string) : bool :=
  str_eqb reason "CreateContainerConfigError" || str_eqb reason "CreateContainerError".

(** The body of the loop over the init containers: what it returns for a
    container that has a state, or [None] to go on. *)
Definition init_verdict (cs : ContainerStatus) (state : ContainerState) : option InfraFailureReason :=
  let pull := match waiting state with
    | Some w =>
        let reason := default "" (w_reason w) in
        if is_pull_failure reason
        then Some (InitContainerFailed (cs_name cs) (reason +:+ ": " +:+ default "" (w_message w)))
        else None
    | None => None
    end in
  match pull with
  | Some r => Some r
  | None =>
      match terminated state with
      | Some t =>
          if (t_exit_code t =? 0)%Z then None
          else Some (InitContainerFailed (cs_name cs)
                 ("exit code " +:+ pretty (t_exit_code t) +:+ ": " +:+ default "" (t_message t)))
      | None => None
      end
  end.

(** The body of the loop over the main containers. *)
Definition main_verdict (node_name pod_uid : string) (cs : ContainerStatus) (state : ContainerState)
  : option PodSignal :=
  let failure r := Some (InfraFailure node_name pod_uid r) in
  let held := match waiting state with
    | Some w =>
        let reason := default "" (w_reason w) in
        let message := default "" (w_message w) in
        if is_pull_failure reason then failure (ImagePullFailed (cs_image cs) message)
        else if is_create_failure reason then failure (ContainerCreateError (reason +:+ ": " +:+ message))
        else None
    | None => None
    end in
  match held with
  | Some s => Some s
  | None =>
      let ended := match terminated state with
        | Some t =>
            if bool_decide (t_reason t = Some "OOMKilled") then failure OOMKilled
            else if (t_exit_code t =? 0)%Z then None
            else failure (ContainerTerminated (t_exit_code t) (default "" (t_reason t)) (default "" (t_message t)))
        | None => None
        end in
      match ended with
      | Some s => Some s
      | None => match running state with Some _ => Some (PodRunning node_name pod_uid) | None => None end
      end
  end.

(** [for cs in statuses { let state = cs.state.as_ref()?; .. }]: a container
    without a state ends the whole loop with [None]. *)
Fixpoint scan_containers {A} (verdict : ContainerStatus → ContainerState → option A)
    (statuses : list ContainerStatus) : option A :=
  match statuses with
  | [] => None
  | cs :: statuses =>
      state ← cs_state cs;
      match verdict cs state with Some a => Some a | None => scan_containers verdict statuses end
  end.

Definition classify_init_container_statuses (status : PodStatus) : option InfraFailureReason :=
  init_statuses ← init_container_statuses status;
  scan_containers init_verdict init_statuses.

Definition classify_main_container_statuses (status : PodStatus) (node_name pod_uid : string)
  : option PodSignal :=
  container_statuses ← container_statuses status;
  scan_containers (main_verdict node_name pod_uid) container_statuses.

Definition classify_pod (pod : Pod) : option PodSignal :=
  node_name ← node_name_for pod;
  pod_uid ← uid pod;
  status ← pod_status pod;
  match classify_init_container_statuses status with
  | Some reason => Some (InfraFailure node_name pod_uid reason)
  | None => classify_main_container_statuses status node_name pod_uid
  end.

(** ** The watcher's state *)

Definition REHYDRATION_SENTINEL_UID : string := "__rehydrated__".

Record WatcherState := mkWatcherState {
  reported_failure_uids : gmap string (gset string);
  reported_running_uids : gmap string (gset string);
  expected_deletions : gset string;
  seed_running : gset string;
  observed_during_init : gset string;
  presence_diff_emitted : bool;
}.

Definition seeded (running : gset string) : WatcherState :=
  mkWatcherState ∅ (gset_to_gmap {[REHYDRATION_SENTINEL_UID]} running) ∅ running ∅ false.

(** [map.entry(node).or_default().insert(uid)] *)
Definition report_uid (node_name pod_uid : string) (m : gmap string (gset string))
  : bool * gmap string (gset string) :=
  let uids := default ∅ (m !! node_name) in
  (bool_decide (pod_uid ∉ uids), <[node_name := {[pod_uid]} ∪ uids]> m).

Definition should_emit (signal : PodSignal) : M WatcherState bool := λ s,
  match signal with
  | PodRunning node_name pod_uid =>
      let '(fresh, m) := report_uid node_name pod_uid (reported_running_uids s) in
      (fresh, mkWatcherState (reported_failure_uids s) m (expected_deletions s) (seed_running s)
                (observed_during_init s) (presence_diff_emitted s))
  | InfraFailure node_name pod_uid _ =>
      let '(fresh, m) := report_uid node_name pod_uid (reported_failure_uids s) in
      (fresh, mkWatcherState m (reported_running_uids s) (expected_deletions s) (seed_running s)
                (observed_during_init s) (presence_diff_emitted s))
  end.

Definition was_running (s : WatcherState) (node_name : string) : bool :=
  match reported_running_uids s !! node_name with
  | Some uids => negb (bool_decide (uids = ∅))
  | None => false
  end.

Definition expect_deletion (node_name : string) (s : WatcherState) : WatcherState :=
  mkWatcherState (reported_failure_uids s) (reported_running_uids s)
    ({[node_name]} ∪ expected_deletions s) (seed_running s) (observed_during_init s) (presence_diff_emitted s).

Definition deletion_was_expected (s : WatcherState) (node_name : string) : bool :=
  bool_decide (node_name ∈ expected_deletions s).

Definition record_init_observation (node_name : string) (s : WatcherState) : WatcherState :=
  if bool_decide (node_name ∈ seed_running s) then
    mkWatcherState (reported_failure_uids s) (reported_running_uids s) (expected_deletions s)
      (seed_running s) ({[node_name]} ∪ observed_during_init s) (presence_diff_emitted s)
  else s.

Section watcher.
Context `{HashOrder}.

Definition take_missing_after_init : M WatcherState (list string) := λ s,
  if presence_diff_emitted s then ([], s)
  else (hash_set_iter (seed_running s ∖ observed_during_init s),
        mkWatcherState (reported_failure_uids s) (reported_running_uids s) (expected_deletions s)
          (seed_running s) (observed_during_init s) true).

(** ** Events

    A handler returns the signals it sends to the coordinator; a closed
    channel is only logged. *)

Definition emit_if_new (signal : PodSignal) : M WatcherState (list PodSignal) :=
  fresh ← should_emit signal;
  mret (if (fresh : bool) then [signal] else []).

Definition emit_classified (pod : Pod) : M WatcherState (list PodSignal) :=
  match classify_pod pod with Some signal => emit_if_new signal | None => mret [] end.

Fixpoint emit_each (nodes : list string) : M WatcherState (list PodSignal) :=
  match nodes with
  | [] => mret []
  | node_name :: nodes =>
      sent ← emit_if_new (InfraFailure node_name REHYDRATION_SENTINEL_UID PodDeletedUnexpectedly);
      rest ← emit_each nodes;
      mret (sent ++ rest)
  end.

Definition emit_presence_diff : M WatcherState (list PodSignal) :=
  missing ← take_missing_after_init; emit_each missing.

Definition handle_delete (pod : Pod) : M WatcherState (list PodSignal) := λ s,
  match node_name_for pod with
  | None => ([], s)
  | Some node_name =>
      if deletion_was_expected s node_name then ([], s)
      else if negb (was_running s node_name) then ([], s)
      else emit_if_new (InfraFailure node_name (default "" (uid pod)) PodDeletedUnexpectedly) s
  end.

Inductive Event :=
| InitApply (pod : Pod)
| Apply (pod : Pod)
| Delete (pod : Pod)
| Init
| InitDone.

Definition handle_event (event : Event) : M WatcherState (list PodSignal) :=
  match event with
  | InitApply pod =>
      _ ← modify (λ s, match node_name_for pod with
                       | Some node_name => record_init_observation node_name s
                       | None => s
                       end);
      emit_classified pod
  | Apply pod => emit_classified pod
  | Delete pod => handle_delete pod
  | Init => mret []
  | InitDone => emit_presence_diff
  end.

(** What one iteration of the select loop receives: the next command ([None]
    when every sender is gone) or the next item of the merged watch streams
    ([None] when they end). *)
Inductive WatcherInput :=
| Command (cmd : option WatcherCommand)
| StreamItem (ev : option (result string Event)).

(** [None]: the watcher returned. *)
Definition watcher_step (input : WatcherInput) : M WatcherState (option (list PodSignal)) := λ s,
  match input with
  | Command (Some (ExpectDeletion node_name)) => (Some [], expect_deletion node_name s)
  | Command (Some Shutdown) | Command None => (None, s)
  | StreamItem (Some (Ok event)) => let '(sent, s) := handle_event event s in (Some sent, s)
  | StreamItem (Some (Err _)) => (Some [], s)
  | StreamItem None => (None, s)
  end.

(** The loop of [run], on the sequence of inputs the select delivers: the
    signals sent, and whether the watcher is still listening. *)
Fixpoint watcher_loop (inputs : list WatcherInput) : M WatcherState (list PodSignal * bool) :=
  match inputs with
  | [] => mret ([], true)
  | input :: inputs =>
      r ← watcher_step input;
      match r with
      | None => mret ([], false)
      | Some sent => '(rest, alive) ← watcher_loop inputs; mret (sent ++ rest, alive)
      end
  end.

Definition watcher_run (seed : gset string) (inputs : list WatcherInput) : list PodSignal * bool :=
  (watcher_loop inputs (seeded seed)).1.

(** ** Specification vocabulary *)

(** What the watcher remembers of a signal: failures and starts are counted
    apart, the reason is not part of the key. *)
Definition signal_key (s : PodSignal) : bool * string * string :=
  match s with PodRunning n u => (true, n, u) | InfraFailure n u _ => (false, n, u) end.

Definition seen (s : WatcherState) (k : bool * string * string) : Prop :=
  let '(is_running, node, pod_uid) := k in
  pod_uid ∈ default ∅ ((if is_running then reported_running_uids s else reported_failure_uids s) !! node).

(** [sent] is new to [s], has no duplicate, and [s'] remembers exactly it on
    top of [s]. *)
Definition Emits (s : WatcherState) (sent : list PodSignal) (s' : WatcherState) : Prop :=
  NoDup (signal_key <$> sent) ∧
  (∀ k, k ∈ signal_key <$> sent → ¬ seen s k) ∧
  (∀ k, seen s' k ↔ seen s k ∨ k ∈ signal_key <$> sent).

(** [a] is the verdict on a container all of whose predecessors have a state
    and no verdict. *)
Definition first_verdict {A} (verdict : ContainerStatus → ContainerState → option A)
    (statuses : option (list ContainerStatus)) (a : A) : Prop :=
  ∃ before cs st after, statuses = Some (before ++ cs :: after) ∧ cs_state cs = Some st ∧
    verdict cs st = Some a ∧ Forall (λ c, ∃ st, cs_state c = Some st ∧ verdict c st = None) before.

Definition deletion_signal (n u : string) : PodSignal := InfraFailure n u PodDeletedUnexpectedly.

Definition expects (n : string) : WatcherInput := Command (Some (ExpectDeletion n)).
Definition event (e : Event) : WatcherInput := StreamItem (Some (Ok e)).
(** Some initial listing showed a pod of the node. *)
Definition listed (n : string) (inputs : list WatcherInput) : Prop :=
  ∃ pod, event (InitApply pod) ∈ inputs ∧ node_name_for pod = Some n.

(** ** Lemmas *)
Lemma emits_nil s s' :
  reported_failure_uids s' = reported_failure_uids s → reported_running_uids s' = reported_running_uids s →
  Emits s [] s'.
Proof.
  intros Hf Hr. split; [constructor|]. split; [set_solver|].
  intros [[[] n] u]; unfold seen; rewrite ?Hf, ?Hr; set_solver.
Qed.

Lemma emits_app s1 l1 s2 l2 s3 : Emits s1 l1 s2 → Emits s2 l2 s3 → Emits s1 (l1 ++ l2) s3.
Proof.
  intros (Hn1 & Hf1 & Hs1) (Hn2 & Hf2 & Hs2). unfold Emits. rewrite fmap_app. split_and!.
  - apply NoDup_app. split_and!; [done| |done]. intros k Hk1 Hk2. apply (Hf2 k Hk2). apply Hs1. by right.
  - intros k [Hk|Hk]%elem_of_app; [by apply Hf1|]. intros Hseen. apply (Hf2 k Hk). apply Hs1. by left.
  - intros k. rewrite Hs2, Hs1, elem_of_app. tauto.
Qed.

Lemma report_uid_lookup n u m n' u' :
  u' ∈ default ∅ ((report_uid n u m).2 !! n') ↔ u' ∈ default ∅ (m !! n') ∨ (n', u') = (n, u).
Proof.
  simpl. destruct (decide (n' = n)) as [->|].
  - rewrite lookup_insert_eq. simpl. set_solver.
  - rewrite lookup_insert_ne by done. split; [by left|]. intros [?|?]; [done|]. naive_solver.
Qed.

(** The parts of the state that [should_emit] does not touch. *)
Definition same_frame (s s' : WatcherState) : Prop :=
  expected_deletions s' = expected_deletions s ∧ seed_running s' = seed_running s ∧
  observed_during_init s' = observed_during_init s ∧ presence_diff_emitted s' = presence_diff_emitted s.

Lemma same_frame_trans s1 s2 s3 : same_frame s1 s2 → same_frame s2 s3 → same_frame s1 s3.
Proof. unfold same_frame. intuition congruence. Qed.

Lemma emit_if_new_spec signal s :
  let '(sent, s') := emit_if_new signal s in
  Emits s sent s' ∧ same_frame s s' ∧ sent = if decide (seen s (signal_key signal)) then [] else [signal].
Proof.
  unfold emit_if_new, should_emit, mbind, state_bind, mret, state_ret, seen.
  destruct signal as [n u|n u r]; cbn [report_uid signal_key].
  all: destruct (decide (u ∈ default ∅ (_ !! n))) as [Hin|Hin];
    [rewrite bool_decide_eq_false_2 by tauto|rewrite bool_decide_eq_true_2 by done];
    (split_and!; [|by unfold same_frame|done]).
  all: (split_and!; [try apply NoDup_nil_2; try apply NoDup_singleton| |]).
  all: try (intros k Hk; (by apply elem_of_nil in Hk) || (apply list_elem_of_singleton in Hk as ->; exact Hin)).
  all: intros [[[] n'] u']; unfold seen; cbn [reported_running_uids reported_failure_uids fmap list_fmap signal_key].
  all: try (rewrite elem_of_nil; tauto).
  all: try (pose proof (report_uid_lookup n u (reported_running_uids s) n' u') as Hl;
    cbn [report_uid snd] in Hl; rewrite Hl; clear Hl).
  all: try (pose proof (report_uid_lookup n u (reported_failure_uids s) n' u') as Hl;
    cbn [report_uid snd] in Hl; rewrite Hl; clear Hl).
  all: rewrite ?list_elem_of_singleton, ?elem_of_nil; naive_solver.
Qed.

Lemma emit_each_spec nodes s :
  NoDup nodes →
  let '(sent, s') := emit_each nodes s in
  Emits s sent s' ∧ same_frame s s' ∧
  (∀ sig, sig ∈ sent ↔ ∃ n, n ∈ nodes ∧ sig = deletion_signal n REHYDRATION_SENTINEL_UID ∧
                           ¬ seen s (false, n, REHYDRATION_SENTINEL_UID)).
Proof.
  revert s; induction nodes as [|n nodes IH]; intros s Hnd.
  { split; [by apply emits_nil|]. split; [done|]. set_solver. }
  apply NoDup_cons in Hnd as [Hn Hnd]. simpl emit_each. unfold mbind, state_bind.
  pose proof (emit_if_new_spec (deletion_signal n REHYDRATION_SENTINEL_UID) s) as Hone.
  destruct (emit_if_new _ s) as [sent1 s1]. destruct Hone as (He1 & Hf1 & Hsent1).
  specialize (IH s1 Hnd). destruct (emit_each nodes s1) as [sent2 s2]. destruct IH as (He2 & Hf2 & Hsent2).
  split_and!; [by eapply emits_app|by eapply same_frame_trans|]. intros sig. rewrite elem_of_app, Hsent2.
  assert (∀ m, m ∈ nodes → seen s1 (false, m, REHYDRATION_SENTINEL_UID) ↔
    seen s (false, m, REHYDRATION_SENTINEL_UID)) as Hsame.
  { intros m Hm. destruct He1 as (_ & _ & ->). split; [|by left]. intros [?|Hin]; [done|].
    rewrite Hsent1 in Hin. destruct (decide _); [by apply elem_of_nil in Hin|].
    apply list_elem_of_singleton in Hin. injection Hin as ->. done. }
  rewrite Hsent1. cbn [deletion_signal signal_key] in *. split.
  - intros [Hin|(m & Hm & -> & Hs)].
    + destruct (decide _); [by apply elem_of_nil in Hin|]. apply list_elem_of_singleton in Hin as ->.
      exists n. split_and!; [left|done|done].
    + exists m. split_and!; [by right|done|]. by rewrite <-Hsame.
  - intros (m & [->|Hm]%elem_of_cons & -> & Hs).
    + left. rewrite decide_False by done. by apply list_elem_of_singleton.
    + right. exists m. split_and!; [done..|]. by rewrite Hsame.
Qed.

Lemma was_running_spec s n : was_running s n = true ↔ ∃ u, seen s (true, n, u).
Proof.
  unfold was_running, seen. destruct (reported_running_uids s !! n) as [uids|]; simpl.
  - rewrite negb_true_iff, bool_decide_eq_false. split.
    + intros Hne. by apply set_choose_L in Hne.
    + intros [u Hu] ->. set_solver.
  - split; [done|]. intros [u Hu]. set_solver.
Qed.

Lemma seen_seeded seed b n u :
  seen (seeded seed) (b, n, u) ↔ b = true ∧ n ∈ seed ∧ u = REHYDRATION_SENTINEL_UID.
Proof.
  unfold seen, seeded; destruct b; cbn [reported_running_uids reported_failure_uids].
  - destruct (decide (n ∈ seed)) as [Hn|Hn].
    + rewrite (proj2 (lookup_gset_to_gmap_Some _ _ _ _) (conj Hn eq_refl)). simpl. set_solver.
    + rewrite (proj2 (lookup_gset_to_gmap_None _ _ _) Hn). simpl. set_solver.
  - rewrite lookup_empty. simpl. set_solver.
Qed.

Lemma scan_containers_first {A} (v : ContainerStatus → ContainerState → option A) l a :
  scan_containers v l = Some a ↔ first_verdict v (Some l) a.
Proof.
  unfold first_verdict. induction l as [|c l IH]; simpl.
  { split; [done|]. intros ([|? ?] & ? & ? & ? & ? & _); done. }
  destruct (cs_state c) as [st|] eqn:Hst; simpl.
  - destruct (v c st) as [a'|] eqn:Hv.
    + split; [intros [= ->]; by exists [], c, st, l|].
      intros ([|c' before] & cs & st' & after & Heq & ? & ? & Hall); simplify_eq/=; [congruence|].
      apply Forall_cons in Hall as [(? & ? & ?) _]. congruence.
    + rewrite IH. split.
      * intros (before & cs & st' & after & [= ->] & ? & ? & ?). exists (c :: before), cs, st', after.
        split_and!; [done..|]. constructor; eauto.
      * intros ([|c' before] & cs & st' & after & Heq & ? & ? & Hall); simplify_eq/=.
        apply Forall_cons in Hall as [_ Hall]. by exists before, cs, st', after.
  - split; [done|]. intros ([|c' before] & cs & st' & after & Heq & ? & ? & Hall); simplify_eq/=.
    apply Forall_cons in Hall as [(? & ? & ?) _]. congruence.
Qed.

Lemma first_verdict_spec {A} (v : ContainerStatus → ContainerState → option A) o a :
  (l ← o; scan_containers v l) = Some a ↔ first_verdict v o a.
Proof.
  destruct o as [l|]; simpl; [apply scan_containers_first|].
  split; [done|]. intros (? & ? & ? & ? & ? & _). done.
Qed.

(** The classification never reports a deletion. *)
Lemma scan_containers_Some {A} (verdict : ContainerStatus → ContainerState → option A) l a :
  scan_containers verdict l = Some a → ∃ cs st, cs ∈ l ∧ cs_state cs = Some st ∧ verdict cs st = Some a.
Proof.
  induction l as [|cs l IH]; simpl; [done|]. destruct (cs_state cs) as [st|] eqn:Hst; simpl; [|done].
  destruct (verdict cs st) eqn:Hv; [intros [= ->]; exists cs, st; set_solver|]. intros (c & st' & ? & ? & ?)%IH.
  exists c, st'. set_solver.
Qed.

Lemma classify_no_deletion pod n u : classify_pod pod ≠ Some (deletion_signal n u).
Proof.
  unfold classify_pod. destruct (node_name_for pod), (uid pod), (pod_status pod); simpl; try done.
  destruct (classify_init_container_statuses _) as [r|] eqn:Hi.
  - unfold classify_init_container_statuses in Hi. destruct (init_container_statuses _); [|done].
    apply scan_containers_Some in Hi as (cs & st & _ & _ & Hv). unfold init_verdict in Hv.
    repeat (case_match; simplify_eq); intros [= ]; simplify_eq.
  - unfold classify_main_container_statuses. destruct (container_statuses _); [|done]. simpl.
    intros (cs & st & _ & _ & Hv)%scan_containers_Some. unfold main_verdict, deletion_signal in Hv.
    repeat (case_match; simplify_eq).
Qed.

(** One event: what is sent is new, and how the rest of the state moves. *)
Lemma handle_event_spec e s :
  let '(sent, s') := handle_event e s in
  Emits s sent s' ∧ expected_deletions s' = expected_deletions s ∧ seed_running s' = seed_running s ∧
  (∀ n, n ∈ observed_during_init s' ↔
     n ∈ observed_during_init s ∨
     n ∈ seed_running s ∧ ∃ pod, e = InitApply pod ∧ node_name_for pod = Some n) ∧
  (presence_diff_emitted s' = true ↔ presence_diff_emitted s = true ∨ e = InitDone).
Proof.
  assert (∀ pod s, let '(sent, s') := emit_classified pod s in Emits s sent s' ∧ same_frame s s') as Hcl.
  { intros pod s0. unfold emit_classified. destruct (classify_pod pod) as [sig|].
    - pose proof (emit_if_new_spec sig s0) as Hs. destruct (emit_if_new sig s0). tauto.
    - split; [by apply emits_nil|done]. }
  destruct e as [pod|pod|pod| |]; simpl.
  - unfold mbind, state_bind, modify. set (s1 := match node_name_for pod with Some _ => _ | None => _ end).
    specialize (Hcl pod s1). destruct (emit_classified pod s1) as [sent s'].
    destruct Hcl as [He (Hx & Hse & Ho & Hp)].
    assert (Emits s [] s1 ∧ expected_deletions s1 = expected_deletions s ∧ seed_running s1 = seed_running s ∧
      presence_diff_emitted s1 = presence_diff_emitted s ∧ ∀ n, n ∈ observed_during_init s1 ↔
      n ∈ observed_during_init s ∨ n ∈ seed_running s ∧ node_name_for pod = Some n) as (He1 & Hx1 & Hse1 & Hp1 & Ho1).
    { unfold s1, record_init_observation. destruct (node_name_for pod) as [n|]; [case_bool_decide|].
      all: split_and!; [by apply emits_nil|done..|]; set_solver. }
    rewrite Hx, Hse, Ho, Hp, Hx1, Hse1, Hp1. split_and!; [exact (emits_app _ [] _ _ _ He1 He)|done..| |].
    + intros n. rewrite Ho1. naive_solver.
    + split; [by left|]. by intros [?|?].
  - specialize (Hcl pod s). destruct (emit_classified pod s) as [sent s']. destruct Hcl as [He (Hx & Hse & Ho & Hp)].
    rewrite Hx, Hse, Ho, Hp. split_and!; [done..| |]; naive_solver.
  - assert (let '(sent, s') := handle_delete pod s in Emits s sent s' ∧ same_frame s s') as Hd.
    { unfold handle_delete. destruct (node_name_for pod) as [n|]; [|split; [by apply emits_nil|done]].
      destruct (deletion_was_expected s n); [split; [by apply emits_nil|done]|].
      destruct (was_running s n); simpl negb; cbn match; [|split; [by apply emits_nil|done]].
      pose proof (emit_if_new_spec (deletion_signal n (default "" (uid pod))) s) as Hs.
      unfold deletion_signal in Hs. destruct (emit_if_new _ s). tauto. }
    destruct (handle_delete pod s) as [sent s']. destruct Hd as [He (Hx & Hse & Ho & Hp)].
    rewrite Hx, Hse, Ho, Hp. split_and!; [done..| |]; naive_solver.
  - split_and!; [by apply emits_nil|done..| |]; naive_solver.
  - unfold emit_presence_diff, mbind, state_bind, take_missing_after_init.
    destruct (presence_diff_emitted s) eqn:Hpe; simpl.
    + split_and!; [by apply emits_nil|done..| |]; naive_solver.
    + set (s1 := mkWatcherState _ _ _ _ _ true).
      pose proof (emit_each_spec (hash_set_iter (seed_running s ∖ observed_during_init s)) s1
        (NoDup_hash_keys _)) as Hs. destruct (emit_each _ s1) as [sent s'].
      destruct Hs as (He & (Hx & Hse & Ho & Hp) & _). rewrite Hx, Hse, Ho, Hp. unfold s1.
      split_and!; [|done..| |].
      * refine (emits_app _ [] s1 _ _ _ He). by apply emits_nil.
      * naive_solver.
      * naive_solver.
Qed.

(** ** The loop *)
Lemma watcher_loop_app pre post s :
  watcher_loop (pre ++ post) s =
  let '((sent, alive), s1) := watcher_loop pre s in
  if alive : bool then let '((rest, alive), s2) := watcher_loop post s1 in ((sent ++ rest, alive), s2)
  else ((sent, alive), s1).
Proof.
  revert s; induction pre as [|i pre IH]; intros s; simpl.
  { unfold mret, state_ret. by destruct (watcher_loop post s) as [[??]?]. }
  unfold mbind, state_bind. destruct (watcher_step i s) as [[sent|] s1]; [|done].
  rewrite IH. destruct (watcher_loop pre s1) as [[rest []] s2]; [|done].
  cbn. destruct (watcher_loop post s2) as [[rest2 alive] s3]. cbn. by rewrite (assoc_L (++)).
Qed.

(** What the state is after a prefix [pre] of the inputs that sent [sent]. *)
Record watcher_inv (seed : gset string) (pre : list WatcherInput) (sent : list PodSignal) (s : WatcherState)
  : Prop := {
  wi_emits : Emits (seeded seed) sent s;
  wi_seed : seed_running s = seed;
  wi_expected n : n ∈ expected_deletions s ↔ expects n ∈ pre;
  wi_observed n : n ∈ observed_during_init s ↔ n ∈ seed ∧ listed n pre;
  wi_presence : presence_diff_emitted s = true ↔ event InitDone ∈ pre;
}.

Lemma listed_snoc n pre i :
  listed n (pre ++ [i]) ↔ listed n pre ∨ ∃ pod, i = event (InitApply pod) ∧ node_name_for pod = Some n.
Proof. unfold listed. setoid_rewrite elem_of_app. setoid_rewrite list_elem_of_singleton. naive_solver. Qed.

Lemma watcher_step_inv seed pre sent s i new s' :
  watcher_inv seed pre sent s → watcher_step i s = (Some new, s') →
  watcher_inv seed (pre ++ [i]) (sent ++ new) s'.
Proof.
  intros [He Hse Hx Ho Hp] Hstep. destruct i as [[[n|]|]|[[e|e]|]]; simplify_eq/=.
  - rewrite app_nil_r. split; cbn [expect_deletion expected_deletions seed_running observed_during_init presence_diff_emitted].
    + rewrite <-(app_nil_r sent). eapply emits_app; [exact He|by apply emits_nil].
    + done.
    + intros m. rewrite elem_of_union, Hx, elem_of_app, elem_of_singleton, list_elem_of_singleton.
      unfold expects. naive_solver.
    + intros m. rewrite Ho, listed_snoc. naive_solver.
    + rewrite Hp, elem_of_app, list_elem_of_singleton. naive_solver.
  - pose proof (handle_event_spec e s) as Hev. destruct (handle_event e s) as [out s1]. simplify_eq.
    destruct Hev as (He1 & Hx1 & Hse1 & Ho1 & Hp1). split.
    + by eapply emits_app.
    + done.
    + intros m. rewrite Hx1, Hx, elem_of_app, list_elem_of_singleton. naive_solver.
    + intros m. rewrite Ho1, Ho, listed_snoc. unfold event. naive_solver.
    + rewrite Hp1, Hp, elem_of_app, list_elem_of_singleton. unfold event. naive_solver.
  - rewrite app_nil_r. split; try done.
    + intros m. rewrite Hx, elem_of_app, list_elem_of_singleton. naive_solver.
    + intros m. rewrite Ho, listed_snoc. naive_solver.
    + rewrite Hp, elem_of_app, list_elem_of_singleton. naive_solver.
Qed.

Lemma watcher_loop_inv seed pre sent s :
  watcher_loop pre (seeded seed) = ((sent, true), s) → watcher_inv seed pre sent s.
Proof.
  revert sent s; induction pre as [|i pre IH] using rev_ind; intros sent s Hrun.
  { simpl in Hrun. unfold mret, state_ret in Hrun. simplify_eq. split; [by apply emits_nil|done|..].
    all: intros; unfold listed; set_solver. }
  rewrite watcher_loop_app in Hrun. destruct (watcher_loop pre (seeded seed)) as [[sent1 []] s1]; [|simplify_eq].
  simpl in Hrun. unfold mbind, state_bind, mret, state_ret in Hrun.
  destruct (watcher_step i s1) as [[new|] s2] eqn:Hstep; simplify_eq.
  rewrite app_nil_r. eapply watcher_step_inv; [by apply IH|done].
Qed.

Lemma watcher_loop_emits inputs s :
  let '((sent, _), s') := watcher_loop inputs s in Emits s sent s'.
Proof.
  revert s; induction inputs as [|i inputs IH]; intros s; simpl; [by apply emits_nil|].
  unfold mbind, state_bind. destruct (watcher_step i s) as [[new|] s1] eqn:Hstep.
  - specialize (IH s1). destruct (watcher_loop inputs s1) as [[rest alive] s2].
    simpl. eapply emits_app; [|exact IH].
    destruct i as [[[n|]|]|[[e|e]|]]; simplify_eq/=; try by apply emits_nil.
    pose proof (handle_event_spec e s) as Hev. destruct (handle_event e s). simplify_eq. tauto.
  - destruct i as [[[n|]|]|[[e|e]|]]; simplify_eq/=; try by apply emits_nil.
    by destruct (handle_event e s).
Qed.

(** ** Properties *)

(** C33: whatever the order of commands, listings, updates, deletions and
    stream errors, the coordinator receives at most one started signal and at
    most one failure signal for each pod of a node, and no started signal for
    the placeholder pod that a rehydrated node is seeded with. *)
Theorem watcher_signals_distinct seed inputs :
  let sent := (watcher_run seed inputs).1 in
  NoDup (signal_key <$> sent) ∧ ∀ n, n ∈ seed → PodRunning n REHYDRATION_SENTINEL_UID ∉ sent.
Proof.
  unfold watcher_run. pose proof (watcher_loop_emits inputs (seeded seed)) as He.
  destruct (watcher_loop inputs (seeded seed)) as [[sent alive] s]. destruct He as (Hnd & Hnew & _).
  split; [done|]. intros n Hn Hin. apply (Hnew (true, n, REHYDRATION_SENTINEL_UID)).
  - by apply (list_elem_of_fmap_2 signal_key) in Hin.
  - by apply seen_seeded.
Qed.

(** C34: a node is reported as deleted only on a pod deletion or at the end of
    the first listing. On a deletion the node was seeded as running or had been
    reported as started, and the coordinator had not announced the deletion; at
    the end of the listing the node was seeded, no listing had shown a pod of
    it, and it is reported under the placeholder pod. *)
Theorem deletion_reports_justified seed pre sent s i new s' n u :
  watcher_loop pre (seeded seed) = ((sent, true), s) →
  watcher_step i s = (Some new, s') →
  deletion_signal n u ∈ new →
  (∃ pod, i = event (Delete pod) ∧ node_name_for pod = Some n ∧ u = default "" (uid pod) ∧
     (expects n ∉ pre) ∧ (n ∈ seed ∨ ∃ u', PodRunning n u' ∈ sent)) ∨
  (i = event InitDone ∧ (event InitDone ∉ pre) ∧ n ∈ seed ∧ ¬ listed n pre ∧ u = REHYDRATION_SENTINEL_UID).
Proof.
  intros Hrun Hstep Hin. apply watcher_loop_inv in Hrun as [He Hse Hx Ho Hp].
  assert (∀ pod s, deletion_signal n u ∉ (emit_classified pod s).1) as Hcl.
  { intros pod s0. unfold emit_classified. pose proof (classify_no_deletion pod n u) as Hno.
    destruct (classify_pod pod) as [sig|]; [|set_solver]. pose proof (emit_if_new_spec sig s0) as Hs.
    destruct (emit_if_new sig s0) as [out s1]. destruct Hs as (_ & _ & ->). simpl.
    destruct (decide _); set_solver. }
  destruct i as [[[m|]|]|[[e|e]|]]; simplify_eq/=; try (by apply elem_of_nil in Hin).
  destruct e as [pod|pod|pod| |]; simpl in Hstep.
  - unfold mbind, state_bind, modify in Hstep. destruct (emit_classified pod _) as [out s1] eqn:Hc. simplify_eq.
    exfalso. eapply Hcl. by rewrite Hc.
  - destruct (emit_classified pod s) as [out s1] eqn:Hc. simplify_eq. exfalso. eapply Hcl. by rewrite Hc.
  - left. exists pod. unfold handle_delete in Hstep.
    destruct (node_name_for pod) as [m|]; [|simplify_eq; by apply elem_of_nil in Hin].
    unfold deletion_was_expected in Hstep. case_bool_decide as Hexp; [simplify_eq; by apply elem_of_nil in Hin|].
    destruct (was_running s m) eqn:Hwas; [|simplify_eq/=; by apply elem_of_nil in Hin]. cbn [negb] in Hstep.
    pose proof (emit_if_new_spec (deletion_signal m (default "" (uid pod))) s) as Hs.
    unfold deletion_signal in Hs. destruct (emit_if_new _ s) as [out s1]. destruct Hs as (_ & _ & ->). simplify_eq.
    destruct (decide _); [by apply elem_of_nil in Hin|]. apply list_elem_of_singleton in Hin.
    unfold deletion_signal in Hin. simplify_eq. split_and!; [done..|by rewrite <-Hx|].
    apply was_running_spec in Hwas as [u Hu]. destruct He as (_ & _ & Hseen). apply Hseen in Hu as [Hu|Hu].
    + left. by apply seen_seeded in Hu as (_ & ? & _).
    + right. exists u. apply list_elem_of_fmap in Hu as ([n' u'|] & ? & ?); by simplify_eq/=.
  - simplify_eq. by apply elem_of_nil in Hin.
  - right. unfold emit_presence_diff, mbind, state_bind, take_missing_after_init in Hstep.
    destruct (presence_diff_emitted s) eqn:Hpe; [simplify_eq/=; by apply elem_of_nil in Hin|].
    match type of Hstep with context [emit_each ?l ?s1] =>
      pose proof (emit_each_spec l s1 (NoDup_hash_keys _)) as Hs; destruct (emit_each l s1) as [out s2] end.
    simplify_eq. destruct Hs as (_ & _ & Hout). apply Hout in Hin as (m & Hm & Heq & _).
    unfold deletion_signal in Heq. simplify_eq. apply elem_of_hash_set_iter in Hm.
    apply elem_of_difference in Hm as [Hm Hno]. split_and!; [done| |done| |done].
    + intros Hd. apply Hp in Hd. done.
    + intros Hl. apply Hno, Ho. done.
Qed.

(** The first completed listing reports exactly the seeded nodes for which
    no pod was listed, so that a node lost while no coordinator ran is failed. *)
Theorem presence_diff_complete seed pre sent s new s' n :
  watcher_loop pre (seeded seed) = ((sent, true), s) →
  watcher_step (event InitDone) s = (Some new, s') →
  event InitDone ∉ pre →
  (∀ sig, sig ∈ sent → signal_pod_uid sig ≠ REHYDRATION_SENTINEL_UID) →
  deletion_signal n REHYDRATION_SENTINEL_UID ∈ new ↔ n ∈ seed ∧ ¬ listed n pre.
Proof.
  intros Hrun Hstep Hfirst Huids. apply watcher_loop_inv in Hrun as [He Hse Hx Ho Hp].
  simpl in Hstep. unfold emit_presence_diff, mbind, state_bind, take_missing_after_init in Hstep.
  destruct (presence_diff_emitted s) eqn:Hpe; [by destruct Hfirst; apply Hp|].
  match type of Hstep with context [emit_each ?l ?s1] =>
    pose proof (emit_each_spec l s1 (NoDup_hash_keys _)) as Hs; destruct (emit_each l s1) as [out s2] end.
  simplify_eq. destruct Hs as (_ & _ & ->).
  setoid_rewrite elem_of_hash_set_iter. setoid_rewrite elem_of_difference. setoid_rewrite Ho.
  split; [intros (m & Hm & Heq & _); unfold deletion_signal in Heq; simplify_eq; tauto|].
  intros [Hn Hl]. exists n. split; [tauto|]. split; [done|].
  assert (¬ seen s (false, n, REHYDRATION_SENTINEL_UID)) as Hno; [|exact Hno].
  destruct He as (_ & _ & ->). intros [Hin|Hin].
  - by apply seen_seeded in Hin as (? & _).
  - apply list_elem_of_fmap in Hin as (sig & Hk & Hin). apply (Huids sig Hin). destruct sig; by simplify_eq/=.
Qed.

(** The classification is decided by the first container with a verdict.
    An init container's failure takes precedence over every main container; a
    main container that has no verdict only passes the decision on, and a
    container without a state ends the scan it occurs in. *)
Theorem classify_pod_first_verdict pod signal :
  classify_pod pod = Some signal ↔
  ∃ n u status, node_name_for pod = Some n ∧ uid pod = Some u ∧ pod_status pod = Some status ∧
    ((∃ r, first_verdict init_verdict (init_container_statuses status) r ∧ signal = InfraFailure n u r) ∨
     ((¬ ∃ r, first_verdict init_verdict (init_container_statuses status) r) ∧
       first_verdict (main_verdict n u) (container_statuses status) signal)).
Proof.
  unfold classify_pod. destruct (node_name_for pod) as [n|], (uid pod) as [u|], (pod_status pod) as [status|];
    simpl; try (split; [done|]; intros (? & ? & ? & ? & ? & ? & _); done).
  setoid_rewrite <-first_verdict_spec.
  destruct (classify_init_container_statuses status) as [r|] eqn:Hi; split.
  - intros [= <-]. exists n, u, status. split_and!; [done..|]. left. eauto.
  - intros (? & ? & ? & [= <-] & [= <-] & [= <-] & [(r' & Hr & ->)|[Hno _]]); [|destruct Hno; eauto].
    unfold classify_init_container_statuses in Hi. congruence.
  - intros Hm. exists n, u, status. split_and!; [done..|]. right. split; [|done].
    unfold classify_init_container_statuses in Hi. intros [??]. congruence.
  - intros (? & ? & ? & [= <-] & [= <-] & [= <-] & [(? & Hr & _)|[_ ?]]); [|done].
    unfold classify_init_container_statuses in Hi. congruence.
Qed.

(** Stored failure codes keep their meaning: the generic text looked up
    from a stored code exists exactly when the detailed text of the original
    failure does, and failures with the same code agree on that. *)
Theorem stable_codes_faithful r1 r2 :
  (user_message r1 = None ↔ user_message_from_code (stable_code r1) = None) ∧
  (stable_code r1 = stable_code r2 → (user_message r1 = None ↔ user_message r2 = None)).
Proof. split; [by destruct r1|by destruct r1, r2]. Qed.
End watcher.

(** ** Witnesses *)

Section witnesses.
#[local] Existing Instance canonical_order.

Definition pod_of (node pod_uid : string) (main : ContainerState) : Pod :=
  mkPod (Some {[NODE_NAME_ANNOTATION := node]}) (Some pod_uid)
    (Some (mkPodStatus None (Some [mkContainerStatus "main" "alpine" (Some main)]))).
Definition running_pod (node pod_uid : string) : Pod :=
  pod_of node pod_uid (mkContainerState None None (Some ())).

Lemma deletion_reports_justified_witness :
  expects "build" ∉ [event (Apply (running_pod "build" "u1"))].
Proof.
  pose (pre := [event (Apply (running_pod "build" "u1"))]).
  pose (st := (watcher_loop pre (seeded ∅)).2).
  assert (watcher_loop pre (seeded ∅) = (([PodRunning "build" "u1"], true), st)) as Hrun
    by (vm_compute; reflexivity).
  pose (del := event (Delete (running_pod "build" "u1"))).
  assert (watcher_step del st = (Some [deletion_signal "build" "u1"], (watcher_step del st).2)) as Hstep
    by (vm_compute; reflexivity).
  destruct (deletion_reports_justified ∅ pre _ st del _ _ "build" "u1" Hrun Hstep (list_elem_of_here _ _))
    as [(_ & _ & _ & _ & H & _)|(H & _)]; [exact H|discriminate H].
Defined.

Lemma presence_diff_complete_witness :
  deletion_signal "b" REHYDRATION_SENTINEL_UID ∈
    default [] (watcher_step (event InitDone)
      (watcher_loop [event (InitApply (running_pod "a" "u1"))] (seeded {["a"; "b"]})).2).1.
Proof.
  pose (pre := [event (InitApply (running_pod "a" "u1"))]).
  pose (st := (watcher_loop pre (seeded {["a"; "b"]})).2).
  assert (watcher_loop pre (seeded {["a"; "b"]}) = (([PodRunning "a" "u1"], true), st)) as Hrun
    by (vm_compute; reflexivity).
  assert (watcher_step (event InitDone) st =
    (Some [deletion_signal "b" REHYDRATION_SENTINEL_UID], (watcher_step (event InitDone) st).2)) as Hstep
    by (vm_compute; reflexivity).
  assert (event InitDone ∉ pre) as Hfirst by (unfold pre; set_solver).
  assert (∀ sig, sig ∈ [PodRunning "a" "u1"] → signal_pod_uid sig ≠ REHYDRATION_SENTINEL_UID) as Hu.
  { intros sig ->%list_elem_of_singleton. discriminate. }
  pose proof (presence_diff_complete _ pre _ st _ _ "b" Hrun Hstep Hfirst Hu) as [_ Hin].
  fold pre st. rewrite Hstep. apply Hin. split; [set_solver|].
  intros (pod & Hl & Hn). apply list_elem_of_singleton in Hl. injection Hl as ->. discriminate Hn.
Defined.
End witnesses.
