(* ===== verification/RunHistory.v ===== *)
(** * Run history (run_history/src/lib.rs)

    The records, rows and queries, the [RunHistory] trait as a type class, the
    Postgres implementation as operations on the two tables its migrations
    create (with the foreign keys, the conflict clauses and the serial ids the
    statements rely on), and the no-op implementation. Times are instants on
    one clock, as integers. *)

From S2P Require Import Prelude.

(** ** Data *)

Inductive RunHistoryError :=
| DatabaseError (msg : string)
| MigrationError (msg : string)
| InvalidRunId (msg : string).

Inductive RunStatus := RsInProgress | RsSuccess | RsFailure | RsCancelled.
#[export] Instance run_status_eq_dec : EqDecision RunStatus.
Proof. solve_decision. Defined.

Definition run_status_str (s : RunStatus) : string :=
  match s with
  | RsInProgress => "in_progress" | RsSuccess => "success" | RsFailure => "failure" | RsCancelled => "cancelled"
  end.

Definition from_db_str (s : string) : result string RunStatus :=
  if str_eqb s "in_progress" then Ok RsInProgress
  else if str_eqb s "success" then Ok RsSuccess
  else if str_eqb s "failure" then Ok RsFailure
  else if str_eqb s "cancelled" then Ok RsCancelled
  else Err ("Unknown run status: " +:+ s).

(** The columns that both records of a run carry. *)
Record RunDetails := mkDetails {
  rd_pipeline_name : string; rd_owner : string; rd_repo : string; rd_sha : string;
  rd_branch : option string; rd_target_branch : option string; rd_tag : option string;
  rd_pr_number : option Z; rd_trigger : string; rd_pipeline_definition : string;
  rd_created_at : Z; rd_retry_of : option string; rd_tenant_slug : option string;
  rd_github_check_run_id : option Z;
}.

Record PipelineStartRecord := mkStart { ps_run_id : string; ps_details : RunDetails }.

Record PipelineRunRecord := mkRunRecord {
  pr_run_id : string; pr_details : RunDetails; pr_status : RunStatus; pr_completed_at : option Z }.

Record NodeDispatchRecord := mkDispatch {
  nd_run_id : string; nd_node_name : string; nd_node_definition : string; nd_created_at : Z }.

Record NodeRunRecord := mkNodeRun {
  nr_run_id : string; nr_node_name : string; nr_node_definition : string; nr_success : bool;
  nr_created_at : Z; nr_started_at : option Z; nr_completed_at : option Z;
  nr_output_log : option string; nr_failure_reason : option string }.

Record PipelineRunRow := mkRunRow {
  row_run_id : string; row_details : RunDetails; row_status : RunStatus; row_completed_at : option Z }.

Record NodeRunRow := mkNodeRow {
  nrow_id : Z; nrow_run_id : string; nrow_node_name : string; nrow_node_definition : string;
  nrow_success : option bool; nrow_created_at : Z; nrow_started_at : option Z;
  nrow_completed_at : option Z; nrow_failure_reason : option string }.

Inductive SortColumn := SortCreatedAt | SortCompletedAt | SortPipelineName | SortOwner | SortStatus.
Inductive SortOrder := Asc | Desc.

Definition parse_sort_column (s : string) : option SortColumn :=
  if str_eqb s "created_at" then Some SortCreatedAt
  else if str_eqb s "completed_at" then Some SortCompletedAt
  else if str_eqb s "pipeline_name" then Some SortPipelineName
  else if str_eqb s "owner" then Some SortOwner
  else if str_eqb s "status" then Some SortStatus
  else None.
Definition sort_column_sql (c : SortColumn) : string :=
  match c with
  | SortCreatedAt => "created_at" | SortCompletedAt => "completed_at"
  | SortPipelineName => "pipeline_name" | SortOwner => "owner" | SortStatus => "status"
  end.
Definition parse_sort_order (s : string) : option SortOrder :=
  if str_eqb s "asc" then Some Asc else if str_eqb s "desc" then Some Desc else None.
Definition sort_order_sql (o : SortOrder) : string := match o with Asc => "ASC" | Desc => "DESC" end.

Record RunFilters := mkFilters {
  f_owner : option string; f_repo : option string; f_pipeline_name : option string; f_sha : option string }.

Record ListRunsQuery := mkQuery {
  q_limit : Z; q_offset : Z; q_sort_by : SortColumn; q_order : SortOrder; q_filters : RunFilters }.

(** ** The trait *)

Class RunHistory (H : Type) : Type := {
  record_pipeline_started : PipelineStartRecord → M H (result RunHistoryError unit);
  record_pipeline_run : PipelineRunRecord → M H (result RunHistoryError unit);
  finalize_pipeline_run_status : string → RunStatus → Z → M H (result RunHistoryError bool);
  list_in_progress_runs : M H (result RunHistoryError (list PipelineRunRow));
  record_node_dispatched : NodeDispatchRecord → M H (result RunHistoryError unit);
  record_node_run : NodeRunRecord → M H (result RunHistoryError unit);
  list_pipeline_runs : ListRunsQuery → M H (result RunHistoryError (list PipelineRunRow));
  count_pipeline_runs : RunFilters → M H (result RunHistoryError Z);
  get_pipeline_run : string → M H (result RunHistoryError (option PipelineRunRow));
  list_originating_runs_for_sha : string → string → string → string →
    M H (result RunHistoryError (list PipelineRunRow));
  list_node_runs : string → M H (result RunHistoryError (list NodeRunRow));
  get_node_run : string → string → M H (result RunHistoryError (option NodeRunRow));
  get_node_log : string → string → M H (result RunHistoryError (option string));
  ping : M H (result RunHistoryError unit);
}.

(** ** Postgres *)

Module Postgres.

(** What the code relies on of the libraries around it: the UUID parser (its
    value stands for the canonical form) and the collation and timestamp order
    of the database, total orders. *)
Class Backend : Type := {
  parse_uuid : string → result string string;
  collate : string → string → bool;
  collate_trans : ∀ a b c, collate a b = true → collate b c = true → collate a c = true;
  collate_total : ∀ a b, collate a b = true ∨ collate b a = true;
}.

Record NodeEntry := mkEntry { ne_row : NodeRunRow; ne_output_log : option string }.

Record Database := mkDb {
  pipeline_runs : gmap string PipelineRunRow;
  node_runs : gmap (string * string) NodeEntry;
  next_id : Z;
  replies : list Reply;
}.

Definition with_replies (rs : list Reply) (db : Database) : Database :=
  mkDb (pipeline_runs db) (node_runs db) (next_id db) rs.

Definition set_run (run_id : string) (row : PipelineRunRow) (db : Database) : Database :=
  mkDb (<[run_id := row]> (pipeline_runs db)) (node_runs db) (next_id db) (replies db).
Definition set_node (key : string * string) (e : NodeEntry) (db : Database) : Database :=
  mkDb (pipeline_runs db) (<[key := e]> (node_runs db)) (next_id db) (replies db).
Definition bump_id (db : Database) : Database :=
  mkDb (pipeline_runs db) (node_runs db) (next_id db + 1) (replies db).

(** The tables as they were, and the sequence where it is: an id once drawn is
    not given back. *)
Definition undo (db db' : Database) : Database :=
  mkDb (pipeline_runs db) (node_runs db) (Z.max (next_id db) (next_id db')) (replies db).

(** [query.execute(&self.pool).await?]: the statement runs atomically; a
    constraint violation undoes it and is an error. *)
Definition execute {A} (stmt : M Database (result string A)) : M Database (result RunHistoryError A) := λ db,
  let '(reply, rest) := match replies db with [] => (Served, []) | r :: rs => (r, rs) end in
  let db := with_replies rest db in
  match reply with
  | Refused msg => (Err (DatabaseError msg), db)
  | Served => let '(r, db') := stmt db in
      match r with Ok a => (Ok a, db') | Err msg => (Err (DatabaseError msg), undo db db') end
  | Lost msg => let '(r, db') := stmt db in
      match r with Ok _ => (Err (DatabaseError msg), db') | Err _ => (Err (DatabaseError msg), undo db db') end
  end.

Section operations.
Context `{Backend}.

Definition parse_run_id (s : string) : result RunHistoryError string :=
  map_err InvalidRunId (parse_uuid s).

(** [parse_run_id(..)?] before a statement *)
Definition with_run_id {A} (s : string) (k : string → M Database (result RunHistoryError A))
  : M Database (result RunHistoryError A) := λ db,
  match parse_run_id s with Ok run_id => k run_id db | Err e => (Err e, db) end.

(** [r.retry_of.as_deref().map(parse_run_id).transpose()?] *)
Definition with_retry_of {A} (o : option string) (k : option string → M Database (result RunHistoryError A))
  : M Database (result RunHistoryError A) := λ db,
  match o with
  | None => k None db
  | Some s => match parse_run_id s with Ok u => k (Some u) db | Err e => (Err e, db) end
  end.

Definition with_retry (d : RunDetails) (retry_of : option string) : RunDetails :=
  mkDetails (rd_pipeline_name d) (rd_owner d) (rd_repo d) (rd_sha d) (rd_branch d) (rd_target_branch d)
    (rd_tag d) (rd_pr_number d) (rd_trigger d) (rd_pipeline_definition d) (rd_created_at d) retry_of
    (rd_tenant_slug d) (rd_github_check_run_id d).
Definition with_check_run (d : RunDetails) (c : option Z) : RunDetails :=
  mkDetails (rd_pipeline_name d) (rd_owner d) (rd_repo d) (rd_sha d) (rd_branch d) (rd_target_branch d)
    (rd_tag d) (rd_pr_number d) (rd_trigger d) (rd_pipeline_definition d) (rd_created_at d) (rd_retry_of d)
    (rd_tenant_slug d) c.

(** The foreign key of [retry_of]: a row may refer to itself. *)
Definition retry_exists (run_id : string) (retry_of : option string) (db : Database) : bool :=
  match retry_of with
  | Some r => str_eqb r run_id || bool_decide (is_Some (pipeline_runs db !! r))
  | None => true
  end.

Definition insert_run (row : PipelineRunRow) (on_conflict : PipelineRunRow → PipelineRunRow)
  : M Database (result string unit) := λ db,
  match pipeline_runs db !! row_run_id row with
  | Some old => (Ok (), set_run (row_run_id row) (on_conflict old) db)
  | None =>
      if retry_exists (row_run_id row) (rd_retry_of (row_details row)) db
      then (Ok (), set_run (row_run_id row) row db)
      else (Err "insert or update on table pipeline_runs violates foreign key constraint", db)
  end.

Definition pg_record_pipeline_started (r : PipelineStartRecord) : M Database (result RunHistoryError unit) :=
  with_run_id (ps_run_id r) (λ run_id,
  with_retry_of (rd_retry_of (ps_details r)) (λ retry_of,
  execute (insert_run (mkRunRow run_id (with_retry (ps_details r) retry_of) RsInProgress None)
    (λ old, mkRunRow (row_run_id old)
       (with_check_run (row_details old)
          (match rd_github_check_run_id (row_details old) with
           | Some c => Some c
           | None => rd_github_check_run_id (ps_details r)
           end))
       (row_status old) (row_completed_at old))))).

Definition pg_record_pipeline_run (r : PipelineRunRecord) : M Database (result RunHistoryError unit) :=
  with_run_id (pr_run_id r) (λ run_id,
  with_retry_of (rd_retry_of (pr_details r)) (λ retry_of,
  execute (insert_run (mkRunRow run_id (with_retry (pr_details r) retry_of) (pr_status r) (pr_completed_at r))
    (λ old, mkRunRow (row_run_id old) (row_details old) (pr_status r) (pr_completed_at r))))).

Definition pg_finalize_pipeline_run_status (run_id : string) (status : RunStatus) (completed_at : Z)
  : M Database (result RunHistoryError bool) :=
  with_run_id run_id (λ run_id, execute (λ db,
    match pipeline_runs db !! run_id with
    | Some row =>
        if bool_decide (row_status row = RsInProgress)
        then (Ok true, set_run run_id (mkRunRow (row_run_id row) (row_details row) status (Some completed_at)) db)
        else (Ok false, db)
    | None => (Ok false, db)
    end)).

(** An insert into [node_runs] draws an id from the sequence even when it
    conflicts. *)
Definition insert_node (run_id : string) (row : Z → NodeEntry) (node_name : string)
    (on_conflict : NodeEntry → NodeEntry) : M Database (result string unit) := λ db,
  let id := next_id db in
  let db := bump_id db in
  match node_runs db !! (run_id, node_name) with
  | Some old => (Ok (), set_node (run_id, node_name) (on_conflict old) db)
  | None =>
      if bool_decide (is_Some (pipeline_runs db !! run_id))
      then (Ok (), set_node (run_id, node_name) (row id) db)
      else (Err "insert or update on table node_runs violates foreign key constraint", db)
  end.

Definition pg_record_node_dispatched (r : NodeDispatchRecord) : M Database (result RunHistoryError unit) :=
  with_run_id (nd_run_id r) (λ run_id,
  execute (insert_node run_id
    (λ id, mkEntry (mkNodeRow id run_id (nd_node_name r) (nd_node_definition r) None (nd_created_at r)
                      None None None) None)
    (nd_node_name r) (λ old, old))).

Definition pg_record_node_run (r : NodeRunRecord) : M Database (result RunHistoryError unit) :=
  with_run_id (nr_run_id r) (λ run_id,
  execute (insert_node run_id
    (λ id, mkEntry (mkNodeRow id run_id (nr_node_name r) (nr_node_definition r) (Some (nr_success r))
                      (nr_created_at r) (nr_started_at r) (nr_completed_at r) (nr_failure_reason r))
             (nr_output_log r))
    (nr_node_name r)
    (λ old, mkEntry (mkNodeRow (nrow_id (ne_row old)) (nrow_run_id (ne_row old)) (nrow_node_name (ne_row old))
                       (nrow_node_definition (ne_row old)) (Some (nr_success r)) (nrow_created_at (ne_row old))
                       (nr_started_at r) (nr_completed_at r) (nr_failure_reason r))
              (nr_output_log r)))).

(** *** Queries *)

Definition select {A} (f : Database → A) : M Database (result RunHistoryError A) :=
  execute (λ db, (Ok (f db), db)).

Definition all_runs (db : Database) : list PipelineRunRow := (map_to_list (pipeline_runs db)).*2.

Definition matches_opt (f : option string) (v : string) : bool :=
  match f with None => true | Some w => str_eqb v w end.

(** [FILTER_WHERE] *)
Definition filter_where (f : RunFilters) (row : PipelineRunRow) : bool :=
  matches_opt (f_owner f) (rd_owner (row_details row)) && matches_opt (f_repo f) (rd_repo (row_details row)) &&
  matches_opt (f_pipeline_name f) (rd_pipeline_name (row_details row)) &&
  matches_opt (f_sha f) (rd_sha (row_details row)).

(** [ORDER BY column order NULLS LAST] *)
Definition column_le (c : SortColumn) (o : SortOrder) (a b : PipelineRunRow) : bool :=
  let le_z (x y : Z) := match o with Asc => (x <=? y)%Z | Desc => (y <=? x)%Z end in
  let le_s (x y : string) := match o with Asc => collate x y | Desc => collate y x end in
  match c with
  | SortCreatedAt => le_z (rd_created_at (row_details a)) (rd_created_at (row_details b))
  | SortCompletedAt =>
      match row_completed_at a, row_completed_at b with
      | Some x, Some y => le_z x y
      | _, None => true
      | None, Some _ => false
      end
  | SortPipelineName => le_s (rd_pipeline_name (row_details a)) (rd_pipeline_name (row_details b))
  | SortOwner => le_s (rd_owner (row_details a)) (rd_owner (row_details b))
  | SortStatus => le_s (run_status_str (row_status a)) (run_status_str (row_status b))
  end.

Definition order_by {A} (le : A → A → bool) (rows : list A) : list A :=
  @merge_sort _ (λ a b, le a b = true) (λ a b, decide (le a b = true)) rows.

Definition pg_list_pipeline_runs (q : ListRunsQuery)
  : M Database (result RunHistoryError (list PipelineRunRow)) :=
  execute (λ db,
    if (q_limit q <? 0)%Z then (Err "LIMIT must not be negative", db)
    else if (q_offset q <? 0)%Z then (Err "OFFSET must not be negative", db)
    else (Ok (take (Z.to_nat (q_limit q)) (drop (Z.to_nat (q_offset q))
            (order_by (column_le (q_sort_by q) (q_order q))
               (List.filter (filter_where (q_filters q)) (all_runs db))))), db)).

Definition pg_count_pipeline_runs (f : RunFilters) : M Database (result RunHistoryError Z) :=
  select (λ db, Z.of_nat (length (List.filter (filter_where f) (all_runs db)))).

Definition pg_list_in_progress_runs : M Database (result RunHistoryError (list PipelineRunRow)) :=
  select (λ db, List.filter (λ row, bool_decide (row_status row = RsInProgress)) (all_runs db)).

Definition pg_get_pipeline_run (run_id : string)
  : M Database (result RunHistoryError (option PipelineRunRow)) :=
  with_run_id run_id (λ u, select (λ db, pipeline_runs db !! u)).

Definition pg_list_originating_runs_for_sha (tenant_slug owner repo sha : string)
  : M Database (result RunHistoryError (list PipelineRunRow)) :=
  select (λ db, order_by (column_le SortCreatedAt Asc)
    (List.filter (λ row, let d := row_details row in
       bool_decide (rd_tenant_slug d = Some tenant_slug) && str_eqb (rd_owner d) owner &&
       str_eqb (rd_repo d) repo && str_eqb (rd_sha d) sha && bool_decide (rd_retry_of d = None)) (all_runs db))).

Definition nodes_of (run_id : string) (db : Database) : list NodeRunRow :=
  List.filter (λ row, str_eqb (nrow_run_id row) run_id) (ne_row <$> (map_to_list (node_runs db)).*2).

Definition pg_list_node_runs (run_id : string) : M Database (result RunHistoryError (list NodeRunRow)) :=
  with_run_id run_id (λ u, select (λ db,
    order_by (λ a b, (nrow_id a <=? nrow_id b)%Z) (nodes_of u db))).

Definition pg_get_node_run (run_id node_name : string)
  : M Database (result RunHistoryError (option NodeRunRow)) :=
  with_run_id run_id (λ u, select (λ db, ne_row <$> node_runs db !! (u, node_name))).

Definition pg_get_node_log (run_id node_name : string)
  : M Database (result RunHistoryError (option string)) :=
  with_run_id run_id (λ u, select (λ db, (λ e, default "" (ne_output_log e)) <$> node_runs db !! (u, node_name))).

Definition pg_ping : M Database (result RunHistoryError unit) := select (λ _, ()).

#[export] Instance postgres_run_history : RunHistory Database := {
  record_pipeline_started := pg_record_pipeline_started;
  record_pipeline_run := pg_record_pipeline_run;
  finalize_pipeline_run_status := pg_finalize_pipeline_run_status;
  list_in_progress_runs := pg_list_in_progress_runs;
  record_node_dispatched := pg_record_node_dispatched;
  record_node_run := pg_record_node_run;
  list_pipeline_runs := pg_list_pipeline_runs;
  count_pipeline_runs := pg_count_pipeline_runs;
  get_pipeline_run := pg_get_pipeline_run;
  list_originating_runs_for_sha := pg_list_originating_runs_for_sha;
  list_node_runs := pg_list_node_runs;
  get_node_run := pg_get_node_run;
  get_node_log := pg_get_node_log;
  ping := pg_ping;
}.
End operations.
End Postgres.

(** ** The no-op implementation *)

Inductive NoOpRunHistory := NoOp.

#[export] Instance noop_run_history : RunHistory NoOpRunHistory := {
  record_pipeline_started _ := mret (Ok ());
  record_pipeline_run _ := mret (Ok ());
  finalize_pipeline_run_status _ _ _ := mret (Ok false);
  list_in_progress_runs := mret (Ok []);
  record_node_dispatched _ := mret (Ok ());
  record_node_run _ := mret (Ok ());
  list_pipeline_runs _ := mret (Ok []);
  count_pipeline_runs _ := mret (Ok 0%Z);
  get_pipeline_run _ := mret (Ok None);
  list_originating_runs_for_sha _ _ _ _ := mret (Ok []);
  list_node_runs _ := mret (Ok []);
  get_node_run _ _ := mret (Ok None);
  get_node_log _ _ := mret (Ok None);
  ping := mret (Ok ());
}.

(** ** Calls, for histories of the database *)

Module PostgresFacts.
Import Postgres.

Inductive Call :=
| CallStarted (r : PipelineStartRecord)
| CallRun (r : PipelineRunRecord)
| CallFinalize (run_id : string) (status : RunStatus) (completed_at : Z)
| CallDispatched (r : NodeDispatchRecord)
| CallNodeRun (r : NodeRunRecord).

Section facts.
Context `{Backend}.

(** The state after a call; its answer is kept or lost by the network. *)
Definition after {A} (m : M Database A) (db : Database) : Database := (m db).2.
Definition exec (c : Call) : Database → Database :=
  match c with
  | CallStarted r => after (pg_record_pipeline_started r)
  | CallRun r => after (pg_record_pipeline_run r)
  | CallFinalize run_id status t => after (pg_finalize_pipeline_run_status run_id status t)
  | CallDispatched r => after (pg_record_node_dispatched r)
  | CallNodeRun r => after (pg_record_node_run r)
  end.
Definition exec_all (cs : list Call) (db : Database) : Database := foldl (λ db c, exec c db) db cs.

Definition empty_db (rs : list Reply) : Database := mkDb ∅ ∅ 1 rs.

(** The columns a later statement may fill in or overwrite. *)
Definition details_le (d d' : RunDetails) : Prop :=
  d' = with_check_run d (rd_github_check_run_id d') ∧
  (rd_github_check_run_id d' = rd_github_check_run_id d ∨ rd_github_check_run_id d = None).

(** No row disappears, a run's details are those of its first insertion, a
    check run id once set stays. *)
Definition history_le (db db' : Database) : Prop :=
  (∀ u row, pipeline_runs db !! u = Some row → ∃ row', pipeline_runs db' !! u = Some row' ∧
     row_run_id row' = row_run_id row ∧ details_le (row_details row) (row_details row')) ∧
  (∀ k e, node_runs db !! k = Some e → ∃ e', node_runs db' !! k = Some e' ∧
     nrow_id (ne_row e') = nrow_id (ne_row e) ∧ nrow_run_id (ne_row e') = nrow_run_id (ne_row e) ∧
     nrow_node_name (ne_row e') = nrow_node_name (ne_row e) ∧
     nrow_node_definition (ne_row e') = nrow_node_definition (ne_row e) ∧
     nrow_created_at (ne_row e') = nrow_created_at (ne_row e)).

(** Rows are under their keys, node rows have a run and ids are drawn from the
    sequence without repetition. *)
Record db_wf (db : Database) : Prop := {
  wf_run_key u row : pipeline_runs db !! u = Some row → row_run_id row = u;
  wf_node_key u n e : node_runs db !! (u, n) = Some e →
    nrow_run_id (ne_row e) = u ∧ nrow_node_name (ne_row e) = n ∧ is_Some (pipeline_runs db !! u);
  wf_id k e : node_runs db !! k = Some e → (nrow_id (ne_row e) < next_id db)%Z;
  wf_id_inj k1 k2 e1 e2 : node_runs db !! k1 = Some e1 → node_runs db !! k2 = Some e2 →
    nrow_id (ne_row e1) = nrow_id (ne_row e2) → k1 = k2;
}.

(** ** Lemmas *)
Lemma details_le_refl d : details_le d d.
Proof. split; [by destruct d|by left]. Qed.
Lemma details_le_trans d1 d2 d3 : details_le d1 d2 → details_le d2 d3 → details_le d1 d3.
Proof.
  intros [E1 C1] [E2 C2]. split.
  - rewrite E2, E1. by destruct d1.
  - destruct C1 as [C1|C1], C2 as [C2|C2]; [left; congruence|right; congruence|by right..].
Qed.

#[export] Instance history_le_preorder : PreOrder history_le.
Proof.
  split.
  - intros db. split; [intros u row Hu; exists row; auto using details_le_refl|intros k e Hk; by exists e].
  - intros db1 db2 db3 [Hr1 Hn1] [Hr2 Hn2]. split.
    + intros u row (row2 & Hu2 & E1 & D1)%Hr1. apply Hr2 in Hu2 as (row3 & Hu3 & E2 & D2).
      exists row3. split_and!; [done|congruence|]. by eapply details_le_trans.
    + intros k e (e2 & He2 & ? & ? & ? & ? & ?)%Hn1. apply Hn2 in He2 as (e3 & ? & ? & ? & ? & ? & ?).
      exists e3. split_and!; congruence.
Qed.

Lemma undo_same db : undo db db = db.
Proof. unfold undo. rewrite Z.max_id. by destruct db. Qed.

(** Whatever the reply, a statement leaves the tables alone or runs once. *)
Lemma execute_cases {A} (stmt : M Database (result string A)) db :
  ∃ rs, (∃ i, (next_id db ≤ i)%Z ∧ (execute stmt db).2 = mkDb (pipeline_runs db) (node_runs db) i rs ∧
      is_ok (execute stmt db).1 = false) ∨
    ∃ a, stmt (with_replies rs db) = (Ok a, (execute stmt db).2) ∧
      ((execute stmt db).1 = Ok a ∨ ∃ m, (execute stmt db).1 = Err (DatabaseError m)).
Proof.
  unfold execute. destruct (match replies db with [] => _ | _ => _ end) as [reply rest]. exists rest.
  destruct reply as [|m|m]; [|left; by exists (next_id db)|].
  all: destruct (stmt (with_replies rest db)) as [[a|e] db'] eqn:E; [right|left; eexists; split; [|done]; cbn; lia].
  - exists a. auto.
  - exists a. eauto.
Qed.

(** A statement that respects a relation, executed under any reply. *)
Lemma execute_rel {A} (R : Database → Database → Prop) (stmt : M Database (result string A)) db :
  (∀ db i rs, (next_id db ≤ i)%Z → R db (mkDb (pipeline_runs db) (node_runs db) i rs)) →
  (∀ db rs a db', stmt (with_replies rs db) = (Ok a, db') → R db db') →
  R db (after (execute stmt) db).
Proof.
  intros Hrep Hstmt. unfold after. destruct (execute_cases stmt db) as (rs & [(i & Hi & -> & _)|(a & Ha & _)]); eauto.
Qed.

Lemma with_run_id_rel {A} (R : Database → Database → Prop) s (k : string → M Database (result RunHistoryError A)) db :
  R db db → (∀ u, R db (after (k u) db)) → R db (after (with_run_id s k) db).
Proof. intros Hr Hk. unfold after, with_run_id in *. destruct (parse_run_id s); [apply Hk|done]. Qed.

Lemma with_retry_of_rel {A} (R : Database → Database → Prop) o
    (k : option string → M Database (result RunHistoryError A)) db :
  R db db → (∀ u, R db (after (k u) db)) → R db (after (with_retry_of o k) db).
Proof.
  intros Hr Hk. unfold after, with_retry_of in *. destruct o as [s|]; [|apply Hk].
  destruct (parse_run_id s); [apply Hk|done].
Qed.

(** A relation that every statement respects holds of every call. *)
Lemma exec_rel (R : Database → Database → Prop) c db :
  (∀ db i rs, (next_id db ≤ i)%Z → R db (mkDb (pipeline_runs db) (node_runs db) i rs)) → (∀ db, R db db) →
  (∀ row f db rs a db', insert_run row f (with_replies rs db) = (Ok a, db') →
     (∀ old, row_run_id (f old) = row_run_id old ∧ details_le (row_details old) (row_details (f old))) → R db db') →
  (∀ u id_row n f db rs a db', insert_node u id_row n f (with_replies rs db) = (Ok a, db') →
     (∀ id, nrow_id (ne_row (id_row id)) = id ∧ nrow_run_id (ne_row (id_row id)) = u ∧
        nrow_node_name (ne_row (id_row id)) = n) →
     (∀ old, nrow_id (ne_row (f old)) = nrow_id (ne_row old) ∧ nrow_run_id (ne_row (f old)) = nrow_run_id (ne_row old) ∧
        nrow_node_name (ne_row (f old)) = nrow_node_name (ne_row old) ∧
        nrow_node_definition (ne_row (f old)) = nrow_node_definition (ne_row old) ∧
        nrow_created_at (ne_row (f old)) = nrow_created_at (ne_row old)) → R db db') →
  (∀ u row st t db rs, pipeline_runs db !! u = Some row →
     R db (set_run u (mkRunRow (row_run_id row) (row_details row) st t) (with_replies rs db))) →
  R db (exec c db).
Proof.
  intros Hrep Hrefl Hrun Hnode Hset. destruct c as [r|r|s st t|r|r]; cbn [exec];
    unfold pg_record_pipeline_started, pg_record_pipeline_run, pg_finalize_pipeline_run_status,
      pg_record_node_dispatched, pg_record_node_run; (apply with_run_id_rel; [done|]; intros u).
  - apply with_retry_of_rel; [done|]. intros retry.
    apply execute_rel; [done|]. intros db0 rs a db' Hins. eapply Hrun; [exact Hins|]. intros old. split; [done|].
    split; [done|]. simpl. destruct (rd_github_check_run_id (row_details old)); auto.
  - apply with_retry_of_rel; [done|]. intros retry.
    apply execute_rel; [done|]. intros db0 rs a db' Hins. eapply Hrun; [exact Hins|]. intros old.
    split; [done|]. apply details_le_refl.
  - apply execute_rel; [done|]. intros db0 rs a db' Hupd.
    simpl in Hupd. destruct (pipeline_runs db0 !! u) as [row|] eqn:Hu; [case_bool_decide|]; simplify_eq; [by eauto|by apply Hrep..].
  - apply execute_rel; [done|]. intros db0 rs a db' Hins.
    eapply Hnode; [exact Hins|done|done].
  - apply execute_rel; [done|]. intros db0 rs a db' Hins.
    eapply Hnode; [exact Hins|done|done].
Qed.

Lemma history_le_set_run u row row' db rs :
  pipeline_runs db !! u = Some row → row_run_id row' = row_run_id row →
  details_le (row_details row) (row_details row') → history_le db (set_run u row' (with_replies rs db)).
Proof.
  intros Hu He Hd. split; [|intros k e Hk; by exists e].
  intros v w Hv. simpl. destruct (decide (u = v)) as [<-|].
  - rewrite lookup_insert_eq. exists row'. by simplify_eq.
  - rewrite lookup_insert_ne by done. exists w. auto using details_le_refl.
Qed.

Lemma exec_history_le c db : history_le db (exec c db).
Proof.
  apply (exec_rel history_le).
  - intros db0 i rs _. split; [intros u row Hu; exists row; auto using details_le_refl|intros k e Hk; by exists e].
  - intros db0. reflexivity.
  - intros row f db0 rs a db' Hins Hf. unfold insert_run in Hins. simpl in Hins.
    destruct (pipeline_runs db0 !! row_run_id row) as [old|] eqn:Hold.
    + simplify_eq. eapply history_le_set_run; [done|apply Hf..].
    + destruct (retry_exists _ _ _); simplify_eq. split; [|intros k e Hk; by exists e].
      intros v w Hv. simpl. rewrite lookup_insert_ne by congruence. exists w. auto using details_le_refl.
  - intros u id_row n f db0 rs a db' Hins _ Hf. unfold insert_node in Hins. simpl in Hins.
    assert (∀ e, node_runs db0 !! (u, n) = None ∨ (∃ old, node_runs db0 !! (u, n) = Some old ∧ e = f old) →
      history_le db0 (set_node (u, n) e (bump_id (with_replies rs db0)))) as Hset.
    { intros e He. split; [intros v row Hv; exists row; auto using details_le_refl|].
      intros k w Hk. simpl. destruct (decide (k = (u, n))) as [->|].
      - rewrite lookup_insert_eq. exists e. destruct He as [He|(old & Hold & ->)]; [congruence|].
        rewrite Hk in Hold. simplify_eq. destruct (Hf old) as (? & ? & ? & ? & ?). done.
      - rewrite lookup_insert_ne by done. by exists w. }
    destruct (node_runs db0 !! (u, n)) as [old|] eqn:Hold; [|case_bool_decide]; simplify_eq; apply Hset; eauto.
  - intros u row st t db0 rs Hu. eapply history_le_set_run; [exact Hu|done|apply details_le_refl].
Qed.

Lemma set_run_wf u row row' db :
  db_wf db → pipeline_runs db !! u = Some row → row_run_id row' = row_run_id row → db_wf (set_run u row' db).
Proof.
  intros [Hk Hn Hi Hj] Hu He. split; simpl; [| |done|done].
  - intros v w [[<- <-]|[_ Hv]]%lookup_insert_Some; [rewrite He|]; by apply Hk.
  - intros v n e Hv. destruct (Hn _ _ _ Hv) as (? & ? & Hrow). split_and!; [done..|].
    apply lookup_insert_is_Some'. by right.
Qed.

Lemma set_node_wf u n e db :
  db_wf db → nrow_run_id (ne_row e) = u → nrow_node_name (ne_row e) = n → is_Some (pipeline_runs db !! u) →
  match node_runs db !! (u, n) with
  | Some old => nrow_id (ne_row e) = nrow_id (ne_row old)
  | None => nrow_id (ne_row e) = next_id db
  end → db_wf (set_node (u, n) e (bump_id db)).
Proof.
  intros [Hk Hn Hi Hj] Hu Hname Hrow Hid. split; simpl; [done|..].
  - intros v m w [[[= <- <-] <-]|[_ Hv]]%lookup_insert_Some; [done|by apply Hn].
  - intros k w [[<- <-]|[_ Hv]]%lookup_insert_Some; [|apply Hi in Hv; lia].
    destruct (node_runs db !! (u, n)) eqn:Hold; [apply Hi in Hold|]; lia.
  - assert (∀ k w, k ≠ (u, n) → node_runs db !! k = Some w → nrow_id (ne_row w) ≠ nrow_id (ne_row e)) as Hfresh.
    { intros k w Hne Hw Heq. destruct (node_runs db !! (u, n)) as [old|] eqn:Hold.
      - apply Hne. eapply Hj; [exact Hw|exact Hold|congruence].
      - apply Hi in Hw. lia. }
    intros k1 k2 e1 e2 [[<- <-]|[Hne1 H1]]%lookup_insert_Some [[<- <-]|[Hne2 H2]]%lookup_insert_Some Heq; [done|..].
    + by destruct (Hfresh k2 e2).
    + by destruct (Hfresh k1 e1).
    + by eapply Hj.
Qed.

Lemma exec_wf c db : db_wf db → db_wf (exec c db).
Proof.
  assert (∀ rs db, db_wf db → db_wf (with_replies rs db)) as Hrep by (intros rs db0 [? ? ? ?]; by split).
  apply (exec_rel (λ db db', db_wf db → db_wf db')); [|done|..].
  { intros db0 i rs Hi [? ? Hid ?]. split; [done|done| |done]. intros k e Hk. cbn. apply Hid in Hk. lia. }
  - intros row f db0 rs a db' Hins Hf Hwf. unfold insert_run in Hins. simpl in Hins.
    destruct (pipeline_runs db0 !! row_run_id row) as [old|] eqn:Hold.
    + simplify_eq. eapply set_run_wf; [by apply Hrep|exact Hold|apply Hf].
    + destruct (retry_exists _ _ _); simplify_eq. destruct Hwf as [Hk Hn Hi Hj]. split; simpl; [| |done|done].
      * intros v w [[<- <-]|[_ Hv]]%lookup_insert_Some; [done|by apply Hk].
      * intros v n e Hv. destruct (Hn _ _ _ Hv) as (? & ? & Hrow). split_and!; [done..|].
        apply lookup_insert_is_Some'. by right.
  - intros u id_row n f db0 rs a db' Hins Hid Hf Hwf. unfold insert_node in Hins. simpl in Hins.
    destruct (node_runs db0 !! (u, n)) as [old|] eqn:Hold; [|case_bool_decide as Hrow]; simplify_eq.
    + destruct (wf_node_key _ Hwf _ _ _ Hold) as (Hu & Hn & Hrow). destruct (Hf old) as (E1 & E2 & E3 & _).
      apply set_node_wf; [by apply Hrep|congruence|congruence|done|]. simpl. by rewrite Hold.
    + destruct (Hid (next_id db0)) as (E1 & E2 & E3).
      apply set_node_wf; [by apply Hrep|done..|]. simpl. by rewrite Hold.
  - intros u row st t db0 rs Hu Hwf. eapply set_run_wf; [by apply Hrep|exact Hu|done].
Qed.

Lemma empty_db_wf rs : db_wf (empty_db rs).
Proof. by split. Qed.

Lemma exec_all_ind (P : Database → Prop) cs db : (∀ c db, P db → P (exec c db)) → P db → P (exec_all cs db).
Proof. intros Hstep. revert db; induction cs as [|c cs IH]; intros db Hdb; simpl; auto. Qed.

Lemma exec_all_history_le cs db : history_le db (exec_all cs db).
Proof. apply (exec_all_ind (history_le db)); [|reflexivity]. intros c db' Hdb. etrans; [exact Hdb|apply exec_history_le]. Qed.

Lemma order_by_sorted {A} (le : A → A → bool) l :
  (∀ a b c, le a b = true → le b c = true → le a c = true) → (∀ a b, le a b = true ∨ le b a = true) →
  StronglySorted (λ a b, le a b = true) (order_by le l).
Proof.
  intros Htrans Htotal. unfold order_by.
  apply (@StronglySorted_merge_sort _ _ (λ a b, decide (le a b = true))); [|exact Htotal].
  intros a b c. apply Htrans.
Qed.
Lemma order_by_perm {A} (le : A → A → bool) (l : list A) : order_by le l ≡ₚ l.
Proof. apply (@merge_sort_Permutation _ _ (λ a b, decide (le a b = true))). Qed.

Lemma column_le_trans c o x y z : column_le c o x y = true → column_le c o y z = true → column_le c o x z = true.
Proof.
  destruct c, o; simpl; rewrite ?Z.leb_le; try lia; try (intros; eapply collate_trans; eassumption).
  all: destruct (row_completed_at x), (row_completed_at y), (row_completed_at z); rewrite ?Z.leb_le; try done; lia.
Qed.
Lemma column_le_total c o x y : column_le c o x y = true ∨ column_le c o y x = true.
Proof.
  destruct c, o; simpl; rewrite ?Z.leb_le; try lia; try apply collate_total.
  all: destruct (row_completed_at x), (row_completed_at y); rewrite ?Z.leb_le; auto; lia.
Qed.

(** ** Properties *)

(** C35: from an empty database and under any sequence of writes, lost answers
    and refused statements, every node row belongs to a recorded run, ids are
    never reused, and nothing recorded is lost: a run's row keeps the details
    it was first inserted with, a check run id once set stays, a node's row
    keeps its id, definition and creation time. *)
Theorem history_is_append_only rs before later :
  let db := exec_all before (empty_db rs) in
  db_wf db ∧ history_le db (exec_all later db).
Proof.
  split; [|apply exec_all_history_le]. apply exec_all_ind; [intros; by apply exec_wf|apply empty_db_wf].
Qed.

(** Finalising, used by the sweeper, is a compare and swap on the status:
    an answer of true means that the row was in progress and now has the given
    status, an answer of false or an invalid id means that nothing was
    written, and a row that is not in progress is never changed, even when the
    answer is lost. *)
Theorem finalize_only_in_progress run_id status t db :
  let '(r, db') := pg_finalize_pipeline_run_status run_id status t db in
  (∀ u row, pipeline_runs db !! u = Some row → row_status row ≠ RsInProgress → pipeline_runs db' !! u = Some row) ∧
  node_runs db' = node_runs db ∧
  match r with
  | Ok true => ∃ u row, parse_uuid run_id = Ok u ∧ pipeline_runs db !! u = Some row ∧ row_status row = RsInProgress ∧
      pipeline_runs db' = <[u := mkRunRow (row_run_id row) (row_details row) status (Some t)]> (pipeline_runs db)
  | Ok false | Err (InvalidRunId _) => pipeline_runs db' = pipeline_runs db
  | Err _ => True
  end.
Proof.
  unfold pg_finalize_pipeline_run_status, with_run_id, parse_run_id. destruct (parse_uuid run_id) as [u|e] eqn:Hu; [|done].
  simpl. match goal with |- context [execute ?s db] => pose proof (execute_cases s db) as (rs & Hc); destruct (execute s db) as [r db'] end.
  simpl in Hc. destruct Hc as [(i & _ & -> & Hno)|(b & Hb & Hr)].
  { split; [done|]. split; [done|]. by destruct r as [|[]]. }
  destruct (pipeline_runs db !! u) as [row|] eqn:Hrow; [case_bool_decide as Hst|]; simplify_eq/=.
  - split; [|split; [done|]].
    + intros v w Hv Hw. rewrite lookup_insert_ne; [done|]. intros ->. congruence.
    + destruct Hr as [->|[m ->]]; [|done]. by exists u, row.
  - split; [done|]. split; [done|]. by destruct Hr as [->|[m ->]].
  - split; [done|]. split; [done|]. by destruct Hr as [->|[m ->]].
Qed.

Lemma execute_ok {A} (stmt : M Database (result string A)) db a db' :
  execute stmt db = (Ok a, db') → ∃ rs, stmt (with_replies rs db) = (Ok a, db').
Proof.
  intros He. destruct (execute_cases stmt db) as (rs & Hc). rewrite He in Hc.
  destruct Hc as [(? & _ & _ & ?)|(b & Hb & [Heq|[m ?]])]; simplify_eq/=. by exists rs.
Qed.
Lemma insert_node_ok u row n f rs db w db' :
  insert_node u row n f (with_replies rs db) = (Ok w, db') →
  node_runs db' !! (u, n) = Some (match node_runs db !! (u, n) with Some old => f old | None => row (next_id db) end).
Proof.
  unfold insert_node. simpl. destruct (node_runs db !! _) eqn:Ho; [|case_bool_decide];
    intros ?; simplify_eq; simpl; by rewrite lookup_insert_eq.
Qed.

(** Once the dispatch of a node and its outcome are both recorded, in
    either order, the row has the definition and creation time of whichever
    came first and the outcome, times, log and failure code of the outcome. *)
Theorem node_row_merges d r db first second db1 db2 u :
  parse_uuid (nd_run_id d) = Ok u → nr_run_id r = nd_run_id d → nr_node_name r = nd_node_name d →
  node_runs db !! (u, nd_node_name d) = None →
  (first, second) ∈ [(pg_record_node_dispatched d, pg_record_node_run r);
                     (pg_record_node_run r, pg_record_node_dispatched d)] →
  first db = (Ok (), db1) → second db1 = (Ok (), db2) →
  ∃ e, node_runs db2 !! (u, nd_node_name d) = Some e ∧
    ((nrow_node_definition (ne_row e), nrow_created_at (ne_row e)) ∈
      [(nd_node_definition d, nd_created_at d); (nr_node_definition r, nr_created_at r)]) ∧
    nrow_success (ne_row e) = Some (nr_success r) ∧ nrow_started_at (ne_row e) = nr_started_at r ∧
    nrow_completed_at (ne_row e) = nr_completed_at r ∧ nrow_failure_reason (ne_row e) = nr_failure_reason r ∧
    ne_output_log e = nr_output_log r.
Proof.
  intros Hu Hrid Hname Hnone Hin H1 H2.
  unfold pg_record_node_dispatched, pg_record_node_run, with_run_id, parse_run_id in Hin.
  rewrite Hrid, Hname in Hin. rewrite Hu in Hin. simpl in Hin.
  apply elem_of_cons in Hin as [Hin|Hin%list_elem_of_singleton]; injection Hin as -> ->.
  all: apply execute_ok in H1 as [rs1 H1], H2 as [rs2 H2]; apply insert_node_ok in H1, H2.
  all: rewrite Hnone in H1; rewrite H1 in H2; eexists; split; [exact H2|]; simpl.
  all: split_and!; [|done..]; set_solver.
Qed.

(** A page of the run list is the requested slice of one list, which holds
    the rows that pass every given filter, once each, in the order of the
    requested column with unfinished runs last, and whose length is the count
    the server reports; a negative limit or offset is an error. *)
Theorem run_pages_spec q db :
  replies db = [] →
  ∃ full, full ≡ₚ List.filter (filter_where (q_filters q)) (all_runs db) ∧
    StronglySorted (λ a b, column_le (q_sort_by q) (q_order q) a b = true) full ∧
    pg_count_pipeline_runs (q_filters q) db = (Ok (Z.of_nat (length full)), db) ∧
    if (q_limit q <? 0)%Z || (q_offset q <? 0)%Z
    then ∃ msg, pg_list_pipeline_runs q db = (Err (DatabaseError msg), db)
    else pg_list_pipeline_runs q db = (Ok (take (Z.to_nat (q_limit q)) (drop (Z.to_nat (q_offset q)) full)), db).
Proof.
  intros Hrep. exists (order_by (column_le (q_sort_by q) (q_order q)) (List.filter (filter_where (q_filters q)) (all_runs db))).
  assert (with_replies [] db = db) as Hdb by (destruct db; simpl in *; by subst).
  split; [apply order_by_perm|]. split; [apply order_by_sorted; [apply column_le_trans|apply column_le_total]|].
  split.
  - unfold pg_count_pipeline_runs, select, execute. rewrite Hrep, Hdb. by rewrite (Permutation_length (order_by_perm _ _)).
  - unfold pg_list_pipeline_runs, execute. rewrite Hrep, Hdb.
    destruct (q_limit q <? 0)%Z; simpl; [eexists; by rewrite undo_same|].
    destruct (q_offset q <? 0)%Z; [eexists; by rewrite undo_same|done].
Qed.

(** Statuses and sort keys survive the trip through the database and the
    query string; nothing else parses. *)
Theorem codes_round_trip :
  (∀ s st, from_db_str s = Ok st ↔ s = run_status_str st) ∧
  (∀ s c, parse_sort_column s = Some c ↔ s = sort_column_sql c).
Proof.
  split.
  - intros s st. split; [|intros ->; by destruct st]. unfold from_db_str.
    repeat case_match; intros ?; simplify_eq/=; autorewrite with bools in *; done.
  - intros s c. split; [|intros ->; by destruct c]. unfold parse_sort_column.
    repeat case_match; intros ?; simplify_eq/=; autorewrite with bools in *; done.
Qed.
End facts.
End PostgresFacts.

(** ** Witnesses *)

Section witnesses.
Import Postgres PostgresFacts.

#[local] Instance byte_order_backend : Backend.
Proof.
  refine {| parse_uuid := Ok; collate := λ a b, bool_decide (String.le a b) |}.
  - intros a b c. rewrite !bool_decide_eq_true. intros; by etrans.
  - intros a b. rewrite !bool_decide_eq_true. apply (total String.le).
Defined.

Definition details_of (created : Z) : RunDetails :=
  mkDetails "ci" "acme" "app" "abc" None None None None "push" "yaml" created None None None.
Definition db_with_run : Database :=
  exec (CallStarted (mkStart "r1" (details_of 5))) (empty_db []).

Lemma node_row_merges_witness :
  ∃ e, node_runs (exec_all [CallDispatched (mkDispatch "r1" "build" "{}" 7);
                            CallNodeRun (mkNodeRun "r1" "build" "{}" true 9 (Some 8%Z) (Some 9%Z) None None)] db_with_run)
    !! ("r1", "build") = Some e ∧ nrow_success (ne_row e) = Some true.
Proof.
  pose (d := mkDispatch "r1" "build" "{}" 7).
  pose (r := mkNodeRun "r1" "build" "{}" true 9 (Some 8%Z) (Some 9%Z) None None).
  pose (db1 := exec (CallDispatched d) db_with_run).
  assert (pg_record_node_dispatched d db_with_run = (Ok (), db1)) as H1 by (vm_compute; reflexivity).
  assert (pg_record_node_run r db1 = (Ok (), exec (CallNodeRun r) db1)) as H2 by (vm_compute; reflexivity).
  assert (parse_uuid (nd_run_id d) = Ok "r1") as Hu by reflexivity.
  assert (node_runs db_with_run !! ("r1", nd_node_name d) = None) as Hnone by (vm_compute; reflexivity).
  destruct (node_row_merges d r db_with_run _ _ _ _ "r1" Hu eq_refl eq_refl Hnone
    (list_elem_of_here _ _) H1 H2) as (e & He & _ & Hs & _).
  exists e. split; [exact He|exact Hs].
Defined.

Lemma run_pages_spec_witness :
  pg_list_pipeline_runs (mkQuery 10 0 SortCreatedAt Desc (mkFilters None None None None)) db_with_run =
    (Ok [mkRunRow "r1" (details_of 5) RsInProgress None], db_with_run) ∧
  ∃ full, pg_count_pipeline_runs (mkFilters None None None None) db_with_run =
    (Ok (Z.of_nat (length full)), db_with_run) ∧ length (full : list PipelineRunRow) = 1.
Proof.
  split; [vm_compute; reflexivity|].
  destruct (run_pages_spec (mkQuery 10 0 SortCreatedAt Desc (mkFilters None None None None)) db_with_run eq_refl)
    as (full & Hperm & _ & Hcount & _).
  exists full. split; [exact Hcount|]. rewrite (Permutation_length Hperm). reflexivity.
Defined.
End witnesses.
