(* ===== verification/Dispatcher.v ===== *)
(** * The dispatcher interface (coordinator/src/dispatcher.rs)

    The [Dispatcher] trait as a type class, its default methods, and the
    logging dispatcher used for local development. *)

From S2P Require Import Prelude AppConfig Pipeline SourceManager PodWatcher.

Inductive DispatchError :=
| DispatchErrorFailed (msg : string)
| DispatchErrorSource (e : SourceError)
| DispatchErrorKube (msg : string).

Definition dispatch_error_to_string (e : DispatchError) : string :=
  match e with
  | DispatchErrorFailed m => "Dispatch failed: " +:+ m
  | DispatchErrorSource e => "Source error: " +:+ source_error_to_string e
  | DispatchErrorKube m => "Kubernetes error: " +:+ m
  end.

Record RunMetadata := mkMetadata {
  rm_owner : string; rm_repo : string; rm_sha : string; rm_branch : option string;
  rm_target_branch : option string; rm_tag : option string; rm_pr_number : option Z; rm_trigger : string }.

(** The trait. A read of outcomes also tells how many seconds it took, because
    its caller puts it under a timeout; starting the pod watcher tells whether
    there is one. *)
Class Dispatcher (D : Type) : Type := {
  dispatch : string → RunMetadata → NodeInfo → Pipeline → AppConfig → M D (result DispatchError unit);
  cancel_node : string → string → AppConfig → M D (result DispatchError unit);
  cleanup_run : string → M D (result DispatchError unit);
  get_node_outcome : string → string → M D (result DispatchError (option NodeOutcome));
  read_outcomes_for_running_nodes : string → list string → M D (Z * gmap string ReconcileResult);
  get_node_log : string → string → M D (result DispatchError (option string));
  node_pod_exists : string → string → M D (result DispatchError bool);
  start_pod_watcher : string → gset string → M D bool;
  list_managed_run_ids : M D (result DispatchError (list string));
}.

(** The default of [read_outcomes_for_running_nodes]: one outcome after the
    other. *)
Fixpoint default_read_outcomes {D} (get : string → string → M D (result DispatchError (option NodeOutcome)))
    (run_id : string) (nodes : list string) (out : gmap string ReconcileResult)
  : M D (gmap string ReconcileResult) :=
  match nodes with
  | [] => mret out
  | node_name :: nodes =>
      r ← get run_id node_name;
      let result := match r with
        | Ok (Some outcome) => reconcile_from outcome
        | Ok None => StillRunning
        | Err e => TransientReadError (dispatch_error_to_string e)
        end in
      default_read_outcomes get run_id nodes (<[node_name := result]> out)
  end.

(** ** The logging dispatcher: every node succeeds at once; it keeps the
    completions it publishes on the backplane. *)
Record LogDispatcher := mkLogDispatcher { published : list (string * string * bool) }.

Definition log_dispatch (run_id : string) (_ : RunMetadata) (node : NodeInfo) (_ : Pipeline) (_ : AppConfig)
  : M LogDispatcher (result DispatchError unit) := λ d,
  (Ok (), mkLogDispatcher (published d ++ [(run_id, ni_name node, true)])).

#[export] Instance log_dispatcher : Dispatcher LogDispatcher := {
  dispatch := log_dispatch;
  cancel_node _ _ _ := mret (Ok ());
  cleanup_run _ := mret (Ok ());
  get_node_outcome _ _ := mret (Ok None);
  read_outcomes_for_running_nodes run_id nodes := λ d,
    let '(out, d) := default_read_outcomes (λ _ _, mret (Ok None)) run_id nodes ∅ d in ((0%Z, out), d);
  get_node_log _ _ := mret (Ok None);
  node_pod_exists _ _ := mret (Ok true);
  start_pod_watcher _ _ := mret false;
  list_managed_run_ids := mret (Ok []);
}.

(** The default reads answer for every requested node and only for those. *)
Lemma default_read_outcomes_dom {D} get run_id nodes out (d : D) :
  dom (default_read_outcomes get run_id nodes out d).1 = dom out ∪ list_to_set nodes.
Proof.
  revert out d; induction nodes as [|n nodes IH]; intros out d; simpl; [set_solver|].
  unfold mbind, state_bind. destruct (get run_id n d) as [r d']. rewrite IH, dom_insert_L. set_solver.
Qed.
