(* ===== verification/Backplane.v ===== *)
(** * The backplane (backplane/src/lib.rs)

    Events about runs, published by any server and consumed by the coordinator
    of the run: the trait, the implementation on RabbitMQ, as the calls it makes
    to a broker that may fail any of them, and the in-memory implementation on
    broadcast channels, whose library is a parameter. *)

From S2P Require Import Prelude.

Inductive BackplaneEvent :=
| NodeCompleted (node_name : string) (success : bool)
| CancelRun.

Inductive BackplaneError :=
| AmqpError (msg : string)
| BackplanePoolError (msg : string)
| BackplaneSerialization (msg : string)
| BackplaneOther (msg : string).

(** The traits [Backplane] and [RunSubscription]. Waiting for an event may not
    have ended yet ([None]); it ends with an event or with the end of the
    stream. *)
Class Backplane (B : Type) : Type := {
  publish_node_completed : string → string → bool → M B (result BackplaneError unit);
  publish_cancel : string → M B (result BackplaneError unit);
  backplane_ping : M B (result BackplaneError unit);
  Subscription : Type;
  subscribe_run : string → M B (result BackplaneError Subscription);
  next_event : Subscription → M B (option (option BackplaneEvent) * Subscription);
}.

(** ** RabbitMQ *)
Module Rabbit.

Inductive AmqpCall :=
| PoolGet
| CreateChannel
| ExchangeDeclare (exchange : string) (durable : bool)
| BasicPublish (exchange routing_key : string) (payload : list ascii)
| PublisherConfirm
| QueueDeclare (queue : string) (auto_delete exclusive : bool)
| QueueBind (queue exchange routing_key : string)
| BasicConsume (queue : string)
| Ack (payload : list ascii)
| Nack (payload : list ascii).

(** The connection: the calls made so far, how the broker will answer the next
    ones, and what it will deliver to each queue's consumer. *)
Record RabbitmqBackplane := mkRabbit {
  rb_calls : list AmqpCall;
  rb_replies : list Reply;
  rb_inbox : gmap string (list (result string (list ascii))) }.

(** An event as bytes (serde_json). *)
Class EventText : Type := {
  event_to_vec : BackplaneEvent → result string (list ascii);
  event_from_slice : list ascii → option BackplaneEvent;
}.

Definition call (error : string → BackplaneError) (c : AmqpCall) : M RabbitmqBackplane (result BackplaneError unit) := λ b,
  let b' := mkRabbit (rb_calls b ++ [c]) (tail (rb_replies b)) (rb_inbox b) in
  match rb_replies b with
  | [] | Served :: _ => (Ok (), b')
  | Refused e :: _ | Lost e :: _ => (Err (error e), b')
  end.

Definition JEFFERIES_EXCHANGE : string := "jefferies.events".
Definition routing_key (run_id : string) : string := "run." +:+ run_id.
Definition queue_name (run_id : string) : string := "jefferies.coordinator." +:+ run_id.

Section rabbit.
Context `{EventText}.

Definition rabbit_publish_event (run_id : string) (event : BackplaneEvent) : M RabbitmqBackplane (result BackplaneError unit) :=
  _ ←? call BackplanePoolError PoolGet;
  _ ←? call AmqpError CreateChannel;
  _ ←? call AmqpError (ExchangeDeclare JEFFERIES_EXCHANGE true);
  match event_to_vec event with
  | Err e => mret (Err (BackplaneSerialization e))
  | Ok payload =>
      _ ←? call AmqpError (BasicPublish JEFFERIES_EXCHANGE (routing_key run_id) payload);
      call AmqpError PublisherConfirm
  end.

Definition rabbit_subscribe_run (run_id : string) : M RabbitmqBackplane (result BackplaneError string) :=
  _ ←? call BackplanePoolError PoolGet;
  _ ←? call AmqpError CreateChannel;
  _ ←? call AmqpError (ExchangeDeclare JEFFERIES_EXCHANGE true);
  _ ←? call AmqpError (QueueDeclare (queue_name run_id) true true);
  _ ←? call AmqpError (QueueBind (queue_name run_id) JEFFERIES_EXCHANGE (routing_key run_id));
  _ ←? call AmqpError (BasicConsume (queue_name run_id));
  mret (Ok (queue_name run_id)).

(** The loop of [next_event] over what the consumer receives; the answers to
    acknowledgements are ignored. *)
Fixpoint rabbit_receive (deliveries : list (result string (list ascii)))
  : M RabbitmqBackplane (option BackplaneEvent * list (result string (list ascii))) :=
  match deliveries with
  | [] => mret (None, [])
  | Err _ :: rest => mret (None, rest)
  | Ok data :: rest =>
      match event_from_slice data with
      | Some event => _ ← call AmqpError (Ack data); mret (Some event, rest)
      | None => _ ← call AmqpError (Nack data); rabbit_receive rest
      end
  end.
Definition rabbit_next_event (queue : string) : M RabbitmqBackplane (option BackplaneEvent * string) := λ b,
  let '((event, rest), b) := rabbit_receive (default [] (rb_inbox b !! queue)) b in
  ((event, queue), mkRabbit (rb_calls b) (rb_replies b) (<[queue := rest]> (rb_inbox b))).

Definition rabbit_ping : M RabbitmqBackplane (result BackplaneError unit) :=
  _ ←? call BackplanePoolError PoolGet; mret (Ok ()).

#[export] Instance rabbitmq_backplane : Backplane RabbitmqBackplane := {
  publish_node_completed run_id node_name success := rabbit_publish_event run_id (NodeCompleted node_name success);
  publish_cancel run_id := rabbit_publish_event run_id CancelRun;
  backplane_ping := rabbit_ping;
  Subscription := string;
  subscribe_run := rabbit_subscribe_run;
  next_event queue := '(event, queue) ← rabbit_next_event queue; mret (Some event, queue);
}.
End rabbit.
End Rabbit.

(** ** In memory *)
Module InMemoryBus.

Inductive Recv := Received (event : BackplaneEvent) | Lagged (skipped : nat) | Closed.

(** tokio's broadcast channel: what a receiver has not seen yet are the messages
    sent since it subscribed or last received; when they are more than the
    capacity, receiving first skips the oldest. [recv] is [None] while there is
    nothing to receive. *)
Class Broadcast (C R : Type) : Type := {
  channel : nat → C;
  send : BackplaneEvent → C → bool * C;
  subscribe : C → R * C;
  recv : R → C → option Recv * R;
}.
Class BroadcastSpec (C R : Type) `{Broadcast C R} : Type := {
  capacity : C → nat;
  receives_from : R → C → Prop;
  pending : R → C → list BackplaneEvent;
  channel_capacity n : capacity (channel n) = n;
  send_spec e c : capacity (send e c).2 = capacity c ∧ ∀ r, receives_from r c →
    receives_from r (send e c).2 ∧ pending r (send e c).2 = pending r c ++ [e];
  subscribe_spec c : let '(r, c') := subscribe c in capacity c' = capacity c ∧ receives_from r c' ∧ pending r c' = [] ∧
    ∀ r0, receives_from r0 c → receives_from r0 c' ∧ pending r0 c' = pending r0 c;
  recv_spec r c : receives_from r c → let '(o, r') := recv r c in
    receives_from r' c ∧
    if (capacity c <? length (pending r c))%nat
    then o = Some (Lagged (length (pending r c) - capacity c)) ∧ pending r' c = drop (length (pending r c) - capacity c) (pending r c)
    else match pending r c with
         | [] => o = None ∧ r' = r
         | e :: l => o = Some (Received e) ∧ pending r' c = l
         end;
}.

Section bus.
Context {C R : Type} `{Broadcast C R}.

Record InMemoryBackplane := mkBus { channels : gmap string C }.
Definition new : InMemoryBackplane := mkBus ∅.

(** [channels.entry(run_id).or_insert_with(|| broadcast::channel(128).0)] *)
Definition sender_of (run_id : string) (b : InMemoryBackplane) : C := default (channel 128) (channels b !! run_id).
Definition set_channel (run_id : string) (c : C) (b : InMemoryBackplane) : InMemoryBackplane := mkBus (<[run_id := c]> (channels b)).

Definition bus_publish_event (run_id : string) (event : BackplaneEvent) : M InMemoryBackplane (result BackplaneError unit) := λ b,
  (Ok (), set_channel run_id (send event (sender_of run_id b)).2 b).

Definition bus_subscribe_run (run_id : string) : M InMemoryBackplane (result BackplaneError (string * R)) := λ b,
  let '(receiver, c) := subscribe (sender_of run_id b) in (Ok (run_id, receiver), set_channel run_id c b).

(** The loop of [next_event]: after a lag it receives again; two rounds are
    enough. *)
Fixpoint bus_receive (fuel : nat) (receiver : R) (c : C) : option (option BackplaneEvent) * R :=
  match fuel with
  | 0 => (None, receiver)
  | Datatypes.S fuel =>
      match recv receiver c with
      | (None, receiver) => (None, receiver)
      | (Some (Received e), receiver) => (Some (Some e), receiver)
      | (Some (Lagged _), receiver) => bus_receive fuel receiver c
      | (Some Closed, receiver) => (Some None, receiver)
      end
  end.
Definition bus_next_event (sub : string * R) (b : InMemoryBackplane) : option (option BackplaneEvent) * (string * R) :=
  let '(o, receiver) := bus_receive 2 sub.2 (sender_of sub.1 b) in (o, (sub.1, receiver)).

#[export] Instance in_memory_backplane : Backplane InMemoryBackplane := {
  publish_node_completed run_id node_name success := bus_publish_event run_id (NodeCompleted node_name success);
  publish_cancel run_id := bus_publish_event run_id CancelRun;
  backplane_ping := mret (Ok ());
  Subscription := string * R;
  subscribe_run := bus_subscribe_run;
  next_event sub := gets (bus_next_event sub);
}.
End bus.
End InMemoryBus.

(** ** Properties *)

Module RabbitFacts.
Import Rabbit.
Section facts.
Context `{EventText}.

(** The calls of a complete publication. *)
Definition publication (run_id : string) (payload : list ascii) : list AmqpCall :=
  [PoolGet; CreateChannel; ExchangeDeclare JEFFERIES_EXCHANGE true;
   BasicPublish JEFFERIES_EXCHANGE (routing_key run_id) payload; PublisherConfirm].
Definition subscription (run_id : string) : list AmqpCall :=
  [PoolGet; CreateChannel; ExchangeDeclare JEFFERIES_EXCHANGE true; QueueDeclare (queue_name run_id) true true;
   QueueBind (queue_name run_id) JEFFERIES_EXCHANGE (routing_key run_id); BasicConsume (queue_name run_id)].

(** A program that makes the calls of a list in order and stops at the first
    that fails. *)
Definition makes {A} (m : M RabbitmqBackplane (result BackplaneError A)) (calls : list AmqpCall) (a : A) : Prop :=
  ∀ b, let '(r, b') := m b in rb_inbox b' = rb_inbox b ∧
    match r with
    | Ok x => x = a ∧ rb_calls b' = rb_calls b ++ calls
    | Err _ => ∃ done, rb_calls b' = rb_calls b ++ done ∧ done `prefix_of` calls
    end.

Lemma makes_ret {A} (a : A) : makes (mret (Ok a)) [] a.
Proof. intros b. simpl. by rewrite app_nil_r. Qed.
Lemma makes_call {A} err c (m : M RabbitmqBackplane (result BackplaneError A)) calls a :
  makes m calls a → makes (_ ←? call err c; m) (c :: calls) a.
Proof.
  intros Hm b. unfold bind_ok. rewrite bind_eq. unfold call.
  set (b1 := mkRabbit (rb_calls b ++ [c]) (tail (rb_replies b)) (rb_inbox b)).
  assert (∃ done, rb_calls b1 = rb_calls b ++ done ∧ done `prefix_of` (c :: calls)) as Hone.
  { exists [c]. split; [done|]. by exists calls. }
  destruct (rb_replies b) as [|[|e|e] rs]; cbn [fst snd]; [| |by split..].
  all: specialize (Hm b1); destruct (m b1) as [[x|e] b2]; destruct Hm as [Hi Hm]; split; [done| |done|].
  1,3: destruct Hm as [-> ->]; split; [done|]; cbn; by rewrite <- app_assoc.
  all: destruct Hm as (done & -> & Hp); exists (c :: done); split; [cbn; by rewrite <- app_assoc|by apply prefix_cons].
Qed.

Lemma receive_spec l b :
  let '((o, rest), b') := rabbit_receive l b in
  rb_inbox b' = rb_inbox b ∧ ∃ bad, Forall (λ data, event_from_slice data = None) bad ∧
    match o with
    | Some e => ∃ data, l = (Ok <$> bad) ++ Ok data :: rest ∧ event_from_slice data = Some e ∧
        rb_calls b' = rb_calls b ++ (Nack <$> bad) ++ [Ack data]
    | None => rb_calls b' = rb_calls b ++ (Nack <$> bad) ∧
        (l = Ok <$> bad ∧ rest = [] ∨ ∃ e, l = (Ok <$> bad) ++ Err e :: rest)
    end.
Proof.
  revert b; induction l as [|[data|e] l IH]; intros b; simpl.
  - split; [done|]. exists []. split; [constructor|]. split; [by rewrite app_nil_r|by left].
  - destruct (event_from_slice data) as [ev|] eqn:Hd.
    + unfold mbind, state_bind, call. destruct (rb_replies b) as [|[|e|e] rs]; cbn;
        (split; [done|]; exists []; split; [constructor|]; exists data; split_and!; [done..|]; by rewrite app_nil_l).
    + rewrite bind_eq. assert (rb_inbox (call AmqpError (Nack data) b).2 = rb_inbox b ∧
        rb_calls (call AmqpError (Nack data) b).2 = rb_calls b ++ [Nack data]) as [Hi Hc]
        by (unfold call; by destruct (rb_replies b) as [|[|e|e] rs]).
      specialize (IH (call AmqpError (Nack data) b).2). destruct (rabbit_receive l _) as [[o rest] b'].
      rewrite Hi, Hc in IH. destruct IH as (-> & bad & Hbad & Ho). split; [done|]. exists (data :: bad). split; [by constructor|].
      destruct o as [ev|].
      * destruct Ho as (data' & -> & Hev & ->). exists data'. split_and!; [done..|]. by rewrite <- app_assoc.
      * destruct Ho as [-> Ho]. split; [by rewrite <- app_assoc|].
        destruct Ho as [[-> ->]|[e ->]]; [by left|right; by exists e].
  - split; [done|]. exists []. split; [constructor|]. split; [by rewrite app_nil_r|]. right. by exists e.
Qed.

(** On RabbitMQ a publication that is answered with success declared the
    exchange and published the event once, under the key of its run, and a
    failed one stopped within that sequence; a subscription binds the run's own
    queue to the same key, and keys and queues of different runs differ. *)
Theorem rabbit_routes run_id event :
  match event_to_vec event with
  | Ok payload => makes (rabbit_publish_event run_id event) (publication run_id payload) ()
  | Err _ => ∀ b, is_ok (rabbit_publish_event run_id event b).1 = false
  end ∧
  makes (rabbit_subscribe_run run_id) (subscription run_id) (queue_name run_id) ∧
  ∀ other, routing_key other = routing_key run_id ∨ queue_name other = queue_name run_id → other = run_id.
Proof.
  split; [|split].
  - unfold rabbit_publish_event. destruct (event_to_vec event) as [payload|e].
    + do 4 apply makes_call. intros b. pose proof (makes_call AmqpError PublisherConfirm _ [] () (makes_ret ()) b) as Hm.
      unfold bind_ok in Hm. rewrite bind_eq in Hm. destruct (call AmqpError PublisherConfirm b) as [[[]|e] b']; exact Hm.
    + intros b. unfold bind_ok. rewrite bind_eq. destruct (call _ PoolGet b) as [[u|x] b1]; [|done].
      cbn [fst snd]. rewrite bind_eq. destruct (call _ CreateChannel b1) as [[u1|x] b2]; [|done].
      cbn [fst snd]. rewrite bind_eq. by destruct (call _ (ExchangeDeclare _ _) b2) as [[u2|x] b3].
  - unfold rabbit_subscribe_run. do 6 apply makes_call. apply makes_ret.
  - intros other [Heq|Heq]; [by injection Heq|]. by injection Heq.
Qed.

(** The consumer returns the first delivery that decodes, acknowledges it
    and rejects exactly the undecodable ones before it; it ends only at an error
    or at the end of the stream. *)
Theorem rabbit_consumes queue b :
  let inbox := default [] (rb_inbox b !! queue) in
  let '((o, _), b') := rabbit_next_event queue b in
  let rest := default [] (rb_inbox b' !! queue) in
  ∃ bad, Forall (λ data, event_from_slice data = None) bad ∧
    match o with
    | Some e => ∃ data, inbox = (Ok <$> bad) ++ Ok data :: rest ∧ event_from_slice data = Some e ∧
        rb_calls b' = rb_calls b ++ (Nack <$> bad) ++ [Ack data]
    | None => rb_calls b' = rb_calls b ++ (Nack <$> bad) ∧
        (inbox = Ok <$> bad ∧ rest = [] ∨ ∃ e, inbox = (Ok <$> bad) ++ Err e :: rest)
    end.
Proof.
  intros inbox. unfold rabbit_next_event. pose proof (receive_spec inbox b) as Hs. fold inbox.
  destruct (rabbit_receive inbox b) as [[o rest] b']. destruct Hs as (_ & bad & Hbad & Ho). cbn.
  rewrite lookup_insert_eq. by exists bad.
Qed.
End facts.
End RabbitFacts.

Module BusFacts.
Import InMemoryBus.
Section facts.
Context {C R : Type} `{BS : BroadcastSpec C R}.

Lemma bus_receive_spec receiver c : receives_from receiver c →
  let '(o, receiver') := bus_receive 2 receiver c in
  (0 < capacity c)%nat → receives_from receiver' c ∧
  match drop (length (pending receiver c) - capacity c) (pending receiver c) with
  | [] => o = None
  | e :: l => o = Some (Some e) ∧ pending receiver' c = l
  end.
Proof.
  intros Hfrom. cbn [bus_receive]. pose proof (recv_spec receiver c Hfrom) as Hr. destruct (recv receiver c) as [o r1].
  destruct Hr as [Hfrom1 Hr]. destruct (capacity c <? length (pending receiver c))%nat eqn:Hlt.
  - apply Nat.ltb_lt in Hlt. destruct Hr as [-> Hp]. pose proof (recv_spec r1 c Hfrom1) as Hr1. destruct (recv r1 c) as [o1 r2].
    destruct Hr1 as [Hfrom2 Hr1]. rewrite Hp in Hr1. replace (capacity c <? length (drop _ _))%nat with false in Hr1
      by (symmetry; apply Nat.ltb_ge; rewrite length_drop; lia).
    destruct (drop _ _) as [|e l]; destruct Hr1 as [-> Hr1]; by split.
  - apply Nat.ltb_ge in Hlt. replace (length (pending receiver c) - capacity c) with 0 by lia. rewrite drop_0.
    destruct (pending receiver c) as [|e l]; destruct Hr as [-> Hr]; by split.
Qed.

(** What happens on the bus between the subscription and the reads. *)
Inductive BusOp := Publish (run_id : string) (event : BackplaneEvent) | Join (run_id : string).
Definition bus_op (op : BusOp) (b : InMemoryBackplane) : InMemoryBackplane :=
  match op with
  | Publish run_id event => (bus_publish_event run_id event b).2
  | Join run_id => (bus_subscribe_run run_id b).2
  end.
Definition bus_ops (ops : list BusOp) (b : InMemoryBackplane) : InMemoryBackplane := foldl (λ b op, bus_op op b) b ops.
Definition events_of (run_id : string) (ops : list BusOp) : list BackplaneEvent :=
  omap (λ op, match op with Publish r e => if decide (r = run_id) then Some e else None | Join _ => None end) ops.

(** All reads of a subscriber, up to [n]. *)
Fixpoint drain (n : nat) (sub : string * R) (b : InMemoryBackplane) : list BackplaneEvent :=
  match n with
  | 0 => []
  | Datatypes.S n => match bus_next_event sub b with (Some (Some e), sub) => e :: drain n sub b | _ => [] end
  end.

Definition bus_ok (b : InMemoryBackplane) : Prop := ∀ r, capacity (sender_of r b) = 128.
Lemma sender_of_set r r' c (b : InMemoryBackplane) :
  sender_of r (set_channel r' c b) = if decide (r' = r) then c else sender_of r b.
Proof. unfold sender_of, set_channel. cbn. rewrite lookup_insert. by case_decide. Qed.

(** A step of the bus appends the events of a run to what its receivers have not
    read. *)
Definition appends (events : string → list BackplaneEvent) (b b' : InMemoryBackplane) : Prop :=
  bus_ok b' ∧ ∀ r receiver, receives_from receiver (sender_of r b) →
    receives_from receiver (sender_of r b') ∧ pending receiver (sender_of r b') = pending receiver (sender_of r b) ++ events r.

Lemma bus_op_spec op (b : InMemoryBackplane) : bus_ok b → appends (λ r, events_of r [op]) b (bus_op op b).
Proof.
  intros Hok. destruct op as [r' e|r']; unfold events_of, appends; cbn [omap list_omap bus_op].
  - destruct (send_spec e (sender_of r' b)) as [Hc Hs]. unfold bus_publish_event. cbn [snd]. split.
    + intros r. rewrite sender_of_set. case_decide; [rewrite Hc|]; apply Hok.
    + intros r receiver Hfrom. rewrite sender_of_set. case_decide as Hr; [subst r'; by apply Hs|by rewrite app_nil_r].
  - unfold bus_subscribe_run. pose proof (subscribe_spec (sender_of r' b)) as Hs.
    destruct (subscribe (sender_of r' b)) as [rv c]. destruct Hs as (Hc & _ & _ & Hp). cbn [snd]. split.
    + intros r. rewrite sender_of_set. case_decide; [rewrite Hc|]; apply Hok.
    + intros r receiver Hfrom. rewrite sender_of_set, app_nil_r. case_decide as Hr; [subst r'; by apply Hp|done].
Qed.

Lemma bus_ops_spec ops (b : InMemoryBackplane) : bus_ok b → appends (λ r, events_of r ops) b (bus_ops ops b).
Proof.
  revert b; induction ops as [|op ops IH]; intros b Hok; [split; [done|]; intros; by rewrite app_nil_r|].
  destruct (bus_op_spec op b Hok) as [Hok1 Hp1]. destruct (IH _ Hok1) as [Hok2 Hp2]. split; [exact Hok2|].
  intros r receiver Hfrom. destruct (Hp1 r receiver Hfrom) as [Hfrom1 E1]. destruct (Hp2 r receiver Hfrom1) as [Hfrom2 E2].
  change (bus_ops (op :: ops) b) with (bus_ops ops (bus_op op b)). split; [exact Hfrom2|]. rewrite E2, E1, <- app_assoc. f_equal.
  change (op :: ops) with ([op] ++ ops). unfold events_of. by rewrite omap_app.
Qed.

Lemma drain_spec n r receiver (b : InMemoryBackplane) : bus_ok b → receives_from receiver (sender_of r b) →
  let l := pending receiver (sender_of r b) in drain n (r, receiver) b = take n (drop (length l - 128) l).
Proof.
  intros Hok. revert receiver; induction n as [|n IH]; intros receiver Hfrom; [done|]. cbn [drain]. unfold bus_next_event. cbn [fst snd].
  pose proof (bus_receive_spec receiver (sender_of r b) Hfrom) as Hr.
  destruct (bus_receive 2 receiver (sender_of r b)) as [o receiver']. rewrite (Hok r) in Hr. destruct Hr as [Hfrom' Hr]; [lia|].
  set (l := pending receiver (sender_of r b)) in *. assert (length (drop (length l - 128) l) ≤ 128) as Hlen by (rewrite length_drop; lia).
  destruct (drop (length l - 128) l) as [|e l']; [by subst o|]. destruct Hr as [-> Hp]. cbn [take]. f_equal.
  specialize (IH receiver' Hfrom'). cbn in IH. rewrite IH, Hp. cbn in Hlen. by replace (length l' - 128) with 0 by lia.
Qed.

(** A subscriber of the in-memory backplane reads, in order, exactly the
    events published for its run since it subscribed, whatever is published for
    other runs and whoever else subscribes; if more than 128 were published
    before it reads, the oldest are lost and the last 128 remain. *)
Theorem bus_delivers before run_id ops n :
  let b := bus_ops before new in
  match (bus_subscribe_run run_id b).1 with
  | Ok sub =>
      drain n sub (bus_ops ops (bus_subscribe_run run_id b).2) =
        take n (drop (length (events_of run_id ops) - 128) (events_of run_id ops))
  | Err _ => False
  end.
Proof.
  intros b. assert (bus_ok new) as Hnew by (intros r; unfold sender_of, new; cbn [channels]; rewrite lookup_empty; apply channel_capacity).
  destruct (bus_ops_spec before new Hnew) as [Hok _]. fold b in Hok. unfold bus_subscribe_run.
  pose proof (subscribe_spec (sender_of run_id b)) as Hs. destruct (subscribe (sender_of run_id b)) as [rv c].
  destruct Hs as (Hc & Hfrom & Hp & _). cbn [fst snd].
  assert (bus_ok (set_channel run_id c b)) as Hok1.
  { intros r. rewrite sender_of_set. case_decide; [rewrite Hc|]; apply Hok. }
  destruct (bus_ops_spec ops _ Hok1) as [Hok2 Hp2]. destruct (Hp2 run_id rv) as [Hfrom2 E].
  { by rewrite sender_of_set, decide_True by done. }
  rewrite (drain_spec n run_id rv _ Hok2 Hfrom2), E. by rewrite sender_of_set, decide_True, Hp by done.
Qed.
End facts.
End BusFacts.

(** ** A concrete channel *)
Module Example.
Import InMemoryBus BusFacts.

(** All messages sent, and how many of them a receiver has behind it. *)
#[local] Instance log_channel : Broadcast (nat * list BackplaneEvent) nat := {|
  channel n := (n, []);
  send e := λ '(n, l), (true, (n, l ++ [e]));
  subscribe := λ '(n, l), (length l, (n, l));
  recv r := λ '(n, l),
    let unread := drop r l in
    if (n <? length unread)%nat then (Some (Lagged (length unread - n)), r + (length unread - n))
    else match unread with [] => (None, r) | e :: _ => (Some (Received e), Datatypes.S r) end |}.
#[local] Instance log_channel_spec : BroadcastSpec (nat * list BackplaneEvent) nat.
Proof.
  refine {| capacity := fst; receives_from r c := r ≤ length c.2; pending r c := drop r c.2 |}.
  - done.
  - intros e [n l]. split; [done|]. cbn. intros r Hr. rewrite length_app. split; [lia|]. by rewrite drop_app_le.
  - intros [n l]. cbn. split_and!; [done|lia|by rewrite drop_all|]. by intros r Hr.
  - intros r [n l] Hr. unfold recv, log_channel. cbn [fst snd] in *. destruct (n <? length (drop r l))%nat eqn:Hlt; cbn [fst snd].
    + apply Nat.ltb_lt in Hlt. rewrite length_drop in *. split; [lia|]. split; [done|]. by rewrite drop_drop.
    + destruct (drop r l) as [|e rest] eqn:Hd; [by split|]. assert (r < length l)%nat as Hlen.
      { apply (f_equal length) in Hd. rewrite length_drop in Hd. cbn in Hd. lia. }
      split; [lia|]. split; [done|]. replace (Datatypes.S r) with (r + 1) by lia. by rewrite <- drop_drop, Hd.
Defined.

(** A subscriber that is 130 events late. *)
Definition burst : list BusOp := (λ n, Publish (if Nat.even n then "r" else "q") (NodeCompleted (pretty n) true)) <$> seq 0 260.
Lemma bus_delivers_witness :
  match (bus_subscribe_run "r" (bus_ops [] new)).1 with
  | Ok sub => length (drain 200 sub (bus_ops burst (bus_subscribe_run "r" (bus_ops [] new)).2)) = 128
  | Err _ => False
  end.
Proof.
  pose proof (bus_delivers [] "r" burst 200) as Hb. cbv zeta in Hb. destruct (bus_subscribe_run "r" (bus_ops [] new)).1; [|exact Hb].
  rewrite Hb. vm_compute. reflexivity.
Defined.
End Example.
