(* ===== verification/KubeDispatcher.v ===== *)
(** * The Kubernetes dispatcher (coordinator/src/kube_dispatcher.rs)

    The names, labels, annotations, environment, volumes and deadline of the
    job that runs a node, and the calls that create, cancel, clean up and list
    jobs and their script config maps. The Kubernetes API, the presigned URLs of
    the source manager and the digest are parameters. The objects have the
    fields the code sets. *)

From S2P Require Import Prelude AppConfig Pipeline SourceManager PodWatcher Dispatcher.

(** SHA-256 and hexadecimal encoding, from the crates sha2 and hex. *)
Class Digest : Type := {
  sha256 : list ascii → list ascii;
  hex_encode : list ascii → string;
  sha256_length : ∀ l, length (sha256 l) = 32;
  hex_encode_length : ∀ l, String.length (hex_encode l) = 2 * length l;
  hex_encode_digits : ∀ l, Forall (λ b, is_ascii_digit b = true ∨ byte_in "a" "f" b = true) (bytes (hex_encode l));
}.

(** ** Names *)

(** A byte that continues a UTF-8 character: it stands for no character. *)
Definition is_continuation (b : ascii) : bool := (128 <=? nat_of_ascii b) && (nat_of_ascii b <? 192).

Fixpoint drop_dashes (l : list ascii) : list ascii :=
  match l with
  | [] => []
  | b :: l' => if byte_eqb b "-" then drop_dashes l' else l
  end.
(** [trim_end_matches('-')], [trim_matches('-')] *)
Definition trim_end_dashes (l : list ascii) : list ascii := reverse (drop_dashes (reverse l)).
Definition trim_dashes (l : list ascii) : list ascii := trim_end_dashes (drop_dashes l).

Definition sanitize_char (b : ascii) : ascii :=
  if is_ascii_alphanumeric b then to_ascii_lowercase b else "-"%char.

Definition sanitize_k8s_name (s : string) : list ascii :=
  trim_dashes (sanitize_char <$> List.filter (λ b, negb (is_continuation b)) (bytes s)).

Definition RUN_ID_PREFIX_LEN : nat := 8.
Definition NODE_NAME_PREFIX_LEN : nat := 24.
Definition STABLE_HASH_LEN : nat := 8.

Section names.
Context `{Digest}.

Definition stable_hash (s : string) : string := hex_encode (take (STABLE_HASH_LEN / 2) (sha256 (bytes s))).

Definition truncate_with_hash (s : string) (prefix_len : nat) : string :=
  let sanitized := sanitize_k8s_name s in
  if (length sanitized <=? prefix_len + 1 + STABLE_HASH_LEN)%nat then of_bytes sanitized
  else of_bytes (trim_end_dashes (take prefix_len sanitized)) +:+ "-" +:+ stable_hash s.

Definition short_run_id (run_id : string) : string := truncate_with_hash run_id RUN_ID_PREFIX_LEN.
Definition short_node_name (node_name : string) : string := truncate_with_hash node_name NODE_NAME_PREFIX_LEN.

Definition job_name (run_id node_name : string) : string :=
  "run-" +:+ short_run_id run_id +:+ "-" +:+ short_node_name node_name.
Definition configmap_name (run_id node_name : string) : string := job_name run_id node_name +:+ "-script".
End names.

Definition run_labels (run_id : string) : gmap string string :=
  {["the-conn.com/run-id" := run_id; "the-conn.com/managed-by" := "jefferies"]}.
Definition node_annotations (node_name : string) : gmap string string := {[NODE_NAME_ANNOTATION := node_name]}.

(** ** Vault annotations *)

Definition VAULT_SECRETS_MOUNT_PATH : string := "/etc/tube/secrets".
Definition VAULT_ENV_SUBDIR : string := "env".
Definition VAULT_FILES_SUBDIR : string := "files".

Definition repo_slug (owner repo : string) : string := owner +:+ "__" +:+ repo.
Definition vault_secret_path (owner repo : string) : string := "secret/data/" +:+ repo_slug owner repo.
Definition vault_role (owner repo : string) : string := repo_slug owner repo.

Definition quote : string := String "034" "".
Definition newline : string := String "010" "".
Definition vault_template (owner repo key : string) : string :=
  "{{- with secret " +:+ quote +:+ vault_secret_path owner repo +:+ quote +:+ " -}}" +:+ newline +:+
  "  {{ index .Data.data " +:+ quote +:+ key +:+ quote +:+ " }}" +:+ newline +:+ "{{- end -}}".

Definition split_custom_path (path : string) : string * string :=
  match rsplit_once "/" path with
  | Some (dir, base) => if str_eqb dir "" then ("/", base) else (dir, base)
  | None => ("", path)
  end.

Definition vault_key (kind id : string) : string := "vault.hashicorp.com/" +:+ kind +:+ id.

Definition env_annotations (owner repo key : string) (out : gmap string string) : gmap string string :=
  let id := "env-" +:+ key in
  <[vault_key "agent-inject-file-" id := VAULT_ENV_SUBDIR +:+ "/" +:+ key]>
  (<[vault_key "agent-inject-template-" id := vault_template owner repo key]>
  (<[vault_key "agent-inject-secret-" id := vault_secret_path owner repo]> out)).

Definition file_annotations (owner repo : string) (spec : FileSecretSpec) (out : gmap string string)
  : gmap string string :=
  let id := "f-" +:+ fss_name spec in
  let out :=
    <[vault_key "agent-inject-template-" id := vault_template owner repo (fss_name spec)]>
    (<[vault_key "agent-inject-secret-" id := vault_secret_path owner repo]> out) in
  match fss_path spec with
  | None => <[vault_key "agent-inject-file-" id := VAULT_FILES_SUBDIR +:+ "/" +:+ fss_name spec]> out
  | Some custom =>
      let '(dir, basename) := split_custom_path custom in
      <[vault_key "agent-inject-file-" id := basename]> (<[vault_key "secret-volume-path-" id := dir]> out)
  end.

Definition vault_annotations (env_secrets : list string) (file_secrets : list FileSecretSpec) (owner repo : string)
  : gmap string string :=
  match env_secrets, file_secrets with
  | [], [] => ∅
  | _, _ =>
      let out : gmap string string :=
        <["vault.hashicorp.com/role" := vault_role owner repo]>
        (<["vault.hashicorp.com/secret-volume-path" := VAULT_SECRETS_MOUNT_PATH]>
        (<["vault.hashicorp.com/agent-pre-populate-only" := "true"]>
        (<["vault.hashicorp.com/agent-inject" := "true"]> ∅))) in
      let out := foldl (λ out key, env_annotations owner repo key out) out env_secrets in
      foldl (λ out spec, file_annotations owner repo spec out) out file_secrets
  end.

(** ** Script, environment, deadline, resources *)

Definition build_script (steps : list string) : string :=
  foldl (λ script step, script +:+ step +:+ newline)
    ("#!/bin/bash" +:+ newline +:+ "set -euxo pipefail" +:+ newline) steps.

Definition poke_url_for (backend_namespace run_id node_name : string) : string :=
  "http://jefferies." +:+ backend_namespace +:+ ".svc.cluster.local./api/v1/runs/" +:+ run_id +:+
  "/nodes/" +:+ node_name +:+ "/poke".

Definition build_env_vars (run_id node_name status_put_url logs_put_url get_url poke_url : string)
  : list (string * string) :=
  [("TUBE__EXECUTION__USER_SCRIPT_PATH", "/etc/conn/script.sh");
   ("TUBE__EXECUTION__RUN_ID", run_id);
   ("TUBE__EXECUTION__NODE_NAME", node_name);
   ("TUBE__EXECUTION__STATUS_PUT_URL", status_put_url);
   ("TUBE__EXECUTION__LOGS_PUT_URL", logs_put_url);
   ("TUBE__EXECUTION__POKE_URL", poke_url);
   ("TUBE__EXECUTION__LOG_LEVEL", "info");
   ("TUBE__LOG__LEVEL", "warn");
   ("TUBE__WORKSPACE__GET_URL", get_url);
   ("TUBE__WORKSPACE__DIR", "/workspace");
   ("TUBE__SECRETS__DIR", VAULT_SECRETS_MOUNT_PATH +:+ "/" +:+ VAULT_ENV_SUBDIR)].

Definition jefferies_env_vars (run_id : string) (metadata : RunMetadata) : list (string * string) :=
  [("JEFFERIES_RUN_ID", run_id);
   ("JEFFERIES_TRIGGER", rm_trigger metadata);
   ("JEFFERIES_OWNER", rm_owner metadata);
   ("JEFFERIES_REPO", rm_repo metadata);
   ("JEFFERIES_SHA", rm_sha metadata);
   ("JEFFERIES_BRANCH", default "" (rm_branch metadata));
   ("JEFFERIES_TARGET_BRANCH", default "" (rm_target_branch metadata));
   ("JEFFERIES_TAG", default "" (rm_tag metadata));
   ("JEFFERIES_PR_NUMBER", match rm_pr_number metadata with Some n => pretty n | None => "" end)].

Definition SAFETY_DEADLINE_BUFFER_SECS : Z := 60.

Definition compute_safety_deadline_secs (node : NodeInfo) (config : AppConfig) : Z :=
  let runtime := default (default_node_timeout_secs config) (ni_timeout_secs node) in
  let startup := default (default_node_startup_timeout_secs config) (ni_startup_timeout_secs node) in
  let total := u64_saturating_add (u64_saturating_add startup runtime) SAFETY_DEADLINE_BUFFER_SECS in
  default i64_max (try_i64 total).

Record ResourceRequirements := mkResources { requests : gmap string string; limits : gmap string string }.
Definition resource_requirements (cpu memory : string) : ResourceRequirements :=
  let map : gmap string string := {["cpu" := cpu; "memory" := memory]} in mkResources map map.

(** ** Volumes *)

Record VolumeMount := mkMount { vm_name : string; vm_mount_path : string; vm_sub_path : option string }.
Inductive VolumeSource := EmptyDir (medium size_limit : option string) | ConfigMapSource (name : string) (mode : Z).
Record Volume := mkVolume { v_name : string; v_source : VolumeSource }.

Definition CACHE_MOUNT_PATH : string := "/tmp/cache".

(** The names sorted, each with its mount. *)
Definition append_user_volumes (user_volumes : gmap string string) (mounts : list VolumeMount) (volumes : list Volume)
  : list VolumeMount * list Volume :=
  let names := btree_keys (dom user_volumes) in
  (mounts ++ omap (λ name, mount_path ← user_volumes !! name; Some (mkMount name mount_path None)) names,
   volumes ++ ((λ name, mkVolume name (EmptyDir None None)) <$> names)).

Definition base_mounts : list VolumeMount :=
  [mkMount "tube-bin" "/shared" None; mkMount "workspace" "/workspace" None;
   mkMount "user-script" "/etc/conn/script.sh" (Some "script.sh")].
Definition base_volumes (cm_name : string) : list Volume :=
  [mkVolume "tube-bin" (EmptyDir None None); mkVolume "workspace" (EmptyDir None None);
   mkVolume "user-script" (ConfigMapSource cm_name 493)].

(** ** Jobs and config maps *)

Record ConfigMap := mkConfigMap { cm_name_of : string; cm_namespace : string; cm_labels : gmap string string; cm_data : gmap string string }.

Record Container := mkContainer {
  ct_name : string; ct_image : string; ct_command : list string; ct_args : list string; ct_env : list (string * string);
  ct_resources : option ResourceRequirements; ct_privileged : option bool; ct_volume_mounts : list VolumeMount }.

Record Job := mkJob {
  job_meta_name : string; job_namespace : string; job_labels : gmap string string; job_annotations : gmap string string;
  pod_labels : gmap string string; pod_annotations : gmap string string;
  active_deadline_seconds : Z; backoff_limit : Z; restart_policy : string;
  runtime_class_name : option string; service_account_name : string;
  init_containers : list Container; containers : list Container; job_volumes : list Volume }.

(** The settings of the dispatcher. *)
Record KubeDispatcher := mkKube {
  k_namespace : string; k_backend_namespace : string; k_tube_image : string; k_default_node_image : string;
  k_service_account_privileged : string; k_service_account_default : string; k_runtime_class : string;
  k_default_cpu : string; k_default_memory : string }.

Record JobContext := mkJobContext {
  jc_run_id : string; jc_node_name : string; jc_cm_name : string; jc_labels : gmap string string;
  jc_annotations : gmap string string; jc_env_vars : list (string * string); jc_safety_deadline_secs : Z }.

(** Mounts and volumes of the node's container, before the user's. *)
Definition builtin_volumes (cm_name : string) (cache_size : option string) : list VolumeMount * list Volume :=
  match cache_size with
  | Some cache_size =>
      (base_mounts ++ [mkMount "cache" CACHE_MOUNT_PATH None],
       base_volumes cm_name ++ [mkVolume "cache" (EmptyDir (Some "Memory") (Some cache_size))])
  | None => (base_mounts, base_volumes cm_name)
  end.

Definition build_job `{Digest} (k : KubeDispatcher) (ctx : JobContext) (node : NodeInfo) : Job :=
  let image := if str_eqb (ni_image node) "" then k_default_node_image k else ni_image node in
  let cpu := default (k_default_cpu k) (ni_cpu node) in
  let memory := default (k_default_memory k) (ni_memory node) in
  let '(mounts, volumes) := builtin_volumes (jc_cm_name ctx) (ni_cache_size node) in
  let '(user_volume_mounts, volumes) := append_user_volumes (ni_volumes node) mounts volumes in
  {| job_meta_name := job_name (jc_run_id ctx) (jc_node_name ctx);
     job_namespace := k_namespace k;
     job_labels := jc_labels ctx;
     job_annotations := jc_annotations ctx;
     pod_labels := jc_labels ctx;
     pod_annotations := jc_annotations ctx;
     active_deadline_seconds := jc_safety_deadline_secs ctx;
     backoff_limit := 0;
     restart_policy := "Never";
     runtime_class_name := if ni_privileged node then Some (k_runtime_class k) else None;
     service_account_name := if ni_privileged node then k_service_account_privileged k else k_service_account_default k;
     init_containers := [mkContainer "tube-init" (k_tube_image k) ["cp"; "/usr/local/bin/tube"; "/shared/tube"] [] []
       None None [mkMount "tube-bin" "/shared" None]];
     containers := [mkContainer "tube" image ["/shared/tube"] [] (jc_env_vars ctx)
       (Some (resource_requirements cpu memory)) (if ni_privileged node then Some true else None) user_volume_mounts];
     job_volumes := volumes |}.

(** ** The Kubernetes API

    What the code relies on of the API server for objects of one kind in one
    namespace: names are unique, and a request that is answered with success
    has taken effect. An error may be a refusal, after which nothing has
    changed, or a reply that was lost on the way, after which the request may
    have taken effect; nothing tells the two apart. *)
Class KubeApi (K : Type) : Type := {
  create_job : Job → M K (result string unit);
  delete_job : string → M K (result string unit);
  delete_jobs_of_run : string → M K (result string unit);
  create_configmap : ConfigMap → M K (result string unit);
  delete_configmap : string → M K (result string unit);
  delete_configmaps_of_run : string → M K (result string unit);
  list_pods_of_run : string → M K (result string (list Pod));
  list_jobs_of_jefferies : M K (result string (list (option (gmap string string))));
  list_configmaps_of_jefferies : M K (result string (list (option (gmap string string))));
  jobs : K → gmap string Job;
  configmaps : K → gmap string ConfigMap;
  create_job_spec job k : match create_job job k with
    | (Ok _, k') => jobs k !! job_meta_name job = None ∧ jobs k' = <[job_meta_name job := job]> (jobs k) ∧ configmaps k' = configmaps k
    | (Err _, k') => configmaps k' = configmaps k ∧
        (jobs k' = jobs k ∨ jobs k !! job_meta_name job = None ∧ jobs k' = <[job_meta_name job := job]> (jobs k))
    end;
  create_configmap_spec cm k : match create_configmap cm k with
    | (Ok _, k') => configmaps k !! cm_name_of cm = None ∧ configmaps k' = <[cm_name_of cm := cm]> (configmaps k) ∧ jobs k' = jobs k
    | (Err _, k') => jobs k' = jobs k ∧
        (configmaps k' = configmaps k ∨
         configmaps k !! cm_name_of cm = None ∧ configmaps k' = <[cm_name_of cm := cm]> (configmaps k))
    end;
  delete_configmap_spec name k : match delete_configmap name k with
    | (Ok _, k') => configmaps k' = delete name (configmaps k) ∧ jobs k' = jobs k
    | (Err _, k') => jobs k' = jobs k ∧ (configmaps k' = configmaps k ∨ configmaps k' = delete name (configmaps k))
    end;
}.

Section dispatcher.
Context `{Digest, HashOrder} {K : Type} `{KubeApi K} {B : Type} `{S3Client B}.
Variable k : KubeDispatcher.

Definition create_script_configmap (run_id cm_name script : string) : M K (result DispatchError unit) :=
  r ← create_configmap (mkConfigMap cm_name (k_namespace k) (run_labels run_id) {["script.sh" := script]});
  mret (map_err DispatchErrorKube r).

Definition create_job_or_rollback_configmap (job : Job) (cm_name : string) : M K (result DispatchError unit) :=
  r ← create_job job;
  match r with
  | Ok _ => mret (Ok ())
  | Err e => _ ← delete_configmap cm_name; mret (Err (DispatchErrorKube e))
  end.

(** The three presigned URLs, in order, stopping at the first error. *)
Definition presigned_urls (run_id : string) (node : NodeInfo) : result SourceError (string * string * string) :=
  status_put_url ← put_status_url run_id (ni_name node);
  logs_put_url ← put_logs_url run_id (ni_name node);
  get_url ← (if ni_checkout node then get_source_url run_id else Ok "");
  mret (status_put_url, logs_put_url, get_url).

Definition job_context (run_id : string) (metadata : RunMetadata) (node : NodeInfo) (config : AppConfig)
    (urls : string * string * string) : JobContext :=
  let '(status_put_url, logs_put_url, get_url) := urls in
  let vault := vault_annotations (ni_env_secrets node) (ni_file_secrets node) (rm_owner metadata) (rm_repo metadata) in
  let poke_url := poke_url_for (k_backend_namespace k) run_id (ni_name node) in
  let env_vars := build_env_vars run_id (ni_name node) status_put_url logs_put_url get_url poke_url
    ++ jefferies_env_vars run_id metadata ++ hash_iter (ni_env node) in
  mkJobContext run_id (ni_name node) (configmap_name run_id (ni_name node)) (run_labels run_id)
    (vault ∪ node_annotations (ni_name node)) env_vars (compute_safety_deadline_secs node config).

Definition kube_dispatch (run_id : string) (metadata : RunMetadata) (node : NodeInfo) (config : AppConfig)
  : M K (result DispatchError unit) :=
  let has_secrets := negb (bool_decide (ni_env_secrets node = [])) || negb (match ni_file_secrets node with [] => true | _ => false end) in
  if has_secrets && (str_eqb (rm_owner metadata) "" || str_eqb (rm_repo metadata) "")
  then mret (Err (DispatchErrorFailed "Vault injection requested but owner/repo missing on RunContext"))
  else match presigned_urls run_id node with
  | Err e => mret (Err (DispatchErrorSource e))
  | Ok urls =>
      let ctx := job_context run_id metadata node config urls in
      r ← create_script_configmap run_id (jc_cm_name ctx) (build_script (ni_steps node));
      match r with
      | Err e => mret (Err e)
      | Ok _ => create_job_or_rollback_configmap (build_job k ctx node) (jc_cm_name ctx)
      end
  end.

Definition kube_cancel_node (run_id node_name : string) : M K (result DispatchError unit) :=
  _ ← delete_job (job_name run_id node_name);
  _ ← delete_configmap (configmap_name run_id node_name);
  mret (Ok ()).

Definition kube_node_pod_exists (run_id node_name : string) : M K (result DispatchError bool) :=
  r ← list_pods_of_run run_id;
  mret (match r with
        | Err e => Err (DispatchErrorKube e)
        | Ok pods => Ok (existsb (λ p, bool_decide (node_name_for p = Some node_name)) pods)
        end).

Definition run_ids_of (labels : list (option (gmap string string))) : list string :=
  omap (λ o, labels ← o; (labels : gmap string string) !! "the-conn.com/run-id") labels.

Definition kube_list_managed_run_ids : M K (result DispatchError (list string)) :=
  r ← list_jobs_of_jefferies;
  match r with
  | Err e => mret (Err (DispatchErrorKube e))
  | Ok job_list =>
      r ← list_configmaps_of_jefferies;
      mret (match r with
            | Err e => Err (DispatchErrorKube e)
            | Ok cm_list => Ok (hash_set_iter (list_to_set (run_ids_of job_list ++ run_ids_of cm_list)))
            end)
  end.

(** The dispatcher's state: the cluster and, through its source manager, the
    bucket. *)
Definition on_cluster {A} (m : M K A) : M (K * B) A := λ '(c, b), let '(r, c) := m c in (r, (c, b)).
Definition on_bucket {A} (m : M B A) : M (K * B) A := λ '(c, b), let '(r, b) := m b in (r, (c, b)).

Definition kube_cleanup_run (run_id : string) : M (K * B) (result DispatchError unit) :=
  _ ← on_cluster (delete_jobs_of_run run_id);
  _ ← on_cluster (delete_configmaps_of_run run_id);
  r ← on_bucket (sm_cleanup_run run_id);
  mret (map_err DispatchErrorSource r).

Variable from_slice : list ascii → result string NodeOutcome.
Variable from_utf8_lossy : list ascii → string.

Definition kube_get_node_outcome (run_id node_name : string) : M (K * B) (result DispatchError (option NodeOutcome)) :=
  r ← on_bucket (get_node_status from_slice run_id node_name);
  mret (match r with
        | Ok outcome => Ok (Some outcome)
        | Err (NotFound _) => Ok None
        | Err e => Err (DispatchErrorSource e)
        end).

Definition kube_get_node_log (run_id node_name : string) : M (K * B) (result DispatchError (option string)) :=
  r ← on_bucket (sm_get_node_log from_utf8_lossy run_id node_name);
  mret (map_err DispatchErrorSource r).

(** How long the reads from the bucket take. *)
Variable read_seconds : list string → B → Z.

#[export] Instance kube_dispatcher : Dispatcher (K * B) := {
  dispatch run_id metadata node _ config := on_cluster (kube_dispatch run_id metadata node config);
  cancel_node run_id node_name _ := on_cluster (kube_cancel_node run_id node_name);
  cleanup_run := kube_cleanup_run;
  get_node_outcome := kube_get_node_outcome;
  read_outcomes_for_running_nodes run_id nodes := λ s,
    let '(out, s') := on_bucket (sm_read_outcomes from_slice run_id nodes) s in ((read_seconds nodes s.2, out), s');
  get_node_log := kube_get_node_log;
  node_pod_exists run_id node_name := on_cluster (kube_node_pod_exists run_id node_name);
  start_pod_watcher _ _ := mret true;
  list_managed_run_ids := on_cluster kube_list_managed_run_ids;
}.
End dispatcher.

(** ** Names: lemmas *)

(** A character of a Kubernetes object name. *)
Definition name_char (b : ascii) : bool := is_ascii_lowercase b || is_ascii_digit b || byte_eqb b "-".
Definition name_alnum (b : ascii) : bool := is_ascii_lowercase b || is_ascii_digit b.

Lemma ascii_forall (P : ascii → bool) : forallb (λ n, P (ascii_of_nat n)) (seq 0 256) = true → ∀ b, P b = true.
Proof.
  intros Hall b. rewrite forallb_forall in Hall. rewrite <-(ascii_nat_embedding b). apply Hall.
  apply in_seq. pose proof (nat_ascii_bounded b). lia.
Qed.

Lemma sanitize_char_ok b : name_char (sanitize_char b) = true.
Proof. revert b. apply ascii_forall. vm_compute. reflexivity. Qed.
Lemma sanitize_alnum b : implb (is_ascii_alphanumeric b) (name_alnum (sanitize_char b)) = true.
Proof. revert b. apply ascii_forall. vm_compute. reflexivity. Qed.
Lemma alnum_not_continuation b : implb (is_ascii_alphanumeric b) (negb (is_continuation b)) = true.
Proof. revert b. apply ascii_forall. vm_compute. reflexivity. Qed.
Lemma alnum_not_dash b : implb (name_alnum b) (negb (byte_eqb b "-")) = true.
Proof. revert b. apply ascii_forall. vm_compute. reflexivity. Qed.
Lemma hex_name_alnum b : is_ascii_digit b = true ∨ byte_in "a" "f" b = true → name_alnum b = true.
Proof.
  assert (implb (is_ascii_digit b || byte_in "a" "f" b) (name_alnum b) = true) as Himp.
  { revert b. apply ascii_forall. vm_compute. reflexivity. }
  intros [Hb|Hb]; rewrite Hb in Himp; [done|]. by rewrite orb_true_r in Himp.
Qed.
Lemma alnum_char b : name_alnum b = true → name_char b = true.
Proof. unfold name_alnum, name_char. intros ->. done. Qed.

Lemma drop_dashes_suffix l : ∃ d, l = d ++ drop_dashes l ∧ Forall (λ b, b = "-"%char) d.
Proof.
  induction l as [|b l (d & Hd & Hall)]; simpl; [by exists []|].
  destruct (byte_eqb b "-") eqn:Hb; [|by exists []]. apply byte_eqb_true in Hb as ->.
  exists ("-"%char :: d). split; [by rewrite Hd at 1|by constructor].
Qed.
Lemma drop_dashes_head l b : head (drop_dashes l) = Some b → b ≠ "-"%char.
Proof.
  induction l as [|a l IH]; simpl; [done|]. destruct (byte_eqb a "-") eqn:Ha; [exact IH|].
  simpl. intros [= <-]. by apply byte_eqb_false in Ha.
Qed.
Lemma trim_end_prefix l : ∃ d, l = trim_end_dashes l ++ d ∧ Forall (λ b, b = "-"%char) d.
Proof.
  unfold trim_end_dashes. destruct (drop_dashes_suffix (reverse l)) as (d & Hd & Hall). exists (reverse d).
  split; [|by apply Forall_reverse]. by rewrite <-reverse_app, <-Hd, reverse_involutive.
Qed.
Lemma trim_end_last l b : last (trim_end_dashes l) = Some b → b ≠ "-"%char.
Proof. unfold trim_end_dashes. rewrite last_reverse. apply drop_dashes_head. Qed.
Lemma trim_end_incl l b : b ∈ trim_end_dashes l → b ∈ l.
Proof. destruct (trim_end_prefix l) as (d & Hd & _). rewrite Hd at 2. intros ?. apply elem_of_app. by left. Qed.
Lemma trim_end_length l : length (trim_end_dashes l) ≤ length l.
Proof. destruct (trim_end_prefix l) as (d & Hd & _). rewrite Hd at 2. rewrite length_app. lia. Qed.
Lemma trim_end_keeps l b : b ∈ l → b ≠ "-"%char → b ∈ trim_end_dashes l.
Proof.
  destruct (trim_end_prefix l) as (d & Hd & Hall). rewrite Hd at 1. intros [Hin|Hin]%elem_of_app Hne; [done|].
  rewrite Forall_forall in Hall. by destruct (Hne (Hall b Hin)).
Qed.
Lemma trim_incl l b : b ∈ trim_dashes l → b ∈ l.
Proof.
  intros Hin%trim_end_incl. destruct (drop_dashes_suffix l) as (d & Hd & _). rewrite Hd. apply elem_of_app. by right.
Qed.
Lemma trim_keeps l b : b ∈ l → b ≠ "-"%char → b ∈ trim_dashes l.
Proof.
  intros Hin Hne. apply trim_end_keeps; [|done]. destruct (drop_dashes_suffix l) as (d & Hd & Hall).
  rewrite Hd in Hin. apply elem_of_app in Hin as [Hin|Hin]; [|done]. rewrite Forall_forall in Hall.
  by destruct (Hne (Hall b Hin)).
Qed.

Lemma sanitize_chars s b : b ∈ sanitize_k8s_name s → name_char b = true.
Proof.
  intros Hin%trim_incl. apply list_elem_of_fmap in Hin as (a & -> & _). apply sanitize_char_ok.
Qed.
Lemma name_char_alnum b : name_char b = true → b ≠ "-"%char → name_alnum b = true.
Proof.
  unfold name_char, name_alnum. intros Hc Hne. apply orb_true_iff in Hc as [Hc|Hc]; [done|].
  by apply byte_eqb_true in Hc.
Qed.
Lemma sanitize_last s b : last (sanitize_k8s_name s) = Some b → name_alnum b = true.
Proof.
  intros Hl. apply name_char_alnum; [|by eapply trim_end_last]. apply (sanitize_chars s).
  by apply last_Some_elem_of.
Qed.
Lemma sanitize_nonempty s a : a ∈ bytes s → is_ascii_alphanumeric a = true → sanitize_k8s_name s ≠ [].
Proof.
  intros Hin Ha Hnil. pose proof (sanitize_alnum a) as Hs. pose proof (alnum_not_continuation a) as Hc.
  rewrite Ha in Hs, Hc. simpl in Hs, Hc. pose proof (alnum_not_dash (sanitize_char a)) as Hd. rewrite Hs in Hd. simpl in Hd.
  assert (sanitize_char a ∈ sanitize_k8s_name s) as Hmem.
  { apply trim_keeps; [|by apply negb_true_iff, byte_eqb_false in Hd]. apply list_elem_of_fmap_2.
    apply list_elem_of_In, filter_In. split; [by apply list_elem_of_In|done]. }
  rewrite Hnil in Hmem. by apply elem_of_nil in Hmem.
Qed.

Section names_facts.
Context `{Digest}.

Lemma stable_hash_spec s : String.length (stable_hash s) = 8 ∧ Forall (λ b, name_alnum b = true) (bytes (stable_hash s)).
Proof.
  unfold stable_hash. split.
  - rewrite hex_encode_length, length_take, sha256_length. reflexivity.
  - eapply Forall_impl; [apply hex_encode_digits|]. intros b. apply hex_name_alnum.
Qed.

Lemma truncate_spec s p :
  String.length (truncate_with_hash s p) ≤ p + 9 ∧
  Forall (λ b, name_char b = true) (bytes (truncate_with_hash s p)) ∧
  ((∃ a, a ∈ bytes s ∧ is_ascii_alphanumeric a = true) →
     ∃ b, last (bytes (truncate_with_hash s p)) = Some b ∧ name_alnum b = true).
Proof.
  destruct (stable_hash_spec s) as [Hlen Hhash]. unfold truncate_with_hash.
  assert (Forall (λ b, name_char b = true) (sanitize_k8s_name s)) as Hall
    by (apply Forall_forall; intros b; apply sanitize_chars).
  destruct (Nat.leb_spec (length (sanitize_k8s_name s)) (p + 1 + STABLE_HASH_LEN)) as [Hle|Hgt].
  - rewrite <-bytes_length, bytes_of_bytes. split_and!; [unfold STABLE_HASH_LEN in Hle; lia|done|].
    intros (a & Hin & Ha). pose proof (sanitize_nonempty s a Hin Ha) as Hne.
    destruct (last (sanitize_k8s_name s)) as [b|] eqn:Hl; [|by apply last_None in Hl].
    exists b. split; [done|]. by apply (sanitize_last s).
  - rewrite !str_length_app, Hlen, !bytes_app, bytes_of_bytes. split_and!.
    + rewrite <-bytes_length, bytes_of_bytes. pose proof (trim_end_length (take p (sanitize_k8s_name s))) as Ht.
      rewrite length_take in Ht. simpl. lia.
    + apply Forall_app. split; [|apply Forall_app; split; [by repeat constructor|eapply Forall_impl; [exact Hhash|apply alnum_char]]].
      apply Forall_forall. intros b Hb%trim_end_incl. rewrite Forall_forall in Hall. apply Hall.
      apply (list_elem_of_subseteq_take p _ _ Hb) || (apply (elem_of_take) in Hb as (i & Hi & _); by eapply list_elem_of_lookup_2).
    + intros _. assert (bytes (stable_hash s) ≠ []) as Hne by (intros Hnil; apply (f_equal length) in Hnil; rewrite bytes_length, Hlen in Hnil; done).
      rewrite !last_app. destruct (last (bytes (stable_hash s))) as [b|] eqn:Hl; [|by apply last_None in Hl].
      exists b. split; [done|]. rewrite Forall_forall in Hhash. apply Hhash. by apply last_Some_elem_of.
Qed.

(** Every name the dispatcher gives a job or a config map fits in a
    Kubernetes label and consists of lower case letters, digits and dashes; it
    starts with a letter, a config map's ends with one, and a job's ends with a
    letter or digit provided the node's name has one at all. *)
Theorem object_names_valid run_id node_name :
  let job := job_name run_id node_name in
  let cm := configmap_name run_id node_name in
  String.length job ≤ 55 ∧ String.length cm ≤ 62 ∧
  Forall (λ b, name_char b = true) (bytes job) ∧ Forall (λ b, name_char b = true) (bytes cm) ∧
  head (bytes job) = Some "r"%char ∧ head (bytes cm) = Some "r"%char ∧ last (bytes cm) = Some "t"%char ∧
  ((∃ a, a ∈ bytes node_name ∧ is_ascii_alphanumeric a = true) →
     ∃ b, last (bytes job) = Some b ∧ name_alnum b = true).
Proof.
  destruct (truncate_spec run_id RUN_ID_PREFIX_LEN) as (L1 & C1 & _), (truncate_spec node_name NODE_NAME_PREFIX_LEN) as (L2 & C2 & A2).
  unfold configmap_name, job_name, short_run_id, short_node_name in *. cbv zeta.
  assert (Forall (λ b, name_char b = true)
    (bytes ("run-" +:+ truncate_with_hash run_id RUN_ID_PREFIX_LEN +:+ "-" +:+ truncate_with_hash node_name NODE_NAME_PREFIX_LEN))) as Hjob.
  { rewrite !bytes_app, !Forall_app. split_and!; [by repeat constructor|done|by repeat constructor|done]. }
  unfold RUN_ID_PREFIX_LEN, NODE_NAME_PREFIX_LEN in L1, L2.
  split_and!; [| |exact Hjob| |done|done| |].
  - rewrite !str_length_app. simpl String.length at 1 3. unfold RUN_ID_PREFIX_LEN, NODE_NAME_PREFIX_LEN. lia.
  - rewrite !str_length_app. simpl String.length at 1 3 5. unfold RUN_ID_PREFIX_LEN, NODE_NAME_PREFIX_LEN. lia.
  - rewrite bytes_app. apply Forall_app. split; [exact Hjob|by repeat constructor].
  - rewrite bytes_app, last_app. done.
  - intros Ha. destruct (A2 Ha) as (b & Hb & Hal). exists b. split; [|done]. rewrite !bytes_app, !last_app. by rewrite Hb.
Qed.

(** The mapping to names forgets case and punctuation, so two nodes of one
    run can be given the same job. *)
Theorem distinct_nodes_share_a_job run_id :
  job_name run_id "build_a" = job_name run_id "build-a" ∧ configmap_name run_id "build_a" = configmap_name run_id "build-a" ∧
  job_name run_id "Test" = job_name run_id "test".
Proof. split_and!; reflexivity. Qed.
End names_facts.

(** ** Annotations *)

(** An annotation key: a prefix and a name of at most 63 characters. *)
Definition AnnotationKey (key : string) : Prop :=
  ∃ name, key = "vault.hashicorp.com/" +:+ name ∧ 0 < String.length name ≤ 63.

Lemma annotation_key kind id :
  0 < String.length kind → String.length kind + String.length id ≤ 63 → AnnotationKey (vault_key kind id).
Proof. intros Hk Hlen. exists (kind +:+ id). split; [done|]. rewrite str_length_app. lia. Qed.

Lemma vault_key_inj kind1 id1 kind2 id2 : vault_key kind1 id1 = vault_key kind2 id2 → kind1 +:+ id1 = kind2 +:+ id2.
Proof. unfold vault_key. intros Heq. by apply (inj (String.append "vault.hashicorp.com/")) in Heq. Qed.

(** Inserts keep a property of all keys. *)
Lemma keys_insert (P : string → Prop) (key value : string) (m : gmap string string) :
  P key → (∀ x, is_Some (m !! x) → P x) → ∀ x, is_Some (<[key := value]> m !! x) → P x.
Proof. intros Hk Hm x [v [[<- _]|[_ Hv]]%lookup_insert_Some]; [done|]. apply Hm. eauto. Qed.

Lemma foldl_keys {A} (P : string → Prop) (f : gmap string string → A → gmap string string) l m :
  (∀ a m, a ∈ l → (∀ x, is_Some (m !! x) → P x) → ∀ x, is_Some (f m a !! x) → P x) →
  (∀ x, is_Some (m !! x) → P x) → ∀ x, is_Some (foldl f m l !! x) → P x.
Proof.
  revert m; induction l as [|a l IH]; intros m Hf Hm; simpl; [done|]. apply IH.
  - intros b m' Hb. apply Hf. by right.
  - apply Hf; [by left|done].
Qed.

(** With the secret names that a valid pipeline allows, every Vault
    annotation has a legal key: the name after the slash fits in the 63
    characters of a Kubernetes annotation name. *)
Theorem vault_keys_fit env_secrets file_secrets owner repo key :
  (∀ s, s ∈ env_secrets → SecretName s) → (∀ spec, spec ∈ file_secrets → SecretName (fss_name spec)) →
  is_Some (vault_annotations env_secrets file_secrets owner repo !! key) → AnnotationKey key.
Proof.
  intros Henv Hfile.
  assert (∀ id, String.length id ≤ 34 → Forall (λ kind, AnnotationKey (vault_key kind id))
    ["agent-inject-file-"; "agent-inject-template-"; "agent-inject-secret-"; "secret-volume-path-"]) as Hkinds.
  { intros id Hlen. repeat constructor; apply annotation_key; simpl; lia. }
  assert (∀ s, SecretName s → String.length s ≤ 30) as Hshort by (intros s [Hs _]; exact Hs).
  assert (is_Some (vault_annotations env_secrets file_secrets owner repo !! key) →
    is_Some (foldl (λ out spec, file_annotations owner repo spec out)
      (foldl (λ out key, env_annotations owner repo key out)
        (<["vault.hashicorp.com/role" := vault_role owner repo]>
        (<["vault.hashicorp.com/secret-volume-path" := VAULT_SECRETS_MOUNT_PATH]>
        (<["vault.hashicorp.com/agent-pre-populate-only" := "true"]>
        (<["vault.hashicorp.com/agent-inject" := "true"]> ∅)))) env_secrets) file_secrets !! key)) as Hunfold.
  { unfold vault_annotations. destruct env_secrets, file_secrets; auto. intros [? Hk]. by rewrite lookup_empty in Hk. }
  intros Hk%Hunfold. revert key Hk Hunfold. intros key Hk _. revert key Hk. apply foldl_keys.
  - intros spec m Hin Hm. assert (String.length ("f-" +:+ fss_name spec) ≤ 34) as Hlen.
    { rewrite str_length_app. simpl. specialize (Hshort _ (Hfile _ Hin)). lia. }
    apply Hkinds in Hlen. rewrite !Forall_cons in Hlen. destruct Hlen as (K1 & K2 & K3 & K4 & _).
    unfold file_annotations. destruct (fss_path spec) as [custom|]; [destruct (split_custom_path custom)|];
      repeat apply keys_insert; done.
  - apply foldl_keys.
    + intros s m Hin Hm. assert (String.length ("env-" +:+ s) ≤ 34) as Hlen.
      { rewrite str_length_app. simpl. specialize (Hshort _ (Henv _ Hin)). lia. }
      apply Hkinds in Hlen. rewrite !Forall_cons in Hlen. destruct Hlen as (K1 & K2 & K3 & _).
      unfold env_annotations. repeat apply keys_insert; done.
    + repeat apply keys_insert; try (eexists; split; [reflexivity|simpl; lia]).
      intros x [v Hv]. by rewrite lookup_empty in Hv.
Qed.

(** *** The annotations of one secret *)
Abbreviation secret_kinds := ["agent-inject-file-"; "agent-inject-template-"; "agent-inject-secret-"; "secret-volume-path-"].

(** Annotations of one secret leave those of the others alone. *)
Lemma env_annotations_other owner repo key out x :
  (∀ kind, kind ∈ secret_kinds → x ≠ vault_key kind ("env-" +:+ key)) → env_annotations owner repo key out !! x = out !! x.
Proof. intros Hx. unfold env_annotations. by rewrite !lookup_insert_ne by (symmetry; apply Hx; set_solver). Qed.
Lemma file_annotations_other owner repo spec out x :
  (∀ kind, kind ∈ secret_kinds → x ≠ vault_key kind ("f-" +:+ fss_name spec)) → file_annotations owner repo spec out !! x = out !! x.
Proof.
  intros Hx. unfold file_annotations. destruct (fss_path spec) as [custom|]; [destruct (split_custom_path custom)|];
    by rewrite !lookup_insert_ne by (symmetry; apply Hx; set_solver).
Qed.

(** Keys of different secrets differ, and none is global. *)
Lemma secret_keys_differ tag1 tag2 kind1 kind2 id1 id2 :
  kind1 ∈ secret_kinds → kind2 ∈ secret_kinds → tag1 ∈ ["env-"; "f-"] → tag2 ∈ ["env-"; "f-"] →
  vault_key kind2 (tag2 +:+ id2) = vault_key kind1 (tag1 +:+ id1) → tag2 = tag1 ∧ id2 = id1.
Proof.
  intros H1 H2 T1 T2 Heq%vault_key_inj.
  repeat (apply elem_of_cons in T1 as [->|T1]); [..|by apply elem_of_nil in T1];
    (repeat (apply elem_of_cons in T2 as [->|T2]); [..|by apply elem_of_nil in T2]);
    repeat (apply elem_of_cons in H2 as [->|H2]); try (by apply elem_of_nil in H2);
    repeat (apply elem_of_cons in H1 as [->|H1]); try (by apply elem_of_nil in H1);
    simpl in Heq; by simplify_eq.
Qed.
Abbreviation global_keys := ["agent-inject"; "agent-pre-populate-only"; "secret-volume-path"; "role"].
Lemma global_keys_differ global kind tag id :
  global ∈ global_keys → kind ∈ secret_kinds → "vault.hashicorp.com/" +:+ global ≠ vault_key kind (tag +:+ id).
Proof.
  intros Hg Hk Heq. unfold vault_key in Heq. apply (inj (String.append "vault.hashicorp.com/")) in Heq.
  repeat (apply elem_of_cons in Hg as [->|Hg]); try (by apply elem_of_nil in Hg);
    repeat (apply elem_of_cons in Hk as [->|Hk]); try (by apply elem_of_nil in Hk);
    simpl in Heq; by simplify_eq.
Qed.

Lemma env_fold owner repo l m key :
  key ∈ l →
  let out := foldl (λ out key, env_annotations owner repo key out) m l in
  out !! vault_key "agent-inject-file-" ("env-" +:+ key) = Some (VAULT_ENV_SUBDIR +:+ "/" +:+ key) ∧
  out !! vault_key "agent-inject-template-" ("env-" +:+ key) = Some (vault_template owner repo key) ∧
  out !! vault_key "agent-inject-secret-" ("env-" +:+ key) = Some (vault_secret_path owner repo).
Proof.
  cbv zeta. induction l as [|k l IH] using rev_ind; intros Hin; [by apply elem_of_nil in Hin|].
  rewrite foldl_app. cbn [foldl]. destruct (decide (k = key)) as [->|Hne].
  - unfold env_annotations. split_and!; [by rewrite lookup_insert_eq|..];
      rewrite !lookup_insert_ne by (intros Heq%vault_key_inj; discriminate Heq); by rewrite lookup_insert_eq.
  - apply elem_of_app in Hin as [Hin|Hin%list_elem_of_singleton]; [|congruence].
    rewrite !env_annotations_other; [by apply IH|..]; intros kind Hk Heq; apply Hne; symmetry;
      eapply (secret_keys_differ "env-" "env-" kind); [exact Hk| | | |exact Heq| exact Hk| | | |exact Heq|exact Hk| | | |exact Heq]; set_solver.
Qed.
(** Other keys of a run's annotations. *)
Lemma env_fold_other owner repo l m x :
  (∀ kind id, kind ∈ secret_kinds → x ≠ vault_key kind ("env-" +:+ id)) →
  foldl (λ out key, env_annotations owner repo key out) m l !! x = m !! x.
Proof.
  intros Hx. revert m; induction l as [|k l IH]; intros m; [done|]. cbn [foldl]. rewrite IH.
  apply env_annotations_other. intros kind Hk. by apply Hx.
Qed.
Lemma file_fold_other owner repo l m x :
  (∀ kind id, kind ∈ secret_kinds → x ≠ vault_key kind ("f-" +:+ id)) →
  foldl (λ out spec, file_annotations owner repo spec out) m l !! x = m !! x.
Proof.
  intros Hx. revert m; induction l as [|spec l IH]; intros m; [done|]. cbn [foldl]. rewrite IH.
  apply file_annotations_other. intros kind Hk. by apply Hx.
Qed.

Lemma file_fold_unnamed owner repo l m kind name : kind ∈ secret_kinds → name ∉ fss_name <$> l →
  foldl (λ out spec, file_annotations owner repo spec out) m l !! vault_key kind ("f-" +:+ name) = m !! vault_key kind ("f-" +:+ name).
Proof.
  intros Hkind. revert m; induction l as [|spec l IH]; intros m Hn; [done|]. rewrite fmap_cons, not_elem_of_cons in Hn.
  destruct Hn as [Hne Hn]. cbn [foldl]. rewrite IH by done. apply file_annotations_other. intros kind' Hk Heq. apply Hne.
  by apply (secret_keys_differ "f-" "f-" kind') in Heq as [_ ?]; [|done|done|set_solver..].
Qed.

(** Where the secret of a specification is written, and the directory for it. *)
Definition secret_file (spec : FileSecretSpec) : string :=
  match fss_path spec with
  | None => VAULT_FILES_SUBDIR +:+ "/" +:+ fss_name spec
  | Some custom => (split_custom_path custom).2
  end.
Definition secret_dir (spec : FileSecretSpec) : option string :=
  custom ← fss_path spec; Some (split_custom_path custom).1.

Lemma file_annotations_own owner repo spec m : m !! vault_key "secret-volume-path-" ("f-" +:+ fss_name spec) = None →
  let out := file_annotations owner repo spec m in
  out !! vault_key "agent-inject-file-" ("f-" +:+ fss_name spec) = Some (secret_file spec) ∧
  out !! vault_key "agent-inject-template-" ("f-" +:+ fss_name spec) = Some (vault_template owner repo (fss_name spec)) ∧
  out !! vault_key "agent-inject-secret-" ("f-" +:+ fss_name spec) = Some (vault_secret_path owner repo) ∧
  out !! vault_key "secret-volume-path-" ("f-" +:+ fss_name spec) = secret_dir spec.
Proof.
  intros Hm. cbv zeta. unfold file_annotations, secret_file, secret_dir. destruct (fss_path spec) as [custom|]; cbn [mbind option_bind].
  - destruct (split_custom_path custom) as [dir base]. split_and!; [by rewrite lookup_insert_eq|..];
      rewrite !lookup_insert_ne by (intros Heq%vault_key_inj; discriminate Heq); by rewrite lookup_insert_eq.
  - split_and!; [by rewrite lookup_insert_eq|..];
      rewrite !lookup_insert_ne by (intros Heq%vault_key_inj; discriminate Heq); by rewrite ?lookup_insert_eq.
Qed.

Lemma file_fold owner repo l m spec :
  NoDup (fss_name <$> l) → spec ∈ l → (∀ id, m !! vault_key "secret-volume-path-" ("f-" +:+ id) = None) →
  let out := foldl (λ out spec, file_annotations owner repo spec out) m l in
  out !! vault_key "agent-inject-file-" ("f-" +:+ fss_name spec) = Some (secret_file spec) ∧
  out !! vault_key "agent-inject-template-" ("f-" +:+ fss_name spec) = Some (vault_template owner repo (fss_name spec)) ∧
  out !! vault_key "agent-inject-secret-" ("f-" +:+ fss_name spec) = Some (vault_secret_path owner repo) ∧
  out !! vault_key "secret-volume-path-" ("f-" +:+ fss_name spec) = secret_dir spec.
Proof.
  cbv zeta. induction l as [|s l IH] using rev_ind; intros Hnd Hin Hm; [by apply elem_of_nil in Hin|].
  rewrite fmap_app, NoDup_app in Hnd. destruct Hnd as (Hnd & Hdisj & _).
  rewrite foldl_app. cbn [foldl]. apply elem_of_app in Hin as [Hin|Hin%list_elem_of_singleton].
  - assert (fss_name spec ≠ fss_name s) as Hne.
    { intros Heq. apply (Hdisj (fss_name spec)); [by apply list_elem_of_fmap_2|]. rewrite Heq. set_solver. }
    rewrite !file_annotations_other; [by apply IH|..]; intros kind Hk Heq; apply Hne;
      (apply (secret_keys_differ "f-" "f-" kind) in Heq as [_ ?]; [done|exact Hk|set_solver..]).
  - subst s. apply file_annotations_own. rewrite file_fold_unnamed; [done|set_solver|].
    intros Hin. apply (Hdisj _ Hin). set_solver.
Qed.

(** The volume path and base name of a custom path. *)
Lemma split_custom_path_dir dir base : "/"%char ∉ bytes base →
  split_custom_path (dir +:+ "/" +:+ base) = (if str_eqb dir "" then "/" else dir, base).
Proof.
  intros Hb. unfold split_custom_path. change ("/" +:+ base) with (String "/" base).
  rewrite rsplit_once_last by done. by destruct (str_eqb dir ""). Qed.
Lemma split_custom_path_bare path : "/"%char ∉ bytes path → split_custom_path path = ("", path).
Proof. intros Hp. unfold split_custom_path. by rewrite rsplit_once_none. Qed.

(** The keys as they are spelt. *)
Lemma secret_keys_spelt kind tag id : ("vault.hashicorp.com/" +:+ kind +:+ tag) +:+ id = vault_key kind (tag +:+ id).
Proof. unfold vault_key. by rewrite !str_app_assoc. Qed.

(** C40: every requested secret is injected where it was asked for, and none is
    when none is requested. Otherwise the agent is switched on, before the pod
    only, for the role [<owner>__<repo>] and the directory [/etc/tube/secrets];
    each secret is rendered from the entry of its own name in
    [secret/data/<owner>__<repo>]: an environment secret into [env/<NAME>], a
    file secret into [files/<NAME>], or, when it names a path, into the file of
    that base name, with the directory of the path, and only then, as a volume
    path of its own. One secret never replaces another, not even an environment
    and a file secret of the same name. The annotations of a file secret are
    keyed [f-<NAME>], where the documentation says [file-<NAME>]. *)
Theorem vault_injects_every_secret env_secrets file_secrets owner repo :
  NoDup (fss_name <$> file_secrets) →
  let out := vault_annotations env_secrets file_secrets owner repo in
  let slug := owner +:+ "__" +:+ repo in
  let source := "secret/data/" +:+ slug in
  let template key := "{{- with secret " +:+ quote +:+ source +:+ quote +:+ " -}}" +:+ newline +:+
    "  {{ index .Data.data " +:+ quote +:+ key +:+ quote +:+ " }}" +:+ newline +:+ "{{- end -}}" in
  (if bool_decide (env_secrets = [] ∧ file_secrets = []) then out = ∅ else
     out !! "vault.hashicorp.com/agent-inject" = Some "true" ∧
     out !! "vault.hashicorp.com/agent-pre-populate-only" = Some "true" ∧
     out !! "vault.hashicorp.com/secret-volume-path" = Some "/etc/tube/secrets" ∧
     out !! "vault.hashicorp.com/role" = Some slug) ∧
  (∀ key, key ∈ env_secrets →
     out !! ("vault.hashicorp.com/agent-inject-secret-env-" +:+ key) = Some source ∧
     out !! ("vault.hashicorp.com/agent-inject-template-env-" +:+ key) = Some (template key) ∧
     out !! ("vault.hashicorp.com/agent-inject-file-env-" +:+ key) = Some ("env/" +:+ key)) ∧
  (∀ spec, spec ∈ file_secrets →
     out !! ("vault.hashicorp.com/agent-inject-secret-f-" +:+ fss_name spec) = Some source ∧
     out !! ("vault.hashicorp.com/agent-inject-template-f-" +:+ fss_name spec) = Some (template (fss_name spec)) ∧
     let file := out !! ("vault.hashicorp.com/agent-inject-file-f-" +:+ fss_name spec) in
     let volume := out !! ("vault.hashicorp.com/secret-volume-path-f-" +:+ fss_name spec) in
     match fss_path spec with
     | None => file = Some ("files/" +:+ fss_name spec) ∧ volume = None
     | Some custom =>
         (∀ dir base, custom = dir +:+ "/" +:+ base → "/"%char ∉ bytes base →
            file = Some base ∧ volume = Some (if str_eqb dir "" then "/" else dir)) ∧
         ("/"%char ∉ bytes custom → file = Some custom ∧ volume = Some "")
     end).
Proof.
  intros Hnd out slug source template.
  destruct (bool_decide (env_secrets = [] ∧ file_secrets = [])) eqn:Hnone.
  { apply bool_decide_eq_true in Hnone as [-> ->]. split; [done|]. split; intros ? Hin; by apply elem_of_nil in Hin. }
  apply bool_decide_eq_false in Hnone. set (base := <["vault.hashicorp.com/role" := slug]>
    (<["vault.hashicorp.com/secret-volume-path" := VAULT_SECRETS_MOUNT_PATH]>
    (<["vault.hashicorp.com/agent-pre-populate-only" := "true"]>
    (<["vault.hashicorp.com/agent-inject" := "true"]> (∅ : gmap string string))))).
  assert (out = foldl (λ out spec, file_annotations owner repo spec out)
    (foldl (λ out key, env_annotations owner repo key out) base env_secrets) file_secrets) as ->
    by (unfold out, vault_annotations; destruct env_secrets, file_secrets; done || by destruct Hnone).
  assert (∀ kind tag id, kind ∈ secret_kinds → base !! vault_key kind (tag +:+ id) = None) as Hbase.
  { intros kind tag id Hk. unfold base. by rewrite !lookup_insert_ne by (apply global_keys_differ; [set_solver|done]). }
  split; [|split].
  - assert (∀ g, g ∈ global_keys → foldl (λ out spec, file_annotations owner repo spec out)
      (foldl (λ out key, env_annotations owner repo key out) base env_secrets) file_secrets !! ("vault.hashicorp.com/" +:+ g) =
      base !! ("vault.hashicorp.com/" +:+ g)) as Hglobal
      by (intros g Hg; rewrite file_fold_other, env_fold_other; [done|intros kind id Hk; by apply global_keys_differ..]).
    repeat split; [etrans; [apply (Hglobal "agent-inject"); set_solver|reflexivity]
      |etrans; [apply (Hglobal "agent-pre-populate-only"); set_solver|reflexivity]
      |etrans; [apply (Hglobal "secret-volume-path"); set_solver|reflexivity]
      |etrans; [apply (Hglobal "role"); set_solver|reflexivity]].
  - intros key Hin. destruct (env_fold owner repo env_secrets base key Hin) as (Hf & Ht & Hs).
    assert (∀ kind, kind ∈ secret_kinds → foldl (λ out spec, file_annotations owner repo spec out)
      (foldl (λ out key, env_annotations owner repo key out) base env_secrets) file_secrets !! vault_key kind ("env-" +:+ key) =
      foldl (λ out key, env_annotations owner repo key out) base env_secrets !! vault_key kind ("env-" +:+ key)) as Hkeep.
    { intros kind Hk. apply file_fold_other. intros kind' id Hk' Heq.
      by apply (secret_keys_differ "f-" "env-" kind') in Heq as [? _]; [|done|done|set_solver..]. }
    rewrite <-Hkeep in Hs, Ht, Hf by set_solver. rewrite <-secret_keys_spelt in Hs, Ht, Hf. by split_and!.
  - intros spec Hin. destruct (file_fold owner repo file_secrets (foldl (λ out key, env_annotations owner repo key out) base env_secrets) spec Hnd Hin)
      as (Hf & Ht & Hs & Hv).
    { intros id. rewrite env_fold_other; [apply Hbase; set_solver|]. intros kind id' Hk Heq.
      by apply (secret_keys_differ "env-" "f-" kind) in Heq as [? _]; [|done|set_solver..]. }
    rewrite <-secret_keys_spelt in Hs, Ht, Hf, Hv. split; [exact Hs|]. split; [exact Ht|].
    cbv zeta. unfold secret_file, secret_dir in *.
    destruct (fss_path spec) as [custom|]; [|by split]. cbn [mbind option_bind] in *. split.
    + intros dir name -> Hname. rewrite split_custom_path_dir in * by done. by split.
    + intros Hbare. rewrite split_custom_path_bare in * by done. by split.
Qed.

(** ** Deadline and volumes *)

(** Kubernetes never kills a job before the coordinator's own timeouts: its
    deadline is the startup and runtime budgets plus a minute, and when that
    does not fit in 64 signed bits the largest such number. *)
Theorem safety_deadline_covers_timeouts node config :
  let runtime := default (default_node_timeout_secs config) (ni_timeout_secs node) in
  let startup := default (default_node_startup_timeout_secs config) (ni_startup_timeout_secs node) in
  (0 ≤ runtime ≤ u64_max)%Z → (0 ≤ startup ≤ u64_max)%Z →
  compute_safety_deadline_secs node config = Z.min (startup + runtime + 60) i64_max.
Proof.
  cbv zeta. unfold compute_safety_deadline_secs, SAFETY_DEADLINE_BUFFER_SECS, u64_saturating_add, try_i64, u64_max, i64_max.
  intros Hr Hs. case_decide; simpl; lia.
Qed.

Lemma user_mount_iff (vs : gmap string string) m (names : list string) :
  m ∈ omap (λ name, mount_path ← vs !! name; Some (mkMount name mount_path None)) names ↔
  ∃ name path, name ∈ names ∧ vs !! name = Some path ∧ m = mkMount name path None.
Proof.
  rewrite list_elem_of_omap. split.
  - intros (name & Hin & Hm). destruct (vs !! name) as [path|] eqn:Hv; simplify_eq/=. eauto.
  - intros (name & path & Hin & Hv & ->). exists name. by rewrite Hv.
Qed.

Lemma user_paths_nodup (vs : gmap string string) (names : list string) :
  (∀ n1 n2 path, vs !! n1 = Some path → vs !! n2 = Some path → n1 = n2) → NoDup names →
  NoDup (vm_mount_path <$> omap (λ name, mount_path ← vs !! name; Some (mkMount name mount_path None)) names).
Proof.
  intros Hinj. induction 1 as [|n l Hn Hnd IH]; cbn [omap list_omap fmap list_fmap]; [constructor|].
  destruct (vs !! n) as [path|] eqn:Hv; [|done]. cbn. constructor; [|done].
  intros (m & Hp & (n' & path' & Hin & Hv' & ->)%user_mount_iff)%list_elem_of_fmap. simpl in Hp. subst path'.
  by rewrite (Hinj n n' path) in Hn.
Qed.

(** The dispatcher's own volumes and mounts: their names are the reserved ones,
    their paths are at or under a reserved path. *)
Lemma builtin_volumes_spec cm cache :
  let '(mounts, volumes) := builtin_volumes cm cache in
  NoDup (v_name <$> volumes) ∧ NoDup (vm_mount_path <$> mounts) ∧
  Forall (.∈ RESERVED_VOLUME_NAMES) (v_name <$> volumes) ∧
  Forall (.∈ v_name <$> volumes) (vm_name <$> mounts) ∧
  Forall (λ p, existsb (is_reserved_path p) RESERVED_MOUNT_PATHS = true) (vm_mount_path <$> mounts).
Proof.
  destruct cache as [size|]; cbn; unfold RESERVED_VOLUME_NAMES;
    (split_and!; [apply (bool_decide_unpack _); vm_compute; exact I..| |]);
    repeat constructor; try set_solver; vm_compute; reflexivity.
Qed.

(** The job of a node of a valid pipeline is well formed: its volumes have
    different names, every mount of its container refers to one of them, every
    volume of the user is mounted at the path the document gives, and no two
    mounts share a path. *)
Theorem job_volumes_well_formed `{Digest} k ctx node :
  VolumesOk (ni_volumes node) →
  let job := build_job k ctx node in
  NoDup (v_name <$> job_volumes job) ∧
  (∀ c m, c ∈ containers job → m ∈ ct_volume_mounts c → vm_name m ∈ v_name <$> job_volumes job) ∧
  (∀ c name path, c ∈ containers job → ni_volumes node !! name = Some path →
     mkMount name path None ∈ ct_volume_mounts c) ∧
  ∀ c, c ∈ containers job → NoDup (vm_mount_path <$> ct_volume_mounts c).
Proof.
  intros [Hok Hinj]. unfold build_job. pose proof (builtin_volumes_spec (jc_cm_name ctx) (ni_cache_size node)) as Hb.
  destruct (builtin_volumes (jc_cm_name ctx) (ni_cache_size node)) as [mounts volumes].
  destruct Hb as (Hv & Hm & Hres & Hnames & Hpaths). rewrite Forall_forall in Hres, Hnames, Hpaths.
  cbn -[omap]. rewrite !fmap_app, <-list_fmap_compose. unfold compose. cbn [v_name]. rewrite list_fmap_id.
  split_and!.
  - apply NoDup_app. split_and!; [done| |apply NoDup_btree_keys].
    intros name Hin%Hres [path Hp]%elem_of_btree_keys%elem_of_dom. by destruct (Hok _ _ Hp) as (_ & ? & _).
  - intros c m ->%list_elem_of_singleton. cbn -[omap]. rewrite !elem_of_app.
    intros [Hin|(name & path & Hin & _ & ->)%user_mount_iff]; [left; by apply Hnames, list_elem_of_fmap_2|by right].
  - intros c name path ->%list_elem_of_singleton Hp. cbn -[omap]. rewrite elem_of_app, user_mount_iff. right.
    exists name, path. split_and!; [|done..]. apply elem_of_btree_keys, elem_of_dom. eauto.
  - intros c ->%list_elem_of_singleton. cbn -[omap]. rewrite fmap_app. apply NoDup_app. split_and!; [done| |].
    + intros p Hin%Hpaths (m & -> & (name & path & _ & Hp & ->)%user_mount_iff)%list_elem_of_fmap. cbn [vm_mount_path] in Hin.
      destruct (Hok _ _ Hp) as (_ & _ & _ & Hr). apply (unreserved_iff _ RESERVED_MOUNT_PATHS) in Hr. by rewrite Hr in Hin.
    + apply user_paths_nodup; [done|apply NoDup_btree_keys].
Qed.

(** ** Dispatch *)

Section dispatch_facts.
Context `{Digest, HashOrder} {K : Type} `{KubeApi K} {B : Type} `{S3Client B}.
Variable k : KubeDispatcher.

(** The config map and the job that a dispatch of a node asks for. *)
Definition script_configmap (run_id : string) (node : NodeInfo) : ConfigMap :=
  mkConfigMap (configmap_name run_id (ni_name node)) (k_namespace k) (run_labels run_id) {["script.sh" := build_script (ni_steps node)]}.

(** What a dispatch that fails may have done. *)
Definition failed_dispatch (run_id : string) (metadata : RunMetadata) (node : NodeInfo) (config : AppConfig) (c c' : K) : Prop :=
  let cm := configmap_name run_id (ni_name node) in
  let script := script_configmap run_id node in
  let '(script_answer, c1) := create_configmap script c in
  (c' = c ∧ ((ni_env_secrets node ≠ [] ∨ ni_file_secrets node ≠ []) ∧ (rm_owner metadata = "" ∨ rm_repo metadata = "") ∨
     ∃ e, presigned_urls run_id node = Err e)) ∨
  (is_ok script_answer = false ∧ jobs c' = jobs c ∧
   (configmaps c' = configmaps c ∨ configmaps c !! cm = None ∧ configmaps c' = <[cm := script]> (configmaps c))) ∨
  ∃ urls, presigned_urls run_id node = Ok urls ∧
    let job := build_job k (job_context k run_id metadata node config urls) node in
    let '(job_answer, c2) := create_job job c1 in
    is_ok script_answer = true ∧ is_ok job_answer = false ∧
    (jobs c' = jobs c ∨ jobs c !! job_meta_name job = None ∧ jobs c' = <[job_meta_name job := job]> (jobs c)) ∧
    (configmaps c' = configmaps c ∨
     is_ok (delete_configmap cm c2).1 = false ∧ configmaps c' = <[cm := script]> (configmaps c)).

Lemma untouched_dispatch run_id metadata node config c :
  (ni_env_secrets node ≠ [] ∨ ni_file_secrets node ≠ []) ∧ (rm_owner metadata = "" ∨ rm_repo metadata = "") ∨
  (∃ e, presigned_urls run_id node = Err e) → failed_dispatch run_id metadata node config c c.
Proof. intros Hwhy. unfold failed_dispatch. destruct (create_configmap _ c). by left. Qed.
Lemma secrets_without_owner (node : NodeInfo) (metadata : RunMetadata) :
  (negb (bool_decide (ni_env_secrets node = [])) || negb (match ni_file_secrets node with [] => true | _ => false end)) &&
    (str_eqb (rm_owner metadata) "" || str_eqb (rm_repo metadata) "") = true →
  (ni_env_secrets node ≠ [] ∨ ni_file_secrets node ≠ []) ∧ (rm_owner metadata = "" ∨ rm_repo metadata = "").
Proof.
  rewrite andb_true_iff, !orb_true_iff, !negb_true_iff, bool_decide_eq_false, !str_eqb_true.
  intros [[Hs|Hs] Ho]; (split; [|exact Ho]); [by left|right]. by destruct (ni_file_secrets node).
Qed.

(** C36: a dispatch that succeeds has created exactly the job of the node and its
    script, under names that were free, with the presigned URLs in hand; so a
    node whose job or script is still in the cluster is never dispatched a second
    time. One that fails did one of three things: nothing, because the node has
    secrets and the run no owner or repository, or because a URL could not be
    presigned; or it asked for the
    script and the request failed, and then it asked for nothing more; or the
    request for the job failed, and then the script is taken back, so that it is
    left behind only if the request to delete it failed too. A failed request
    for the script or the job may have been executed, its reply lost; only then
    is that object there. *)
Theorem dispatch_all_or_nothing run_id metadata node config c :
  let job := job_name run_id (ni_name node) in
  let cm := configmap_name run_id (ni_name node) in
  match kube_dispatch k run_id metadata node config c with
  | (Ok _, c') =>
      ∃ urls, presigned_urls run_id node = Ok urls ∧
        jobs c !! job = None ∧ configmaps c !! cm = None ∧
        jobs c' = <[job := build_job k (job_context k run_id metadata node config urls) node]> (jobs c) ∧
        configmaps c' = <[cm := script_configmap run_id node]> (configmaps c)
  | (Err _, c') => failed_dispatch run_id metadata node config c c'
  end.
Proof.
  cbv zeta. unfold kube_dispatch. destruct (_ && _) eqn:Hs; [by apply untouched_dispatch; left; apply secrets_without_owner|]. clear Hs.
  destruct (presigned_urls run_id node) as [urls|e] eqn:Hurls; [|by apply untouched_dispatch; right; exists e].
  assert (jc_cm_name (job_context k run_id metadata node config urls) = configmap_name run_id (ni_name node)) as Hcm
    by (by destruct urls as [[? ?] ?]).
  assert (job_meta_name (build_job k (job_context k run_id metadata node config urls) node) = job_name run_id (ni_name node)) as Hname.
  { unfold build_job. destruct urls as [[? ?] ?]. by destruct (builtin_volumes _ _). }
  rewrite Hcm. clear Hcm.
  unfold create_script_configmap, create_job_or_rollback_configmap, mbind, state_bind, mret, state_ret.
  fold (script_configmap run_id node). unfold failed_dispatch.
  pose proof (create_configmap_spec (script_configmap run_id node) c) as Hc.
  destruct (create_configmap _ c) as [[[]|e] c1]; cbn [map_err is_ok]; [|right; left; split; [done|exact Hc]].
  cbn [cm_name_of script_configmap] in Hc. destruct Hc as (Hfree & Hmaps & Hjobs).
  pose proof (create_job_spec (build_job k (job_context k run_id metadata node config urls) node) c1) as Hj.
  destruct (create_job _ c1) as [[[]|e] c2] eqn:Hcreate; cbn.
  - destruct Hj as (Hnone & Hj & Hm). rewrite Hname, Hjobs in *. exists urls. by rewrite Hm, Hmaps, Hj.
  - destruct Hj as [Hm Hj]. pose proof (delete_configmap_spec (configmap_name run_id (ni_name node)) c2) as Hd.
    destruct (delete_configmap _ c2) as [answer c3] eqn:Hdelete; cbn [fst snd]. right. right. exists urls. split; [done|].
    rewrite Hcreate, Hdelete. rewrite Hjobs in Hj. split_and!; [done..| |].
    + destruct answer; destruct Hd as [? ?]; congruence || (destruct Hj as [Hj|[? Hj]]; [left|right]; congruence).
    + assert (delete (configmap_name run_id (ni_name node)) (configmaps c2) = configmaps c) as Hback
        by (by rewrite Hm, Hmaps, delete_insert_id).
      destruct answer; cbn [is_ok fst]; [left|]; [by destruct Hd as [-> _]|].
      destruct Hd as [_ [-> | ->]]; [right; by rewrite Hm, Hmaps|by left].
Qed.
End dispatch_facts.

(** ** A concrete cluster *)

Module Example.
(** Any 32 bytes will do for a digest. *)
Definition checksum (l : list ascii) : nat := foldr (λ b n, nat_of_ascii b + n) 0 l.
Definition hex_digit (n : nat) : ascii := if (n <? 10)%nat then ascii_of_nat (48 + n) else ascii_of_nat (87 + n).
Definition hex_byte (b : ascii) : list ascii := [hex_digit (nat_of_ascii b / 16); hex_digit (nat_of_ascii b mod 16)].

Lemma hex_byte_digits b : Forall (λ d, is_ascii_digit d || byte_in "a" "f" d = true) (hex_byte b).
Proof.
  assert (∀ b, forallb (λ d, is_ascii_digit d || byte_in "a" "f" d) (hex_byte b) = true) as Hall
    by (apply ascii_forall; vm_compute; reflexivity).
  specialize (Hall b). apply Forall_forall. intros d Hd. rewrite forallb_forall in Hall. by apply Hall, list_elem_of_In.
Qed.

#[export, refine] Instance digest : Digest := {|
  sha256 := λ l, replicate 32 (ascii_of_nat (checksum l)); hex_encode := λ l, of_bytes (l ≫= hex_byte) |}.
Proof.
  - done.
  - intros l. rewrite <-bytes_length, bytes_of_bytes. induction l as [|b l IH]; [done|]. rewrite bind_cons, length_app, IH. cbn [length hex_byte]. lia.
  - intros l. rewrite bytes_of_bytes. induction l as [|b l IH]; [constructor|]. rewrite bind_cons. apply Forall_app. split; [|exact IH].
    eapply Forall_impl; [apply hex_byte_digits|]. intros d Hd. by apply orb_true_iff in Hd.
Defined.

Definition Cluster : Type := gmap string Job * gmap string ConfigMap.

(** A cluster that refuses names in use. *)
#[export, refine] Instance cluster_api : KubeApi Cluster := {|
  create_job := λ job '(js, cms),
    match js !! job_meta_name job with Some _ => (Err "exists", (js, cms)) | None => (Ok (), (<[job_meta_name job := job]> js, cms)) end;
  delete_job := λ name '(js, cms), (Ok (), (delete name js, cms));
  delete_jobs_of_run := λ run_id '(js, cms), (Ok (), (filter (λ p, job_labels p.2 !! "the-conn.com/run-id" ≠ Some run_id) js, cms));
  create_configmap := λ cm '(js, cms),
    match cms !! cm_name_of cm with Some _ => (Err "exists", (js, cms)) | None => (Ok (), (js, <[cm_name_of cm := cm]> cms)) end;
  delete_configmap := λ name '(js, cms), (Ok (), (js, delete name cms));
  delete_configmaps_of_run := λ run_id '(js, cms), (Ok (), (js, filter (λ p, cm_labels p.2 !! "the-conn.com/run-id" ≠ Some run_id) cms));
  list_pods_of_run := λ _ c, (Ok [], c);
  list_jobs_of_jefferies := λ c, (Ok (Some ∘ job_labels <$> (map_to_list c.1).*2), c);
  list_configmaps_of_jefferies := λ c, (Ok (Some ∘ cm_labels <$> (map_to_list c.2).*2), c);
  jobs := fst;
  configmaps := snd |}.
Proof.
  - intros job [js cms]. destruct (js !! job_meta_name job) eqn:?; simpl; auto.
  - intros cm [js cms]. destruct (cms !! cm_name_of cm) eqn:?; simpl; auto.
  - by intros name [js cms].
Defined.

(** A bucket whose objects are uploaded in one part. *)
Definition Bucket : Type := gmap string (list ascii).
#[export] Instance bucket_client : S3Client Bucket := {|
  s3_create_multipart_upload := λ key b, (Ok (Some key), b);
  s3_upload_part := λ key _ _ body b, (Ok (Some "tag"), <[key := default [] (b !! key) ++ body]> b);
  s3_complete_multipart_upload := λ _ _ _ b, (Ok (), b);
  s3_abort_multipart_upload := λ key _ b, (Ok (), delete key b);
  s3_get_object := λ key b, (match b !! key with Some body => ObjectBody (Ok body) | None => NoSuchKey end, b);
  s3_list_objects_v2 := λ prefix b,
    (Ok (Some <$> List.filter (starts_with prefix) (map_to_list b).*1), b);
  s3_delete_objects := λ keys b, (Ok (), foldr delete b keys);
  presigning_expires_in := λ secs, Ok secs;
  s3_presigned_get := λ key _, Ok ("https://s3/get/" +:+ key);
  s3_presigned_put := λ key _ _, Ok ("https://s3/put/" +:+ key);
  s3_head_bucket := λ b, (BucketFound, b);
  s3_create_bucket := λ b, (Ok (), b);
  s3_put_bucket_lifecycle := λ _ b, (Ok (), b) |}.

#[local] Existing Instance canonical_order.

Definition settings : KubeDispatcher :=
  mkKube "runs" "ci" "tube:1" "debian:12" "privileged" "default" "kata" "1" "1Gi".
Definition metadata : RunMetadata := mkMetadata "acme" "tools" "0a1b" (Some "main") None None None "push".
Definition config : AppConfig := with_limits 7200 3600 600 true 60.
Definition node : NodeInfo :=
  {| ni_name := "Unit_Tests"; ni_image := ""; ni_steps := ["cargo test"]; ni_dependencies := [];
     ni_timeout_secs := Some 900%Z; ni_startup_timeout_secs := None; ni_checkout := true; ni_env := {["RUST_LOG" := "info"]};
     ni_env_secrets := ["TOKEN"]; ni_file_secrets := [mkFileSecretSpec "TOKEN" (Some "/root/.token")];
     ni_privileged := false; ni_cache_size := Some "1Gi"; ni_cpu := None; ni_memory := None;
     ni_volumes := {["data" := "/data"; "logs" := "/var/logs"]} |}.
Definition dispatch_unit_tests : M Cluster (result DispatchError unit) :=
  kube_dispatch (B:=Bucket) settings "4f9c2d1e-7777" metadata node config.

Lemma token_name : SecretName "TOKEN".
Proof. apply secret_name_ok_iff. vm_compute. reflexivity. Qed.

Lemma vault_keys_fit_witness :
  AnnotationKey (vault_key "agent-inject-template-" "env-TOKEN").
Proof.
  eapply (vault_keys_fit ["TOKEN"] [mkFileSecretSpec "TOKEN" (Some "/root/.token")] "acme" "tools").
  - intros s ->%list_elem_of_singleton. apply token_name.
  - intros spec ->%list_elem_of_singleton. apply token_name.
  - eexists. vm_compute. reflexivity.
Defined.

Lemma vault_injects_every_secret_witness :
  let out := vault_annotations ["TOKEN"] [mkFileSecretSpec "TOKEN" (Some "/root/.token")] "acme" "tools" in
  out !! "vault.hashicorp.com/agent-inject-file-f-TOKEN" = Some ".token" ∧
  out !! "vault.hashicorp.com/secret-volume-path-f-TOKEN" = Some "/root".
Proof.
  destruct (vault_injects_every_secret ["TOKEN"] [mkFileSecretSpec "TOKEN" (Some "/root/.token")] "acme" "tools") as (_ & _ & Hf);
    [apply NoDup_singleton|].
  destruct (Hf _ (list_elem_of_here _ _)) as (_ & _ & Hpath & _). apply (Hpath "/root" ".token"); [reflexivity|].
  apply (bool_decide_unpack _). vm_compute. exact I.
Defined.

Lemma safety_deadline_covers_timeouts_witness : compute_safety_deadline_secs node config = 1560%Z.
Proof. rewrite (safety_deadline_covers_timeouts node config); [reflexivity|..]; vm_compute; by split. Defined.

Lemma node_volumes_ok : VolumesOk (ni_volumes node).
Proof.
  assert (∀ name path, ni_volumes node !! name = Some path → (name, path) ∈ [("data", "/data"); ("logs", "/var/logs")]) as Hin.
  { unfold node; cbn [ni_volumes]. intros name path [[<- <-]|[_ [<- <-]%lookup_singleton_Some]]%lookup_insert_Some; set_solver. }
  split.
  - intros name path Hp%Hin.
    repeat (apply elem_of_cons in Hp as [[= -> ->]|Hp]; [split_and!;
      [apply dns_valid_iff; reflexivity|by apply (bool_decide_unpack _)|by eexists|by apply (unreserved_iff _ RESERVED_MOUNT_PATHS)]|]).
    by apply elem_of_nil in Hp.
  - intros n1 n2 path H1%Hin H2%Hin. set_solver.
Qed.

Lemma job_volumes_well_formed_witness :
  NoDup (v_name <$> job_volumes (build_job settings (mkJobContext "r" "n" "cm" ∅ ∅ [] 60) node)).
Proof.
  apply (job_volumes_well_formed settings (mkJobContext "r" "n" "cm" ∅ ∅ [] 60) node).
  apply node_volumes_ok.
Defined.

(** The first dispatch creates the job, the second is refused. *)
Lemma dispatch_all_or_nothing_witness :
  match dispatch_unit_tests (∅, ∅) with
  | (Ok _, c) => is_Some (jobs c !! job_name "4f9c2d1e-7777" "Unit_Tests") ∧ is_ok (dispatch_unit_tests c).1 = false
  | _ => False
  end.
Proof.
  pose proof (dispatch_all_or_nothing (B:=Bucket) settings "4f9c2d1e-7777" metadata node config (∅, ∅)) as Hfirst.
  assert (is_ok (dispatch_unit_tests (∅, ∅)).1 && negb (is_ok (dispatch_unit_tests (dispatch_unit_tests (∅, ∅)).2).1) = true)
    as Hrun by (vm_compute; reflexivity).
  change (kube_dispatch settings "4f9c2d1e-7777" metadata node config (∅, ∅)) with (dispatch_unit_tests (∅, ∅)) in Hfirst.
  destruct (dispatch_unit_tests (∅, ∅)) as [[[]|e] c]; [|discriminate Hrun]. cbn [fst snd is_ok andb] in Hrun.
  destruct Hfirst as (urls & _ & _ & _ & Hjobs & _). split; [|apply negb_true_iff, Hrun].
  assert (is_Some ((<[job_name "4f9c2d1e-7777" (ni_name node) := build_job settings
    (job_context settings "4f9c2d1e-7777" metadata node config urls) node]> (∅ : gmap string Job)) !! job_name "4f9c2d1e-7777" "Unit_Tests")) as Hsome.
  { change (ni_name node) with "Unit_Tests". rewrite lookup_insert_eq. eexists. reflexivity. }
  exact (eq_rect_r (λ m, is_Some (m !! _)) Hsome Hjobs).
Defined.
End Example.
