(* ===== verification/Coordinator.v ===== *)
(** * The coordinator of one run (coordinator/src/coordinator.rs)

    The run's supervisor: it takes the lease, restores or creates the run
    state, dispatches nodes whose dependencies succeeded, and folds completion
    events, timers, pod signals and S3 observations into the run until it is
    complete, cancelled, out of time, or taken over. The services it calls are
    parameters, given by the type classes of their components; nothing is
    assumed of them here, so their states may include whatever other servers
    do between two calls. [trace] is not part of the program: it lists the
    calls with an outside effect, for the theorems about their order. *)

From S2P Require Import Prelude AppConfig Pipeline StateStore Run SourceManager PodWatcher RunHistory Dispatcher Backplane.

(** ** Data *)

Record RunContext := mkRunContext {
  rc_owner : string; rc_repo : string; rc_sha : string; rc_branch : option string;
  rc_target_branch : option string; rc_tag : option string; rc_pr_number : option Z; rc_trigger : string;
  rc_pipeline_yaml : string; rc_created_at : Z; rc_retry_of : option string;
  rc_tenant_slug : option string; rc_github_check_run_id : option Z;
}.

(** [RunContext::run_metadata] *)
Definition run_metadata (rc : RunContext) : RunMetadata :=
  mkMetadata (rc_owner rc) (rc_repo rc) (rc_sha rc) (rc_branch rc) (rc_target_branch rc) (rc_tag rc)
    (rc_pr_number rc) (rc_trigger rc).

(** The columns that the start record and the final record of a run share. *)
Definition run_details (pipeline : Pipeline) (rc : RunContext) : RunDetails :=
  mkDetails (pl_name pipeline) (rc_owner rc) (rc_repo rc) (rc_sha rc) (rc_branch rc) (rc_target_branch rc)
    (rc_tag rc) (rc_pr_number rc) (rc_trigger rc) (rc_pipeline_yaml rc) (rc_created_at rc) (rc_retry_of rc)
    (rc_tenant_slug rc) (rc_github_check_run_id rc).

Definition build_pipeline_start_record (run_id : string) (pipeline : Pipeline) (run_context : RunContext)
  : PipelineStartRecord := mkStart run_id (run_details pipeline run_context).

Record RunSummary := mkSummary {
  summary_run_id : string; summary_status : RunStatus; summary_nodes : gmap string NodeStatus }.

Inductive TimerPhase := Startup | Runtime.
#[export] Instance timer_phase_eq_dec : EqDecision TimerPhase.
Proof. solve_decision. Defined.

Inductive CoordinatorMessage :=
| NodeTimedOut (node_name : string)
| NodePodRunning (node_name : string)
| NodeInfraFailed (node_name : string) (reason : InfraFailureReason)
| NodePodStartTimedOut (node_name : string).

(** The task of a phase timer: after [pt_secs] it sends [pt_message]. *)
Record PhaseTimer := mkTimer { pt_phase : TimerPhase; pt_secs : Z; pt_message : CoordinatorMessage }.

(** Calls with an effect outside the coordinator, and the panic of its task. *)
Inductive Effect :=
| DispatchNode (node_name : string) (accepted : bool) (run_before : PipelineRun)
| CancelNode (node_name : string)
| SaveRun (version : Z) (accepted : bool)
| RecordNodeDispatched (node_name : string)
| RecordNodeRun (record : NodeRunRecord)
| RecordPipelineRun (status : RunStatus)
| ReportCompleted (status : RunStatus)
| CleanupObjects
| ReleaseLease
| DeleteRun
| WatcherCmd (cmd : WatcherCommand)
| TaskPanicked.

(** What the code relies on of serde_json and chrono. *)
Class Libraries : Type := {
  node_to_json : NodeInfo → result string string;
  from_timestamp : Z → Z → option Z;
}.

(** The fields of the coordinator that never change. *)
Record CoordinatorConst := mkConst {
  c_run_id : string;
  c_pipeline : Pipeline;
  c_config : AppConfig;
  c_node_info_cache : gmap string NodeInfo;
  c_lease_version : Z;
  c_server_id : string;
  c_run_context : RunContext;
  c_has_reporter : bool;
  c_is_rehydrate : bool;
}.

Record Coordinator (S D H : Type) := mkCoordinator {
  const : CoordinatorConst;
  run : PipelineRun;
  node_phase_handles : gmap string PhaseTimer;
  state_version : Z;
  watcher_open : bool;
  state_store : S;
  dispatcher : D;
  run_history : H;
  now_ms : Z;
  trace : list Effect;
}.
Arguments mkCoordinator {S D H}.
Arguments const {S D H}. Arguments run {S D H}. Arguments node_phase_handles {S D H}.
Arguments state_version {S D H}. Arguments watcher_open {S D H}. Arguments state_store {S D H}.
Arguments dispatcher {S D H}. Arguments run_history {S D H}. Arguments now_ms {S D H}. Arguments trace {S D H}.

(** The relay from the pod watcher. *)
Definition relay_signal (signal : PodSignal) : CoordinatorMessage :=
  match signal with
  | PodRunning node_name _ => NodePodRunning node_name
  | InfraFailure node_name _ reason => NodeInfraFailed node_name reason
  end.

Section coordinator.
Context {S D H : Type} `{SS : StateStore S, DD : Dispatcher D, RH : RunHistory H, HO : HashOrder, LB : Libraries}.
Abbreviation Co := (Coordinator S D H).
Implicit Types (c : Co) (n : string).

(** ** Access to the fields *)

Definition call_store {A} (f : M S A) : M Co A := λ c,
  let '(a, s) := f (state_store c) in
  (a, mkCoordinator (const c) (run c) (node_phase_handles c) (state_version c) (watcher_open c)
        s (dispatcher c) (run_history c) (now_ms c) (trace c)).
Definition call_dispatcher {A} (f : M D A) : M Co A := λ c,
  let '(a, d) := f (dispatcher c) in
  (a, mkCoordinator (const c) (run c) (node_phase_handles c) (state_version c) (watcher_open c)
        (state_store c) d (run_history c) (now_ms c) (trace c)).
Definition call_history {A} (f : M H A) : M Co A := λ c,
  let '(a, h) := f (run_history c) in
  (a, mkCoordinator (const c) (run c) (node_phase_handles c) (state_version c) (watcher_open c)
        (state_store c) (dispatcher c) h (now_ms c) (trace c)).
Definition on_run {A} (f : M PipelineRun A) : M Co A := λ c,
  let '(a, r) := f (run c) in
  (a, mkCoordinator (const c) r (node_phase_handles c) (state_version c) (watcher_open c)
        (state_store c) (dispatcher c) (run_history c) (now_ms c) (trace c)).
Definition on_timers (f : gmap string PhaseTimer → gmap string PhaseTimer) : M Co unit := λ c,
  ((), mkCoordinator (const c) (run c) (f (node_phase_handles c)) (state_version c) (watcher_open c)
        (state_store c) (dispatcher c) (run_history c) (now_ms c) (trace c)).
Definition set_version (v : Z) : M Co unit := λ c,
  ((), mkCoordinator (const c) (run c) (node_phase_handles c) v (watcher_open c)
        (state_store c) (dispatcher c) (run_history c) (now_ms c) (trace c)).
Definition close_watcher : M Co unit := λ c,
  ((), mkCoordinator (const c) (run c) (node_phase_handles c) (state_version c) false
        (state_store c) (dispatcher c) (run_history c) (now_ms c) (trace c)).
Definition effect (e : Effect) : M Co unit := λ c,
  ((), mkCoordinator (const c) (run c) (node_phase_handles c) (state_version c) (watcher_open c)
        (state_store c) (dispatcher c) (run_history c) (now_ms c) (trace c ++ [e])).
Definition from_const {A} (f : CoordinatorConst → A) : M Co A := gets (λ c, f (const c)).

(** [if cond { body }] *)
Definition when (b : bool) (body : M Co unit) : M Co unit := if b then body else mret ().

(** ** Small methods *)

Definition outcome_status c : RunStatus :=
  if bool_decide (Forall (λ s, s = Success) (hash_values (statuses (run c)))) then RsSuccess else RsFailure.

Definition persist_state : M Co (result StateStoreError unit) :=
  version ← gets state_version;
  let new_version := u64_add version 1 in
  state ← gets (λ c, to_run_state (run c) new_version (c_pipeline (const c)));
  run_id ← from_const c_run_id;
  r ← call_store (save_run run_id state version);
  match r with
  | Err e => _ ← effect (SaveRun new_version false); mret (Err e)
  | Ok accepted =>
      _ ← effect (SaveRun new_version accepted);
      if (accepted : bool) then _ ← set_version new_version; mret (Ok ())
      else mret (Err (StoreError ("Version fencing rejected save for run " +:+ run_id)))
  end.

Definition cancel_node_timeout n : M Co unit := on_timers (delete n).

Definition notify_watcher_of_deletion n : M Co unit :=
  is_open ← gets watcher_open;
  when is_open (effect (WatcherCmd (ExpectDeletion n))).

Definition fail_fast_enabled c : bool :=
  default (default_fail_fast (c_config (const c))) (fail_fast_override (c_pipeline (const c))).

(** The message of the task and its delay. *)
Definition spawn_startup_timeout n (timeout_secs : Z) : PhaseTimer :=
  mkTimer Startup timeout_secs (NodePodStartTimedOut n).
Definition spawn_runtime_timeout (config : AppConfig) n (override_secs : option Z) : PhaseTimer :=
  mkTimer Runtime (default (default_node_timeout_secs config) override_secs) (NodeTimedOut n).

Definition handle_pod_running n : M Co unit :=
  existing ← gets (λ c, node_phase_handles c !! n);
  if bool_decide (pt_phase <$> existing = Some Runtime) then mret ()
  else
    config ← from_const c_config;
    runtime_secs ← from_const (λ k, c_node_info_cache k !! n ≫= ni_timeout_secs);
    on_timers (λ timers, <[n := spawn_runtime_timeout config n runtime_secs]> (delete n timers)).

(** ** History *)

Definition node_definition_of n : M Co string :=
  from_const (λ k, default "" (c_node_info_cache k !! n ≫= λ info, ok (node_to_json info))).

Definition ms_to_datetime (ms : Z) : option Z :=
  from_timestamp (as_i64 (ms / 1000)) (as_u32 ((ms `mod` 1000) * 1000000)).

(** [Ok(o) => o, Err(e) => { warn!(..); None }] *)
Definition or_none {E A} (r : result E (option A)) : option A :=
  match r with Ok o => o | Err _ => None end.

Definition write_node_run (record : NodeRunRecord) : M Co unit :=
  _ ← call_history (record_node_run record); effect (RecordNodeRun record).

Definition record_node_completed n (failure_reason : option InfraFailureReason) : M Co unit :=
  node_success ← gets (λ c, bool_decide (statuses (run c) !! n = Some Success));
  node_definition ← node_definition_of n;
  run_id ← from_const c_run_id;
  r ← call_dispatcher (get_node_outcome run_id n);
  now ← gets now_ms;
  let outcome := or_none r in
  let started_at := (outcome ≫= no_started_at) ≫= ms_to_datetime in
  let node_completed_at :=
    match (outcome ≫= no_finished_at) ≫= ms_to_datetime with
    | Some t => Some t
    | None => if bool_decide (is_Some failure_reason) then Some now else None
    end in
  log ← call_dispatcher (get_node_log run_id n);
  write_node_run (mkNodeRun run_id n node_definition node_success now started_at node_completed_at
    (or_none log) (stable_code <$> failure_reason)).

Definition record_running_node_terminated n : M Co unit :=
  node_definition ← node_definition_of n;
  run_id ← from_const c_run_id;
  r ← call_dispatcher (get_node_outcome run_id n);
  now ← gets now_ms;
  let outcome := or_none r in
  let started_at := (outcome ≫= no_started_at) ≫= ms_to_datetime in
  let completed_at :=
    match (outcome ≫= no_finished_at) ≫= ms_to_datetime with Some t => Some t | None => Some now end in
  let success := default false (outcome ≫= no_success) in
  log ← call_dispatcher (get_node_log run_id n);
  write_node_run (mkNodeRun run_id n node_definition success now started_at completed_at (or_none log) None).

Definition record_node_dispatched_of n (node : NodeInfo) : M Co unit :=
  run_id ← from_const c_run_id;
  now ← gets now_ms;
  _ ← call_history (record_node_dispatched
        (mkDispatch run_id n (default "" (ok (node_to_json node))) now));
  effect (RecordNodeDispatched n).

Definition record_dispatch_failed n (error : string) : M Co unit :=
  node_definition ← node_definition_of n;
  run_id ← from_const c_run_id;
  now ← gets now_ms;
  write_node_run (mkNodeRun run_id n node_definition false now None (Some now)
    (Some ("Dispatch failed: " +:+ error)) (Some (stable_code (DispatchFailed error)))).

(** ** Dispatching *)

Definition persist_state_after_dispatch_transition : M Co unit := _ ← persist_state; mret ().

Definition fail_dispatch n (message : string) : M Co unit :=
  _ ← on_run (mark_dispatch_failed n);
  _ ← persist_state_after_dispatch_transition;
  record_dispatch_failed n message.

Definition dispatch_node n : M Co unit :=
  info ← from_const (λ k, c_node_info_cache k !! n);
  match info with
  | None => fail_dispatch n "Node info not found in pipeline"
  | Some node =>
      k ← gets const;
      let startup_secs := default (default_node_startup_timeout_secs (c_config k)) (ni_startup_timeout_secs node) in
      r ← call_dispatcher (dispatch (c_run_id k) (run_metadata (c_run_context k)) node (c_pipeline k) (c_config k));
      before ← gets run;
      _ ← effect (DispatchNode n (is_ok r) before);
      match r with
      | Ok _ =>
          marked ← on_run (mark_running n);
          when marked
            (_ ← persist_state_after_dispatch_transition;
             _ ← record_node_dispatched_of n node;
             on_timers (insert n (spawn_startup_timeout n startup_secs)))
      | Err e => fail_dispatch n (dispatch_error_to_string e)
      end
  end.

Definition dispatch_ready_nodes : M Co unit :=
  nodes ← gets (λ c, ready_nodes (run c));
  for_each nodes dispatch_node.

(** ** Completions and failures: [true] means stop *)

(** The end of every handler of a failed node. *)
Definition after_failure : M Co bool :=
  fail_fast ← gets fail_fast_enabled;
  if (fail_fast : bool) then mret true else _ ← dispatch_ready_nodes; mret false.

Definition cancel_on_cluster n : M Co unit :=
  k ← gets const;
  _ ← call_dispatcher (cancel_node (c_run_id k) n (c_config k));
  effect (CancelNode n).

Definition handle_node_infra_failed n (reason : InfraFailureReason) : M Co bool :=
  status ← gets (λ c, statuses (run c) !! n);
  if bool_decide (status = Some Success ∨ status = Some Failed) then mret false
  else
    marked ← on_run (mark_failed n);
    if negb marked then mret false
    else
      _ ← cancel_node_timeout n;
      saved ← persist_state;
      match saved with
      | Err _ => mret true
      | Ok _ =>
          _ ← notify_watcher_of_deletion n;
          _ ← cancel_on_cluster n;
          _ ← record_node_completed n (Some reason);
          after_failure
      end.

Definition handle_pod_start_timed_out n : M Co bool := handle_node_infra_failed n PodStartTimeout.

Definition handle_node_timed_out n : M Co bool :=
  marked ← on_run (mark_failed n);
  if negb marked then mret false
  else
    saved ← persist_state;
    match saved with
    | Err _ => mret true
    | Ok _ =>
        _ ← notify_watcher_of_deletion n;
        _ ← cancel_on_cluster n;
        _ ← record_node_completed n None;
        after_failure
    end.

Definition handle_node_completed n (success : bool) : M Co bool :=
  if success then
    _ ← on_run (mark_success n);
    saved ← persist_state;
    match saved with
    | Err _ => mret true
    | Ok _ => _ ← record_node_completed n None; _ ← dispatch_ready_nodes; mret false
    end
  else
    _ ← on_run (mark_failed n);
    saved ← persist_state;
    match saved with
    | Err _ => mret true
    | Ok _ => _ ← record_node_completed n None; after_failure
    end.

(** ** Reconciliation with S3 *)

Definition S3_READ_BUDGET_SECS : Z := 7.

Definition is_unfinished (s : NodeStatus) : bool :=
  match s with Running | Pending => true | Success | Failed => false end.
Definition nodes_with (p : NodeStatus → bool) (r : PipelineRun) : list string :=
  (List.filter (λ '(_, s), p s) (hash_iter (statuses r))).*1.
Definition running_nodes (r : PipelineRun) : list string := nodes_with (λ s, bool_decide (s = Running)) r.

Definition read_outcomes_for_non_terminal : M Co (gmap string ReconcileResult) :=
  nodes ← gets (λ c, nodes_with is_unfinished (run c));
  match nodes with
  | [] => mret ∅
  | _ =>
      run_id ← from_const c_run_id;
      '(secs, outcomes) ← call_dispatcher (read_outcomes_for_running_nodes run_id nodes);
      mret (if (secs <=? S3_READ_BUDGET_SECS)%Z then outcomes else ∅)
  end.

Definition fold_completion (entry : string * ReconcileResult) : M Co bool :=
  match entry with
  | (n, Completed success _ _) => _ ← cancel_node_timeout n; handle_node_completed n success
  | _ => mret false
  end.

Definition fold_completions_from_outcomes (outcomes : gmap string ReconcileResult) : M Co bool :=
  for_until (hash_iter outcomes) fold_completion.

Definition reconcile_running_against_s3 : M Co bool :=
  outcomes ← read_outcomes_for_non_terminal; fold_completions_from_outcomes outcomes.

Definition is_in_progress (r : ReconcileResult) : bool :=
  match r with InProgress _ => true | _ => false end.

Definition promote_node n : M Co bool :=
  marked ← on_run (mark_running n);
  if negb marked then mret false
  else
    _ ← persist_state;
    run_id ← from_const c_run_id;
    exists_ ← call_dispatcher (node_pod_exists run_id n);
    match exists_ with
    | Ok false => handle_node_infra_failed n PodDeletedUnexpectedly
    | Ok true | Err _ => mret false
    end.

Definition promote_started_pending_to_running (outcomes : gmap string ReconcileResult) : M Co bool :=
  to_promote ← gets (λ c, (List.filter (λ '(n, r),
      is_in_progress r && bool_decide (statuses (run c) !! n = Some Pending)) (hash_iter outcomes)).*1);
  for_until to_promote promote_node.

(** The remaining budget of a phase that started [elapsed_ms] ago. *)
Definition remaining_secs (budget elapsed_secs : Z) : Z := u64_saturating_sub budget elapsed_secs.

Definition rehydrate_timer (outcomes : gmap string ReconcileResult) n : M Co unit :=
  config ← from_const c_config;
  node ← from_const (λ k, c_node_info_cache k !! n);
  now ← gets now_ms;
  let runtime_secs := default (default_node_timeout_secs config) (node ≫= ni_timeout_secs) in
  let startup_secs := default (default_node_startup_timeout_secs config) (node ≫= ni_startup_timeout_secs) in
  match outcomes !! n with
  | Some (InProgress started_at_ms) =>
      let elapsed_secs := as_u64 (Z.max (now - started_at_ms) 0 / 1000) in
      on_timers (insert n (spawn_runtime_timeout config n (Some (remaining_secs runtime_secs elapsed_secs))))
  | _ =>
      run_id ← from_const c_run_id;
      row ← call_history (get_node_run run_id n);
      match row with
      | Ok (Some row) =>
          let elapsed_secs := Z.max (Z.quot (now - nrow_created_at row) 1000) 0 in
          on_timers (insert n (spawn_startup_timeout n (remaining_secs startup_secs elapsed_secs)))
      | _ => on_timers (insert n (spawn_runtime_timeout config n (Some runtime_secs)))
      end
  end.

Definition rehydrate_phase_timers (outcomes : gmap string ReconcileResult) : M Co unit :=
  nodes ← gets (λ c, running_nodes (run c));
  for_each nodes (rehydrate_timer outcomes).

(** ** The end of the run *)

Definition record_and_fail n : M Co unit :=
  _ ← record_running_node_terminated n; _ ← on_run (mark_failed n); mret ().

Definition record_history (status : RunStatus) : M Co unit :=
  nodes ← gets (λ c, running_nodes (run c));
  _ ← for_each nodes record_and_fail;
  k ← gets const;
  now ← gets now_ms;
  _ ← call_history (record_pipeline_run
        (mkRunRecord (c_run_id k) (run_details (c_pipeline k) (c_run_context k)) status (Some now)));
  effect (RecordPipelineRun status).

Definition finalize_run (status : RunStatus) : M Co unit :=
  _ ← record_history status;
  reporter ← from_const c_has_reporter;
  when reporter (effect (ReportCompleted status)).

Definition cleanup : M Co unit :=
  run_id ← from_const c_run_id;
  _ ← call_dispatcher (cleanup_run run_id); _ ← effect CleanupObjects;
  _ ← call_store (release_lease run_id); _ ← effect ReleaseLease;
  _ ← call_store (delete_run run_id); effect DeleteRun.

Definition shutdown_pod_watcher : M Co unit :=
  is_open ← gets watcher_open;
  _ ← when is_open (effect (WatcherCmd Shutdown));
  close_watcher.

Definition summary (status : RunStatus) : M Co RunSummary :=
  gets (λ c, mkSummary (c_run_id (const c)) status (statuses (run c))).

Definition terminate_running_nodes (status : RunStatus) : M Co RunSummary :=
  _ ← on_timers (λ _, ∅);
  nodes ← gets (λ c, running_nodes (run c));
  _ ← for_each nodes (λ n, _ ← notify_watcher_of_deletion n; cancel_on_cluster n);
  _ ← shutdown_pod_watcher;
  summary status.

Definition build_summary (status : RunStatus) : M Co RunSummary :=
  _ ← shutdown_pod_watcher; summary status.

(** [finalize_run; cleanup; return terminate_running_nodes] *)
Definition abort_run (status : RunStatus) : M Co RunSummary :=
  _ ← finalize_run status; _ ← cleanup; terminate_running_nodes status.
(** [finalize_run; cleanup; build_summary] with the outcome of the nodes *)
Definition complete_run : M Co RunSummary :=
  status ← gets outcome_status;
  _ ← finalize_run status; _ ← cleanup; build_summary status.

(** ** The loop *)

Inductive LoopEvent :=
| PipelineDeadline
| Heartbeat
| S3Reconcile
| Internal (msg : CoordinatorMessage)
| FromBackplane (event : option BackplaneEvent).

Inductive Flow := Continue | Break | Return (s : RunSummary).

(** What follows a handler that tells whether to stop. *)
Definition stop_or_complete (handler : M Co bool) : M Co Flow :=
  stop ← handler;
  if (stop : bool) then s ← abort_run RsFailure; mret (Return s)
  else
    complete ← gets (λ c, is_complete (run c));
    mret (if (complete : bool) then Break else Continue).

Definition loop_step (event : LoopEvent) : M Co Flow :=
  match event with
  | PipelineDeadline => s ← abort_run RsFailure; mret (Return s)
  | Heartbeat =>
      k ← gets const;
      r ← call_store (renew_lease (c_run_id k) (c_server_id k) (c_lease_version k) 30);
      if match r with Ok renewed => renewed | Err _ => false end then mret Continue
      else s ← build_summary RsFailure; mret (Return s)
  | S3Reconcile => stop_or_complete reconcile_running_against_s3
  | Internal (NodeTimedOut n) => stop_or_complete (handle_node_timed_out n)
  | Internal (NodePodRunning n) => _ ← handle_pod_running n; mret Continue
  | Internal (NodeInfraFailed n reason) => stop_or_complete (handle_node_infra_failed n reason)
  | Internal (NodePodStartTimedOut n) => stop_or_complete (handle_pod_start_timed_out n)
  | FromBackplane (Some (NodeCompleted n success)) =>
      stop_or_complete (_ ← cancel_node_timeout n; handle_node_completed n success)
  | FromBackplane (Some CancelRun) => s ← abort_run RsCancelled; mret (Return s)
  | FromBackplane None => s ← abort_run RsFailure; mret (Return s)
  end.

(** Between two iterations the other servers and the clock move on. *)
Record Tick := mkTick {
  tick_store : S → S; tick_dispatcher : D → D; tick_history : H → H; tick_ms : Z; tick_event : LoopEvent }.
Definition pass_time (t : Tick) : M Co unit := λ c,
  ((), mkCoordinator (const c) (run c) (node_phase_handles c) (state_version c) (watcher_open c)
        (tick_store t (state_store c)) (tick_dispatcher t (dispatcher c)) (tick_history t (run_history c))
        (now_ms c + tick_ms t) (trace c)).

(** [None]: the schedule ended while the coordinator was waiting. *)
Fixpoint event_loop (ticks : list Tick) : M Co (option RunSummary) :=
  match ticks with
  | [] => mret None
  | t :: ticks =>
      _ ← pass_time t;
      flow ← loop_step (tick_event t);
      match flow with
      | Continue => event_loop ticks
      | Break => s ← complete_run; mret (Some s)
      | Return s => mret (Some s)
      end
  end.

(** The part of [run] for a rehydrated run: a summary if the run ends there. *)
Definition rehydrate : M Co (option RunSummary) :=
  outcomes ← read_outcomes_for_non_terminal;
  stop ← fold_completions_from_outcomes outcomes;
  if (stop : bool) then s ← abort_run RsFailure; mret (Some s)
  else
    stop ← promote_started_pending_to_running outcomes;
    if (stop : bool) then s ← abort_run RsFailure; mret (Some s)
    else
      _ ← rehydrate_phase_timers outcomes;
      complete ← gets (λ c, is_complete (run c));
      if (complete : bool) then s ← complete_run; mret (Some s) else mret None.

(** [tokio::time::interval(Duration::from_secs(secs))] panics on a zero period. *)
Definition interval_panics (secs : Z) : bool := bool_decide (secs = 0%Z).

(** [None]: the task has not returned; it waits for an event, or it panicked and
    never will. *)
Definition run_coordinator (subscribed : bool) (ticks : list Tick) : M Co (option RunSummary) :=
  is_rehydrate ← from_const c_is_rehydrate;
  ended ← (if (is_rehydrate : bool) then rehydrate else mret None);
  match ended with
  | Some s => mret (Some s)
  | None =>
      if negb subscribed then s ← build_summary RsFailure; mret (Some s)
      else
        panics ← from_const (λ k, interval_panics (s3_reconcile_interval_secs (c_config k)));
        if (panics : bool) then _ ← effect TaskPanicked; mret None
        else
          _ ← dispatch_ready_nodes;
          complete ← gets (λ c, is_complete (run c));
          if (complete : bool) then s ← complete_run; mret (Some s)
          else event_loop ticks
  end.

(** ** Starting *)

Definition initialize_run_state (run_id : string) (node_infos : list NodeInfo) (pipeline : Pipeline)
  : M S (PipelineRun * Z * bool) :=
  r ← load_run run_id;
  match r with
  | Ok (Some existing) => mret (from_run_state existing, rs_version existing, true)
  | Ok None =>
      let run := new_run node_infos in
      _ ← save_run run_id (to_run_state run 0 pipeline) 0;
      mret (run, 0%Z, false)
  | Err _ => mret (new_run node_infos, 0%Z, false)
  end.

(** [start_coordinator] up to the spawn of [run]; [server_id] is the fresh
    UUID. *)
Definition start_coordinator (run_id server_id : string) (pipeline : Pipeline) (config : AppConfig)
    (has_reporter : bool) (run_context : RunContext) (now : Z) (store : S) (disp : D) (history : H)
  : option Co * (S * D * H) :=
  let '(acquired, store) := try_acquire_lease run_id server_id 30 store in
  match acquired with
  | Ok (Some lease_version) =>
      let '(_, history) := record_pipeline_started (build_pipeline_start_record run_id pipeline run_context) history in
      let node_infos := node_info pipeline in
      let cache := collect_map ni_name id node_infos in
      let '((run, version, is_rehydrate), store) := initialize_run_state run_id node_infos pipeline store in
      let seed_running := list_to_set (running_nodes run) in
      let '(watched, disp) := start_pod_watcher run_id seed_running disp in
      (Some (mkCoordinator
         (mkConst run_id pipeline config cache lease_version server_id run_context has_reporter is_rehydrate)
         run ∅ version watched store disp history now []), (store, disp, history))
  | Ok None | Err _ => (None, (store, disp, history))
  end.
End coordinator.
