(* ===== verification/CoordinatorFacts.v ===== *)
(** * What the coordinator guarantees

    Theorems about the definitions of [Coordinator], for every implementation
    of the services it calls and every interference of other servers; the
    theorems that need the store's contract name it. *)

From S2P Require Import Prelude AppConfig Pipeline StateStore Run SourceManager PodWatcher RunHistory Dispatcher Backplane Coordinator.

Section facts.
Context {S D H : Type} `{SS : StateStore S, DD : Dispatcher D, RH : RunHistory H, HO : HashOrder, LB : Libraries}.
Abbreviation Co := (Coordinator S D H).
Implicit Types (c : Co) (n : string).

(** ** Relations between the states before and after an operation *)

Definition dispatched (l : list Effect) : list string :=
  omap (λ e, match e with DispatchNode n _ _ => Some n | _ => None end) l.

(** A node is dispatched while it is pending and its dependencies succeeded. *)
Definition dispatch_legal (e : Effect) : Prop :=
  match e with
  | DispatchNode n _ r => statuses r !! n = Some Pending ∧ deps_satisfied r n = true
  | _ => True
  end.

(** Statuses advance, effects are appended, every dispatch is legal and takes
    its node out of the pending ones for good. *)
Record coord_le (c c' : Co) : Prop := {
  le_const : const c' = const c;
  le_run : run_le (run c) (run c');
  le_trace : ∃ new, trace c' = trace c ++ new ∧ Forall dispatch_legal new ∧ NoDup (dispatched new) ∧
    ∀ n, n ∈ dispatched new →
      statuses (run c) !! n = Some Pending ∧ statuses (run c') !! n ≠ Some Pending;
}.

(** Nothing but effects other than dispatches. *)
Record quiet (c c' : Co) : Prop := {
  q_const : const c' = const c;
  q_run : run c' = run c;
  q_timers : node_phase_handles c' = node_phase_handles c;
  q_trace : ∃ new, trace c' = trace c ++ new ∧ dispatched new = [];
}.

Lemma run_le_pending r1 r2 n :
  run_le r1 r2 → statuses r2 !! n = Some Pending → statuses r1 !! n = Some Pending.
Proof.
  intros [_ Hle] H2. specialize (Hle n). rewrite H2 in Hle.
  destruct (statuses r1 !! n) as [[]|]; done.
Qed.

Lemma run_le_refl r : run_le r r.
Proof. reflexivity. Qed.

Lemma dispatched_legal l : dispatched l = [] → Forall dispatch_legal l.
Proof. induction l as [|[] l IH]; simpl; [constructor|..]; intros; simplify_eq; constructor; auto; done. Qed.

#[export] Instance coord_le_preorder : PreOrder coord_le.
Proof.
  split.
  - intros c. split; [done|apply run_le_refl|]. exists []. rewrite app_nil_r. split_and!; [done|constructor|constructor|].
    intros n Hn. by apply elem_of_nil in Hn.
  - intros c1 c2 c3 [K1 R1 (l1 & T1 & L1 & N1 & P1)] [K2 R2 (l2 & T2 & L2 & N2 & P2)].
    split; [congruence|by etrans|]. exists (l1 ++ l2). unfold dispatched in *. rewrite omap_app.
    split_and!; [by rewrite T2, T1, (assoc_L (++))|by apply Forall_app| |].
    + apply NoDup_app. split_and!; [done| |done]. intros n H1' H2'. by apply P2 in H2' as [? _]; apply P1 in H1' as [_ []].
    + intros n [Hn|Hn]%elem_of_app.
      * apply P1 in Hn as [? Hp]. split; [done|]. intros Hp3. by apply Hp, (run_le_pending _ _ _ R2).
      * apply P2 in Hn as [Hp ?]. split; [by apply (run_le_pending _ _ _ R1)|done].
Qed.

#[export] Instance quiet_preorder : PreOrder quiet.
Proof.
  split.
  - intros c. split; [done..|]. exists []. by rewrite app_nil_r.
  - intros c1 c2 c3 [K1 R1 M1 (l1 & T1 & L1)] [K2 R2 M2 (l2 & T2 & L2)]. split; [congruence..|].
    exists (l1 ++ l2). unfold dispatched in *. rewrite omap_app, L1, L2. by rewrite T2, T1, (assoc_L (++)).
Qed.

Lemma quiet_le c c' : quiet c c' → coord_le c c'.
Proof.
  intros [K R _ (l & T & L)]. split; [done|by rewrite R|]. exists l. rewrite L.
  split_and!; [done|by apply dispatched_legal|constructor|]. intros n Hn. by apply elem_of_nil in Hn.
Qed.

(** ** Composition *)

Section composition.
Context (R : Co → Co → Prop) `{!PreOrder R}.

Lemma preserves_from_const {A} (f : CoordinatorConst → A) : preserves R (from_const f).
Proof. by apply preserves_gets. Qed.
Lemma preserves_when b m : preserves R m → preserves R (when b m).
Proof. intros Hm. destruct b; [done|by apply preserves_ret]. Qed.
End composition.

Lemma quiet_call_store {A} (f : M S A) : preserves quiet (call_store f).
Proof. intros c. unfold call_store. destruct (f _). split; [done..|]. exists []. by rewrite app_nil_r. Qed.
Lemma quiet_call_dispatcher {A} (f : M D A) : preserves quiet (call_dispatcher f).
Proof. intros c. unfold call_dispatcher. destruct (f _). split; [done..|]. exists []. by rewrite app_nil_r. Qed.
Lemma quiet_call_history {A} (f : M H A) : preserves quiet (call_history f).
Proof. intros c. unfold call_history. destruct (f _). split; [done..|]. exists []. by rewrite app_nil_r. Qed.
Lemma quiet_effect e : dispatched [e] = [] → preserves quiet (effect e).
Proof. intros He c. split; [done..|]. by exists [e]. Qed.
Lemma quiet_set_version v : preserves quiet (set_version v).
Proof. intros c. split; [done..|]. exists []. by rewrite app_nil_r. Qed.
Lemma quiet_close_watcher : preserves quiet close_watcher.
Proof. intros c. split; [done..|]. exists []. by rewrite app_nil_r. Qed.
Lemma le_on_timers f : preserves coord_le (on_timers f).
Proof.
  intros c. split; [done|apply run_le_refl|]. exists []. rewrite app_nil_r. split_and!; [done|constructor|constructor|].
  intros n Hn. by apply elem_of_nil in Hn.
Qed.
Lemma le_on_run {A} (f : M PipelineRun A) : (∀ r, run_le r (f r).2) → preserves coord_le (on_run f).
Proof.
  intros Hf c. unfold on_run. specialize (Hf (run c)). destruct (f (run c)) as [a r].
  split; [done|exact Hf|]. exists []. rewrite app_nil_r. split_and!; [done|constructor|constructor|].
  intros n Hn. by apply elem_of_nil in Hn.
Qed.
End facts.

(** ** Automation *)

Create HintDb coord.
#[export] Hint Resolve quiet_preorder coord_le_preorder : coord.
#[export] Hint Resolve preserves_ret preserves_gets preserves_from_const preserves_when
  quiet_call_store quiet_call_dispatcher quiet_call_history quiet_set_version quiet_close_watcher : coord.
#[export] Hint Extern 1 (preserves quiet (effect _)) => apply quiet_effect; reflexivity : coord.

(** Follows the structure of an operation down to its calls. *)
Ltac preserve :=
  repeat first
    [ progress eauto 2 with coord
    | apply preserves_bind; [exact _| |intros ?]
    | apply preserves_when; [exact _|]
    | apply preserves_for_each; [exact _|intros ?]
    | apply preserves_for_until; [exact _|intros ?]
    | apply preserves_ret; exact _
    | apply preserves_gets; exact _
    | apply preserves_from_const; exact _
    | match goal with
      | |- preserves _ (match ?x with _ => _ end) => destruct x
      | |- preserves _ (let _ := _ in _) => cbv zeta
      end ].

Section operations.
Context {S D H : Type} `{SS : StateStore S, DD : Dispatcher D, RH : RunHistory H, HO : HashOrder, LB : Libraries}.
Abbreviation Co := (Coordinator S D H).
Implicit Types (c : Co) (n : string).

(** ** Operations that only call services *)
Lemma quiet_persist_state : preserves (quiet (S:=S) (D:=D) (H:=H)) persist_state.
Proof. unfold persist_state. preserve. Qed.
Lemma quiet_persist_after : preserves (quiet (S:=S) (D:=D) (H:=H)) persist_state_after_dispatch_transition.
Proof. unfold persist_state_after_dispatch_transition. pose proof quiet_persist_state. preserve. Qed.
Lemma quiet_notify n : preserves (quiet (S:=S) (D:=D) (H:=H)) (notify_watcher_of_deletion n).
Proof. unfold notify_watcher_of_deletion. preserve. Qed.
Lemma quiet_write_node_run r : preserves (quiet (S:=S) (D:=D) (H:=H)) (write_node_run r).
Proof. unfold write_node_run. preserve. Qed.
Lemma quiet_node_definition n : preserves (quiet (S:=S) (D:=D) (H:=H)) (node_definition_of n).
Proof. unfold node_definition_of. preserve. Qed.
#[local] Hint Resolve quiet_persist_state quiet_persist_after quiet_notify quiet_write_node_run
  quiet_node_definition : coord.
Lemma quiet_record_completed n reason : preserves (quiet (S:=S) (D:=D) (H:=H)) (record_node_completed n reason).
Proof. unfold record_node_completed. preserve. Qed.
Lemma quiet_record_terminated n : preserves (quiet (S:=S) (D:=D) (H:=H)) (record_running_node_terminated n).
Proof. unfold record_running_node_terminated. preserve. Qed.
Lemma quiet_record_dispatched n node : preserves (quiet (S:=S) (D:=D) (H:=H)) (record_node_dispatched_of n node).
Proof. unfold record_node_dispatched_of. preserve. Qed.
Lemma quiet_record_dispatch_failed n e : preserves (quiet (S:=S) (D:=D) (H:=H)) (record_dispatch_failed n e).
Proof. unfold record_dispatch_failed. preserve. Qed.
Lemma quiet_cancel_on_cluster n : preserves (quiet (S:=S) (D:=D) (H:=H)) (cancel_on_cluster n).
Proof. unfold cancel_on_cluster. preserve. Qed.
Lemma quiet_read_outcomes : preserves (quiet (S:=S) (D:=D) (H:=H)) read_outcomes_for_non_terminal.
Proof. unfold read_outcomes_for_non_terminal. preserve. Qed.
Lemma quiet_cleanup : preserves (quiet (S:=S) (D:=D) (H:=H)) cleanup.
Proof. unfold cleanup. preserve. Qed.
Lemma quiet_shutdown : preserves (quiet (S:=S) (D:=D) (H:=H)) shutdown_pod_watcher.
Proof. unfold shutdown_pod_watcher. preserve. Qed.
Lemma quiet_summary st : preserves (quiet (S:=S) (D:=D) (H:=H)) (summary st).
Proof. unfold summary. preserve. Qed.
End operations.

#[export] Hint Resolve quiet_persist_state quiet_persist_after quiet_notify quiet_write_node_run
  quiet_node_definition quiet_record_completed quiet_record_terminated quiet_record_dispatched
  quiet_record_dispatch_failed quiet_cancel_on_cluster quiet_read_outcomes quiet_cleanup quiet_shutdown
  quiet_summary : coord.

(** ** Dispatching *)

Section dispatching.
Context {S D H : Type} `{SS : StateStore S, DD : Dispatcher D, RH : RunHistory H, HO : HashOrder, LB : Libraries}.
Abbreviation Co := (Coordinator S D H).
Implicit Types (c : Co) (n : string).

(** The timer kept for a node reports that node. *)
Definition timer_for n (t : PhaseTimer) : Prop :=
  pt_message t = NodeTimedOut n ∨ pt_message t = NodePodStartTimedOut n.

(** One status set, besides quiet calls. *)
Record sets n (s : NodeStatus) c c' : Prop := {
  s_const : const c' = const c;
  s_run : run c' = set_status n s (run c);
  s_timers : node_phase_handles c' = node_phase_handles c;
  s_trace : ∃ new, trace c' = trace c ++ new ∧ dispatched new = [];
}.

Lemma quiet_sets n s c1 c2 c3 : quiet c1 c2 → sets n s c2 c3 → sets n s c1 c3.
Proof.
  intros [K1 R1 M1 (l1 & T1 & L1)] [K2 R2 M2 (l2 & T2 & L2)]. split; [congruence..|].
  exists (l1 ++ l2). unfold dispatched in *. rewrite omap_app, L1, L2. by rewrite T2, T1, (assoc_L (++)).
Qed.
Lemma sets_quiet n s c1 c2 c3 : sets n s c1 c2 → quiet c2 c3 → sets n s c1 c3.
Proof.
  intros [K1 R1 M1 (l1 & T1 & L1)] [K2 R2 M2 (l2 & T2 & L2)]. split; [congruence..|].
  exists (l1 ++ l2). unfold dispatched in *. rewrite omap_app, L1, L2. by rewrite T2, T1, (assoc_L (++)).
Qed.

Lemma set_status_run_le n s (r : PipelineRun) t : statuses r !! n = Some t → status_le t s = true → run_le r (set_status n s r).
Proof. intros. by eapply set_status_le. Qed.

Lemma sets_le n s t c c' :
  sets n s c c' → statuses (run c) !! n = Some t → status_le t s = true → coord_le c c'.
Proof.
  intros [K R M (l & T & L)] Hn Hle. split; [done|rewrite R; by eapply set_status_run_le|].
  exists l. rewrite L. split_and!; [done|by apply dispatched_legal|constructor|]. intros m Hm. by apply elem_of_nil in Hm.
Qed.

Lemma on_run_sets (mark : M PipelineRun bool) n s c :
  mark (run c) = (true, set_status n s (run c)) → (on_run mark c).1 = true ∧ sets n s c (on_run mark c).2.
Proof.
  intros Hm. unfold on_run. rewrite Hm. split; [done|]. split; [done..|]. exists []. by rewrite app_nil_r.
Qed.
Lemma on_run_false (mark : M PipelineRun bool) c :
  mark (run c) = (false, run c) → (on_run mark c).1 = false ∧ quiet c (on_run mark c).2.
Proof.
  intros Hm. unfold on_run. rewrite Hm. split; [done|]. split; [done..|]. exists []. by rewrite app_nil_r.
Qed.

Lemma fail_dispatch_spec n message c :
  statuses (run c) !! n = Some Pending → sets n Failed c (fail_dispatch n message c).2.
Proof.
  intros Hp. unfold fail_dispatch. rewrite !bind_eq.
  destruct (on_run_sets (mark_dispatch_failed n) n Failed c) as [_ Hs].
  { unfold mark_dispatch_failed. by rewrite bool_decide_eq_true_2. }
  eapply sets_quiet; [exact Hs|]. etrans; [apply quiet_persist_after|apply quiet_record_dispatch_failed].
Qed.

(** What one call of [dispatch_node] does to a node that is ready. *)
Record dispatches n c c' : Prop := {
  d_const : const c' = const c;
  d_status : ∃ s, (s = Running ∨ s = Failed) ∧ run c' = set_status n s (run c) ∧
    (s = Running → ∃ t, node_phase_handles c' = <[n := t]> (node_phase_handles c) ∧ timer_for n t) ∧
    (s = Failed → node_phase_handles c' = node_phase_handles c);
  d_trace : ∃ new, trace c' = trace c ++ new ∧ Forall dispatch_legal new ∧
    (dispatched new = [] ∨ dispatched new = [n]);
}.

Lemma dispatch_node_spec n c :
  statuses (run c) !! n = Some Pending → deps_satisfied (run c) n = true → dispatches n c (dispatch_node n c).2.
Proof.
  intros Hp Hdeps. unfold dispatch_node. rewrite bind_eq. cbn [from_const gets fst snd].
  destruct (c_node_info_cache (const c) !! n) as [node|].
  2:{ destruct (fail_dispatch_spec n "Node info not found in pipeline" c Hp) as [K R M (l & T & L)].
      split; [done| |exists l; split; [done|split; [by apply dispatched_legal|by left]]].
      exists Failed. split_and!; [by right|done|done|done]. }
  rewrite bind_eq. cbn [gets fst snd]. rewrite bind_eq.
  set (call := call_dispatcher _). pose proof (quiet_call_dispatcher (S:=S) (H:=H) _ c : quiet c (call c).2) as Hq.
  destruct (call c) as [r c1]. cbn [fst snd] in *. destruct Hq as [K1 R1 M1 (l1 & T1 & L1)].
  rewrite bind_eq. cbn [gets fst snd]. rewrite bind_eq. set (c2 := (effect _ c1).2).
  assert (const c2 = const c ∧ run c2 = run c ∧ node_phase_handles c2 = node_phase_handles c) as (K2 & R2 & M2) by done.
  assert (trace c2 = trace c ++ (l1 ++ [DispatchNode n (is_ok r) (run c)])) as T2.
  { unfold c2. simpl. by rewrite T1, R1, (assoc_L (++)). }
  assert (Forall dispatch_legal (l1 ++ [DispatchNode n (is_ok r) (run c)])) as Hlegal.
  { apply Forall_app. split; [by apply dispatched_legal|]. by repeat constructor. }
  assert (dispatched (l1 ++ [DispatchNode n (is_ok r) (run c)]) = [n]) as Hdisp.
  { unfold dispatched in *. by rewrite omap_app, L1. }
  generalize dependent (l1 ++ [DispatchNode n (is_ok r) (run c)]). intros new T2 Hlegal Hdisp.
  clearbody c2. clear call c1 R1 M1 T1 K1. rewrite <-R2 in Hp.
  destruct r as [[]|e].
  - rewrite bind_eq. destruct (on_run_sets (mark_running n) n Running c2) as [Hmark Hs].
    { unfold mark_running. by rewrite bool_decide_eq_true_2. }
    rewrite Hmark. cbn [when]. destruct (on_run (mark_running n) c2) as [b c3]. cbn [snd] in *. clear Hmark b.
    rewrite !bind_eq. cbn [snd fst on_timers].
    pose proof (quiet_persist_after c3) as Hq3. destruct (persist_state_after_dispatch_transition c3) as [u c4]. cbn [snd] in *.
    pose proof (quiet_record_dispatched n node c4) as Hq4. destruct (record_node_dispatched_of n node c4) as [u' c5]. cbn [snd] in *.
    pose proof (sets_quiet _ _ _ _ _ Hs (transitivity Hq3 Hq4)) as [K R M (l & T & L)].
    split; cbn [const run node_phase_handles trace]; [congruence| |].
    + exists Running. split_and!; [by left|by rewrite R, R2| |done]. intros _. rewrite M, M2. eexists. split; [done|]. by right.
    + exists (new ++ l). split_and!.
      * by rewrite T, T2, (assoc_L (++)).
      * apply Forall_app. split; [exact Hlegal|by apply dispatched_legal].
      * right. unfold dispatched in *. by rewrite omap_app, Hdisp, L.
  - destruct (fail_dispatch_spec n (dispatch_error_to_string e) c2 Hp) as [K R M (l & T & L)].
    split; [congruence| |].
    + exists Failed. split_and!; [by right|by rewrite R, R2|done|intros _; congruence].
    + exists (new ++ l). split_and!.
      * by rewrite T, T2, (assoc_L (++)).
      * apply Forall_app. split; [exact Hlegal|by apply dispatched_legal].
      * right. unfold dispatched in *. by rewrite omap_app, Hdisp, L.
Qed.

Lemma dispatches_le n c c' :
  dispatches n c c' → statuses (run c) !! n = Some Pending → coord_le c c'.
Proof.
  intros [K (s & Hs & R & _) (l & T & L & Hd)] Hp. split; [done| |].
  - rewrite R. eapply set_status_run_le; [done|by destruct Hs as [-> | ->]].
  - exists l. split_and!; [done..| |].
    + destruct Hd as [-> | ->]; [constructor|apply NoDup_singleton].
    + intros m Hm. assert (m = n) as -> by (destruct Hd as [Hd|Hd]; rewrite Hd in Hm; set_solver).
      split; [done|]. rewrite R. simpl. rewrite lookup_insert_eq. by destruct Hs as [-> | ->].
Qed.
End dispatching.

(** ** The dispatch loop and the loop invariant *)

Section ready.
Context {S D H : Type} `{SS : StateStore S, DD : Dispatcher D, RH : RunHistory H, HO : HashOrder, LB : Libraries}.
Abbreviation Co := (Coordinator S D H).
Implicit Types (c : Co) (n : string).

(** Every running node has a timer that reports it. *)
Definition timers_cover c : Prop :=
  ∀ n, statuses (run c) !! n = Some Running → ∃ t, node_phase_handles c !! n = Some t ∧ timer_for n t.

Lemma deps_satisfied_mono r1 r2 n :
  run_le r1 r2 → deps_satisfied r1 n = true → deps_satisfied r2 n = true.
Proof.
  intros [Hdeps Hle]. rewrite !deps_satisfied_true, Hdeps. intros Hs deps d Hd Hin.
  specialize (Hs deps d Hd Hin). specialize (Hle d). rewrite Hs in Hle.
  destruct (statuses r2 !! d) as [[]|]; done.
Qed.

Lemma dispatches_cover n c c' : dispatches n c c' → timers_cover c → timers_cover c'.
Proof.
  intros [_ (s & Hs & R & HR & HF) _] Hcov m Hm. rewrite R in Hm. simpl in Hm.
  destruct (decide (m = n)) as [->|Hne].
  - rewrite lookup_insert_eq in Hm. injection Hm as ->. destruct (HR eq_refl) as (t & -> & Ht).
    exists t. by rewrite lookup_insert_eq.
  - rewrite lookup_insert_ne in Hm by done. destruct (Hcov m Hm) as (t & Hl & Ht). exists t. split; [|done].
    destruct Hs as [-> | ->].
    + destruct (HR eq_refl) as (t' & -> & _). by rewrite lookup_insert_ne.
    + by rewrite (HF eq_refl).
Qed.

Lemma dispatch_each_spec nodes c :
  NoDup nodes →
  (∀ n, n ∈ nodes → statuses (run c) !! n = Some Pending ∧ deps_satisfied (run c) n = true) →
  let c' := (for_each nodes dispatch_node c).2 in
  coord_le c c' ∧ (timers_cover c → timers_cover c') ∧
  (∀ n, n ∈ nodes → statuses (run c') !! n = Some Running ∨ statuses (run c') !! n = Some Failed) ∧
  (∀ n, n ∉ nodes → statuses (run c') !! n = statuses (run c) !! n).
Proof.
  revert c; induction nodes as [|n nodes IH]; intros c Hnd Hready.
  { split_and!; [reflexivity|done| |done]. intros n Hn. by apply elem_of_nil in Hn. }
  apply NoDup_cons in Hnd as [Hn Hnd]. simpl for_each. rewrite bind_eq.
  destruct (Hready n (list_elem_of_here _ _)) as [Hp Hd].
  pose proof (dispatch_node_spec n c Hp Hd) as Hone. pose proof (dispatches_le n c _ Hone Hp) as Hle1.
  pose proof (dispatches_cover n c _ Hone) as Hcov1. destruct (dispatch_node n c) as [u c1]. cbn [snd] in *.
  destruct Hone as [K1 (s & Hs & R1 & _) _].
  assert (∀ m, m ≠ n → statuses (run c1) !! m = statuses (run c) !! m) as Hsame.
  { intros m Hm. rewrite R1. simpl. by rewrite lookup_insert_ne. }
  destruct (IH c1 Hnd) as (Hle2 & Hcov2 & Hin & Hout).
  { intros m Hm. destruct (Hready m (list_elem_of_further _ _ _ Hm)) as [Hpm Hdm]. split.
    - rewrite Hsame; [done|]. by intros ->.
    - eapply deps_satisfied_mono; [apply Hle1|done]. }
  split_and!; [by etrans|by auto| |].
  - intros m [->|Hm]%elem_of_cons; [|by apply Hin]. rewrite (Hout n Hn), R1. simpl. rewrite lookup_insert_eq.
    destruct Hs as [-> | ->]; auto.
  - intros m Hm. rewrite Hout by set_solver. apply Hsame. set_solver.
Qed.

(** Dispatching is work-conserving: afterwards nothing is ready. *)
Lemma dispatch_ready_spec c :
  let c' := (dispatch_ready_nodes c).2 in
  coord_le c c' ∧ (timers_cover c → timers_cover c') ∧ ready_nodes (run c') = [].
Proof.
  unfold dispatch_ready_nodes. rewrite bind_eq. cbn [gets fst snd].
  destruct (dispatch_each_spec (ready_nodes (run c)) c (NoDup_ready _)) as (Hle & Hcov & Hin & Hout).
  { intros n Hn. by apply elem_of_ready. }
  split_and!; [done..|]. set (c' := (for_each _ dispatch_node c).2) in *.
  destruct (ready_nodes (run c')) as [|n l] eqn:Hr; [done|]. exfalso.
  assert (n ∈ ready_nodes (run c')) as Hn by (rewrite Hr; left).
  apply elem_of_ready in Hn as [Hp Hd].
  assert (n ∉ ready_nodes (run c)) as Hno.
  { intros Hn. destruct (Hin n Hn); congruence. }
  apply Hno, elem_of_ready. split; [by rewrite <-Hout|].
  apply deps_satisfied_true. intros deps d Hdeps Hdin. destruct Hle as [_ [Hdep _] _].
  rewrite <-Hdep in Hdeps. rewrite deps_satisfied_true in Hd. specialize (Hd deps d Hdeps Hdin).
  destruct (decide (d ∈ ready_nodes (run c))) as [Hdr|Hdr]; [|by rewrite <-Hout].
  destruct (Hin d Hdr); congruence.
Qed.

Lemma le_dispatch_ready : preserves (coord_le (S:=S) (D:=D) (H:=H)) dispatch_ready_nodes.
Proof. intros c. apply dispatch_ready_spec. Qed.

(** ** Handlers *)

(** What a handler guarantees: statuses advance, running nodes stay covered,
    and if it does not ask to stop, nothing it left behind is ready. *)
Record handles (m : M Co bool) : Prop := {
  h_le c : coord_le c (m c).2;
  h_cover c : timers_cover c → timers_cover (m c).2;
  h_ready c : (m c).1 = false → ready_nodes (run c) = [] → ready_nodes (run (m c).2) = [];
}.

Lemma quiet_cover c c' : quiet c c' → timers_cover c → timers_cover c'.
Proof. intros [_ R M _] Hcov n. rewrite R, M. apply Hcov. Qed.

Lemma cover_on_timers_delete n c :
  statuses (run c) !! n ≠ Some Running → timers_cover c → timers_cover (cancel_node_timeout n c).2.
Proof.
  intros Hn Hcov m Hm. simpl in *. rewrite lookup_delete_ne by congruence. by apply Hcov.
Qed.

Lemma handles_ret : handles (mret false).
Proof. split; [reflexivity|done|done]. Qed.

Lemma after_failure_cases c :
  after_failure c = if fail_fast_enabled c then (true, c) else (false, (dispatch_ready_nodes c).2).
Proof.
  unfold after_failure. rewrite bind_eq. cbn [gets fst snd]. destruct (fail_fast_enabled c); [done|].
  by rewrite bind_eq.
Qed.

Lemma handles_for_until {A} (l : list A) body : (∀ a, handles (body a)) → handles (for_until l body).
Proof.
  intros Hb. induction l as [|a l [IHl IHc IHr]]; [apply handles_ret|].
  assert (∀ c, for_until (a :: l) body c =
    if (body a c).1 then (true, (body a c).2) else for_until l body (body a c).2) as Heq.
  { intros c. simpl. rewrite bind_eq. by destruct ((body a c).1). }
  destruct (Hb a) as [Hl Hc Hr]. split; intros c; rewrite Heq; destruct (body a c).1 eqn:Hstop.
  - apply Hl.
  - etrans; [apply Hl|apply IHl].
  - apply Hc.
  - intros Hcov. by apply IHc, Hc.
  - done.
  - intros Hfalse Hready. apply IHr; [done|]. by apply Hr.
Qed.
End ready.

Section handlers.
Context {S D H : Type} `{SS : StateStore S, DD : Dispatcher D, RH : RunHistory H, HO : HashOrder, LB : Libraries}.
Abbreviation Co := (Coordinator S D H).
Implicit Types (c : Co) (n : string).

(** Like [handles], and if the handler does not ask to stop then nothing is
    ready, whatever was before. *)
Definition settles (m : M Co bool) : Prop := ∀ c,
  coord_le c (m c).2 ∧ (timers_cover c → timers_cover (m c).2) ∧
  ((m c).1 = false → ready_nodes (run (m c).2) = []).

Lemma settles_quiet {A} (m : M Co A) (f : A → M Co bool) :
  preserves quiet m → (∀ a, settles (f a)) → settles (m ≫= f).
Proof.
  intros Hm Hf c. rewrite bind_eq. specialize (Hm c). destruct (m c) as [a c1]. cbn [fst snd] in *.
  destruct (Hf a c1) as (Hle & Hcov & Hr). split_and!; [|by eauto using quiet_cover|done].
  etrans; [by apply quiet_le|exact Hle].
Qed.
Lemma settles_stop : settles (mret true).
Proof. intros c. split_and!; [reflexivity|done|done]. Qed.
Lemma settles_dispatch : settles (_ ← dispatch_ready_nodes; mret false).
Proof.
  intros c. rewrite bind_eq. destruct (dispatch_ready_spec c) as (Hle & Hcov & Hr).
  split_and!; [exact Hle|exact Hcov|]. intros _. exact Hr.
Qed.
Lemma settles_after_failure : settles after_failure.
Proof.
  intros c. rewrite after_failure_cases. destruct (fail_fast_enabled c); [apply settles_stop|].
  destruct (dispatch_ready_spec c) as (Hle & Hcov & Hr). by split_and!.
Qed.
Lemma settles_persist (k : M Co bool) :
  settles k → settles (saved ← persist_state; match saved with Err _ => mret true | Ok _ => k end).
Proof. intros Hk. apply settles_quiet; [apply quiet_persist_state|]. intros []; [done|apply settles_stop]. Qed.

(** Ending a node, successfully or not, makes its timer superfluous. *)
Definition timers_cover_except n c : Prop :=
  ∀ m, m ≠ n → statuses (run c) !! m = Some Running → ∃ t, node_phase_handles c !! m = Some t ∧ timer_for m t.

Lemma mark_end_spec (mark : string → M PipelineRun bool) n s c :
  (mark, s) ∈ [(mark_success, Success); (mark_failed, Failed)] →
  coord_le c (on_run (mark n) c).2 ∧ node_phase_handles (on_run (mark n) c).2 = node_phase_handles c ∧
  statuses (run (on_run (mark n) c).2) !! n ≠ Some Running ∧
  (∀ m, m ≠ n → statuses (run (on_run (mark n) c).2) !! m = statuses (run c) !! m) ∧
  ((on_run (mark n) c).1 = false → quiet c (on_run (mark n) c).2) ∧
  ((on_run (mark n) c).1 = true → ∃ t, t = Running ∨ t = Pending).
Proof.
  intros Hin. assert (coord_le c (on_run (mark n) c).2) as Hle.
  { apply le_on_run. intros r. apply elem_of_cons in Hin as [Hin|Hin%list_elem_of_singleton]; injection Hin as -> ->;
      [apply mark_success_le|apply mark_failed_le]. }
  split; [exact Hle|]. clear Hle.
  assert (mark n (run c) = (match statuses (run c) !! n with Some Running | Some Pending => true | _ => false end,
    match statuses (run c) !! n with Some Running | Some Pending => set_status n s (run c) | _ => run c end)) as Hm.
  { apply elem_of_cons in Hin as [Hin|Hin%list_elem_of_singleton]; injection Hin as -> ->;
      unfold mark_success, mark_failed; by destruct (statuses (run c) !! n) as [[]|]. }
  assert (s = Success ∨ s = Failed) as Hs by set_solver.
  unfold on_run. rewrite Hm. cbn [fst snd run node_phase_handles]. split; [done|].
  destruct (statuses (run c) !! n) as [[]|] eqn:Hst; cbn [set_status statuses]; rewrite ?Hst;
    rewrite ?lookup_insert_eq.
  all: split_and!; try done; try (by destruct Hs as [-> | ->]); try (intros m Hne; by rewrite ?lookup_insert_ne);
    try (intros _; split; [done..|]; exists []; by rewrite app_nil_r); eauto.
Qed.

Lemma mark_end_cover (mark : string → M PipelineRun bool) n s c :
  (mark, s) ∈ [(mark_success, Success); (mark_failed, Failed)] →
  timers_cover_except n c → timers_cover (on_run (mark n) c).2.
Proof.
  intros Hin Hcov m Hm. destruct (mark_end_spec mark n s c Hin) as (_ & Ht & Hn & Hother & _).
  destruct (decide (m = n)) as [->|Hne]; [done|]. rewrite Ht. apply (Hcov m Hne). by rewrite <-Hother.
Qed.

Lemma cover_except n c : timers_cover c → timers_cover_except n c.
Proof. intros Hcov m _. apply Hcov. Qed.

Lemma settles_completed_rest (success : bool) n :
  settles (saved ← persist_state;
    match saved with
    | Err _ => mret true
    | Ok _ => _ ← record_node_completed n None;
              if success then _ ← dispatch_ready_nodes; mret false else after_failure
    end).
Proof.
  apply settles_persist, settles_quiet; [apply quiet_record_completed|]. intros _.
  destruct success; [apply settles_dispatch|apply settles_after_failure].
Qed.

Lemma completed_spec n success c :
  let r := handle_node_completed n success c in
  coord_le c r.2 ∧ (timers_cover_except n c → timers_cover r.2) ∧ (r.1 = false → ready_nodes (run r.2) = []).
Proof.
  assert (∃ mark s, (mark, s) ∈ [(mark_success, Success); (mark_failed, Failed)] ∧
    handle_node_completed n success c =
    (_ ← on_run (mark n); saved ← persist_state;
     match saved with
     | Err _ => mret true
     | Ok _ => _ ← record_node_completed n None;
               if success then _ ← dispatch_ready_nodes; mret false else after_failure
     end) c) as (mark & s & Hin & Heq).
  { destruct success; [exists mark_success, Success|exists mark_failed, Failed]; (split; [|done]); set_solver. }
  rewrite Heq, bind_eq. destruct (mark_end_spec mark n s c Hin) as (Hle & _).
  pose proof (mark_end_cover mark n s c Hin) as Hc. destruct (on_run (mark n) c) as [b c1]. cbn [fst snd] in *.
  destruct (settles_completed_rest success n c1) as (Hle2 & Hcov2 & Hr). split_and!; [by etrans|tauto|exact Hr].
Qed.

Lemma handles_completed n success : handles (S:=S) (D:=D) (H:=H) (handle_node_completed n success).
Proof.
  split; intros c; destruct (completed_spec n success c) as (Hle & Hcov & Hr); [done| |auto].
  intros ?. by apply Hcov, cover_except.
Qed.

(** A completion event cancels the timer first. *)
Lemma handles_completion_event n success :
  handles (S:=S) (D:=D) (H:=H) (_ ← cancel_node_timeout n; handle_node_completed n success).
Proof.
  assert (∀ c, timers_cover c → timers_cover_except n (cancel_node_timeout n c).2) as Hdel.
  { intros c Hcov m Hne Hm. simpl. rewrite lookup_delete_ne by done. by apply Hcov. }
  split; intros c; rewrite bind_eq; pose proof (le_on_timers (delete n) c : coord_le c (cancel_node_timeout n c).2) as Hle1;
    specialize (Hdel c); destruct (cancel_node_timeout n c) as [u c1]; cbn [fst snd] in *;
    destruct (completed_spec n success c1) as (Hle & Hcov & Hr); [by etrans|auto|auto].
Qed.

Lemma handles_fold_completions outcomes :
  handles (S:=S) (D:=D) (H:=H) (fold_completions_from_outcomes outcomes).
Proof.
  apply handles_for_until. intros [n []]; [apply handles_completion_event|apply handles_ret..].
Qed.

Lemma handles_quiet_bind {A} (m : M Co A) (f : A → M Co bool) :
  preserves quiet m → (∀ a, handles (f a)) → handles (m ≫= f).
Proof.
  intros Hm Hf. split; intros c; rewrite bind_eq; specialize (Hm c); destruct (m c) as [a c1]; cbn [fst snd] in *;
    destruct (Hf a) as [Hl Hc Hr].
  - etrans; [by apply quiet_le|apply Hl].
  - intros Hcov. apply Hc. by eapply quiet_cover.
  - intros Hf' Hready. apply Hr; [done|]. by rewrite (q_run _ _ Hm).
Qed.

Lemma handles_reconcile : handles (S:=S) (D:=D) (H:=H) reconcile_running_against_s3.
Proof. apply handles_quiet_bind; [apply quiet_read_outcomes|]. intros o. apply handles_fold_completions. Qed.

(** A failure handler: nothing unless the node could be failed. *)
Lemma handles_failure n (k : M Co bool) :
  settles k → handles (marked ← on_run (mark_failed n); if negb marked then mret false else k).
Proof.
  intros Hk. assert ((mark_failed, Failed) ∈ [(mark_success, Success); (mark_failed, Failed)]) as Hin by set_solver.
  split; intros c; rewrite bind_eq; destruct (mark_end_spec mark_failed n Failed c Hin) as (Hle & _ & _ & _ & Hq & _);
    pose proof (mark_end_cover mark_failed n Failed c Hin) as Hc; destruct (on_run (mark_failed n) c) as [[] c1];
    cbn [fst snd negb] in *; destruct (Hk c1) as (Hle2 & Hcov2 & Hr).
  - by etrans.
  - done.
  - intros Hcov. by apply Hcov2, Hc, cover_except.
  - intros Hcov. apply (quiet_cover c c1); [by apply Hq|done].
  - intros Hf _. by apply Hr.
  - intros _ Hready. simpl. by rewrite (q_run _ _ (Hq eq_refl)).
Qed.

Lemma settles_failure_rest n reason :
  settles (saved ← persist_state;
    match saved with
    | Err _ => mret true
    | Ok _ => _ ← notify_watcher_of_deletion n; _ ← cancel_on_cluster n;
              _ ← record_node_completed n reason; after_failure
    end).
Proof.
  apply settles_persist. repeat (apply settles_quiet; [auto with coord|intros _]). apply settles_after_failure.
Qed.

Lemma handles_timed_out n : handles (S:=S) (D:=D) (H:=H) (handle_node_timed_out n).
Proof. apply handles_failure, settles_failure_rest. Qed.
End handlers.

Section endings.
Context {S D H : Type} `{SS : StateStore S, DD : Dispatcher D, RH : RunHistory H, HO : HashOrder, LB : Libraries}.
Abbreviation Co := (Coordinator S D H).
Implicit Types (c : Co) (n : string).

Lemma handles_infra_failed n reason : handles (S:=S) (D:=D) (H:=H) (handle_node_infra_failed n reason).
Proof.
  assert ((mark_failed, Failed) ∈ [(mark_success, Success); (mark_failed, Failed)]) as Hin by set_solver.
  assert (∀ c, let r := handle_node_infra_failed n reason c in
    coord_le c r.2 ∧ (timers_cover c → timers_cover r.2) ∧
    (r.1 = false → ready_nodes (run c) = [] → ready_nodes (run r.2) = [])) as Hall.
  { intros c. unfold handle_node_infra_failed. rewrite bind_eq. cbn [gets fst snd].
    case_bool_decide; [split_and!; [reflexivity|done|done]|]. rewrite bind_eq.
    destruct (mark_end_spec mark_failed n Failed c Hin) as (Hle & _ & Hn & _ & Hq & _).
    pose proof (mark_end_cover mark_failed n Failed c Hin) as Hc. destruct (on_run (mark_failed n) c) as [[] c1].
    - cbn [fst snd negb] in *. rewrite bind_eq.
      pose proof (le_on_timers (delete n) c1 : coord_le c1 (cancel_node_timeout n c1).2) as Hle1.
      pose proof (cover_on_timers_delete n c1 Hn) as Hcov1. destruct (cancel_node_timeout n c1) as [u c2]. cbn [fst snd] in *.
      destruct (settles_failure_rest n (Some reason) c2) as (Hle2 & Hcov2 & Hr).
      split_and!; [|eauto using cover_except|auto]. etrans; [exact Hle|]. by etrans.
    - cbn [fst snd negb] in *. specialize (Hq eq_refl). split_and!; [done|by apply quiet_cover|].
      intros _ Hready. simpl. by rewrite (q_run _ _ Hq). }
  split; intros c; apply Hall.
Qed.

(** ** The effects of the body of a run

    Recording the run, reporting it, deleting its objects, lease and state
    happen only at its end. *)

Definition is_ending (e : Effect) : bool :=
  match e with
  | RecordPipelineRun _ | ReportCompleted _ | CleanupObjects | ReleaseLease | DeleteRun | WatcherCmd Shutdown => true
  | _ => false
  end.

Record body_le c c' : Prop := {
  b_const : const c' = const c;
  b_watcher : watcher_open c' = watcher_open c;
  b_trace : ∃ new, trace c' = trace c ++ new ∧ Forall (λ e, is_ending e = false) new;
}.

#[export] Instance body_le_preorder : PreOrder body_le.
Proof.
  split.
  - intros c. split; [done..|]. exists []. rewrite app_nil_r. by split; [|constructor].
  - intros c1 c2 c3 [K1 W1 (l1 & T1 & L1)] [K2 W2 (l2 & T2 & L2)]. split; [congruence..|].
    exists (l1 ++ l2). split; [by rewrite T2, T1, (assoc_L (++))|by apply Forall_app].
Qed.

Lemma body_same c c' : const c' = const c → watcher_open c' = watcher_open c → trace c' = trace c → body_le c c'.
Proof. intros K W T. split; [done..|]. exists []. rewrite app_nil_r. by split; [|constructor]. Qed.
Lemma body_call_store {A} (f : M S A) : preserves body_le (call_store f).
Proof. intros c. unfold call_store. destruct (f _). by apply body_same. Qed.
Lemma body_call_dispatcher {A} (f : M D A) : preserves body_le (call_dispatcher f).
Proof. intros c. unfold call_dispatcher. destruct (f _). by apply body_same. Qed.
Lemma body_call_history {A} (f : M H A) : preserves body_le (call_history f).
Proof. intros c. unfold call_history. destruct (f _). by apply body_same. Qed.
Lemma body_on_run {A} (f : M PipelineRun A) : preserves body_le (on_run f).
Proof. intros c. unfold on_run. destruct (f _). by apply body_same. Qed.
Lemma body_on_timers f : preserves body_le (on_timers f).
Proof. intros c. by apply body_same. Qed.
Lemma body_set_version v : preserves body_le (set_version v).
Proof. intros c. by apply body_same. Qed.
Lemma body_pass_time t : preserves body_le (pass_time t).
Proof. intros c. by apply body_same. Qed.
Lemma body_effect e : is_ending e = false → preserves body_le (effect e).
Proof. intros He c. split; [done..|]. exists [e]. split; [done|by repeat constructor]. Qed.
End endings.

#[export] Hint Resolve body_le_preorder body_call_store body_call_dispatcher body_call_history body_on_run
  body_on_timers body_set_version body_pass_time : coord.
#[export] Hint Extern 1 (preserves body_le (effect _)) => apply body_effect; reflexivity : coord.

Section bodies.
Context {S D H : Type} `{SS : StateStore S, DD : Dispatcher D, RH : RunHistory H, HO : HashOrder, LB : Libraries}.
Abbreviation Co := (Coordinator S D H).
Implicit Types (c : Co) (n : string).

Lemma body_persist : preserves (body_le (S:=S) (D:=D) (H:=H)) persist_state.
Proof. unfold persist_state. preserve. Qed.
Lemma body_persist_after : preserves (body_le (S:=S) (D:=D) (H:=H)) persist_state_after_dispatch_transition.
Proof. pose proof body_persist. unfold persist_state_after_dispatch_transition. preserve. Qed.
Lemma body_notify n : preserves (body_le (S:=S) (D:=D) (H:=H)) (notify_watcher_of_deletion n).
Proof. unfold notify_watcher_of_deletion. preserve. Qed.
Lemma body_completed n reason : preserves (body_le (S:=S) (D:=D) (H:=H)) (record_node_completed n reason).
Proof. unfold record_node_completed, node_definition_of, write_node_run. preserve. Qed.
Lemma body_terminated n : preserves (body_le (S:=S) (D:=D) (H:=H)) (record_and_fail n).
Proof. unfold record_and_fail, record_running_node_terminated, node_definition_of, write_node_run. preserve. Qed.
Lemma body_cancel n : preserves (body_le (S:=S) (D:=D) (H:=H)) (cancel_on_cluster n).
Proof. unfold cancel_on_cluster. preserve. Qed.
#[local] Hint Resolve body_persist body_persist_after body_notify body_completed body_terminated body_cancel : coord.
Lemma body_fail_dispatch n m : preserves (body_le (S:=S) (D:=D) (H:=H)) (fail_dispatch n m).
Proof. unfold fail_dispatch, record_dispatch_failed, node_definition_of, write_node_run. preserve. Qed.
#[local] Hint Resolve body_fail_dispatch : coord.
Lemma body_dispatch_node n : preserves (body_le (S:=S) (D:=D) (H:=H)) (dispatch_node n).
Proof. unfold dispatch_node, record_node_dispatched_of. preserve. Qed.
#[local] Hint Resolve body_dispatch_node : coord.
Lemma body_dispatch_ready : preserves (body_le (S:=S) (D:=D) (H:=H)) dispatch_ready_nodes.
Proof. unfold dispatch_ready_nodes. preserve. Qed.
#[local] Hint Resolve body_dispatch_ready : coord.
Lemma body_after_failure : preserves (body_le (S:=S) (D:=D) (H:=H)) after_failure.
Proof. unfold after_failure. preserve. Qed.
#[local] Hint Resolve body_after_failure : coord.
Lemma body_node_completed n b : preserves (body_le (S:=S) (D:=D) (H:=H)) (handle_node_completed n b).
Proof. unfold handle_node_completed. preserve. Qed.
Lemma body_infra_failed n r : preserves (body_le (S:=S) (D:=D) (H:=H)) (handle_node_infra_failed n r).
Proof. unfold handle_node_infra_failed, cancel_node_timeout. preserve. Qed.
Lemma body_timed_out n : preserves (body_le (S:=S) (D:=D) (H:=H)) (handle_node_timed_out n).
Proof. unfold handle_node_timed_out. preserve. Qed.
#[local] Hint Resolve body_node_completed body_infra_failed body_timed_out : coord.
Lemma body_cancel_timeout n : preserves (body_le (S:=S) (D:=D) (H:=H)) (cancel_node_timeout n).
Proof. unfold cancel_node_timeout. preserve. Qed.
#[local] Hint Resolve body_cancel_timeout : coord.
Lemma body_fold o : preserves (body_le (S:=S) (D:=D) (H:=H)) (fold_completions_from_outcomes o).
Proof. unfold fold_completions_from_outcomes, fold_completion. preserve. Qed.
Lemma body_read : preserves (body_le (S:=S) (D:=D) (H:=H)) read_outcomes_for_non_terminal.
Proof. unfold read_outcomes_for_non_terminal. preserve. Qed.
#[local] Hint Resolve body_fold body_read : coord.
Lemma body_reconcile : preserves (body_le (S:=S) (D:=D) (H:=H)) reconcile_running_against_s3.
Proof. unfold reconcile_running_against_s3. preserve. Qed.
Lemma body_promote o : preserves (body_le (S:=S) (D:=D) (H:=H)) (promote_started_pending_to_running o).
Proof. unfold promote_started_pending_to_running, promote_node. preserve. Qed.
Lemma body_rehydrate_timers o : preserves (body_le (S:=S) (D:=D) (H:=H)) (rehydrate_phase_timers o).
Proof. unfold rehydrate_phase_timers, rehydrate_timer. preserve. Qed.
Lemma body_pod_running n : preserves (body_le (S:=S) (D:=D) (H:=H)) (handle_pod_running n).
Proof. unfold handle_pod_running. preserve. Qed.
End bodies.

#[export] Hint Resolve body_dispatch_ready body_node_completed body_infra_failed body_timed_out body_cancel_timeout
  body_fold body_read body_reconcile body_promote body_rehydrate_timers body_pod_running body_terminated : coord.

(** ** The end of a run *)

Section finish.
Context {S D H : Type} `{SS : StateStore S, DD : Dispatcher D, RH : RunHistory H, HO : HashOrder, LB : Libraries}.
Abbreviation Co := (Coordinator S D H).
Implicit Types (c : Co) (n : string).

(** What finalising makes of a status. *)
Definition fail_running (s : NodeStatus) : NodeStatus := match s with Running => Failed | _ => s end.

Lemma elem_of_running (r : PipelineRun) n : n ∈ running_nodes r ↔ statuses r !! n = Some Running.
Proof.
  unfold running_nodes, nodes_with. rewrite elem_of_filter_fst. setoid_rewrite elem_of_hash_iter.
  setoid_rewrite bool_decide_eq_true. naive_solver.
Qed.

Lemma fail_each_spec nodes c :
  (∀ n, n ∈ nodes → statuses (run c) !! n = Some Running ∨ statuses (run c) !! n = Some Failed) →
  let c' := (for_each nodes record_and_fail c).2 in
  body_le c c' ∧
  ∀ n, statuses (run c') !! n =
    if decide (n ∈ nodes) then fail_running <$> statuses (run c) !! n else statuses (run c) !! n.
Proof.
  intros Hrun. cbv zeta. split.
  - apply (preserves_for_each body_le). intros n. apply body_terminated.
  - revert c Hrun; induction nodes as [|n nodes IH]; intros c Hrun m; simpl for_each; [done|].
    rewrite bind_eq. set (c1 := (record_and_fail n c).2).
    assert (run c1 = (mark_failed n (run c)).2) as Hc1.
    { unfold c1, record_and_fail. rewrite !bind_eq. cbn [mret state_ret snd].
      pose proof (quiet_record_terminated n c) as [_ R _ _]. unfold on_run. rewrite R.
      by destruct (mark_failed n (run c)). }
    assert (∀ k, statuses (run c1) !! k = if decide (k = n) then fail_running <$> statuses (run c) !! k
      else statuses (run c) !! k) as Hst.
    { intros k. rewrite Hc1. unfold mark_failed. destruct (Hrun n (list_elem_of_here _ _)) as [Hn|Hn]; rewrite Hn; simpl.
      - destruct (decide (k = n)) as [->|]; [by rewrite lookup_insert_eq, Hn|by rewrite lookup_insert_ne].
      - destruct (decide (k = n)) as [->|]; [by rewrite Hn|done]. }
    rewrite IH, Hst.
    + destruct (decide (m = n)) as [->|]; [rewrite (decide_True (P := n ∈ n :: nodes)) by set_solver|].
      * destruct (decide (n ∈ nodes)); [|done]. by destruct (statuses (run c) !! n) as [[]|].
      * destruct (decide (m ∈ nodes)); [rewrite decide_True by set_solver|rewrite decide_False by set_solver]; done.
    + intros k Hk. rewrite Hst. destruct (Hrun k (list_elem_of_further _ _ _ Hk)) as [Hs|Hs]; rewrite Hs;
        destruct (decide (k = n)); auto.
Qed.

(** What the last steps of a run append to the trace. *)
Definition recorded (status : RunStatus) c : list Effect :=
  RecordPipelineRun status :: (if c_has_reporter (const c) then [ReportCompleted status] else []).
Definition shut c : list Effect := if watcher_open c then [WatcherCmd Shutdown] else [].
Definition ending (status : RunStatus) c : list Effect :=
  recorded status c ++ [CleanupObjects; ReleaseLease; DeleteRun] ++ shut c.

Definition running_failed c c' : Prop := statuses (run c') = fail_running <$> statuses (run c).

Lemma le_quiet {A} (m : M Co A) : preserves quiet m → preserves coord_le m.
Proof. apply preserves_mono, quiet_le. Qed.

Lemma le_record_and_fail n : preserves (coord_le (S:=S) (D:=D) (H:=H)) (record_and_fail n).
Proof.
  unfold record_and_fail. apply (preserves_bind coord_le); [apply le_quiet, quiet_record_terminated|intros _].
  apply (preserves_bind coord_le); [apply le_on_run, mark_failed_le|]. intros _. apply (preserves_ret coord_le).
Qed.

Lemma le_finalize status : preserves (coord_le (S:=S) (D:=D) (H:=H)) (finalize_run status).
Proof.
  unfold finalize_run. apply (preserves_bind coord_le); [|intros _; apply le_quiet; preserve].
  unfold record_history. apply (preserves_bind coord_le); [apply (preserves_gets coord_le)|intros nodes].
  apply (preserves_bind coord_le); [|intros _; apply le_quiet; preserve].
  apply (preserves_for_each coord_le), le_record_and_fail.
Qed.

(** Operations that leave the run alone and append known effects. *)
Record frame (l : list Effect) c c' : Prop := {
  fr_run : run c' = run c;
  fr_const : const c' = const c;
  fr_watcher : watcher_open c' = watcher_open c;
  fr_trace : trace c' = trace c ++ l;
}.
Definition frames {A} (l : list Effect) (m : M Co A) : Prop := ∀ c, frame l c (m c).2.

Lemma frames_bind {A B} l1 l2 (m : M Co A) (f : A → M Co B) :
  frames l1 m → (∀ a, frames l2 (f a)) → frames (l1 ++ l2) (m ≫= f).
Proof.
  intros Hm Hf c. rewrite bind_eq. destruct (Hm c) as [R K W T], (Hf (m c).1 (m c).2) as [R' K' W' T'].
  split; [congruence..|]. by rewrite T', T, (assoc_L (++)).
Qed.
Lemma frames_gets {A} (f : Co → A) : frames [] (gets f).
Proof. intros c. split; [done..|]. by rewrite app_nil_r. Qed.
Lemma frames_call_store {A} (f : M S A) : frames [] (call_store f).
Proof. intros c. unfold call_store. destruct (f _). split; [done..|]. by rewrite app_nil_r. Qed.
Lemma frames_call_dispatcher {A} (f : M D A) : frames [] (call_dispatcher f).
Proof. intros c. unfold call_dispatcher. destruct (f _). split; [done..|]. by rewrite app_nil_r. Qed.
Lemma frames_call_history {A} (f : M H A) : frames [] (call_history f).
Proof. intros c. unfold call_history. destruct (f _). split; [done..|]. by rewrite app_nil_r. Qed.
Lemma frames_effect e : frames [e] (effect e).
Proof. intros c. by split. Qed.

Lemma finalize_spec status c :
  let c' := (finalize_run status c).2 in
  coord_le c c' ∧ running_failed c c' ∧ const c' = const c ∧ watcher_open c' = watcher_open c ∧
  ∃ body, trace c' = trace c ++ body ++ recorded status c ∧ Forall (λ e, is_ending e = false) body.
Proof.
  cbv zeta. split; [apply le_finalize|]. unfold finalize_run, record_history. rewrite !bind_eq. cbn [gets fst snd].
  destruct (fail_each_spec (running_nodes (run c)) c) as ([K W (body & T & Hb)] & Hst).
  { intros n Hn. left. by apply elem_of_running. }
  set (c1 := (for_each (running_nodes (run c)) record_and_fail c).2) in *.
  assert (running_failed c c1) as Hf.
  { apply map_eq. intros n. rewrite Hst, lookup_fmap. destruct (decide (n ∈ _)) as [|Hn]; [done|].
    destruct (statuses (run c) !! n) as [[]|] eqn:Hs; try done. destruct Hn. by apply elem_of_running. }
  clearbody c1. unfold running_failed in *.
  match goal with |- context [call_history ?h c1] =>
    destruct (frames_call_history h c1) as [R2 K2 W2 T2]; generalize dependent (call_history h c1).2 end.
  intros c2 R2 K2 W2 T2. rewrite app_nil_r in T2. unfold from_const, gets. cbn [fst snd effect const]. unfold recorded. rewrite K2, K.
  destruct (c_has_reporter (const c)); cbn [when effect mret state_ret snd trace const watcher_open run].
  all: rewrite R2; split_and!; [exact Hf|congruence|congruence|].
  all: exists body; split; [|done]; by rewrite T2, T, <-!(assoc_L (++)).
Qed.

Lemma cleanup_spec : frames [CleanupObjects; ReleaseLease; DeleteRun] cleanup.
Proof.
  unfold cleanup. apply (frames_bind [] _); [apply frames_gets|intros run_id].
  apply (frames_bind [] _); [apply frames_call_dispatcher|intros _].
  apply (frames_bind [CleanupObjects] _); [apply frames_effect|intros _].
  apply (frames_bind [] _); [apply frames_call_store|intros _].
  apply (frames_bind [ReleaseLease] _); [apply frames_effect|intros _].
  apply (frames_bind [] _); [apply frames_call_store|intros _]. apply frames_effect.
Qed.

Lemma shutdown_spec c :
  let c' := (shutdown_pod_watcher c).2 in
  run c' = run c ∧ const c' = const c ∧ trace c' = trace c ++ shut c.
Proof.
  unfold shutdown_pod_watcher, shut. rewrite !bind_eq. cbn [gets fst snd].
  destruct (watcher_open c); cbn; by rewrite ?app_nil_r.
Qed.

Lemma build_summary_spec status c :
  let '(s, c') := build_summary status c in
  run c' = run c ∧ const c' = const c ∧ trace c' = trace c ++ shut c ∧
  s = mkSummary (c_run_id (const c)) status (statuses (run c)).
Proof.
  unfold build_summary, summary, gets. unfold mbind, state_bind.
  pose proof (shutdown_spec c) as (R & K & T). destruct (shutdown_pod_watcher c) as [u c1]. cbn [snd] in *.
  rewrite R, K. done.
Qed.

(** After finalising nothing is running, so terminating cancels nothing. *)
Lemma terminate_idle status c :
  running_nodes (run c) = [] →
  let '(s, c') := terminate_running_nodes status c in
  run c' = run c ∧ const c' = const c ∧ trace c' = trace c ++ shut c ∧
  s = mkSummary (c_run_id (const c)) status (statuses (run c)).
Proof.
  intros Hidle. unfold terminate_running_nodes, summary. unfold mbind, state_bind, on_timers, gets. cbn [run].
  rewrite Hidle. cbn [for_each mret state_ret].
  match goal with |- context [shutdown_pod_watcher ?x] => pose proof (shutdown_spec x) as (R & K & T); destruct (shutdown_pod_watcher x) as [u c1] end.
  cbn [snd] in *. rewrite R, K, T. done.
Qed.

Lemma running_failed_idle c c' : running_failed c c' → running_nodes (run c') = [].
Proof.
  intros Hf. destruct (running_nodes (run c')) as [|n l] eqn:Hr; [done|]. exfalso.
  assert (n ∈ running_nodes (run c')) as Hn by (rewrite Hr; left).
  apply elem_of_running in Hn. rewrite Hf, lookup_fmap in Hn. by destruct (statuses (run c) !! n) as [[]|].
Qed.

(** How a coordinator that finishes a run leaves it. *)
Record finishes (status : RunStatus) c (s : RunSummary) c' : Prop := {
  f_le : coord_le c c';
  f_failed : running_failed c c';
  f_summary : s = mkSummary (c_run_id (const c)) status (statuses (run c'));
  f_trace : ∃ body, trace c' = trace c ++ body ++ ending status c ∧ Forall (λ e, is_ending e = false) body;
}.

Lemma ending_undispatched status c : dispatched (ending status c) = [].
Proof. unfold ending, recorded, shut. by destruct (c_has_reporter _), (watcher_open c). Qed.

Lemma finishes_after status c c1 c2 s c3 :
  coord_le c c1 → running_failed c c1 → const c1 = const c → watcher_open c1 = watcher_open c →
  (∃ body, trace c1 = trace c ++ body ++ recorded status c ∧ Forall (λ e, is_ending e = false) body) →
  run c2 = run c1 → const c2 = const c1 → watcher_open c2 = watcher_open c1 →
  trace c2 = trace c1 ++ [CleanupObjects; ReleaseLease; DeleteRun] →
  run c3 = run c2 → const c3 = const c2 → trace c3 = trace c2 ++ shut c2 →
  s = mkSummary (c_run_id (const c2)) status (statuses (run c2)) → finishes status c s c3.
Proof.
  intros Hle Hf K1 W1 (body & T1 & Hb) R2 K2 W2 T2 R3 K3 T3 ->.
  assert (shut c2 = shut c) as Hshut by (unfold shut; by rewrite W2, W1).
  split.
  - etrans; [exact Hle|]. split; [congruence|rewrite R3, R2; reflexivity|].
    exists ([CleanupObjects; ReleaseLease; DeleteRun] ++ shut c). rewrite T3, T2, Hshut.
    assert (dispatched ([CleanupObjects; ReleaseLease; DeleteRun] ++ shut c) = []) as Hd.
    { unfold shut. by destruct (watcher_open c). }
    rewrite Hd. split_and!; [by rewrite (assoc_L (++))|by apply dispatched_legal|constructor|].
    intros n Hn. by apply elem_of_nil in Hn.
  - unfold running_failed. by rewrite R3, R2.
  - rewrite K2, K1, R3. done.
  - exists body. split; [|done]. unfold ending. rewrite T3, T2, T1, Hshut. by rewrite <-!(assoc_L (++)).
Qed.

Lemma abort_run_spec status c : let '(s, c') := abort_run status c in finishes status c s c'.
Proof.
  unfold abort_run, mbind, state_bind. pose proof (finalize_spec status c) as (Hle & Hf & K1 & W1 & Hb).
  destruct (finalize_run status c) as [u1 c1]. cbn [snd] in *.
  pose proof (cleanup_spec c1) as [R2 K2 W2 T2]. destruct (cleanup c1) as [u2 c2]. cbn [snd] in *.
  pose proof (terminate_idle status c2) as Ht. destruct (terminate_running_nodes status c2) as [s c3].
  destruct Ht as (R3 & K3 & T3 & Hs); [rewrite R2; by eapply running_failed_idle|].
  by eapply finishes_after.
Qed.

Lemma complete_run_spec c : let '(s, c') := complete_run c in finishes (outcome_status c) c s c'.
Proof.
  unfold complete_run, mbind, state_bind, gets. pose proof (finalize_spec (outcome_status c) c) as (Hle & Hf & K1 & W1 & Hb).
  destruct (finalize_run (outcome_status c) c) as [u1 c1]. cbn [snd] in *.
  pose proof (cleanup_spec c1) as [R2 K2 W2 T2]. destruct (cleanup c1) as [u2 c2]. cbn [snd] in *.
  pose proof (build_summary_spec (outcome_status c) c2) as Ht. destruct (build_summary (outcome_status c) c2) as [s c3].
  destruct Ht as (R3 & K3 & T3 & Hs). by eapply finishes_after.
Qed.
End finish.

(** ** The loop *)

Section loop.
Context {S D H : Type} `{SS : StateStore S, DD : Dispatcher D, RH : RunHistory H, HO : HashOrder, LB : Libraries}.
Abbreviation Co := (Coordinator S D H).
Implicit Types (c : Co) (n : string).

(** The state at the head of every iteration. *)
Record loop_inv c : Prop := {
  li_cover : timers_cover c;
  li_ready : ready_nodes (run c) = [];
  li_live : is_complete (run c) = false;
}.

Definition body_of c c' : Prop := coord_le c c' ∧ body_le c c'.

(** The lease was lost, or the event stream could not be opened. *)
Definition surrenders c (s : RunSummary) c' : Prop :=
  run c' = run c ∧ const c' = const c ∧ trace c' = trace c ++ shut c ∧
  s = mkSummary (c_run_id (const c)) RsFailure (statuses (run c)).

Definition aborts c (s : RunSummary) c' : Prop :=
  ∃ status c1, body_of c c1 ∧ status ≠ RsSuccess ∧ finishes status c1 s c'.

Lemma body_of_trans c1 c2 c3 : body_of c1 c2 → body_of c2 c3 → body_of c1 c3.
Proof. intros [? ?] [? ?]. split; by etrans. Qed.
Lemma body_of_refl c : body_of c c.
Proof. by split. Qed.

Lemma abort_aborts status c c1 :
  body_of c c1 → status ≠ RsSuccess → let '(s, c') := abort_run status c1 in aborts c s c'.
Proof.
  intros Hb Hst. pose proof (abort_run_spec status c1) as Hf. destruct (abort_run status c1) as [s c'].
  exists status, c1. done.
Qed.

(** The store, asked to renew the lease that the coordinator took, does not
    say that it did. *)
Definition lease_lost c : Prop :=
  (renew_lease (c_run_id (const c)) (c_server_id (const c)) (c_lease_version (const c)) 30 (state_store c)).1 ≠ Ok true.
Definition gives_up (event : LoopEvent) c : Prop := event = Heartbeat ∧ lease_lost c.

(** What one iteration does, by what it tells the loop. *)
Definition step_spec (event : LoopEvent) c (r : Flow * Co) : Prop :=
  match r with
  | (Continue, c') => ¬ gives_up event c ∧ body_of c c' ∧ (loop_inv c → loop_inv c')
  | (Break, c') => ¬ gives_up event c ∧ body_of c c' ∧ is_complete (run c') = true
  | (Return s, c') =>
      gives_up event c ∧ (∃ c1, body_of c c1 ∧ surrenders c1 s c') ∨ ¬ gives_up event c ∧ aborts c s c'
  end.

Lemma stop_or_complete_spec ev (m : M Co bool) c :
  ev ≠ Heartbeat → handles m → preserves body_le m → step_spec ev c (stop_or_complete m c).
Proof.
  intros Hev [Hle Hcov Hr] Hb. assert (¬ gives_up ev c) as Hno by (by intros [? _]). unfold stop_or_complete, step_spec. rewrite bind_eq.
  specialize (Hle c). specialize (Hcov c). specialize (Hr c). specialize (Hb c).
  destruct (m c) as [[] c1]; cbn [fst snd] in *.
  - unfold mbind, state_bind. pose proof (abort_aborts RsFailure c c1 (conj Hle Hb)) as Ha.
    destruct (abort_run RsFailure c1) as [s c2]. right. split; [done|]. by apply Ha.
  - rewrite bind_eq. cbn [gets fst snd]. destruct (is_complete (run c1)) eqn:Hc; cbn [mret state_ret]; (split; [done|]; split; [done|]).
    + done.
    + intros [Hcov0 Hr0 _]. split; auto.
Qed.

Lemma loop_step_spec ev c : step_spec ev c (loop_step ev c).
Proof.
  assert (∀ status, ev ≠ Heartbeat → status ≠ RsSuccess → step_spec ev c ((s ← abort_run status; mret (Return s)) c)) as Habort.
  { intros status Hev Hst. unfold mbind, state_bind. pose proof (abort_aborts status c c (body_of_refl c) Hst) as Ha.
    destruct (abort_run status c) as [s c']. right. split; [by intros [? _]|exact Ha]. }
  destruct ev as [| | |[n|n|n reason|n]|[[n success|]|]]; cbn [loop_step].
  - by apply Habort.
  - rewrite bind_eq. cbn [gets fst snd]. rewrite bind_eq.
    match goal with |- context [call_store ?f c] =>
      pose proof (quiet_call_store f c) as Hq; pose proof (body_call_store f c) as Hb;
      (assert ((call_store f c).1 = (f (state_store c)).1) as Hres by (unfold call_store; by destruct (f (state_store c))));
      destruct (call_store f c) as [r c1] end.
    cbn [fst snd] in *. destruct (match r with Ok renewed => renewed | Err _ => false end) eqn:Hok.
    + split; [intros [_ Hlost]; apply Hlost; rewrite <-Hres; destruct r; by subst|].
      split; [split; [by apply quiet_le|done]|]. intros [Hcov Hr Hl].
      split; [by eapply quiet_cover|by rewrite (q_run _ _ Hq)..].
    + unfold mbind, state_bind. pose proof (build_summary_spec RsFailure c1) as Hs.
      destruct (build_summary RsFailure c1) as [s c2]. left.
      split; [split; [done|]; unfold lease_lost; rewrite <-Hres; intros ->; discriminate Hok|]. exists c1.
      split; [split; [by apply quiet_le|done]|exact Hs].
  - apply stop_or_complete_spec; [done|apply handles_reconcile|auto with coord].
  - apply stop_or_complete_spec; [done|apply handles_timed_out|auto with coord].
  - rewrite bind_eq. split; [by intros [? _]|]. split.
    + split; [|apply body_pod_running]. unfold handle_pod_running. rewrite bind_eq. cbn [gets fst snd].
      case_bool_decide; [reflexivity|]. rewrite !bind_eq. apply le_on_timers.
    + intros [Hcov Hr Hl]. unfold handle_pod_running. rewrite bind_eq. cbn [gets fst snd].
      case_bool_decide; [done|]. rewrite !bind_eq. split; [|done..].
      intros m Hm. simpl in *. destruct (decide (m = n)) as [->|].
      * rewrite lookup_insert_eq. eexists. split; [done|by left].
      * rewrite lookup_insert_ne, lookup_delete_ne by done. by apply Hcov.
  - apply stop_or_complete_spec; [done|apply handles_infra_failed|auto with coord].
  - apply stop_or_complete_spec; [done|apply handles_infra_failed|]. unfold handle_pod_start_timed_out. auto with coord.
  - apply stop_or_complete_spec; [done|apply handles_completion_event|].
    apply (preserves_bind body_le); auto with coord.
  - by apply Habort.
  - by apply Habort.
Qed.

(** ** Whole runs *)

(** A successful outcome needs every node. *)
Definition all_succeeded c : Prop := ∀ n s, statuses (run c) !! n = Some s → s = Success.

(** [P]: the coordinator gives the run up. *)
Definition ends (P : Prop) c (r : option RunSummary * Co) : Prop :=
  match r with
  | (None, c') => body_of c c'
  | (Some s, c') =>
      (P ∧ ∃ c1, body_of c c1 ∧ surrenders c1 s c') ∨
      (¬ P ∧ ∃ status c1, body_of c c1 ∧ (status = RsSuccess → all_succeeded c1) ∧ finishes status c1 s c')
  end.

Lemma ends_trans P c c1 r : body_of c c1 → ends P c1 r → ends P c r.
Proof.
  intros Hb. destruct r as [[s|] c']; simpl; [|by apply body_of_trans].
  intros [[HP (c2 & Hb2 & Hs)]|[HP (st & c2 & Hb2 & Hok & Hf)]].
  - left. split; [done|]. exists c2. split; [by eapply body_of_trans|done].
  - right. split; [done|]. exists st, c2. split; [by eapply body_of_trans|done].
Qed.

Lemma ends_iff (P Q : Prop) c r : (P ↔ Q) → ends P c r → ends Q c r.
Proof. intros HPQ. destruct r as [[s|] c']; simpl; [|done]. by rewrite HPQ. Qed.

Lemma outcome_all_succeeded c : outcome_status c = RsSuccess → all_succeeded c.
Proof.
  unfold outcome_status. case_bool_decide as Hall; [|done]. intros _ n s Hn.
  rewrite Forall_forall in Hall. apply Hall, elem_of_hash_values. by exists n.
Qed.

Lemma complete_ends (P : Prop) c : ¬ P → ends P c ((s ← complete_run; mret (Some s)) c).
Proof.
  intros HP. unfold mbind, state_bind. pose proof (complete_run_spec c) as Hf. destruct (complete_run c) as [s c'].
  right. split; [done|]. exists (outcome_status c), c. split; [apply body_of_refl|]. split; [apply outcome_all_succeeded|done].
Qed.
Lemma abort_ends (P : Prop) c : ¬ P → ends P c ((s ← abort_run RsFailure; mret (Some s)) c).
Proof.
  intros HP. unfold mbind, state_bind. pose proof (abort_run_spec RsFailure c) as Hf. destruct (abort_run RsFailure c) as [s c'].
  right. split; [done|]. exists RsFailure, c. split; [apply body_of_refl|]. by split.
Qed.

Lemma pass_time_body t c : body_of c (pass_time t c).2.
Proof.
  split; [|apply body_pass_time]. apply quiet_le. split; [done..|]. exists []. by rewrite app_nil_r.
Qed.
Lemma pass_time_inv t c : loop_inv c → loop_inv (pass_time t c).2.
Proof. intros [? ? ?]. by split. Qed.

(** Some tick of the schedule is a heartbeat that finds the lease lost, when
    the loop has taken the ticks before it and waits. *)
Definition loop_gives_up (ticks : list Tick) c : Prop :=
  ∃ before t after c1, ticks = before ++ t :: after ∧ event_loop before c = (None, c1) ∧
    gives_up (tick_event t) (pass_time t c1).2.

Lemma event_loop_cons t ticks c :
  event_loop (t :: ticks) c =
  match loop_step (tick_event t) (pass_time t c).2 with
  | (Continue, c1) => event_loop ticks c1
  | (Break, c1) => (s ← complete_run; mret (Some s)) c1
  | (Return s, c1) => (Some s, c1)
  end.
Proof.
  cbn [event_loop]. unfold mbind, state_bind. destruct (pass_time t c) as [u c0]. cbn [snd].
  by destruct (loop_step (tick_event t) c0) as [[| |s] c1].
Qed.

Lemma complete_some c : ∃ s c', (s ← complete_run; mret (Some s)) c = (Some s, c').
Proof. unfold mbind, state_bind. destruct (complete_run c) as [s c']. by exists s, c'. Qed.

Lemma loop_gives_up_cons t ticks c :
  loop_gives_up (t :: ticks) c ↔
  gives_up (tick_event t) (pass_time t c).2 ∨
  ∃ c1, loop_step (tick_event t) (pass_time t c).2 = (Continue, c1) ∧ loop_gives_up ticks c1.
Proof.
  split.
  - intros ([|t' before] & u & after & c1 & [= -> ->] & Hb & Hg); [injection Hb as <-; by left|]. right.
    rewrite event_loop_cons in Hb. destruct (loop_step (tick_event t') (pass_time t' c).2) as [[| |s] c2].
    + exists c2. split; [done|]. by exists before, u, after, c1.
    + destruct (complete_some c2) as (s & c' & Hc). congruence.
    + done.
  - intros [Hg|(c2 & Hs & before & u & after & c1 & -> & Hb & Hg)].
    + by exists [], t, ticks, c.
    + exists (t :: before), u, after, c1. by rewrite event_loop_cons, Hs.
Qed.

Lemma event_loop_ends ticks c : ends (loop_gives_up ticks c) c (event_loop ticks c).
Proof.
  revert c; induction ticks as [|t ticks IH]; intros c; [apply body_of_refl|].
  eapply ends_iff; [symmetry; apply loop_gives_up_cons|]. rewrite event_loop_cons.
  apply (ends_trans _ c (pass_time t c).2); [apply pass_time_body|].
  generalize (pass_time t c).2. clear c. intros c.
  pose proof (loop_step_spec (tick_event t) c) as Hstep. destruct (loop_step (tick_event t) c) as [flow c1].
  cbn [step_spec] in *. destruct flow as [| |s].
  - destruct Hstep as (Hno & Hb & _). eapply ends_trans; [exact Hb|]. eapply ends_iff; [|apply IH].
    split; [eauto|]. intros [?|(c2 & [= <-] & ?)]; done.
  - destruct Hstep as (Hno & Hb & _). eapply ends_trans; [exact Hb|]. apply complete_ends.
    intros [?|(c2 & ? & _)]; done.
  - destruct Hstep as [[Hg Hs]|[Hno (status & c2 & Hb & Hne & Hf)]].
    + left. split; [by left|done].
    + right. split; [intros [?|(c3 & ? & _)]; done|]. exists status, c2. done.
Qed.

Lemma le_promote o : preserves (coord_le (S:=S) (D:=D) (H:=H)) (promote_started_pending_to_running o).
Proof.
  unfold promote_started_pending_to_running. apply (preserves_bind coord_le); [apply (preserves_gets coord_le)|intros l].
  apply (preserves_for_until coord_le). intros n. unfold promote_node.
  apply (preserves_bind coord_le); [apply le_on_run, mark_running_le|intros []; [|apply (preserves_ret coord_le)]].
  apply (preserves_bind coord_le); [apply le_quiet, quiet_persist_state|intros _].
  apply (preserves_bind coord_le); [apply (preserves_from_const coord_le)|intros run_id].
  apply (preserves_bind coord_le); [apply le_quiet, quiet_call_dispatcher|intros [[]|]]; try apply (preserves_ret coord_le).
  intros c. apply handles_infra_failed.
Qed.

Lemma le_rehydrate_timers o : preserves (coord_le (S:=S) (D:=D) (H:=H)) (rehydrate_phase_timers o).
Proof.
  unfold rehydrate_phase_timers, rehydrate_timer.
  pose proof (λ f, le_on_timers (S:=S) (D:=D) (H:=H) f). pose proof (λ A f, le_quiet _ (quiet_call_history (S:=S) (D:=D) (H:=H) (A:=A) f)).
  apply (preserves_bind coord_le); [apply (preserves_gets coord_le)|intros l].
  apply (preserves_for_each coord_le). intros n. preserve.
Qed.

Lemma rehydrate_ends (P : Prop) c : ¬ P → ends P c (rehydrate c).
Proof.
  intros HP. unfold rehydrate. rewrite bind_eq.
  pose proof (conj (quiet_le _ _ (quiet_read_outcomes c)) (body_read c) : body_of c _) as Hb1.
  destruct (read_outcomes_for_non_terminal c) as [o c1]. cbn [fst snd] in *. rewrite bind_eq.
  eapply ends_trans; [exact Hb1|]. clear Hb1 c.
  assert (body_of c1 (fold_completions_from_outcomes o c1).2) as Hb2
    by (split; [apply handles_fold_completions|apply body_fold]).
  destruct (fold_completions_from_outcomes o c1) as [stop c2]. cbn [fst snd] in *.
  eapply ends_trans; [exact Hb2|]. clear Hb2 c1. destruct stop; [by apply abort_ends|]. rewrite bind_eq.
  assert (body_of c2 (promote_started_pending_to_running o c2).2) as Hb3 by (split; [apply le_promote|apply body_promote]).
  destruct (promote_started_pending_to_running o c2) as [stop c3]. cbn [fst snd] in *.
  eapply ends_trans; [exact Hb3|]. clear Hb3 c2. destruct stop; [by apply abort_ends|]. rewrite bind_eq.
  assert (body_of c3 (rehydrate_phase_timers o c3).2) as Hb5 by (split; [apply le_rehydrate_timers|apply body_rehydrate_timers]).
  destruct (rehydrate_phase_timers o c3) as [u c4]. cbn [fst snd] in *.
  eapply ends_trans; [exact Hb5|]. rewrite bind_eq. cbn [gets fst snd].
  destruct (is_complete (run c4)); [by apply complete_ends|apply body_of_refl].
Qed.

(** What precedes the subscription. *)
Definition resume : M Co (option RunSummary) := λ c, if c_is_rehydrate (const c) then rehydrate c else (None, c).

Lemma resume_ends (P : Prop) c : ¬ P → ends P c (resume c).
Proof. unfold resume. destruct (c_is_rehydrate (const c)); [apply rehydrate_ends|intros _; apply body_of_refl]. Qed.
Lemma resume_none c c1 : resume c = (None, c1) → body_of c c1.
Proof. intros Hr. pose proof (resume_ends False c (λ x, x)) as He. by rewrite Hr in He. Qed.

(** How a run of the coordinator unfolds; nothing before the loop depends on
    the schedule. *)
Inductive run_shape (subscribed : bool) c : Prop :=
| run_ended s c1 : resume c = (Some s, c1) →
    (∀ ticks, run_coordinator subscribed ticks c = (Some s, c1)) → run_shape subscribed c
| run_unsubscribed c1 : subscribed = false → resume c = (None, c1) →
    (∀ ticks, run_coordinator subscribed ticks c = (s ← build_summary RsFailure; mret (Some s)) c1) → run_shape subscribed c
| run_panicked c1 : subscribed = true → resume c = (None, c1) →
    interval_panics (s3_reconcile_interval_secs (c_config (const c))) = true →
    (∀ ticks, run_coordinator subscribed ticks c = (None, (effect TaskPanicked c1).2)) → run_shape subscribed c
| run_complete c1 : subscribed = true → resume c = (None, c1) → is_complete (run (dispatch_ready_nodes c1).2) = true →
    (∀ ticks, run_coordinator subscribed ticks c = (s ← complete_run; mret (Some s)) (dispatch_ready_nodes c1).2) →
    run_shape subscribed c
| run_loops c1 : subscribed = true → resume c = (None, c1) → is_complete (run (dispatch_ready_nodes c1).2) = false →
    (∀ ticks, run_coordinator subscribed ticks c = event_loop ticks (dispatch_ready_nodes c1).2) → run_shape subscribed c.

Lemma run_coordinator_shape subscribed c : run_shape subscribed c.
Proof.
  assert (∀ ticks, run_coordinator subscribed ticks c =
    match resume c with
    | (Some s, c1) => (Some s, c1)
    | (None, c1) =>
        if negb subscribed then (s ← build_summary RsFailure; mret (Some s)) c1
        else if interval_panics (s3_reconcile_interval_secs (c_config (const c1))) then (None, (effect TaskPanicked c1).2)
        else let c2 := (dispatch_ready_nodes c1).2 in
          if is_complete (run c2) then (s ← complete_run; mret (Some s)) c2 else event_loop ticks c2
    end) as Hrun.
  { intros ticks. unfold run_coordinator. rewrite bind_eq. change (from_const c_is_rehydrate c) with (c_is_rehydrate (const c), c).
    cbn [fst snd]. rewrite bind_eq. assert ((if c_is_rehydrate (const c) then rehydrate else mret None) c = resume c) as ->
      by (unfold resume; by destruct (c_is_rehydrate (const c))).
    destruct (resume c) as [[s|] c1]; cbn [fst snd]; [done|]. destruct subscribed; [|done]. cbn [negb].
    rewrite bind_eq. unfold from_const. cbn [gets fst snd]. destruct (interval_panics _); [done|].
    rewrite bind_eq. generalize (dispatch_ready_nodes c1).2. intros c2. rewrite bind_eq. cbn [gets fst snd].
    by destruct (is_complete (run c2)). }
  destruct (resume c) as [[s|] c1] eqn:Hre; [by eapply run_ended|]. destruct subscribed; [|by eapply run_unsubscribed].
  cbn [negb] in Hrun. destruct (resume_none _ _ Hre) as [[K _ _] _].
  destruct (interval_panics _) eqn:Hi; [eapply run_panicked; eauto; by rewrite <-K|].
  cbv zeta in Hrun. destruct (is_complete _) eqn:Hc; [by eapply run_complete|by eapply run_loops].
Qed.

(** The coordinator gives the run up, leaving it to others: the event stream
    could not be opened, or at a heartbeat, taken when it waited after the ticks
    before it, the lease could not be renewed. *)
Definition surrendered (subscribed : bool) (ticks : list Tick) c : Prop :=
  (subscribed = false ∧ (c_is_rehydrate (const c) = true → (rehydrate c).1 = None)) ∨
  ∃ before t after c1, ticks = before ++ t :: after ∧ run_coordinator subscribed before c = (None, c1) ∧
    tick_event t = Heartbeat ∧ lease_lost (pass_time t c1).2.

Lemma run_coordinator_ends subscribed ticks c :
  ends (surrendered subscribed ticks c) c (run_coordinator subscribed ticks c).
Proof.
  destruct (run_coordinator_shape subscribed c) as
    [s c1 Hre Hrun|c1 -> Hre Hrun|c1 -> Hre Hi Hrun|c1 -> Hre Hc Hrun|c1 -> Hre Hc Hrun]; rewrite Hrun.
  - rewrite <-Hre. apply resume_ends. intros [[_ Hnone]|(b & t & a & c2 & _ & Hb & _)]; [|by rewrite Hrun in Hb].
    unfold resume in Hre. destruct (c_is_rehydrate (const c)); [|done]. by rewrite Hre in Hnone; specialize (Hnone eq_refl).
  - apply resume_none in Hre as Hb. eapply ends_trans; [exact Hb|]. unfold mbind, state_bind.
    pose proof (build_summary_spec RsFailure c1) as Hs. destruct (build_summary RsFailure c1) as [s c2]. left. split.
    + left. split; [done|]. intros Hreh. unfold resume in Hre. rewrite Hreh in Hre. by rewrite Hre.
    + exists c1. split; [apply body_of_refl|exact Hs].
  - apply resume_none in Hre as Hb. eapply body_of_trans; [exact Hb|].
    apply (conj (le_quiet _ (quiet_effect TaskPanicked eq_refl) c1) (body_effect TaskPanicked eq_refl c1)).
  - apply resume_none in Hre as Hb. eapply ends_trans; [exact Hb|].
    eapply ends_trans; [split; [apply le_dispatch_ready|apply body_dispatch_ready]|]. apply complete_ends.
    intros [[? _]|(b & t & a & c2 & _ & Hb2 & _)]; [done|]. rewrite Hrun in Hb2.
    destruct (complete_some (dispatch_ready_nodes c1).2) as (s & c' & Hs). congruence.
  - apply resume_none in Hre as Hb. eapply ends_trans; [exact Hb|].
    eapply ends_trans; [split; [apply le_dispatch_ready|apply body_dispatch_ready]|].
    eapply ends_iff; [|apply event_loop_ends]. unfold loop_gives_up, surrendered, gives_up. setoid_rewrite Hrun. split.
    + intros (b & t & a & c2 & ?). right. by exists b, t, a, c2.
    + intros [[? _]|(b & t & a & c2 & ?)]; [done|]. by exists b, t, a, c2.
Qed.

(** A coordinator that waits, waits in the loop. *)
Lemma event_loop_inv ticks c c' : loop_inv c → event_loop ticks c = (None, c') → loop_inv c'.
Proof.
  revert c; induction ticks as [|t ticks IH]; intros c Hinv; [by intros [= <-]|]. rewrite event_loop_cons.
  pose proof (loop_step_spec (tick_event t) (pass_time t c).2) as Hs.
  destruct (loop_step (tick_event t) (pass_time t c).2) as [[| |s] c1]; [|by destruct (complete_some c1) as (? & ? & ->)|done].
  destruct Hs as (_ & _ & Hs). by apply IH, Hs, pass_time_inv.
Qed.
End loop.

(** ** Starting *)

Section starting.
Context {S D H : Type} `{SPEC : StateStoreSpec S, DD : Dispatcher D, RH : RunHistory H, HO : HashOrder, LB : Libraries}.
Abbreviation Co := (Coordinator S D H).

Lemma initialize_store run_id infos p s : store_ok s →
  let '(_, s') := initialize_run_state run_id infos p s in store_ok s' ∧ leases_of s' = leases_of s.
Proof.
  intros Hok. unfold initialize_run_state, mbind, state_bind. pose proof (load_run_spec run_id s Hok) as Hl.
  destruct (load_run run_id s) as [[[st|]|e] s1]; destruct Hl as (Hok1 & _ & Hl & _); cbn; [done| |done].
  assert (version_ok 0) as Hv by done.
  pose proof (save_run_spec run_id (to_run_state (new_run infos) 0 p) 0 s1 Hok1 Hv Hv) as Hs.
  destruct (save_run _ _ _ s1) as [r s2]. destruct Hs as (? & Hl2 & _). cbn. by rewrite Hl2.
Qed.

Lemma initialize_run run_id infos p s r v rehydrated s' : store_ok s →
  initialize_run_state run_id infos p s = ((r, v, rehydrated), s') →
  if rehydrated then ∃ st, runs_of s !! run_id = Some st ∧ r = from_run_state st ∧ v = rs_version st ∧ runs_of s' = runs_of s
  else r = new_run infos ∧ v = 0%Z ∧
    (runs_of s !! run_id = None ∨ ∃ e, (load_run run_id s).1 = Err e) ∧
    (∀ q st, runs_of s !! q = Some st → runs_of s' !! q = Some st) ∧
    ∀ q, q ≠ run_id → runs_of s' !! q = runs_of s !! q.
Proof.
  intros Hok. unfold initialize_run_state, mbind, state_bind. pose proof (load_run_spec run_id s Hok) as Hl.
  destruct (load_run run_id s) as [[[st|]|e] s1]; destruct Hl as (Hok1 & Hruns & _ & Hl); cbn.
  - intros [= <- <- <- <-]. by exists st.
  - assert (version_ok 0) as Hv by done.
    pose proof (save_run_spec run_id (to_run_state (new_run infos) 0 p) 0 s1 Hok1 Hv Hv) as Hs.
    assert ((∀ q st0, runs_of s !! q = Some st0 →
      <[run_id := to_run_state (new_run infos) 0 p]> (runs_of s1) !! q = Some st0) ∧
      ∀ q, q ≠ run_id → <[run_id := to_run_state (new_run infos) 0 p]> (runs_of s1) !! q = runs_of s !! q) as [Hins Hoth].
    { rewrite Hruns. split; [intros q st0 Hq|intros q Hq]; by rewrite lookup_insert_ne by congruence. }
    destruct (save_run _ _ _ s1) as [[[]|e] s2]; intros [= <- <- <- <-]; destruct Hs as (_ & _ & Hs); (split; [done|split; [done|split; [by left|]]]).
    + by destruct Hs as [_ ->].
    + destruct Hs as [_ ->]. by rewrite Hruns.
    + destruct Hs as [->|[_ ->]]; [by rewrite Hruns|done].
  - intros [= <- <- <- <-]. split; [done|split; [done|split; [right; by exists e|]]]. by rewrite Hruns.
Qed.

(** The coordinator, holding its lease, read the stored state of its run, and
    the store answered with an error. *)
Definition read_failed (c : Co) (s : S) : Prop :=
  store_ok s ∧
  (version_ok (c_lease_version (const c)) →
     leases_of s !! c_run_id (const c) = Some (mkLease (c_lease_version (const c)) (c_server_id (const c)))) ∧
  ∃ e, (load_run (c_run_id (const c)) s).1 = Err e.

(** What starting does to the store. *)
Lemma start_spec run_id server pipeline config reporter rc now store disp history (c : option Co) store' disp' history' :
  store_ok store →
  start_coordinator run_id server pipeline config reporter rc now store disp history = (c, (store', disp', history')) →
  store_ok store' ∧
  (∀ q st, runs_of store !! q = Some st → runs_of store' !! q = Some st) ∧
  (∀ q, q ≠ run_id → runs_of store' !! q = runs_of store !! q ∧ leases_of store' !! q = leases_of store !! q) ∧
  ∀ c0, c = Some c0 →
    leases_of store !! run_id = None ∧ c_run_id (const c0) = run_id ∧ c_pipeline (const c0) = pipeline ∧
    c_server_id (const c0) = server ∧
    (version_ok (c_lease_version (const c0)) →
       leases_of store' !! run_id = Some (mkLease (c_lease_version (const c0)) server)) ∧
    (if c_is_rehydrate (const c0)
     then ∃ st, runs_of store !! run_id = Some st ∧ run c0 = from_run_state st ∧ state_version c0 = rs_version st
     else run c0 = new_run (node_info pipeline) ∧ state_version c0 = 0%Z ∧
       let s1 := (try_acquire_lease run_id server 30 store).2 in
       runs_of s1 = runs_of store ∧ (runs_of store !! run_id = None ∨ read_failed c0 s1)).
Proof.
  intros Hok. unfold start_coordinator. assert (0 < 30)%Z as Httl by done.
  pose proof (try_acquire_lease_spec run_id server 30 store Hok Httl) as Hacq.
  destruct (try_acquire_lease run_id server 30 store) as [[[v|]|e] s1]; destruct Hacq as (Hok1 & Hruns & Hacq); cbn [snd].
  - destruct Hacq as (Hfree & w & Hl & Hw). destruct (record_pipeline_started _ history) as [u h1].
    pose proof (initialize_store run_id (node_info pipeline) pipeline s1 Hok1) as Hinit.
    destruct (initialize_run_state run_id (node_info pipeline) pipeline s1) as [[[r version] rehydrated] s2] eqn:Hrun.
    apply initialize_run in Hrun; [|done]. destruct Hinit as [Hok2 Hl2].
    destruct (start_pod_watcher _ _ disp) as [watched d1]. intros [= <- <- <- <-]. rewrite Hruns in Hrun.
    assert ((∀ q st, runs_of store !! q = Some st → runs_of s2 !! q = Some st) ∧
      ∀ q, q ≠ run_id → runs_of s2 !! q = runs_of store !! q) as [Hkeep Hoth].
    { destruct rehydrated; [by destruct Hrun as (st & _ & _ & _ & ->)|apply Hrun]. }
    split; [done|]. split; [exact Hkeep|]. split.
    { intros q Hq. split; [by apply Hoth|]. rewrite Hl2, Hl. by rewrite lookup_insert_ne. }
    intros c0 [= <-]. cbn. split_and!; try done.
    + intros Hv. by rewrite Hl2, Hl, lookup_insert_eq, (Hw Hv).
    + destruct rehydrated; [destruct Hrun as (st & ? & ? & ? & _); by exists st|].
      destruct Hrun as (? & ? & Hwhy & _). split_and!; [done..|]. destruct Hwhy as [?|He]; [by left|right].
      split_and!; [done| |done]. intros Hv. by rewrite Hl, lookup_insert_eq, (Hw Hv).
  - destruct Hacq as [_ Hl]. intros [= <- <- <- <-]. rewrite Hruns, Hl. by split_and!.
  - intros [= <- <- <- <-]. rewrite Hruns. split_and!; try done.
    destruct Hacq as [->|(_ & v & ->)]; [done|]. intros q Hq. split; [done|]. by rewrite lookup_insert_ne.
Qed.
End starting.
