(* ===== verification/CoordinatorTheorems.v ===== *)
(** * Theorems about the coordinator

    Scheduling safety, the end of a run, the loop invariant and progress,
    leases and versions, failure handling, rehydration. *)

From S2P Require Import Prelude AppConfig Pipeline StateStore Run SourceManager PodWatcher RunHistory Dispatcher Backplane Coordinator CoordinatorFacts.

(** ** Weight *)

Definition weight_of (m : gmap string NodeStatus) : nat := map_fold (λ _ s acc, status_weight s + acc) 0 m.

Lemma weight_of_insert m n s : m !! n = None → weight_of (<[n := s]> m) = status_weight s + weight_of m.
Proof. intros Hn. unfold weight_of. apply (map_fold_insert_L (λ _ s acc, status_weight s + acc) 0); [intros; lia|done]. Qed.

Lemma weight_of_le m1 m2 :
  (∀ n, match m1 !! n, m2 !! n with
        | Some s, Some t => status_weight t ≤ status_weight s | None, None => True | _, _ => False end) →
  weight_of m2 ≤ weight_of m1.
Proof.
  revert m2. induction m1 as [|n s m1 Hn IH] using map_ind; intros m2 Hle.
  - replace m2 with (∅ : gmap string NodeStatus); [done|]. apply map_eq. intros n. specialize (Hle n).
    rewrite lookup_empty in *. by destruct (m2 !! n).
  - assert (∃ t, m2 !! n = Some t ∧ status_weight t ≤ status_weight s) as (t & Ht & Hw).
    { specialize (Hle n). rewrite lookup_insert_eq in Hle. destruct (m2 !! n); eauto; done. }
    rewrite <-(insert_delete_id m2 n t Ht). rewrite !weight_of_insert by (done || apply lookup_delete_eq).
    assert (weight_of (delete n m2) ≤ weight_of m1); [|lia]. apply IH. intros k. specialize (Hle k).
    destruct (decide (k = n)) as [->|]; [by rewrite Hn, lookup_delete_eq|].
    by rewrite lookup_delete_ne, lookup_insert_ne in * by done.
Qed.

Lemma run_le_weight r1 r2 : run_le r1 r2 → run_weight r2 ≤ run_weight r1.
Proof.
  intros [_ Hle]. apply weight_of_le. intros n. specialize (Hle n).
  destruct (statuses r1 !! n) as [[]|], (statuses r2 !! n) as [[]|]; simpl in *; try done; lia.
Qed.

Section theorems.
Context {S D H : Type} `{SS : StateStore S, DD : Dispatcher D, RH : RunHistory H, HO : HashOrder, LB : Libraries}.
Abbreviation Co := (Coordinator S D H).
Implicit Types (c : Co) (n : string).

Lemma ends_le P c (r : option RunSummary * Co) : ends P c r → coord_le c r.2.
Proof.
  destruct r as [[s|] c']; simpl; [|intros [? _]; done].
  intros [[_ (c1 & [Hle _] & (R & K & T & _))]|[_ (st & c1 & [Hle _] & _ & Hf)]].
  - etrans; [exact Hle|]. split; [done|by rewrite R|]. exists (shut c1).
    assert (dispatched (shut c1) = []) as Hd by (unfold shut; by destruct (watcher_open c1)). rewrite Hd.
    split_and!; [done|by apply dispatched_legal|constructor|]. intros n Hn. by apply elem_of_nil in Hn.
  - etrans; [exact Hle|apply Hf].
Qed.

(** C1: over a whole run, whatever the schedule of events, the answers of the
    services and the interference of other servers: the graph is fixed and
    statuses only advance, every node is dispatched at most once, and only
    while it is pending and all its dependencies have succeeded. *)
Theorem run_dispatches_legally subscribed ticks c :
  let c' := (run_coordinator subscribed ticks c).2 in
  run_le (run c) (run c') ∧
  ∃ new, trace c' = trace c ++ new ∧ NoDup (dispatched new) ∧
    ∀ n accepted r, DispatchNode n accepted r ∈ new →
      statuses r !! n = Some Pending ∧
      ∀ deps d, dependencies r !! n = Some deps → d ∈ deps → statuses r !! d = Some Success.
Proof.
  cbv zeta. destruct (ends_le _ _ _ (run_coordinator_ends subscribed ticks c)) as [_ Hle (new & T & L & N & _)].
  split; [done|]. exists new. split_and!; [done..|]. intros n b r Hin.
  rewrite Forall_forall in L. destruct (L _ Hin) as [Hp Hd]. split; [done|]. by apply deps_satisfied_true.
Qed.

(** The end of a run, by its effects: given up, or recorded. *)
Lemma ends_effects P c s c' : ends P c (Some s, c') →
  ∃ body, Forall (λ e, is_ending e = false) body ∧
    summary_run_id s = c_run_id (const c) ∧ summary_nodes s = statuses (run c') ∧
    (P ∧ trace c' = trace c ++ body ++ shut c ∧ summary_status s = RsFailure ∨
     ¬ P ∧ trace c' = trace c ++ body ++ ending (summary_status s) c ∧ ∀ n, summary_nodes s !! n ≠ Some Running).
Proof.
  intros [[HP (c1 & [_ [K W (b1 & T1 & B1)]] & (R & K2 & T2 & ->))]|
    [HP (st & c1 & [_ [K W (b1 & T1 & B1)]] & _ & [_ Hf -> (b2 & T2 & B2)])]]; cbn [summary_run_id summary_nodes summary_status].
  - exists b1. split; [done|]. split_and!; [congruence|congruence|]. left. split_and!; [done| |done].
    rewrite T2, T1, <-(assoc_L (++)). unfold shut. by rewrite W.
  - exists (b1 ++ b2). split; [by apply Forall_app|]. split_and!; [congruence|done|]. right. split; [done|]. split.
    + rewrite T2, T1. unfold ending, recorded, shut. by rewrite K, W, <-!(assoc_L (++)).
    + intros n. unfold running_failed in Hf. rewrite Hf, lookup_fmap. by destruct (statuses (run c1) !! n) as [[]|].
Qed.

(** C2: a run ends in one of two ways. It is given up exactly if the event
    stream could not be opened (and the run did not already end while it was
    being resumed), or at one of the heartbeats that it took while it waited the
    store, asked to renew the coordinator's lease, did not answer that it did;
    then nothing is recorded, reported or cleaned up and the summary
    says failure. Otherwise the last effects are, in this order and nowhere
    before: the final record, the report with the same status, the deletion of
    the run's objects, of its lease and of its state, and the shutdown of the
    watcher; and no node is left running. *)
Theorem run_ends_recorded subscribed ticks c :
  let '(r, c') := run_coordinator subscribed ticks c in
  ∃ body, Forall (λ e, is_ending e = false) body ∧
    match r with
    | None => trace c' = trace c ++ body
    | Some s =>
        summary_run_id s = c_run_id (const c) ∧ summary_nodes s = statuses (run c') ∧
        (surrendered subscribed ticks c ∧ trace c' = trace c ++ body ++ shut c ∧ summary_status s = RsFailure ∨
         ¬ surrendered subscribed ticks c ∧ trace c' = trace c ++ body ++ ending (summary_status s) c ∧
           ∀ n, summary_nodes s !! n ≠ Some Running)
    end.
Proof.
  pose proof (run_coordinator_ends subscribed ticks c) as He. destruct (run_coordinator subscribed ticks c) as [[s|] c'].
  - by apply ends_effects.
  - destruct He as [_ [_ _ (b & T & B)]]. by exists b.
Qed.

(** C10: a run is reported successful only if every node succeeded. *)
Theorem success_needs_every_node subscribed ticks c :
  match run_coordinator subscribed ticks c with
  | (Some s, _) => summary_status s = RsSuccess → ∀ n st, summary_nodes s !! n = Some st → st = Success
  | (None, _) => True
  end.
Proof.
  pose proof (run_coordinator_ends subscribed ticks c) as He. destruct (run_coordinator subscribed ticks c) as [[s|] c']; [|done].
  destruct He as [[_ (c1 & _ & (_ & _ & _ & ->))]|[_ (st & c1 & _ & Hok & [_ Hf -> _])]]; [done|].
  cbn [summary_status summary_nodes]. intros ->. specialize (Hok eq_refl). intros n st'. unfold running_failed in Hf.
  rewrite Hf, lookup_fmap. destruct (statuses (run c1) !! n) as [s|] eqn:Hs; [|done]. simpl.
  rewrite (Hok _ _ Hs). by intros [= <-].
Qed.

(** ** Waiting *)

Definition covered n c : Prop := ∃ t, node_phase_handles c !! n = Some t ∧ timer_for n t.

(** The timer of [n] is armed; run and other timers stay. *)
Definition arms n c c' : Prop :=
  run c' = run c ∧ covered n c' ∧ ∀ m, m ≠ n → node_phase_handles c' !! m = node_phase_handles c !! m.

Lemma arms_insert n t c c1 :
  timer_for n t → quiet c c1 → arms n c (on_timers (insert n t) c1).2.
Proof.
  intros Ht [_ R M _]. split; [done|]. split; [exists t; cbn; by rewrite lookup_insert_eq|].
  intros m Hm. cbn. by rewrite lookup_insert_ne, M.
Qed.

Lemma rehydrate_timer_spec o n c : arms n c (rehydrate_timer o n c).2.
Proof.
  unfold rehydrate_timer. rewrite bind_eq. change (from_const c_config c) with (c_config (const c), c). cbn [fst snd].
  rewrite bind_eq. unfold from_const, gets. cbn [fst snd]. rewrite bind_eq. cbn [fst snd].
  destruct (o !! n) as [[]|]; [|apply arms_insert; [by left|reflexivity]|..].
  all: rewrite bind_eq; cbn [fst snd]; rewrite bind_eq;
    match goal with |- context [call_history ?f ?x] =>
      pose proof (quiet_call_history f x) as Hq; destruct (call_history f x) as [[[row|]|e] c1] end;
    cbn [fst snd] in *.
  all: apply arms_insert; [(by left) || (by right)|done].
Qed.

Lemma rehydrate_covers o c : timers_cover (rehydrate_phase_timers o c).2.
Proof.
  unfold rehydrate_phase_timers. rewrite bind_eq. cbn [gets fst snd].
  assert (∀ nodes c, let c' := (for_each nodes (rehydrate_timer o) c).2 in
    run c' = run c ∧ ∀ m, m ∈ nodes ∨ covered m c → covered m c') as Heach.
  { intros nodes. induction nodes as [|n nodes IH]; intros c0; [split; [done|]; set_solver|].
    cbn [for_each]. rewrite bind_eq. destruct (rehydrate_timer_spec o n c0) as (R & Hn & Ho).
    destruct (IH (rehydrate_timer o n c0).2) as [R2 Hin]. split; [by rewrite R2|].
    intros m [Hm|Hm]; [|destruct (decide (m = n)) as [->|Hne]]; [|apply Hin; by right|apply Hin; right; unfold covered; by rewrite Ho].
    apply Hin. apply elem_of_cons in Hm as [->|Hm]; [by right|by left]. }
  intros n. destruct (Heach (running_nodes (run c)) c) as [R Hin]. rewrite R. intros Hn. apply Hin. left.
  by apply elem_of_running.
Qed.

Lemma rehydrate_none_covers c c' : rehydrate c = (None, c') → timers_cover c'.
Proof.
  unfold rehydrate. unfold mbind, state_bind. destruct (read_outcomes_for_non_terminal c) as [o c1].
  destruct (fold_completions_from_outcomes o c1) as [[] c2]; [by destruct (abort_run RsFailure c2)|].
  destruct (promote_started_pending_to_running o c2) as [[] c3]; [by destruct (abort_run RsFailure c3)|].
  pose proof (rehydrate_covers o c3) as Hc. destruct (rehydrate_phase_timers o c3) as [u c4]. cbn [gets snd] in *.
  destruct (is_complete (run c4)); [by destruct (complete_run c4)|]. by intros [= <-].
Qed.

(** A coordinator as it is started: if it is not rehydrated, nothing runs. *)
Definition fresh c : Prop := c_is_rehydrate (const c) = false → ∀ n, statuses (run c) !! n ≠ Some Running.

Lemma start_fresh run_id server pipeline config reporter rc now store disp history c w :
  start_coordinator run_id server pipeline config reporter rc now store disp history = (Some c, w) → fresh c.
Proof.
  unfold start_coordinator. destruct (try_acquire_lease _ _ _ store) as [[[v|]|e] store1]; try done.
  destruct (record_pipeline_started _ history) as [u history1].
  destruct (initialize_run_state run_id (node_info pipeline) pipeline store1) as [[[r version] rehydrated] store2] eqn:Hinit.
  destruct (start_pod_watcher _ _ disp) as [watched disp1]. intros [= <- _] Hre n. cbn [run const c_is_rehydrate] in *. subst.
  unfold initialize_run_state, mbind, state_bind in Hinit. destruct (load_run run_id store1) as [[[st|]|e] store3].
  - by injection Hinit.
  - destruct (save_run _ _ _ store3) as [u' store4]. injection Hinit as <- _ _. by intros ?%new_run_pending.
  - injection Hinit as <- _ _. by intros ?%new_run_pending.
Qed.

Lemma start_config run_id server pipeline config reporter rc now store (disp : D) history c w :
  start_coordinator run_id server pipeline config reporter rc now store disp history = (Some c, w) → c_config (const c) = config.
Proof.
  unfold start_coordinator. destruct (try_acquire_lease run_id server 30 store) as [[[v|]|e] s1]; [|done..].
  destruct (record_pipeline_started _ history) as [u h1]. destruct (initialize_run_state _ _ _ s1) as [[[r version] rehydrated] s2].
  destruct (start_pod_watcher run_id _ disp) as [watched d]. by intros [= <- <-].
Qed.

Lemma loop_inv_running c : loop_inv c → ∃ n t, statuses (run c) !! n = Some Running ∧
  node_phase_handles c !! n = Some t ∧ timer_for n t.
Proof.
  intros [Hcov Hr Hl]. destruct (running_nodes (run c)) as [|n l] eqn:Hrun.
  - exfalso. assert (is_complete (run c) = true); [|congruence]. apply is_complete_iff. split.
    + intros n Hn%elem_of_running. rewrite Hrun in Hn. set_solver.
    + intros n Hn. destruct (deps_satisfied (run c) n) eqn:Hd; [|done].
      assert (n ∈ ready_nodes (run c)) as Hin by (by apply elem_of_ready). rewrite Hr in Hin. set_solver.
  - assert (statuses (run c) !! n = Some Running) as Hn by (apply elem_of_running; rewrite Hrun; left).
    destruct (Hcov n Hn) as (t & ? & ?). eauto.
Qed.

(** Whenever a started coordinator waits, the invariant of the loop holds. *)
Lemma started_waits_inv run_id server pipeline config reporter rc now store disp history c w subscribed ticks c' :
  start_coordinator run_id server pipeline config reporter rc now store disp history = (Some c, w) →
  s3_reconcile_interval_secs config ≠ 0%Z →
  run_coordinator subscribed ticks c = (None, c') → loop_inv c'.
Proof.
  intros Hstart Hi Hrun. pose proof (start_fresh _ _ _ _ _ _ _ _ _ _ _ _ Hstart) as Hfresh.
  destruct (run_coordinator_shape subscribed c) as
    [s c1 Hre Hsh|c1 -> Hre Hsh|c1 -> Hre Hp Hsh|c1 -> Hre Hc Hsh|c1 -> Hre Hc Hsh]; rewrite Hsh in Hrun.
  - done.
  - unfold mbind, state_bind in Hrun. by destruct (build_summary RsFailure c1).
  - apply bool_decide_eq_true in Hp. by rewrite (start_config _ _ _ _ _ _ _ _ _ _ _ _ Hstart) in Hp.
  - destruct (complete_some (dispatch_ready_nodes c1).2) as (s & c2 & Hs). congruence.
  - eapply event_loop_inv; [|exact Hrun]. assert (timers_cover c1) as Hcov.
    { unfold resume in Hre. destruct (c_is_rehydrate (const c)) eqn:Hreh; [by eapply rehydrate_none_covers|].
      injection Hre as <-. intros n Hn. by destruct (Hfresh Hreh n). }
    destruct (dispatch_ready_spec c1) as (_ & Hcov' & Hr). split; auto.
Qed.

(** A pending node that is not ready waits for one that has not succeeded. *)
Lemma not_ready_blocked (r : PipelineRun) n :
  ready_nodes r = [] → statuses r !! n = Some Pending →
  ∃ (deps : gset string) d, dependencies r !! n = Some deps ∧ d ∈ deps ∧ statuses r !! d ≠ Some Success.
Proof.
  intros Hr Hn. assert (deps_satisfied r n ≠ true) as Hnot.
  { intros Hd. assert (n ∈ ready_nodes r) as Hin by (by apply elem_of_ready). rewrite Hr in Hin. by apply elem_of_nil in Hin. }
  unfold deps_satisfied in Hnot. destruct (dependencies r !! n) as [deps|]; [|done]. rewrite bool_decide_eq_true in Hnot.
  apply not_set_Forall_Exists in Hnot as (d & ? & ?); [by exists deps, d|intros d; apply _].
Qed.

(** C4: take any coordinator that starts, for a new run or for one that it takes
    over, under settings in which the interval of S3 reconciliation is not zero,
    and any schedule of events, answers and interference after which it has not
    returned. Then no node is ready to be dispatched, the run is not complete,
    every running node has an armed timer that will report it, and there is such
    a node: the coordinator never waits for something that cannot happen. *)
Theorem waiting_is_never_stuck run_id server pipeline config reporter rc now store disp history c w subscribed ticks c' :
  start_coordinator run_id server pipeline config reporter rc now store disp history = (Some c, w) →
  s3_reconcile_interval_secs config ≠ 0%Z →
  run_coordinator subscribed ticks c = (None, c') →
  (∀ n, statuses (run c') !! n = Some Pending →
     ∃ (deps : gset string) d, dependencies (run c') !! n = Some deps ∧ d ∈ deps ∧ statuses (run c') !! d ≠ Some Success) ∧
  is_complete (run c') = false ∧
  (∀ n, statuses (run c') !! n = Some Running →
     ∃ t, node_phase_handles c' !! n = Some t ∧
       (pt_message t = NodeTimedOut n ∨ pt_message t = NodePodStartTimedOut n)) ∧
  ∃ n, statuses (run c') !! n = Some Running.
Proof.
  intros Hstart Hi Hrun. pose proof (started_waits_inv _ _ _ _ _ _ _ _ _ _ _ _ _ _ _ Hstart Hi Hrun) as Hinv.
  destruct (loop_inv_running c' Hinv) as (n & t & Hn & _). destruct Hinv as [Hcov Hr Hc].
  split_and!; [intros m; by apply not_ready_blocked|done|exact Hcov|by exists n].
Qed.
End theorems.

(** ** Progress *)

Section progress.
Context {S D H : Type} `{SS : StateStore S, DD : Dispatcher D, RH : RunHistory H, HO : HashOrder, LB : Libraries}.
Abbreviation Co := (Coordinator S D H).
Implicit Types (c : Co) (n : string).

(** A schedule in which, whenever the coordinator waits, the next event is the
    message of the timer of some running node. *)
Inductive DrivenByTimers : list Tick → Co → Prop :=
| driven_end c : DrivenByTimers [] c
| driven_step t ticks c n timer :
    statuses (run c) !! n = Some Running → node_phase_handles c !! n = Some timer →
    tick_event t = Internal (pt_message timer) →
    (∀ c', loop_step (tick_event t) (pass_time t c).2 = (Continue, c') → DrivenByTimers ticks c') →
    DrivenByTimers (t :: ticks) c.

Lemma stop_continue (m : M Co bool) c c' :
  stop_or_complete m c = (Continue, c') → c' = (m c).2 ∧ (m c).1 = false.
Proof.
  unfold stop_or_complete. unfold mbind, state_bind. destruct (m c) as [[] c1].
  - by destruct (abort_run RsFailure c1).
  - cbn [gets]. by destruct (is_complete (run c1)); intros [= <-].
Qed.

(** Failing a running node leaves a smaller run, whatever follows. *)
Lemma fail_weight n c (k : bool → M Co bool) :
  statuses (run c) !! n = Some Running → (∀ b c, coord_le c (k b c).2) →
  run_weight (run ((b ← on_run (mark_failed n); k b) c).2) < run_weight (run c).
Proof.
  intros Hn Hk. rewrite bind_eq.
  assert (run_weight (run (on_run (mark_failed n) c).2) < run_weight (run c)) as Hlt.
  { pose proof (mark_failed_weight n (run c)) as Hw. unfold on_run. destruct (mark_failed n (run c)) as [b r] eqn:Hm.
    apply Hw. unfold mark_failed in Hm. rewrite Hn in Hm. by injection Hm as <- _. }
  destruct (Hk (on_run (mark_failed n) c).1 (on_run (mark_failed n) c).2) as [_ Hle _].
  apply run_le_weight in Hle. lia.
Qed.

Lemma timer_event_weight n t c c' :
  timer_for n t → statuses (run c) !! n = Some Running →
  loop_step (Internal (pt_message t)) c = (Continue, c') → run_weight (run c') < run_weight (run c).
Proof.
  intros [Ht|Ht] Hn Hstep; rewrite Ht in Hstep; cbn [loop_step] in Hstep; apply stop_continue in Hstep as [-> _].
  - unfold handle_node_timed_out. apply fail_weight; [done|]. intros [] c1; cbn [negb]; [|reflexivity].
    apply settles_failure_rest.
  - unfold handle_pod_start_timed_out, handle_node_infra_failed. rewrite bind_eq. cbn [gets fst snd]. rewrite Hn.
    rewrite bool_decide_eq_false_2 by (by intros [?|?]). apply fail_weight; [done|].
    intros [] c1; cbn [negb]; [|reflexivity]. rewrite bind_eq. etrans; [apply (le_on_timers (delete n))|].
    apply settles_failure_rest.
Qed.

(** A schedule in which [k] of the events that the coordinator takes are
    messages of running nodes' timers; between them anything may happen. *)
Inductive Driven : nat → list Tick → Co → Prop :=
| driven_enough ticks c : Driven 0 ticks c
| driven_timer k t ticks c n timer :
    statuses (run c) !! n = Some Running → node_phase_handles c !! n = Some timer →
    tick_event t = Internal (pt_message timer) →
    (∀ c', loop_step (tick_event t) (pass_time t c).2 = (Continue, c') → Driven k ticks c') →
    Driven (Datatypes.S k) (t :: ticks) c
| driven_other k t ticks c :
    (∀ c', loop_step (tick_event t) (pass_time t c).2 = (Continue, c') → Driven k ticks c') →
    Driven k (t :: ticks) c.

Lemma driven_returns k ticks c : loop_inv c → Driven k ticks c → run_weight (run c) < k → ∃ s, (event_loop ticks c).1 = Some s.
Proof.
  intros Hinv Hdriven. revert Hinv.
  induction Hdriven as [ticks c|k t ticks c n timer Hn Ht Hev _ IH|k t ticks c _ IH]; intros Hinv Hk; [lia|..].
  all: cbn [event_loop]; rewrite bind_eq; pose proof (pass_time_inv t c Hinv) as Hinv1;
    (assert (run (pass_time t c).2 = run c) as Hrun by done); set (c1 := (pass_time t c).2) in *; rewrite bind_eq;
    pose proof (loop_step_spec (tick_event t) c1) as Hs; destruct (loop_step (tick_event t) c1) as [[| |s] c2] eqn:Hstep; cbn [fst snd];
    [|unfold mbind, state_bind; destruct (complete_run c2) as [s c3]; by exists s|by exists s].
  - apply (IH c2); [done|by apply Hs|].
    destruct (li_cover _ Hinv n Hn) as (t' & Ht' & Hfor). rewrite Ht in Ht'. injection Ht' as <-.
    rewrite Hev in Hstep. rewrite <-Hrun in Hn. pose proof (timer_event_weight n timer c1 c2 Hfor Hn Hstep). rewrite Hrun in *. lia.
  - apply (IH c2); [done|by apply Hs|]. destruct Hs as (_ & [[_ Hle _] _] & _). apply run_le_weight in Hle. rewrite Hrun in Hle. lia.
Qed.

Lemma timers_drive ticks c : DrivenByTimers ticks c → Driven (length ticks) ticks c.
Proof. induction 1 as [c|t ticks c n timer Hn Ht Hev _ IH]; [constructor|]. by eapply driven_timer. Qed.

(** The timers alone end a run. From any waiting state, and whatever other
    servers do meanwhile, a schedule of timer events of running nodes that is
    longer than the number of steps the statuses can still take makes the
    coordinator return. *)
Theorem timers_end_the_run ticks c :
  loop_inv c → DrivenByTimers ticks c → run_weight (run c) < length ticks →
  ∃ s, (event_loop ticks c).1 = Some s.
Proof. intros Hinv Hd%timers_drive Hw. by eapply driven_returns. Qed.

(** With an interval of zero, which nothing forbids, the task of every new run
    panics: whatever comes, no node is dispatched, nothing is recorded, and the
    lease that the start took stays until it expires. *)
Theorem zero_interval_kills_runs c ticks :
  s3_reconcile_interval_secs (c_config (const c)) = 0%Z → c_is_rehydrate (const c) = false →
  let '(r, c') := run_coordinator true ticks c in
  r = None ∧ trace c' = trace c ++ [TaskPanicked] ∧ run c' = run c ∧ state_store c' = state_store c ∧ run_history c' = run_history c.
Proof. intros Hz Hre. unfold run_coordinator, mbind, state_bind, from_const, gets. rewrite Hre. cbn. by rewrite Hz. Qed.


(** ** Failure handling *)

(** Whether a failed node ends the run: its state could not be saved, or the
    pipeline fails fast. *)
Definition save_accepted c : bool := is_ok (persist_state c).1.

Lemma rest_result n reason c :
  let rest := (saved ← persist_state;
    match saved with
    | Err _ => mret true
    | Ok _ => _ ← notify_watcher_of_deletion n; _ ← cancel_on_cluster n;
              _ ← record_node_completed n reason; after_failure
    end) in (rest c).1 = negb (save_accepted c) || fail_fast_enabled c.
Proof.
  cbv zeta. unfold save_accepted. rewrite bind_eq. pose proof (quiet_persist_state c) as Hq1.
  destruct (persist_state c) as [[u|e] c1]; cbn [fst snd is_ok negb orb] in *; [|done].
  rewrite bind_eq. pose proof (quiet_notify n c1) as Hq2. destruct (notify_watcher_of_deletion n c1) as [u2 c2]. cbn [fst snd] in *.
  rewrite bind_eq. pose proof (quiet_cancel_on_cluster n c2) as Hq3. destruct (cancel_on_cluster n c2) as [u3 c3]. cbn [fst snd] in *.
  rewrite bind_eq. pose proof (quiet_record_completed n reason c3) as Hq4. destruct (record_node_completed n reason c3) as [u4 c4].
  cbn [fst snd] in *. rewrite after_failure_cases.
  assert (const c4 = const c) as Hconst.
  { rewrite (q_const _ _ Hq4), (q_const _ _ Hq3), (q_const _ _ Hq2), (q_const _ _ Hq1). done. }
  unfold fail_fast_enabled. rewrite Hconst. by destruct (default _ _).
Qed.

Lemma save_accepted_timers f c : save_accepted (on_timers f c).2 = save_accepted c.
Proof.
  unfold save_accepted, persist_state. rewrite !bind_eq. cbn [from_const gets fst snd on_timers state_version run const].
  unfold call_store. cbn [state_store const].
  destruct (save_run _ _ _ (state_store c)) as [[[]|e] s]; reflexivity.
Qed.

Lemma mark_failed_unfinished n c :
  statuses (run c) !! n = Some Pending ∨ statuses (run c) !! n = Some Running →
  on_run (mark_failed n) c = (true, (on_run (mark_failed n) c).2) ∧
  statuses (run (on_run (mark_failed n) c).2) !! n = Some Failed ∧ const (on_run (mark_failed n) c).2 = const c.
Proof.
  unfold on_run, mark_failed. intros [Hs|Hs]; rewrite Hs; cbn; by rewrite lookup_insert_eq.
Qed.
Lemma mark_failed_finished n c :
  statuses (run c) !! n ≠ Some Pending → statuses (run c) !! n ≠ Some Running → on_run (mark_failed n) c = (false, c).
Proof. unfold on_run, mark_failed. destruct (statuses (run c) !! n) as [[]|]; try done; by destruct c. Qed.

Lemma le_failed n c c' : coord_le c c' → statuses (run c) !! n = Some Failed → statuses (run c') !! n = Some Failed.
Proof. intros [_ Hle _] Hn. by eapply run_le_terminal. Qed.

(** A timeout, a pod that does not start and an infrastructure failure
    concern only unfinished nodes: such a node becomes failed, and it ends the
    run exactly if its new state could not be saved or the pipeline fails fast.
    For any other node nothing happens at all. *)
Theorem failure_stops_iff n reason c handler :
  handler ∈ [handle_node_timed_out n; handle_pod_start_timed_out n; handle_node_infra_failed n reason] →
  match statuses (run c) !! n with
  | Some Pending | Some Running =>
      statuses (run (handler c).2) !! n = Some Failed ∧
      (handler c).1 = negb (save_accepted (on_run (mark_failed n) c).2) || fail_fast_enabled c
  | _ => handler c = (false, c)
  end.
Proof.
  intros Hin. destruct (decide (statuses (run c) !! n = Some Pending ∨ statuses (run c) !! n = Some Running)) as [Hun|Hfin].
  - destruct (mark_failed_unfinished n c Hun) as (Hm & Hf & Hk).
    enough (statuses (run (handler c).2) !! n = Some Failed ∧
      (handler c).1 = negb (save_accepted (on_run (mark_failed n) c).2) || fail_fast_enabled c)
      by (destruct Hun as [Hn|Hn]; by rewrite Hn).
    assert (∀ r, statuses (run (handle_node_infra_failed n r c).2) !! n = Some Failed ∧
      (handle_node_infra_failed n r c).1 = negb (save_accepted (on_run (mark_failed n) c).2) || fail_fast_enabled c) as Hinfra.
    { intros r. unfold handle_node_infra_failed. rewrite bind_eq. cbn [gets fst snd].
      rewrite bool_decide_eq_false_2 by naive_solver. rewrite bind_eq, Hm. cbn [fst snd negb]. rewrite bind_eq. split.
      - eapply le_failed; [apply settles_failure_rest|exact Hf].
      - rewrite rest_result. unfold cancel_node_timeout. rewrite save_accepted_timers.
        unfold fail_fast_enabled. cbn [on_timers snd const]. by rewrite Hk. }
    apply elem_of_cons in Hin as [->|Hin].
    + unfold handle_node_timed_out. rewrite bind_eq, Hm. cbn [fst snd negb]. split.
      * eapply le_failed; [apply settles_failure_rest|exact Hf].
      * rewrite rest_result. unfold fail_fast_enabled. by rewrite Hk.
    + repeat (apply elem_of_cons in Hin as [->|Hin]); [apply Hinfra..|by apply elem_of_nil in Hin].
  - assert (on_run (mark_failed n) c = (false, c)) as Hm by (apply mark_failed_finished; tauto).
    enough (handler c = (false, c)) by (destruct (statuses (run c) !! n) as [[]|]; tauto).
    assert (∀ r, handle_node_infra_failed n r c = (false, c)) as Hinfra.
    { intros r. unfold handle_node_infra_failed. rewrite bind_eq. cbn [gets fst snd].
      case_bool_decide; [done|]. rewrite bind_eq, Hm. done. }
    apply elem_of_cons in Hin as [->|Hin]; [unfold handle_node_timed_out; by rewrite bind_eq, Hm|].
    repeat (apply elem_of_cons in Hin as [->|Hin]); [apply Hinfra..|by apply elem_of_nil in Hin].
Qed.

Lemma record_completed_trace n reason c :
  ∃ record, RecordNodeRun record ∈ trace (record_node_completed n reason c).2 ∧ nr_node_name record = n ∧
    nr_success record = bool_decide (statuses (run c) !! n = Some Success) ∧
    nr_failure_reason record = stable_code <$> reason.
Proof.
  unfold record_node_completed, write_node_run. rewrite !bind_eq. eexists. split.
  - cbn [effect snd trace]. apply elem_of_app. right. by apply list_elem_of_singleton.
  - done.
Qed.

Lemma le_trace_elem e c c' : coord_le c c' → e ∈ trace c → e ∈ trace c'.
Proof. intros [_ _ (new & -> & _)] He. apply elem_of_app. by left. Qed.

Lemma stop_or_complete_le (m : M Co bool) c : coord_le (m c).2 (stop_or_complete m c).2.
Proof.
  unfold stop_or_complete. unfold mbind, state_bind. destruct (m c) as [[] c1]; cbn [snd].
  - pose proof (abort_run_spec RsFailure c1) as Hf. destruct (abort_run RsFailure c1) as [s c2]. apply Hf.
  - reflexivity.
Qed.

(** A completion event for a node that has already failed still rewrites
    the node's history: if the save is accepted, the row is recorded again
    without the failure code that an infrastructure failure had recorded. *)
Theorem late_completion_erases_failure_code n c :
  statuses (run c) !! n = Some Failed → save_accepted c = true →
  ∃ record, RecordNodeRun record ∈ trace (loop_step (FromBackplane (Some (NodeCompleted n false))) c).2 ∧
    nr_node_name record = n ∧ nr_success record = false ∧ nr_failure_reason record = None.
Proof.
  intros Hn Hsave. cbn [loop_step]. set (m := _ ← cancel_node_timeout n; handle_node_completed n false).
  enough (∃ record, RecordNodeRun record ∈ trace (m c).2 ∧ nr_node_name record = n ∧ nr_success record = false ∧
    nr_failure_reason record = None) as (r & Hin & Hr).
  { exists r. split; [|exact Hr]. eapply le_trace_elem; [apply stop_or_complete_le|exact Hin]. }
  unfold m, handle_node_completed. rewrite bind_eq. unfold cancel_node_timeout.
  rewrite <-(save_accepted_timers (delete n)) in Hsave.
  assert (statuses (run (on_timers (delete n) c).2) !! n = Some Failed) as Hn1 by exact Hn.
  generalize dependent (on_timers (delete n) c).2. intros c1 Hsave Hn1. rewrite bind_eq, mark_failed_finished by congruence.
  cbn [fst snd]. rewrite bind_eq. unfold save_accepted in Hsave. pose proof (quiet_persist_state c1) as Hq.
  destruct (persist_state c1) as [[u|e] c2]; [|done]. cbn [fst snd] in *. rewrite bind_eq.
  destruct (record_completed_trace n None c2) as (r & Hin & Hname & Hsucc & Hreason).
  exists r. split; [eapply le_trace_elem; [apply settles_after_failure|exact Hin]|].
  split_and!; [done| |done]. rewrite Hsucc, (q_run _ _ Hq), Hn1. done.
Qed.

(** ** Ending a run does not cancel nodes *)

Definition no_cancel c c' : Prop := ∃ new, trace c' = trace c ++ new ∧ ∀ n, CancelNode n ∉ new.

#[export] Instance no_cancel_preorder : PreOrder no_cancel.
Proof.
  split.
  - intros c. exists []. rewrite app_nil_r. split; [done|]. intros n Hn. by apply elem_of_nil in Hn.
  - intros c1 c2 c3 (l1 & T1 & H1) (l2 & T2 & H2). exists (l1 ++ l2). split; [by rewrite T2, T1, (assoc_L (++))|].
    intros n [Hn|Hn]%elem_of_app; [by apply H1 in Hn|by apply H2 in Hn].
Qed.
Lemma no_cancel_frames {A} l (m : M Co A) : frames l m → (∀ n, CancelNode n ∉ l) → preserves no_cancel m.
Proof. intros Hm Hl c. exists l. split; [apply Hm|done]. Qed.
Lemma no_cancel_same {A} (m : M Co A) : (∀ c, trace (m c).2 = trace c) → preserves no_cancel m.
Proof. intros Hm c. exists []. rewrite Hm, app_nil_r. split; [done|]. intros n Hn. by apply elem_of_nil in Hn. Qed.

Lemma no_cancel_finalize status : preserves no_cancel (finalize_run status).
Proof.
  assert (∀ A (f : M H A), preserves no_cancel (call_history f)) by (intros A f; apply (no_cancel_frames []); [apply frames_call_history|set_solver]).
  assert (∀ A (f : M D A), preserves no_cancel (call_dispatcher f)) by (intros A f; apply (no_cancel_frames []); [apply frames_call_dispatcher|set_solver]).
  assert (∀ A (f : M PipelineRun A), preserves no_cancel (on_run f)) by (intros A f; apply no_cancel_same; intros c; unfold on_run; by destruct (f _)).
  assert (∀ e, (∀ n, e ≠ CancelNode n) → preserves no_cancel (effect e)) as He
    by (intros e Hne; apply (no_cancel_frames [e]); [apply frames_effect|set_solver]).
  unfold finalize_run, record_history, record_and_fail, record_running_node_terminated, node_definition_of, write_node_run.
  repeat first [apply (preserves_bind no_cancel); [|intros ?] | apply (preserves_for_each no_cancel); intros ?
    | apply (preserves_when no_cancel) | apply (preserves_gets no_cancel) | apply (preserves_from_const no_cancel)
    | apply (preserves_ret no_cancel) | by auto | apply He; done].
Qed.

(** Finalising marks every running node failed before the nodes to cancel
    are collected, so ending a run, by cancellation, timeout or failure, never
    asks the dispatcher to cancel a node. *)
Theorem abort_cancels_no_node status c :
  let '(_, c') := abort_run status c in ∃ new, trace c' = trace c ++ new ∧ ∀ n, CancelNode n ∉ new.
Proof.
  assert (no_cancel c (abort_run status c).2) as Hall.
  { unfold abort_run. rewrite bind_eq. etrans; [apply (no_cancel_finalize status)|].
    destruct (finalize_spec status c) as (_ & Hf & _). generalize dependent (finalize_run status c).2. intros c1 Hf.
    rewrite bind_eq. etrans; [apply (no_cancel_frames _ _ cleanup_spec); set_solver|].
    pose proof (cleanup_spec c1) as [R _ _ _]. generalize dependent (cleanup c1).2. intros c2 R.
    pose proof (terminate_idle status c2) as Ht. destruct (terminate_running_nodes status c2) as [s c3].
    destruct Ht as (_ & _ & T & _); [rewrite R; by eapply running_failed_idle|]. exists (shut c2). split; [done|].
    intros n. unfold shut. destruct (watcher_open c2); set_solver. }
  by destruct (abort_run status c).
Qed.
End progress.

(** ** The store: versions, leases, starting *)

Section store.
Context {S D H : Type} `{SPEC : StateStoreSpec S, DD : Dispatcher D, RH : RunHistory H, HO : HashOrder, LB : Libraries}.
Abbreviation Co := (Coordinator S D H).
Implicit Types (c : Co) (n : string).

(** C9: saving is a compare and swap of the whole run. It is accepted exactly
    if the stored version is the coordinator's (or nothing is stored and it is
    at version 0), and then the store holds the current run under the next
    version, which the coordinator adopts; if it is rejected the stored runs
    and the coordinator's version stay. A store error leaves the version and
    either of the two outcomes in the store; when the store answers, its answer
    decides. Who holds the lease makes no difference. *)
Theorem persist_state_is_cas c :
  store_ok (state_store c) → version_ok (state_version c) → version_ok (u64_add (state_version c) 1) →
  let id := c_run_id (const c) in
  let next := to_run_state (run c) (u64_add (state_version c) 1) (c_pipeline (const c)) in
  let accepted := cas_accepts (runs_of (state_store c) !! id) (state_version c) in
  let '(r, c') := persist_state c in
  run c' = run c ∧ leases_of (state_store c') = leases_of (state_store c) ∧
  match r with
  | Ok _ => accepted = true ∧ runs_of (state_store c') = <[id := next]> (runs_of (state_store c)) ∧ state_version c' = rs_version next
  | Err _ => state_version c' = state_version c ∧
      (runs_of (state_store c') = runs_of (state_store c) ∨
       accepted = true ∧ runs_of (state_store c') = <[id := next]> (runs_of (state_store c)))
  end ∧
  (is_ok (save_run id next (state_version c) (state_store c)).1 = true → is_ok r = accepted).
Proof.
  intros Hok Hv Hv'. unfold persist_state, call_store. unfold mbind, state_bind, gets, from_const. cbn.
  pose proof (save_run_spec (c_run_id (const c))
    (to_run_state (run c) (u64_add (state_version c) 1) (c_pipeline (const c))) (state_version c) (state_store c) Hok Hv' Hv) as Hs.
  destruct (save_run _ _ _ (state_store c)) as [[[]|e] s]; cbn; destruct Hs as (_ & Hl & Hs); cbn.
  - destruct Hs as [Hb Hr]. by split_and!.
  - destruct Hs as [Hb Hr]. split_and!; [done..|by left|by rewrite <-Hb].
  - by split_and!.
Qed.

(** C11: a coordinator starts only by taking a free lease, which it then holds
    under its own server id; in every later state of the store that still holds
    a lease of the run, no start of the run succeeds. It continues from the
    stored run and version; it begins with every node pending, at version zero,
    only if nothing is stored, or if the store answered its read of the state,
    made under its lease, with an error. It never overwrites a stored run. *)
Theorem start_takes_the_lease run_id server pipeline config reporter rc now store disp history c store' disp' history' :
  store_ok store →
  start_coordinator run_id server pipeline config reporter rc now store disp history = (Some c, (store', disp', history')) →
  version_ok (c_lease_version (const c)) →
  leases_of store !! run_id = None ∧
  leases_of store' !! run_id = Some (mkLease (c_lease_version (const c)) server) ∧
  (∀ q st, runs_of store !! q = Some st → runs_of store' !! q = Some st) ∧
  match runs_of store !! run_id with
  | Some st =>
      (statuses (run c) = rs_statuses st ∧ dependencies (run c) = list_to_set <$> rs_dependencies st ∧
       state_version c = rs_version st ∧ c_is_rehydrate (const c) = true) ∨
      (read_failed c (try_acquire_lease run_id server 30 store).2 ∧
       run c = new_run (node_info pipeline) ∧ state_version c = 0%Z)
  | None => run c = new_run (node_info pipeline) ∧ state_version c = 0%Z
  end ∧
  ∀ later server2 pipeline2 config2 reporter2 rc2 now2 disp2 history2,
    store_ok later → is_Some (leases_of later !! run_id) →
    (start_coordinator run_id server2 pipeline2 config2 reporter2 rc2 now2 later disp2 history2).1 = None (A:=Co).
Proof.
  intros Hok Hstart Hv. destruct (start_spec _ _ _ _ _ _ _ _ _ _ _ _ _ _ Hok Hstart) as (Hok' & Hruns & _ & Hc).
  destruct (Hc c eq_refl) as (Hfree & _ & _ & _ & Hl & Hrun). specialize (Hl Hv). split_and!; [done..| |].
  - destruct (c_is_rehydrate (const c)) eqn:Hre.
    + destruct Hrun as (st & -> & -> & Hver). by left.
    + destruct Hrun as (-> & Hver & _ & Hwhy). destruct (runs_of store !! run_id); [|done].
      destruct Hwhy as [?|Hfail]; [done|by right].
  - intros later server2 pipeline2 config2 reporter2 rc2 now2 disp2 history2 Hlater [lease Hlease].
    destruct (start_coordinator run_id server2 pipeline2 config2 reporter2 rc2 now2 later disp2 history2) as [c2 [[s2 d2] h2]] eqn:H2.
    destruct c2 as [c2|]; [|done].
    destruct (start_spec _ _ _ _ _ _ _ _ _ _ _ _ _ _ Hlater H2) as (_ & _ & _ & Hc2).
    destruct (Hc2 c2 eq_refl) as [Hnone _]. congruence.
Qed.
End store.

(** ** Zombies *)

Section zombies.
Import InMemory.
Context {D H : Type} `{DD : Dispatcher D, RH : RunHistory H, HO : HashOrder, LB : Libraries}.
Abbreviation Co := (Coordinator InMemoryStateStore D H).
Implicit Types (c : Co) (n : string).

Lemma cleanup_store c :
  let c' := (cleanup c).2 in
  state_store c' = mkStore (delete (c_run_id (const c)) (runs (state_store c)))
    (delete (c_run_id (const c)) (leases (state_store c))) (lease_counter (state_store c)).
Proof.
  unfold cleanup, mbind, state_bind, from_const, gets, call_dispatcher. destruct (cleanup_run _ _). reflexivity.
Qed.

Lemma terminate_store status c : state_store (terminate_running_nodes status c).2 = state_store c.
Proof.
  assert (∀ nodes c, state_store (for_each nodes (λ n, _ ← notify_watcher_of_deletion n; cancel_on_cluster n) c).2 = state_store c) as Heach.
  { intros nodes. induction nodes as [|n nodes IH]; intros c0; [done|]. cbn [for_each]. rewrite bind_eq, IH, bind_eq.
    unfold cancel_on_cluster, mbind, state_bind, gets, call_dispatcher.
    set (c1 := (notify_watcher_of_deletion n c0).2).
    assert (state_store c1 = state_store c0) as <-.
    { unfold c1, notify_watcher_of_deletion, mbind, state_bind, gets. by destruct (watcher_open c0). }
    by destruct (cancel_node _ _ _ (dispatcher c1)). }
  unfold terminate_running_nodes, summary. rewrite !bind_eq. cbn [gets snd].
  unfold shutdown_pod_watcher. rewrite !bind_eq. cbn [gets fst snd close_watcher state_store].
  match goal with |- context [for_each ?l ?b ?x] => pose proof (Heach l x) as He; generalize dependent (for_each l b x).2 end.
  intros c1 He. destruct (watcher_open c1); exact He.
Qed.

Lemma abort_store status c :
  let c' := (abort_run status c).2 in
  runs (state_store c') !! c_run_id (const c) = None ∧ leases (state_store c') !! c_run_id (const c) = None.
Proof.
  unfold abort_run. rewrite !bind_eq. destruct (finalize_spec status c) as (_ & _ & K & _).
  cbv zeta. rewrite terminate_store, cleanup_store, K. cbn [runs leases]. by rewrite !lookup_delete_eq.
Qed.

(** A coordinator that was overtaken, so that another server holds the
    lease and has saved the run since, does not leave the run to it: at its
    next completion event it records the run as failed, releases the other
    server's lease and deletes the run's state. *)
Theorem overtaken_coordinator_destroys_run n success c st lease :
  runs (state_store c) !! c_run_id (const c) = Some st → rs_version st ≠ state_version c →
  leases (state_store c) !! c_run_id (const c) = Some lease → le_server_id lease ≠ c_server_id (const c) →
  let '(flow, c') := loop_step (FromBackplane (Some (NodeCompleted n success))) c in
  (∃ s, flow = Return s ∧ summary_status s = RsFailure) ∧ RecordPipelineRun RsFailure ∈ trace c' ∧
  runs (state_store c') !! c_run_id (const c) = None ∧ leases (state_store c') !! c_run_id (const c) = None.
Proof.
  intros Hst Hv Hl Hserver. cbn [loop_step].
  assert (∀ c1, state_store c1 = state_store c → const c1 = const c → state_version c1 = state_version c →
    ∃ e, (persist_state c1).1 = Err e ∧ const (persist_state c1).2 = const c) as Hreject.
  { intros c1 Hs Hk Hver. pose proof (quiet_persist_state c1) as [K _ _ _]. rewrite K, Hk.
    unfold persist_state, call_store, mbind, state_bind, gets, from_const. cbn [save_run in_memory_store].
    unfold im_save_run. cbn. rewrite Hs, Hk, Hver, Hst, bool_decide_eq_true_2 by done. by eexists. }
  assert (((_ ← cancel_node_timeout n; handle_node_completed n success) c).1 = true ∧
    const ((_ ← cancel_node_timeout n; handle_node_completed n success) c).2 = const c) as [Hstop Hk].
  { rewrite bind_eq. unfold handle_node_completed, cancel_node_timeout. cbn [on_timers snd].
    set (c0 := mkCoordinator (const c) (run c) (delete n (node_phase_handles c)) _ _ _ _ _ _ _).
    assert (∀ (mark : M PipelineRun bool) (k : M Co bool), let m := _ ← on_run mark; saved ← persist_state;
        match saved with Err _ => mret true | Ok _ => k end in (m c0).1 = true ∧ const (m c0).2 = const c) as Hm.
    { intros mark k. cbv zeta. rewrite bind_eq. destruct (Hreject (on_run mark c0).2) as (e & He & Hk).
      1-3: unfold on_run; by destruct (mark (run c0)).
      rewrite bind_eq, He. split; [done|exact Hk]. }
    destruct success; apply Hm. }
  unfold stop_or_complete. rewrite bind_eq, Hstop. generalize dependent (_ ← cancel_node_timeout n; handle_node_completed n success).
  intros m _ Hk. destruct (abort_store RsFailure (m c).2) as [Hr Hle]. pose proof (abort_run_spec RsFailure (m c).2) as Hf.
  rewrite bind_eq. rewrite Hk in Hr, Hle. destruct (abort_run RsFailure (m c).2) as [s c2]. cbn [fst snd mret state_ret] in *.
  destruct Hf as [_ _ -> (body & T & _)]. split; [by eexists|]. split; [|done]. rewrite T. unfold ending, recorded. set_solver.
Qed.
End zombies.

(** ** Rehydration *)

Section rehydration.
Context {S D H : Type} `{SS : StateStore S, DD : Dispatcher D, RH : RunHistory H, HO : HashOrder, LB : Libraries}.
Abbreviation Co := (Coordinator S D H).
Implicit Types (c : Co) (n : string).

Definition runtime_budget c n : Z :=
  default (default_node_timeout_secs (c_config (const c))) (c_node_info_cache (const c) !! n ≫= ni_timeout_secs).
Definition startup_budget c n : Z :=
  default (default_node_startup_timeout_secs (c_config (const c)))
    (c_node_info_cache (const c) !! n ≫= ni_startup_timeout_secs).

Lemma rehydrate_timer_now o n c :
  const (rehydrate_timer o n c).2 = const c ∧ now_ms (rehydrate_timer o n c).2 = now_ms c.
Proof.
  unfold rehydrate_timer, mbind, state_bind, from_const, gets. destruct (o !! n) as [[]|]; try done.
  all: unfold call_history; cbn; destruct (get_node_run _ _ (run_history c)) as [[[row|]|e] h]; done.
Qed.

(** The timer a node is given: exact with S3's start time, within the node's
    budgets otherwise. *)
Definition rehydrated_timer (o : gmap string ReconcileResult) c n (t : PhaseTimer) : Prop :=
  match o !! n with
  | Some (InProgress started) =>
      t = mkTimer Runtime (Z.max (runtime_budget c n - as_u64 (Z.max (now_ms c - started) 0 / 1000)) 0) (NodeTimedOut n)
  | _ =>
      t = mkTimer Runtime (runtime_budget c n) (NodeTimedOut n) ∨
      ∃ created, t = mkTimer Startup (Z.max (startup_budget c n - Z.max (Z.quot (now_ms c - created) 1000) 0) 0)
        (NodePodStartTimedOut n)
  end.

Lemma rehydrate_timer_value o n c :
  ∃ t, node_phase_handles (rehydrate_timer o n c).2 !! n = Some t ∧ rehydrated_timer o c n t.
Proof.
  unfold rehydrate_timer, rehydrated_timer, mbind, state_bind, from_const, gets. cbn.
  destruct (o !! n) as [[]|]; cbn; [|rewrite lookup_insert_eq; by eexists|..].
  all: unfold call_history; cbn; destruct (get_node_run _ _ (run_history c)) as [[[row|]|e] h]; cbn;
    rewrite lookup_insert_eq; eexists; (split; [done|]); [right; by eexists|by left..].
Qed.

(** After a restart every running node is timed again, and its time is not
    started afresh: a node that S3 shows as started keeps what is left of its
    runtime budget, a node whose dispatch is in the history what is left of its
    startup budget, and only a node without any record the full runtime
    budget. *)
Theorem rehydrated_timers o c :
  let c' := (rehydrate_phase_timers o c).2 in
  run c' = run c ∧
  ∀ n, statuses (run c) !! n = Some Running →
    ∃ t, node_phase_handles c' !! n = Some t ∧ rehydrated_timer o c n t.
Proof.
  unfold rehydrate_phase_timers. rewrite bind_eq. cbn [gets fst snd]. cbv zeta.
  assert (∀ nodes c1, const c1 = const c → now_ms c1 = now_ms c → let c' := (for_each nodes (rehydrate_timer o) c1).2 in
    run c' = run c1 ∧ ∀ m, (m ∈ nodes ∨ ∃ t, node_phase_handles c1 !! m = Some t ∧ rehydrated_timer o c m t) →
      ∃ t, node_phase_handles c' !! m = Some t ∧ rehydrated_timer o c m t) as Heach.
  { intros nodes. induction nodes as [|n nodes IH]; intros c1 K N; [split; [done|]; set_solver|].
    cbn [for_each]. rewrite bind_eq. destruct (rehydrate_timer_spec o n c1) as (R & _ & Ho).
    destruct (rehydrate_timer_now o n c1) as [K1 N1]. destruct (rehydrate_timer_value o n c1) as (t & Ht & Hv).
    assert (rehydrated_timer o c n t) as Hv'.
    { unfold rehydrated_timer, runtime_budget, startup_budget in *. by rewrite K, N in Hv. }
    destruct (IH (rehydrate_timer o n c1).2) as [R2 Hin]; [congruence..|]. split; [by rewrite R2|].
    intros m Hm. apply Hin. destruct (decide (m = n)) as [->|Hne]; [right; by exists t|].
    destruct Hm as [Hm|(t' & Ht' & Hv2)]; [left; set_solver|right; exists t'; by rewrite Ho]. }
  destruct (Heach (running_nodes (run c)) c eq_refl eq_refl) as [R Hin]. split; [done|].
  intros n Hn. apply Hin. left. by apply elem_of_running.
Qed.
End rehydration.

(** ** A cluster to run the coordinator on *)

Module Example.
Import InMemory.

(** Jobs are created once per node; the outcomes are what S3 shows. *)
Record Cluster := mkCluster { jobs : gset string; outcomes : gmap string ReconcileResult }.

#[export] Instance cluster_dispatcher : Dispatcher Cluster := {
  dispatch _ _ node _ _ := λ d,
    if bool_decide (ni_name node ∈ jobs d) then (Err (DispatchErrorKube "AlreadyExists"), d)
    else (Ok (), mkCluster ({[ni_name node]} ∪ jobs d) (outcomes d));
  cancel_node _ n _ := λ d, (Ok (), mkCluster (jobs d ∖ {[n]}) (outcomes d));
  cleanup_run _ := λ d, (Ok (), mkCluster ∅ ∅);
  get_node_outcome _ _ := mret (Ok None);
  read_outcomes_for_running_nodes _ nodes := λ d,
    ((0%Z, base.filter (λ p, p.1 ∈ nodes) (outcomes d)), d);
  get_node_log _ _ := mret (Ok None);
  node_pod_exists _ n := λ d, (Ok (bool_decide (n ∈ jobs d)), d);
  start_pod_watcher _ _ := mret true;
  list_managed_run_ids := mret (Ok []);
}.

#[export] Instance libraries : Libraries := {| node_to_json n := Ok (ni_name n); from_timestamp s _ := Some s |}.
#[export] Existing Instance canonical_order.

Definition node (name : string) (deps : list string) : PipelineNode :=
  mkNode name None None None None deps ∅ (mkSecrets [] []) [] false None None None ∅.
Definition pipeline (fail_fast : bool) : Pipeline :=
  mkPipeline "ci" None (Some fail_fast) None ∅ (mkSecrets [] []) [node "a" []; node "b" ["a"]; node "c" []].
Definition config : AppConfig := with_limits 3600 600 120 false 30.
Definition context : RunContext :=
  mkRunContext "acme" "app" "abc" None None None None "push" "yaml" 0 None None None.
Definition history : NoOpRunHistory := NoOp.

(** A server crashed after creating the job of [b], before saving that. *)
Definition saved (b c : NodeStatus) : RunState :=
  mkRunState 3 {["a" := Success; "b" := b; "c" := c]} {["a" := []; "b" := ["a"]; "c" := []]} (pipeline false).
Definition store_with (st : RunState) : InMemoryStateStore := mkStore {["r" := st]} ∅ 7.
Definition cluster : Cluster :=
  mkCluster {["b"; "c"]} {["b" := InProgress 1000; "c" := Completed true None 2000]}.

Definition start (server : string) (store : InMemoryStateStore) (d : Cluster)
  : option (Coordinator InMemoryStateStore Cluster NoOpRunHistory) * (InMemoryStateStore * Cluster * NoOpRunHistory) :=
  start_coordinator "r" server (pipeline false) config true context 5000 store d history.

(** Rehydration folds the completions seen in S3 before it promotes the
    nodes that S3 shows as started. A restarted coordinator therefore dispatches
    such a node a second time when another node has completed meanwhile; the
    cluster refuses the job it already runs, and a run whose nodes were all
    healthy ends as a failure. *)
Theorem rehydration_fails_healthy_node :
  match start "s2" (store_with (saved Pending Running)) cluster with
  | (Some c, _) =>
      match run_coordinator true [] c with
      | (Some s, c') => summary_status s = RsFailure ∧ summary_nodes s !! "c" = Some Success ∧
          summary_nodes s !! "b" = Some Failed ∧ dispatched (trace c') = ["b"]
      | _ => False
      end
  | _ => False
  end.
Proof. vm_compute. done. Qed.

(** ** Witnesses *)

Abbreviation ExCo := (Coordinator InMemoryStateStore Cluster NoOpRunHistory).

Definition const0 : CoordinatorConst :=
  mkConst "r" (pipeline false) config (collect_map ni_name id (node_info (pipeline false))) 7 "s1" context true false.
(** [a] has succeeded, [b] and [c] have the given statuses. *)
Definition coord (b c : NodeStatus) (version : Z) (store : InMemoryStateStore) : ExCo :=
  mkCoordinator const0 (from_run_state (saved b c))
    {["b" := spawn_startup_timeout "b" 120; "c" := spawn_runtime_timeout config "c" None]}
    version true store (mkCluster {["b"; "c"]} ∅) history 5000 [].

Lemma waiting_is_never_stuck_witness :
  ∃ c w c', start "s1" InMemory.new (mkCluster ∅ ∅) = (Some c, w) ∧ run_coordinator true [] c = (None, c') ∧
    is_complete (run c') = false.
Proof.
  assert (match (start "s1" InMemory.new (mkCluster ∅ ∅)).1 with
          | Some c => bool_decide (is_Some (run_coordinator true [] c).1) | None => true end = false) as Hnone by (vm_compute; reflexivity).
  destruct (start "s1" InMemory.new (mkCluster ∅ ∅)) as [[c|] w] eqn:Hs; [|discriminate Hnone].
  exists c, w. cbn [fst] in Hnone. destruct (run_coordinator true [] c) as [[s|] c'] eqn:Hrun; [discriminate Hnone|].
  exists c'. split; [reflexivity|]. split; [reflexivity|]. assert (s3_reconcile_interval_secs config ≠ 0%Z) as Hi by (vm_compute; discriminate).
  exact (proj1 (proj2 (waiting_is_never_stuck "r" "s1" (pipeline false) config true context 5000 InMemory.new (mkCluster ∅ ∅) history
    c w true [] c' Hs Hi Hrun))).
Defined.

Definition tick (e : LoopEvent) : Tick (S:=InMemoryStateStore) (D:=Cluster) (H:=NoOpRunHistory) := mkTick id id id 1000 e.

(** A run from its creation: the pods of [a] and [c] do not start in time. *)
Definition started : ExCo :=
  match (start "s1" InMemory.new (mkCluster ∅ ∅)).1 with Some c => c | None => coord Pending Pending 0 InMemory.new end.
Definition waiting : ExCo := (run_coordinator true [] started).2.
Definition late_a := tick (Internal (NodePodStartTimedOut "a")).
Definition look := tick S3Reconcile.
Definition late_c := tick (Internal (NodePodStartTimedOut "c")).
Definition after_step (t : Tick) (c : ExCo) : ExCo := (loop_step (tick_event t) (pass_time t c).2).2.


Lemma timers_end_the_run_witness :
  ∃ s, (event_loop [tick (Internal (NodePodStartTimedOut "b")); tick (Internal (NodeTimedOut "c"));
                    tick (Internal (NodeTimedOut "c"))] (coord Running Running 3 (store_with (saved Running Running)))).1 = Some s.
Proof.
  pose (c0 := coord Running Running 3 (store_with (saved Running Running))).
  assert (loop_inv c0) as Hinv.
  { split; [|vm_compute; reflexivity..]. intros n Hn. unfold c0, coord, saved, from_run_state in *. cbn in Hn.
    apply lookup_insert_Some in Hn as [[<- Hn]|[_ Hn]]; [discriminate Hn|].
    apply lookup_insert_Some in Hn as [[<- _]|[_ Hn]]; [exists (spawn_startup_timeout "b" 120); split; [reflexivity|right; reflexivity]|].
    apply lookup_singleton_Some in Hn as [<- _]. exists (spawn_runtime_timeout config "c" None). split; [reflexivity|left; reflexivity]. }
  apply (timers_end_the_run _ c0 Hinv); [|vm_compute; lia].
  apply (driven_step _ _ _ "b" (spawn_startup_timeout "b" 120)); [reflexivity..|].
  intros c1 Hc1. assert (statuses (run c1) !! "c" = Some Running ∧ node_phase_handles c1 !! "c" = Some (spawn_runtime_timeout config "c" None)) as [H1 H2].
  { vm_compute in Hc1. injection Hc1 as <-. split; vm_compute; reflexivity. }
  apply (driven_step _ _ _ "c" (spawn_runtime_timeout config "c" None)); [exact H1|exact H2|reflexivity|].
  intros c2 Hc2. exfalso. vm_compute in Hc1. injection Hc1 as <-. vm_compute in Hc2. discriminate Hc2.
Defined.

Lemma failure_stops_iff_witness :
  (handle_node_timed_out "c" (coord Success Running 3 (store_with (saved Success Running)))).1 = false.
Proof.
  pose (c0 := coord Success Running 3 (store_with (saved Success Running))).
  pose proof (failure_stops_iff "c" NodeLost c0 (handle_node_timed_out "c") (list_elem_of_here _ _)) as Hf.
  assert (statuses (run c0) !! "c" = Some Running) as Hn by (vm_compute; reflexivity).
  rewrite Hn in Hf. refine (eq_trans (proj2 Hf) _). vm_compute. reflexivity.
Defined.

Lemma late_completion_erases_failure_code_witness :
  ∃ record, RecordNodeRun record ∈
      trace (loop_step (FromBackplane (Some (NodeCompleted "c" false))) (coord Success Failed 3 (store_with (saved Success Failed)))).2 ∧
    nr_failure_reason record = None.
Proof.
  pose (c0 := coord Success Failed 3 (store_with (saved Success Failed))).
  assert (statuses (run c0) !! "c" = Some Failed) as Hn by (vm_compute; reflexivity).
  assert (save_accepted c0 = true) as Hs by (vm_compute; reflexivity).
  destruct (late_completion_erases_failure_code "c" c0 Hn Hs) as (r & Hr & _ & _ & Hnone).
  exists r. split; [exact Hr|exact Hnone].
Defined.

Lemma persist_state_is_cas_witness :
  let c := coord Success Running 3 (store_with (saved Success Running)) in
  is_ok (persist_state c).1 = true ∧ state_version (persist_state c).2 = 4%Z.
Proof.
  pose (c0 := coord Success Running 3 (store_with (saved Success Running))).
  assert (version_ok (state_version c0)) as Hv by (by split).
  assert (version_ok (u64_add (state_version c0) 1)) as Hv' by (by split).
  pose proof (persist_state_is_cas c0 I Hv Hv') as Hp. cbv zeta in *. fold c0. cbv zeta in Hp.
  assert (is_ok (persist_state c0).1 = true) as Hr by (vm_compute; reflexivity).
  destruct (persist_state c0) as [[u|e] c']; [|discriminate Hr]. split; [reflexivity|].
  destruct Hp as (_ & _ & (_ & _ & Hnext) & _). exact Hnext.
Defined.

Lemma start_takes_the_lease_witness :
  ∃ c store d h, start "s1" (store_with (saved Pending Running)) cluster = (Some c, (store, d, h)) ∧
    leases_of store !! "r" = Some (mkLease 8 "s1").
Proof.
  assert (match (start "s1" (store_with (saved Pending Running)) cluster).1 with
          | Some c => c_lease_version (const c) | None => 0%Z end = 8%Z) as Hv by (vm_compute; reflexivity).
  destruct (start "s1" (store_with (saved Pending Running)) cluster) as [[c|] [[store d] h]] eqn:Hs; [|discriminate Hv].
  exists c, store, d, h. split; [reflexivity|].
  assert (store_ok (store_with (saved Pending Running))) as Hok by exact I.
  destruct (start_takes_the_lease "r" "s1" (pipeline false) config true context 5000
    (store_with (saved Pending Running)) cluster history c store d h Hok Hs) as (_ & Hl & _).
  - change (c_lease_version (const c) = 8%Z) in Hv. rewrite Hv. by split.
  - change (c_lease_version (const c) = 8%Z) in Hv. rewrite Hv in Hl. exact Hl.
Defined.

Lemma overtaken_coordinator_destroys_run_witness :
  let store := mkStore {["r" := saved Success Running]} {["r" := mkEntry "s2" 8]} 8 in
  let c' := (loop_step (FromBackplane (Some (NodeCompleted "b" true))) (coord Running Running 2 store)).2 in
  runs (state_store c') !! "r" = None ∧ leases (state_store c') !! "r" = None.
Proof.
  pose (store := mkStore {["r" := saved Success Running]} {["r" := mkEntry "s2" 8]} 8).
  pose (c0 := coord Running Running 2 store).
  pose proof (overtaken_coordinator_destroys_run "b" true c0 (saved Success Running) (mkEntry "s2" 8)) as Hz.
  assert (runs (state_store c0) !! c_run_id (const c0) = Some (saved Success Running)) as H1 by (vm_compute; reflexivity).
  assert (leases (state_store c0) !! c_run_id (const c0) = Some (mkEntry "s2" 8)) as H2 by (vm_compute; reflexivity).
  assert (rs_version (saved Success Running) ≠ state_version c0) as H3 by discriminate.
  assert (le_server_id (mkEntry "s2" 8) ≠ c_server_id (const c0)) as H4 by discriminate.
  specialize (Hz H1 H3 H2 H4). cbv zeta. fold store c0.
  destruct (loop_step (FromBackplane (Some (NodeCompleted "b" true))) c0) as [flow c']. exact (proj2 (proj2 Hz)).
Defined.
End Example.
