(* ===== verification/Reaper.v ===== *)
(** * The reaper (coordinator/src/reaper.rs)

    The background task that resumes runs whose coordinator died and removes
    what finished runs left behind: the scan for orphaned runs, the sweep of
    terminal run states, the reconciliation of unfinished rows in Postgres, and
    the sweep of cluster objects without run state. A pass acts on the store,
    the dispatcher and the history as it finds them; other servers act between
    passes. The coordinators it starts are collected in [w_started]. *)

From S2P Require Import Prelude AppConfig Pipeline StateStore Run SourceManager PodWatcher RunHistory Dispatcher Backplane Coordinator.

Inductive ReaperEffect :=
| Cleaned (run_id : string)
| StateDeleted (run_id : string)
| StatusFinalized (run_id : string) (status : RunStatus) (r : result RunHistoryError bool).

Record World (S D H : Type) := mkWorld {
  w_store : S; w_dispatcher : D; w_history : H;
  w_reads : nat;
  w_started : list (Coordinator S D H);
  w_log : list ReaperEffect;
}.
Arguments mkWorld {S D H}. Arguments w_store {S D H}. Arguments w_dispatcher {S D H}. Arguments w_history {S D H}.
Arguments w_reads {S D H}. Arguments w_started {S D H}. Arguments w_log {S D H}.

Definition run_context_from_row (row : PipelineRunRow) : RunContext :=
  let d := row_details row in
  mkRunContext (rd_owner d) (rd_repo d) (rd_sha d) (rd_branch d) (rd_target_branch d) (rd_tag d) (rd_pr_number d)
    (rd_trigger d) (rd_pipeline_definition d) (rd_created_at d) (rd_retry_of d) (rd_tenant_slug d) (rd_github_check_run_id d).

Definition outcome_status_for `{HashOrder} (state : RunState) : RunStatus :=
  if bool_decide (Forall (λ s, s = Success) (hash_values (rs_statuses state))) then RsSuccess else RsFailure.

Definition status_of_row (row : option NodeRunRow) : NodeStatus :=
  match row with
  | None => Pending
  | Some nr => match nrow_success nr with Some true => Success | Some false => Failed | None => Running end
  end.

Definition reconstruct_run_state_from_postgres (pipeline : Pipeline) (node_runs_by_name : gmap string NodeRunRow) : RunState :=
  let nodes := node_info pipeline in
  mkRunState 0 (collect_map ni_name (λ n, status_of_row (node_runs_by_name !! ni_name n)) nodes)
    (collect_map ni_name ni_dependencies nodes) pipeline.

Section reaper.
Context {S D H : Type} `{SS : StateStore S, DD : Dispatcher D, RH : RunHistory H, HO : HashOrder, LB : Libraries}.
(** The YAML parser, the settings, whether runs get a status reporter, fresh
    server ids, and the clock. *)
Variables (parse : string → result string Pipeline) (config : AppConfig).
Variable status_reporter_factory : option (RunContext → bool).
Variables (new_uuid : nat → string) (clock : nat → Z).
Abbreviation W := (World S D H).

Definition on_store {A} (f : M S A) : M W A := λ w,
  let '(a, s) := f (w_store w) in (a, mkWorld s (w_dispatcher w) (w_history w) (w_reads w) (w_started w) (w_log w)).
Definition on_dispatcher {A} (f : M D A) : M W A := λ w,
  let '(a, d) := f (w_dispatcher w) in (a, mkWorld (w_store w) d (w_history w) (w_reads w) (w_started w) (w_log w)).
Definition on_history {A} (f : M H A) : M W A := λ w,
  let '(a, h) := f (w_history w) in (a, mkWorld (w_store w) (w_dispatcher w) h (w_reads w) (w_started w) (w_log w)).
(** [Utc::now()] and [Uuid::new_v4()] *)
Definition now : M W Z := λ w,
  (clock (w_reads w), mkWorld (w_store w) (w_dispatcher w) (w_history w) (Datatypes.S (w_reads w)) (w_started w) (w_log w)).
Definition log (e : ReaperEffect) : M W unit := λ w,
  ((), mkWorld (w_store w) (w_dispatcher w) (w_history w) (w_reads w) (w_started w) (w_log w ++ [e])).

Definition for_run (rc : RunContext) : bool := match status_reporter_factory with Some factory => factory rc | None => false end.

(** [start_coordinator(..).await]: the task runs from here on by itself. *)
Definition start (run_id : string) (pipeline : Pipeline) (rc : RunContext) : M W unit := λ w,
  let '(t, w) := now w in
  let '(c, (s, d, h)) := start_coordinator run_id (new_uuid (w_reads w)) pipeline config (for_run rc) rc t
                           (w_store w) (w_dispatcher w) (w_history w) in
  ((), mkWorld s d h (w_reads w) (w_started w ++ match c with Some c => [c] | None => [] end) (w_log w)).

Definition clean_up (run_id : string) : M W unit := _ ← on_dispatcher (cleanup_run run_id); log (Cleaned run_id).
Definition delete_state (run_id : string) : M W unit := _ ← on_store (delete_run run_id); log (StateDeleted run_id).

(** ** Orphaned runs *)

Definition finalize_unrecoverable_orphan (run_id : string) : M W unit :=
  _ ← clean_up run_id;
  _ ← on_store (release_lease run_id);
  delete_state run_id.

Definition reclaim_run (run_id : string) : M W unit :=
  loaded ← on_store (load_run run_id);
  match loaded with
  | Ok None | Err _ => mret ()
  | Ok (Some _) =>
      row ← on_history (get_pipeline_run run_id);
      match row with
      | Ok None => finalize_unrecoverable_orphan run_id
      | Err _ => mret ()
      | Ok (Some pipeline_row) =>
          loaded ← on_store (load_run run_id);
          match loaded with
          | Ok None | Err _ => mret ()
          | Ok (Some run_state) => start run_id (rs_pipeline run_state) (run_context_from_row pipeline_row)
          end
      end
  end.

Definition reclaim_orphaned_runs : M W unit :=
  orphaned ← on_store get_orphaned_runs;
  match orphaned with
  | Err _ => mret ()
  | Ok runs => for_each runs reclaim_run
  end.

(** ** Terminal run states *)

(** [None]: deferred to the next sweep. *)
Definition finalize_status (run_id : string) (status : RunStatus) : M W bool :=
  t ← now;
  r ← on_history (finalize_pipeline_run_status run_id status t);
  _ ← log (StatusFinalized run_id status r);
  mret (is_ok r).

Definition reap_terminal_run (run_id : string) : M W unit :=
  loaded ← on_store (load_run run_id);
  match loaded with
  | Err _ => mret ()
  | Ok outcome =>
      recorded ← match outcome with
                 | Some state => finalize_status run_id (outcome_status_for state)
                 | None => mret true
                 end;
      if (recorded : bool) then
        _ ← clean_up run_id;
        _ ← on_store (release_lease run_id);
        delete_state run_id
      else mret ()
  end.

Definition sweep_terminal_redis_runs : M W unit :=
  terminal ← on_store list_terminal_unleased_runs;
  match terminal with
  | Err _ => mret ()
  | Ok runs => for_each runs reap_terminal_run
  end.

(** ** Unfinished rows *)

Definition ms_to_datetime (ms : Z) : option Z :=
  secs ← try_i64 (ms / 1000); nanos ← try_u32 ((ms `mod` 1000) * 1000000); from_timestamp secs nanos.

(** The update of one node's row from its status object. *)
Definition reconcile_node (run_id : string) (by_name : gmap string NodeRunRow) (node_name : string)
  : M W (gmap string NodeRunRow) :=
  match by_name !! node_name with
  | None => mret by_name
  | Some existing =>
      if bool_decide (is_Some (nrow_success existing)) then mret by_name
      else
        r ← on_dispatcher (get_node_outcome run_id node_name);
        match r with
        | Ok None | Err _ => mret by_name
        | Ok (Some outcome) =>
            match no_success outcome, no_finished_at outcome with
            | Some success, Some finished_ms =>
                let started_at := no_started_at outcome ≫= ms_to_datetime in
                let completed_at := ms_to_datetime finished_ms in
                r ← on_history (record_node_run (mkNodeRun run_id node_name (nrow_node_definition existing) success
                      (nrow_created_at existing) started_at completed_at None None));
                match r with
                | Err _ => mret by_name
                | Ok _ => mret (<[node_name := mkNodeRow (nrow_id existing) (nrow_run_id existing) (nrow_node_name existing)
                    (nrow_node_definition existing) (Some success) (nrow_created_at existing) started_at completed_at
                    (nrow_failure_reason existing)]> by_name)
                end
            | _, _ => mret by_name
            end
        end
  end.

Fixpoint reconcile_nodes (run_id : string) (by_name : gmap string NodeRunRow) (nodes : list string)
  : M W (gmap string NodeRunRow) :=
  match nodes with
  | [] => mret by_name
  | n :: nodes => by_name ← reconcile_node run_id by_name n; reconcile_nodes run_id by_name nodes
  end.

Definition node_success (by_name : gmap string NodeRunRow) (n : string) : option bool := by_name !! n ≫= nrow_success.

Definition reconcile_postgres_in_progress_run (run_id : string) (row : PipelineRunRow) : M W (result RunHistoryError unit) :=
  match from_yaml parse (rd_pipeline_definition (row_details row)) with
  | Err _ => mret (Ok ())
  | Ok pipeline =>
      let expected := ni_name <$> node_info pipeline in
      node_runs ←? on_history (list_node_runs run_id);
      by_name ← reconcile_nodes run_id (collect_map nrow_node_name id node_runs) expected;
      let all_known := forallb (λ n, bool_decide (is_Some (node_success by_name n))) expected in
      if all_known then
        let all_success := forallb (λ n, bool_decide (node_success by_name n = Some true)) expected in
        _ ← finalize_status run_id (if all_success then RsSuccess else RsFailure);
        _ ← clean_up run_id;
        mret (Ok ())
      else
        let reconstructed := reconstruct_run_state_from_postgres pipeline by_name in
        saved ← on_store (save_run run_id reconstructed 0);
        match saved with
        | Ok true => _ ← start run_id pipeline (run_context_from_row row); mret (Ok ())
        | Ok false | Err _ => mret (Ok ())
        end
  end.

(** The counters of the log line are left out. *)
Definition sweep_in_progress_row (row : PipelineRunRow) : M W unit :=
  let run_id := row_run_id row in
  loaded ← on_store (load_run run_id);
  match loaded with
  | Ok (Some _) | Err _ => mret ()
  | Ok None => _ ← reconcile_postgres_in_progress_run run_id row; mret ()
  end.

Definition sweep_postgres_in_progress_runs : M W unit :=
  in_progress ← on_history list_in_progress_runs;
  match in_progress with
  | Err _ => mret ()
  | Ok rows => for_each rows sweep_in_progress_row
  end.

(** ** Cluster objects *)

Definition reap_managed_run (run_id : string) : M W unit :=
  loaded ← on_store (load_run run_id);
  match loaded with
  | Ok (Some _) => mret ()
  | Ok None => clean_up run_id
  | Err _ => _ ← clean_up run_id; delete_state run_id
  end.

Definition sweep_orphan_kube_resources : M W unit :=
  managed ← on_dispatcher list_managed_run_ids;
  match managed with
  | Err _ => mret ()
  | Ok ids => for_each ids reap_managed_run
  end.

(** ** The task *)

Definition sweep_stranded_resources : M W unit :=
  _ ← sweep_terminal_redis_runs; _ ← sweep_postgres_in_progress_runs; sweep_orphan_kube_resources.

Definition LEASE_RECLAIM_INTERVAL_SECS : Z := 60.
Definition RESOURCE_SWEEP_INTERVAL_SECS : Z := 300.

Inductive ReaperTick := LeaseTick | SweepTick.

(** Between two passes the other servers and the coordinators move on. *)
Definition pass (t : (W → W) * ReaperTick) : M W unit := λ w,
  match t.2 with LeaseTick => reclaim_orphaned_runs (t.1 w) | SweepTick => sweep_stranded_resources (t.1 w) end.

Definition start_reaper (ticks : list ((W → W) * ReaperTick)) : M W unit :=
  _ ← reclaim_orphaned_runs;
  _ ← sweep_stranded_resources;
  for_each ticks pass.
End reaper.
