(* ===== verification/ReaperTheorems.v ===== *)
(** * What the reaper does

    The effect of each sweep on the stored runs, proved against the contract of
    the state store: which runs are resumed and from what, and which states are
    deleted. The witnesses run the sweeps on the in-memory store, and on Redis
    where a lost answer matters. *)

From S2P Require Import Prelude AppConfig Pipeline StateStore RedisStore Run SourceManager PodWatcher RunHistory Dispatcher KubeDispatcher Backplane Coordinator CoordinatorFacts Reaper.

Section sweeps.
Context {S D H : Type} `{SPEC : StateStoreSpec S, DD : Dispatcher D, RH : RunHistory H, HO : HashOrder, LB : Libraries}.
Context (parse : string → result string Pipeline) (config : AppConfig) (factory : option (RunContext → bool)).
Context (new_uuid : nat → string) (clock : nat → Z).
Abbreviation W := (World S D H).
Abbreviation Co := (Coordinator S D H).
#[local] Abbreviation id_of c := (c_run_id (const c)) (only parsing).

(** ** Calls that leave the store alone *)

Record store_kept (w w' : W) : Prop := {
  sk_store : w_store w' = w_store w;
  sk_started : w_started w' = w_started w;
}.
#[export] Instance store_kept_preorder : PreOrder store_kept.
Proof. split; [by split|]. intros w1 w2 w3 [? ?] [? ?]. split; congruence. Qed.

Lemma kept_on_dispatcher {A} (f : M D A) : preserves store_kept (on_dispatcher f).
Proof. intros w. unfold on_dispatcher. by destruct (f (w_dispatcher w)). Qed.
Lemma kept_on_history {A} (f : M H A) : preserves store_kept (on_history f).
Proof. intros w. unfold on_history. by destruct (f (w_history w)). Qed.
Lemma kept_now : preserves store_kept (now clock).
Proof. by intros w. Qed.
Lemma kept_log e : preserves store_kept (log e).
Proof. by intros w. Qed.
Lemma kept_clean_up r : preserves store_kept (clean_up r).
Proof. apply preserves_bind; [exact _|apply kept_on_dispatcher|intros _; apply kept_log]. Qed.
Lemma kept_finalize_status r st : preserves store_kept (finalize_status clock r st).
Proof.
  apply preserves_bind; [exact _|apply kept_now|intros t]. apply preserves_bind; [exact _|apply kept_on_history|intros b].
  apply preserves_bind; [exact _|apply kept_log|intros _]. by apply preserves_ret; exact _.
Qed.

(** A call on the store, seen from the world. *)
Lemma on_store_spec {A} (f : M S A) (w : W) :
  (on_store f w).1 = (f (w_store w)).1 ∧ w_store (on_store f w).2 = (f (w_store w)).2 ∧
  w_started (on_store f w).2 = w_started w ∧ w_history (on_store f w).2 = w_history w ∧ w_log (on_store f w).2 = w_log w.
Proof. unfold on_store. by destruct (f (w_store w)). Qed.

(** ** One run at a time *)

(** Nothing changes for the runs outside a set. *)
Record confined (P : string → Prop) (s s' : S) : Prop := {
  cf_ok : store_ok s';
  cf_runs : ∀ r, ¬ P r → runs_of s' !! r = runs_of s !! r;
  cf_leases : ∀ r, ¬ P r → leases_of s' !! r = leases_of s !! r;
}.

(** A coordinator that goes on with a stored run: from its statuses, edges and
    version; or from the beginning, if in a store that held that run and the
    coordinator's lease the read of the run failed. *)
Definition continues (c : Co) (st : RunState) : Prop :=
  (statuses (run c) = rs_statuses st ∧ dependencies (run c) = list_to_set <$> rs_dependencies st ∧
   state_version c = rs_version st) ∨
  (run c = new_run (node_info (rs_pipeline st)) ∧ state_version c = 0%Z ∧
   ∃ s, runs_of s !! id_of c = Some st ∧ read_failed c s).

Record resumes (s s' : S) (c : Co) (st : RunState) : Prop := {
  res_stored : runs_of s !! id_of c = Some st;
  res_kept : runs_of s' !! id_of c = Some st;
  res_free : leases_of s !! id_of c = None;
  res_held : version_ok (c_lease_version (const c)) →
    leases_of s' !! id_of c = Some (mkLease (c_lease_version (const c)) (c_server_id (const c)));
  res_pipeline : c_pipeline (const c) = rs_pipeline st;
  res_continues : continues c st;
}.

Lemma confined_refl P s : store_ok s → confined P s s.
Proof. by split. Qed.
Lemma confined_trans (P Q R : string → Prop) s1 s2 s3 :
  (∀ r, P r → R r) → (∀ r, Q r → R r) → confined P s1 s2 → confined Q s2 s3 → confined R s1 s3.
Proof.
  intros HP HQ [_ R1 L1] [Ok R2 L2]. split; [done|intros r Hr..].
  - rewrite R2, R1; auto.
  - rewrite L2, L1; auto.
Qed.

Lemma confined_load q s P : store_ok s →
  confined P s (load_run q s).2 ∧ runs_of (load_run q s).2 = runs_of s ∧ leases_of (load_run q s).2 = leases_of s ∧
  ∀ o, (load_run q s).1 = Ok o → o = runs_of s !! q.
Proof.
  intros Hok. pose proof (load_run_spec q s Hok) as Hl. destruct (load_run q s) as [r s'].
  destruct Hl as (Hok' & Hr & Hl & Ho). simpl. split; [split; [done|by rewrite Hr|by rewrite Hl]|].
  split; [done|split; [done|]]. by intros o ->.
Qed.

Lemma confined_delete q s : store_ok s → confined (λ r, r = q) s (delete_run q s).2.
Proof.
  intros Hok. pose proof (delete_run_spec q s Hok) as Hd. destruct (delete_run q s) as [o s'].
  destruct Hd as (Hok' & Hl & Hr). simpl. split; [done| |by rewrite Hl]. intros r Hne.
  destruct o; [rewrite Hr|destruct Hr as [->| ->]; [done|]]; by rewrite lookup_delete_ne.
Qed.

Lemma confined_release q s : store_ok s →
  confined (λ r, r = q) s (release_lease q s).2 ∧ runs_of (release_lease q s).2 = runs_of s.
Proof.
  intros Hok. pose proof (release_lease_spec q s Hok) as Hd. destruct (release_lease q s) as [o s'].
  destruct Hd as (Hok' & Hr & Hl). simpl. split; [|done]. split; [done|by rewrite Hr|]. intros r Hne.
  destruct o; [rewrite Hl|destruct Hl as [->| ->]; [done|]]; by rewrite lookup_delete_ne.
Qed.

(** Releasing and deleting, the end of a run's data. *)
Lemma confined_remove q (w : W) : store_ok (w_store w) →
  let w' := ((_ ← on_store (release_lease q); delete_state q) w).2 in
  confined (λ r, r = q) (w_store w) (w_store w') ∧ w_started w' = w_started w ∧ w_history w' = w_history w.
Proof.
  intros Hok. rewrite bind_eq. destruct (on_store_spec (release_lease q) w) as (_ & E1 & St1 & H1 & _).
  destruct (confined_release q (w_store w) Hok) as [C1 _].
  destruct (on_store (release_lease q) w) as [x w1]. simpl in *. unfold delete_state. rewrite bind_eq.
  destruct (on_store_spec (delete_run q) w1) as (_ & E2 & St2 & H2 & _).
  destruct (on_store (delete_run q) w1) as [y w2]. simpl in *. rewrite E2, St2, H2. split; [|by rewrite St1, H1].
  eapply (confined_trans (λ r, r = q) (λ r, r = q)); [done|done|exact C1|]. rewrite <- E1. apply confined_delete.
  rewrite E1. apply (cf_ok _ _ _ C1).
Qed.

(** Starting a coordinator for a run whose state was just read. *)
Lemma start_resumes q st rc (w : W) : store_ok (w_store w) → runs_of (w_store w) !! q = Some st →
  let w' := (start config factory new_uuid clock q (rs_pipeline st) rc w).2 in
  confined (λ r, r = q) (w_store w) (w_store w') ∧
  (∀ r st', runs_of (w_store w) !! r = Some st' → runs_of (w_store w') !! r = Some st') ∧
  ∃ new, w_started w' = w_started w ++ new ∧ (new = [] ∨ ∃ c, new = [c] ∧ id_of c = q) ∧
    ∀ c, c ∈ new → resumes (w_store w) (w_store w') c st.
Proof.
  intros Hok Hst. unfold start. cbn [now].
  destruct (start_coordinator _ _ _ _ _ _ _ _ _ _) as [c [[s d] h]] eqn:Hs.
  apply start_spec in Hs as (Hok' & Hkeep & Hoth & Hc); [|done]. cbn in *. split; [split; [done|intros r Hr; by apply Hoth..]|].
  split; [done|]. eexists. split; [done|]. destruct c as [c|]; [|split; [by left|set_solver]].
  destruct (Hc c) as (Hfree & Hid & Hp & Hsv & Hl & Hcont); [done|]. split; [right; by exists c|].
  intros c0 ->%list_elem_of_singleton. split; rewrite ?Hid, ?Hsv; auto. unfold continues.
  destruct (c_is_rehydrate (const c)).
  - destruct Hcont as (st' & Hst' & Hrun & Hv). simplify_eq. left. by rewrite Hrun.
  - destruct Hcont as (Hrun & Hv & Hs1 & [?|Hfail]); [congruence|]. right. split; [done|]. split; [done|].
    eexists. split; [|exact Hfail]. by rewrite Hs1, Hid.
Qed.

(** ** Composition *)

(** What a sweep does to the runs of a set: it starts at most one coordinator
    for each, which resumes the run, and touches no other run. *)
Record advances (P : string → Prop) (w w' : W) : Prop := {
  adv_confined : confined P (w_store w) (w_store w');
  adv_started : ∃ new, w_started w' = w_started w ++ new ∧ NoDup ((λ c, id_of c) <$> new) ∧
    ∀ c, c ∈ new → P (id_of c) ∧ ∃ st, resumes (w_store w) (w_store w') c st;
}.

Lemma advances_quiet P (w w' : W) : confined P (w_store w) (w_store w') → w_started w' = w_started w → advances P w w'.
Proof. intros Hc Hs. split; [done|]. exists []. rewrite app_nil_r. split; [done|]. split; [constructor|set_solver]. Qed.

Lemma resumes_then (P : string → Prop) s1 s2 s3 c st : confined P s2 s3 → ¬ P (id_of c) → resumes s1 s2 c st → resumes s1 s3 c st.
Proof.
  intros [_ Hr Hl] HP [? ? ? ? ? ?]. split; try done; [by rewrite Hr|]. intros Hv. rewrite Hl; auto.
Qed.
Lemma resumes_after (P : string → Prop) s1 s2 s3 c st : confined P s1 s2 → ¬ P (id_of c) → resumes s2 s3 c st → resumes s1 s3 c st.
Proof.
  intros [_ Hr Hl] HP [H1 ? H3 ? ? ?]. split; try done; [by rewrite <- Hr|by rewrite <- Hl].
Qed.

Lemma advances_trans (P Q : string → Prop) (w1 w2 w3 : W) : (∀ r, P r → ¬ Q r) →
  advances P w1 w2 → advances Q w2 w3 → advances (λ r, P r ∨ Q r) w1 w3.
Proof.
  intros Hdis [C1 (n1 & S1 & N1 & R1)] [C2 (n2 & S2 & N2 & R2)]. split.
  - by apply (confined_trans P Q _ _ (w_store w2)); auto.
  - exists (n1 ++ n2). rewrite S2, S1, <- app_assoc. split; [done|]. split.
    + rewrite fmap_app. apply NoDup_app. split; [done|]. split; [|done].
      intros r (c & -> & [HP _]%R1)%list_elem_of_fmap (c' & E & [HQ _]%R2)%list_elem_of_fmap.
      apply (Hdis (id_of c)); [done|]. by rewrite E.
    + intros c [Hc|Hc]%elem_of_app.
      * destruct (R1 c Hc) as [HP [st Hst]]. split; [by left|]. exists st. eapply resumes_then; eauto.
      * destruct (R2 c Hc) as [HQ [st Hst]]. split; [by right|]. exists st. eapply (resumes_after P); eauto.
        intros HP. by apply (Hdis (id_of c)).
Qed.

Lemma advances_mono (P Q : string → Prop) (w w' : W) : (∀ r, P r → Q r) → advances P w w' → advances Q w w'.
Proof.
  intros HPQ [C (n & Hs & Hn & Hr)]. split.
  { destruct C as [? Cr Cl]. split; auto. }
  exists n. split; [done|]. split; [done|]. intros c [HP Hst]%Hr. by split; [apply HPQ|].
Qed.

Lemma advances_for_each (body : string → M W unit) l (w : W) :
  (∀ q w, store_ok (w_store w) → advances (λ r, r = q) w (body q w).2) →
  NoDup l → store_ok (w_store w) → advances (λ r, r ∈ l) w (for_each l body w).2.
Proof.
  intros Hbody Hnd. revert w. induction Hnd as [|q l Hq Hnd IH]; intros w Hok.
  - by apply advances_quiet; [apply confined_refl|].
  - cbn [for_each]. rewrite bind_eq. specialize (Hbody q w Hok). eapply advances_mono, advances_trans; [| |exact Hbody|].
    + intros r [->|Hr]; [apply elem_of_cons; by left|apply elem_of_cons; right; exact Hr].
    + intros r ->. exact Hq.
    + apply IH. apply (cf_ok _ _ _ (adv_confined _ _ _ Hbody)).
Qed.

(** A read of the store or a step beside it, before the rest of a program. *)
Lemma advances_kept {A} P (m : M W A) (f : A → M W unit) (w : W) : preserves store_kept m →
  (∀ w', store_kept w w' → advances P w' (f (m w).1 w').2) → advances P w ((m ≫= f) w).2.
Proof.
  intros Hm Hf. rewrite bind_eq. specialize (Hm w) as K. specialize (Hf _ K). destruct K as [Es Et], Hf as [C Ad].
  split; [by rewrite <- Es|]. by rewrite <- Es, <- Et.
Qed.

Lemma advances_load P q (f : result StateStoreError (option RunState) → M W unit) (w : W) : store_ok (w_store w) →
  (∀ r w', store_ok (w_store w') → runs_of (w_store w') = runs_of (w_store w) →
     (∀ o, r = Ok o → o = runs_of (w_store w') !! q) → advances P w' (f r w').2) →
  advances P w ((on_store (load_run q) ≫= f) w).2.
Proof.
  intros Hok Hf. rewrite bind_eq. destruct (on_store_spec (load_run q) w) as (E1 & E2 & E3 & _ & _).
  destruct (confined_load q (w_store w) (λ _, False) Hok) as (C & Hr & _ & Ho). rewrite <- E2 in C, Hr.
  destruct (Hf (on_store (load_run q) w).1 (on_store (load_run q) w).2) as [C' (n & Hs & Hn & Hres)].
  - apply (cf_ok _ _ _ C).
  - done.
  - rewrite E1. intros o Hl. rewrite Hr. by apply Ho.
  - split; [eapply (confined_trans (λ _, False) P); [|done|exact C|exact C']; done|].
    exists n. rewrite Hs, E3. split; [done|]. split; [done|]. intros c Hc. destruct (Hres c Hc) as [HP [st Hst]].
    split; [done|]. exists st. eapply (resumes_after (λ _, False)); eauto.
Qed.

(** ** The reclaim *)

#[local] Abbreviation reclaim := (reclaim_run config factory new_uuid clock).

Lemma reclaim_advances q (w : W) : store_ok (w_store w) → advances (λ r, r = q) w (reclaim q w).2.
Proof.
  intros Hok. unfold reclaim_run. apply advances_load; [done|]. intros r w1 Hok1 _ _.
  assert (advances (λ r, r = q) w1 w1) as Hid by (apply advances_quiet; [by apply confined_refl|done]).
  destruct r as [[st|]|e]; [|exact Hid..]. apply advances_kept; [apply kept_on_history|].
  intros w2 [E2 _]. rewrite <- E2 in Hok1. clear Hid.
  assert (advances (λ r, r = q) w2 w2) as Hid by (apply advances_quiet; [by apply confined_refl|done]).
  destruct (on_history _ w1) as [[[row|]|e] w1']; simpl; [|clear Hid|exact Hid].
  - apply advances_load; [done|]. intros r w3 Hok3 _ Hr.
    assert (advances (λ r, r = q) w3 w3) as Hid3 by (apply advances_quiet; [by apply confined_refl|done]).
    destruct r as [[st'|]|e]; [|exact Hid3..]. specialize (Hr _ eq_refl).
    destruct (start_resumes q st' (run_context_from_row row) w3 Hok3 (eq_sym Hr)) as (C & _ & n & Hs & Hn & Hres).
    split; [done|]. exists n. split; [done|]. destruct Hn as [->|(c & -> & Hc)]; [split; [constructor|set_solver]|].
    split; [apply NoDup_singleton|]. intros c0 Hin. split; [|eauto]. by apply list_elem_of_singleton in Hin as ->.
  - unfold finalize_unrecoverable_orphan. apply advances_kept; [apply kept_clean_up|]. intros w3 [E3 _].
    rewrite <- E3 in Hok1. destruct (confined_remove q w3 Hok1) as (C & Hs & _). by apply advances_quiet.
Qed.

(** The list a query returns. *)
Lemma query_spec (query : M S (result StateStoreError (list string))) terminal (w : W) :
  (∀ s, store_ok s → run_ids_ok (runs_of s) → let '(res, s') := query s in
     store_ok s' ∧ runs_of s' = runs_of s ∧ leases_of s' = leases_of s ∧
     match res with Ok l => lists_runs (runs_of s) terminal l | Err _ => True end) →
  store_ok (w_store w) → run_ids_ok (runs_of (w_store w)) →
  let '(res, w') := on_store query w in
  confined (λ _, False) (w_store w) (w_store w') ∧ w_started w' = w_started w ∧ w_history w' = w_history w ∧
  match res with Ok l => lists_runs (runs_of (w_store w)) terminal l | Err _ => True end.
Proof.
  intros Hspec Hok Hids. specialize (Hspec _ Hok Hids). unfold on_store. destruct (query (w_store w)) as [res s'].
  destruct Hspec as (Hok' & Hr & Hl & Hres). simpl. by split; [split; [done|by rewrite Hr|by rewrite Hl]|].
Qed.

(** A query and then a loop over its list. *)
Lemma query_advances (query : M S (result StateStoreError (list string))) terminal (body : string → M W unit) (w : W) :
  (∀ s, store_ok s → run_ids_ok (runs_of s) → let '(res, s') := query s in
     store_ok s' ∧ runs_of s' = runs_of s ∧ leases_of s' = leases_of s ∧
     match res with Ok l => lists_runs (runs_of s) terminal l | Err _ => True end) →
  (∀ q w, store_ok (w_store w) → advances (λ r, r = q) w (body q w).2) →
  store_ok (w_store w) → run_ids_ok (runs_of (w_store w)) →
  advances (λ r, ∃ st, runs_of (w_store w) !! r = Some st ∧ run_state_is_terminal st = terminal) w
    ((l ← on_store query; match l with Err _ => mret () | Ok l => for_each l body end) w).2.
Proof.
  intros Hspec Hbody Hok Hids. rewrite bind_eq. pose proof (query_spec _ _ w Hspec Hok Hids) as Hq.
  destruct (on_store query w) as [res w1]. simpl. destruct Hq as (C & Hs & _ & Hl).
  assert (advances (λ _, False) w w1) as A by by apply advances_quiet.
  destruct res as [l|e]; [|by eapply advances_mono; [|exact A]].
  destruct Hl as [Hnd Hl]. eapply advances_mono, (advances_trans (λ _, False) (λ r, r ∈ l)); [|done|exact A|].
  - intros r [[]|Hr]. by apply Hl.
  - apply advances_for_each; [done..|apply (cf_ok _ _ _ C)].
Qed.

(** C14: the reclaim starts at most one coordinator per run, each for a stored
    run that was neither finished nor leased; it drives the pipeline of the
    stored state, holds the lease afterwards, and goes on from the stored
    statuses, edges and version; or from the beginning, if the store answered
    its own read of that state, made under its lease, with an error. The state of every run it resumes is still stored, and finished
    runs and their leases are not touched. *)
Theorem reclaim_resumes_orphans (w : W) : store_ok (w_store w) → run_ids_ok (runs_of (w_store w)) →
  let w' := (reclaim_orphaned_runs config factory new_uuid clock w).2 in
  store_ok (w_store w') ∧
  (∀ r st, runs_of (w_store w) !! r = Some st → run_state_is_terminal st = true →
     runs_of (w_store w') !! r = Some st ∧ leases_of (w_store w') !! r = leases_of (w_store w) !! r) ∧
  ∃ new, w_started w' = w_started w ++ new ∧ NoDup ((λ c, id_of c) <$> new) ∧
    ∀ c, c ∈ new → ∃ st, run_state_is_terminal st = false ∧ resumes (w_store w) (w_store w') c st.
Proof.
  intros Hok Hids w'.
  destruct (query_advances get_orphaned_runs false reclaim w get_orphaned_runs_spec reclaim_advances Hok Hids
    : advances _ w w') as [[Hok' Hr Hl] (n & Hs & Hn & Hres)].
  split; [done|]. split.
  - intros r st Hst Ht. rewrite (Hr r), (Hl r); [done|by intros (? & ? & ?); simplify_eq; congruence..].
  - exists n. split; [done|]. split; [done|]. intros c Hc. destruct (Hres c Hc) as [(st & Hst & Hf) [st' Hst']].
    exists st'. split; [|done]. pose proof (res_stored _ _ _ _ Hst') as Hs'. by simplify_eq.
Qed.
End sweeps.

(** ** Runs recorded in Postgres

    The sweeps with the Postgres history: a run's row decides what may be
    thrown away, and a state is thrown away only once its outcome is in the
    row. *)
Section postgres.
Import Postgres PostgresFacts.
Context {S D : Type} `{SPEC : StateStoreSpec S, DD : Dispatcher D, BE : Backend, HO : HashOrder, LB : Libraries}.
Context (config : AppConfig) (factory : option (RunContext → bool)) (new_uuid : nat → string) (clock : nat → Z).
Abbreviation W := (World S D Database).

(** Rows that some stored run of [runs] ended, the others as they were. *)
Definition ended_by (runs : gmap string RunState) (u : string) (before after : option PipelineRunRow) : Prop :=
  after = before ∨
  ∃ row r st t, before = Some row ∧ row_status row = RsInProgress ∧ parse_uuid r = Ok u ∧ runs !! r = Some st ∧
    after = Some (mkRunRow (row_run_id row) (row_details row) (outcome_status_for st) (Some t)).

Lemma outcome_not_in_progress st : outcome_status_for st ≠ RsInProgress.
Proof. unfold outcome_status_for. by case_bool_decide. Qed.

Lemma ended_by_trans runs u a b c : ended_by runs u a b → ended_by runs u b c → ended_by runs u a c.
Proof.
  intros [->|(row & r & st & t & -> & Hp & Hu & Hr & ->)] [->|(row' & r' & st' & t' & Hb & Hp' & Hu' & Hr' & ->)].
  - by left.
  - right. by exists row', r', st', t'.
  - right. by exists row, r, st, t.
  - simplify_eq. simpl in Hp'. by apply outcome_not_in_progress in Hp'.
Qed.

(** One finalisation: what it may change, and what an answer of [Ok] means. *)
Lemma finalize_ended runs r st t db : runs !! r = Some st →
  let '(res, db') := pg_finalize_pipeline_run_status r (outcome_status_for st) t db in
  (∀ u, ended_by runs u (pipeline_runs db !! u) (pipeline_runs db' !! u)) ∧
  (is_ok res = true → ∃ u, parse_uuid r = Ok u ∧
     ∀ row, pipeline_runs db' !! u = Some row → row_status row ≠ RsInProgress).
Proof.
  intros Hst. unfold pg_finalize_pipeline_run_status, with_run_id, parse_run_id.
  destruct (parse_uuid r) as [u|e] eqn:Hu; [|by split; [left|]]. simpl.
  match goal with |- context [execute ?s db] =>
    pose proof (execute_cases s db) as (rs & Hc); destruct (execute s db) as [res db'] end.
  simpl in Hc. destruct Hc as [(i & _ & -> & Hno)|(b & Hb & Hres)]; [split; [by left|congruence]|].
  destruct (pipeline_runs db !! u) as [row|] eqn:Hrow; [case_bool_decide as Hp|]; simplify_eq/=.
  - split.
    + intros v. rewrite lookup_insert. case_decide as E; [subst v|by left]. right. by exists row, r, st, t.
    + intros _. exists u. split; [done|]. intros row'. rewrite lookup_insert_eq. intros ?; simplify_eq/=.
      apply outcome_not_in_progress.
  - split; [by left|]. intros _. exists u. split; [done|]. intros row' E. simplify_eq. congruence.
  - split; [by left|]. intros _. exists u. split; [done|]. intros row' E. congruence.
Qed.

Lemma finalize_status_eq r status (w : W) :
  let '(res, db') := pg_finalize_pipeline_run_status r status (clock (w_reads w)) (w_history w) in
  (finalize_status clock r status w).1 = is_ok res ∧ w_history (finalize_status clock r status w).2 = db'.
Proof.
  unfold finalize_status, now, on_history, log, mbind, state_bind. simpl.
  by destruct (pg_finalize_pipeline_run_status r status (clock (w_reads w)) (w_history w)).
Qed.

(** What the sweep has established after the runs in [done], from the world [w]
    on. *)
Record swept (w : W) (done : list string) (w' : W) : Prop := {
  sw_confined : confined (λ r, r ∈ done) (w_store w) (w_store w');
  sw_started : w_started w' = w_started w;
  sw_rows u : ended_by (runs_of (w_store w)) u (pipeline_runs (w_history w) !! u) (pipeline_runs (w_history w') !! u);
  sw_deleted r st : runs_of (w_store w) !! r = Some st → runs_of (w_store w') !! r = Some st ∨
    ∃ u, parse_uuid r = Ok u ∧ ∀ row, pipeline_runs (w_history w') !! u = Some row → row_status row ≠ RsInProgress;
}.

Lemma ended_settled runs u a b : ended_by runs u a b →
  (∀ row, a = Some row → row_status row ≠ RsInProgress) → ∀ row, b = Some row → row_status row ≠ RsInProgress.
Proof.
  intros [->|(row & r & st & t & -> & Hp & _ & _ & ->)] Ha; [done|]. by specialize (Ha _ eq_refl).
Qed.

Lemma swept_step w done w1 w2 q : q ∉ done → swept w done w1 →
  confined (λ r, r = q) (w_store w1) (w_store w2) → w_started w2 = w_started w1 →
  (∀ u, ended_by (runs_of (w_store w)) u (pipeline_runs (w_history w1) !! u) (pipeline_runs (w_history w2) !! u)) →
  (∀ st, runs_of (w_store w1) !! q = Some st → runs_of (w_store w2) !! q = Some st ∨
     ∃ u, parse_uuid q = Ok u ∧ ∀ row, pipeline_runs (w_history w2) !! u = Some row → row_status row ≠ RsInProgress) →
  swept w (done ++ [q]) w2.
Proof.
  intros Hq [C1 S1 R1 D1] C2 S2 R2 D2. split.
  - eapply (confined_trans (λ r, r ∈ done) (λ r, r = q)); [| |exact C1|exact C2]; set_solver.
  - congruence.
  - intros u. by eapply ended_by_trans.
  - intros r st Hst. destruct (decide (r = q)) as [->|Hne].
    + apply D2. by rewrite (cf_runs _ _ _ C1).
    + destruct (D1 r st Hst) as [Hk|(u & Hu & Hd)]; [left; by rewrite (cf_runs _ _ _ C2)|].
      right. exists u. split; [done|]. eapply ended_settled; [apply R2|done].
Qed.

Lemma swept_keep w done w1 w2 q : q ∉ done → swept w done w1 →
  confined (λ r, r = q) (w_store w1) (w_store w2) → runs_of (w_store w2) = runs_of (w_store w1) →
  w_started w2 = w_started w1 →
  (∀ u, ended_by (runs_of (w_store w)) u (pipeline_runs (w_history w1) !! u) (pipeline_runs (w_history w2) !! u)) →
  swept w (done ++ [q]) w2.
Proof. intros Hq Hw C Hr Hs Hu. eapply swept_step; [done|exact Hw|exact C|done|exact Hu|]. rewrite Hr. by left. Qed.

(** The end of a run whose outcome is recorded. *)
Lemma remove_run_spec q (w : W) : store_ok (w_store w) →
  let w' := (finalize_unrecoverable_orphan q w).2 in
  confined (λ r, r = q) (w_store w) (w_store w') ∧ w_started w' = w_started w ∧ w_history w' = w_history w.
Proof.
  intros Hok. unfold finalize_unrecoverable_orphan. rewrite bind_eq.
  assert (store_kept w (clean_up q w).2 ∧ w_history (clean_up q w).2 = w_history w) as [[E1 E2] E3].
  { split; [apply kept_clean_up|]. unfold clean_up, on_dispatcher, log, mbind, state_bind.
    by destruct (cleanup_run q (w_dispatcher w)). }
  rewrite <- E1 in Hok. destruct (confined_remove q _ Hok) as (C & Hs & Hh). rewrite E1 in C. split; [exact C|].
  split; etrans; [exact Hs|exact E2|exact Hh|exact E3].
Qed.

Lemma reap_terminal_swept w done w1 q : q ∉ done → swept w done w1 →
  swept w (done ++ [q]) (reap_terminal_run clock q w1).2.
Proof.
  intros Hq Hw. pose proof (cf_ok _ _ _ (sw_confined _ _ _ Hw)) as Hok. unfold reap_terminal_run. rewrite bind_eq.
  destruct (on_store_spec (load_run q) w1) as (E1 & E2 & E3 & E4 & _).
  destruct (confined_load q (w_store w1) (λ r, r = q) Hok) as (C & Hr & _ & Ho). rewrite <- E1 in Ho. rewrite <- E2 in C, Hr.
  destruct (on_store (load_run q) w1) as [loaded w2]. simpl in *.
  assert (swept w (done ++ [q]) w2) as Hw2 by (eapply swept_keep; eauto; rewrite E4; by left).
  destruct loaded as [[st|]|e]; [| |exact Hw2]; specialize (Ho _ eq_refl); pose proof (cf_ok _ _ _ C) as Hok2.
  - rewrite bind_eq. pose proof (finalize_status_eq q (outcome_status_for st) w2) as Hf.
    destruct (kept_finalize_status clock q (outcome_status_for st) w2) as [K1 K2].
    assert (runs_of (w_store w) !! q = Some st) as Hst by by rewrite <- (cf_runs _ _ _ (sw_confined _ _ _ Hw) q Hq).
    pose proof (finalize_ended (runs_of (w_store w)) q st (clock (w_reads w2)) (w_history w2) Hst) as Hend.
    destruct (pg_finalize_pipeline_run_status _ _ _ _) as [res db]. destruct Hf as [Hb Hh].
    destruct (finalize_status _ _ _ _) as [b w3]. cbn [fst snd] in *. subst b. rewrite E4 in Hend. subst db.
    rewrite <- K1 in Hok2, C, Hr. rewrite <- K2 in E3. destruct Hend as [Hrows Hset].
    destruct (is_ok res); [|by eapply swept_keep].
    destruct (remove_run_spec q w3 Hok2) as (C3 & S3 & H3). eapply swept_step; [done|exact Hw| | | |].
    + by eapply (confined_trans (λ r, r = q) (λ r, r = q)).
    + etrans; [exact S3|exact E3].
    + unfold finalize_unrecoverable_orphan in H3. by rewrite H3.
    + unfold finalize_unrecoverable_orphan in H3. rewrite H3. intros ? _. right. by apply Hset.
  - rewrite bind_eq. simpl. destruct (remove_run_spec q w2 Hok2) as (C3 & S3 & H3).
    eapply swept_step; [done|exact Hw| | | |].
    + by eapply (confined_trans (λ r, r = q) (λ r, r = q)).
    + etrans; [exact S3|exact E3].
    + unfold finalize_unrecoverable_orphan in H3. rewrite H3, E4. by left.
    + intros st. congruence.
Qed.

Lemma for_each_swept w l rest w1 : NoDup (l ++ rest) → swept w l w1 →
  swept w (l ++ rest) (for_each rest (reap_terminal_run clock) w1).2.
Proof.
  revert l w1. induction rest as [|q rest IH]; intros l w1 Hnd Hw; [by rewrite app_nil_r|].
  cbn [for_each]. rewrite bind_eq, cons_middle, app_assoc. rewrite cons_middle, app_assoc in Hnd.
  apply IH; [done|]. apply reap_terminal_swept; [|done].
  apply NoDup_app in Hnd as (Hnd & _ & _). apply NoDup_app in Hnd as (_ & Hnd & _). intros Hin. by apply (Hnd q Hin); left.
Qed.

(** C32: the terminal sweep starts nothing and leaves the states and leases of
    unfinished runs alone; it deletes a run's state only once no row of the run
    is in progress any more, and a row it ends gets the outcome of a stored run
    of that id. *)
Theorem terminal_sweep_records_first (w : W) : store_ok (w_store w) → run_ids_ok (runs_of (w_store w)) →
  let w' := (sweep_terminal_redis_runs clock w).2 in
  w_started w' = w_started w ∧
  (∀ r st, runs_of (w_store w) !! r = Some st → run_state_is_terminal st = false →
     runs_of (w_store w') !! r = Some st ∧ leases_of (w_store w') !! r = leases_of (w_store w) !! r) ∧
  (∀ r st, runs_of (w_store w) !! r = Some st → runs_of (w_store w') !! r = Some st ∨
     ∃ u, parse_uuid r = Ok u ∧ ∀ row, pipeline_runs (w_history w') !! u = Some row → row_status row ≠ RsInProgress) ∧
  ∀ u, ended_by (runs_of (w_store w)) u (pipeline_runs (w_history w) !! u) (pipeline_runs (w_history w') !! u).
Proof.
  intros Hok Hids. unfold sweep_terminal_redis_runs. rewrite bind_eq.
  pose proof (query_spec _ true w list_terminal_unleased_runs_spec Hok Hids) as Hq.
  destruct (on_store list_terminal_unleased_runs w) as [res w1]. cbn [fst snd].
  destruct Hq as (C & Hs & Hh & Hl).
  assert (swept w [] w1) as Hw1.
  { split; [|done|rewrite Hh; by left|].
    - eapply (confined_trans (λ _, False) (λ _, False)); [done|done|exact C|apply confined_refl, (cf_ok _ _ _ C)].
    - intros r st Hr. left. rewrite (cf_runs _ _ _ C r); [done|by intros []]. }
  assert (∃ l, lists_runs (runs_of (w_store w)) true l ∧
    swept w l (match res with Ok runs => for_each runs (reap_terminal_run clock) | Err _ => mret () end w1).2)
    as (l & [_ Hterm] & [Cf Hst Hrows Hdel]).
  { destruct res as [l|e]; [exists l|exists []]; split; [done|by apply (for_each_swept w []), Hw1; apply Hl| |exact Hw1].
    split; [constructor|set_solver]. }
  split; [done|]. split; [|by split].
  intros r st Hr Hf. assert (r ∉ l) as Hnl by (intros (? & ? & ?)%Hterm; congruence).
  by rewrite (cf_runs _ _ _ Cf r Hnl), (cf_leases _ _ _ Cf r Hnl).
Qed.

(** *** The rows of the history *)

Definition rows_kept (w w' : W) : Prop := history_le (w_history w) (w_history w').
#[export] Instance rows_kept_preorder : PreOrder rows_kept.
Proof. split; [intros w; apply history_le_preorder|intros w1 w2 w3; apply history_le_preorder]. Qed.

Lemma rows_on_store {A} (f : M S A) : preserves rows_kept (on_store f).
Proof. intros w. destruct (on_store_spec f w) as (_ & _ & _ & E & _). unfold rows_kept. rewrite E. reflexivity. Qed.
Lemma rows_on_dispatcher {A} (f : M D A) : preserves rows_kept (on_dispatcher f).
Proof. intros w. unfold on_dispatcher, rows_kept. destruct (f (w_dispatcher w)). simpl. reflexivity. Qed.
Lemma rows_log e : preserves rows_kept (log e).
Proof. intros w. unfold rows_kept. simpl. reflexivity. Qed.

Lemma rows_start q p rc : preserves rows_kept (start config factory new_uuid clock q p rc).
Proof.
  intros w. unfold start, start_coordinator. cbn [now w_reads w_store w_dispatcher w_history w_started w_log].
  destruct (try_acquire_lease _ _ _ _) as [[[v|]|e] s1]; [|unfold rows_kept; simpl; reflexivity..].
  pose proof (exec_history_le (CallStarted (build_pipeline_start_record q p rc)) (w_history w)) as Hle.
  unfold exec, after in Hle. simpl in *. destruct (pg_record_pipeline_started _ _) as [x h1].
  destruct (initialize_run_state _ _ _ _) as [[[r v'] b] s2]. destruct (start_pod_watcher _ _ _) as [b' d1].
  exact Hle.
Qed.

Lemma rows_get_run q : preserves rows_kept (on_history (get_pipeline_run q)).
Proof.
  intros w. unfold on_history, rows_kept. simpl. unfold pg_get_pipeline_run.
  assert (history_le (w_history w) (after (with_run_id q (λ u, select (λ db, pipeline_runs db !! u))) (w_history w))) as Hle.
  { apply with_run_id_rel; [reflexivity|]. intros u.
    apply (execute_rel history_le (λ db, (Ok (pipeline_runs db !! u), db))); [intros db i rs _|intros db rs a db' [= <- <-]];
      split; simpl; intros ? ? Hl; eexists; split_and!; [exact Hl|try done..]; apply details_le_refl. }
  unfold after in Hle. by destruct (with_run_id _ _ _).
Qed.

Lemma rows_reclaim q : preserves rows_kept (reclaim_run config factory new_uuid clock q).
Proof.
  assert (preserves rows_kept (finalize_unrecoverable_orphan (S:=S) (D:=D) q)) as Hun.
  { unfold finalize_unrecoverable_orphan, clean_up, delete_state. repeat first
      [apply rows_on_store|apply rows_on_dispatcher|apply rows_log|apply preserves_bind; [exact _| |intros ?]]. }
  apply preserves_bind; [exact _|apply rows_on_store|]. intros [[st|]|e]; [|apply preserves_ret; exact _..].
  apply preserves_bind; [exact _|apply rows_get_run|]. intros [[row|]|e]; [|exact Hun|apply preserves_ret; exact _].
  apply preserves_bind; [exact _|apply rows_on_store|]. intros [[st'|]|e]; [apply rows_start|apply preserves_ret; exact _..].
Qed.

(** The run has a row. *)
Definition recorded (r : string) (db : Database) : Prop := ∃ u, parse_uuid r = Ok u ∧ is_Some (pipeline_runs db !! u).

Lemma recorded_le r db db' : history_le db db' → recorded r db → recorded r db'.
Proof. intros [Hr _] (u & Hu & [row (row' & Hrow' & _)%Hr]). exists u. split; [done|]. by exists row'. Qed.

Lemma get_run_none r db : (pg_get_pipeline_run r db).1 = Ok None → ¬ recorded r db.
Proof.
  unfold pg_get_pipeline_run, with_run_id, parse_run_id. intros Hn (u & Hu & [row Hrow]). rewrite Hu in Hn. simpl in Hn.
  unfold select in Hn. destruct (execute _ db) as [res db'] eqn:E. simpl in Hn. subst res.
  apply execute_ok in E as (rs & [= E _]). simpl in E. congruence.
Qed.

Lemma reclaim_keeps q (w : W) : store_ok (w_store w) → recorded q (w_history w) →
  ∀ st, runs_of (w_store w) !! q = Some st →
  runs_of (w_store (reclaim_run config factory new_uuid clock q w).2) !! q = Some st.
Proof.
  intros Hok Hrec st Hst. unfold reclaim_run. rewrite bind_eq.
  destruct (on_store_spec (load_run q) w) as (_ & E2 & _ & E4 & _).
  destruct (confined_load q (w_store w) (λ _, False) Hok) as (C & Hr & _ & _). rewrite <- E2 in C, Hr.
  destruct (on_store (load_run q) w) as [[[st1|]|e] w1]; simpl in *; [|by rewrite Hr..].
  rewrite bind_eq. destruct (kept_on_history (get_pipeline_run q) w1) as [E _].
  assert ((on_history (get_pipeline_run q) w1).1 ≠ Ok None) as Hsome.
  { unfold on_history. pose proof (get_run_none q (w_history w1)) as Hn. simpl in *.
    destruct (pg_get_pipeline_run q (w_history w1)) as [o h]. simpl in *. intros ->. apply Hn; [done|]. by rewrite E4. }
  destruct (on_history _ w1) as [[[row|]|e] w2]; simpl in *; [|done|by rewrite E, Hr].
  rewrite bind_eq. pose proof (cf_ok _ _ _ C) as Hok1. rewrite <- E in Hok1, Hr.
  destruct (on_store_spec (load_run q) w2) as (F1 & F2 & _).
  destruct (confined_load q (w_store w2) (λ _, False) Hok1) as (C2 & Hr2 & _ & Ho2). rewrite <- F2 in C2, Hr2. rewrite <- F1 in Ho2.
  destruct (on_store (load_run q) w2) as [[[st2|]|e] w3]; simpl in *; [|by rewrite Hr2, Hr..].
  specialize (Ho2 _ eq_refl). rewrite Hr, Hst in Ho2. simplify_eq.
  destruct (start_resumes config factory new_uuid clock q st (run_context_from_row row) w3 (cf_ok _ _ _ C2)) as (_ & Hk & _);
    [by rewrite Hr2, Hr|]. apply Hk. by rewrite Hr2, Hr.
Qed.

(** C31: the reclaim never throws away the state of a run that has a row in
    Postgres, whatever requests to the database or the store fail. *)
Theorem reclaim_keeps_recorded_runs (w : W) r st : store_ok (w_store w) → run_ids_ok (runs_of (w_store w)) →
  recorded r (w_history w) → runs_of (w_store w) !! r = Some st →
  runs_of (w_store (reclaim_orphaned_runs config factory new_uuid clock w).2) !! r = Some st.
Proof.
  intros Hok Hids Hrec Hst. unfold reclaim_orphaned_runs. rewrite bind_eq.
  pose proof (query_spec _ false w get_orphaned_runs_spec Hok Hids) as Hq.
  destruct (on_store get_orphaned_runs w) as [res w1]. cbn [fst snd].
  destruct Hq as (C & _ & Hh & _). rewrite <- Hh in Hrec.
  assert (runs_of (w_store w1) !! r = Some st) as Hst1 by (rewrite (cf_runs _ _ _ C r); [done|by intros []]).
  destruct res as [l|e]; [|done]. pose proof (cf_ok _ _ _ C) as Hok1. clear -Hok1 Hrec Hst1 SPEC.
  revert w1 Hok1 Hrec Hst1. induction l as [|q l IH]; intros w Hok Hrec Hst; [done|].
  cbn [for_each]. rewrite bind_eq. destruct (reclaim_advances config factory new_uuid clock q w Hok) as [[Hok2 Hr2 _] _].
  apply IH; [done|by eapply recorded_le; [apply rows_reclaim|]|].
  destruct (decide (q = r)) as [->|Hne]; [by apply reclaim_keeps|]. by rewrite Hr2.
Qed.
End postgres.

(** ** Unfinished rows and cluster objects *)
Section unfinished.
Context {S D H : Type} `{SPEC : StateStoreSpec S, DD : Dispatcher D, RH : RunHistory H, HO : HashOrder, LB : Libraries}.
Context (parse : string → result string Pipeline) (config : AppConfig) (factory : option (RunContext → bool)).
Context (new_uuid : nat → string) (clock : nat → Z).
Abbreviation W := (World S D H).
Abbreviation Co := (Coordinator S D H).
#[local] Abbreviation id_of c := (c_run_id (const c)) (only parsing).

Lemma kept_reconcile_node r by_name n : preserves (store_kept (S:=S) (D:=D) (H:=H)) (reconcile_node r by_name n).
Proof.
  unfold reconcile_node. destruct (by_name !! n) as [existing|]; [|apply preserves_ret; exact _].
  case_bool_decide; [apply preserves_ret; exact _|].
  apply preserves_bind; [exact _|apply kept_on_dispatcher|]. intros [[o|]|e]; [|apply preserves_ret; exact _..].
  destruct (no_success o), (no_finished_at o); try (apply preserves_ret; exact _).
  apply preserves_bind; [exact _|apply kept_on_history|]. intros []; apply preserves_ret; exact _.
Qed.
Lemma kept_reconcile_nodes r nodes by_name : preserves (store_kept (S:=S) (D:=D) (H:=H)) (reconcile_nodes r by_name nodes).
Proof.
  revert by_name; induction nodes as [|n nodes IH]; intros by_name; [apply preserves_ret; exact _|].
  apply preserves_bind; [exact _|apply kept_reconcile_node|]. intros m. apply IH.
Qed.

(** A coordinator started from the rows of a run that had no state. *)
Record begins (s s' : S) (c : Co) : Prop := {
  beg_absent : runs_of s !! id_of c = None;
  beg_state : ∃ by_name, let st := reconstruct_run_state_from_postgres (c_pipeline (const c)) by_name in
    runs_of s' !! id_of c = Some st ∧ continues c st;
  beg_held : version_ok (c_lease_version (const c)) →
    leases_of s' !! id_of c = Some (mkLease (c_lease_version (const c)) (c_server_id (const c)));
}.

(** The stored runs stay as they are. *)
Record adds (w w' : W) : Prop := {
  add_ok : store_ok (w_store w');
  add_runs r st : runs_of (w_store w) !! r = Some st → runs_of (w_store w') !! r = Some st;
  add_leases r : is_Some (runs_of (w_store w) !! r) → leases_of (w_store w') !! r = leases_of (w_store w) !! r;
  add_started : ∃ new, w_started w' = w_started w ++ new ∧ ∀ c, c ∈ new → begins (w_store w) (w_store w') c;
}.

Lemma adds_quiet w w' : store_ok (w_store w) → store_kept w w' → adds w w'.
Proof. intros Hok [E1 E2]. split; rewrite ?E1; try done. exists []. rewrite app_nil_r. split; [done|set_solver]. Qed.

Lemma adds_trans w1 w2 w3 : adds w1 w2 → adds w2 w3 → adds w1 w3.
Proof.
  intros [O1 R1 L1 (n1 & S1 & B1)] [O2 R2 L2 (n2 & S2 & B2)]. split; [done|auto| |].
  - intros r [st Hst]. rewrite L2; eauto.
  - exists (n1 ++ n2). rewrite S2, S1, <- app_assoc. split; [done|]. intros c [Hc|Hc]%elem_of_app.
    + destruct (B1 c Hc) as [Ha (m & Hst & Hcont) Hl]. split; [done|exists m; auto|]. intros Hv. rewrite L2; eauto.
    + destruct (B2 c Hc) as [Ha Hst Hl]. split; [|done..].
      destruct (runs_of (w_store w1) !! _) eqn:E; [|done]. apply R1 in E. congruence.
Qed.

Lemma adds_kept {A B} (m : M W A) (f : A → M W B) (w : W) : store_ok (w_store w) → preserves store_kept m →
  (∀ w', store_ok (w_store w') → store_kept w w' → adds w' (f (m w).1 w').2) → adds w ((m ≫= f) w).2.
Proof.
  intros Hok Hm Hf. rewrite bind_eq. specialize (Hm w). eapply adds_trans; [by apply adds_quiet|]. apply Hf; [|done].
  by rewrite (sk_store _ _ Hm).
Qed.

(** Saving the reconstructed state and starting its coordinator. *)
Lemma resume_adds q p by_name rc (w : W) : store_ok (w_store w) → runs_of (w_store w) !! q = None →
  adds w ((saved ← on_store (save_run q (reconstruct_run_state_from_postgres p by_name) 0);
           match saved with
           | Ok true => _ ← start config factory new_uuid clock q p rc; mret (Ok ())
           | Ok false | Err _ => mret (Ok ())
           end : M W (result RunHistoryError unit)) w).2.
Proof.
  intros Hok Hnone. set (st := reconstruct_run_state_from_postgres p by_name). rewrite bind_eq.
  destruct (on_store_spec (save_run q st 0) w) as (E1 & E2 & E3 & _).
  assert (version_ok 0) as Hv by done. pose proof (save_run_spec q st 0 (w_store w) Hok Hv Hv) as Hs. rewrite Hnone in Hs.
  destruct (save_run q st 0 (w_store w)) as [res s1]. destruct Hs as (Hok1 & Hl1 & Hr1).
  destruct (on_store _ w) as [saved w1]. cbn [fst snd] in *. subst saved s1.
  assert (∀ r st', runs_of (w_store w) !! r = Some st' → runs_of (w_store w1) !! r = Some st') as Hkeep.
  { intros r st' Hst'. assert (r ≠ q) by congruence. destruct res as [b|e]; [destruct Hr1 as [_ ->]; destruct b|
      destruct Hr1 as [->|[_ ->]]]; rewrite ?lookup_insert_ne; done. }
  assert (adds w w1) as A.
  { split; [done|exact Hkeep|by rewrite Hl1|]. exists []. rewrite app_nil_r. split; [done|set_solver]. }
  destruct res as [[]|e]; [|exact A..]. destruct Hr1 as [_ Hr1]. rewrite bind_eq.
  destruct (start_resumes config factory new_uuid clock q st rc w1 Hok1) as ([Ok2 R2 L2] & Hk2 & n & Hs2 & Hid & Hn);
    [by rewrite Hr1, lookup_insert_eq|].
  change (rs_pipeline st) with p in *. change (adds w (start config factory new_uuid clock q p rc w1).2).
  split; [done|auto| |].
  - intros r [st' Hst']. assert (r ≠ q) by congruence. by rewrite (L2 r), Hl1.
  - exists n. split; [cbn; by rewrite <- E3|]. intros c Hc. destruct (Hn c Hc) as [S1 S2 F2 L3 P2 C2].
    assert (id_of c = q) as Hq.
    { destruct Hid as [->|(c0 & -> & <-)]; [set_solver|]. by apply list_elem_of_singleton in Hc as ->. }
    split; [by rewrite Hq| |exact L3]. exists by_name. rewrite P2. by split.
Qed.

Lemma sweep_row_adds row (w : W) : store_ok (w_store w) →
  adds w (sweep_in_progress_row parse config factory new_uuid clock row w).2.
Proof.
  intros Hok. unfold sweep_in_progress_row. set (q := row_run_id row). rewrite bind_eq.
  destruct (on_store_spec (load_run q) w) as (E1 & E2 & E3 & _).
  destruct (confined_load q (w_store w) (λ _, False) Hok) as (C & Hr & Hl & Ho). rewrite <- E2 in C, Hr, Hl. rewrite <- E1 in Ho.
  destruct (on_store _ w) as [loaded w1]. cbn [fst snd] in *. pose proof (cf_ok _ _ _ C) as Hok1.
  assert (adds w w1) as A.
  { split; [done|by rewrite Hr|by rewrite Hl|]. exists []. rewrite app_nil_r. split; [done|set_solver]. }
  destruct loaded as [[st|]|e]; [exact A| |exact A]. specialize (Ho _ eq_refl). eapply adds_trans; [exact A|].
  rewrite <- Hr in Ho. rewrite bind_eq. unfold reconcile_postgres_in_progress_run.
  assert (∀ w, store_ok (w_store w) → adds w w) as Hrefl by (intros; by apply adds_quiet).
  destruct (from_yaml parse _) as [p|e]; [|by apply Hrefl]. unfold bind_ok at 1.
  apply adds_kept; [done|apply kept_on_history|]. intros w2 Hok2 [K2 _].
  destruct (on_history _ w1) as [[runs|e] w1']; cbn [fst]; [|by apply Hrefl].
  apply adds_kept; [done|apply kept_reconcile_nodes|]. intros w3 Hok3 [K3 _].
  destruct (forallb _ _).
  - apply adds_kept; [done|apply kept_finalize_status|]. intros w4 Hok4 _.
    apply adds_kept; [done|apply kept_clean_up|]. intros w5 Hok5 _. by apply Hrefl.
  - apply resume_adds; [done|]. by rewrite K3, K2.
Qed.

(** The sweep of unfinished rows changes no stored run and no lease of one;
    a coordinator it starts is for a run that had no state, holds its lease and
    goes on from the state reconstructed from the run's rows, which is stored. *)
Theorem postgres_sweep_adds_only (w : W) : store_ok (w_store w) →
  let w' := (sweep_postgres_in_progress_runs parse config factory new_uuid clock w).2 in
  (∀ r st, runs_of (w_store w) !! r = Some st →
     runs_of (w_store w') !! r = Some st ∧ leases_of (w_store w') !! r = leases_of (w_store w) !! r) ∧
  ∃ new, w_started w' = w_started w ++ new ∧ ∀ c, c ∈ new → begins (w_store w) (w_store w') c.
Proof.
  intros Hok w'. assert (adds w w') as [_ R L St]; [|split; [split; eauto|done]]. unfold w'. clear w'.
  apply adds_kept; [done|apply kept_on_history|]. intros w1 Hok1 _. destruct (on_history _ w) as [[rows|e] w2]; cbn [fst];
    [|by apply adds_quiet]. revert w1 Hok1. clear. induction rows as [|row rows IH]; intros w Hok; [by apply adds_quiet|].
  cbn [for_each]. rewrite bind_eq. pose proof (sweep_row_adds row w Hok) as A. eapply adds_trans; [exact A|].
  apply IH, (add_ok _ _ A).
Qed.
End unfinished.

(** ** The reconstructed run *)
Lemma reconstruct_statuses p by_name n s :
  rs_statuses (reconstruct_run_state_from_postgres p by_name) !! n = Some s ↔
  n ∈ pn_name <$> pl_nodes p ∧ s = status_of_row (by_name !! n).
Proof.
  unfold reconstruct_run_state_from_postgres. cbn [rs_statuses]. split.
  - intros (i & Hi & <- & <-)%collect_map_lookup_Some. split; [|done]. unfold node_info in Hi.
    apply list_elem_of_fmap in Hi as (x & -> & Hx). apply list_elem_of_fmap. by exists x.
  - intros [Hn ->]. assert (n ∈ ni_name <$> node_info p) as Hi by (unfold node_info; by rewrite <- list_fmap_compose).
    apply (collect_map_lookup_is_Some ni_name (λ i, status_of_row (by_name !! ni_name i))) in Hi as [s Hs].
    rewrite Hs. by apply collect_map_lookup_Some in Hs as (i & _ & <- & <-).
Qed.

Lemma collect_map_NoDup {A B} (key : A → string) (val : A → B) l x :
  NoDup (key <$> l) → x ∈ l → collect_map key val l !! key x = Some (val x).
Proof.
  induction l as [|y l IH] using rev_ind; [set_solver|]. rewrite fmap_app, collect_map_snoc.
  intros (Hnd & Hy & _)%NoDup_app [Hx|Hx]%elem_of_app.
  - rewrite lookup_insert_ne; [by apply IH|]. intros E. apply (Hy (key x)); [by apply list_elem_of_fmap_2|].
    rewrite <- E. by apply list_elem_of_here.
  - apply list_elem_of_singleton in Hx as ->. apply lookup_insert_eq.
Qed.

Lemma reconstruct_dependencies p by_name n deps :
  dependencies (from_run_state (reconstruct_run_state_from_postgres p by_name)) !! n = Some deps →
  ∃ node, node ∈ pl_nodes p ∧ pn_name node = n ∧ deps = list_to_set (pn_after node).
Proof.
  cbn [from_run_state dependencies]. rewrite lookup_fmap. intros (l & Hl & ->)%fmap_Some.
  apply collect_map_lookup_Some in Hl as (i & Hi & <- & <-). apply list_elem_of_fmap in Hi as (x & -> & Hx). by exists x.
Qed.

(** The run reconstructed from Postgres has a status for each node of the
    pipeline, that of its row, and is well formed and closed; the nodes it is
    ready to dispatch are exactly those that no row mentions and whose
    dependencies all have a row that records success. *)
Theorem reconstructed_run_ready `{HashOrder} p by_name :
  validate p = Ok p → NoDup (pn_name <$> pl_nodes p) →
  let r := from_run_state (reconstruct_run_state_from_postgres p by_name) in
  run_wf r ∧ run_closed r ∧
  (∀ n s, statuses r !! n = Some s ↔ n ∈ pn_name <$> pl_nodes p ∧ s = status_of_row (by_name !! n)) ∧
  ∀ node, node ∈ pl_nodes p →
    pn_name node ∈ ready_nodes r ↔
    by_name !! pn_name node = None ∧
    ∀ d, d ∈ pn_after node → ∃ row, by_name !! d = Some row ∧ nrow_success row = Some true.
Proof.
  intros [_ Hwf]%validate_ok Hnd r. pose proof (reconstruct_statuses p by_name) as Hst.
  change (rs_statuses _) with (statuses r) in Hst.
  assert (∀ node d, node ∈ pl_nodes p → d ∈ pn_after node → d ∈ pn_name <$> pl_nodes p) as Hdep.
  { intros node d Hn Hd. destruct (Hwf node Hn) as (Hdeps & _). by apply (Hdeps d Hd). }
  assert (∀ node, node ∈ pl_nodes p → dependencies r !! pn_name node = Some (list_to_set (pn_after node))) as Hdeps.
  { intros node Hn. unfold r. cbn [from_run_state dependencies]. rewrite lookup_fmap. unfold reconstruct_run_state_from_postgres.
    cbn [rs_dependencies]. change (pn_name node) with (ni_name (node_info_of p node)). rewrite collect_map_NoDup; [done| |].
    - unfold node_info. by rewrite <- list_fmap_compose.
    - by apply list_elem_of_fmap_2. }
  split; [|split; [|split; [exact Hst|]]].
  - unfold run_wf, r. cbn [from_run_state statuses dependencies]. rewrite dom_fmap_L. unfold reconstruct_run_state_from_postgres.
    cbn. by rewrite !collect_map_dom.
  - intros n deps d (node & Hn & <- & ->)%reconstruct_dependencies Hd. apply elem_of_list_to_set in Hd.
    exists (status_of_row (by_name !! d)). apply Hst. split; [by eapply Hdep|done].
  - intros node Hn. rewrite elem_of_ready, deps_satisfied_true, Hst.
    assert (pn_name node ∈ pn_name <$> pl_nodes p) as Hname by by apply list_elem_of_fmap_2.
    split.
    + intros [[_ Hp] Hd]. split.
      * destruct (by_name !! pn_name node) as [row|]; [|done]. simpl in Hp. by destruct (nrow_success row) as [[]|].
      * intros d Hin. specialize (Hd _ d (Hdeps node Hn)). rewrite elem_of_list_to_set, Hst in Hd.
        destruct (Hd Hin) as [_ Hs]. destruct (by_name !! d) as [row|]; [|done]. exists row. split; [done|].
        simpl in Hs. by destruct (nrow_success row) as [[]|].
    + intros [Hnone Hd]. rewrite Hnone. split; [done|]. intros deps d E Hin. rewrite (Hdeps node Hn) in E. simplify_eq.
      apply elem_of_list_to_set in Hin. apply Hst. split; [by eapply Hdep|]. destruct (Hd d Hin) as (row & -> & Hs).
      simpl. by rewrite Hs.
Qed.

(** ** Cluster objects *)
Section cluster.
Context {S D H : Type} `{SPEC : StateStoreSpec S, DD : Dispatcher D, HO : HashOrder}.
Abbreviation W := (World S D H).
(** A store that answers every read. *)
Hypothesis loads_answered : ∀ r s, store_ok s → is_ok (load_run r s).1 = true.

Definition absent (s : S) (ids : list string) : list string := base.filter (λ r, runs_of s !! r = None) ids.

Lemma reap_managed_spec q (w : W) : store_ok (w_store w) →
  let w' := (reap_managed_run q w).2 in
  store_ok (w_store w') ∧ runs_of (w_store w') = runs_of (w_store w) ∧ leases_of (w_store w') = leases_of (w_store w) ∧
  w_started w' = w_started w ∧ w_log w' = w_log w ++ (Cleaned <$> absent (w_store w) [q]).
Proof.
  intros Hok. unfold reap_managed_run. rewrite bind_eq. destruct (on_store_spec (load_run q) w) as (E1 & E2 & E3 & _ & E5).
  destruct (confined_load q (w_store w) (λ _, False) Hok) as (C & Hr & Hl & Ho). pose proof (loads_answered q _ Hok) as Ha.
  rewrite <- E2 in C, Hr, Hl. rewrite <- E1 in Ho, Ha. destruct (on_store _ w) as [loaded w1]. cbn [fst snd] in *.
  destruct loaded as [o|e]; [|done]. specialize (Ho _ eq_refl). unfold absent. rewrite filter_cons, filter_nil, <- Ho.
  destruct o as [st|]; cbn [decide].
  - rewrite decide_False by done. rewrite app_nil_r. split_and!; [apply (cf_ok _ _ _ C)|done..].
  - rewrite decide_True by done. cbn [fmap list_fmap]. destruct (kept_clean_up q w1) as [K1 K2]. rewrite K1, K2.
    split_and!; [apply (cf_ok _ _ _ C)|done..|]. unfold clean_up, on_dispatcher, log, mbind, state_bind.
    destruct (cleanup_run q (w_dispatcher w1)). cbn. by rewrite E5.
Qed.

(** When every read of the store is answered, the sweep of cluster objects
    leaves the store alone and cleans up exactly the runs that have objects on
    the cluster and no stored state. *)
Theorem kube_sweep_cleans_absent (w : W) : store_ok (w_store w) →
  let w' := (sweep_orphan_kube_resources w).2 in
  runs_of (w_store w') = runs_of (w_store w) ∧ leases_of (w_store w') = leases_of (w_store w) ∧
  w_started w' = w_started w ∧
  w_log w' = w_log w ++
    match (list_managed_run_ids (w_dispatcher w)).1 with
    | Ok ids => Cleaned <$> absent (w_store w) ids
    | Err _ => []
    end.
Proof.
  intros Hok. unfold sweep_orphan_kube_resources. rewrite bind_eq. unfold on_dispatcher at 2.
  assert (∀ ids (w : W), store_ok (w_store w) → let w' := (for_each ids reap_managed_run w).2 in
    runs_of (w_store w') = runs_of (w_store w) ∧ leases_of (w_store w') = leases_of (w_store w) ∧
    w_started w' = w_started w ∧ w_log w' = w_log w ++ (Cleaned <$> absent (w_store w) ids)) as Hids.
  { clear w Hok. induction ids as [|q ids IH]; intros w Hok; [by rewrite app_nil_r|]. cbn [for_each]. rewrite bind_eq.
    destruct (reap_managed_spec q w Hok) as (Hok1 & R1 & L1 & S1 & G1). destruct (IH _ Hok1) as (R2 & L2 & S2 & G2).
    rewrite R2, L2, S2, G2, G1. split_and!; [done..|]. unfold absent. rewrite R1, <- app_assoc, <- fmap_app.
    f_equal. f_equal. by rewrite <- filter_app. }
  unfold on_dispatcher. destruct (list_managed_run_ids (w_dispatcher w)) as [[ids|e] d]; cbn [fst snd].
  - by apply (Hids ids (mkWorld (w_store w) d (w_history w) (w_reads w) (w_started w) (w_log w))).
  - by rewrite app_nil_r.
Qed.
End cluster.

(** ** Concrete worlds *)
Module Example.
Import InMemory Postgres PostgresFacts.

#[local] Existing Instance canonical_order.
#[local] Instance libraries : Libraries := {| node_to_json n := Ok (ni_name n); from_timestamp s _ := Some s |}.
#[local, refine] Instance backend : Backend := {| parse_uuid := Ok; collate := λ a b, bool_decide (String.le a b) |}.
Proof.
  - intros a b c. rewrite !bool_decide_eq_true. intros; by etrans.
  - intros a b. rewrite !bool_decide_eq_true. apply (total String.le).
Defined.

Definition two_nodes : Pipeline := sample_pipeline [sample_node "a" [] ∅; sample_node "b" ["a"] ∅].
Definition parse_doc (_ : string) : result string Pipeline := Ok two_nodes.
Definition settings : AppConfig := with_limits 3600 600 120 false 30.
Definition uuid (n : nat) : string := "server-" +:+ pretty n.
Definition time (n : nat) : Z := 1000 + Z.of_nat n.

(** A run stopped half way, and a finished one. *)
Definition half_done : RunState :=
  mkRunState 2 {["a" := Success; "b" := Pending]} {["a" := []; "b" := ["a"]]} two_nodes.
Definition finished : RunState :=
  mkRunState 5 {["a" := Success; "b" := StateStore.Failed]} {["a" := []; "b" := ["a"]]} two_nodes.

Definition row_of (run_id : string) : PipelineRunRow :=
  mkRunRow run_id (mkDetails "ci" "acme" "app" "abc" None None None None "push" "yaml" 5 None (Some "acme") None) RsInProgress None.
Definition db_of (ids : list string) : Database := mkDb (list_to_map ((λ r, (r, row_of r)) <$> ids)) ∅ 1 [].
Abbreviation World0 := (World InMemoryStateStore LogDispatcher Database).
Definition world (states : gmap string RunState) (ids : list string) : World0 :=
  mkWorld (mkStore states ∅ 7) (mkLogDispatcher []) (db_of ids) 0 [] [].

Lemma run_ids_checked (m : gmap string RunState) :
  bool_decide (map_Forall (λ r _, (":"%char ∉ bytes r)) m) = true → run_ids_ok m.
Proof. intros Hm r [st Hst]. apply bool_decide_eq_true in Hm. by apply (Hm r st). Qed.

Definition reclaim (w : World0) : World0 := (reclaim_orphaned_runs settings None uuid time w).2.

Lemma reclaim_resumes_orphans_witness :
  ∃ c, w_started (reclaim (world {["r" := half_done; "done" := finished]} ["r"; "done"])) = [c] ∧
    ready_nodes (run c) = ["b"] ∧ state_version c = 2%Z ∧
    ∃ st, resumes (mkStore {["r" := half_done; "done" := finished]} ∅ 7)
      (w_store (reclaim (world {["r" := half_done; "done" := finished]} ["r"; "done"]))) c st.
Proof.
  set (w := world {["r" := half_done; "done" := finished]} ["r"; "done"]).
  assert (match w_started (reclaim w) with [c] => bool_decide (ready_nodes (run c) = ["b"]) && bool_decide (state_version c = 2%Z) | _ => false end
    = true) as Hrun by (vm_compute; reflexivity).
  assert (store_ok (w_store w)) as Hok by exact I.
  assert (run_ids_ok (runs_of (w_store w))) as Hids by (apply run_ids_checked; vm_compute; reflexivity).
  destruct (reclaim_resumes_orphans settings None uuid time w Hok Hids) as (_ & _ & new & Hs & _ & Hres).
  change (reclaim_orphaned_runs settings None uuid time w).2 with (reclaim w) in *.
  destruct (w_started (reclaim w)) as [|c [|]]; [discriminate Hrun| |discriminate Hrun].
  change (w_started w) with (@nil (Coordinator InMemoryStateStore LogDispatcher Database)) in Hs. cbn [app] in Hs. subst new.
  apply andb_true_iff in Hrun as [H1 H2]. exists c. split; [reflexivity|].
  apply bool_decide_eq_true in H1, H2. split; [exact H1|]. split; [exact H2|].
  destruct (Hres c (list_elem_of_here _ _)) as (st & _ & Hst). by exists st.
Defined.

Lemma reclaim_keeps_recorded_runs_witness :
  runs (w_store (reclaim (world {["r" := half_done; "lost" := half_done]} ["r"]))) !! "r" = Some half_done ∧
  runs (w_store (reclaim (world {["r" := half_done; "lost" := half_done]} ["r"]))) !! "lost" = None.
Proof.
  set (w := world {["r" := half_done; "lost" := half_done]} ["r"]). split; [|vm_compute; reflexivity].
  assert (store_ok (w_store w)) as Hok by exact I.
  assert (run_ids_ok (runs_of (w_store w))) as Hids by (apply run_ids_checked; vm_compute; reflexivity).
  apply (reclaim_keeps_recorded_runs settings None uuid time w "r" half_done Hok Hids); [|vm_compute; reflexivity].
  exists "r". split; [reflexivity|]. vm_compute. by eexists.
Defined.

Lemma terminal_sweep_records_first_witness :
  let w := world {["r" := half_done; "done" := finished]} ["r"; "done"] in
  let w' := (sweep_terminal_redis_runs time w).2 in
  runs (w_store w') !! "r" = Some half_done ∧ runs (w_store w') !! "done" = None ∧
  row_status <$> pipeline_runs (w_history w') !! "done" = Some RsFailure.
Proof.
  intros w w'. assert (store_ok (w_store w)) as Hok by exact I.
  assert (run_ids_ok (runs_of (w_store w))) as Hids by (apply run_ids_checked; vm_compute; reflexivity).
  destruct (terminal_sweep_records_first time w Hok Hids) as (_ & Hkeep & _).
  split; [apply (Hkeep "r" half_done); vm_compute; reflexivity|]. split; vm_compute; reflexivity.
Defined.

(** A row without state, its first node done: the run goes on with the second. *)
Definition half_recorded : Database :=
  mkDb {["r" := row_of "r"]}
    {[("r", "a") := mkEntry (mkNodeRow 1 "r" "a" "{}" (Some true) 5 None None None) None]} 2 [].
Lemma postgres_sweep_adds_only_witness :
  let w : World0 := mkWorld (mkStore {["q" := half_done]} ∅ 7) (mkLogDispatcher []) half_recorded 0 [] [] in
  let w' := (sweep_postgres_in_progress_runs parse_doc settings None uuid time w).2 in
  runs (w_store w') !! "q" = Some half_done ∧
  match w_started w' with [c] => ready_nodes (run c) = ["b"] | _ => False end.
Proof.
  intros w w'. assert (store_ok (w_store w)) as Hok by exact I.
  destruct (postgres_sweep_adds_only parse_doc settings None uuid time w Hok) as [Hkeep _].
  split; [apply (Hkeep "q" half_done); vm_compute; reflexivity|vm_compute; reflexivity].
Defined.

Lemma reconstructed_run_ready_witness :
  ready_nodes (from_run_state (reconstruct_run_state_from_postgres two_nodes
    {["a" := mkNodeRow 1 "r" "a" "{}" (Some true) 5 None None None]})) = ["b"] ∧
  "a" ∉ ready_nodes (from_run_state (reconstruct_run_state_from_postgres two_nodes
    {["a" := mkNodeRow 1 "r" "a" "{}" (Some true) 5 None None None]})).
Proof.
  set (m := {["a" := mkNodeRow 1 "r" "a" "{}" (Some true) 5 None None None]} : gmap string NodeRunRow).
  split; [vm_compute; reflexivity|]. assert (validate two_nodes = Ok two_nodes) as Hv by (vm_compute; reflexivity).
  assert (NoDup (pn_name <$> pl_nodes two_nodes)) as Hnd by (apply (bool_decide_unpack _); vm_compute; exact I).
  destruct (reconstructed_run_ready two_nodes m Hv Hnd) as (_ & _ & _ & Hready).
  pose proof (Hready _ (list_elem_of_here _ _)) as [H1 _]. intros [Hnone _]%H1. discriminate Hnone.
Defined.

(** "Someone else got there first" is not noticed: a state that is created from
    Postgres is saved against version 0, and so is accepted over the state that
    another server's sweep has just created, which is at version 0 until its
    coordinator saves. That coordinator's state is replaced by what this server
    saw, here an older view in which the second node was not known to run. *)
Definition seen_first : RunState :=
  mkRunState 0 {["a" := Success; "b" := StateStore.Running]} {["a" := []; "b" := ["a"]]} two_nodes.
Theorem recreation_overwrites_fresh_run :
  let w : World0 := mkWorld (mkStore {["r" := seen_first]} {["r" := InMemory.mkEntry "other" 8]} 8) (mkLogDispatcher []) half_recorded 0 [] [] in
  let w' := (reconcile_postgres_in_progress_run parse_doc settings None uuid time "r" (row_of "r") w).2 in
  rs_statuses <$> runs (w_store w') !! "r" = Some {["a" := Success; "b" := Pending]} ∧ w_started w' = [].
Proof. split; vm_compute; reflexivity. Qed.

(** *** A cluster with the job and the config map of one run *)
Abbreviation managed := "4f9c2d1e-7777".
#[local] Existing Instances KubeDispatcher.Example.digest KubeDispatcher.Example.cluster_api KubeDispatcher.Example.bucket_client RedisStore.Example.redis_libraries.
#[local] Instance kube : Dispatcher (KubeDispatcher.Example.Cluster * KubeDispatcher.Example.Bucket) :=
  kube_dispatcher KubeDispatcher.Example.settings (λ _, Err "unused") of_bytes (λ _ _, 0%Z).
Definition busy : KubeDispatcher.Example.Cluster * KubeDispatcher.Example.Bucket :=
  ((KubeDispatcher.Example.dispatch_unit_tests (∅, ∅)).2, ∅).
Definition kube_world {S} (store : S) : World S _ NoOpRunHistory := mkWorld store busy NoOp 0 [] [].

Lemma kube_sweep_cleans_absent_witness :
  let sweep (store : InMemoryStateStore) := (sweep_orphan_kube_resources (kube_world store)).2 in
  w_log (sweep (mkStore ∅ ∅ 0)) = [Cleaned managed] ∧ jobs (w_dispatcher (sweep (mkStore ∅ ∅ 0))).1 = ∅ ∧
  w_log (sweep (mkStore {[managed := half_done]} ∅ 0)) = [].
Proof.
  intros sweep. assert (∀ r (s : InMemoryStateStore), store_ok s → is_ok (load_run r s).1 = true) as Hans by (by intros r s _).
  assert (store_ok (mkStore ∅ ∅ 0)) as Hok by exact I.
  assert (store_ok (mkStore {[managed := half_done]} ∅ 0)) as Hok1 by exact I.
  assert ((list_managed_run_ids busy).1 = Ok [managed]) as Hids by (vm_compute; reflexivity).
  destruct (kube_sweep_cleans_absent Hans (kube_world (mkStore ∅ ∅ 0)) Hok) as (_ & _ & _ & G1).
  destruct (kube_sweep_cleans_absent Hans (kube_world (mkStore {[managed := half_done]} ∅ 0)) Hok1) as (_ & _ & _ & G2).
  change (w_dispatcher _) with busy in G1, G2. rewrite Hids in G1, G2. split; [exact G1|].
  split; [vm_compute; reflexivity|exact G2].
Defined.

(** But any failed read counts as a missing state: one refused request to
    Redis makes the sweep delete the jobs and the stored state of a run that a
    live coordinator holds the lease of. *)
Theorem failed_read_reaps_live_run :
  let live := (redis_calls [DoSave managed (RedisStore.Example.state 0) 0; DoAcquire managed "server-1" 30]
                (RedisStore.Example.server [])).2 in
  let hiccup := RedisStore.with_replies [Refused "connection reset"] live in
  runs_of live !! managed = Some (RedisStore.Example.state 0) ∧
  leases_of live !! managed = Some (mkLease 1 "server-1") ∧
  let w := (sweep_orphan_kube_resources (kube_world hiccup)).2 in
  runs_of (w_store w) !! managed = None ∧ leases_of (w_store w) !! managed = Some (mkLease 1 "server-1") ∧
  jobs (w_dispatcher w).1 = ∅.
Proof. vm_compute. done. Qed.
End Example.
