(* ===== verification/Auth.v ===== *)
(** * Login and sessions (the auth crate)

    The login, callback, logout and tenant-switch handlers, and the extractor
    that guards every tenant route. The session middleware, the OIDC client and
    the token decoding libraries are parameters. The file proves that a session
    only ever carries the tenants that a verified token and the tenancy
    registry vouch for, and that a guarded request names one of them. *)

From S2P Require Import Prelude Json Http Tenancy.

Record AuthSession := mkAuth {
  user_id : string; email : option string; name : option string;
  authorized_slugs : list string; active_tenant_context : string }.
Record PreAuthState := mkPreAuth {
  csrf : string; pkce_verifier : string; pre_nonce : string; return_to : option string }.

(** ** What is around *)

(** [tower_sessions::Session], with the two keys the crate uses. *)
Class Session (T : Type) : Type := {
  load_auth : M T (result string (option AuthSession));
  store_auth : AuthSession → M T (result string unit);
  clear_auth : M T (result string unit);
  load_pre_auth : M T (result string (option PreAuthState));
  store_pre_auth : PreAuthState → M T (result string unit);
  clear_pre_auth : M T (result string unit);
  flush : M T (result string unit);
}.

(** Values come back as they were stored; a failed call changes nothing that
    can be read, except that a failed flush may already have emptied the
    session. *)
Class SessionSpec (T : Type) `{Session T} : Type := {
  auth_of : T → option AuthSession;
  pre_auth_of : T → option PreAuthState;
  load_auth_spec t : let '(r, t') := load_auth t in
    auth_of t' = auth_of t ∧ pre_auth_of t' = pre_auth_of t ∧ ∀ o, r = Ok o → o = auth_of t;
  store_auth_spec a t : let '(r, t') := store_auth a t in
    pre_auth_of t' = pre_auth_of t ∧ auth_of t' = (if is_ok r then Some a else auth_of t);
  clear_auth_spec t : let '(r, t') := clear_auth t in
    pre_auth_of t' = pre_auth_of t ∧ auth_of t' = (if is_ok r then None else auth_of t);
  load_pre_auth_spec t : let '(r, t') := load_pre_auth t in
    auth_of t' = auth_of t ∧ pre_auth_of t' = pre_auth_of t ∧ ∀ o, r = Ok o → o = pre_auth_of t;
  store_pre_auth_spec p t : let '(r, t') := store_pre_auth p t in
    auth_of t' = auth_of t ∧ pre_auth_of t' = (if is_ok r then Some p else pre_auth_of t);
  clear_pre_auth_spec t : let '(r, t') := clear_pre_auth t in
    auth_of t' = auth_of t ∧ pre_auth_of t' = (if is_ok r then None else pre_auth_of t);
  flush_spec t : let '(r, t') := flush t in
    (auth_of t' = None ∧ pre_auth_of t' = None) ∨ (is_ok r = false ∧ auth_of t' = auth_of t ∧ pre_auth_of t' = pre_auth_of t);
}.

Record Claims := mkClaims { claim_sub : string; claim_email : option string; claim_name : option string }.
Inductive TokenError := RequestNotBuilt (msg : string) | ExchangeFailed (msg : string).

(** The OIDC client: an authorization request draws a state, a nonce and a PKCE
    verifier; a code is exchanged for an ID token, kept as its text. *)
Class Oidc (O : Type) : Type := {
  authorize_url : list string → M O (string * string * string * string);
  exchange_code : string → string → M O (result TokenError (option string));
  verify_claims : string → string → result string Claims;
}.

(** base64 and serde_json *)
Class TokenText : Type := {
  base64_decode : string → option (list ascii);
  json_from_slice : list ascii → option Json;
}.

(** ** Responses *)

Inductive Body := NoBody | TextBody (s : string) | Location (url : string) | ErrorBody (s : string) | SessionBody (a : AuthSession).
Record Response := mkResponse { status : Z; body : Body }.
Definition only (status : Z) : Response := mkResponse status NoBody.
Definition redirect_to (url : string) : Response := mkResponse SEE_OTHER (Location url).

(** ** Claims *)

Record OidcExtras := mkExtras { groups : list string; connector_id : option string }.
Definition no_extras : OidcExtras := mkExtras [] None.

Definition org_from_group (group : string) : string :=
  match split_once ":" group with Some (org, _) => org | None => group end.

Definition extract_oidc_extras `{TokenText} (jwt : string) : OidcExtras :=
  match split_byte "." jwt with
  | _ :: payload_b64 :: _ =>
      match base64_decode payload_b64 ≫= json_from_slice with
      | None => no_extras
      | Some payload =>
          mkExtras (match json_get "groups" payload ≫= as_array with Some arr => omap as_str arr | None => [] end)
            (json_pointer ["federated_claims"; "connector_id"] payload ≫= as_str)
      end
  | _ => no_extras
  end.

Fixpoint resolve_groups (tenants : TenantRegistry) (connector_id : string) (groups authorized : list string) (seen : gset string)
  : list string :=
  match groups with
  | [] => authorized
  | group :: groups =>
      match find_for_connector_and_org tenants connector_id (org_from_group group) with
      | Some tenant =>
          if bool_decide (slug tenant ∈ seen) then resolve_groups tenants connector_id groups authorized seen
          else resolve_groups tenants connector_id groups (authorized ++ [slug tenant]) ({[slug tenant]} ∪ seen)
      | None => resolve_groups tenants connector_id groups authorized seen
      end
  end.
Definition resolve_authorized_slugs (extras : OidcExtras) (tenants : TenantRegistry) : list string :=
  match connector_id extras with
  | None => []
  | Some connector_id => resolve_groups tenants connector_id (groups extras) [] ∅
  end.

(** ** Handlers *)

Record CallbackParams := mkCallback {
  cb_code : option string; cb_state : option string; cb_error : option string; cb_error_description : option string }.

Section handlers.
Context {T O : Type} `{Session T, Oidc O, TokenText}.
Variables (tenants : TenantRegistry) (post_login_redirect : string).

Definition on_session {A} (f : M T A) : M (T * O) A := λ '(t, o), let '(a, t) := f t in (a, (t, o)).
Definition on_oidc {A} (f : M O A) : M (T * O) A := λ '(t, o), let '(a, o) := f o in (a, (t, o)).

Definition login (return_to : option string) : M (T * O) Response :=
  drawn ← on_oidc (authorize_url ["openid"; "profile"; "email"; "groups"; "federated:id"]);
  let '(auth_url, csrf_token, nonce, verifier) := drawn in
  let kept := match return_to with Some r => if starts_with "/" r then Some r else None | None => None end in
  stored ← on_session (store_pre_auth (mkPreAuth csrf_token verifier nonce kept));
  match stored with
  | Err _ => mret (only INTERNAL_SERVER_ERROR)
  | Ok _ => mret (redirect_to auth_url)
  end.

(** From a verified token on. *)
Definition grant (pre_auth : PreAuthState) (jwt : string) (claims : Claims) : M (T * O) Response :=
  let slugs := resolve_authorized_slugs (extract_oidc_extras jwt) tenants in
  match slugs with
  | [] => _ ← on_session clear_pre_auth; mret (mkResponse FORBIDDEN (ErrorBody "no_authorized_tenants"))
  | first :: _ =>
      stored ← on_session (store_auth (mkAuth (claim_sub claims) (claim_email claims) (claim_name claims) slugs first));
      match stored with
      | Err _ => mret (only INTERNAL_SERVER_ERROR)
      | Ok _ => _ ← on_session clear_pre_auth; mret (redirect_to (default post_login_redirect (return_to pre_auth)))
      end
  end.

Definition callback (params : CallbackParams) : M (T * O) Response :=
  match cb_error params, cb_code params, cb_state params with
  | Some _, _, _ => mret (mkResponse UNAUTHORIZED (TextBody "OIDC error"))
  | None, Some code, Some state_param =>
      loaded ← on_session load_pre_auth;
      match loaded with
      | Ok None => mret (mkResponse BAD_REQUEST (TextBody "Missing pre-auth state"))
      | Err _ => mret (only INTERNAL_SERVER_ERROR)
      | Ok (Some pre_auth) =>
          if negb (str_eqb (csrf pre_auth) state_param) then mret (mkResponse UNAUTHORIZED (TextBody "CSRF mismatch"))
          else
            token ← on_oidc (exchange_code code (pkce_verifier pre_auth));
            match token with
            | Err (RequestNotBuilt _) => mret (only INTERNAL_SERVER_ERROR)
            | Err (ExchangeFailed _) | Ok None => mret (only UNAUTHORIZED)
            | Ok (Some jwt) =>
                match verify_claims jwt (pre_nonce pre_auth) with
                | Err _ => mret (only UNAUTHORIZED)
                | Ok claims => grant pre_auth jwt claims
                end
            end
      end
  | _, _, _ => mret (mkResponse BAD_REQUEST (TextBody "Missing code or state"))
  end.

Definition logout : M T Response :=
  cleared ← clear_auth;
  match cleared with
  | Err _ => mret (only INTERNAL_SERVER_ERROR)
  | Ok _ => _ ← flush; mret (only NO_CONTENT)
  end.

Definition me : M T Response :=
  loaded ← load_auth;
  mret (match loaded with
        | Ok (Some auth) => mkResponse OK (SessionBody auth)
        | Ok None => only UNAUTHORIZED
        | Err _ => only INTERNAL_SERVER_ERROR
        end).

Definition active_tenant (slug : string) : M T Response :=
  loaded ← load_auth;
  match loaded with
  | Ok None => mret (only UNAUTHORIZED)
  | Err _ => mret (only INTERNAL_SERVER_ERROR)
  | Ok (Some auth) =>
      if negb (existsb (str_eqb slug) (authorized_slugs auth)) then mret (only FORBIDDEN)
      else
        stored ← store_auth (mkAuth (user_id auth) (email auth) (name auth) (authorized_slugs auth) slug);
        mret (match stored with Err _ => only INTERNAL_SERVER_ERROR | Ok _ => only NO_CONTENT end)
  end.

(** ** The extractor *)

Record AuthorizedTenant := mkAuthorized { at_slug : string; at_session : AuthSession }.

(** [path_params] is [None] when the path does not match the route's
    parameters; taking the session from the request may fail. *)
Definition authorized_tenant (path_params : option (gmap string string)) (session_present : bool)
  : M T (result Z AuthorizedTenant) :=
  match path_params ≫= λ m, m !! "slug" with
  | None => mret (Err BAD_REQUEST)
  | Some slug =>
      if negb session_present then mret (Err INTERNAL_SERVER_ERROR)
      else
        loaded ← load_auth;
        mret (match loaded with
              | Ok None => Err UNAUTHORIZED
              | Err _ => Err INTERNAL_SERVER_ERROR
              | Ok (Some auth) =>
                  if negb (existsb (str_eqb slug) (authorized_slugs auth)) then Err FORBIDDEN
                  else Ok (mkAuthorized slug auth)
              end)
  end.
End handlers.

(** ** Lemmas: claims *)
Lemma resolve_groups_spec reg c gs authorized : NoDup authorized →
  let l := resolve_groups reg c gs authorized (list_to_set authorized) in
  NoDup l ∧ ∀ s, s ∈ l ↔ s ∈ authorized ∨ ∃ g t, g ∈ gs ∧ find_for_connector_and_org reg c (org_from_group g) = Some t ∧ slug t = s.
Proof.
  revert authorized; induction gs as [|g gs IH]; intros authorized Hnd l; [split; [done|]; set_solver|].
  unfold l. cbn [resolve_groups]. destruct (find_for_connector_and_org reg c (org_from_group g)) as [t|] eqn:Ht.
  - case_bool_decide as Hin.
    + destruct (IH authorized Hnd) as [Hl Hs]. split; [exact Hl|]. intros s. rewrite Hs.
      apply elem_of_list_to_set in Hin. setoid_rewrite elem_of_cons. naive_solver.
    + rewrite elem_of_list_to_set in Hin. destruct (IH (authorized ++ [slug t])) as [Hl Hs].
      { apply NoDup_app. split; [done|]. split; [|apply NoDup_singleton]. by intros x Hx ->%list_elem_of_singleton. }
      replace ({[slug t]} ∪ list_to_set authorized) with (list_to_set (authorized ++ [slug t]) :> gset string) by set_solver.
      split; [exact Hl|]. intros s. rewrite Hs, elem_of_app, list_elem_of_singleton. setoid_rewrite elem_of_cons. naive_solver.
  - destruct (IH authorized Hnd) as [Hl Hs]. split; [exact Hl|]. intros s. rewrite Hs. setoid_rewrite elem_of_cons. naive_solver.
Qed.

Lemma resolve_spec extras reg :
  NoDup (resolve_authorized_slugs extras reg) ∧
  ∀ s, s ∈ resolve_authorized_slugs extras reg ↔ ∃ c g t, connector_id extras = Some c ∧ g ∈ groups extras ∧
    find_for_connector_and_org reg c (org_from_group g) = Some t ∧ slug t = s.
Proof.
  unfold resolve_authorized_slugs. destruct (connector_id extras) as [c|].
  - destruct (resolve_groups_spec reg c (groups extras) [] (NoDup_nil_2)) as [Hl Hs]. split; [exact Hl|].
    intros s. change (list_to_set []) with (∅ : gset string) in Hs. rewrite Hs. set_solver.
  - split; [constructor|]. set_solver.
Qed.

(** ** Properties *)

(** The tenants a login is authorized for, under the registry of an
    accepted tenancy document, are exactly the tenants of the document that
    trust the connector which vouched for the login and whose organisation is
    that of one of its groups, each once; without a connector claim, none. *)
Theorem authorized_slugs_spec doc reg extras : from_document doc = Ok reg →
  let slugs := resolve_authorized_slugs extras (reg_tenants reg) in
  NoDup slugs ∧
  ∀ s, s ∈ slugs ↔ ∃ t c g, t ∈ tenants doc ∧ slug t = s ∧ connector_id extras = Some c ∧ c ∈ connector_ids t ∧
    g ∈ groups extras ∧ org_from_group g = org_name (github_binding t).
Proof.
  intros Hdoc slugs. pose proof (from_document_lookups doc) as Hspec. rewrite Hdoc in Hspec.
  destruct Hspec as [_ [_ _ _ Hfind]]. destruct (resolve_spec extras (reg_tenants reg)) as [Hnd Hs].
  split; [exact Hnd|]. intros s. unfold slugs. rewrite Hs. setoid_rewrite Hfind. naive_solver.
Qed.

(** ** Sessions *)

Section sessions.
Context {T O : Type} `{SP : SessionSpec T, OI : Oidc O, TT : TokenText}.
Context (tenants : TenantRegistry) (post_login_redirect : string).

(** What a token gives a session. *)
Definition session_of (jwt : string) (claims : Claims) (slugs : list string) (active : string) : AuthSession :=
  mkAuth (claim_sub claims) (claim_email claims) (claim_name claims) slugs active.

Lemma on_session_eq {A} (f : M T A) t (o : O) : on_session f (t, o) = ((f t).1, ((f t).2, o)).
Proof. simpl. by destruct (f t). Qed.
Lemma on_oidc_eq {A} (f : M O A) (t : T) o : on_oidc f (t, o) = ((f o).1, (t, (f o).2)).
Proof. simpl. by destruct (f o). Qed.

(** A callback changes the login of a session only by a full exchange. *)
Definition granted (params : CallbackParams) t o (t' : T) (resp : Response) : Prop :=
  ∃ code pre jwt claims first rest,
    cb_error params = None ∧ cb_code params = Some code ∧ pre_auth_of t = Some pre ∧
    cb_state params = Some (csrf pre) ∧ (exchange_code code (pkce_verifier pre) o).1 = Ok (Some jwt) ∧
    verify_claims jwt (pre_nonce pre) = Ok claims ∧
    resolve_authorized_slugs (extract_oidc_extras jwt) tenants = first :: rest ∧
    auth_of t' = Some (session_of jwt claims (first :: rest) first) ∧
    resp = redirect_to (default post_login_redirect (return_to pre)).

Lemma callback_cases params t o :
  let '(resp, (t', _)) := callback tenants post_login_redirect params (t, o) in
  granted params t o t' resp ∨ auth_of t' = auth_of t ∧ status resp ≠ SEE_OTHER.
Proof.
  unfold callback. destruct (cb_error params) eqn:He; [by right|]. destruct (cb_code params) as [code|] eqn:Hc; [|by right].
  destruct (cb_state params) as [st|] eqn:Hst; [|by right].
  rewrite bind_eq, on_session_eq. pose proof (load_pre_auth_spec t) as Hl. destruct (load_pre_auth t) as [loaded t1].
  destruct Hl as (Ha & Hp & Hl). cbn [fst snd]. destruct loaded as [[pre|]|e]; [|by right; rewrite Ha..].
  specialize (Hl _ eq_refl). destruct (str_eqb (csrf pre) st) eqn:Hcs; cbn [negb]; [|by right; rewrite Ha].
  apply str_eqb_true in Hcs as <-.
  rewrite bind_eq, on_oidc_eq. destruct (exchange_code _ _ o) as [tok o1] eqn:Hx. cbn [fst snd].
  destruct tok as [[jwt|]|[]]; [|by right; rewrite Ha..]. destruct (verify_claims _ _) as [claims|] eqn:Hv; [|by right; rewrite Ha].
  unfold grant. destruct (resolve_authorized_slugs _ _) as [|first rest] eqn:Hr.
  - rewrite bind_eq, on_session_eq. pose proof (clear_pre_auth_spec t1) as Hcl. destruct (clear_pre_auth t1) as [x t2].
    destruct Hcl as [Ha2 _]. cbn. right. by rewrite Ha2, Ha.
  - rewrite bind_eq, on_session_eq. pose proof (store_auth_spec (session_of jwt claims (first :: rest) first) t1) as Hs.
    unfold session_of in Hs. destruct (store_auth _ t1) as [x t2]. destruct Hs as [_ Ha2]. cbn [fst snd].
    destruct x as [u|e]; simpl in Ha2; [|by right; rewrite Ha2, Ha]. rewrite bind_eq, on_session_eq.
    pose proof (clear_pre_auth_spec t2) as Hcl. destruct (clear_pre_auth t2) as [y t3]. destruct Hcl as [Ha3 _]. cbn. left.
    exists code, pre, jwt, claims, first, rest. rewrite Ha3, Ha2, Hx. by split_and!.
Qed.

(** C15: the callback logs a session in, or redirects, only when the request
    carries no error, its state is the one drawn for this session, the code was
    exchanged with the session's verifier for an ID token that verifies under
    the session's nonce, and the token resolves to at least one tenant; the
    session then holds the token's subject and exactly those tenants, the first
    one active. In every other case the login of the session is unchanged. *)
Theorem callback_grants_verified params t o :
  let '(resp, (t', _)) := callback tenants post_login_redirect params (t, o) in
  (auth_of t' ≠ auth_of t ∨ status resp = SEE_OTHER) →
  granted params t o t' resp.
Proof.
  pose proof (callback_cases params t o) as Hc. destruct (callback _ _ params (t, o)) as [resp [t' o']].
  intros Hor. destruct Hc as [Hg|[Ha Hs]]; [exact Hg|]. by destruct Hor.
Qed.

(** Requests to the router, in any order. *)
Inductive AuthRequest := Login (return_to : option string) | Callback (params : CallbackParams) | Logout | Me | ActiveTenant (slug : string).
Definition serve (r : AuthRequest) : M (T * O) Response :=
  match r with
  | Login return_to => login return_to
  | Callback params => callback tenants post_login_redirect params
  | Logout => on_session logout
  | Me => on_session me
  | ActiveTenant slug => on_session (active_tenant slug)
  end.
Definition serve_all (rs : list AuthRequest) : M (T * O) unit := for_each rs (λ r, _ ← serve r; mret ()).

(** Every login comes from a verified token. *)
Definition vouched (a : AuthSession) : Prop :=
  ∃ jwt nonce claims, verify_claims jwt nonce = Ok claims ∧ user_id a = claim_sub claims ∧
    authorized_slugs a = resolve_authorized_slugs (extract_oidc_extras jwt) tenants ∧
    active_tenant_context a ∈ authorized_slugs a.
Definition session_ok (w : T * O) : Prop := ∀ a, auth_of w.1 = Some a → vouched a.

Lemma serve_ok r w : session_ok w → session_ok (serve r w).2.
Proof.
  destruct w as [t o]. intros Hw. destruct r as [rt|params| | |s]; unfold serve.
  - unfold login. rewrite bind_eq, on_oidc_eq. destruct (authorize_url _ o) as [[[[url cs] nn] ver] o1]. cbn [fst snd].
    rewrite bind_eq, on_session_eq. match goal with |- context [store_pre_auth ?p t] => pose proof (store_pre_auth_spec p t) as Hs;
      destruct (store_pre_auth p t) as [x t1] end. destruct Hs as [Ha _]. cbn [fst snd].
    assert (session_ok (t1, o1)) by (intros a; cbn; rewrite Ha; apply Hw). by destruct x.
  - pose proof (callback_cases params t o) as Hc. destruct (callback _ _ params (t, o)) as [resp [t' o']]. cbn [snd].
    destruct Hc as [(code & pre & jwt & claims & first & rest & _ & _ & _ & _ & _ & Hv & Hr & Ha & _)|[Ha _]]; intros a; cbn; rewrite Ha.
    + intros [= <-]. exists jwt, (pre_nonce pre), claims. split_and!; [done..|by rewrite Hr|]. apply list_elem_of_here.
    + apply Hw.
  - rewrite on_session_eq. unfold logout. rewrite bind_eq. pose proof (clear_auth_spec t) as Hc. destruct (clear_auth t) as [x t1].
    destruct Hc as [_ Ha]. cbn [fst snd]. assert (session_ok (t1, o)) as H1.
    { intros a. cbn. rewrite Ha. destruct (is_ok x); [done|apply Hw]. }
    destruct x as [u|e]; [|exact H1]. rewrite bind_eq. pose proof (flush_spec t1) as Hf. destruct (flush t1) as [y t2]. cbn [snd].
    intros a. cbn. destruct Hf as [[-> _]|(_ & -> & _)]; [done|apply H1].
  - rewrite on_session_eq. unfold me. rewrite bind_eq. pose proof (load_auth_spec t) as Hl. destruct (load_auth t) as [x t1].
    destruct Hl as [Ha _]. intros a. cbn. rewrite Ha. apply Hw.
  - rewrite on_session_eq. unfold active_tenant. rewrite bind_eq. pose proof (load_auth_spec t) as Hl. destruct (load_auth t) as [x t1].
    destruct Hl as (Ha & _ & Hl). cbn [fst snd]. assert (session_ok (t1, o)) as H1 by (intros a; cbn; rewrite Ha; apply Hw).
    destruct x as [[auth|]|e]; [|exact H1..]. specialize (Hl _ eq_refl). destruct (existsb (str_eqb s) (authorized_slugs auth)) eqn:Hin; [|exact H1].
    cbn [negb]. rewrite bind_eq. match goal with |- context [store_auth ?p t1] => pose proof (store_auth_spec p t1) as Hs;
      destruct (store_auth p t1) as [y t2] end. destruct Hs as [_ Ha2]. cbn [fst snd]. intros a. cbn. rewrite Ha2.
    destruct (is_ok y); [|rewrite Ha; apply Hw]. intros [= <-]. destruct (Hw auth (eq_sym Hl)) as (jwt & nonce & claims & Hv & Hu & Hsl & _).
    exists jwt, nonce, claims. cbn. split_and!; [done..|]. apply existsb_exists in Hin as (s' & Hin & ->%str_eqb_true). by apply list_elem_of_In.
Qed.

Lemma serve_all_ok rs w : session_ok w → session_ok (serve_all rs w).2.
Proof.
  revert w; induction rs as [|r rs IH]; intros w Hw; [exact Hw|]. unfold serve_all. cbn [for_each]. rewrite bind_eq. apply IH.
  rewrite bind_eq. cbn. by apply serve_ok.
Qed.

(** C16: whatever requests a session that starts logged out has served, with
    whatever failures of the session store, the extractor lets a request through
    only for the tenant that the path names as its [slug], and only if that
    tenant is one that a token verified by the OIDC client resolves to; it hands
    on the session, which carries that token's subject. *)
Theorem extractor_admits_vouched rs t o params present (a : AuthorizedTenant) :
  auth_of t = None →
  (authorized_tenant params present (serve_all rs (t, o)).2.1).1 = Ok a →
  (∃ path_params : gmap string string, params = Some path_params ∧ path_params !! "slug" = Some (at_slug a)) ∧
  auth_of (serve_all rs (t, o)).2.1 = Some (at_session a) ∧
  ∃ jwt nonce claims, verify_claims jwt nonce = Ok claims ∧ user_id (at_session a) = claim_sub claims ∧
    at_slug a ∈ resolve_authorized_slugs (extract_oidc_extras jwt) tenants.
Proof.
  intros Hnone. assert (session_ok (serve_all rs (t, o)).2) as Hok by (apply serve_all_ok; intros x; cbn; by rewrite Hnone).
  destruct (serve_all rs (t, o)).2 as [t' o']. cbn [fst]. unfold authorized_tenant.
  destruct params as [path_params|]; [|done]. cbn [mbind option_bind].
  destruct (path_params !! "slug") as [s|] eqn:Hslug; [|done]. destruct present; [|done]. cbn [negb]. rewrite bind_eq.
  pose proof (load_auth_spec t') as Hl. destruct (load_auth t') as [x t2]. destruct Hl as (_ & _ & Hl). cbn [fst snd mret state_ret].
  destruct x as [[auth|]|e]; [|done..]. specialize (Hl _ eq_refl).
  destruct (existsb (str_eqb s) (authorized_slugs auth)) eqn:Hin; [|done]. intros [= <-]. cbn.
  split; [by exists path_params|]. split; [done|].
  destruct (Hok auth (eq_sym Hl)) as (jwt & nonce & claims & Hv & Hu & Hsl & _). exists jwt, nonce, claims. rewrite <- Hsl.
  split_and!; [done..|]. apply existsb_exists in Hin as (s' & Hin & ->%str_eqb_true). by apply list_elem_of_In.
Qed.
End sessions.

(** ** A concrete deployment *)
Module Example.

(** A session in memory, a provider that knows one code, and a token whose
    payload is already decoded. *)
Record Memory := mkMemory { m_auth : option AuthSession; m_pre : option PreAuthState }.
#[local] Instance memory_session : Session Memory := {|
  load_auth := λ t, (Ok (m_auth t), t);
  store_auth := λ a t, (Ok (), mkMemory (Some a) (m_pre t));
  clear_auth := λ t, (Ok (), mkMemory None (m_pre t));
  load_pre_auth := λ t, (Ok (m_pre t), t);
  store_pre_auth := λ p t, (Ok (), mkMemory (m_auth t) (Some p));
  clear_pre_auth := λ t, (Ok (), mkMemory (m_auth t) None);
  flush := λ _, (Ok (), mkMemory None None) |}.
#[local] Instance memory_spec : SessionSpec Memory.
Proof.
  refine {| auth_of := m_auth; pre_auth_of := m_pre |}; try done; try (by intros t; split_and!; [..|by intros o [= <-]]).
  intros t. by left.
Defined.

#[local] Instance dex : Oidc unit := {|
  authorize_url _ := mret ("https://dex/auth", "state-1", "nonce-1", "verifier-1");
  exchange_code code verifier :=
    mret (if str_eqb code "code-1" && str_eqb verifier "verifier-1" then Ok (Some "header.payload.signature")
          else Err (ExchangeFailed "invalid_grant"));
  verify_claims jwt nonce :=
    if str_eqb jwt "header.payload.signature" && str_eqb nonce "nonce-1" then Ok (mkClaims "user-1" None None) else Err "bad token" |}.
Definition payload : Json :=
  JObject [("groups", JArray [JString "acme:eng"; JString "acme"; JString "other"]);
           ("federated_claims", JObject [("connector_id", JString "github-acme")])].
#[local] Instance token_text : TokenText := {|
  base64_decode s := Some (bytes s);
  json_from_slice l := if bool_decide (l = bytes "payload") then Some payload else None |}.

Definition document : TenancyDocument :=
  mkDocument [mkApp "main" "12345" "shh" "key"]
    [mkTenant "acme-corp" None ["github-acme"] (Github (mkBinding "acme" "main"));
     mkTenant "other" None ["github-global"] (Github (mkBinding "other" "main"))].
Definition registry : TenancyRegistry :=
  match from_document document with Ok reg => reg | Err _ => mkRegistry (mkAppRegistry ∅) (mkTenantRegistry ∅ ∅ ∅) end.
Lemma document_accepted : from_document document = Ok registry.
Proof. vm_compute. reflexivity. Qed.

Definition requests : list AuthRequest :=
  [Login (Some "/runs"); Callback (mkCallback (Some "code-1") (Some "state-1") None None); ActiveTenant "other"].
Definition home : string := "/home".
Definition session : Memory := (serve_all (reg_tenants registry) home requests (mkMemory None None, ())).2.1.

Lemma authorized_slugs_spec_witness :
  resolve_authorized_slugs (extract_oidc_extras "header.payload.signature") (reg_tenants registry) = ["acme-corp"] ∧
  "other" ∉ resolve_authorized_slugs (extract_oidc_extras "header.payload.signature") (reg_tenants registry).
Proof.
  split; [vm_compute; reflexivity|].
  destruct (authorized_slugs_spec document registry (extract_oidc_extras "header.payload.signature") document_accepted) as [_ Hs].
  intros (t & c & g & Ht & Hsl & Hc & Hin & _)%Hs. vm_compute in Hc. injection Hc as <-.
  apply elem_of_cons in Ht as [->|Ht]; [discriminate Hsl|]. apply list_elem_of_singleton in Ht as ->.
  apply list_elem_of_singleton in Hin. discriminate Hin.
Defined.

Lemma extractor_admits_vouched_witness :
  at_slug <$> ok (authorized_tenant (Some {["slug" := "acme-corp"]}) true session).1 = Some "acme-corp" ∧
  (authorized_tenant (Some {["slug" := "other"]}) true session).1 = Err FORBIDDEN ∧
  ∃ jwt nonce claims, verify_claims jwt nonce = Ok claims ∧
    "acme-corp" ∈ resolve_authorized_slugs (extract_oidc_extras jwt) (reg_tenants registry).
Proof.
  split; [vm_compute; reflexivity|]. split; [vm_compute; reflexivity|].
  pose (a := match (authorized_tenant (Some {["slug" := "acme-corp"]}) true session).1 with
             | Ok a => a | Err _ => mkAuthorized "" (mkAuth "" None None [] "") end).
  assert ((authorized_tenant (Some {["slug" := "acme-corp"]}) true session).1 = Ok a) as Ha by (vm_compute; reflexivity).
  assert (auth_of (mkMemory None None) = None) as Hnone by (vm_compute; reflexivity).
  destruct (extractor_admits_vouched (reg_tenants registry) home requests (mkMemory None None) () _ _ a Hnone Ha)
    as (_ & _ & jwt & nonce & claims & Hv & _ & Hin).
  exists jwt, nonce, claims. split; [exact Hv|]. assert (at_slug a = "acme-corp") as <- by (vm_compute; reflexivity). exact Hin.
Defined.

Lemma callback_grants_verified_witness :
  let t := (login (Some "/runs") (mkMemory None None, ())).2.1 in
  granted (reg_tenants registry) home (mkCallback (Some "code-1") (Some "state-1") None None) t ()
    (callback (reg_tenants registry) home (mkCallback (Some "code-1") (Some "state-1") None None) (t, ())).2.1
    (redirect_to "/runs").
Proof.
  intros t. pose proof (callback_grants_verified (reg_tenants registry) home (mkCallback (Some "code-1") (Some "state-1") None None) t ()) as Hc.
  assert ((callback (reg_tenants registry) home (mkCallback (Some "code-1") (Some "state-1") None None) (t, ())).1 = redirect_to "/runs")
    as Hr by (vm_compute; reflexivity).
  destruct (callback _ _ _ (t, ())) as [resp [t' o']]. cbn [fst snd] in Hr |- *. subst resp. apply Hc. right. reflexivity.
Defined.

(** The check that a return target is a path lets a network path through:
    after such a login the browser is sent to another site. *)
Theorem return_to_may_leave_site :
  let t := (login (Some "//evil.example/") (mkMemory None None, ())).2.1 in
  (callback (reg_tenants registry) home (mkCallback (Some "code-1") (Some "state-1") None None) (t, ())).1 =
    redirect_to "//evil.example/".
Proof. vm_compute. reflexivity. Qed.
End Example.
