(* ===== verification/GithubProvider.v ===== *)
(** * Webhooks and retries (the providers crate, github.rs)

    From a delivery of GitHub, or a request to retry a run, to the coordinators
    it starts: which app signed the delivery, which tenant it is for, which
    pipelines of the repository it triggers, and what each run is told. GitHub's
    API, the signature primitives and the parsers are parameters; the store, the
    dispatcher, the history and the bucket are given by their type classes. The
    coordinators started are collected in [pw_started], each with the check run
    its reporter updates. *)

From S2P Require Import Prelude AppConfig Json Http Tenancy Pipeline StateStore Run SourceManager PodWatcher RunHistory Dispatcher Backplane Coordinator.

(** ** Deliveries *)

Record Repository := mkRepository { repo_owner : option string; repo_name : string }.

Record PushPayload := mkPush { after : string; git_ref : string }.
Inductive PullRequestAction := Opened | Synchronize | PrOther (action : string).
Record PullRequest := mkPr {
  head_repo : option Repository; head_sha : string; head_ref : string; base_ref : string; number : Z }.
Inductive CheckAction := Rerequested | CheckOther (action : string).

Inductive WebhookEventPayload :=
| Push (push : PushPayload)
| PullRequestEvent (action : PullRequestAction) (pull_request : PullRequest)
| CheckRun (action : CheckAction) (check_run : Json)
| CheckSuite (action : CheckAction) (check_suite : Json)
| OtherPayload.
Record WebhookEvent := mkEvent { repository : option Repository; specific : WebhookEventPayload }.

Definition GITHUB_EVENT_PUSH : string := "push".
Definition GITHUB_EVENT_PULL_REQUEST : string := "pull_request".
Definition GITHUB_EVENT_CHECK_RUN : string := "check_run".
Definition GITHUB_EVENT_CHECK_SUITE : string := "check_suite".
Definition GITHUB_EVENT_INSTALLATION : string := "installation".
Definition TRIGGER_RETRY : string := "retry".
Definition JEFFERIES_DIR : string := ".jefferies".

(** ** GitHub's API (octocrab) *)

Inductive ApiError := ApiStatus (code : Z) | ApiOther (msg : string).
(** An entry of a directory listing; its content, when there is one that can be
    decoded. *)
Record ContentItem := mkItem { item_type : string; item_name : string; item_path : string; decoded_content : option string }.
Inductive CheckRunConclusion := CcSuccess | CcFailure | CcCancelled | CcNeutral.

(** Clients authenticate as an app, or as an installation of it. *)
Class GithubApi (G : Type) : Type := {
  Key : Type;
  Client : Type;
  from_rsa_pem : list ascii → result string Key;
  app_client : Z → Key → result ApiError Client;
  get_repository_installation : Client → string → string → M G (result ApiError Z);
  installation_client : Client → Z → result ApiError Client;
  get_content : Client → string → string → string → string → M G (result ApiError (list ContentItem));
  download_tarball : Client → string → string → string → M G (result string (list Frame));
  create_check_run : Client → string → string → string → string → string → M G (result ApiError Z);
  complete_check_run : Client → string → string → Z → CheckRunConclusion → Z → M G (result ApiError unit);
}.

(** HMAC-SHA256 of a message under a key, hex, and the parsers. *)
Class WebhookLibraries : Type := {
  hmac : list ascii → list ascii → option (list ascii);
  hex_decode : string → option (list ascii);
  body_json : list ascii → option Json;
  try_from_header_and_body : string → list ascii → result string WebhookEvent;
}.

Inductive GithubError :=
| OctocrabError (e : ApiError)
| InvalidAppId
| InvalidPrivateKey (msg : string)
| InvalidPayload (msg : string)
| TenantBindingMissing (slug : string).
Inductive RetryError := UnknownRun | RetryBackend (msg : string).

(** ** Signatures and owners *)

Section deliveries.
Context `{WebhookLibraries, HashOrder}.

Definition signature_matches (payload : list ascii) (signature_header secret : string) : bool :=
  match strip_prefix "sha256=" signature_header with
  | None => false
  | Some hex_hash =>
      match hex_decode hex_hash with
      | None => false
      | Some expected_signature =>
          match hmac (bytes secret) payload with
          | None => false
          | Some tag => bool_decide (tag = expected_signature)
          end
      end
  end.

Definition identify_signing_app (apps : GithubAppRegistry) (body : list ascii) (signature_header : string)
  : option GithubAppConfig :=
  List.find (λ app, signature_matches body signature_header (app_webhook_secret app)) (hash_values (by_id apps)).

Inductive OwnerKind := User | Organization | UnknownOwner.
#[global] Instance owner_kind_eq_dec : EqDecision OwnerKind.
Proof. solve_decision. Defined.
Record OwnerInfo := mkOwner { login : string; kind : OwnerKind }.

Definition parse_owner_kind (raw : option string) : OwnerKind :=
  match raw with
  | Some s => if str_eqb s "Organization" then Organization else if str_eqb s "User" then User else UnknownOwner
  | None => UnknownOwner
  end.

(** [value.pointer(path).and_then(|v| v.as_str())] *)
Definition str_at (path : list string) (value : Json) : option string := json_pointer path value ≫= as_str.

Definition extract_owner_info (body : list ascii) : option OwnerInfo :=
  value ← body_json body;
  match str_at ["repository"; "owner"; "login"] value with
  | Some login => Some (mkOwner login (parse_owner_kind (str_at ["repository"; "owner"; "type"] value)))
  | None =>
      match str_at ["organization"; "login"] value with
      | Some login => Some (mkOwner login Organization)
      | None =>
          match str_at ["installation"; "account"; "login"] value with
          | Some login => Some (mkOwner login (parse_owner_kind (str_at ["installation"; "account"; "type"] value)))
          | None => None
          end
      end
  end.

Definition parse_push_ref (git_ref : string) : option string * option string :=
  match strip_prefix "refs/heads/" git_ref with
  | Some branch => (Some branch, None)
  | None =>
      match strip_prefix "refs/tags/" git_ref with
      | Some tag => (None, Some tag)
      | None => (None, None)
      end
  end.
End deliveries.

(** ** The provider's state *)

Record GithubCheckRunReporter (C : Type) := mkReporter { rep_crab : C; rep_owner : string; rep_repo : string; rep_check_run_id : Z }.
Arguments mkReporter {C}. Arguments rep_crab {C}. Arguments rep_owner {C}. Arguments rep_repo {C}. Arguments rep_check_run_id {C}.

Record InstallationReport := mkReport { ir_action : string; ir_account : string; ir_kind : OwnerKind; ir_registered : bool }.

Record Provider (S D H G B C : Type) := mkProvider {
  pw_store : S; pw_dispatcher : D; pw_history : H; pw_github : G; pw_bucket : Upload B;
  pw_reads : nat;
  pw_started : list (Coordinator S D H * option (GithubCheckRunReporter C));
  pw_installations : list InstallationReport;
}.
Arguments mkProvider {S D H G B C}. Arguments pw_store {S D H G B C}. Arguments pw_dispatcher {S D H G B C}.
Arguments pw_history {S D H G B C}. Arguments pw_github {S D H G B C}. Arguments pw_bucket {S D H G B C}.
Arguments pw_reads {S D H G B C}. Arguments pw_started {S D H G B C}. Arguments pw_installations {S D H G B C}.

(** What never changes: the settings and the registries. *)
Record ProviderState := mkState {
  ps_config : AppConfig; ps_tenants : TenantRegistry; ps_github_apps : GithubAppRegistry }.

Record PullRequestEventInfo := mkPrInfo {
  pri_owner : string; pri_repo : string; pri_sha : string; pri_head_branch : string; pri_base_branch : string;
  pri_pr_number : Z }.

Definition resolve_app_for_tenant (state : ProviderState) (tenant : TenantConfig) : option GithubAppConfig :=
  by_id (ps_github_apps state) !! app_ref (github_binding tenant).

Section provider.
Context {S D H G B : Type} `{SS : StateStore S, DD : Dispatcher D, RH : RunHistory H, GH : GithubApi G, S3 : S3Client B}.
Context `{HO : HashOrder, LB : Libraries, WL : WebhookLibraries}.
(** The YAML parser, fresh UUIDs and the clock. *)
Variables (parse : string → result string Pipeline) (new_uuid : nat → string) (clock : nat → Z).
Variable state : ProviderState.
Abbreviation W := (Provider S D H G B Client).
Abbreviation Reporter := (GithubCheckRunReporter Client).

Definition on_github {A} (f : M G A) : M W A := λ w,
  let '(a, g) := f (pw_github w) in
  (a, mkProvider (pw_store w) (pw_dispatcher w) (pw_history w) g (pw_bucket w) (pw_reads w) (pw_started w) (pw_installations w)).
Definition on_history {A} (f : M H A) : M W A := λ w,
  let '(a, h) := f (pw_history w) in
  (a, mkProvider (pw_store w) (pw_dispatcher w) h (pw_github w) (pw_bucket w) (pw_reads w) (pw_started w) (pw_installations w)).
Definition on_bucket {A} (f : M (Upload B) A) : M W A := λ w,
  let '(a, b) := f (pw_bucket w) in
  (a, mkProvider (pw_store w) (pw_dispatcher w) (pw_history w) (pw_github w) b (pw_reads w) (pw_started w) (pw_installations w)).
(** [Utc::now()] and [Uuid::new_v4()] *)
Definition read {A} (source : nat → A) : M W A := λ w,
  (source (pw_reads w), mkProvider (pw_store w) (pw_dispatcher w) (pw_history w) (pw_github w) (pw_bucket w)
                          (Datatypes.S (pw_reads w)) (pw_started w) (pw_installations w)).
Definition report (r : InstallationReport) : M W unit := λ w,
  ((), mkProvider (pw_store w) (pw_dispatcher w) (pw_history w) (pw_github w) (pw_bucket w) (pw_reads w) (pw_started w)
         (pw_installations w ++ [r])).
(** [start_coordinator(..).await]: whether it took the lease. *)
Definition start (run_id : string) (pipeline : Pipeline) (reporter : option Reporter) (rc : RunContext) : M W bool := λ w,
  let '(server_id, w) := read new_uuid w in
  let '(t, w) := read clock w in
  let '(c, (s, d, h)) := start_coordinator run_id server_id pipeline (ps_config state) (bool_decide (is_Some reporter)) rc t
                           (pw_store w) (pw_dispatcher w) (pw_history w) in
  (bool_decide (is_Some c),
   mkProvider s d h (pw_github w) (pw_bucket w) (pw_reads w)
     (pw_started w ++ match c with Some c => [(c, reporter)] | None => [] end) (pw_installations w)).

(** ** Clients and check runs *)

Definition build_installation_client (owner repo : string) (app : GithubAppConfig) : M W (result GithubError Client) :=
  match parse_u64 (app_app_id app) with
  | None => mret (Err InvalidAppId)
  | Some app_id =>
      match from_rsa_pem (bytes (app_private_key app)) with
      | Err e => mret (Err (InvalidPrivateKey e))
      | Ok key =>
          match app_client app_id key with
          | Err e => mret (Err (OctocrabError e))
          | Ok app_crab =>
              installation ← on_github (get_repository_installation app_crab owner repo);
              mret (id ← map_err OctocrabError installation; map_err OctocrabError (installation_client app_crab id))
          end
      end
  end.

Definition create_check_run_reporter (crab : Client) (owner repo sha run_id pipeline_name : string)
  : M W (option Reporter * option Z) :=
  created ← on_github (create_check_run crab owner repo pipeline_name sha run_id);
  mret match created with
       | Ok id => (Some (mkReporter crab owner repo id), Some (as_i64 id))
       | Err _ => (None, None)
       end.

Definition conclusion_of (status : RunStatus) : CheckRunConclusion :=
  match status with
  | RsSuccess => CcSuccess | RsFailure => CcFailure | RsCancelled => CcCancelled | RsInProgress => CcNeutral
  end.
Definition report_completed (reporter : Reporter) (status : RunStatus) : M W unit :=
  t ← read clock;
  _ ← on_github (complete_check_run (rep_crab reporter) (rep_owner reporter) (rep_repo reporter) (rep_check_run_id reporter)
                   (conclusion_of status) t);
  mret ().

(** [GithubCheckRunReporterFactory::for_run], for a run that is taken over. *)
Definition for_run (rc : RunContext) : M W (option Reporter) :=
  match rc_github_check_run_id rc, rc_tenant_slug rc with
  | Some check_run_id, Some tenant_slug =>
      match by_slug (ps_tenants state) !! tenant_slug ≫= resolve_app_for_tenant state with
      | None => mret None
      | Some app =>
          client ← build_installation_client (rc_owner rc) (rc_repo rc) app;
          mret match client with
               | Ok crab => Some (mkReporter crab (rc_owner rc) (rc_repo rc) (as_u64 check_run_id))
               | Err _ => None
               end
      end
  | _, _ => mret None
  end.

(** ** Launching a run *)

Definition with_check_run_id (rc : RunContext) (id : option Z) : RunContext :=
  mkRunContext (rc_owner rc) (rc_repo rc) (rc_sha rc) (rc_branch rc) (rc_target_branch rc) (rc_tag rc) (rc_pr_number rc)
    (rc_trigger rc) (rc_pipeline_yaml rc) (rc_created_at rc) (rc_retry_of rc) (rc_tenant_slug rc) id.

(** The fuel of an upload is enough (SourceManager.v), so [None] never occurs. *)
Definition upload_source_for (run_id : string) (rc : RunContext) (install_crab : Client) : M W bool :=
  download ← on_github (download_tarball install_crab (rc_owner rc) (rc_repo rc) (rc_sha rc));
  r ← on_bucket (upload_source run_id download);
  mret match r with Some (Ok _) => true | _ => false end.

Definition launch_coordinator_for_pipeline (pipeline : Pipeline) (rc : RunContext) (install_crab : Client)
  : M W (option string) :=
  run_id ← read new_uuid;
  let needs_source := existsb ni_checkout (node_info pipeline) in
  source_ready ← (if needs_source then upload_source_for run_id rc install_crab else mret true);
  if (source_ready : bool) then
    '(status_reporter, check_run_id) ←
      create_check_run_reporter install_crab (rc_owner rc) (rc_repo rc) (rc_sha rc) run_id (pl_name pipeline);
    acquired ← start run_id pipeline status_reporter (with_check_run_id rc check_run_id);
    mret (if (acquired : bool) then Some run_id else None)
  else mret None.

(** ** The pipelines of a repository *)

Definition fetch_file_content (crab : Client) (owner repo path sha : string) : M W (result GithubError (option string)) :=
  r ← on_github (get_content crab owner repo path sha);
  mret match r with
       | Err e => Err (OctocrabError e)
       | Ok content_items => Ok (head content_items ≫= decoded_content)
       end.

Definition matching_file (crab : Client) (owner repo sha : string) (matches_event : Pipeline → bool) (item : ContentItem)
  : M W (list (string * Pipeline)) :=
  if negb (str_eqb (item_type item) "file") then mret []
  else if negb (ends_with ".yaml" (item_name item)) && negb (ends_with ".yml" (item_name item)) then mret []
  else
    content ← fetch_file_content crab owner repo (item_path item) sha;
    mret match content with
         | Ok (Some yaml_content) =>
             match from_yaml parse yaml_content with
             | Ok pipeline => if matches_event pipeline then [(yaml_content, pipeline)] else []
             | Err _ => []
             end
         | Ok None | Err _ => []
         end.

Fixpoint matching_files (crab : Client) (owner repo sha : string) (matches_event : Pipeline → bool) (items : list ContentItem)
  : M W (list (string * Pipeline)) :=
  match items with
  | [] => mret []
  | item :: items =>
      here ← matching_file crab owner repo sha matches_event item;
      rest ← matching_files crab owner repo sha matches_event items;
      mret (here ++ rest)
  end.

Definition is_not_found (e : ApiError) : bool := match e with ApiStatus code => (code =? 404)%Z | ApiOther _ => false end.

Definition find_matching_pipelines (crab : Client) (owner repo sha : string) (matches_event : Pipeline → bool)
  : M W (result GithubError (list (string * Pipeline))) :=
  dir_contents ← on_github (get_content crab owner repo JEFFERIES_DIR sha);
  match dir_contents with
  | Err e => mret (if is_not_found e then Ok [] else Err (OctocrabError e))
  | Ok items => matching ← matching_files crab owner repo sha matches_event items; mret (Ok matching)
  end.

(** ** Runs of an event *)

Definition launch_each (install_crab : Client) (context : string → Z → RunContext) (matching : list (string * Pipeline))
  : M W unit :=
  for_each matching (λ '(raw_yaml, pipeline),
    created_at ← read clock;
    _ ← launch_coordinator_for_pipeline pipeline (context raw_yaml created_at) install_crab;
    mret ()).

Definition push_context (owner repo sha : string) (branch tag : option string) (tenant_slug : string)
    (raw_yaml : string) (created_at : Z) : RunContext :=
  mkRunContext owner repo sha branch None tag None GITHUB_EVENT_PUSH raw_yaml created_at None (Some tenant_slug) None.

Definition start_push_pipelines (owner repo sha git_ref : string) (tenant : TenantConfig) : M W (result GithubError unit) :=
  match resolve_app_for_tenant state tenant with
  | None => mret (Err (TenantBindingMissing (slug tenant)))
  | Some app =>
      install_crab ←? build_installation_client owner repo app;
      let '(branch, tag) := parse_push_ref git_ref in
      matching ←? find_matching_pipelines install_crab owner repo sha (λ pipeline, triggered_by_push pipeline branch tag);
      _ ← launch_each install_crab (push_context owner repo sha branch tag (slug tenant)) matching;
      mret (Ok ())
  end.

Definition pr_context (event : PullRequestEventInfo) (tenant_slug raw_yaml : string) (created_at : Z) : RunContext :=
  mkRunContext (pri_owner event) (pri_repo event) (pri_sha event) (Some (pri_head_branch event)) (Some (pri_base_branch event))
    None (Some (pri_pr_number event)) GITHUB_EVENT_PULL_REQUEST raw_yaml created_at None (Some tenant_slug) None.

Definition start_pr_pipelines (event : PullRequestEventInfo) (tenant : TenantConfig) : M W (result GithubError unit) :=
  match resolve_app_for_tenant state tenant with
  | None => mret (Err (TenantBindingMissing (slug tenant)))
  | Some app =>
      install_crab ←? build_installation_client (pri_owner event) (pri_repo event) app;
      matching ←? find_matching_pipelines install_crab (pri_owner event) (pri_repo event) (pri_sha event)
                    (λ pipeline, triggered_by_pull_request pipeline (pri_base_branch event));
      _ ← launch_each install_crab (pr_context event (slug tenant)) matching;
      mret (Ok ())
  end.

(** ** Retries *)

Definition retry_context (d : RunDetails) (run_id tenant_slug : string) (created_at : Z) : RunContext :=
  mkRunContext (rd_owner d) (rd_repo d) (rd_sha d) (rd_branch d) (rd_target_branch d) (rd_tag d) (rd_pr_number d)
    TRIGGER_RETRY (rd_pipeline_definition d) created_at (Some run_id) (Some tenant_slug) None.

(** The tenant, the app and the pipeline of a retry. *)
Definition retry_setup (expected_slug : string) (d : RunDetails) : result RetryError (GithubAppConfig * Pipeline) :=
  match rd_tenant_slug d with
  | None => Err (RetryBackend "missing tenant_slug")
  | Some tenant_slug =>
      if negb (str_eqb tenant_slug expected_slug) then Err UnknownRun
      else match by_slug (ps_tenants state) !! tenant_slug with
           | None => Err (RetryBackend "tenant unregistered")
           | Some tenant =>
               match resolve_app_for_tenant state tenant with
               | None => Err (RetryBackend "tenant binding missing")
               | Some app =>
                   match from_yaml parse (rd_pipeline_definition d) with
                   | Err _ => Err (RetryBackend "pipeline parse")
                   | Ok pipeline => Ok (app, pipeline)
                   end
               end
           end
  end.

Definition retry_pipeline_run (expected_slug run_id : string) : M W (result RetryError string) :=
  original ← on_history (get_pipeline_run run_id);
  match original with
  | Err _ => mret (Err (RetryBackend "history lookup"))
  | Ok None => mret (Err UnknownRun)
  | Ok (Some row) =>
      let d := row_details row in
      match retry_setup expected_slug d with
      | Err e => mret (Err e)
      | Ok (app, pipeline) =>
          client ← build_installation_client (rd_owner d) (rd_repo d) app;
          match client with
          | Err _ => mret (Err (RetryBackend "install client"))
          | Ok install_crab =>
              created_at ← read clock;
              launched ← launch_coordinator_for_pipeline pipeline (retry_context d run_id expected_slug created_at) install_crab;
              mret match launched with
                   | Some new_run_id => Ok new_run_id
                   | None => Err (RetryBackend "coordinator launch failed")
                   end
          end
      end
  end.

(** The route handler: the status and the id of the new run. *)
Definition retry_run (slug run_id : string) : M W (Z * option string) :=
  r ← retry_pipeline_run slug run_id;
  mret match r with
       | Ok new_run_id => (OK, Some new_run_id)
       | Err UnknownRun => (NOT_FOUND, None)
       | Err _ => (INTERNAL_SERVER_ERROR, None)
       end.

Definition trigger_retry_for_run (tenant : TenantConfig) (run_id : string) : M W unit :=
  _ ← retry_pipeline_run (slug tenant) run_id; mret ().

(** ** Event handlers *)

Definition parse_event (event_type : string) (payload : list ascii) : result GithubError WebhookEvent :=
  map_err InvalidPayload (try_from_header_and_body event_type payload).
Definition require {A} (o : option A) (msg : string) : result GithubError A :=
  match o with Some a => Ok a | None => Err (InvalidPayload msg) end.

Definition push_event (payload : list ascii) : result GithubError (string * string * PushPayload) :=
  event ← parse_event GITHUB_EVENT_PUSH payload;
  match specific event with
  | Push push =>
      repo ← require (repository event) "Missing repository information in push event";
      owner ← require (repo_owner repo) "Missing owner information in push event";
      Ok (owner, repo_name repo, push)
  | _ => Err (InvalidPayload "Bad push event payload")
  end.

Definition handle_push (payload : list ascii) (tenant : TenantConfig) : M W (result GithubError Z) :=
  asked ←? mret (push_event payload);
  let '(owner, repo_name, push) := asked in
  _ ←? start_push_pipelines owner repo_name (after push) (git_ref push) tenant;
  mret (Ok OK).

(** What a pull request event asks for: nothing for the actions that are not
    supported. *)
Definition pull_request_event (payload : list ascii) : result GithubError (option PullRequestEventInfo) :=
  event ← parse_event GITHUB_EVENT_PULL_REQUEST payload;
  match specific event with
  | PullRequestEvent action pr =>
      match action with
      | PrOther _ => Ok None
      | Opened | Synchronize =>
          head_repo ← require (head_repo pr) "Missing repository information in pull request event";
          owner ← require (repo_owner head_repo) "Missing owner information in pull request event";
          Ok (Some (mkPrInfo owner (repo_name head_repo) (head_sha pr) (head_ref pr) (base_ref pr) (as_i64 (number pr))))
      end
  | _ => Err (InvalidPayload "Bad pull request event payload")
  end.

Definition handle_pull_request (payload : list ascii) (tenant : TenantConfig) : M W (result GithubError Z) :=
  asked ←? mret (pull_request_event payload);
  match asked with
  | None => mret (Ok NOT_IMPLEMENTED)
  | Some event => _ ←? start_pr_pipelines event tenant; mret (Ok OK)
  end.

(** [v.get(key).and_then(|v| v.as_str()).filter(|s| !s.is_empty())] *)
Definition non_empty_str (key : string) (v : Json) : option string :=
  s ← json_get key v ≫= as_str; if str_eqb s "" then None else Some s.

Definition handle_check_run (payload : list ascii) (tenant : TenantConfig) : M W (result GithubError Z) :=
  event ←? mret (parse_event GITHUB_EVENT_CHECK_RUN payload);
  match specific event with
  | CheckRun Rerequested check_run =>
      match non_empty_str "external_id" check_run with
      | None => mret (Ok OK)
      | Some external_id => _ ← trigger_retry_for_run tenant external_id; mret (Ok OK)
      end
  | CheckRun (CheckOther _) _ => mret (Ok OK)
  | _ => mret (Err (InvalidPayload "Bad check_run event payload"))
  end.

Definition handle_check_suite (payload : list ascii) (tenant : TenantConfig) : M W (result GithubError Z) :=
  event ←? mret (parse_event GITHUB_EVENT_CHECK_SUITE payload);
  match specific event with
  | CheckSuite Rerequested check_suite =>
      repo ←? mret (require (repository event) "Missing repository information in check_suite event");
      owner ←? mret (require (repo_owner repo) "Missing owner information in check_suite event");
      match non_empty_str "head_sha" check_suite with
      | None => mret (Ok OK)
      | Some head_sha =>
          originating ← on_history (list_originating_runs_for_sha (slug tenant) owner (repo_name repo) head_sha);
          match originating with
          | Err _ => mret (Ok OK)
          | Ok rows => _ ← for_each rows (λ row, trigger_retry_for_run tenant (row_run_id row)); mret (Ok OK)
          end
      end
  | CheckSuite (CheckOther _) _ => mret (Ok OK)
  | _ => mret (Err (InvalidPayload "Bad check_suite event payload"))
  end.

(** ** The webhook *)

Definition handle_installation (body : list ascii) : M W Z :=
  match body_json body with
  | None => mret OK
  | Some value =>
      let action := default "unknown" (json_get "action" value ≫= as_str) in
      let account := default "" (str_at ["installation"; "account"; "login"] value) in
      let kind := parse_owner_kind (str_at ["installation"; "account"; "type"] value) in
      let registered := existsb (λ tenant, str_eqb (org_name (github_binding tenant)) account)
                          (hash_values (by_slug (ps_tenants state))) in
      _ ← report (mkReport action account kind registered);
      mret OK
  end.

(** The app that signed a delivery and the tenant it is for, or the answer when
    there is none. *)
Definition authenticate (event_type signature : string) (body : list ascii) : result Z TenantConfig :=
  match identify_signing_app (ps_github_apps state) body signature with
  | None => Err UNAUTHORIZED
  | Some matched_app =>
      match extract_owner_info body with
      | None => Err OK
      | Some owner_info =>
          if negb (bool_decide (kind owner_info = Organization)) then Err OK
          else match by_app_and_org (ps_tenants state) !! (app_id_of matched_app, login owner_info) with
               | None => Err OK
               | Some tenant => Ok tenant
               end
      end
  end.

Definition answer (handled : M W (result GithubError Z)) : M W Z :=
  r ← handled; mret match r with Ok status => status | Err _ => INTERNAL_SERVER_ERROR end.

Definition dispatch_event (event_type : string) (body : list ascii) (tenant : TenantConfig) : M W Z :=
  if str_eqb event_type GITHUB_EVENT_PUSH then answer (handle_push body tenant)
  else if str_eqb event_type GITHUB_EVENT_PULL_REQUEST then answer (handle_pull_request body tenant)
  else if str_eqb event_type GITHUB_EVENT_CHECK_RUN then answer (handle_check_run body tenant)
  else if str_eqb event_type GITHUB_EVENT_CHECK_SUITE then answer (handle_check_suite body tenant)
  else mret OK.

(** [get_header]: what [headers.get(key)] reads as text, or nothing. *)
Definition get_header (headers : string → option string) (key : string) : string := default "" (headers key).

Definition handle_webhook (headers : string → option string) (body : list ascii) : M W Z :=
  let event_type := get_header headers "X-GitHub-Event" in
  if str_eqb event_type GITHUB_EVENT_INSTALLATION then handle_installation body
  else
    match authenticate event_type (get_header headers "X-Hub-Signature-256") body with
    | Err status => mret status
    | Ok tenant => dispatch_event event_type body tenant
    end.
End provider.
