(* ===== verification/GithubTheorems.v ===== *)
(** * What webhooks and retries start

    Theorems about GithubProvider.v: deliveries act for the tenant whose app
    signed them, events start the triggered pipelines of the commit, retries
    repeat a recorded run of the same tenant, and a run has its source before it
    has a lease. *)

From S2P Require Import Prelude AppConfig Json Http Tenancy Pipeline StateStore Run SourceManager PodWatcher RunHistory Dispatcher Backplane KubeDispatcher Coordinator GithubProvider.

(** ** Lemmas *)

Section facts.
Context {S D H G B : Type} `{SS : StateStore S, DD : Dispatcher D, RH : RunHistory H, GH : GithubApi G, S3 : S3Client B}.
Context `{HO : HashOrder, LB : Libraries, WL : WebhookLibraries}.
Context (parse : string → result string Pipeline) (new_uuid : nat → string) (clock : nat → Z) (state : ProviderState).
Abbreviation W := (Provider S D H G B Client).
Abbreviation Run := (Coordinator S D H * option (GithubCheckRunReporter Client))%type.
Abbreviation launch := (launch_coordinator_for_pipeline (S:=S) (D:=D) (H:=H) (G:=G) (B:=B) new_uuid clock state).
Implicit Types (w : W) (p : Run).

Definition context_of p : RunContext := c_run_context (const p.1).

(** The runs started between two states, in order. *)
Definition starts (P : Run → Prop) w w' : Prop := ∃ new, pw_started w' = pw_started w ++ new ∧ Forall P new.
#[export] Instance starts_preorder P : PreOrder (starts P).
Proof.
  split; [intros w; exists []; by rewrite app_nil_r|].
  intros w1 w2 w3 (n1 & H1 & F1) (n2 & H2 & F2). exists (n1 ++ n2). by rewrite H2, H1, (assoc_L (++)), Forall_app.
Qed.
Lemma starts_mono (P Q : Run → Prop) w w' : (∀ p, P p → Q p) → starts P w w' → starts Q w w'.
Proof. intros HPQ (new & Hn & HP). exists new. split; [done|]. by eapply Forall_impl. Qed.
Lemma starts_none P w w' : pw_started w' = pw_started w → starts P w w'.
Proof. intros Heq. exists []. by rewrite app_nil_r. Qed.

Lemma on_github_starts P {A} (f : M G A) : preserves (starts P) (on_github (S:=S) (D:=D) (H:=H) (B:=B) f).
Proof. intros w. apply starts_none. unfold on_github. by destruct (f _). Qed.
Lemma on_history_starts P {A} (f : M H A) : preserves (starts P) (on_history (S:=S) (D:=D) (G:=G) (B:=B) f).
Proof. intros w. apply starts_none. unfold on_history. by destruct (f _). Qed.
Lemma on_bucket_starts P {A} (f : M (Upload B) A) : preserves (starts P) (on_bucket (S:=S) (D:=D) (H:=H) (G:=G) f).
Proof. intros w. apply starts_none. unfold on_bucket. by destruct (f _). Qed.
Lemma read_starts P {A} (source : nat → A) : preserves (starts P) (read (S:=S) (D:=D) (H:=H) (G:=G) (B:=B) source).
Proof. intros w. by apply starts_none. Qed.

(** A run as it is launched: its pipeline, its context with the check run that
    was created for it, and the reporter of that check run. *)
Record launched_as (pipeline : Pipeline) (rc : RunContext) (crab : Client) p : Prop := {
  la_pipeline : c_pipeline (const p.1) = pipeline;
  la_context : context_of p = with_check_run_id rc (as_i64 ∘ rep_check_run_id <$> p.2);
  la_has_reporter : c_has_reporter (const p.1) = bool_decide (is_Some p.2);
  la_reporter r : p.2 = Some r → rep_crab r = crab ∧ rep_owner r = rc_owner rc ∧ rep_repo r = rc_repo rc;
}.

Lemma start_task_spec run_id pipeline reporter rc w :
  let '(acquired, w') := start new_uuid clock state run_id pipeline reporter rc w in
  if (acquired : bool) then ∃ c, pw_started w' = pw_started w ++ [(c, reporter)] ∧ c_run_id (const c) = run_id ∧
    c_pipeline (const c) = pipeline ∧ c_run_context (const c) = rc ∧ c_has_reporter (const c) = bool_decide (is_Some reporter)
  else pw_started w' = pw_started w.
Proof.
  unfold start, start_coordinator, read. cbn. destruct (try_acquire_lease _ _ _ _) as [[[v|]|e] s]; cbn; [|by rewrite app_nil_r..].
  destruct (record_pipeline_started _ _) as [r h]. destruct (initialize_run_state _ _ _ _) as [[[run version] rehydrate] s'].
  destruct (start_pod_watcher _ _ _) as [b d]. cbn. by eexists.
Qed.

Lemma create_check_run_spec crab owner repo sha run_id name w :
  let '((rep, id), w') := create_check_run_reporter crab owner repo sha run_id name w in
  pw_started w' = pw_started w ∧ id = as_i64 ∘ rep_check_run_id <$> rep ∧
  ∀ r, rep = Some r → rep_crab r = crab ∧ rep_owner r = owner ∧ rep_repo r = repo.
Proof.
  unfold create_check_run_reporter. rewrite bind_eq. unfold on_github. destruct (create_check_run _ _ _ _ _ _ _) as [[id|e] g]; cbn;
    (split; [done|]; split; [done|]); by intros r [= <-].
Qed.

Lemma upload_source_for_spec run_id rc crab w : pw_started (upload_source_for run_id rc crab w).2 = pw_started w.
Proof.
  unfold upload_source_for. rewrite !bind_eq. unfold on_github, on_bucket.
  destruct (download_tarball _ _ _ _ _) as [dl g]. cbn. by destruct (upload_source _ _ _).
Qed.

Lemma launch_spec pipeline rc crab w :
  let '(r, w') := launch pipeline rc crab w in
  match r with
  | Some run_id => ∃ p, pw_started w' = pw_started w ++ [p] ∧ c_run_id (const p.1) = run_id ∧ launched_as pipeline rc crab p
  | None => pw_started w' = pw_started w
  end.
Proof.
  unfold launch_coordinator_for_pipeline. rewrite bind_eq. cbn [read fst snd]. set (w1 := mkProvider _ _ _ _ _ _ _ _).
  set (ready := if existsb ni_checkout _ then _ else _). rewrite bind_eq.
  assert (pw_started (ready w1).2 = pw_started w) as Hready.
  { unfold ready. case_match; [|done]. by rewrite upload_source_for_spec. }
  destruct (ready w1) as [[] w2]; [|done]. cbn [fst snd] in Hready |- *. rewrite bind_eq.
  match goal with |- context [create_check_run_reporter ?c ?o ?r ?s ?i ?n w2] =>
    pose proof (create_check_run_spec c o r s i n w2) as Hc; destruct (create_check_run_reporter c o r s i n w2) as [[rep id] w3] end.
  destruct Hc as (H3 & -> & Hrep). cbn [fst snd]. rewrite bind_eq.
  match goal with |- context [start _ _ _ ?i ?p ?r ?c w3] => pose proof (start_task_spec i p r c w3) as Hs;
    destruct (start new_uuid clock state i p r c w3) as [[] w4] end; cbn.
  - destruct Hs as (c & Hst & Hid & Hp & Hrc & Hhas). exists (c, rep). rewrite Hst, H3, Hready.
    split_and!; [done|done|by split].
  - by rewrite Hs, H3.
Qed.

(** Why a launch starts no run: its pipeline checks out the source, and this could
    not be downloaded or uploaded, or the store does not grant the lease. *)
Definition launch_refused pipeline (rc : RunContext) crab w : Prop :=
  let run_id := new_uuid (pw_reads w) in
  (existsb ni_checkout (node_info pipeline) = true ∧
   let '(download, _) := download_tarball crab (rc_owner rc) (rc_repo rc) (rc_sha rc) (pw_github w) in
   (upload_source run_id download (pw_bucket w)).1 ≠ Some (Ok ())) ∨
  (∃ server_id, ∀ version, (try_acquire_lease run_id server_id 30 (pw_store w)).1 ≠ Ok (Some version)).

Lemma start_refused run_id pipeline reporter rc w : (start new_uuid clock state run_id pipeline reporter rc w).1 = false →
  ∃ server_id, ∀ version, (try_acquire_lease run_id server_id 30 (pw_store w)).1 ≠ Ok (Some version).
Proof.
  intros Hno. exists (new_uuid (pw_reads w)). intros v Hv. revert Hno. unfold start, start_coordinator, read. cbn.
  destruct (try_acquire_lease _ _ _ _) as [[[v'|]|e] s]; cbn in Hv |- *; [|done..].
  destruct (record_pipeline_started _ _) as [r h]. destruct (initialize_run_state _ _ _ _) as [[[run version] rehydrate] s'].
  by destruct (start_pod_watcher _ _ _) as [b d].
Qed.

Lemma launch_none pipeline rc crab w : (launch pipeline rc crab w).1 = None → launch_refused pipeline rc crab w.
Proof.
  unfold launch_refused, launch_coordinator_for_pipeline. rewrite bind_eq. cbn [read fst snd]. set (w1 := mkProvider _ _ _ _ _ _ _ _).
  set (ready := if existsb ni_checkout _ then _ else _). rewrite bind_eq.
  assert (pw_store (ready w1).2 = pw_store w ∧ ((ready w1).1 = false → existsb ni_checkout (node_info pipeline) = true ∧
    let '(download, _) := download_tarball crab (rc_owner rc) (rc_repo rc) (rc_sha rc) (pw_github w) in
    (upload_source (new_uuid (pw_reads w)) download (pw_bucket w)).1 ≠ Some (Ok ()))) as [Hstore Hready].
  { unfold ready. destruct (existsb _ _); [|done]. unfold upload_source_for. rewrite !bind_eq. unfold on_github, on_bucket. cbn.
    destruct (download_tarball _ _ _ _ _) as [dl g]. cbn. destruct (upload_source _ _ _) as [[[[]|e]|] u]; cbn; by split; [|intros ?; split]. }
  destruct (ready w1) as [[] w2]; cbn [fst snd] in *; [|intros _; left; by apply Hready]. rewrite bind_eq.
  unfold create_check_run_reporter. rewrite bind_eq. unfold on_github. destruct (create_check_run _ _ _ _ _ _ _) as [created g].
  cbn [fst snd mret state_ret]. set (w3 := mkProvider _ _ _ _ _ _ _ _). destruct (match created with Ok _ => _ | Err _ => _ end) as [rep id].
  rewrite bind_eq. match goal with |- context [start _ _ _ ?i ?p ?r ?c w3] => pose proof (start_refused i p r c w3) as Hs;
    destruct (start new_uuid clock state i p r c w3) as [[] w4] end; cbn; [done|]. intros _. right.
  destruct (Hs eq_refl) as [server Hv]. exists server. intros v. specialize (Hv v). cbn in Hv. by rewrite Hstore in Hv.
Qed.

Lemma launch_starts P pipeline rc crab : (∀ p, launched_as pipeline rc crab p → P p) → preserves (starts P) (launch pipeline rc crab).
Proof.
  intros HP w. pose proof (launch_spec pipeline rc crab w) as Hs. destruct (launch pipeline rc crab w) as [[id|] w']; cbn in *.
  - destruct Hs as (p & Hst & _ & Hp). exists [p]. split; [done|]. constructor; [by apply HP|done].
  - by apply starts_none.
Qed.

(** *** Clients *)

(** A client of the installation of the app on the repository. *)
Definition client_of (app : GithubAppConfig) (owner repo : string) (crab : Client) : Prop :=
  ∃ app_id key app_crab installation (g : G),
    parse_u64 (app_app_id app) = Some app_id ∧ from_rsa_pem (bytes (app_private_key app)) = Ok key ∧
    app_client app_id key = Ok app_crab ∧ (get_repository_installation app_crab owner repo g).1 = Ok installation ∧
    installation_client app_crab installation = Ok crab.

Lemma client_spec owner repo app w :
  let '(r, w') := build_installation_client owner repo app w in
  pw_started w' = pw_started w ∧ ∀ crab, r = Ok crab → client_of app owner repo crab.
Proof.
  unfold build_installation_client. destruct (parse_u64 _) as [app_id|] eqn:Hid; [|done].
  destruct (from_rsa_pem _) as [key|e] eqn:Hkey; [|done]. destruct (app_client _ _) as [app_crab|e] eqn:Happ; [|done].
  rewrite bind_eq. unfold on_github. destruct (get_repository_installation _ _ _ _) as [[inst|e] g] eqn:Hinst; cbn; [|done].
  split; [done|]. intros crab Hc. destruct (installation_client _ _) as [c|e] eqn:Hcl; simplify_eq/=.
  exists app_id, key, app_crab, inst, (pw_github w). by rewrite Hinst.
Qed.

(** *** The files of a commit *)

(** Whether a file is a pipeline that the event triggers. *)
Definition triggered_file (matches_event : Pipeline → bool) (content : result ApiError (list ContentItem))
  : option (string * Pipeline) :=
  items ← ok content; item ← head items; yaml ← decoded_content item; pipeline ← ok (from_yaml parse yaml);
  if matches_event pipeline then Some (yaml, pipeline) else None.
Definition pipeline_file (item : ContentItem) : bool :=
  str_eqb (item_type item) "file" && (ends_with ".yaml" (item_name item) || ends_with ".yml" (item_name item)).

Section served.
(** The contents of a commit do not change. *)
Context (contents : Client → string → string → string → string → result ApiError (list ContentItem)).
Context (served : ∀ crab owner repo path sha (g : G), (get_content crab owner repo path sha g).1 = contents crab owner repo path sha).

(** The pipelines of a commit that an event triggers, in the order of the
    listing. *)
Definition triggered_pipelines (crab : Client) (owner repo sha : string) (matches_event : Pipeline → bool) : list (string * Pipeline) :=
  omap (λ item, if pipeline_file item then triggered_file matches_event (contents crab owner repo (item_path item) sha) else None)
    (default [] (ok (contents crab owner repo JEFFERIES_DIR sha))).

Lemma get_content_eq crab owner repo path sha w :
  let '(r, w') := on_github (get_content crab owner repo path sha) w in
  r = contents crab owner repo path sha ∧ pw_started w' = pw_started w.
Proof.
  unfold on_github. rewrite <-(served crab owner repo path sha (pw_github w)). by destruct (get_content _ _ _ _ _ _).
Qed.

Lemma matching_file_spec crab owner repo sha f item w :
  let '(r, w') := matching_file parse crab owner repo sha f item w in
  r = option_list (if pipeline_file item then triggered_file f (contents crab owner repo (item_path item) sha) else None) ∧
  pw_started w' = pw_started w.
Proof.
  unfold matching_file, pipeline_file. destruct (str_eqb _ "file"); [|done]. cbn [negb andb].
  rewrite <-negb_orb. destruct (_ || _); [|done]. cbn [negb]. rewrite bind_eq. unfold fetch_file_content. rewrite bind_eq.
  pose proof (get_content_eq crab owner repo (item_path item) sha w) as Hc.
  destruct (on_github _ w) as [r w']. destruct Hc as [-> Hw]. cbn [fst snd mret state_ret]. split; [|done].
  unfold triggered_file. destruct (contents _ _ _ _ _) as [items|e]; [|done]. cbn.
  destruct (head items) as [it|]; [|done]. cbn. destruct (decoded_content it) as [yaml|]; [|done]. cbn.
  destruct (from_yaml parse yaml) as [pl|e]; [|done]. cbn. by destruct (f pl).
Qed.

Lemma find_matching_spec crab owner repo sha f w :
  let '(r, w') := find_matching_pipelines parse crab owner repo sha f w in
  pw_started w' = pw_started w ∧
  match r with
  | Ok matching => matching = triggered_pipelines crab owner repo sha f
  | Err _ => ∃ e, contents crab owner repo JEFFERIES_DIR sha = Err e ∧ e ≠ ApiStatus 404
  end.
Proof.
  unfold find_matching_pipelines, triggered_pipelines. rewrite bind_eq.
  pose proof (get_content_eq crab owner repo JEFFERIES_DIR sha w) as Hc.
  destruct (on_github _ w) as [r w']. destruct Hc as [-> Hw]. cbn [fst snd]. rewrite <-Hw. clear Hw.
  destruct (contents _ _ _ _ _) as [items|e] eqn:He; cbn [ok default].
  2:{ destruct (is_not_found e) eqn:Hnf; [done|]. split; [done|]. exists e. split; [done|]. by intros ->. }
  rewrite bind_eq. set (run := matching_files _ _ _ _ _ _ _ w').
  enough (run.1 = omap (λ item, if pipeline_file item then triggered_file f (contents crab owner repo (item_path item) sha) else None) items
    ∧ pw_started run.2 = pw_started w') as [Hl Hs] by (by split).
  unfold run. clear run He. revert w'. induction items as [|item items IH]; intros w'; [done|]. cbn [matching_files]. rewrite !bind_eq.
  pose proof (matching_file_spec crab owner repo sha f item w') as Hf. destruct (matching_file _ _ _ _ _ _ _ w') as [r w1].
  destruct Hf as [-> Hs]. cbn [fst snd]. destruct (IH w1) as [Hl Hs'].
  destruct (matching_files _ _ _ _ _ _ _ w1) as [rest w2]. cbn in Hl, Hs' |- *. rewrite Hs', Hs. split; [|done]. subst rest.
  by destruct (if pipeline_file item then _ else _).
Qed.

(** *** Launching the runs of an event *)

(** What became of the launch of a file: a run of that file, or a reason why there
    is none. *)
Definition launched_or_refused (context : string → Z → option Z → RunContext) (crab : Client) w (file : string * Pipeline)
    (outcome : option Run) : Prop :=
  match outcome with
  | Some p => c_pipeline (const p.1) = file.2 ∧
      (∃ t, context_of p = context file.1 t (as_i64 ∘ rep_check_run_id <$> p.2)) ∧ (∀ r, p.2 = Some r → rep_crab r = crab)
  | None => ∃ t w1, pw_started w `prefix_of` pw_started w1 ∧ launch_refused file.2 (context file.1 t None) crab w1
  end.

Lemma launched_or_refused_prefix context crab w w' file outcome : pw_started w `prefix_of` pw_started w' →
  launched_or_refused context crab w' file outcome → launched_or_refused context crab w file outcome.
Proof. intros Hw. destruct outcome; [done|]. intros (t & w1 & Hw1 & Hno). exists t, w1. split; [by etrans|done]. Qed.

Lemma launch_each_spec crab context matching w :
  ∃ outcomes, pw_started (launch_each new_uuid clock state crab context matching w).2 = pw_started w ++ omap id outcomes ∧
    Forall2 (launched_or_refused (λ yaml t, with_check_run_id (context yaml t)) crab w) matching outcomes.
Proof.
  unfold launch_each. revert w. induction matching as [|[yaml pl] matching IH]; intros w.
  { exists []. by rewrite app_nil_r. }
  cbn [for_each]. rewrite bind_eq. rewrite !bind_eq. cbn [fst snd read]. set (w1 := mkProvider _ _ _ _ _ _ _ _).
  pose proof (launch_spec pl (context yaml (clock (pw_reads w))) crab w1) as Hl.
  pose proof (launch_none pl (context yaml (clock (pw_reads w))) crab w1) as Hno.
  destruct (launch _ _ _ w1) as [[id|] w2]; cbn [fst snd mret state_ret] in *;
    destruct (IH w2) as (outcomes & Hnew & Hall); rewrite Hnew; clear IH Hnew.
  - destruct Hl as (p & Hst & _ & [Hpl Hrc _ Hrep]). exists (Some p :: outcomes). rewrite Hst. cbn. rewrite <-(assoc_L (++)). split; [done|].
    constructor; [split_and!; [done|by exists (clock (pw_reads w))|intros r Hr; by apply Hrep]|].
    eapply Forall2_impl; [exact Hall|]. intros file outcome. apply launched_or_refused_prefix. rewrite Hst. by apply prefix_app_r.
  - exists (None :: outcomes). rewrite Hl. split; [done|]. constructor; [by exists (clock (pw_reads w)), w1; split; [|apply Hno]|].
    eapply Forall2_impl; [exact Hall|]. intros file outcome. apply launched_or_refused_prefix. by rewrite Hl.
Qed.

(** What the push and the pull request events have in common. *)
Definition start_event owner repo sha (f : Pipeline → bool) (context : string → Z → RunContext) (tenant : TenantConfig)
  : M W (result GithubError unit) :=
  match resolve_app_for_tenant state tenant with
  | None => mret (Err (TenantBindingMissing (slug tenant)))
  | Some app =>
      install_crab ←? build_installation_client owner repo app;
      matching ←? find_matching_pipelines parse install_crab owner repo sha f;
      _ ← launch_each new_uuid clock state install_crab context matching;
      mret (Ok ())
  end.

(** The runs that an event of a tenant starts on a commit: with a client of the
    tenant's app, one on each pipeline of the commit that the event triggers,
    unless its launch is refused. *)
Definition event_started (tenant : TenantConfig) owner repo sha (triggers : Pipeline → Prop) context w w' : Prop :=
  ∃ app crab triggered outcomes, by_id (ps_github_apps state) !! app_ref (github_binding tenant) = Some app ∧
    client_of app owner repo crab ∧ (∀ pl, triggered pl = true ↔ triggers pl) ∧
    pw_started w' = pw_started w ++ omap id outcomes ∧
    Forall2 (launched_or_refused context crab w) (triggered_pipelines crab owner repo sha triggered) outcomes.

(** Why an event is refused: the tenant's app is unknown or gives no client, or the
    directory of the commit cannot be read, other than that there is none. *)
Definition event_refused (tenant : TenantConfig) owner repo sha w : Prop :=
  ∀ app, by_id (ps_github_apps state) !! app_ref (github_binding tenant) = Some app →
    is_ok (build_installation_client (S:=S) (D:=D) (H:=H) (B:=B) owner repo app w).1 = false ∨
    ∃ crab e, client_of app owner repo crab ∧ contents crab owner repo JEFFERIES_DIR sha = Err e ∧ e ≠ ApiStatus 404.

Lemma start_event_spec owner repo sha f context explicit (triggers : Pipeline → Prop) tenant w :
  (∀ yaml t, with_check_run_id (context yaml t) = explicit yaml t) → (∀ pl, f pl = true ↔ triggers pl) →
  let '(r, w') := start_event owner repo sha f context tenant w in
  if is_ok r then event_started tenant owner repo sha triggers explicit w w'
  else pw_started w' = pw_started w ∧ event_refused tenant owner repo sha w.
Proof.
  intros Hexp Htrig. unfold start_event, resolve_app_for_tenant. destruct (_ !! _) as [app|] eqn:Happ; [|by split; [|intros ?; rewrite Happ]].
  unfold bind_ok. rewrite bind_eq. pose proof (client_spec owner repo app w) as Hc. unfold event_refused. rewrite Happ.
  destruct (build_installation_client owner repo app w) as [[crab|e] w1] eqn:Hb; destruct Hc as [H1 Hcl]; cbn [fst snd];
    [|by split; [|intros ? [= <-]; left; rewrite Hb]].
  rewrite bind_eq. pose proof (find_matching_spec crab owner repo sha f w1) as Hm.
  destruct (find_matching_pipelines _ _ _ _ _ _ w1) as [[matching|e] w2]; destruct Hm as [H2 Hm]; cbn [fst snd].
  2:{ cbn. rewrite H2. split; [done|]. intros ? [= <-]. right. destruct Hm as (e' & He & Hne). exists crab, e'. split; [by apply Hcl|done]. }
  rewrite bind_eq. destruct (launch_each_spec crab context matching w2) as (outcomes & H3 & Hall).
  cbn [mret state_ret is_ok]. exists app, crab, f, outcomes. rewrite H3, H2, H1, <-Hm. split_and!; [done|by apply Hcl|done|done|].
  eapply Forall2_impl; [exact Hall|]. intros file outcome Hout. apply (launched_or_refused_prefix _ _ _ w2); [by rewrite H2, H1|].
  destruct outcome as [p|].
  - destruct Hout as (Hp & [t Ht] & Hr). split_and!; [done| |done]. exists t. by rewrite <-Hexp.
  - destruct Hout as (t & w' & Hw & Hno). exists t, w'. by rewrite <-Hexp.
Qed.
End served.

(** *** What any event of a tenant starts *)

Definition of_tenant (tenant_slug : string) p : Prop := rc_tenant_slug (context_of p) = Some tenant_slug.

Lemma client_starts P owner repo app : preserves (starts P) (build_installation_client (S:=S) (D:=D) (H:=H) (B:=B) owner repo app).
Proof. intros w. pose proof (client_spec owner repo app w) as Hc. destruct (build_installation_client _ _ _ w). apply starts_none, Hc. Qed.

Lemma find_matching_starts P crab owner repo sha f :
  preserves (starts P) (find_matching_pipelines (S:=S) (D:=D) (H:=H) (B:=B) parse crab owner repo sha f).
Proof.
  apply preserves_bind; [apply _|apply on_github_starts|]. intros [items|e]; [|apply preserves_ret, _].
  apply preserves_bind; [apply _| |intros; apply preserves_ret, _].
  induction items as [|item items IH]; [apply preserves_ret, _|]. cbn [matching_files].
  apply preserves_bind; [apply _| |intros here; apply preserves_bind; [apply _|done|intros; apply preserves_ret, _]].
  unfold matching_file. repeat case_match; try apply preserves_ret, _.
  apply preserves_bind; [apply _| |intros; apply preserves_ret, _].
  apply preserves_bind; [apply _|apply on_github_starts|intros; apply preserves_ret, _].
Qed.

Lemma launch_each_starts P crab context matching :
  (∀ yaml t pipeline p, launched_as pipeline (context yaml t) crab p → P p) →
  preserves (starts P) (launch_each new_uuid clock state crab context matching).
Proof.
  intros HP. apply preserves_for_each; [apply _|]. intros [yaml pl].
  apply preserves_bind; [apply _|apply read_starts|]. intros t. apply preserves_bind; [apply _| |intros; apply preserves_ret, _].
  apply launch_starts. eauto.
Qed.

Lemma start_event_starts P owner repo sha f context tenant :
  (∀ yaml t crab pipeline p, launched_as pipeline (context yaml t) crab p → P p) →
  preserves (starts P) (start_event owner repo sha f context tenant).
Proof.
  intros HP. unfold start_event. case_match; [|apply preserves_ret, _].
  apply preserves_bind_ok; [apply _|apply client_starts|]. intros crab.
  apply preserves_bind_ok; [apply _|apply find_matching_starts|]. intros matching.
  apply preserves_bind; [apply _| |intros; apply preserves_ret, _]. apply launch_each_starts. eauto.
Qed.

Lemma start_push_eq owner repo sha git_ref tenant :
  start_push_pipelines parse new_uuid clock state owner repo sha git_ref tenant =
  start_event owner repo sha (λ pl, triggered_by_push pl (parse_push_ref git_ref).1 (parse_push_ref git_ref).2)
    (push_context owner repo sha (parse_push_ref git_ref).1 (parse_push_ref git_ref).2 (slug tenant)) tenant.
Proof. unfold start_push_pipelines, start_event. by destruct (parse_push_ref git_ref) as [branch tag]. Qed.
Lemma start_pr_eq event tenant :
  start_pr_pipelines parse new_uuid clock state event tenant =
  start_event (pri_owner event) (pri_repo event) (pri_sha event) (λ pl, triggered_by_pull_request pl (pri_base_branch event))
    (pr_context event (slug tenant)) tenant.
Proof. done. Qed.

(** *** Retries *)

(** Why a retry of a record of the tenant is refused before its launch. *)
Definition retry_unready (slug : string) (d : RunDetails) : Prop :=
  rd_tenant_slug d = None ∨ rd_tenant_slug d = Some slug ∧
    ∀ tenant app, by_slug (ps_tenants state) !! slug = Some tenant →
      by_id (ps_github_apps state) !! app_ref (github_binding tenant) = Some app → ∃ e, from_yaml parse (rd_pipeline_definition d) = Err e.

Lemma retry_setup_spec expected d :
  match retry_setup parse state expected d with
  | Ok (app, pipeline) => rd_tenant_slug d = Some expected ∧ from_yaml parse (rd_pipeline_definition d) = Ok pipeline ∧
      ∃ tenant, by_slug (ps_tenants state) !! expected = Some tenant ∧
        by_id (ps_github_apps state) !! app_ref (github_binding tenant) = Some app
  | Err UnknownRun => ∃ other, rd_tenant_slug d = Some other ∧ other ≠ expected
  | Err (RetryBackend _) => retry_unready expected d
  end.
Proof.
  unfold retry_setup, retry_unready. destruct (rd_tenant_slug d) as [sl|]; [|by left].
  destruct (str_eqb sl expected) eqn:Heq; cbn [negb]; [|apply str_eqb_false in Heq; by exists sl].
  apply str_eqb_true in Heq as ->. destruct (_ !! expected) as [tenant|] eqn:Ht; [|right; by split].
  unfold resolve_app_for_tenant. destruct (_ !! app_ref _) eqn:Happ; [|right; split; [done|]; intros ? ? [= <-]; by rewrite Happ].
  destruct (from_yaml _ _) as [pl|e]; [eauto 10|]. right. eauto.
Qed.

(** A run that repeats a recorded one. *)
Definition retries (slug run_id : string) (d : RunDetails) p : Prop :=
  rd_tenant_slug d = Some slug ∧ from_yaml parse (rd_pipeline_definition d) = Ok (c_pipeline (const p.1)) ∧
  ∃ t crab, launched_as (c_pipeline (const p.1)) (retry_context d run_id slug t) crab p.

(** Why a retry is refused although the record may be repeated: it could not be
    read, or no run could be started for it. *)
Definition retry_refused (slug : string) (found : result RunHistoryError (option PipelineRunRow)) w : Prop :=
  (∃ e, found = Err e) ∨ ∃ row, found = Ok (Some row) ∧ let d := row_details row in
    (retry_unready slug d ∨ rd_tenant_slug d = Some slug ∧ ∃ tenant app pipeline,
       by_slug (ps_tenants state) !! slug = Some tenant ∧ by_id (ps_github_apps state) !! app_ref (github_binding tenant) = Some app ∧
       from_yaml parse (rd_pipeline_definition d) = Ok pipeline ∧ ∃ w1, pw_started w1 = pw_started w ∧
       (is_ok (build_installation_client (S:=S) (D:=D) (H:=H) (B:=B) (rd_owner d) (rd_repo d) app w1).1 = false ∨
        ∃ crab rc, (rc_owner rc, rc_repo rc, rc_sha rc) = (rd_owner d, rd_repo d, rd_sha d) ∧
          client_of app (rd_owner d) (rd_repo d) crab ∧ launch_refused pipeline rc crab w1)).

Lemma retry_spec slug run_id w :
  let found := (get_pipeline_run run_id (pw_history w)).1 in
  let '(r, w') := retry_pipeline_run parse new_uuid clock state slug run_id w in
  match r with
  | Ok new_id => ∃ row p, found = Ok (Some row) ∧ pw_started w' = pw_started w ++ [p] ∧ c_run_id (const p.1) = new_id ∧
      retries slug run_id (row_details row) p
  | Err UnknownRun => pw_started w' = pw_started w ∧
      (found = Ok None ∨ ∃ row other, found = Ok (Some row) ∧ rd_tenant_slug (row_details row) = Some other ∧ other ≠ slug)
  | Err (RetryBackend _) => pw_started w' = pw_started w ∧ retry_refused slug found w
  end.
Proof.
  intros found. unfold retry_pipeline_run, retry_refused. rewrite bind_eq. unfold on_history. subst found.
  destruct (get_pipeline_run run_id (pw_history w)) as [[[row|]|e] h]; cbn [fst snd];
    [|by split; [|left]|by split; [|left; exists e]]. set (w1 := mkProvider _ _ _ _ _ _ _ _). change (pw_started w) with (pw_started w1).
  pose proof (retry_setup_spec slug (row_details row)) as Hs. destruct (retry_setup _ _ _ _) as [[app pl]|[|msg]]; cbn;
    [|by destruct Hs as (other & ? & ?); split; [done|right; eauto]|by split; [|right; eauto]].
  destruct Hs as (Hslug & Hyaml & tenant & Hten & Happ). rewrite bind_eq.
  pose proof (client_spec (rd_owner (row_details row)) (rd_repo (row_details row)) app w1) as Hc.
  destruct (build_installation_client _ _ _ w1) as [[crab|e] w2] eqn:Hb; destruct Hc as [H2 Hcl]; cbn [fst snd].
  2:{ split; [done|]. right. exists row. split; [done|]. right. split; [done|]. exists tenant, app, pl. split_and!; [done..|].
      exists w1. split; [done|]. left. by rewrite Hb. }
  rewrite bind_eq. cbn [read fst snd]. set (w3 := mkProvider _ _ _ _ _ _ _ _). rewrite bind_eq.
  pose proof (launch_spec pl (retry_context (row_details row) run_id slug (clock (pw_reads w2))) crab w3) as Hl.
  pose proof (launch_none pl (retry_context (row_details row) run_id slug (clock (pw_reads w2))) crab w3) as Hno.
  destruct (launch _ _ _ w3) as [[id|] w4]; cbn; change (pw_started w3) with (pw_started w2) in Hl; rewrite H2 in Hl.
  - destruct Hl as (p & Hst & Hid & Hp). exists row, p. split_and!; [done|done|done|].
    pose proof (la_pipeline _ _ _ _ Hp) as Hpl. unfold retries. rewrite Hpl. eauto.
  - split; [done|]. right. exists row. split; [done|]. right. split; [done|]. exists tenant, app, pl. split_and!; [done..|].
    exists w3. split; [done|]. right. eexists crab, _. split; [|by split; [apply Hcl|apply Hno]]. done.
Qed.

Lemma retry_starts slug run_id :
  preserves (starts (λ p, of_tenant slug p ∧ rc_retry_of (context_of p) = Some run_id))
    (retry_pipeline_run parse new_uuid clock state slug run_id).
Proof.
  intros w. pose proof (retry_spec slug run_id w) as Hs. destruct (retry_pipeline_run _ _ _ _ _ _ w) as [[id|[|msg]] w']; cbn in *.
  - destruct Hs as (row & p & _ & Hst & _ & _ & _ & t & crab & Hp). exists [p]. split; [done|].
    constructor; [|done]. unfold of_tenant. by rewrite (la_context _ _ _ _ Hp).
  - apply starts_none, Hs.
  - apply starts_none, Hs.
Qed.

(** *** Deliveries *)

Definition signed_by (app : GithubAppConfig) (body : list ascii) (header : string) : Prop :=
  ∃ hex tag, header = "sha256=" +:+ hex ∧ hex_decode hex = Some tag ∧ hmac (bytes (app_webhook_secret app)) body = Some tag.

Lemma signature_matches_spec app body header :
  signature_matches body header (app_webhook_secret app) = true ↔ signed_by app body header.
Proof.
  unfold signature_matches, signed_by. split.
  - destruct (strip_prefix _ _) as [hex|] eqn:Hhex; [|done]. apply strip_prefix_some in Hhex.
    destruct (hex_decode hex) as [tag|] eqn:Htag; [|done]. destruct (hmac _ _) as [tag'|] eqn:Hmac; [|done].
    rewrite bool_decide_eq_true. intros ->. eauto.
  - intros (hex & tag & -> & Htag & Hmac). rewrite strip_prefix_app, Htag, Hmac. by apply bool_decide_eq_true.
Qed.

Lemma signing_app_spec apps body header :
  match identify_signing_app apps body header with
  | Some app => (∃ id, by_id apps !! id = Some app) ∧ signed_by app body header
  | None => ∀ id app, by_id apps !! id = Some app → ¬ signed_by app body header
  end.
Proof.
  unfold identify_signing_app. destruct (List.find _ _) as [app|] eqn:Hf.
  - apply List.find_some in Hf as [Hin Hm]. apply list_elem_of_In, elem_of_hash_values in Hin. by apply signature_matches_spec in Hm.
  - intros id app Hin Hsigned. apply signature_matches_spec in Hsigned.
    pose proof (List.find_none _ _ Hf app) as Hn. cbn in Hn. rewrite Hsigned in Hn. by discriminate Hn; apply list_elem_of_In, elem_of_hash_values; exists id.
Qed.

Lemma handle_check_suite_starts payload tenant :
  preserves (starts (of_tenant (slug tenant))) (handle_check_suite parse new_uuid clock state payload tenant).
Proof.
  apply preserves_bind_ok; [apply _|apply preserves_ret, _|]. intros event.
  destruct (specific event) as [?|? ?|? ?|[|?] suite|]; try apply preserves_ret, _.
  apply preserves_bind_ok; [apply _|apply preserves_ret, _|]. intros repo.
  apply preserves_bind_ok; [apply _|apply preserves_ret, _|]. intros owner.
  destruct (non_empty_str _ _) as [head_sha|]; [|apply preserves_ret, _].
  apply preserves_bind; [apply _|apply on_history_starts|]. intros [rows|e]; [|apply preserves_ret, _].
  apply preserves_bind; [apply _| |intros; apply preserves_ret, _]. apply preserves_for_each; [apply _|]. intros row.
  apply preserves_bind; [apply _| |intros; apply preserves_ret, _].
  eapply preserves_mono; [|apply retry_starts]. intros. eapply starts_mono; [|done]. by intros p [? _].
Qed.

Lemma dispatch_event_starts event_type payload tenant :
  preserves (starts (of_tenant (slug tenant))) (dispatch_event parse new_uuid clock state event_type payload tenant).
Proof.
  assert (∀ m, preserves (starts (of_tenant (slug tenant))) m → preserves (starts (of_tenant (slug tenant)))
    (answer (S:=S) (D:=D) (H:=H) (G:=G) (B:=B) m)) as Hans.
  { intros m Hm. apply preserves_bind; [apply _|done|intros; apply preserves_ret, _]. }
  unfold dispatch_event. repeat (case_match; [apply Hans|]); [..|apply preserves_ret, _].
  - apply preserves_bind_ok; [apply _|apply preserves_ret, _|]. intros [[owner repo] push].
    apply preserves_bind_ok; [apply _| |intros; apply preserves_ret, _]. rewrite start_push_eq.
    apply start_event_starts. intros yaml t crab pl p Hp. unfold of_tenant. by rewrite (la_context _ _ _ _ Hp).
  - apply preserves_bind_ok; [apply _|apply preserves_ret, _|]. intros [event|]; [|apply preserves_ret, _].
    apply preserves_bind_ok; [apply _| |intros; apply preserves_ret, _]. rewrite start_pr_eq.
    apply start_event_starts. intros yaml t crab pl p Hp. unfold of_tenant. by rewrite (la_context _ _ _ _ Hp).
  - apply preserves_bind_ok; [apply _|apply preserves_ret, _|]. intros event. repeat case_match; try apply preserves_ret, _.
    apply preserves_bind; [apply _| |intros; apply preserves_ret, _]. apply preserves_bind; [apply _| |intros; apply preserves_ret, _].
    eapply preserves_mono; [|apply retry_starts]. intros. eapply starts_mono; [|done]. by intros p [? _].
  - apply handle_check_suite_starts.
Qed.

(** ** Properties *)

(** What a delivery may change beyond the log. *)
Definition services w := (pw_store w, pw_dispatcher w, pw_history w, pw_github w, pw_bucket w, pw_started w).

(** C8: a delivery changes nothing outside the log unless it is signed with the
    webhook secret of a configured app and its owner is an organisation that a
    tenant has registered under that very app; every run it then starts carries
    that tenant's slug. Any event but an installation that no app has signed is
    answered 401. *)
Theorem webhook_acts_for_signing_tenant doc headers body w :
  from_document doc = Ok (mkRegistry (ps_github_apps state) (ps_tenants state)) →
  let signature := get_header headers "X-Hub-Signature-256" in
  let '(answer, w') := handle_webhook parse new_uuid clock state headers body w in
  (services w' = services w ∨
   ∃ app tenant, app ∈ github_apps doc ∧ signed_by app body signature ∧ tenant ∈ tenants doc ∧
     app_ref (github_binding tenant) = app_id_of app ∧
     extract_owner_info body = Some (mkOwner (org_name (github_binding tenant)) Organization) ∧
     starts (of_tenant (slug tenant)) w w') ∧
  (get_header headers "X-GitHub-Event" ≠ GITHUB_EVENT_INSTALLATION →
   (∀ app, app ∈ github_apps doc → ¬ signed_by app body signature) → answer = UNAUTHORIZED).
Proof.
  intros Hdoc signature. pose proof (from_document_lookups doc) as Hix. rewrite Hdoc in Hix. destruct Hix as [_ [Happs _ Horgs _]].
  cbn in Happs, Horgs. unfold handle_webhook. fold signature. destruct (str_eqb _ _) eqn:Hinst.
  { apply str_eqb_true in Hinst. unfold handle_installation.
    destruct (body_json body) as [value|]; [rewrite bind_eq|]; cbn; by split; [left|]. }
  apply str_eqb_false in Hinst. unfold authenticate.
  pose proof (signing_app_spec (ps_github_apps state) body signature) as Hsig.
  destruct (identify_signing_app _ _ _) as [app|]; cbn [mret state_ret].
  2:{ by split; [left|]. }
  destruct Hsig as [[id Hid] Hsigned]. apply Happs in Hid as [Happ <-].
  assert (∀ (answer : Z), (∀ app, app ∈ github_apps doc → ¬ signed_by app body signature) → answer = UNAUTHORIZED) as Hno
    by (intros a Hn; by destruct (Hn app)).
  destruct (extract_owner_info body) as [[login kind]|]; [|by split; [left|auto]]. cbn [GithubProvider.kind GithubProvider.login].
  destruct (bool_decide (kind = Organization)) eqn:Hk; cbn [negb]; [|by split; [left|auto]].
  apply bool_decide_eq_true in Hk as ->. destruct (_ !! (app_id_of app, login)) as [tenant|] eqn:Ht; [|by split; [left|auto]].
  apply Horgs in Ht as [Htin [= Href Horg]].
  pose proof (dispatch_event_starts (get_header headers "X-GitHub-Event") body tenant w) as Hstarts.
  destruct (dispatch_event _ _ _ _ _ _ _ w) as [answer w']. split; [right|auto]. exists app, tenant. by rewrite Horg.
Qed.

(** What a push says. *)
Definition is_push payload owner repo push : Prop :=
  ∃ event r, try_from_header_and_body "push" payload = Ok event ∧ specific event = Push push ∧
    repository event = Some r ∧ repo_owner r = Some owner ∧ repo_name r = repo.
Definition ref_names (r : string) (branch tag : option string) : Prop :=
  (∀ b, branch = Some b ↔ r = "refs/heads/" +:+ b) ∧ (∀ t, tag = Some t ↔ r = "refs/tags/" +:+ t).
(** What a pull request says, and the repository that offers it. *)
Definition is_pull_request payload owner repo pr : Prop :=
  ∃ event action r, try_from_header_and_body "pull_request" payload = Ok event ∧ specific event = PullRequestEvent action pr ∧
    (action = Opened ∨ action = Synchronize) ∧ head_repo pr = Some r ∧ repo_owner r = Some owner ∧ repo_name r = repo.

Lemma is_push_inj payload o1 r1 e1 o2 r2 e2 : is_push payload o1 r1 e1 → is_push payload o2 r2 e2 → (o1, r1, e1) = (o2, r2, e2).
Proof.
  intros (v1 & x1 & H1 & S1 & R1 & O1 & <-) (v2 & x2 & H2 & S2 & R2 & O2 & <-). rewrite H1 in H2. injection H2 as <-.
  rewrite S1 in S2. injection S2 as <-. by simplify_eq.
Qed.
Lemma is_pull_request_inj payload o1 r1 e1 o2 r2 e2 :
  is_pull_request payload o1 r1 e1 → is_pull_request payload o2 r2 e2 → (o1, r1, e1) = (o2, r2, e2).
Proof.
  intros (v1 & a1 & x1 & H1 & S1 & _ & R1 & O1 & <-) (v2 & a2 & x2 & H2 & S2 & _ & R2 & O2 & <-). rewrite H1 in H2. injection H2 as <-.
  rewrite S1 in S2. injection S2 as _ <-. by simplify_eq.
Qed.

Lemma push_event_spec payload :
  match push_event payload with
  | Ok (owner, repo, push) => is_push payload owner repo push
  | Err _ => ∀ owner repo push, ¬ is_push payload owner repo push
  end.
Proof.
  unfold push_event, parse_event, is_push. change GITHUB_EVENT_PUSH with "push".
  destruct (try_from_header_and_body "push" payload) as [event|e] eqn:Hev; cbn; [|by intros ? ? ? (? & ? & [=] & _)].
  destruct (specific event) as [push|? ?|? ?|? ?|] eqn:Hspec; cbn; try by intros ? ? ? (? & ? & [= <-] & Hpush & _); rewrite Hspec in Hpush.
  destruct (repository event) as [r|] eqn:Hr; cbn; [|intros ? ? ? (? & ? & [= <-] & _ & Hrepo & _); by rewrite Hr in Hrepo].
  destruct (repo_owner r) as [owner|] eqn:Ho; cbn; [by exists event, r|].
  intros ? ? ? (? & ? & [= <-] & _ & Hrepo & Howner & _). by simplify_eq.
Qed.

Lemma pull_request_event_spec payload :
  match pull_request_event payload with
  | Ok (Some e) => ∃ pr, is_pull_request payload (pri_owner e) (pri_repo e) pr ∧ e = mkPrInfo (pri_owner e) (pri_repo e) (head_sha pr)
      (head_ref pr) (base_ref pr) (as_i64 (number pr))
  | Ok None => ∃ event action pr, try_from_header_and_body "pull_request" payload = Ok event ∧
      specific event = PullRequestEvent (PrOther action) pr
  | Err _ => ∀ owner repo pr, ¬ is_pull_request payload owner repo pr
  end.
Proof.
  unfold pull_request_event, parse_event. change GITHUB_EVENT_PULL_REQUEST with "pull_request".
  destruct (try_from_header_and_body "pull_request" payload) as [event|e] eqn:Hev; cbn; [|by intros ? ? ? (? & ? & ? & Hev' & _); rewrite Hev in Hev'].
  assert (∀ owner repo pr, is_pull_request payload owner repo pr → ∃ action r, specific event = PullRequestEvent action pr ∧
    head_repo pr = Some r ∧ repo_owner r = Some owner) as Hsays
    by (intros ? ? ? (? & a & r & Hev' & ? & _ & ? & ? & _); rewrite Hev in Hev'; injection Hev' as <-; by exists a, r).
  destruct (specific event) as [?|action pr|? ?|? ?|] eqn:Hspec; cbn; try by intros ? ? ? (? & ? & Hpr & _)%Hsays.
  assert (∀ owner repo pr', is_pull_request payload owner repo pr' → ∃ r, head_repo pr = Some r ∧ repo_owner r = Some owner) as Hhead
    by (intros ? ? ? (? & r & [= _ <-] & Hr)%Hsays; by exists r).
  destruct action as [| |action]; [| |by exists event, action, pr];
    (destruct (head_repo pr) as [r|] eqn:Hr; cbn; [|by intros ? ? ? (? & ? & _)%Hhead];
     destruct (repo_owner r) as [owner|] eqn:Ho; cbn; [|intros ? ? ? (? & [= <-] & Howner)%Hhead; by rewrite Ho in Howner];
     exists pr; split; [|done]; eexists event, _, r; split_and!; try done; by (left + right)).
Qed.

Lemma parse_push_ref_spec r : ref_names r (parse_push_ref r).1 (parse_push_ref r).2.
Proof.
  unfold ref_names. setoid_rewrite <-strip_prefix_some. unfold parse_push_ref.
  destruct (strip_prefix "refs/heads/" r) as [branch|] eqn:Hb; [|by destruct (strip_prefix "refs/tags/" r)].
  apply strip_prefix_some in Hb as ->. split; [done|]. intros t. by split.
Qed.

Section events.
(** The contents of a commit do not change. *)
Context (contents : Client → string → string → string → string → result ApiError (list ContentItem)).
Context (served : ∀ crab owner repo path sha (g : G), (get_content crab owner repo path sha g).1 = contents crab owner repo path sha).

End events.

(** C19: a retry that answers 200 starts exactly one run: under the id it
    answers, for a recorded run of the tenant in the path, with the commit, refs
    and pipeline text of that record, the trigger "retry" and a reference to it.
    The answer is 404 exactly if there is no such record or it belongs to another
    tenant. Otherwise it is 500, because the record cannot be read, names no
    tenant or has no valid pipeline, because the tenant, its app or a client of it
    cannot be had, or because the launch is refused. Without a 200 no run is
    started. *)
Theorem retry_repeats_own_run slug run_id w :
  let found := (get_pipeline_run run_id (pw_history w)).1 in
  let missing := found = Ok None ∨ ∃ row other, found = Ok (Some row) ∧ rd_tenant_slug (row_details row) = Some other ∧ other ≠ slug in
  let '((status, body), w') := retry_run parse new_uuid clock state slug run_id w in
  (status = 200%Z ∧ ∃ row p t, let d := row_details row in
     found = Ok (Some row) ∧ rd_tenant_slug d = Some slug ∧ pw_started w' = pw_started w ++ [p] ∧ body = Some (c_run_id (const p.1)) ∧
     from_yaml parse (rd_pipeline_definition d) = Ok (c_pipeline (const p.1)) ∧
     context_of p = {|
       rc_owner := rd_owner d; rc_repo := rd_repo d; rc_sha := rd_sha d; rc_branch := rd_branch d;
       rc_target_branch := rd_target_branch d; rc_tag := rd_tag d; rc_pr_number := rd_pr_number d; rc_trigger := "retry";
       rc_pipeline_yaml := rd_pipeline_definition d; rc_created_at := t; rc_retry_of := Some run_id;
       rc_tenant_slug := Some slug; rc_github_check_run_id := as_i64 ∘ rep_check_run_id <$> p.2 |}) ∨
  (body = None ∧ pw_started w' = pw_started w ∧
     (status = 404%Z ∧ missing ∨ status = 500%Z ∧ ¬ missing ∧ retry_refused slug found w)).
Proof.
  intros found missing. unfold retry_run. rewrite bind_eq. pose proof (retry_spec slug run_id w) as Hs. fold found in Hs.
  destruct (retry_pipeline_run _ _ _ _ _ _ w) as [[id|[|msg]] w']; cbn in *.
  - left. split; [done|]. destruct Hs as (row & p & Hf & Hst & <- & Hslug & Hyaml & t & crab & Hp). exists row, p, t.
    cbv zeta. by rewrite (la_context _ _ _ _ Hp).
  - right. destruct Hs as [Hst Hno]. split_and!; [done|done|by left].
  - right. destruct Hs as [Hst Hno]. split_and!; [done|done|]. right. split_and!; [done| |done].
    clearbody found. unfold missing. intros [Hm|(row & other & Hf & Ho & Hne)];
      destruct Hno as [[e He]|(row' & Hf' & [[Hn|[Hn _]]|[Hn _]])]; congruence.
Qed.

Lemma trigger_retry_eq tenant run_id w :
  (trigger_retry_for_run parse new_uuid clock state tenant run_id w).2 =
  (retry_pipeline_run parse new_uuid clock state (slug tenant) run_id w).2.
Proof. unfold trigger_retry_for_run. by rewrite bind_eq. Qed.

(** A re-run of a check suite retries the runs that the history lists for
    the tenant, the repository and the commit: the runs it starts are retries of
    listed runs, in the order of the list and at most one for each, and the
    failure of one does not keep the others from being tried. *)
Theorem check_suite_retries_originating payload tenant event suite repo owner sha rows w :
  parse_event GITHUB_EVENT_CHECK_SUITE payload = Ok event → specific event = CheckSuite Rerequested suite →
  repository event = Some repo → repo_owner repo = Some owner → non_empty_str "head_sha" suite = Some sha →
  (list_originating_runs_for_sha (slug tenant) owner (repo_name repo) sha (pw_history w)).1 = Ok rows →
  let '(answer, w') := handle_check_suite parse new_uuid clock state payload tenant w in
  answer = Ok OK ∧ ∃ new, pw_started w' = pw_started w ++ new ∧
    omap (rc_retry_of ∘ context_of) new `sublist_of` (row_run_id <$> rows) ∧
    Forall (λ p, of_tenant (slug tenant) p ∧ is_Some (rc_retry_of (context_of p))) new.
Proof.
  intros Hev Hspec Hrepo Howner Hsha Hrows. unfold handle_check_suite, bind_ok. rewrite bind_eq, Hev. cbn [mret state_ret fst snd].
  rewrite Hspec, bind_eq, Hrepo. cbn [require mret state_ret fst snd]. rewrite bind_eq, Howner. cbn [require mret state_ret fst snd].
  rewrite Hsha, bind_eq. unfold on_history.
  destruct (list_originating_runs_for_sha _ _ _ _ _) as [r h]. cbn [fst snd] in *. subst r. rewrite bind_eq.
  set (w1 := mkProvider _ _ _ _ _ _ _ _). change (pw_started w) with (pw_started w1). generalize w1. clear w w1.
  cbn [mret state_ret]. intros w. split; [done|]. revert w. induction rows as [|row rows IH]; intros w.
  { exists []. by rewrite app_nil_r. }
  cbn [for_each]. rewrite bind_eq, trigger_retry_eq.
  destruct (IH (retry_pipeline_run parse new_uuid clock state (slug tenant) (row_run_id row) w).2) as (new & Hnew & Hsub & Hall).
  rewrite Hnew.
  pose proof (retry_spec (slug tenant) (row_run_id row) w) as Hs. pose proof (retry_starts (slug tenant) (row_run_id row) w) as Hp.
  destruct (retry_pipeline_run _ _ _ _ _ _ w) as [[id|[|msg]] w']; cbn [snd] in *.
  - destruct Hs as (r & p & _ & Hst & _). destruct Hp as (new' & Hst' & Hp). rewrite Hst in Hst'. apply (inj (app _)) in Hst'. subst new'.
    apply Forall_cons in Hp as [[Hten Hretry] _]. exists (p :: new). rewrite Hst, <-(assoc_L (++)). split; [done|]. split.
    + cbn. rewrite Hretry. by constructor.
    + constructor; [|done]. by rewrite Hretry.
  - exists new. rewrite (proj1 Hs). split; [done|]. split; [by constructor|done].
  - exists new. rewrite (proj1 Hs). split; [done|]. split; [by constructor|done].
Qed.

(** The frames were stored whole as the object of a run: sent to one upload of its
    own key, in parts that S3 accepts, and completed there with all of them. *)
Definition source_stored (run_id : string) (frames : list Frame) (u u' : Upload B) : Prop :=
  let key := "runs/" +:+ run_id +:+ "/source.tar.gz" in
  ∃ upload_id sent parts client,
    PartsFrom 1 sent ∧ concat sent.*2 = body_data frames ∧ part_number <$> parts = sent.*1 ∧
    s3_complete_multipart_upload key upload_id parts client = (Ok (), up_client u') ∧
    up_parts u' = up_parts u ++ (uncurry (mkSent key upload_id) <$> sent) ∧
    up_completed u' = up_completed u ++ [mkCompleted key upload_id parts].

Lemma upload_source_spec run_id download (u : Upload B) :
  let '(r, u') := upload_source run_id download u in
  r = Some (Ok ()) → ∃ frames, download = Ok frames ∧ source_stored run_id frames u u'.
Proof.
  unfold upload_source. destruct download as [frames|e]; [|done].
  destruct (s3_create_multipart_upload _ _) as [[[id|]|e] c]; [|done..].
  pose proof (upload_loop_spec (Datatypes.S (length (body_data frames))) (source_key run_id) id [] frames 1 [] (with_client c u)) as Hs.
  unfold upload_parts. destruct (upload_loop _ _ _ _ _ _ _ _) as [[[parts|e]|] u1]; [| |done].
  2:{ by destruct (s3_abort_multipart_upload _ _ _). }
  destruct (s3_complete_multipart_upload _ _ _ _) as [[[]|e] c'] eqn:Hc; [|done]. intros _.
  destruct Hs as (sent & Hup & Hdone & Hparts & Hcat & Hnum); [cbn; lia|].
  exists frames. split; [done|]. exists id, sent, parts, (up_client u1). cbn [is_ok up_client up_parts up_completed].
  rewrite Hup, Hdone. by split_and!.
Qed.

Lemma upload_source_for_eq run_id rc crab w :
  upload_source_for run_id rc crab w =
  let '(download, g) := download_tarball crab (rc_owner rc) (rc_repo rc) (rc_sha rc) (pw_github w) in
  let '(uploaded, bucket) := upload_source run_id download (pw_bucket w) in
  (match uploaded with Some (Ok _) => true | _ => false end,
   mkProvider (pw_store w) (pw_dispatcher w) (pw_history w) g bucket (pw_reads w) (pw_started w) (pw_installations w)).
Proof.
  unfold upload_source_for, on_github, on_bucket. rewrite bind_eq. destruct (download_tarball _ _ _ _ _) as [dl g].
  cbn [fst snd]. rewrite bind_eq. cbn [pw_bucket]. by destruct (upload_source _ _ _).
Qed.

(** C17: a run whose pipeline checks out the source is started only once the
    tarball of its commit is in the bucket as the object of its own id: all its
    bytes were sent to one upload of that key, in parts that S3 accepts, and S3
    completed the upload with all those parts. When the download or the upload fails, the launch
    stops there: no check run is created, no lease is taken, nothing is recorded
    and no pod is watched. *)
Theorem launch_needs_source pipeline rc crab w :
  existsb ni_checkout (node_info pipeline) = true →
  let run_id := new_uuid (pw_reads w) in
  let '(download, g) := download_tarball crab (rc_owner rc) (rc_repo rc) (rc_sha rc) (pw_github w) in
  let '(uploaded, bucket) := upload_source run_id download (pw_bucket w) in
  let '(r, w') := launch pipeline rc crab w in
  pw_bucket w' = bucket ∧
  (r ≠ None → r = Some run_id ∧ ∃ frames, download = Ok frames ∧ source_stored run_id frames (pw_bucket w) bucket) ∧
  (uploaded ≠ Some (Ok ()) → r = None ∧
     w' = mkProvider (pw_store w) (pw_dispatcher w) (pw_history w) g bucket (Datatypes.S (pw_reads w)) (pw_started w) (pw_installations w)).
Proof.
  intros Hneeds run_id. unfold launch_coordinator_for_pipeline. destruct (download_tarball _ _ _ _ _) as [download g] eqn:Hdl.
  pose proof (upload_source_spec run_id download (pw_bucket w)) as Hup.
  destruct (upload_source run_id download (pw_bucket w)) as [uploaded bucket] eqn:Hu.
  rewrite bind_eq. cbn [read fst snd]. fold run_id. rewrite Hneeds, bind_eq, upload_source_for_eq. cbn [pw_github pw_bucket].
  rewrite Hdl, Hu. cbn [fst snd]. set (w1 := mkProvider _ _ _ g bucket _ _ _).
  destruct uploaded as [[[]|e]|]; [|done..]. specialize (Hup eq_refl).
  rewrite bind_eq. unfold create_check_run_reporter. rewrite bind_eq. unfold on_github.
  destruct (create_check_run _ _ _ _ _ _ _) as [created g2]. cbn [fst snd mret state_ret].
  set (reporter := match created with Ok _ => _ | Err _ => _ end). destruct reporter as [rep id]. rewrite bind_eq. unfold start.
  destruct (read new_uuid _) as [server w2] eqn:Hr2. destruct (read clock w2) as [t w3] eqn:Hr3.
  destruct (start_coordinator _ _ _ _ _ _ _ _ _ _) as [c [[s d] h]]. cbn [fst snd mret state_ret pw_bucket].
  injection Hr3 as _ <-. injection Hr2 as _ <-. cbn [pw_bucket]. split; [done|]. split; [|done]. intros Hsome. split; [|done].
  by destruct c; cbn in Hsome |- *.
Qed.

Lemma as_u64_i64 x : (0 ≤ x ≤ u64_max)%Z → as_u64 (as_i64 x) = x.
Proof.
  intros Hx. unfold as_u64, as_i64, u64_max in *. rewrite (Z.mod_small x) by lia. case_decide; [by apply Z.mod_small; lia|].
  rewrite <-(Z_mod_plus_full _ 1), Z.mod_small; lia.
Qed.

End facts.

Module Example.
Import InMemory Postgres PostgresFacts.

#[local] Existing Instances canonical_order KubeDispatcher.Example.bucket_client.
#[local] Instance libraries : Libraries := {| node_to_json n := Ok (ni_name n); from_timestamp s _ := Some s |}.
#[local, refine] Instance backend : Backend := {| parse_uuid := Ok; collate := λ a b, bool_decide (String.le a b) |}.
Proof.
  - intros a b c. rewrite !bool_decide_eq_true. intros; by etrans.
  - intros a b. rewrite !bool_decide_eq_true. apply (total String.le).
Defined.

(** A repository with two pipelines and a text, in every organisation. *)
Definition files (_ _ _ path _ : string) : result ApiError (list ContentItem) :=
  if str_eqb path ".jefferies" then
    Ok [mkItem "file" "ci.yaml" ".jefferies/ci.yaml" None; mkItem "file" "README.md" ".jefferies/README.md" None;
        mkItem "file" "tags.yml" ".jefferies/tags.yml" None; mkItem "dir" "old" ".jefferies/old" None]
  else if str_eqb path ".jefferies/ci.yaml" then Ok [mkItem "file" "ci.yaml" path (Some "ci")]
  else if str_eqb path ".jefferies/tags.yml" then Ok [mkItem "file" "tags.yml" path (Some "tags")]
  else Err (ApiStatus 404).
Definition parse_doc (yaml : string) : result string Pipeline :=
  let triggers := if str_eqb yaml "ci" then mkTriggers (Some (mkRefs (Some ["main"]) None)) (Some (mkRefs None None)) None
                  else mkTriggers (Some (mkRefs None (Some ["v*"]))) None None in
  let node := sample_node "a" [] ∅ in
  Ok (mkPipeline yaml None None (Some triggers) ∅ no_secrets
        [mkNode (pn_name node) None None None (Some true) [] ∅ no_secrets [Inline "make"] false None None None ∅]).

(** GitHub counts the check runs. *)
#[local] Instance github : GithubApi nat := {|
  Key := list ascii; Client := string;
  from_rsa_pem := Ok;
  app_client id _ := Ok ("app " +:+ pretty id);
  get_repository_installation _ _ _ g := (Ok 7%Z, g);
  installation_client c i := Ok (c +:+ " installation " +:+ pretty i);
  get_content c o r p s g := (files c o r p s, g);
  download_tarball _ _ _ _ g := (Ok [DataFrame (bytes "source")], g);
  create_check_run _ _ _ _ _ _ g := (Ok (18446744073709551615 - Z.of_nat g)%Z, Datatypes.S g);
  complete_check_run _ _ _ _ _ _ g := (Ok (), g) |}.

Definition delivery (owner : string) : Json :=
  JObject [("repository", JObject [("owner", JObject [("login", JString owner); ("type", JString "Organization")])])].
Definition event_of (event_type : string) (body : string) : result string WebhookEvent :=
  let repo := mkRepository (Some "acme") "app" in
  if str_eqb event_type "push" then Ok (mkEvent (Some repo) (Push (mkPush "abc" "refs/heads/main")))
  else if str_eqb event_type "pull_request" then
    Ok (mkEvent (Some repo) (PullRequestEvent Opened (mkPr (Some (mkRepository (Some "other") "app")) "abc" "patch" "main" 5)))
  else if str_eqb event_type "check_suite" then
    Ok (mkEvent (Some repo) (CheckSuite Rerequested (JObject [("head_sha", JString "abc")])))
  else Err "unknown event".
#[local] Instance webhook_libraries : WebhookLibraries := {|
  hmac key message := Some (key ++ message);
  hex_decode s := Some (bytes s);
  body_json body := Some (delivery (of_bytes body));
  try_from_header_and_body event_type body := event_of event_type (of_bytes body) |}.

Definition document : TenancyDocument :=
  mkDocument [mkApp "main" "12345" "shh" "key"]
    [mkTenant "acme-corp" None ["dex"] (Github (mkBinding "acme" "main"));
     mkTenant "other-corp" None ["dex"] (Github (mkBinding "other" "main"))].
Definition registry : TenancyRegistry :=
  match from_document document with Ok reg => reg | Err _ => mkRegistry (mkAppRegistry ∅) (mkTenantRegistry ∅ ∅ ∅) end.
Definition state : ProviderState := mkState (with_limits 3600 600 120 false 30) (reg_tenants registry) (reg_apps registry).
Lemma tenants_accepted : from_document document = Ok (mkRegistry (ps_github_apps state) (ps_tenants state)).
Proof. vm_compute. reflexivity. Qed.

Definition uuid (n : nat) : string := "id-" +:+ pretty n.
Definition time (n : nat) : Z := 1000 + Z.of_nat n.
Abbreviation W := (Provider InMemoryStateStore LogDispatcher Database nat KubeDispatcher.Example.Bucket (Client (G:=nat))).
Definition world : W :=
  mkProvider (mkStore ∅ ∅ 0) (mkLogDispatcher []) (mkDb ∅ ∅ 1 []) 0 (mkUpload ∅ [] []) 0 [] [].
Definition headers (event_type signature key : string) : option string :=
  if str_eqb key "X-GitHub-Event" then Some event_type
  else if str_eqb key "X-Hub-Signature-256" then Some signature else None.
Definition deliver (event_type signature : string) (w : W) : Z * W :=
  handle_webhook parse_doc uuid time state (headers event_type signature) (bytes "acme") w.
Definition contexts (w : W) : list RunContext := (λ p, c_run_context (const p.1)) <$> pw_started w.

Definition tenant : TenantConfig := mkTenant "acme-corp" None ["dex"] (Github (mkBinding "acme" "main")).
Definition after_push : W := (handle_push parse_doc uuid time state (bytes "acme") tenant world).2.

(** A signed push starts the pipeline for its branch; a forged one is refused. *)
Lemma webhook_acts_for_signing_tenant_witness :
  (deliver "push" "sha256=shhacme" world).1 = OK ∧
  (rc_pipeline_yaml <$> contexts (deliver "push" "sha256=shhacme" world).2) = ["ci"] ∧
  (deliver "push" "sha256=guess" world).1 = UNAUTHORIZED.
Proof.
  split; [vm_compute; reflexivity|]. split; [vm_compute; reflexivity|].
  pose proof (webhook_acts_for_signing_tenant (S:=InMemoryStateStore) (D:=LogDispatcher) (H:=Database) (G:=nat) (B:=KubeDispatcher.Example.Bucket) parse_doc uuid time state document (headers "push" "sha256=guess") (bytes "acme") world
    tenants_accepted) as Ht. cbv zeta in Ht. fold (deliver "push" "sha256=guess" world) in Ht.
  destruct (deliver "push" "sha256=guess" world) as [answer w']. apply (proj2 Ht).
  - vm_compute. discriminate.
  - intros app Happ. apply list_elem_of_singleton in Happ as ->. intros (hex & tag & Hhex & Htag & Hmac).
    vm_compute in Hhex, Hmac. injection Htag as <-. injection Hhex as <-. discriminate Hmac.
Defined.


(** The check suite of the pushed commit is run again. *)
Definition first_run : PipelineRunRow := mkRunRow "id-1"
  (mkDetails "ci" "acme" "app" "abc" (Some "main") None None None "push" "ci" 5 None (Some "acme-corp") None) RsFailure (Some 9%Z).
Definition before_rerun : W :=
  mkProvider (mkStore ∅ ∅ 0) (mkLogDispatcher []) (mkDb {["id-1" := first_run]} ∅ 1 []) 0 (mkUpload ∅ [] []) 10 [] [].
Lemma check_suite_retries_originating_witness :
  ∃ new, pw_started (handle_check_suite parse_doc uuid time state (bytes "acme") tenant before_rerun).2 = new ∧
    (rc_retry_of ∘ context_of <$> new) = [Some "id-1"] ∧ omap (rc_retry_of ∘ context_of) new `sublist_of` ["id-1"].
Proof.
  pose proof (check_suite_retries_originating (S:=InMemoryStateStore) (D:=LogDispatcher) (H:=Database) (G:=nat) (B:=KubeDispatcher.Example.Bucket) parse_doc uuid time state (bytes "acme") tenant
    (mkEvent (Some (mkRepository (Some "acme") "app")) (CheckSuite Rerequested (JObject [("head_sha", JString "abc")])))
    (JObject [("head_sha", JString "abc")]) (mkRepository (Some "acme") "app") "acme" "abc" [first_run] before_rerun
    eq_refl eq_refl eq_refl eq_refl eq_refl) as Ht.
  assert ((list_originating_runs_for_sha (slug tenant) "acme" "app" "abc" (pw_history before_rerun)).1 = Ok [first_run]) as Hrows
    by (vm_compute; reflexivity).
  specialize (Ht Hrows).
  assert ((rc_retry_of ∘ context_of <$> pw_started (handle_check_suite parse_doc uuid time state (bytes "acme") tenant before_rerun).2) = [Some "id-1"])
    as Hrun by (vm_compute; reflexivity).
  destruct (handle_check_suite parse_doc uuid time state (bytes "acme") tenant before_rerun) as [r w']. destruct Ht as (_ & new & Hnew & Hsub & _).
  cbn [snd pw_started before_rerun app] in *. rewrite Hnew in *. exists new. split; [reflexivity|]. split; [exact Hrun|exact Hsub].
Defined.

Definition ci : Pipeline := match parse_doc "ci" with Ok p => p | Err _ => sample_pipeline [] end.
Definition context : RunContext := push_context "acme" "app" "abc" (Some "main") None "acme-corp" "ci" 5.
Definition crab : Client (G:=nat) := "crab".
Definition launched : option string * W := launch_coordinator_for_pipeline (H:=Database) uuid time state ci context crab world.
Lemma launch_needs_source_witness :
  ∃ frames upload_id sent, concat sent.*2 = body_data frames ∧
    up_parts (pw_bucket launched.2) = (uncurry (mkSent "runs/id-0/source.tar.gz" upload_id) <$> sent) ∧
    launched.1 = Some "id-0".
Proof.
  assert (existsb ni_checkout (node_info ci) = true) as Hneeds by reflexivity.
  pose proof (launch_needs_source (S:=InMemoryStateStore) (D:=LogDispatcher) (H:=Database) (G:=nat) (B:=KubeDispatcher.Example.Bucket) uuid time state ci context crab world Hneeds) as Ht. cbv zeta in Ht.
  fold launched in Ht. destruct (download_tarball _ _ _ _ _) as [download g]. destruct (upload_source _ _ _) as [uploaded bucket].
  assert (launched.1 = Some "id-0") as Hr by (vm_compute; reflexivity).
  destruct launched as [r w']. cbn [fst snd] in *. subst r.
  destruct Ht as (-> & Hsome & _). destruct Hsome as (_ & frames & _ & id & sent & parts & client & _ & Hcat & _ & _ & Hup & _); [discriminate|].
  exists frames, id, sent. split; [exact Hcat|]. split; [exact Hup|reflexivity].
Defined.

(** The failed run is retried; there is no other. *)
Lemma retry_repeats_own_run_witness :
  (retry_run parse_doc uuid time state "acme-corp" "id-1" before_rerun).1.1 = 200%Z ∧
  (rc_retry_of ∘ context_of <$> pw_started (retry_run parse_doc uuid time state "acme-corp" "id-1" before_rerun).2) = [Some "id-1"] ∧
  pw_started (retry_run parse_doc uuid time state "other-corp" "id-1" before_rerun).2 = [].
Proof.
  split; [vm_compute; reflexivity|]. split; [vm_compute; reflexivity|].
  pose proof (retry_repeats_own_run (S:=InMemoryStateStore) (D:=LogDispatcher) (H:=Database) (G:=nat) (B:=KubeDispatcher.Example.Bucket) parse_doc uuid time state "other-corp" "id-1" before_rerun) as Ht.
  cbv zeta in Ht. assert ((retry_run parse_doc uuid time state "other-corp" "id-1" before_rerun).1.1 = 404%Z) as Hstatus by (vm_compute; reflexivity).
  destruct (retry_run parse_doc uuid time state "other-corp" "id-1" before_rerun) as [[status body] w']. cbn [fst snd] in *. subst status.
  destruct Ht as [(Hs & _)|(_ & Hst & _)]; [discriminate Hs|exact Hst].
Defined.

(** The guard on the owner looks at the repository that received the pull
    request; the run is on the commit and the pipelines of the repository that
    offers it. *)
Theorem pull_request_runs_foreign_pipeline :
  let '(answer, w) := deliver "pull_request" "sha256=shhacme" world in
  answer = OK ∧ (rc_owner <$> contexts w) = ["other"] ∧ (rc_tenant_slug <$> contexts w) = [Some "acme-corp"].
Proof. vm_compute. repeat split. Qed.

(** An installation event is answered 200 whatever its signature. *)
Theorem installation_needs_no_signature :
  (deliver "installation" "sha256=guess" world).1 = OK.
Proof. reflexivity. Qed.
End Example.
