(* ===== verification/Server.v ===== *)
(** * The HTTP server (server/src/lib.rs)

    The handlers of the API, the connection checks, and the router: the routes
    of a tenant sit behind the extractor of the auth crate, the webhook, the
    poke of a node and the probes are public. The server's state is that of the
    provider plus the backplane; the session is the one the request carries. *)

From S2P Require Import Prelude AppConfig Json Http Tenancy Auth Pipeline StateStore Run SourceManager PodWatcher RunHistory Dispatcher Backplane Coordinator GithubProvider.

Record Server (S D H G B C P : Type) := mkServer { sv_provider : Provider S D H G B C; sv_backplane : P }.
Arguments mkServer {S D H G B C P}. Arguments sv_provider {S D H G B C P}. Arguments sv_backplane {S D H G B C P}.

(** What a start can fail with; of the failure of a connection only the service
    is kept. *)
Inductive OidcError := OidcInvalidUrl (msg : string) | OidcDiscovery (msg : string) | OidcHttp (msg : string).
Inductive SessionStoreError := SessionInvalidUrl (msg : string) | SessionPool (msg : string).
Inductive AuthError := AuthOidc (e : OidcError) | AuthSessionStore (e : SessionStoreError).
Inductive ServerError :=
| ServerIOError (msg : string)
| ServerStateStore (e : StateStoreError)
| ServerBackplane (e : BackplaneError)
| ServerSource (e : SourceError)
| ServerRunHistory (e : RunHistoryError)
| ServerTenancy (e : TenancyError)
| ServerAuth (e : AuthError)
| ConnectionFailed (service : string).

Record ListRunsParams := mkListParams {
  lp_limit : option Z; lp_offset : option Z; lp_sort_by : option string; lp_order : option string;
  lp_repo : option string; lp_pipeline_name : option string; lp_sha : option string }.
Record ListRunsResponse := mkListResponse { lr_runs : list PipelineRunRow; lr_total : Z }.
Record NodeRunResponse := mkNodeResponse { node_row : NodeRunRow; node_user_message : option string }.

Inductive Content :=
| NoContent
| StateContent (state : option RunState)
| RunsContent (response : ListRunsResponse)
| RunContent (row : option PipelineRunRow)
| NodesContent (nodes : list NodeRunResponse)
| NodeContent (node : option NodeRunResponse)
| LogContent (log : string)
| RetryContent (run_id : option string).
Record Answer := mkAnswer { a_status : Z; a_content : Content }.

(** The text before the first occurrence of [p]: [s.split(p).next()]. *)
Fixpoint before_first (p s : string) : string :=
  if starts_with p s then "" else match s with EmptyString => "" | String c s => String c (before_first p s) end.

(** The broker's URL as [verify_connections] logs it. *)
Definition sanitized_url (url : string) : string :=
  let scheme := before_first "://" url in
  let host_part := default url (last (split_byte "@" url)) in
  if contains "://" host_part then host_part else scheme +:+ "://" +:+ host_part.

Definition build_node_run_response (row : NodeRunRow) : NodeRunResponse :=
  mkNodeResponse row (nrow_failure_reason row ≫= user_message_from_code).

Definition validate_poke_outcome (outcome : NodeOutcome) : option bool :=
  match no_success outcome, no_finished_at outcome with
  | Some success, Some _ => Some success
  | _, _ => None
  end.

Definition list_query (slug : string) (params : ListRunsParams) : result Z ListRunsQuery :=
  let limit := Z.max 1 (Z.min (default 50%Z (lp_limit params)) 200) in
  let offset := Z.max (default 0%Z (lp_offset params)) 0 in
  match parse_sort_column (default "created_at" (lp_sort_by params)) with
  | None => Err BAD_REQUEST
  | Some sort_by =>
      match parse_sort_order (default "desc" (lp_order params)) with
      | None => Err BAD_REQUEST
      | Some order =>
          Ok (mkQuery limit offset sort_by order
                (mkFilters (Some slug) (lp_repo params) (lp_pipeline_name params) (lp_sha params)))
      end
  end.

Section server.
Context {S D H G B P T : Type} `{SS : StateStore S, DD : Dispatcher D, RH : RunHistory H, GH : GithubApi G, S3 : S3Client B}.
Context `{BP : Backplane P, SE : Session T, HO : HashOrder, LB : Libraries, WL : WebhookLibraries}.
Variables (parse : string → result string Pipeline) (new_uuid : nat → string) (clock : nat → Z).
(** serde_json and lossy UTF-8, for the objects in S3 *)
Variables (from_slice : list ascii → result string NodeOutcome) (from_utf8_lossy : list ascii → string).
Variable state : ProviderState.
Abbreviation W := (Server S D H G B Client P).

Definition on_provider {A} (f : M (Provider S D H G B Client) A) : M W A := λ w,
  let '(a, p) := f (sv_provider w) in (a, mkServer p (sv_backplane w)).
Definition ask_history {A} (f : M H A) : M W A := on_provider (on_history f).
Definition ask_store {A} (f : M S A) : M W A := on_provider (λ p,
  let '(a, s) := f (pw_store p) in
  (a, mkProvider s (pw_dispatcher p) (pw_history p) (pw_github p) (pw_bucket p) (pw_reads p) (pw_started p) (pw_installations p))).
Definition ask_bucket {A} (f : M B A) : M W A := on_provider (on_bucket (λ u,
  let '(a, b) := f (up_client u) in (a, with_client b u))).
Definition ask_backplane {A} (f : M P A) : M W A := λ w,
  let '(a, b) := f (sv_backplane w) in (a, mkServer (sv_provider w) b).

(** ** Connection checks *)

Definition check_store : M W (result ServerError unit) :=
  r ← ask_store store_ping; mret (map_err (λ _, ConnectionFailed "Redis") r).
Definition check_backplane : M W (result ServerError unit) :=
  r ← ask_backplane backplane_ping;
  mret (map_err (λ _, ConnectionFailed "RabbitMQ") r).
Definition check_source : M W (result ServerError unit) := r ← ask_bucket sm_ping; mret (map_err ServerSource r).
Definition check_history : M W (result ServerError unit) :=
  r ← ask_history ping; mret (map_err (λ _, ConnectionFailed "PostgreSQL") r).

(** The checks one after the other, up to the first failure; [deadline] is how
    many of them end before the probe's timeout, when it comes first. *)
Fixpoint run_checks (deadline : option nat) (checks : list (M W (result ServerError unit))) : M W (option (result ServerError unit)) :=
  match checks with
  | [] => mret (Some (Ok ()))
  | check :: checks =>
      match deadline with
      | Some 0 => mret None
      | _ =>
          r ← check;
          match r with
          | Err e => mret (Some (Err e))
          | Ok _ => run_checks (pred <$> deadline) checks
          end
      end
  end.
Definition verify_connections (deadline : option nat) : M W (option (result ServerError unit)) :=
  run_checks deadline [check_store; check_backplane; check_source; check_history].

Definition health_live : M W Answer := mret (mkAnswer OK NoContent).
Definition health_ready (deadline : option nat) : M W Answer :=
  r ← verify_connections deadline;
  mret (mkAnswer (match r with Some (Ok _) => OK | _ => SERVICE_UNAVAILABLE end) NoContent).

(** ** Node completions *)

Definition handle_node_poke (run_id node_name : string) : M W Answer :=
  r ← ask_bucket (get_node_status from_slice run_id node_name);
  match r with
  | Err (NotFound _) => mret (mkAnswer NOT_FOUND NoContent)
  | Err _ => mret (mkAnswer INTERNAL_SERVER_ERROR NoContent)
  | Ok outcome =>
      match validate_poke_outcome outcome with
      | None => mret (mkAnswer BAD_REQUEST NoContent)
      | Some success =>
          published ← ask_backplane (publish_node_completed run_id node_name success);
          mret (mkAnswer (match published with Ok _ => OK | Err _ => INTERNAL_SERVER_ERROR end) NoContent)
      end
  end.

(** ** Runs of a tenant *)

Definition check_run_in_slug (run_id slug : string) : M W (result Z unit) :=
  r ← ask_history (get_pipeline_run run_id);
  mret match r with
       | Ok (Some row) => if bool_decide (rd_tenant_slug (row_details row) = Some slug) then Ok () else Err NOT_FOUND
       | Ok None => Err NOT_FOUND
       | Err _ => Err INTERNAL_SERVER_ERROR
       end.

(** [if let Err(status) = check_run_in_slug(..) { return (status, empty) }] *)
Definition for_run_in_slug (run_id slug : string) (empty : Content) (k : M W Answer) : M W Answer :=
  r ← check_run_in_slug run_id slug;
  match r with Err status => mret (mkAnswer status empty) | Ok _ => k end.

Definition cancel_pipeline_run (slug run_id : string) : M W Answer :=
  for_run_in_slug run_id slug NoContent (
    r ← ask_backplane (publish_cancel run_id);
    mret (mkAnswer (match r with Ok _ => OK | Err _ => INTERNAL_SERVER_ERROR end) NoContent)).

Definition get_run_status (slug run_id : string) : M W Answer :=
  for_run_in_slug run_id slug (StateContent None) (
    r ← ask_store (load_run run_id);
    mret match r with
         | Ok (Some run_state) => mkAnswer OK (StateContent (Some run_state))
         | Ok None => mkAnswer NOT_FOUND (StateContent None)
         | Err _ => mkAnswer INTERNAL_SERVER_ERROR (StateContent None)
         end).

(** The two queries run concurrently; they do not depend on each other. *)
Definition list_runs (slug : string) (params : ListRunsParams) : M W Answer :=
  match list_query slug params with
  | Err status => mret (mkAnswer status NoContent)
  | Ok query =>
      listed ← ask_history (list_pipeline_runs query);
      counted ← ask_history (count_pipeline_runs (q_filters query));
      mret match listed, counted with
           | Ok runs, Ok total => mkAnswer OK (RunsContent (mkListResponse runs total))
           | _, _ => mkAnswer INTERNAL_SERVER_ERROR NoContent
           end
  end.

Definition get_run (slug run_id : string) : M W Answer :=
  r ← ask_history (get_pipeline_run run_id);
  mret match r with
       | Ok (Some row) =>
           if bool_decide (rd_tenant_slug (row_details row) = Some slug) then mkAnswer OK (RunContent (Some row))
           else mkAnswer NOT_FOUND (RunContent None)
       | Ok None => mkAnswer NOT_FOUND (RunContent None)
       | Err _ => mkAnswer INTERNAL_SERVER_ERROR (RunContent None)
       end.

Definition millis_to_datetime (ms : Z) : option Z :=
  secs ← try_i64 (ms / 1000); nanos ← try_u32 ((ms `mod` 1000) * 1000000); from_timestamp secs nanos.

(** The fields of a status object over those of a row. *)
Definition live_row (row : NodeRunRow) (outcome : NodeOutcome) : NodeRunRow :=
  mkNodeRow (nrow_id row) (nrow_run_id row) (nrow_node_name row) (nrow_node_definition row)
    (match no_success outcome with Some success => Some success | None => nrow_success row end)
    (nrow_created_at row)
    (match no_started_at outcome ≫= millis_to_datetime with Some dt => Some dt | None => nrow_started_at row end)
    (match no_finished_at outcome ≫= millis_to_datetime with Some dt => Some dt | None => nrow_completed_at row end)
    (nrow_failure_reason row).

Definition augment_with_live (row : NodeRunRow) : M W NodeRunRow :=
  if bool_decide (is_Some (nrow_completed_at row)) then mret row
  else
    r ← ask_bucket (get_node_status from_slice (nrow_run_id row) (nrow_node_name row));
    mret match r with Ok outcome => live_row row outcome | Err _ => row end.

(** [join_all], in the order the reads end. *)
Fixpoint augment_all (rows : list NodeRunRow) : M W (list NodeRunRow) :=
  match rows with
  | [] => mret []
  | row :: rows => row ← augment_with_live row; rows ← augment_all rows; mret (row :: rows)
  end.

Definition list_run_nodes (slug run_id : string) : M W Answer :=
  for_run_in_slug run_id slug (NodesContent []) (
    r ← ask_history (list_node_runs run_id);
    match r with
    | Ok rows => augmented ← augment_all rows; mret (mkAnswer OK (NodesContent (build_node_run_response <$> augmented)))
    | Err _ => mret (mkAnswer INTERNAL_SERVER_ERROR (NodesContent []))
    end).

Definition get_run_node (slug run_id node_name : string) : M W Answer :=
  for_run_in_slug run_id slug (NodeContent None) (
    r ← ask_history (get_node_run run_id node_name);
    match r with
    | Ok (Some row) =>
        augmented ← augment_with_live row;
        mret (mkAnswer OK (NodeContent (Some (build_node_run_response augmented))))
    | Ok None => mret (mkAnswer NOT_FOUND (NodeContent None))
    | Err _ => mret (mkAnswer INTERNAL_SERVER_ERROR (NodeContent None))
    end).

Definition stored_log (run_id node_name : string) : M W Answer :=
  r ← ask_history (RunHistory.get_node_log run_id node_name);
  mret match r with
       | Ok (Some log) => mkAnswer OK (LogContent log)
       | Ok None => mkAnswer NOT_FOUND (LogContent "")
       | Err _ => mkAnswer INTERNAL_SERVER_ERROR (LogContent "")
       end.

Definition get_node_log (slug run_id node_name : string) : M W Answer :=
  for_run_in_slug run_id slug (LogContent "") (
    r ← ask_history (get_node_run run_id node_name);
    match r with
    | Ok None => mret (mkAnswer NOT_FOUND (LogContent ""))
    | Err _ => mret (mkAnswer INTERNAL_SERVER_ERROR (LogContent ""))
    | Ok (Some row) =>
        if bool_decide (nrow_completed_at row = None) then
          live ← ask_bucket (sm_get_node_log from_utf8_lossy run_id node_name);
          match live with
          | Ok (Some log) => mret (mkAnswer OK (LogContent log))
          | Ok None | Err _ => stored_log run_id node_name
          end
        else stored_log run_id node_name
    end).

(** ** The router *)

Inductive Route :=
| HealthLive
| HealthReady
| NodePoke (run_id node_name : string)
| GithubWebhook (headers : string → option string) (body : list ascii)
| CancelPipelineRun (slug run_id : string)
| GetRunStatus (slug run_id : string)
| ListRuns (slug : string) (params : ListRunsParams)
| GetRun (slug run_id : string)
| ListRunNodes (slug run_id : string)
| GetRunNode (slug run_id node_name : string)
| GetNodeLog (slug run_id node_name : string)
| RetryRun (slug run_id : string).

(** The parameters of the path, for the routes behind the extractor. *)
Definition protected_routes (route : Route) : option (gmap string string) :=
  match route with
  | HealthLive | HealthReady | NodePoke _ _ | GithubWebhook _ _ => None
  | CancelPipelineRun slug run_id | GetRunStatus slug run_id | GetRun slug run_id | ListRunNodes slug run_id | RetryRun slug run_id =>
      Some {["slug" := slug; "run_id" := run_id]}
  | ListRuns slug _ => Some {["slug" := slug]}
  | GetRunNode slug run_id node_name | GetNodeLog slug run_id node_name =>
      Some {["slug" := slug; "run_id" := run_id; "node_name" := node_name]}
  end.

Definition handle (deadline : option nat) (route : Route) : M W Answer :=
  match route with
  | HealthLive => health_live
  | HealthReady => health_ready deadline
  | NodePoke run_id node_name => handle_node_poke run_id node_name
  | GithubWebhook headers body =>
      status ← on_provider (handle_webhook parse new_uuid clock state headers body); mret (mkAnswer status NoContent)
  | CancelPipelineRun slug run_id => cancel_pipeline_run slug run_id
  | GetRunStatus slug run_id => get_run_status slug run_id
  | ListRuns slug params => list_runs slug params
  | GetRun slug run_id => get_run slug run_id
  | ListRunNodes slug run_id => list_run_nodes slug run_id
  | GetRunNode slug run_id node_name => get_run_node slug run_id node_name
  | GetNodeLog slug run_id node_name => get_node_log slug run_id node_name
  | RetryRun slug run_id =>
      '(status, new_run_id) ← on_provider (retry_run parse new_uuid clock state slug run_id);
      mret (mkAnswer status (RetryContent new_run_id))
  end.

(** [from_extractor::<AuthorizedTenant>()] in front of the protected routes; a
    request comes with a session, or without one when the layer failed. *)
Definition build_router (deadline : option nat) (session_present : bool) (route : Route) : M (T * W) Answer := λ '(t, w),
  match protected_routes route with
  | None => let '(answer, w) := handle deadline route w in (answer, (t, w))
  | Some params =>
      let '(admitted, t) := authorized_tenant (Some params) session_present t in
      match admitted with
      | Err status => (mkAnswer status NoContent, (t, w))
      | Ok _ => let '(answer, w) := handle deadline route w in (answer, (t, w))
      end
  end.
End server.
