(* ===== verification/ServerTheorems.v ===== *)
(** * What the HTTP server guarantees

    Theorems about Server.v: a tenant's routes answer only about that tenant's
    runs, a poke publishes exactly the completions that the coordinator itself
    would read, a launched run is seen by its tenant and keeps its check run when
    it is taken over, live status is shown for the nodes that are not completed,
    a listing is a page of the runs that match, and the probe is ready when every
    connection is. *)

From S2P Require Import Prelude AppConfig Json Http Tenancy Auth Pipeline StateStore Run SourceManager PodWatcher RunHistory Dispatcher Backplane KubeDispatcher Coordinator Reaper GithubProvider GithubTheorems Server.

Section facts.
Context {S D H G B P T : Type} `{SS : StateStore S, DD : Dispatcher D, RH : RunHistory H, GH : GithubApi G, S3 : S3Client B}.
Context `{BP : Backplane P, SE : Session T, HO : HashOrder, LB : Libraries, WL : WebhookLibraries}.
Context (parse : string → result string Pipeline) (new_uuid : nat → string) (clock : nat → Z).
Context (from_slice : list ascii → result string NodeOutcome) (from_utf8_lossy : list ascii → string) (state : ProviderState).
Abbreviation W := (Server S D H G B Client P).
Abbreviation handle_ := (handle (S:=S) (D:=D) (H:=H) (G:=G) (B:=B) (P:=P) parse new_uuid clock from_slice from_utf8_lossy state).
Abbreviation router := (build_router (S:=S) (D:=D) (H:=H) (G:=G) (B:=B) (P:=P) (T:=T) parse new_uuid clock from_slice from_utf8_lossy state).
Implicit Types (w : W).

(** ** Tenants *)

(** The tenant and the run of a route, and the lookup that guards it. *)
Definition run_of (route : Route) : option (string * string) :=
  match route with
  | CancelPipelineRun slug run_id | GetRunStatus slug run_id | GetRun slug run_id | ListRunNodes slug run_id
  | GetRunNode slug run_id _ | GetNodeLog slug run_id _ | RetryRun slug run_id => Some (slug, run_id)
  | _ => None
  end.
Definition lookup (run_id : string) w : result RunHistoryError (option PipelineRunRow) * W := ask_history (get_pipeline_run run_id) w.
Definition belongs (found : result RunHistoryError (option PipelineRunRow)) (slug : string) : Prop :=
  ∃ row, found = Ok (Some row) ∧ rd_tenant_slug (row_details row) = Some slug.
(** An answer without a body, that tells at most that there is no such run. *)
Definition refused (answer : Answer) : Prop :=
  (a_status answer = NOT_FOUND ∨ a_status answer = INTERNAL_SERVER_ERROR) ∧
  match a_content answer with
  | NoContent | StateContent None | RunContent None | NodesContent [] | NodeContent None | LogContent "" | RetryContent None => True
  | _ => False
  end.

Lemma for_run_in_slug_spec run_id slug empty k w :
  (∀ status, status = NOT_FOUND ∨ status = INTERNAL_SERVER_ERROR → refused (mkAnswer status empty)) →
  let '(answer, w') := for_run_in_slug run_id slug empty k w in
  belongs (lookup run_id w).1 slug ∨ (refused answer ∧ w' = (lookup run_id w).2).
Proof.
  intros Hempty. unfold for_run_in_slug. rewrite bind_eq. unfold check_run_in_slug. rewrite bind_eq. fold (lookup run_id w).
  destruct (lookup run_id w) as [[[row|]|e] w']; cbn; [|by right; split; [apply Hempty; left|]|by right; split; [apply Hempty; right|]].
  destruct (bool_decide _) eqn:Hb; [|by right; split; [apply Hempty; left|]].
  apply bool_decide_eq_true in Hb. destruct (k w'). left. by exists row.
Qed.

Lemma run_routes_spec deadline route slug run_id w :
  run_of route = Some (slug, run_id) →
  let '(answer, w') := handle_ deadline route w in
  belongs (lookup run_id w).1 slug ∨ (refused answer ∧ w' = (lookup run_id w).2).
Proof.
  destruct route as [| | | |s r|s r|s ps|s r|s r|s r n|s r n|s r]; intros [= -> ->]; cbn [handle];
    try (apply for_run_in_slug_spec; by intros status Hstatus).
  - unfold get_run. rewrite bind_eq. fold (lookup run_id w). destruct (lookup run_id w) as [[[row|]|e] w']; cbn; [|right..].
    + destruct (bool_decide _) eqn:Hb; cbn; [left|right; by split; [split; [left|]|]]. apply bool_decide_eq_true in Hb. by exists row.
    + by split; [split; [left|]|].
    + by split; [split; [right|]|].
  - rewrite bind_eq. unfold lookup, ask_history, on_provider, retry_run. rewrite bind_eq. unfold retry_pipeline_run. rewrite bind_eq.
    destruct (on_history (get_pipeline_run run_id) (sv_provider w)) as [[[row|]|e] p]; cbn [fst snd];
      [|by right; split; [split; [left|]|]|by right; split; [split; [right|]|]].
    unfold retry_setup. destruct (rd_tenant_slug (row_details row)) as [sl|] eqn:Hsl; [|by right; split; [split; [right|]|]].
    destruct (str_eqb sl slug) eqn:Heq; cbn [negb]; [|by right; split; [split; [left|]|]].
    apply str_eqb_true in Heq as ->. match goal with |- let '(_, _) := ?m in _ => destruct m end. left. by exists row.
Qed.

(** ** Properties *)

(** C7: a request for a tenant's run is served only when the session is
    authorised for the tenant in the path and the history has the run under that
    very tenant. Otherwise the answer is empty, no event is published, no run is
    started, nothing is read from the store or the bucket, and the only thing
    that happened is at most the lookup of the run and of the session. *)
Theorem run_routes_isolate_tenants deadline present route slug run_id t w :
  run_of route = Some (slug, run_id) →
  let '(answer, (t', w')) := router deadline present route (t, w) in
  (∃ auth, present = true ∧ load_auth t = (Ok (Some auth), t') ∧ slug ∈ authorized_slugs auth ∧
     belongs (lookup run_id w).1 slug ∧ (answer, w') = handle_ deadline route w) ∨
  (refused answer ∧ w' = (lookup run_id w).2) ∨
  (a_content answer = NoContent ∧ a_status answer ∈ [UNAUTHORIZED; FORBIDDEN; INTERNAL_SERVER_ERROR] ∧ w' = w).
Proof.
  intros Hrun. pose proof (run_routes_spec deadline route slug run_id w Hrun) as Hspec.
  assert (∃ params, protected_routes route = Some params ∧ params !! "slug" = Some slug) as (params & Hparams & Hslug)
    by (destruct route; simplify_eq/=; eexists; by split).
  unfold build_router. rewrite Hparams. unfold authorized_tenant. cbn. rewrite Hslug.
  destruct present; cbn; [|by right; right; split_and!; [|set_solver|]].
  rewrite bind_eq. destruct (load_auth t) as [[[auth|]|e] t'] eqn:Hload; cbn; [|by right; right; split_and!; [|set_solver|]..].
  destruct (existsb _ _) eqn:Hin; cbn [negb]; [|by right; right; split_and!; [|set_solver|]].
  apply existsb_exists in Hin as (s & Hin & ->%str_eqb_true). apply list_elem_of_In in Hin.
  destruct (handle_ deadline route w) as [answer w'] eqn:Hh. destruct Hspec as [Hb|Hr]; [left|by right; left]. by exists auth.
Qed.

(** A poke publishes a completion exactly when the status object of the
    node is one that the coordinator's own reconciliation reads as completed,
    with the same success flag, and it answers 200 only when the backplane took
    the event; an incomplete object is answered 400, a missing one 404, and
    nothing is published then. *)
Theorem poke_publishes_completions run_id node_name w :
  let status := (get_node_status from_slice run_id node_name (up_client (pw_bucket (sv_provider w)))).1 in
  let '(answer, w') := handle_node_poke from_slice run_id node_name w in
  pw_started (sv_provider w') = pw_started (sv_provider w) ∧
  match status with
  | Ok outcome =>
      match reconcile_from outcome with
      | Completed success _ _ =>
          let '(published, b) := publish_node_completed run_id node_name success (sv_backplane w) in
          sv_backplane w' = b ∧ a_status answer = if is_ok published then OK else INTERNAL_SERVER_ERROR
      | _ => a_status answer = BAD_REQUEST ∧ sv_backplane w' = sv_backplane w
      end
  | Err (NotFound _) => a_status answer = NOT_FOUND ∧ sv_backplane w' = sv_backplane w
  | Err _ => a_status answer = INTERNAL_SERVER_ERROR ∧ sv_backplane w' = sv_backplane w
  end.
Proof.
  intros status. unfold handle_node_poke. rewrite bind_eq. subst status. unfold ask_bucket, on_provider, on_bucket.
  destruct (get_node_status _ _ _ _) as [[outcome|[]] b] eqn:Hstatus; cbn; [|done..].
  destruct outcome as [[success|] started [finished|]]; cbn; [|by destruct started..].
  rewrite bind_eq. unfold ask_backplane. cbn. by destruct (publish_node_completed _ _ _ _) as [[] b'].
Qed.

(** Milliseconds of the epoch as a time, when they are one. *)
Definition time_of_millis (ms : Z) : option Z :=
  if decide (ms / 1000 <= i64_max)%Z then from_timestamp (ms / 1000) ((ms `mod` 1000) * 1000000) else None.

Lemma millis_to_datetime_eq ms : millis_to_datetime ms = time_of_millis ms.
Proof.
  unfold millis_to_datetime, time_of_millis, try_i64, try_u32. destruct (decide (ms / 1000 <= i64_max)%Z); cbn; [|done].
  rewrite decide_True; [done|]. pose proof (Z.mod_pos_bound ms 1000). lia.
Qed.

(** The responses for the rows of a run, one by one, and what the bucket says of
    those that are not completed. *)
Inductive listed : B → list NodeRunRow → list NodeRunResponse → Prop :=
| listed_none b : listed b [] []
| listed_completed b old rows responses :
    is_Some (nrow_completed_at old) → listed b rows responses →
    listed b (old :: rows)
      (mkNodeResponse old (nrow_failure_reason old ≫= user_message_from_code) :: responses)
| listed_unread b e b' old rows responses :
    nrow_completed_at old = None → get_node_status from_slice (nrow_run_id old) (nrow_node_name old) b = (Err e, b') →
    listed b' rows responses →
    listed b (old :: rows)
      (mkNodeResponse old (nrow_failure_reason old ≫= user_message_from_code) :: responses)
| listed_live b outcome b' old rows responses :
    nrow_completed_at old = None → get_node_status from_slice (nrow_run_id old) (nrow_node_name old) b = (Ok outcome, b') →
    listed b' rows responses →
    listed b (old :: rows)
      (mkNodeResponse {|
         nrow_id := nrow_id old; nrow_run_id := nrow_run_id old; nrow_node_name := nrow_node_name old;
         nrow_node_definition := nrow_node_definition old; nrow_success := no_success outcome ∪ nrow_success old;
         nrow_created_at := nrow_created_at old;
         nrow_started_at := (no_started_at outcome ≫= time_of_millis) ∪ nrow_started_at old;
         nrow_completed_at := no_finished_at outcome ≫= time_of_millis;
         nrow_failure_reason := nrow_failure_reason old |}
         (nrow_failure_reason old ≫= user_message_from_code) :: responses).

Lemma live_row_eq old outcome : nrow_completed_at old = None →
  live_row old outcome = {|
    nrow_id := nrow_id old; nrow_run_id := nrow_run_id old; nrow_node_name := nrow_node_name old;
    nrow_node_definition := nrow_node_definition old; nrow_success := no_success outcome ∪ nrow_success old;
    nrow_created_at := nrow_created_at old;
    nrow_started_at := (no_started_at outcome ≫= time_of_millis) ∪ nrow_started_at old;
    nrow_completed_at := no_finished_at outcome ≫= time_of_millis;
    nrow_failure_reason := nrow_failure_reason old |}.
Proof.
  intros Hnone. unfold live_row. rewrite Hnone.
  assert (∀ o, o ≫= millis_to_datetime = o ≫= time_of_millis) as Hms by (intros [ms|]; [apply millis_to_datetime_eq|done]).
  rewrite !Hms. f_equal.
  - destruct (no_success outcome), (nrow_success old); done.
  - destruct (no_started_at outcome ≫= _), (nrow_started_at old); done.
  - by destruct (no_finished_at outcome ≫= _).
Qed.

Lemma augment_all_spec rows w :
  listed (up_client (pw_bucket (sv_provider w))) rows (build_node_run_response <$> (augment_all from_slice rows w).1).
Proof.
  revert w. induction rows as [|old rows IH]; intros w; [constructor|]. cbn [augment_all]. rewrite !bind_eq. cbn [mret state_ret fst].
  rewrite fmap_cons. unfold augment_with_live. destruct (bool_decide _) eqn:Hb.
  { apply bool_decide_eq_true in Hb. apply listed_completed; [done|]. apply (IH w). }
  apply bool_decide_eq_false in Hb. assert (nrow_completed_at old = None) as Hnone by (destruct (nrow_completed_at old); [by destruct Hb|done]).
  rewrite bind_eq. unfold ask_bucket, on_provider, on_bucket.
  destruct (get_node_status from_slice (nrow_run_id old) (nrow_node_name old) (up_client (pw_bucket (sv_provider w)))) as [[outcome|e] b] eqn:Hstatus;
    cbn [fst snd mret state_ret].
  - change (build_node_run_response (live_row old outcome)) with
      (mkNodeResponse (live_row old outcome) (nrow_failure_reason old ≫= user_message_from_code)).
    rewrite live_row_eq by done. eapply listed_live; [done|exact Hstatus|].
    match goal with |- context [augment_all from_slice rows ?w'] => exact (IH w') end.
  - eapply listed_unread; [done|exact Hstatus|].
    match goal with |- context [augment_all from_slice rows ?w'] => exact (IH w') end.
Qed.

(** C29: the nodes of a run are listed to the run's own tenant, one by one as the
    history has them, with the message of their failure code. A completed row is
    shown as it was recorded. An unfinished one is shown as it was recorded when
    its status object cannot be read; otherwise with the success flag and the start
    of that object, where it has them, and completed exactly when the object has a
    finish time. Anyone else gets a 404, and a failure of the history is a 500. *)
Theorem listed_nodes_extend_history slug run_id w :
  let '(found, h) := get_pipeline_run run_id (pw_history (sv_provider w)) in
  let '(answer, w') := list_run_nodes from_slice slug run_id w in
  match found with
  | Err _ => answer = mkAnswer 500 (NodesContent [])
  | Ok None => answer = mkAnswer 404 (NodesContent [])
  | Ok (Some run) =>
      if decide (rd_tenant_slug (row_details run) = Some slug) then
        match (list_node_runs run_id h).1 with
        | Err _ => answer = mkAnswer 500 (NodesContent [])
        | Ok rows => ∃ responses, answer = mkAnswer 200 (NodesContent responses) ∧
            listed (up_client (pw_bucket (sv_provider w))) rows responses
        end
      else answer = mkAnswer 404 (NodesContent [])
  end.
Proof.
  destruct (get_pipeline_run run_id _) as [found h] eqn:Hfound.
  unfold list_run_nodes, for_run_in_slug, check_run_in_slug. rewrite !bind_eq. unfold ask_history, on_provider, on_history.
  rewrite Hfound. cbn [fst snd mret state_ret]. destruct found as [[run|]|e]; [|done..].
  rewrite bool_decide_decide. destruct (decide _); [|done]. rewrite bind_eq. cbn [fst snd sv_provider pw_history].
  destruct (list_node_runs run_id h) as [[rows|e'] h']; cbn [fst snd]; [|done]. rewrite bind_eq.
  match goal with |- context [augment_all from_slice rows ?w2] => pose proof (augment_all_spec rows w2) as Hall;
    destruct (augment_all from_slice rows w2) as [augmented w3] end.
  cbn in Hall |- *. by eexists.
Qed.

Lemma run_checks_cons deadline check checks w :
  run_checks deadline (check :: checks) w =
  match deadline with
  | Some 0 => (None, w)
  | _ => match (check w).1 with Err e => (Some (Err e), (check w).2) | Ok _ => run_checks (pred <$> deadline) checks (check w).2 end
  end.
Proof. cbn [run_checks]. destruct deadline as [[|n]|]; [done|..]; rewrite bind_eq; by destruct (check w) as [[[]|e] w']. Qed.

(** The four pings act on four different parts of the state. *)
Lemma check_store_eq (p : Provider S D H G B Client) (b : P) :
  ∃ p', check_store (mkServer p b) = (map_err (λ _, ConnectionFailed "Redis") (store_ping (pw_store p)).1, mkServer p' b) ∧
    pw_bucket p' = pw_bucket p ∧ pw_history p' = pw_history p.
Proof.
  unfold check_store. rewrite bind_eq. unfold ask_store, on_provider. cbn. destruct (store_ping _) as [r s]. by eexists.
Qed.
Lemma check_backplane_eq (p : Provider S D H G B Client) (b : P) :
  ∃ b', check_backplane (mkServer p b) = (map_err (λ _, ConnectionFailed "RabbitMQ") (backplane_ping b).1, mkServer p b').
Proof. unfold check_backplane. rewrite bind_eq. unfold ask_backplane. cbn. destruct (backplane_ping _). by eexists. Qed.
Lemma check_source_eq (p : Provider S D H G B Client) (b : P) :
  ∃ p', check_source (mkServer p b) = (map_err ServerSource (sm_ping (up_client (pw_bucket p))).1, mkServer p' b) ∧
    pw_history p' = pw_history p.
Proof.
  unfold check_source. rewrite bind_eq. unfold ask_bucket, on_provider, on_bucket. cbn. destruct (sm_ping _) as [r s]. by eexists.
Qed.
Lemma check_history_eq (p : Provider S D H G B Client) (b : P) :
  (check_history (mkServer p b)).1 = map_err (λ _, ConnectionFailed "PostgreSQL") (ping (pw_history p)).1.
Proof. unfold check_history. rewrite bind_eq. unfold ask_history, on_provider, on_history. cbn. by destruct (ping _). Qed.

(** The readiness probe answers 200 exactly when the store, the backplane,
    the bucket and the history all answer their pings before its deadline, and
    503 otherwise. *)
Theorem ready_iff_connected deadline w :
  let p := sv_provider w in
  let connected := is_ok (store_ping (pw_store p)).1 && is_ok (backplane_ping (sv_backplane w)).1 &&
    is_ok (sm_ping (up_client (pw_bucket p))).1 && is_ok (ping (pw_history p)).1 in
  a_status (health_ready deadline w).1 =
    if connected && match deadline with Some n => (4 <=? n)%nat | None => true end then OK else SERVICE_UNAVAILABLE.
Proof.
  destruct w as [p b]. cbn [sv_provider sv_backplane]. unfold health_ready, verify_connections. rewrite bind_eq. cbn [mret state_ret fst a_status].
  destruct (check_store_eq p b) as (p1 & H1 & Hbucket & Hhist). destruct (check_backplane_eq p1 b) as (b2 & H2).
  destruct (check_source_eq p1 b2) as (p3 & H3 & Hhist3). pose proof (check_history_eq p3 b2) as H4.
  rewrite Hbucket in H3. rewrite Hhist3, Hhist in H4.
  rewrite run_checks_cons, H1. destruct (store_ping (pw_store p)).1 as [[]|e1]; cbn [is_ok andb map_err fst snd]; [|by destruct deadline as [[]|]].
  destruct deadline as [[|n]|]; cbn [fmap option_fmap option_map pred]; [by rewrite andb_false_r|..]; rewrite run_checks_cons, H2;
    (destruct (backplane_ping b).1 as [[]|e2]; cbn [is_ok andb map_err fst snd]; [|by try destruct n]).
  - destruct n as [|n]; cbn [fmap option_fmap option_map pred]; [by rewrite andb_false_r|]. rewrite run_checks_cons, H3.
    destruct (sm_ping _).1 as [[]|e3]; cbn [is_ok andb map_err fst snd]; [|by destruct n].
    destruct n as [|n]; cbn [fmap option_fmap option_map pred]; [by rewrite andb_false_r|]. rewrite run_checks_cons, H4.
    destruct (ping _).1 as [[]|e4]; cbn; by destruct n.
  - rewrite run_checks_cons, H3. destruct (sm_ping _).1 as [[]|e3]; cbn [is_ok andb map_err fst snd fmap option_fmap option_map]; [|done].
    rewrite run_checks_cons, H4. by destruct (ping _).1 as [[]|e4].
Qed.
End facts.

(** ** Listings *)

Section listings.
Import Postgres.
Context {S D G B P : Type} `{GH : GithubApi G, BE : Backend}.
Abbreviation W := (Server S D Database G B Client P).

Lemma strongly_sorted_impl {A} (R1 R2 : A → A → Prop) l :
  (∀ a b, R1 a b → R2 a b) → StronglySorted R1 l → StronglySorted R2 l.
Proof. intros HR. induction 1 as [|a l _ IH Ha]; constructor; [done|]. by eapply Forall_impl; [exact Ha|apply HR]. Qed.
Lemma list_filter_bool {A} (Q : A → Prop) `{∀ a, Decision (Q a)} (f : A → bool) l :
  (∀ a, f a = true ↔ Q a) → List.filter f l = filter Q l.
Proof.
  intros Hf. induction l as [|a l IH]; [done|]. cbn [List.filter]. rewrite filter_cons, IH. specialize (Hf a).
  destruct (f a); [by rewrite decide_True by tauto|rewrite decide_False; [done|]]. by intros ?%Hf.
Qed.

(** A setting of the query that was not given admits every value. *)
Definition admits (asked : option string) (value : string) : Prop := ∀ v, asked = Some v → value = v.
#[local] Instance admits_dec asked value : Decision (admits asked value).
Proof.
  unfold admits. destruct asked as [v|]; [|by left]. refine (cast_if (decide (value = v))); [by intros ? [= <-]|].
  intros Hall. by apply n, Hall.
Defined.

(** One row may come before another in a listing by a key in a direction; runs
    that are not completed come last in both. *)
Definition may_precede (key direction : string) (a b : PipelineRunRow) : Prop :=
  let number (x y : Z) := if str_eqb direction "asc" then (x <= y)%Z else (y <= x)%Z in
  let text x y := (if str_eqb direction "asc" then collate x y else collate y x) = true in
  (key = "created_at" → number (rd_created_at (row_details a)) (rd_created_at (row_details b))) ∧
  (key = "completed_at" → ∀ y, row_completed_at b = Some y → ∃ x, row_completed_at a = Some x ∧ number x y) ∧
  (key = "pipeline_name" → text (rd_pipeline_name (row_details a)) (rd_pipeline_name (row_details b))) ∧
  (key = "owner" → text (rd_owner (row_details a)) (rd_owner (row_details b))) ∧
  (key = "status" → text (run_status_str (row_status a)) (run_status_str (row_status b))).

Lemma column_le_precedes key direction c o a b :
  parse_sort_column key = Some c → parse_sort_order direction = Some o → column_le c o a b = true → may_precede key direction a b.
Proof.
  intros Hc%PostgresFacts.codes_round_trip Ho. subst key.
  assert (str_eqb direction "asc" = match o with Asc => true | Desc => false end) as Hdir.
  { revert Ho. unfold parse_sort_order. destruct (str_eqb direction "asc"); [by intros [= <-]|].
    destruct (str_eqb direction "desc"); [by intros [= <-]|done]. }
  unfold may_precede. rewrite Hdir. destruct o, c; cbn; rewrite ?Z.leb_le; intros Hle; split_and!; try done;
    (intros _ y Hy; rewrite Hy in Hle; destruct (row_completed_at a) as [x|]; [|done]; exists x; split; [done|by apply Z.leb_le]).
Qed.

Lemma sort_keys key : is_Some (parse_sort_column key) ↔ key ∈ ["created_at"; "completed_at"; "pipeline_name"; "owner"; "status"].
Proof.
  split.
  - intros [c ->%PostgresFacts.codes_round_trip]. destruct c; set_solver.
  - intros Hin. repeat (apply elem_of_cons in Hin as [->|Hin]; [by eexists|]). by apply elem_of_nil in Hin.
Qed.
Lemma sort_directions direction : is_Some (parse_sort_order direction) ↔ direction ∈ ["asc"; "desc"].
Proof.
  unfold parse_sort_order. split.
  - destruct (str_eqb direction "asc") eqn:Ha; [apply str_eqb_true in Ha; set_solver|].
    destruct (str_eqb direction "desc") eqn:Hd; [apply str_eqb_true in Hd; set_solver|by intros [? [=]]].
  - intros Hin. repeat (apply elem_of_cons in Hin as [->|Hin]; [by eexists|]). by apply elem_of_nil in Hin.
Qed.

Lemma matches_opt_iff asked value : matches_opt asked value = true ↔ admits asked value.
Proof.
  unfold matches_opt, admits. destruct asked as [v|]; [|done]. rewrite str_eqb_true. split; [by intros -> ? [= <-]|auto].
Qed.

(** C30: a listing of a healthy database is one page of all its runs whose
    repository owner is the slug of the path (a tenant's slug, which need not be
    its organisation) and that match the repository, the pipeline name and the
    commit, those of them that are given. The runs are sorted by the key and in
    the direction asked for, newest first by default; the page starts at the
    offset, 0 if none or a negative one is given, and has as many runs as the
    limit says, 50 by default and between 1 and 200 whatever is given; and the
    answer says how many runs match in all. Only an unknown key or direction is
    refused, with a 400. *)
Theorem list_runs_bounded slug params (w : W) :
  let db := pw_history (sv_provider w) in
  let key := default "created_at" (lp_sort_by params) in
  let direction := default "desc" (lp_order params) in
  replies db = [] →
  let answer := (list_runs slug params w).1 in
  if decide (key ∈ ["created_at"; "completed_at"; "pipeline_name"; "owner"; "status"] ∧ direction ∈ ["asc"; "desc"]) then
    ∃ matching, StronglySorted (may_precede key direction) matching ∧
      matching ≡ₚ filter (λ row, let d := row_details row in rd_owner d = slug ∧ admits (lp_repo params) (rd_repo d) ∧
        admits (lp_pipeline_name params) (rd_pipeline_name d) ∧ admits (lp_sha params) (rd_sha d)) (map_to_list (pipeline_runs db)).*2 ∧
      answer = mkAnswer 200 (RunsContent {|
        lr_runs := take (Z.to_nat (Z.max 1 (Z.min (default 50%Z (lp_limit params)) 200)))
                     (drop (Z.to_nat (Z.max 0 (default 0%Z (lp_offset params)))) matching);
        lr_total := Z.of_nat (length matching) |})
  else answer = mkAnswer 400 NoContent.
Proof.
  intros db key direction Hdb. cbv zeta. unfold list_runs, list_query. fold key direction.
  destruct (decide _) as [[[c Hc]%sort_keys [o Ho]%sort_directions]|Hno].
  2:{ rewrite <-sort_keys, <-sort_directions in Hno. destruct (parse_sort_column key); [|done].
      destruct (parse_sort_order direction); [by destruct Hno|done]. }
  rewrite Hc, Ho, !bind_eq. unfold ask_history, on_provider, on_history. cbn [fst snd]. fold db.
  set (q := mkQuery _ _ _ _ _). destruct (PostgresFacts.run_pages_spec q db Hdb) as (full & Hperm & Hsorted & Hcount & Hlist).
  assert (((q_limit q <? 0) || (q_offset q <? 0))%Z = false) as Hpos.
  { apply orb_false_iff. split; apply Z.ltb_ge; unfold q; cbn; lia. }
  rewrite Hpos in Hlist.
  exists full. split_and!.
  - eapply strongly_sorted_impl; [|exact Hsorted]. intros a b. by apply column_le_precedes.
  - rewrite Hperm. apply reflexive_eq, list_filter_bool. intros row. unfold filter_where. cbn.
    rewrite !andb_true_iff, str_eqb_true, !matches_opt_iff. tauto.
  - change (list_pipeline_runs q db) with (pg_list_pipeline_runs q db). rewrite Hlist. cbn [fst snd sv_provider pw_history].
    change (count_pipeline_runs ?f db) with (pg_count_pipeline_runs f db). change (mkFilters _ _ _ _) with (q_filters q).
    rewrite Hcount. cbn. by rewrite (Z.max_comm 0).
Qed.
End listings.

(** ** Runs of a launch *)

Section launched.
Import Postgres.
Context {S D G B P : Type} `{SS : StateStore S, DD : Dispatcher D, GH : GithubApi G, S3 : S3Client B, BE : Backend}.
Context `{HO : HashOrder, LB : Libraries, WL : WebhookLibraries}.
Context (new_uuid : nat → string) (clock : nat → Z) (state : ProviderState).
Abbreviation Pr := (Provider S D Database G B Client).
Abbreviation launch := (launch_coordinator_for_pipeline (S:=S) (D:=D) (H:=Database) (G:=G) (B:=B) new_uuid clock state).

Lemma start_history run_id pipeline reporter rc (w : Pr) :
  let '(acquired, w') := start new_uuid clock state run_id pipeline reporter rc w in
  acquired = true → pw_history w' = (pg_record_pipeline_started (build_pipeline_start_record run_id pipeline rc) (pw_history w)).2 ∧
    ∃ c, pw_started w' = pw_started w ++ [(c, reporter)] ∧ c_run_id (const c) = run_id.
Proof.
  unfold start, start_coordinator, read. cbn. destruct (try_acquire_lease _ _ _ _) as [[[v|]|e] s]; cbn; [|done..].
  destruct (pg_record_pipeline_started _ _) as [r h]. destruct (initialize_run_state _ _ _ _) as [[[run version] rehydrate] s'].
  destruct (start_pod_watcher _ _ _) as [b d]. intros _. split; [done|]. by eexists.
Qed.

(** The state of GitHub when a launch creates its check run: the source, if one is
    needed, has been downloaded. *)
Definition after_download pipeline (rc : RunContext) crab (w : Pr) : G :=
  if existsb ni_checkout (node_info pipeline) then (download_tarball crab (rc_owner rc) (rc_repo rc) (rc_sha rc) (pw_github w)).2
  else pw_github w.

(** What a launch starts and what it has the history record. *)
Lemma launch_history pipeline rc crab (w : Pr) :
  let '(r, w') := launch pipeline rc crab w in
  ∀ run_id, r = Some run_id → ∃ c reporter, pw_started w' = pw_started w ++ [(c, reporter)] ∧ c_run_id (const c) = run_id ∧
    reporter = match (create_check_run crab (rc_owner rc) (rc_repo rc) (pl_name pipeline) (rc_sha rc) run_id
                        (after_download pipeline rc crab w)).1 with
               | Ok id => Some (mkReporter crab (rc_owner rc) (rc_repo rc) id)
               | Err _ => None
               end ∧
    pw_history w' = (pg_record_pipeline_started
      (build_pipeline_start_record run_id pipeline (with_check_run_id rc (as_i64 ∘ rep_check_run_id <$> reporter))) (pw_history w)).2.
Proof.
  unfold launch_coordinator_for_pipeline. rewrite bind_eq. cbn [read fst snd]. set (w1 := mkProvider _ _ _ _ _ _ _ _).
  set (ready := if existsb ni_checkout _ then _ else _). rewrite bind_eq.
  assert (pw_history (ready w1).2 = pw_history w ∧ pw_started (ready w1).2 = pw_started w ∧
    pw_github (ready w1).2 = after_download pipeline rc crab w) as (Hhist & Hst & Hgh).
  { unfold ready, after_download. case_match; [|done]. rewrite upload_source_for_eq. cbn [pw_github w1].
    destruct (download_tarball _ _ _ _ _). by destruct (upload_source _ _ _). }
  destruct (ready w1) as [[] w2]; [|done]. cbn [fst snd] in Hhist, Hst, Hgh |- *. rewrite bind_eq, <-Hgh, <-Hst, <-Hhist. clear Hgh Hst Hhist.
  unfold create_check_run_reporter. rewrite bind_eq. unfold on_github. destruct (create_check_run _ _ _ _ _ _ _) as [created g] eqn:Hc.
  cbn [fst snd mret state_ret]. set (w3 := mkProvider _ _ _ _ _ _ _ _).
  destruct created as [id|e]; rewrite bind_eq; cbn [fst snd];
    (match goal with |- context [start _ _ _ ?i ?p ?r ?c w3] => pose proof (start_history i p r c w3) as Hs;
      destruct (start new_uuid clock state i p r c w3) as [[] w4] end; cbn [fst snd mret state_ret]; [|done]);
    destruct (Hs eq_refl) as (Hh & co & Hst & Hid); intros run_id [= <-]; eexists co, _; (split; [exact Hst|]); (split; [exact Hid|]);
    rewrite Hc; (split; [reflexivity|exact Hh]).
Qed.

(** The row of a run that had none: what the start record says. *)
Lemma recorded_row run_id (d : RunDetails) (db : Database) row :
  parse_uuid run_id = Ok run_id → pipeline_runs db !! run_id = None →
  pipeline_runs (pg_record_pipeline_started (mkStart run_id d) db).2 !! run_id = Some row →
  ∃ retry_of, row = mkRunRow run_id (with_retry d retry_of) RsInProgress None.
Proof.
  intros Huuid Hfresh. unfold pg_record_pipeline_started, with_run_id, parse_run_id. cbn. rewrite Huuid. cbn.
  assert (∀ retry f, pipeline_runs (execute (insert_run (mkRunRow run_id (with_retry d retry) RsInProgress None) f) db).2 !! run_id = Some row →
    row = mkRunRow run_id (with_retry d retry) RsInProgress None) as Hins.
  { intros retry f. destruct (PostgresFacts.execute_cases (insert_run (mkRunRow run_id (with_retry d retry) RsInProgress None) f) db)
      as (rs & [(i & _ & -> & _)|(a & Hstmt & _)]); cbn; [by rewrite Hfresh|].
    revert Hstmt. unfold insert_run. cbn. rewrite Hfresh. destruct (retry_exists _ _ _); [|done].
    intros [= _ <-]. cbn. rewrite lookup_insert_eq. by intros [= <-]. }
  unfold with_retry_of. destruct (rd_retry_of d) as [s|]; [destruct (parse_run_id s) as [u|e]|]; cbn;
    [intros ->%Hins; eauto|by rewrite Hfresh|intros ->%Hins; eauto].
Qed.

(** C23: while the database refuses nothing and loses no reply, a run that was
    launched can be seen at once, in progress, with the pipeline, commit, refs,
    trigger and pipeline text it was launched with, by the tenant it was launched
    for, and by no other. The run's id is fresh, and a run that is retried is
    itself recorded. *)
Theorem launched_run_seen_by_tenant pipeline rc crab run_id (w w' : Pr) (b : P) :
  let db := pw_history w in
  replies db = [] → parse_uuid run_id = Ok run_id → pipeline_runs db !! run_id = None →
  (∀ r, rc_retry_of rc = Some r → parse_uuid r = Ok r ∧ is_Some (pipeline_runs db !! r)) →
  launch pipeline rc crab w = (Some run_id, w') →
  ∃ check_run_id, ∀ slug, (get_run slug run_id (mkServer w' b)).1 =
    if decide (rc_tenant_slug rc = Some slug)
    then mkAnswer 200 (RunContent (Some {|
           row_run_id := run_id; row_status := RsInProgress; row_completed_at := None;
           row_details := {|
             rd_pipeline_name := pl_name pipeline; rd_owner := rc_owner rc; rd_repo := rc_repo rc; rd_sha := rc_sha rc;
             rd_branch := rc_branch rc; rd_target_branch := rc_target_branch rc; rd_tag := rc_tag rc;
             rd_pr_number := rc_pr_number rc; rd_trigger := rc_trigger rc; rd_pipeline_definition := rc_pipeline_yaml rc;
             rd_created_at := rc_created_at rc; rd_retry_of := rc_retry_of rc; rd_tenant_slug := rc_tenant_slug rc;
             rd_github_check_run_id := check_run_id |} |}))
    else mkAnswer 404 (RunContent None).
Proof.
  intros db Hreplies Huuid Hfresh Hretry Hl. pose proof (launch_history pipeline rc crab w) as Hh. rewrite Hl in Hh.
  destruct (Hh run_id eq_refl) as (c & reporter & _ & _ & _ & Hhist). clear Hh Hl. set (id := as_i64 ∘ _ <$> reporter) in Hhist.
  exists id. intros slug. fold db in Hhist.
  assert (pw_history w' = set_run run_id (mkRunRow run_id (run_details pipeline (with_check_run_id rc id)) RsInProgress None) db) as Heq.
  { rewrite Hhist. unfold pg_record_pipeline_started, with_run_id, parse_run_id. cbn. rewrite Huuid. cbn. unfold with_retry_of.
    assert (with_replies [] db = db) as Hdb by (destruct db; cbn in *; by subst).
    unfold execute, insert_run. destruct (rc_retry_of rc) as [r|] eqn:Hr.
    - destruct (Hretry r eq_refl) as [Hu Hin]. unfold parse_run_id. rewrite Hu. cbn. rewrite Hreplies, Hdb, Hfresh. cbn.
      rewrite bool_decide_eq_true_2, orb_true_r by done. unfold run_details, with_retry. cbn. by rewrite Hr.
    - rewrite Hreplies, Hdb. cbn. rewrite Hfresh. unfold run_details, with_retry. cbn. by rewrite Hr. }
  unfold get_run. rewrite bind_eq. unfold ask_history, on_provider, on_history. cbn. rewrite Heq.
  unfold pg_get_pipeline_run, with_run_id, parse_run_id. rewrite Huuid. cbn. unfold select, execute. cbn. rewrite Hreplies. cbn.
  rewrite lookup_insert_eq. cbn. rewrite (bool_decide_decide (rc_tenant_slug rc = Some slug)). by destruct (decide _).
Qed.

(** C27: the check run of a run survives the death of its coordinator. A launched
    run has the check run that GitHub created for it, if it did, and once the run
    is recorded, the reporter that the factory builds for the recorded row updates
    that same check run of the same repository, as long as the run's tenant and
    its app are registered and a client of the app can be had; a run without a
    check run never gets one. *)
Theorem reclaimed_run_keeps_check_run pipeline rc crab run_id (w w' : Pr) row :
  parse_uuid run_id = Ok run_id → pipeline_runs (pw_history w) !! run_id = None →
  launch pipeline rc crab w = (Some run_id, w') → pipeline_runs (pw_history w') !! run_id = Some row →
  ∃ c reporter, pw_started w' = pw_started w ++ [(c, reporter)] ∧ c_run_id (const c) = run_id ∧
    reporter = match (create_check_run crab (rc_owner rc) (rc_repo rc) (pl_name pipeline) (rc_sha rc) run_id
                        (after_download pipeline rc crab w)).1 with
               | Ok id => Some (mkReporter crab (rc_owner rc) (rc_repo rc) id)
               | Err _ => None
               end ∧
    ∀ later : Pr, let rebuilt := (for_run state (run_context_from_row row) later).1 in
    match reporter with
    | None => rebuilt = None
    | Some old => (0 ≤ rep_check_run_id old ≤ u64_max)%Z → ∀ slug tenant app,
        rc_tenant_slug rc = Some slug → by_slug (ps_tenants state) !! slug = Some tenant →
        by_id (ps_github_apps state) !! app_ref (github_binding tenant) = Some app →
        rebuilt = match (build_installation_client (rc_owner rc) (rc_repo rc) app later).1 with
                  | Ok new_crab => Some (mkReporter new_crab (rep_owner old) (rep_repo old) (rep_check_run_id old))
                  | Err _ => None
                  end
    end.
Proof.
  intros Huuid Hfresh Hl Hrow. pose proof (launch_history pipeline rc crab w) as Hh. rewrite Hl in Hh.
  destruct (Hh run_id eq_refl) as (c & reporter & Hst & Hid & Hrep & Hhist). rewrite Hhist in Hrow.
  destruct (recorded_row _ _ _ _ Huuid Hfresh Hrow) as [retry ->]. exists c, reporter. split_and!; [done..|]. intros later.
  unfold for_run. cbn. destruct reporter as [old|]; cbn; [|done]. intros Hrange slug tenant app -> Htenant Happ.
  rewrite Htenant. cbn. unfold resolve_app_for_tenant. rewrite Happ, bind_eq. cbn.
  destruct (build_installation_client _ _ _ _).1 as [new_crab|e]; [|done]. cbn.
  destruct (create_check_run _ _ _ _ _ _ _).1; [|done]. injection Hrep as ->. cbn in *. by rewrite as_u64_i64.
Qed.
End launched.

(** ** The logged URL *)
Lemma before_first_colon p rest : ":"%char ∉ bytes p → before_first "://" (p +:+ "://" +:+ rest) = p.
Proof.
  induction p as [|c p IH]; intros Hp; [done|]. assert (":"%char ≠ c ∧ ":"%char ∉ bytes p) as [Hc Hp'] by set_solver.
  change (String c p +:+ "://" +:+ rest) with (String c (p +:+ "://" +:+ rest)). cbn [before_first].
  rewrite starts_with_cons. apply byte_eqb_false in Hc. rewrite Hc. cbn. by rewrite IH.
Qed.

Lemma split_byte_sep_app c a b : ∃ l, split_byte c (a +:+ String c b) = l ++ split_byte c b.
Proof.
  enough (∃ w l, split_byte c (a +:+ String c b) = w :: l ++ split_byte c b) as (w & l & ->) by (by exists (w :: l)).
  induction a as [|d a (w & l & IH)]; [exists "", []; apply split_byte_sep|].
  change (String d a +:+ String c b) with (String d (a +:+ String c b)). destruct (decide (c = d)) as [<-|Hne].
  - exists "", (w :: l). by rewrite split_byte_sep, IH.
  - exists (String d w), l. by apply split_byte_other.
Qed.

(** The broker's URL is logged without its user and password. *)
Theorem logged_url_has_no_credentials scheme credentials host :
  ":"%char ∉ bytes scheme → "@"%char ∉ bytes host → contains "://" host = false →
  sanitized_url (scheme +:+ "://" +:+ credentials +:+ "@" +:+ host) = scheme +:+ "://" +:+ host.
Proof.
  intros Hscheme Hhost Hno. unfold sanitized_url. rewrite before_first_colon by done.
  replace (scheme +:+ "://" +:+ credentials +:+ "@" +:+ host) with ((scheme +:+ "://" +:+ credentials) +:+ String "@" host)
    by (by rewrite !str_app_assoc).
  assert (last (split_byte "@" ((scheme +:+ "://" +:+ credentials) +:+ String "@" host)) = Some host) as ->.
  { destruct (split_byte_sep_app "@" (scheme +:+ "://" +:+ credentials) host) as [l ->].
    rewrite (split_byte_none "@" host) by done. by rewrite last_snoc. }
  cbn [from_option id]. by rewrite Hno.
Qed.

Module Example.
Import InMemory Postgres PostgresFacts.

#[local] Existing Instances canonical_order KubeDispatcher.Example.bucket_client GithubTheorems.Example.libraries
  GithubTheorems.Example.backend GithubTheorems.Example.github GithubTheorems.Example.webhook_libraries Auth.Example.memory_session.

(** A backplane that keeps what it is given. *)
#[local] Instance log_bus : Backplane (list (string * BackplaneEvent)) := {|
  publish_node_completed run_id node_name success b := (Ok (), b ++ [(run_id, NodeCompleted node_name success)]);
  publish_cancel run_id b := (Ok (), b ++ [(run_id, CancelRun)]);
  backplane_ping b := (Ok (), b);
  Subscription := unit;
  subscribe_run _ b := (Ok (), b);
  next_event _ b := ((None, ()), b) |}.

Abbreviation Provider0 :=
  (Provider InMemoryStateStore LogDispatcher Database nat KubeDispatcher.Example.Bucket (Client (G:=nat))).
Abbreviation W :=
  (Server InMemoryStateStore LogDispatcher Database nat KubeDispatcher.Example.Bucket (Client (G:=nat)) (list (string * BackplaneEvent))).

Definition run_row (run_id owner tenant : string) : PipelineRunRow := mkRunRow run_id
  (mkDetails "ci" owner "app" "abc" (Some "main") None None None "push" "ci" 5 None (Some tenant) None) RsInProgress None.
Definition node (name : string) (completed : option Z) : NodeEntry :=
  mkEntry (mkNodeRow 1 "r1" name "{}" None 5 None completed None) None.
(** A run of the tenant "acme-corp", whose organisation is "acme", with a
    completed node and one whose status object says that it succeeded. *)
Definition db : Database :=
  mkDb {["r1" := run_row "r1" "acme" "acme-corp"]} {[("r1", "a") := node "a" (Some 9%Z); ("r1", "b") := node "b" None]} 3 [].
Definition status_of (_ : list ascii) : result string NodeOutcome := Ok (mkOutcome (Some true) (Some 6000%Z) (Some 7000%Z)).
Definition world : W :=
  mkServer (mkProvider (mkStore ∅ ∅ 0) (mkLogDispatcher []) db 0 (mkUpload {["runs/r1/nodes/b/status.json" := []]} [] []) 0 [] []) [].
Definition session (slug : string) : Auth.Example.Memory :=
  Auth.Example.mkMemory (Some (mkAuth "u" None None [slug] slug)) None.
Definition request (slug : string) (route : Route) : Answer * (Auth.Example.Memory * W) :=
  build_router GithubTheorems.Example.parse_doc GithubTheorems.Example.uuid GithubTheorems.Example.time status_of of_bytes
    GithubTheorems.Example.state None true route (session slug, world).

(** A member of another tenant can neither cancel the run nor see it. *)
Lemma run_routes_isolate_tenants_witness :
  (request "acme-corp" (CancelPipelineRun "acme-corp" "r1")).1 = mkAnswer OK NoContent ∧
  (request "acme-corp" (CancelPipelineRun "acme-corp" "r1")).2.2.(sv_backplane) = [("r1", CancelRun)] ∧
  (request "other-corp" (CancelPipelineRun "other-corp" "r1")).2.2.(sv_backplane) = [] ∧
  refused (request "other-corp" (GetRun "other-corp" "r1")).1.
Proof.
  split; [vm_compute; reflexivity|]. split; [vm_compute; reflexivity|]. split; [vm_compute; reflexivity|].
  pose proof (run_routes_isolate_tenants GithubTheorems.Example.parse_doc GithubTheorems.Example.uuid GithubTheorems.Example.time
    status_of of_bytes GithubTheorems.Example.state None true (GetRun "other-corp" "r1") "other-corp" "r1" (session "other-corp") world
    eq_refl) as Ht.
  fold (request "other-corp" (GetRun "other-corp" "r1")) in Ht.
  assert (a_content (request "other-corp" (GetRun "other-corp" "r1")).1 = RunContent None) as Hc by (vm_compute; reflexivity).
  destruct (request "other-corp" (GetRun "other-corp" "r1")) as [answer [t' w']].
  destruct Ht as [(auth & _ & _ & _ & (row & Hrow & Hslug) & _)|[[Hr _]|(Hn & _)]].
  - vm_compute in Hrow. injection Hrow as <-. vm_compute in Hslug. discriminate Hslug.
  - exact Hr.
  - cbn in Hc. rewrite Hn in Hc. discriminate Hc.
Defined.

Lemma listed_nodes_extend_history_witness :
  ∃ rows responses, (list_run_nodes (P:=list (string * BackplaneEvent)) status_of "acme-corp" "r1" world).1 =
      mkAnswer 200 (NodesContent responses) ∧ length rows = 2 ∧
    listed status_of (up_client (pw_bucket (sv_provider world))) rows responses.
Proof.
  pose proof (listed_nodes_extend_history status_of "acme-corp" "r1" world) as Ht.
  assert (get_pipeline_run "r1" (pw_history (sv_provider world)) =
    (Ok (Some (run_row "r1" "acme" "acme-corp")), pw_history (sv_provider world))) as Hrun by (vm_compute; reflexivity).
  assert (match (list_node_runs "r1" (pw_history (sv_provider world))).1 with Ok rows => length rows | Err _ => 0 end = 2) as Hrows
    by (vm_compute; reflexivity).
  rewrite Hrun in Ht. destruct (list_run_nodes status_of "acme-corp" "r1" world) as [answer w'].
  rewrite decide_True in Ht by reflexivity. destruct (list_node_runs "r1" _).1 as [rows|e]; [|discriminate Hrows].
  destruct Ht as (responses & -> & Hall). exists rows, responses. split; [reflexivity|]. split; [exact Hrows|exact Hall].
Defined.

Definition anything : ListRunsParams := mkListParams (Some 100000%Z) (Some (-3)%Z) None None None None None.
Lemma list_runs_bounded_witness :
  ∃ matching, (list_runs (P:=list (string * BackplaneEvent)) "acme" anything world).1 =
      mkAnswer 200 (RunsContent (mkListResponse (take 200 matching) 1)) ∧
    StronglySorted (may_precede "created_at" "desc") matching.
Proof.
  pose proof (list_runs_bounded "acme" anything world eq_refl) as Ht. cbv zeta in Ht.
  match type of Ht with context [decide ?Q] => destruct (decide Q) as [_|Hno] end;
    [|destruct Hno; split; apply (bool_decide_unpack _); vm_compute; exact I].
  destruct Ht as (matching & Hsorted & _ & Hanswer). exists matching. split; [|exact Hsorted].
  assert (match a_content (list_runs (P:=list (string * BackplaneEvent)) "acme" anything world).1 with RunsContent r => lr_total r | _ => 0%Z end = 1%Z)
    as Hn by (vm_compute; reflexivity).
  rewrite Hanswer in Hn |- *. cbn in Hn. rewrite Hn. reflexivity.
Defined.

Lemma logged_url_has_no_credentials_witness :
  sanitized_url "amqp://user:p@ss@rabbit:5672/%2f" = "amqp://rabbit:5672/%2f".
Proof.
  apply (logged_url_has_no_credentials "amqp" "user:p@ss" "rabbit:5672/%2f").
  - apply (bool_decide_unpack _). vm_compute. exact I.
  - apply (bool_decide_unpack _). vm_compute. exact I.
  - reflexivity.
Defined.

Lemma launched_run_seen_by_tenant_witness :
  ∃ row, (get_run "acme-corp" "id-0" (mkServer GithubTheorems.Example.launched.2 ([] : list (string * BackplaneEvent)))).1 =
      mkAnswer OK (RunContent (Some row)) ∧ rd_sha (row_details row) = "abc" ∧
    (get_run "other-corp" "id-0" (mkServer GithubTheorems.Example.launched.2 ([] : list (string * BackplaneEvent)))).1 =
      mkAnswer NOT_FOUND (RunContent None).
Proof.
  assert (GithubTheorems.Example.launched.1 = Some "id-0") as Hid by (vm_compute; reflexivity).
  destruct GithubTheorems.Example.launched as [r w'] eqn:Hl. cbn [fst] in Hid. subst r.
  assert (∀ r, rc_retry_of GithubTheorems.Example.context = Some r →
    parse_uuid (Backend:=GithubTheorems.Example.backend) r = Ok r ∧ is_Some (pipeline_runs (pw_history GithubTheorems.Example.world) !! r)) as Hretry
    by (intros r Hr; discriminate Hr).
  destruct (launched_run_seen_by_tenant (P:=list (string * BackplaneEvent)) (BE:=GithubTheorems.Example.backend) GithubTheorems.Example.uuid GithubTheorems.Example.time
    GithubTheorems.Example.state GithubTheorems.Example.ci GithubTheorems.Example.context GithubTheorems.Example.crab "id-0"
    GithubTheorems.Example.world w' [] eq_refl eq_refl eq_refl Hretry Hl) as [check_run_id Hrun].
  pose proof (Hrun "acme-corp") as Hown. pose proof (Hrun "other-corp") as Hother.
  eexists. split; [exact Hown|]. split; [reflexivity|exact Hother].
Defined.

Lemma reclaimed_run_keeps_check_run_witness :
  ∃ row old reporter, pipeline_runs (pw_history GithubTheorems.Example.launched.2) !! "id-0" = Some row ∧
    (snd <$> pw_started GithubTheorems.Example.launched.2) = [Some old] ∧
    (for_run GithubTheorems.Example.state (run_context_from_row row) GithubTheorems.Example.world).1 = Some reporter ∧
    rd_github_check_run_id (row_details row) = Some (-1)%Z ∧ rep_check_run_id reporter = 18446744073709551615%Z.
Proof.
  destruct GithubTheorems.Example.launched as [r w'] eqn:Hl.
  assert (match GithubTheorems.Example.launched with
    | (Some id, w1) => match pipeline_runs (pw_history w1) !! "id-0", pw_started w1 with
        | Some row, [(_, Some old)] => id = "id-0" ∧ rd_github_check_run_id (row_details row) = Some (-1)%Z ∧
            rep_check_run_id old = 18446744073709551615%Z
        | _, _ => False end
    | _ => False end) as Hrun by (vm_compute; repeat split; reflexivity).
  rewrite Hl in Hrun. destruct r as [id|]; [|destruct Hrun]. cbn [snd].
  destruct (pipeline_runs (pw_history w') !! "id-0") as [row|] eqn:Hrow; [|destruct Hrun].
  destruct (pw_started w') as [|[c0 [old|]] [|]] eqn:Hst; [destruct Hrun| |destruct Hrun..]. destruct Hrun as (-> & Hcheck & Hold).
  destruct (reclaimed_run_keeps_check_run (BE:=GithubTheorems.Example.backend) GithubTheorems.Example.uuid GithubTheorems.Example.time
    GithubTheorems.Example.state GithubTheorems.Example.ci GithubTheorems.Example.context GithubTheorems.Example.crab "id-0"
    GithubTheorems.Example.world w' row eq_refl eq_refl Hl Hrow) as (c & reporter & Hst' & _ & _ & Hrep).
  assert ([(c0, Some old)] = [(c, reporter)]) as Heq by exact (eq_trans (eq_sym Hst) Hst'). injection Heq as _ <-.
  assert (0 ≤ rep_check_run_id old ≤ u64_max)%Z as Hrange by (rewrite Hold; split; discriminate).
  pose proof (Hrep GithubTheorems.Example.world Hrange "acme-corp" GithubTheorems.Example.tenant (mkApp "main" "12345" "shh" "key")
    eq_refl ltac:(vm_compute; reflexivity) ltac:(vm_compute; reflexivity)) as Hnew.
  match type of Hnew with _ = match ?r with _ => _ end =>
    assert (is_ok r = true) as Hok by (vm_compute; reflexivity); destruct r as [new_crab|e]; [|discriminate Hok] end.
  eexists row, old, _. split; [reflexivity|]. split; [reflexivity|]. split; [exact Hnew|]. split; [exact Hcheck|exact Hold].
Defined.

(** Without a scheme the check for one does not fail, and the password is
    logged. *)
Theorem url_without_scheme_logs_password : sanitized_url "user:secret@rabbit" = "user:secret@rabbit://rabbit".
Proof. reflexivity. Qed.

(** The listing filters on the owner, not on the tenant: a tenant whose slug is
    not its organisation sees none of its runs, and a tenant whose slug is the
    name of another's organisation sees those. *)
Theorem listing_mixes_slug_and_owner :
  a_content (request "acme-corp" (ListRuns "acme-corp" anything)).1 = RunsContent (mkListResponse [] 0) ∧
  a_content (request "acme" (ListRuns "acme" anything)).1 = RunsContent (mkListResponse [run_row "r1" "acme" "acme-corp"] 1).
Proof. split; vm_compute; reflexivity. Qed.
End Example.
