(* ===== verification/Startup.v ===== *)
(** * The start of the process

    How settings become clients ([RedisStateStore::new],
    [RabbitmqBackplane::new], [SourceManager::new], [KubeDispatcher::new],
    [PostgresRunHistory::connect] and [migrate], [build_auth_state],
    [build_session_layer]), the order in which [server::serve] sets the server
    up, and [main]. The client libraries are the parameters of class [Clients]; a
    call that reaches a service acts on the server's world. [b_events] is not
    part of the program: it lists what has been set up, with the settings it got. *)

From S2P Require Import Prelude AppConfig Json Http Tenancy Auth Pipeline StateStore Run SourceManager PodWatcher RunHistory Dispatcher Backplane KubeDispatcher Coordinator GithubProvider Server ServerTheorems.

(** ** What the clients are built from *)

(** The builder of the S3 client. *)
Record S3Settings := mkS3Settings {
  s3s_endpoint_url : string; s3s_access_key : string; s3s_secret_key : string; s3s_provider : string;
  s3s_region : string; s3s_force_path_style : bool; s3s_interceptors : list string }.
Record SourceManager := mkSourceManager { sm_s3 : S3Settings; sm_bucket : string }.

Record PgConnectOptions := mkPgOptions {
  pg_host : string; pg_port : Z; pg_database : string; pg_username : string; pg_password : string }.

Inductive SameSite := Strict | Lax | NoneSite.

(** The session layer: its cookie and the days of inactivity it lives. *)
Record SessionLayer (Pool : Type) := mkSessionLayer {
  sl_store : Pool; sl_name : string; sl_secure : bool; sl_http_only : bool; sl_same_site : SameSite; sl_days : Z }.
Arguments mkSessionLayer {Pool}. Arguments sl_store {Pool}. Arguments sl_name {Pool}. Arguments sl_secure {Pool}.
Arguments sl_http_only {Pool}. Arguments sl_same_site {Pool}. Arguments sl_days {Pool}.

Definition SESSION_COOKIE : string := "jefferies_session".
Definition SESSION_INACTIVITY_DAYS : Z := 7.
Definition REDIS_POOL_SIZE : Z := 4.

(** [ContentLengthZeroInterceptor::modify_before_transmit], on the headers *)
Definition modify_before_transmit (headers : gmap string string) : gmap string string :=
  if bool_decide (is_Some (headers !! "content-length")) then headers else <["content-length" := "0"]> headers.

(** The client libraries; [W] is what they talk to. *)
Class Clients (W : Type) : Type := {
  (** redis and deadpool_redis *)
  RedisInfo : Type; RedisPool : Type;
  parse_connection_info : string → result string RedisInfo;
  set_password : string → RedisInfo → RedisInfo;
  create_redis_pool : RedisInfo → Z → result string RedisPool;
  (** deadpool_lapin *)
  LapinPool : Type;
  create_lapin_pool : string → Z → result string LapinPool;
  (** kube *)
  KubeClient : Type;
  try_default : M W (result string KubeClient);
  default_namespace : KubeClient → string;
  (** sqlx *)
  PgPool : Type;
  connect_with : PgConnectOptions → M W (result string PgPool);
  run_migrations : PgPool → M W (result string unit);
  (** openidconnect and reqwest *)
  IssuerUrl : Type; RedirectUrl : Type; HttpClient : Type; ProviderMetadata : Type;
  issuer_url : string → result string IssuerUrl;
  redirect_url : string → result string RedirectUrl;
  build_http_client : bool → result string HttpClient;
  discover : IssuerUrl → HttpClient → M W (result string ProviderMetadata);
  (** fred and tower_sessions_redis_store *)
  FredConfig : Type; FredPool : Type;
  fred_from_url : string → result string FredConfig;
  fred_set_password : string → FredConfig → FredConfig;
  fred_pool : FredConfig → Z → result string FredPool;
  wait_for_connect : FredPool → M W (result string unit);
  (** tokio and axum: binding the address, and serving until the signal *)
  bind : string → M W (result string unit);
  axum_serve : M W (result string unit);
}.

Record DexClient `{Clients W} := mkDexClient {
  dc_metadata : ProviderMetadata; dc_client_id : string; dc_secret : string; dc_redirect : RedirectUrl }.
Record AuthState `{Clients W} := mkAuthState {
  as_client : DexClient; as_http : HttpClient; as_redirect_uri : string; as_post_login_redirect : string }.
Arguments mkDexClient {W _}. Arguments mkAuthState {W _}.

(** ** Constructors *)

Section constructors.
Context `{CL : Clients W}.

Definition redis_state_store_new (url password : string) (pool_size : Z) : result StateStoreError RedisPool :=
  conn_info ← map_err (λ e, StoreError ("URL parse error: " +:+ e)) (parse_connection_info url);
  let conn_info := if str_eqb password "" then conn_info else set_password password conn_info in
  map_err StoreError (create_redis_pool conn_info pool_size).

Definition rabbitmq_backplane_new (config : AppConfig) : result BackplaneError LapinPool :=
  map_err BackplaneOther (create_lapin_pool (rabbitmq_url config) (rabbitmq_pool_max_size config)).

Definition source_manager_new (config : AppConfig) : SourceManager :=
  mkSourceManager
    (mkS3Settings (s3_endpoint config) (s3_access_key config) (s3_secret_key config) "jefferies" "us-east-1" true
       ["ContentLengthZeroInterceptor"])
    (s3_bucket config).

Definition kube_dispatcher_new (config : AppConfig) : M W (result DispatchError (KubeClient * KubeDispatcher)) :=
  r ← try_default;
  mret match r with
       | Err e => Err (DispatchErrorKube e)
       | Ok client =>
           Ok (client, mkKube (kubernetes_namespace config) (default_namespace client) (tube_image config)
                 (default_node_image config) (service_account_privileged config) (service_account_default config)
                 (runtime_class config) (default_node_cpu config) (default_node_memory config))
       end.

Definition postgres_connect (config : AppConfig) : M W (result RunHistoryError PgPool) :=
  r ← connect_with (mkPgOptions (postgres_host config) (postgres_port config) (postgres_db config)
                      (postgres_username config) (postgres_password config));
  mret (map_err DatabaseError r).
Definition migrate (pool : PgPool) : M W (result RunHistoryError unit) :=
  r ← run_migrations pool; mret (map_err MigrationError r).

(** [HttpClient::new]: redirects are not followed. *)
Definition http_client_new : result string HttpClient := build_http_client false.

Definition build_auth_state (config : AppConfig) : M W (result OidcError AuthState) :=
  match issuer_url (dex_issuer config) with
  | Err e => mret (Err (OidcInvalidUrl ("dex.issuer: " +:+ e)))
  | Ok issuer =>
      match redirect_url (dex_redirect_uri config) with
      | Err e => mret (Err (OidcInvalidUrl ("dex.redirect_uri: " +:+ e)))
      | Ok redirect =>
          match http_client_new with
          | Err e => mret (Err (OidcHttp e))
          | Ok http =>
              r ← discover issuer http;
              mret match r with
                   | Err e => Err (OidcDiscovery e)
                   | Ok metadata =>
                       Ok (mkAuthState (mkDexClient metadata (dex_client_id config) (dex_secret config) redirect) http
                             (dex_redirect_uri config) (dex_post_login_redirect config))
                   end
          end
      end
  end.

Definition build_session_layer (url password : string) : M W (result SessionStoreError (SessionLayer FredPool)) :=
  match fred_from_url url with
  | Err e => mret (Err (SessionInvalidUrl e))
  | Ok config =>
      let config := if str_eqb password "" then config else fred_set_password password config in
      match fred_pool config REDIS_POOL_SIZE with
      | Err e => mret (Err (SessionPool e))
      | Ok pool =>
          r ← wait_for_connect pool;
          mret match r with
               | Err e => Err (SessionPool e)
               | Ok _ => Ok (mkSessionLayer pool SESSION_COOKIE true true Lax SESSION_INACTIVITY_DAYS)
               end
      end
  end.
End constructors.

(** ** [server::serve] *)

Section serve.
Context {S D H G B P : Type} `{SS : StateStore S, RH : RunHistory H, GH : GithubApi G, S3 : S3Client B, BP : Backplane P}.
Abbreviation W := (Server S D H G B Client P).
Context `{CL : Clients W}.
(** The tenancy document: the file system, the parser and the variable that
    names the file. *)
Variables (read_to_string : string → result IoError string) (from_str : string → result string TenancyDocument).
Variable tenancy_path_env : option string.

(** What has been set up. *)
Inductive BootEvent :=
| StoreConfigured (pool : RedisPool)
| BackplaneConfigured (pool : LapinPool)
| SourceConfigured (source_manager : SourceManager)
| ClusterConnected (client : KubeClient) (dispatcher : KubeDispatcher)
| HistoryConnected (pool : PgPool)
| HistoryMigrated
| TenancyLoaded (registry : TenancyRegistry)
| StateBuilt (state : ProviderState)
| ConnectionsVerified
| ReaperStarted (config : AppConfig) (with_factory : bool)
| AuthReady (auth : AuthState) (tenants : TenantRegistry)
| SessionsReady (layer : SessionLayer FredPool)
| ListenerBound (addr : string)
| ShutDown.

Record Boot := mkBoot { b_world : W; b_events : list BootEvent }.

(** A fallible step with its error, noted once it has succeeded. *)
Definition step {E A} (wrap : E → ServerError) (m : M W (result E A)) (event : A → BootEvent) : M Boot (result ServerError A) := λ b,
  let '(r, w) := m (b_world b) in
  match r with
  | Ok a => (Ok a, mkBoot w (b_events b ++ [event a]))
  | Err e => (Err (wrap e), mkBoot w (b_events b))
  end.

(** A step that cannot fail. *)
Definition built (e : BootEvent) : M Boot (result ServerError unit) := λ b, (Ok (), mkBoot (b_world b) (b_events b ++ [e])).

(** [ProviderState::new]: the part that never changes. *)
Definition provider_state_new (config : AppConfig) (tenancy : TenancyRegistry) : ProviderState :=
  mkState config (reg_tenants tenancy) (reg_apps tenancy).

(** [verify_connections(&state, true)]: without the probe's timeout *)
Definition verify_all : M W (result ServerError unit) :=
  r ← verify_connections None; mret (default (Ok ()) r).

Definition address (config : AppConfig) : string := host config +:+ ":" +:+ pretty (port config).

Definition serve (config : AppConfig) : M Boot (result ServerError unit) :=
  _ ←? step ServerStateStore (mret (redis_state_store_new (redis_url config) (redis_password config) 16)) StoreConfigured;
  _ ←? step ServerBackplane (mret (rabbitmq_backplane_new config)) BackplaneConfigured;
  _ ←? built (SourceConfigured (source_manager_new config));
  _ ←? step (λ _, ConnectionFailed "Kubernetes") (kube_dispatcher_new config) (λ '(c, k), ClusterConnected c k);
  pool ←? step (λ _, ConnectionFailed "PostgreSQL") (postgres_connect config) HistoryConnected;
  _ ←? step (λ _, ConnectionFailed "PostgreSQL migration") (migrate pool) (λ _, HistoryMigrated);
  tenancy ←? step ServerTenancy (mret (load_from_env read_to_string from_str tenancy_path_env)) TenancyLoaded;
  _ ←? built (StateBuilt (provider_state_new config tenancy));
  _ ←? step id verify_all (λ _, ConnectionsVerified);
  _ ←? built (ReaperStarted config true);
  _ ←? step (λ e, ServerAuth (AuthOidc e)) (build_auth_state config) (λ auth, AuthReady auth (reg_tenants tenancy));
  _ ←? step (λ e, ServerAuth (AuthSessionStore e)) (build_session_layer (redis_url config) (redis_password config)) SessionsReady;
  _ ←? step ServerIOError (bind (address config)) (λ _, ListenerBound (address config));
  step ServerIOError axum_serve (λ _, ShutDown).

(** [main]: the crypto provider, the settings, the subscriber's level, the
    server. *)
Inductive MainError := NoCryptoProvider | BadConfig | ServeFailed (e : ServerError).

Definition main {E} (install_default : bool) (loaded : result E AppConfig) (parse_level : string → option Level)
  : M Boot (option Level * result MainError unit) :=
  if negb install_default then mret (None, Err NoCryptoProvider)
  else
    match loaded with
    | Err _ => mret (None, Err BadConfig)
    | Ok config =>
        served ← serve config;
        mret (Some (log_level parse_level config), map_err ServeFailed served)
    end.

(** ** The order of the start *)

(** The steps of [serve], in the order of the code. *)
Definition stage (e : BootEvent) : nat :=
  match e with
  | StoreConfigured _ => 0 | BackplaneConfigured _ => 1 | SourceConfigured _ => 2 | ClusterConnected _ _ => 3
  | HistoryConnected _ => 4 | HistoryMigrated => 5 | TenancyLoaded _ => 6 | StateBuilt _ => 7 | ConnectionsVerified => 8
  | ReaperStarted _ _ => 9 | AuthReady _ _ => 10 | SessionsReady _ => 11 | ListenerBound _ => 12 | ShutDown => 13
  end.

(** The error that a step ends the start with. *)
Definition error_of (n : nat) (e : ServerError) : Prop :=
  match n with
  | 0 => ∃ x, e = ServerStateStore x
  | 1 => ∃ x, e = ServerBackplane x
  | 3 => e = ConnectionFailed "Kubernetes"
  | 4 => e = ConnectionFailed "PostgreSQL"
  | 5 => e = ConnectionFailed "PostgreSQL migration"
  | 6 => ∃ x, e = ServerTenancy x
  | 8 => (∃ x, e = ServerSource x) ∨ e = ConnectionFailed "Redis" ∨ e = ConnectionFailed "RabbitMQ" ∨ e = ConnectionFailed "PostgreSQL"
  | 10 => ∃ x, e = ServerAuth (AuthOidc x)
  | 11 => ∃ x, e = ServerAuth (AuthSessionStore x)
  | 12 | 13 => ∃ x, e = ServerIOError x
  | _ => False
  end.

(** What was set up got the settings it should have. *)
Definition history_options (config : AppConfig) : PgConnectOptions := {|
  pg_host := postgres_host config; pg_port := postgres_port config; pg_database := postgres_db config;
  pg_username := postgres_username config; pg_password := postgres_password config |}.

Definition configured (config : AppConfig) (e : BootEvent) : Prop :=
  match e with
  | StoreConfigured pool => ∃ info, parse_connection_info (redis_url config) = Ok info ∧
      create_redis_pool (if decide (redis_password config = "") then info else set_password (redis_password config) info) 16 = Ok pool
  | BackplaneConfigured pool => create_lapin_pool (rabbitmq_url config) (rabbitmq_pool_max_size config) = Ok pool
  | SourceConfigured source_manager => source_manager = {|
      sm_s3 := {| s3s_endpoint_url := s3_endpoint config; s3s_access_key := s3_access_key config;
                  s3s_secret_key := s3_secret_key config; s3s_provider := "jefferies"; s3s_region := "us-east-1";
                  s3s_force_path_style := true; s3s_interceptors := ["ContentLengthZeroInterceptor"] |};
      sm_bucket := s3_bucket config |}
  | ClusterConnected client k => (∃ w, (try_default w).1 = Ok client) ∧ k = {|
      k_namespace := kubernetes_namespace config; k_backend_namespace := default_namespace client;
      k_tube_image := tube_image config; k_default_node_image := default_node_image config;
      k_service_account_privileged := service_account_privileged config;
      k_service_account_default := service_account_default config; k_runtime_class := runtime_class config;
      k_default_cpu := default_node_cpu config; k_default_memory := default_node_memory config |}
  | HistoryConnected pool => ∃ w, (connect_with (history_options config) w).1 = Ok pool
  | HistoryMigrated => ∃ pool w w', (connect_with (history_options config) w).1 = Ok pool ∧ is_ok (run_migrations pool w').1 = true
  | TenancyLoaded registry => load_from_env read_to_string from_str tenancy_path_env = Ok registry
  | StateBuilt state => ∃ registry, load_from_env read_to_string from_str tenancy_path_env = Ok registry ∧
      state = {| ps_config := config; ps_tenants := reg_tenants registry; ps_github_apps := reg_apps registry |}
  | ConnectionsVerified => ∃ w : W, let p := sv_provider w in
      is_ok (store_ping (pw_store p)).1 && is_ok (backplane_ping (sv_backplane w)).1 &&
      is_ok (sm_ping (up_client (pw_bucket p))).1 && is_ok (ping (pw_history p)).1 = true
  | ReaperStarted c with_factory => c = config ∧ with_factory = true
  | AuthReady auth tenants => ∃ registry issuer redirect http metadata w,
      load_from_env read_to_string from_str tenancy_path_env = Ok registry ∧ tenants = reg_tenants registry ∧
      issuer_url (dex_issuer config) = Ok issuer ∧ redirect_url (dex_redirect_uri config) = Ok redirect ∧
      build_http_client false = Ok http ∧ (discover issuer http w).1 = Ok metadata ∧
      auth = {|
        as_client := {| dc_metadata := metadata; dc_client_id := dex_client_id config; dc_secret := dex_secret config;
                        dc_redirect := redirect |};
        as_http := http; as_redirect_uri := dex_redirect_uri config;
        as_post_login_redirect := dex_post_login_redirect config |}
  | SessionsReady layer => ∃ fred pool w, fred_from_url (redis_url config) = Ok fred ∧
      fred_pool (if decide (redis_password config = "") then fred else fred_set_password (redis_password config) fred) 4 = Ok pool ∧
      is_ok (wait_for_connect pool w).1 = true ∧
      layer = {| sl_store := pool; sl_name := "jefferies_session"; sl_secure := true; sl_http_only := true;
                 sl_same_site := Lax; sl_days := 7 |}
  | ListenerBound addr => addr = host config +:+ ":" +:+ pretty (port config) ∧ ∃ w, is_ok (bind addr w).1 = true
  | ShutDown => ∃ w, is_ok (axum_serve w).1 = true
  end.

(** A start up to step [n]. *)
Definition reached (config : AppConfig) (n : nat) (b : Boot) : Prop :=
  stage <$> b_events b = seq 0 n ∧ Forall (configured config) (b_events b).

(** A program that starts at step [n] gets through to step [m], or fails at a
    step in between. *)
Definition boots {A} (config : AppConfig) (n m : nat) (prog : M Boot (result ServerError A)) (post : A → Prop) : Prop :=
  n ≤ m ∧ ∀ b, reached config n b →
    let '(r, b') := prog b in
    match r with
    | Ok a => reached config m b' ∧ post a
    | Err e => ∃ k, n ≤ k < m ∧ reached config k b' ∧ error_of k e
    end.

Lemma reached_step config n b w e : reached config n b → stage e = n → configured config e →
  reached config (Datatypes.S n) (mkBoot w (b_events b ++ [e])).
Proof.
  intros [Hs Hc] <- He. split; simpl.
  - change (0 :: seq 1 (stage e)) with (seq 0 (Datatypes.S (stage e))). by rewrite fmap_app, Hs, seq_S.
  - by apply Forall_app_2; [|apply Forall_singleton].
Qed.

Lemma boots_bind {A B'} config n m l (prog : M Boot (result ServerError A)) (f : A → M Boot (result ServerError B')) post post' :
  boots config n m prog post → (∀ a, post a → boots config m l (f a) post') → m ≤ l →
  boots config n l (bind_ok prog f) post'.
Proof.
  intros [Hnm Hp] Hf Hml. split; [lia|]. intros b Hb. specialize (Hp b Hb).
  unfold bind_ok. rewrite bind_eq. destruct (prog b) as [[a|e] b']; simpl in *.
  - destruct Hp as [Hb' Ha]. destruct (Hf a Ha) as [_ Hfa]. specialize (Hfa b' Hb').
    destruct (f a b') as [[c|e] b'']; [done|]. destruct Hfa as (k & Hk & Hrest). exists k. split; [lia|done].
  - destruct Hp as (k & Hk & Hrest). exists k. split; [lia|done].
Qed.

Lemma boots_step {E A} config n (wrap : E → ServerError) (m : M W (result E A)) event (post : A → Prop) :
  (∀ w, match (m w).1 with
        | Ok a => stage (event a) = n ∧ configured config (event a) ∧ post a
        | Err e => error_of n (wrap e)
        end) →
  boots config n (Datatypes.S n) (step wrap m event) post.
Proof.
  intros Hm. split; [lia|]. intros b Hb. specialize (Hm (b_world b)). unfold step.
  destruct (m (b_world b)) as [[a|e] w]; simpl in *.
  - destruct Hm as (Hs & Hc & Ha). split; [by apply reached_step|done].
  - exists n. split; [lia|]. split; [|done]. destruct Hb as [Hs Hc]. by split.
Qed.

Lemma boots_built config n e : stage e = n → configured config e → boots config n (Datatypes.S n) (built e) (λ _, True).
Proof. intros Hs Hc. split; [lia|]. intros b Hb. split; [by apply reached_step|done]. Qed.

Lemma verify_none (p : Provider S D H G B Client) (b : P) : (verify_connections None (mkServer p b)).1 = Some (
  _ ← map_err (λ _, ConnectionFailed "Redis") (store_ping (pw_store p)).1;
  _ ← map_err (λ _, ConnectionFailed "RabbitMQ") (backplane_ping b).1;
  _ ← map_err ServerSource (sm_ping (up_client (pw_bucket p))).1;
  map_err (λ _, ConnectionFailed "PostgreSQL") (ping (pw_history p)).1).
Proof.
  destruct (check_store_eq p b) as (p1 & H1 & Hbucket & Hhist). destruct (check_backplane_eq p1 b) as (b2 & H2).
  destruct (check_source_eq p1 b2) as (p3 & H3 & Hhist3). pose proof (check_history_eq p3 b2) as H4.
  rewrite Hbucket in H3. rewrite Hhist3, Hhist in H4. unfold verify_connections.
  rewrite run_checks_cons, H1. destruct (map_err _ (store_ping _).1) as [u1|e1]; [|done]. cbn [fst snd fmap option_fmap option_map].
  rewrite run_checks_cons, H2. destruct (map_err _ (backplane_ping _).1) as [u2|e2]; [|done]. cbn [fst snd fmap option_fmap option_map].
  rewrite run_checks_cons, H3. destruct (map_err _ (sm_ping _).1) as [u3|e3]; [|done]. cbn [fst snd fmap option_fmap option_map].
  rewrite run_checks_cons, H4. cbn. by destruct (ping _).1 as [[]|e4].
Qed.

Lemma boots_verify config : boots config 8 9 (step id verify_all (λ _, ConnectionsVerified)) (λ _, True).
Proof.
  apply boots_step. intros [p b]. unfold verify_all. rewrite bind_eq. cbn [mret state_ret fst]. rewrite verify_none.
  destruct (store_ping (pw_store p)).1 as [[]|e1] eqn:H1; cbn; [|by auto].
  destruct (backplane_ping b).1 as [[]|e2] eqn:H2; cbn; [|by auto].
  destruct (sm_ping (up_client (pw_bucket p))).1 as [[]|e3] eqn:H3; cbn; [|by eauto].
  destruct (ping (pw_history p)).1 as [[]|e4] eqn:H4; cbn; [|by auto].
  split; [done|]. split; [|done]. exists (mkServer p b). cbn. by rewrite H1, H2, H3, H4.
Qed.

Lemma boots_cluster config :
  boots config 3 4 (step (λ _, ConnectionFailed "Kubernetes") (kube_dispatcher_new config) (λ '(c, k), ClusterConnected c k)) (λ _, True).
Proof.
  apply boots_step. intros w. unfold kube_dispatcher_new. rewrite bind_eq. destruct (try_default w) as [[client|e] w'] eqn:Hc; cbn; [|done].
  split_and!; [done| |done..]. exists w. by rewrite Hc.
Qed.

Lemma boots_connect config :
  boots config 4 5 (step (λ _, ConnectionFailed "PostgreSQL") (postgres_connect config) HistoryConnected)
    (λ pool, ∃ w, (connect_with (history_options config) w).1 = Ok pool).
Proof.
  apply boots_step. intros w. unfold postgres_connect. rewrite bind_eq. fold (history_options config).
  destruct (connect_with _ w) as [[pool|e] w'] eqn:Hc; cbn; [|done]. split; [done|]. by split; exists w; rewrite Hc.
Qed.

Lemma boots_migrate config pool : (∃ w, (connect_with (history_options config) w).1 = Ok pool) →
  boots config 5 6 (step (λ _, ConnectionFailed "PostgreSQL migration") (migrate pool) (λ _, HistoryMigrated)) (λ _, True).
Proof.
  intros [w0 Hpool]. apply boots_step. intros w. unfold migrate. rewrite bind_eq.
  destruct (run_migrations pool w) as [[u|e] w'] eqn:Hm; cbn; [|done]. split; [done|]. split; [|done].
  exists pool, w0, w. by rewrite Hm.
Qed.

Lemma boots_listener config :
  boots config 12 13 (step ServerIOError (bind (address config)) (λ _, ListenerBound (address config))) (λ _, True).
Proof.
  apply boots_step. intros w. destruct (bind (address config) w) as [[u|e] w'] eqn:Hb; cbn; [|by eexists].
  split; [done|]. split; [|done]. split; [done|]. exists w. by rewrite Hb.
Qed.

Lemma boots_shutdown config : boots config 13 14 (step ServerIOError axum_serve (λ _, ShutDown)) (λ _, True).
Proof.
  apply boots_step. intros w. destruct (axum_serve w) as [[u|e] w'] eqn:Hs; cbn; [|by eexists].
  split; [done|]. split; [|done]. exists w. by rewrite Hs.
Qed.

Lemma boots_auth config registry : load_from_env read_to_string from_str tenancy_path_env = Ok registry →
  boots config 10 11 (step (λ e, ServerAuth (AuthOidc e)) (build_auth_state config) (λ auth, AuthReady auth (reg_tenants registry))) (λ _, True).
Proof.
  intros Hreg. apply boots_step. intros w. unfold build_auth_state.
  destruct (issuer_url _) as [issuer|e] eqn:Hi; [|by eexists]. destruct (redirect_url _) as [redirect|e] eqn:Hr; [|by eexists].
  destruct http_client_new as [http|e] eqn:Hh; [|by eexists]. rewrite bind_eq.
  destruct (discover issuer http w) as [[metadata|e] w'] eqn:Hd; cbn; [|by eexists]. split; [done|]. split; [|done].
  exists registry, issuer, redirect, http, metadata, w. by rewrite Hd.
Qed.

Lemma boots_sessions config :
  boots config 11 12 (step (λ e, ServerAuth (AuthSessionStore e)) (build_session_layer (redis_url config) (redis_password config)) SessionsReady)
    (λ _, True).
Proof.
  apply boots_step. intros w. unfold build_session_layer.
  destruct (fred_from_url _) as [fred|e] eqn:Hf; [|by eexists]. destruct (fred_pool _ _) as [pool|e] eqn:Hp; [|by eexists].
  rewrite bind_eq. destruct (wait_for_connect pool w) as [[u|e] w'] eqn:Hw; cbn; [|by eexists]. split; [done|]. split; [|done].
  exists fred, pool, w. rewrite Hw. split; [done|]. split; [|done]. unfold str_eqb in Hp. by repeat case_decide || case_bool_decide.
Qed.

Lemma boots_store config :
  boots config 0 1 (step ServerStateStore (mret (redis_state_store_new (redis_url config) (redis_password config) 16)) StoreConfigured) (λ _, True).
Proof.
  apply boots_step. intros w. unfold redis_state_store_new. cbn [mret state_ret fst].
  destruct (parse_connection_info (redis_url config)) as [info|e] eqn:Hi; cbn; [|by eexists].
  destruct (create_redis_pool _ _) as [pool|e] eqn:Hc; cbn; [|by eexists]. split; [done|]. split; [|done].
  exists info. split; [done|]. unfold str_eqb in Hc. by repeat case_decide || case_bool_decide.
Qed.

(** C22: The start takes its steps in the order of the code, and each is done
    with the settings of its own: the clients of Redis, RabbitMQ, S3, Kubernetes,
    PostgreSQL and the identity provider, the session cookie, the registries, the
    reaper and the address. When the start fails, the error is the one of the first
    step that failed, and every earlier step has been done. So nothing is served,
    and no run is reclaimed, before the tenancy document is accepted and the four
    services have answered; and only the identity provider, the session store or
    the listener can fail once the reaper is at work. *)
Theorem serve_takes_every_step config w :
  let '(r, b) := serve config (mkBoot w []) in
  ∃ n, stage <$> b_events b = seq 0 n ∧ Forall (configured config) (b_events b) ∧
    match r with
    | Ok _ => n = 14
    | Err e => n < 14 ∧ error_of n e
    end.
Proof.
  assert (boots config 0 14 (serve config) (λ _, True)) as [_ Hb].
  { unfold serve.
    eapply boots_bind; [apply boots_store|intros _ _|lia].
    eapply (boots_bind _ _ 2); [|intros _ _|lia].
    { apply (boots_step _ _ _ _ _ (λ _, True)). intros w'. unfold rabbitmq_backplane_new. cbn. destruct (create_lapin_pool _ _); cbn; [|by eexists].
      by split_and!. }
    eapply boots_bind; [by apply boots_built|intros _ _|lia].
    eapply boots_bind; [apply boots_cluster|intros _ _|lia].
    eapply boots_bind; [apply boots_connect|intros pool Hpool|lia].
    eapply boots_bind; [by apply boots_migrate|intros _ _|lia].
    eapply (boots_bind _ _ 7); [|intros registry Hreg|lia].
    { apply (boots_step _ _ _ _ _ (λ registry, load_from_env read_to_string from_str tenancy_path_env = Ok registry)). intros w'. cbn.
      destruct (load_from_env _ _ _) eqn:Hl; cbn; [done|by eexists]. }
    eapply boots_bind; [apply boots_built; [done|by exists registry]|intros _ _|lia].
    eapply boots_bind; [apply boots_verify|intros _ _|lia].
    eapply boots_bind; [by apply boots_built|intros _ _|lia].
    eapply boots_bind; [by apply boots_auth|intros _ _|lia].
    eapply boots_bind; [apply boots_sessions|intros _ _|lia].
    eapply boots_bind; [apply boots_listener|intros _ _; apply boots_shutdown|lia]. }
  assert (reached config 0 (mkBoot w [])) as Hr by by split.
  specialize (Hb _ Hr). destruct (serve config _) as [[[]|e] b].
  - destruct Hb as [[Hs Hc] _]. by exists 14.
  - destruct Hb as (k & Hk & [Hs Hc] & He). exists k. split_and!; [done..|lia|done].
Qed.
End serve.

(** ** A start *)
Module Example.
Import InMemory Postgres PostgresFacts ServerTheorems.Example.
#[local] Existing Instances canonical_order KubeDispatcher.Example.bucket_client GithubTheorems.Example.libraries
  GithubTheorems.Example.backend GithubTheorems.Example.github GithubTheorems.Example.webhook_libraries Auth.Example.memory_session
  ServerTheorems.Example.log_bus.

(** Clients that accept every setting; [issuer] is the one provider there is. *)
#[local] Instance clients (issuer : string) : Clients ServerTheorems.Example.W := {|
  RedisInfo := string * string; RedisPool := string * string * Z;
  parse_connection_info url := if starts_with "redis://" url then Ok (url, "") else Err "no scheme";
  set_password password '(url, _) := (url, password);
  create_redis_pool info size := Ok (info, size);
  LapinPool := string * Z;
  create_lapin_pool url size := Ok (url, size);
  KubeClient := unit;
  try_default w := (Ok (), w);
  default_namespace _ := "jefferies";
  PgPool := PgConnectOptions;
  connect_with options w := (Ok options, w);
  run_migrations _ w := (Ok (), w);
  IssuerUrl := string; RedirectUrl := string; HttpClient := bool; ProviderMetadata := string;
  issuer_url := Ok; redirect_url := Ok; build_http_client := Ok;
  discover url _ w := (if str_eqb url issuer then Ok url else Err "not found", w);
  FredConfig := string; FredPool := string * Z;
  fred_from_url := Ok; fred_set_password _ c := c; fred_pool c n := Ok (c, n);
  wait_for_connect _ w := (Ok (), w);
  bind _ w := (Ok (), w);
  axum_serve w := (Ok (), w);
|}.

Definition start_with (issuer : string) (document : string → result string TenancyDocument) : result ServerError unit * list nat :=
  let '(r, b) := serve (CL := clients issuer) (λ _, Ok "") document None default_toml (mkBoot ServerTheorems.Example.world []) in
  (r, stage <$> b_events b).

Definition first_start : result ServerError unit * Boot (CL := clients "https://dex.the-conn.com") :=
  serve (CL := clients "https://dex.the-conn.com") (λ _, Ok "") (λ _, Ok (mkDocument [] [])) None default_toml
    (mkBoot (CL := clients "https://dex.the-conn.com") ServerTheorems.Example.world []).
Lemma serve_takes_every_step_witness :
  stage <$> b_events first_start.2 = seq 0 14 ∧
  ∃ options, HistoryConnected (CL := clients "https://dex.the-conn.com") options ∈ b_events first_start.2 ∧
    options = mkPgOptions (postgres_host default_toml) (postgres_port default_toml) (postgres_db default_toml)
                (postgres_username default_toml) (postgres_password default_toml).
Proof.
  pose proof (serve_takes_every_step (CL := clients "https://dex.the-conn.com") (λ _, Ok "") (λ _, Ok (mkDocument [] [])) None
    default_toml ServerTheorems.Example.world) as Ht.
  fold first_start in Ht. assert (is_ok first_start.1 = true) as Hok by (vm_compute; reflexivity).
  destruct first_start as [[u|e] b]; [|discriminate Hok]. cbn [snd].
  destruct Ht as (n & Hs & Hall & ->). split; [exact Hs|].
  destruct (b_events b) as [|e0 [|e1 [|e2 [|e3 [|e4 es]]]]]; try discriminate Hs.
  destruct e4 as [| | | |options| | | | | | | | |]; try discriminate Hs. exists options. split; [set_solver|].
  repeat (apply Forall_cons in Hall as [? Hall]). match goal with H : configured _ _ _ _ (HistoryConnected _) |- _ => destruct H as [w Hw] end.
  injection Hw as <-. reflexivity.
Defined.

Example starts : start_with "https://dex.the-conn.com" (λ _, Ok (mkDocument [] [])) = (Ok (), seq 0 14).
Proof. by vm_compute. Qed.
(** A bad tenancy document stops the start before anything is reclaimed, but
    after the migrations. *)
Example bad_tenancy : start_with "https://dex.the-conn.com" (λ _, Err "bad") = (Err (ServerTenancy (TenancyParse "bad")), seq 0 6).
Proof. by vm_compute. Qed.
(** A wrong issuer stops it when the reaper is already at work. *)
Example bad_issuer : start_with "https://elsewhere" (λ _, Ok (mkDocument [] [])) = (Err (ServerAuth (AuthOidc (OidcDiscovery "not found"))), seq 0 10).
Proof. by vm_compute. Qed.
End Example.
