(* ===== verification/System.v ===== *)
(** * Many coordinators, one store

    A run has one coordinator at a time only as far as its lease is kept: one
    that was cut off goes on until its next heartbeat, and the reaper of another
    server may have started a second one by then. This file composes them. A
    participant talks to the store through its calls only, so its behaviour is
    its program run against every sequence of answers ([Oracle]); an execution
    of the system is an interleaving of the participants' calls on one store, in
    any order ([perform_all]), in which each participant sees the answers that
    its program was run with. *)

From S2P Require Import Prelude AppConfig Pipeline StateStore Run SourceManager PodWatcher RunHistory Dispatcher Backplane Coordinator CoordinatorFacts.

(** ** An induction principle for the coordinator

    What is preserved by every access of the coordinator to its fields and
    services is preserved by a whole run. *)

Section closed.
Context {S D H : Type} `{SS : StateStore S, DD : Dispatcher D, RH : RunHistory H, HO : HashOrder, LB : Libraries}.
Abbreviation Co := (Coordinator S D H).

Class Closed (quiet_tick : Tick → Prop) (R : Co → Co → Prop) : Prop := {
  closed_preorder :: PreOrder R;
  closed_dispatcher {A} (f : M D A) : preserves R (call_dispatcher f);
  closed_history {A} (f : M H A) : preserves R (call_history f);
  closed_timers f : preserves R (on_timers f);
  closed_watcher : preserves R close_watcher;
  closed_effect e : preserves R (effect e);
  closed_run {A} (f : M PipelineRun A) : (∀ r, run_le r (f r).2) → preserves R (on_run f);
  closed_persist : preserves R persist_state;
  closed_renew r server v : preserves R (call_store (renew_lease r server v 30));
  closed_release r : preserves R (call_store (release_lease r));
  closed_delete r : preserves R (call_store (delete_run r));
  closed_time t : quiet_tick t → preserves R (pass_time t);
}.

Context (quiet_tick : @Tick S D H → Prop) (R : Co → Co → Prop) `{CR : !Closed quiet_tick R}.

#[local] Hint Resolve closed_preorder closed_dispatcher closed_history closed_timers closed_watcher closed_effect
  closed_persist closed_renew closed_release closed_delete : coord.
#[local] Hint Resolve mark_running_le mark_success_le mark_failed_le mark_dispatch_failed_le : coord.
#[local] Hint Extern 2 (preserves R (on_run _)) => apply closed_run; auto with coord : coord.

Lemma closed_fail_dispatch n m : preserves R (fail_dispatch n m).
Proof. unfold fail_dispatch, persist_state_after_dispatch_transition, record_dispatch_failed, node_definition_of, write_node_run. preserve. Qed.
#[local] Hint Resolve closed_fail_dispatch : coord.

Lemma closed_dispatch_node n : preserves R (dispatch_node n).
Proof. unfold dispatch_node, persist_state_after_dispatch_transition, record_node_dispatched_of. preserve. Qed.
#[local] Hint Resolve closed_dispatch_node : coord.
Lemma closed_dispatch_ready : preserves R dispatch_ready_nodes.
Proof. unfold dispatch_ready_nodes. preserve. Qed.
#[local] Hint Resolve closed_dispatch_ready : coord.
Lemma closed_after_failure : preserves R after_failure.
Proof. unfold after_failure. preserve. Qed.
Lemma closed_notify n : preserves R (notify_watcher_of_deletion n).
Proof. unfold notify_watcher_of_deletion. preserve. Qed.
Lemma closed_cancel n : preserves R (cancel_on_cluster n).
Proof. unfold cancel_on_cluster. preserve. Qed.
Lemma closed_completed n reason : preserves R (record_node_completed n reason).
Proof. unfold record_node_completed, node_definition_of, write_node_run. preserve. Qed.
#[local] Hint Resolve closed_after_failure closed_notify closed_cancel closed_completed : coord.
Lemma closed_infra_failed n reason : preserves R (handle_node_infra_failed n reason).
Proof. unfold handle_node_infra_failed, cancel_node_timeout. preserve. Qed.
Lemma closed_timed_out n : preserves R (handle_node_timed_out n).
Proof. unfold handle_node_timed_out. preserve. Qed.
Lemma closed_node_completed n success : preserves R (handle_node_completed n success).
Proof. unfold handle_node_completed. preserve. Qed.
#[local] Hint Resolve closed_infra_failed closed_timed_out closed_node_completed : coord.
Lemma closed_fold outcomes : preserves R (fold_completions_from_outcomes outcomes).
Proof. unfold fold_completions_from_outcomes, fold_completion, cancel_node_timeout. preserve. Qed.
Lemma closed_read : preserves R read_outcomes_for_non_terminal.
Proof. unfold read_outcomes_for_non_terminal. preserve. Qed.
Lemma closed_promote outcomes : preserves R (promote_started_pending_to_running outcomes).
Proof. unfold promote_started_pending_to_running, promote_node. preserve. Qed.
Lemma closed_rehydrate_timers outcomes : preserves R (rehydrate_phase_timers outcomes).
Proof. unfold rehydrate_phase_timers, rehydrate_timer. preserve. Qed.
#[local] Hint Resolve closed_fold closed_read closed_promote closed_rehydrate_timers : coord.
Lemma closed_finalize status : preserves R (finalize_run status).
Proof.
  unfold finalize_run, record_history, record_and_fail, record_running_node_terminated, node_definition_of, write_node_run. preserve.
Qed.
Lemma closed_cleanup : preserves R cleanup.
Proof. unfold cleanup. preserve. Qed.
Lemma closed_shutdown : preserves R shutdown_pod_watcher.
Proof. unfold shutdown_pod_watcher. preserve. Qed.
#[local] Hint Resolve closed_finalize closed_cleanup closed_shutdown : coord.
Lemma closed_abort status : preserves R (abort_run status).
Proof. unfold abort_run, terminate_running_nodes, summary. preserve. Qed.
Lemma closed_complete : preserves R complete_run.
Proof. unfold complete_run, build_summary, summary. preserve. Qed.
#[local] Hint Resolve closed_abort closed_complete : coord.
Lemma closed_stop_or_complete m : preserves R m → preserves R (stop_or_complete m).
Proof. intros Hm. unfold stop_or_complete. preserve. Qed.
Lemma closed_pod_running n : preserves R (handle_pod_running n).
Proof. unfold handle_pod_running. preserve. Qed.
#[local] Hint Resolve closed_stop_or_complete closed_pod_running : coord.
Lemma closed_step event : preserves R (loop_step event).
Proof.
  destruct event as [| | |[n|n|n reason|n]|[[n success|]|]]; cbn [loop_step];
    unfold reconcile_running_against_s3, handle_pod_start_timed_out, cancel_node_timeout, build_summary, summary;
    try apply closed_stop_or_complete; preserve.
Qed.
#[local] Hint Resolve closed_step : coord.
Lemma closed_loop ticks : Forall quiet_tick ticks → preserves R (event_loop ticks).
Proof.
  induction 1 as [|t ticks Ht _ IH]; cbn [event_loop]; [preserve|].
  apply (preserves_bind R); [by apply closed_time|intros _]. preserve.
Qed.
#[local] Hint Resolve closed_loop : coord.

Lemma closed_run_coordinator subscribed ticks : Forall quiet_tick ticks → preserves R (run_coordinator subscribed ticks).
Proof. intros Ht. unfold run_coordinator, rehydrate, build_summary, summary. preserve. Qed.
End closed.

(** ** Calls of the store and their answers *)

Inductive StoreEvent :=
| ESave (run_id : string) (state : RunState) (expected : Z) (answer : result StateStoreError bool)
| ELoad (run_id : string) (answer : result StateStoreError (option RunState))
| EDelete (run_id : string) (answer : result StateStoreError unit)
| EAcquire (run_id server : string) (ttl : Z) (answer : result StateStoreError (option Z))
| ERenew (run_id server : string) (version ttl : Z) (answer : result StateStoreError bool)
| ERelease (run_id : string) (answer : result StateStoreError unit)
| EOrphans (answer : result StateStoreError (list string))
| ETerminal (answer : result StateStoreError (list string))
| EPing (answer : result StateStoreError unit).

(** A store that only exists as its answers: the [n]-th call gets the [n]-th of
    them. What a program does with every oracle is what it may do with any
    store that others use as well. *)
Record Oracle := mkOracle {
  o_bool : nat → result StateStoreError bool;
  o_state : nat → result StateStoreError (option RunState);
  o_unit : nat → result StateStoreError unit;
  o_lease : nat → result StateStoreError (option Z);
  o_list : nat → result StateStoreError (list string);
  o_log : list StoreEvent }.

Definition answered {X} (pick : Oracle → nat → X) (event : X → StoreEvent) : M Oracle X := λ o,
  let x := pick o (length (o_log o)) in
  (x, mkOracle (o_bool o) (o_state o) (o_unit o) (o_lease o) (o_list o) (o_log o ++ [event x])).

#[export] Instance oracle_store : StateStore Oracle := {|
  save_run r st v := answered o_bool (ESave r st v);
  load_run r := answered o_state (ELoad r);
  delete_run r := answered o_unit (EDelete r);
  try_acquire_lease r server ttl := answered o_lease (EAcquire r server ttl);
  renew_lease r server v ttl := answered o_bool (ERenew r server v ttl);
  release_lease r := answered o_unit (ERelease r);
  get_orphaned_runs := answered o_list EOrphans;
  list_terminal_unleased_runs := answered o_list ETerminal;
  store_ping := answered o_unit EPing;
|}.

(** The first state of a run: every node pending, version zero. *)
Definition is_initial (pipeline : Pipeline) (st : RunState) : Prop :=
  rs_version st = 0%Z ∧ rs_pipeline st = pipeline ∧ from_run_state st = new_run (node_info pipeline).

(** ** What one coordinator does to the store

    Every save of a coordinator carries its pipeline; it either creates the run,
    or advances a state that the coordinator itself got from the store or saved
    there, expecting that state's version and writing the next one. *)

Section protocol.
Variables (run_id : string) (pipeline : Pipeline).

Definition known (log : list StoreEvent) (st : RunState) : Prop :=
  ELoad run_id (Ok (Some st)) ∈ log ∨ (∃ v, ESave run_id st v (Ok true) ∈ log) ∨ is_initial pipeline st.

Definition save_ok (before : list StoreEvent) (e : StoreEvent) : Prop :=
  match e with
  | ESave r st v _ =>
      r = run_id ∧ rs_pipeline st = pipeline ∧
      (is_initial pipeline st ∧ v = 0%Z ∨
       rs_version st = u64_add v 1 ∧
       ∃ base, known before base ∧ rs_version base = v ∧ run_le (from_run_state base) (from_run_state st))
  | _ => True
  end.

Inductive Protocol : list StoreEvent → Prop :=
| protocol_nil : Protocol []
| protocol_snoc log e : Protocol log → save_ok log e → Protocol (log ++ [e]).

Lemma known_app log l st : known log st → known (log ++ l) st.
Proof. unfold known. setoid_rewrite elem_of_app. naive_solver. Qed.

Lemma protocol_prefix l log : Protocol log → l `prefix_of` log → Protocol l.
Proof.
  intros Hp. revert l; induction Hp as [|log e Hp IH He]; intros l Hl.
  - apply prefix_nil_inv in Hl as ->. constructor.
  - destruct Hl as [k Hk]. induction k as [|e' k _] using rev_ind.
    + rewrite app_nil_r in Hk. rewrite <-Hk. by constructor.
    + rewrite (assoc_L (++)) in Hk. apply app_inj_tail in Hk as [-> _]. apply IH. by exists k.
Qed.

Context {D H : Type} `{DD : Dispatcher D, RH : RunHistory H, HO : HashOrder, LB : Libraries}.
Abbreviation Co := (Coordinator Oracle D H).

(** Where a coordinator is: its saves follow the protocol, and its run is at
    or past a known state of its version. *)
Definition tracks (c : Co) : Prop :=
  Protocol (o_log (state_store c)) ∧
  ∃ base, known (o_log (state_store c)) base ∧ rs_version base = state_version c ∧
    run_le (from_run_state base) (run c).

Record keeps (c c' : Co) : Prop := {
  k_const : const c' = const c;
  k_tracks : c_run_id (const c) = run_id → c_pipeline (const c) = pipeline → tracks c → tracks c';
}.
#[export] Instance keeps_preorder : PreOrder keeps.
Proof.
  split; [by intros c; split|]. intros c1 c2 c3 [K1 T1] [K2 T2]. split; [congruence|].
  intros Hr Hp Ht. apply T2; [congruence..|]. by apply T1.
Qed.

(** The ticks of a participant leave its oracle alone: what others do to the
    store is in the answers. *)
Definition store_untouched (t : @Tick Oracle D H) : Prop := ∀ o, tick_store t o = o.

Lemma keeps_same c c' : const c' = const c → run c' = run c → state_version c' = state_version c →
  state_store c' = state_store c → keeps c c'.
Proof. intros K R V T. split; [done|]. intros _ _ Ht. unfold tracks. by rewrite R, V, T. Qed.

(** A call that saves nothing. *)
Lemma keeps_call {X} (pick : Oracle → nat → X) (event : X → StoreEvent) :
  (∀ log x, save_ok log (event x)) → preserves keeps (call_store (answered pick event)).
Proof.
  intros He c. unfold call_store, answered. split; [done|]. intros _ _ (Hp & base & Hk & Hv & Hle). split; simpl.
  - by constructor.
  - exists base. split; [by apply known_app|done].
Qed.

Lemma keeps_persist : preserves keeps persist_state.
Proof.
  intros c. unfold persist_state, mbind, state_bind, from_const, gets, call_store. cbn [save_run oracle_store]. unfold answered.
  set (st := to_run_state _ _ _). set (ans := o_bool (state_store c) _).
  assert (c_run_id (const c) = run_id → c_pipeline (const c) = pipeline → tracks c →
    save_ok (o_log (state_store c)) (ESave (c_run_id (const c)) st (state_version c) ans)) as Hsave.
  { intros Hr Hp (_ & base & Hk & Hv & Hle). split; [done|]. split; [done|]. right. split; [done|].
    exists base. split; [done|]. split; [done|]. unfold st. by rewrite run_state_round_trip. }
  destruct ans as [[]|e].
  - cbn. split; [done|]. intros Hr Hp Ht. pose proof Ht as [Hprot _]. split; cbn.
    + constructor; [done|]. by apply Hsave.
    + exists st. unfold known. rewrite <-Hr. split; [right; left; exists (state_version c); apply elem_of_app; right; by left|].
      split; [done|]. unfold st. rewrite run_state_round_trip. apply run_le_refl.
  - cbn. split; [done|]. intros Hr Hp Ht. pose proof Ht as (Hprot & base & Hk & Hv & Hle). split; cbn.
    + constructor; [done|]. by apply Hsave.
    + exists base. by split; [apply known_app|].
  - cbn. split; [done|]. intros Hr Hp Ht. pose proof Ht as (Hprot & base & Hk & Hv & Hle). split; cbn.
    + constructor; [done|]. by apply Hsave.
    + exists base. by split; [apply known_app|].
Qed.

#[export] Instance keeps_closed : Closed store_untouched keeps.
Proof.
  split.
  - exact _.
  - intros A f c. unfold call_dispatcher. destruct (f _). by apply keeps_same.
  - intros A f c. unfold call_history. destruct (f _). by apply keeps_same.
  - intros f c. by apply keeps_same.
  - intros c. by apply keeps_same.
  - intros e c. by apply keeps_same.
  - intros A f Hf c. specialize (Hf (run c)). unfold on_run. destruct (f (run c)) as [a r]. split; [done|].
    intros _ _ (Hp & base & Hk & Hv & Hle). split; [done|]. exists base. split; [done|]. split; [done|]. by etrans.
  - exact keeps_persist.
  - intros r server v. by apply keeps_call.
  - intros r. by apply keeps_call.
  - intros r. by apply keeps_call.
  - intros t Ht c. apply keeps_same; [done..|]. apply Ht.
Qed.

(** The life of a coordinator: from its start, with an oracle whose answers
    are still to come, to its end or to the end of its ticks. *)
Definition life (server_id : string) (config : AppConfig) (has_reporter : bool) (rc : RunContext) (now : Z)
    (answers : Oracle) (disp : D) (history : H) (subscribed : bool) (ticks : list (@Tick Oracle D H)) : list StoreEvent :=
  let '(c, (store, _, _)) := start_coordinator run_id server_id pipeline config has_reporter rc now answers disp history in
  match c with
  | Some c => o_log (state_store (run_coordinator subscribed ticks c).2)
  | None => o_log store
  end.

Lemma initialize_tracks (o : Oracle) : Protocol (o_log o) →
  let '((r, v, _), o') := initialize_run_state run_id (node_info pipeline) pipeline o in
  Protocol (o_log o') ∧ ∃ base, known (o_log o') base ∧ rs_version base = v ∧ run_le (from_run_state base) r.
Proof.
  intros Hp. unfold initialize_run_state. rewrite bind_eq. cbn [load_run oracle_store answered fst snd].
  set (init := to_run_state (new_run (node_info pipeline)) 0 pipeline).
  assert (is_initial pipeline init) as Hinit by (split; [done|]; split; [done|]; apply run_state_round_trip).
  assert (from_run_state init = new_run (node_info pipeline)) as Hfrom by apply run_state_round_trip.
  destruct (o_state o (length (o_log o))) as [[st|]|e] eqn:Ha; cbn.
  - split; [by constructor|]. exists st. split; [left; apply elem_of_app; right; by left|]. split; [done|apply run_le_refl].
  - rewrite bind_eq. cbn. split.
    + constructor; [by constructor|]. split; [done|]. split; [done|]. by left.
    + exists init. split; [by right; right|]. split; [done|]. rewrite Hfrom. apply run_le_refl.
  - split; [by constructor|]. exists init. split; [by right; right|]. split; [done|]. rewrite Hfrom. apply run_le_refl.
Qed.

Lemma life_protocol server_id config has_reporter rc now answers disp history subscribed ticks :
  o_log answers = [] → Forall store_untouched ticks →
  Protocol (life server_id config has_reporter rc now answers disp history subscribed ticks).
Proof.
  intros Hnil Ht. unfold life, start_coordinator. cbn [try_acquire_lease oracle_store answered]. rewrite Hnil. cbn [app].
  set (e := EAcquire _ _ _ _). set (o := mkOracle _ _ _ _ _ _).
  assert (Protocol (o_log o)) as Ho by (apply (protocol_snoc []); [constructor|done]).
  destruct (o_lease answers _) as [[lease|]|err]; [|done..].
  destruct (record_pipeline_started _ history) as [u h].
  pose proof (initialize_tracks o Ho) as Hi.
  destruct (initialize_run_state run_id (node_info pipeline) pipeline o) as [[[r v] rehydrated] o'].
  destruct Hi as (Hp & base & Hk & Hv & Hle). destruct (start_pod_watcher _ _ disp) as [watched d].
  match goal with |- context [run_coordinator _ _ ?c] => set (c0 := c) end.
  pose proof (closed_run_coordinator store_untouched keeps subscribed ticks Ht c0) as [_ Hkeep].
  apply Hkeep; [done..|]. split; [done|]. by exists base.
Qed.
End protocol.

(** ** One store *)

Inductive StoreCall :=
| CallSave (run_id : string) (state : RunState) (expected : Z)
| CallLoad (run_id : string)
| CallDelete (run_id : string)
| CallAcquire (run_id server : string) (ttl : Z)
| CallRenew (run_id server : string) (version ttl : Z)
| CallRelease (run_id : string)
| CallOrphans
| CallTerminal
| CallPing.

Section shared.
Context {S : Type} `{SPEC : StateStoreSpec S}.

Definition perform (call : StoreCall) : M S StoreEvent :=
  match call with
  | CallSave r st v => a ← save_run r st v; mret (ESave r st v a)
  | CallLoad r => a ← load_run r; mret (ELoad r a)
  | CallDelete r => a ← delete_run r; mret (EDelete r a)
  | CallAcquire r server ttl => a ← try_acquire_lease r server ttl; mret (EAcquire r server ttl a)
  | CallRenew r server v ttl => a ← renew_lease r server v ttl; mret (ERenew r server v ttl a)
  | CallRelease r => a ← release_lease r; mret (ERelease r a)
  | CallOrphans => a ← get_orphaned_runs; mret (EOrphans a)
  | CallTerminal => a ← list_terminal_unleased_runs; mret (ETerminal a)
  | CallPing => a ← store_ping; mret (EPing a)
  end.

(** What the contract of the store asks of a call. *)
Definition call_ok (s : S) (call : StoreCall) : Prop :=
  match call with
  | CallSave _ st v => version_ok (rs_version st) ∧ version_ok v
  | CallAcquire _ _ ttl => (0 < ttl)%Z
  | CallRenew _ _ v ttl => version_ok v ∧ (0 < ttl)%Z
  | CallOrphans | CallTerminal => run_ids_ok (runs_of s)
  | _ => True
  end.

(** An execution: calls of the participants, one after the other, and the
    passing of time, which may end leases. *)
Inductive executes (s0 : S) : list (nat * StoreEvent) → S → Prop :=
| executes_none : executes s0 [] s0
| executes_call g s a call : executes s0 g s → call_ok s call →
    executes s0 (g ++ [(a, (perform call s).1)]) (perform call s).2
| executes_time g s s' : executes s0 g s → store_ok s' → runs_of s' = runs_of s → executes s0 g s'.

(** The calls of a list, one after the other. *)
Fixpoint perform_all (calls : list (nat * StoreCall)) (s : S) : list (nat * StoreEvent) * S :=
  match calls with
  | [] => ([], s)
  | (a, call) :: calls =>
      let '(e, s) := perform call s in
      let '(g, s) := perform_all calls s in ((a, e) :: g, s)
  end.

Lemma executes_trans s0 g1 s1 g2 s2 : executes s0 g1 s1 → executes s1 g2 s2 → executes s0 (g1 ++ g2) s2.
Proof.
  intros H1 H2. induction H2 as [|g s a call H2 IH Hc|g s s' H2 IH Hok Hruns].
  - by rewrite app_nil_r.
  - rewrite (assoc_L (++)). by constructor.
  - by econstructor.
Qed.

(** A check of [call_ok] for calls that need no more than their arguments. *)
Definition call_checked (call : StoreCall) : bool :=
  match call with
  | CallSave _ st v => bool_decide (0 ≤ rs_version st < 100000000000000)%Z && bool_decide (0 ≤ v < 100000000000000)%Z
  | CallAcquire _ _ ttl => bool_decide (0 < ttl)%Z
  | CallRenew _ _ v ttl => bool_decide (0 ≤ v < 100000000000000)%Z && bool_decide (0 < ttl)%Z
  | CallOrphans | CallTerminal => false
  | _ => true
  end.
Lemma call_checked_ok call s : call_checked call = true → call_ok s call.
Proof. destruct call; simpl; rewrite ?andb_true_iff, ?bool_decide_eq_true; done. Qed.

Lemma executes_perform_all calls s : forallb (λ x, call_checked x.2) calls = true →
  executes s (perform_all calls s).1 (perform_all calls s).2.
Proof.
  intros Hall. assert (Forall (λ x, ∀ s, call_ok s x.2) calls) as Hok.
  { apply Forall_forall. intros x Hx s'. apply call_checked_ok. rewrite forallb_forall in Hall. by apply Hall, list_elem_of_In. }
  clear Hall. revert s; induction Hok as [|[a call] calls Hc _ IH]; intros s; [constructor|].
  cbn [perform_all]. assert (executes s [(a, (perform call s).1)] (perform call s).2) as Hone
    by exact (executes_call s [] s a call (executes_none s) (Hc s)).
  specialize (IH (perform call s).2). destruct (perform call s) as [e s1]. cbn [fst snd] in *.
  destruct (perform_all calls s1) as [g s2]. cbn [fst snd] in *. exact (executes_trans _ _ _ _ _ Hone IH).
Qed.

(** The calls of one participant. *)
Definition by_ (a : nat) (g : list (nat * StoreEvent)) : list StoreEvent := omap (λ '(b, e), if decide (b = a) then Some e else None) g.

Lemma by_app a g1 g2 : by_ a (g1 ++ g2) = by_ a g1 ++ by_ a g2.
Proof. apply omap_app. Qed.

(** What a call does to the state of one run. *)
Definition applies (run_id : string) (cur : option RunState) (e : StoreEvent) (cur' : option RunState) : Prop :=
  match e with
  | ESave r st v ans =>
      if decide (r = run_id) then
        version_ok v ∧
        match ans with
        | Ok accepted => accepted = cas_accepts cur v ∧ cur' = if accepted then Some st else cur
        | Err _ => cur' = cur ∨ cas_accepts cur v = true ∧ cur' = Some st
        end
      else cur' = cur
  | ELoad r ans => cur' = cur ∧ (r = run_id → match ans with Ok o => o = cur | Err _ => True end)
  | EDelete r ans => if decide (r = run_id) then cur' = None ∨ cur' = cur else cur' = cur
  | _ => cur' = cur
  end.

Lemma perform_applies run_id call s : store_ok s → call_ok s call →
  store_ok (perform call s).2 ∧
  applies run_id (runs_of s !! run_id) (perform call s).1 (runs_of (perform call s).2 !! run_id).
Proof.
  intros Hok Hc. destruct call as [r st v|r|r|r server ttl|r server v ttl|r| | |]; cbn [perform call_ok] in *; rewrite bind_eq; cbn [mret state_ret].
  - destruct Hc as [Hst Hv]. pose proof (save_run_spec r st v s Hok Hst Hv) as Hs. destruct (save_run r st v s) as [ans s']; cbn [mret state_ret fst snd].
    destruct Hs as (Hok' & _ & Hs). split; [done|]. cbn. case_decide as Hr.
    + subst r. split; [done|]. destruct ans as [b|e].
      * destruct Hs as [Hb Hruns]. split; [done|]. rewrite Hruns. destruct b; [by rewrite lookup_insert_eq|done].
      * destruct Hs as [->|[Hb ->]]; [by left|right]. by rewrite lookup_insert_eq.
    + destruct ans as [b|e].
      * destruct Hs as [_ ->]. destruct b; [by rewrite lookup_insert_ne|done].
      * destruct Hs as [->|[_ ->]]; [done|]. by rewrite lookup_insert_ne.
  - pose proof (load_run_spec r s Hok) as Hs. destruct (load_run r s) as [ans s']; cbn [mret state_ret fst snd]. destruct Hs as (Hok' & -> & _ & Hs).
    split; [done|]. cbn. split; [done|]. intros ->. by destruct ans.
  - pose proof (delete_run_spec r s Hok) as Hs. destruct (delete_run r s) as [ans s']; cbn [mret state_ret fst snd]. destruct Hs as (Hok' & _ & Hs).
    split; [done|]. cbn. case_decide as Hr.
    + subst r. destruct ans; [rewrite Hs; left; apply lookup_delete_eq|]. destruct Hs as [->| ->]; [by right|left]. apply lookup_delete_eq.
    + destruct ans; [rewrite Hs; by apply lookup_delete_ne|]. destruct Hs as [->| ->]; [done|]. by apply lookup_delete_ne.
  - pose proof (try_acquire_lease_spec r server ttl s Hok Hc) as Hs. destruct (try_acquire_lease r server ttl s) as [ans s']; cbn [mret state_ret fst snd].
    destruct Hs as (? & -> & _). done.
  - destruct Hc as [Hv Httl]. pose proof (renew_lease_spec r server v ttl s Hok Hv Httl) as Hs. destruct (renew_lease r server v ttl s) as [ans s']; cbn [mret state_ret fst snd].
    destruct Hs as (? & -> & _). done.
  - pose proof (release_lease_spec r s Hok) as Hs. destruct (release_lease r s) as [ans s']; cbn [mret state_ret fst snd]. destruct Hs as (? & -> & _). done.
  - pose proof (get_orphaned_runs_spec s Hok Hc) as Hs. destruct (get_orphaned_runs s) as [ans s']; cbn [mret state_ret fst snd]. destruct Hs as (? & -> & _). done.
  - pose proof (list_terminal_unleased_runs_spec s Hok Hc) as Hs. destruct (list_terminal_unleased_runs s) as [ans s']; cbn [mret state_ret fst snd].
    destruct Hs as (? & -> & _). done.
  - pose proof (store_ping_spec s Hok) as Hs. destruct (store_ping s) as [ans s']; cbn [mret state_ret fst snd]. destruct Hs as (? & -> & _). done.
Qed.
End shared.

(** ** The history of a run's state *)

Section history.
Variables (run_id : string) (pipeline : Pipeline).
Abbreviation init := (new_run (node_info pipeline)).

(** A state that the history has at its version. *)
Definition entry (hist : list PipelineRun) (st : RunState) : Prop :=
  rs_pipeline st = pipeline ∧ ∃ i, rs_version st = Z.of_nat i ∧ hist !! i = Some (from_run_state st).

(** [hist] is the run at each version so far, from the initial one on. *)
Record Versions (log : list StoreEvent) (cur : option RunState) (hist : list PipelineRun) : Prop := {
  v_first : hist !! 0 = Some init;
  v_chain : ∀ i r r', hist !! i = Some r → hist !! Datatypes.S i = Some r' → run_le r r';
  v_known : ∀ st, known run_id pipeline log st → entry hist st;
  v_cur : match cur with
          | None => hist = [init]
          | Some st => entry hist st ∧ rs_version st = (Z.of_nat (length hist) - 1)%Z
          end;
}.

Lemma chain_le (hist : list PipelineRun) :
  (∀ i r r', hist !! i = Some r → hist !! Datatypes.S i = Some r' → run_le r r') →
  ∀ d i r r', hist !! i = Some r → hist !! (d + i) = Some r' → run_le r r'.
Proof.
  intros Hc d. induction d as [|d IH]; intros i r r' Hi Hj; simpl in Hj; [simplify_eq; apply run_le_refl|].
  assert (is_Some (hist !! (d + i))) as [r'' Hm].
  { apply lookup_lt_is_Some. apply lookup_lt_Some in Hj. lia. }
  transitivity r''; [by eapply IH|by eapply Hc].
Qed.

Lemma entry_app hist k st : entry hist st → entry (hist ++ k) st.
Proof. intros (Hp & i & Hv & Hi). split; [done|]. exists i. split; [done|]. by apply lookup_app_l_Some. Qed.

Lemma initial_entry hist st : hist !! 0 = Some init → is_initial pipeline st → entry hist st.
Proof. intros Hf (Hv & Hp & Hr). split; [done|]. exists 0. by rewrite Hr. Qed.

(** A save that is accepted expects the last version. *)
Lemma accepted_last log cur hist v : Versions log cur hist → cas_accepts cur v = true → v = (Z.of_nat (length hist) - 1)%Z.
Proof.
  intros [_ _ _ Hc] Hv. destruct cur as [st|]; simpl in Hv; apply bool_decide_eq_true in Hv; [|by subst].
  destruct Hc as [_ Hc]. lia.
Qed.

Lemma known_snoc log e st : known run_id pipeline (log ++ [e]) st →
  known run_id pipeline log st ∨ e = ELoad run_id (Ok (Some st)) ∨ ∃ v, e = ESave run_id st v (Ok true).
Proof. unfold known. setoid_rewrite elem_of_app. setoid_rewrite list_elem_of_singleton. naive_solver. Qed.

(** Other events than a save or an answer that shows the current state. *)
Lemma versions_same log cur hist e : Versions log cur hist →
  (∀ st, known run_id pipeline (log ++ [e]) st → known run_id pipeline log st ∨ cur = Some st) →
  Versions (log ++ [e]) cur hist.
Proof.
  intros [F C K U] He. split; [done..| |done]. intros st [Hk| ->]%He; [by apply K|]. apply U.
Qed.

(** An accepted save of the next version extends the history. *)
Lemma versions_save log cur hist e st v : Versions log cur hist → version_ok v → cas_accepts cur v = true →
  save_ok run_id pipeline log (ESave run_id st v (Ok true)) →
  (∀ st', known run_id pipeline (log ++ [e]) st' → known run_id pipeline log st' ∨ st' = st) →
  ∃ k, Versions (log ++ [e]) (Some st) (hist ++ k).
Proof.
  intros HV Hvok Hcas (_ & Hp & Hs) He. pose proof (accepted_last _ _ _ _ HV Hcas) as Hv. destruct HV as [F C K U].
  pose proof (lookup_lt_Some _ _ _ F) as Hlen.
  destruct Hs as [[Hinit Hv0]|(Hnext & base & Hbase & Hbv & Hle)].
  - exists []. rewrite app_nil_r. pose proof (initial_entry hist st F Hinit) as Hent.
    split; [done..| |].
    + intros st' [Hk| ->]%He; [by apply K|done].
    + split; [done|]. destruct Hinit as [-> _]. lia.
  - assert (rs_version st = Z.of_nat (length hist)) as Hver.
    { rewrite Hnext. unfold version_ok in Hvok. unfold u64_add, u64_max. rewrite Z.mod_small; lia. }
    exists [from_run_state st].
    assert (entry (hist ++ [from_run_state st]) st) as Hent.
    { split; [done|]. exists (length hist). split; [done|]. rewrite lookup_app_r by lia. by rewrite Nat.sub_diag. }
    split.
    + by apply lookup_app_l_Some.
    + intros i r r' Hi Hj. destruct (decide (Datatypes.S i < length hist)) as [Hlt|Hge].
      * rewrite lookup_app_l in Hi, Hj by lia. by eapply C.
      * pose proof (lookup_lt_Some _ _ _ Hj) as Hlt. rewrite length_app in Hlt. simpl in Hlt.
        assert (Datatypes.S i = length hist) as Hi1 by lia.
        rewrite lookup_app_r, Hi1, Nat.sub_diag in Hj by lia. simplify_eq/=. rewrite lookup_app_l in Hi by lia.
        destruct (K base Hbase) as (_ & j & Hj & Hb). assert (j = i) as -> by lia. simplify_eq/=. done.
    + intros st' [Hk| ->]%He; [by apply entry_app, K|done].
    + split; [done|]. rewrite length_app. simpl. lia.
Qed.
End history.

(** ** The system *)

Section system.
Variables (run_id : string) (pipeline : Pipeline).
Context {S D H : Type} `{SPEC : StateStoreSpec S, DD : Dispatcher D, RH : RunHistory H, LB : Libraries}.
Implicit Types (g : list (nat * StoreEvent)).

(** Calls that write the run's state. *)
Definition writes (e : StoreEvent) : bool :=
  match e with ESave r _ _ _ => str_eqb r run_id | _ => false end.
Definition deletes (e : StoreEvent) : bool :=
  match e with EDelete r _ => str_eqb r run_id | _ => false end.

(** A participant is a coordinator of the run, somewhere in its life, on a
    server with its own iteration orders, or one that does not write the run's
    state. *)
Inductive participant (log : list StoreEvent) : Prop :=
| coordinator_of (HO : HashOrder) server_id config has_reporter rc now answers (disp : D) (history : H) subscribed ticks :
    o_log answers = [] → Forall store_untouched ticks →
    log `prefix_of` life run_id pipeline server_id config has_reporter rc now answers disp history subscribed ticks →
    participant log
| observer : Forall (λ e, writes e = false) log → participant log.

(** All that matters of a participant. *)
Definition disciplined (log : list StoreEvent) : Prop :=
  ∀ before e after, log = before ++ e :: after → writes e = true → save_ok run_id pipeline before e.

Lemma protocol_disciplined log : Protocol run_id pipeline log → disciplined log.
Proof.
  intros Hp before e after -> _. apply (protocol_prefix _ _ (before ++ [e])) in Hp; [|exists after; by rewrite <-(assoc_L (++))].
  inversion Hp as [Hn|log' e' _ He Heq]; [by destruct before|]. by apply app_inj_tail in Heq as [-> ->].
Qed.

Lemma participant_disciplined log : participant log → disciplined log.
Proof.
  intros [HO server_id config has_reporter rc now answers disp history subscribed ticks Hnil Ht Hpre|Hobs].
  - eapply protocol_disciplined, protocol_prefix; [|exact Hpre]. by apply life_protocol.
  - intros before e after -> He. apply Forall_app in Hobs as [_ Hobs]. apply Forall_cons in Hobs as [Hobs _]. congruence.
Qed.

Lemma by_sublist a g e : e ∈ by_ a g → e ∈ g.*2.
Proof.
  unfold by_. rewrite list_elem_of_omap. intros ([b e'] & Hin & He). case_decide; simplify_eq. apply list_elem_of_fmap. by exists (a, e).
Qed.
Lemma known_by a g st : known run_id pipeline (by_ a g) st → known run_id pipeline g.*2 st.
Proof. unfold known. intros [Hl|[[v Hs]|Hi]]; [left|right; left; exists v|by right; right]; by eapply by_sublist. Qed.

Lemma save_ok_by a g e : save_ok run_id pipeline (by_ a g) e → save_ok run_id pipeline g.*2 e.
Proof.
  destruct e as [r st v ans| | | | | | | |]; simpl; [|done..]. intros (Hr & Hp & Hs). split; [done|]. split; [done|].
  destruct Hs as [Hs|(Hn & base & Hk & Hrest)]; [by left|right]. split; [done|]. exists base. split; [by eapply known_by|done].
Qed.

(** One call of a disciplined participant. *)
Lemma versions_step log cur hist e cur' : Versions run_id pipeline log cur hist → applies run_id cur e cur' →
  (writes e = true → save_ok run_id pipeline log e) → deletes e = false →
  (∃ k, Versions run_id pipeline (log ++ [e]) cur' (hist ++ k)) ∧ (is_Some cur → is_Some cur').
Proof.
  intros HV Happ Hsave Hdel.
  assert ((∀ st, known run_id pipeline (log ++ [e]) st → known run_id pipeline log st ∨ cur = Some st) → cur' = cur →
    (∃ k, Versions run_id pipeline (log ++ [e]) cur' (hist ++ k)) ∧ (is_Some cur → is_Some cur')) as Hsame.
  { intros Hk ->. split; [|done]. exists []. rewrite app_nil_r. by apply versions_same. }
  destruct e as [r st v ans|r ans|r ans|r server ttl ans|r server v ttl ans|r ans|ans|ans|ans]; cbn [applies writes deletes] in *.
  all: try (apply Hsame; [intros st' [Hk|[?|[??]]]%known_snoc; [by left|done..]|done]).
  - case_decide as Hr.
    2:{ apply Hsame; [|done]. intros st' [Hk|[?|[v' ?]]]%known_snoc; [by left|done|by simplify_eq]. }
    subst r. destruct Happ as [Hvok Happ]. assert (writes (ESave run_id st v ans) = true) as Hw by by apply str_eqb_true.
    specialize (Hsave Hw).
    assert (∀ st', known run_id pipeline (log ++ [ESave run_id st v ans]) st' → known run_id pipeline log st' ∨ st' = st) as Hk.
    { intros st' [Hk|[?|[v' ?]]]%known_snoc; [by left|done|right; by simplify_eq]. }
    destruct ans as [[]|err].
    + destruct Happ as [Hcas ->]. split; [|by eexists]. by eapply versions_save.
    + destruct Happ as [_ ->]. apply Hsame; [|done]. intros st' [Hk'|[?|[v' ?]]]%known_snoc; [by left|done..].
    + destruct Happ as [->|[Hcas ->]].
      * apply Hsame; [|done]. intros st' [Hk'|[?|[v' ?]]]%known_snoc; [by left|done..].
      * split; [|by eexists]. by eapply versions_save.
  - destruct Happ as [-> Hans]. apply Hsame; [|done]. intros st' [Hk|[?|[??]]]%known_snoc; [by left| |done]. simplify_eq. right. by rewrite <-Hans.
  - apply str_eqb_false in Hdel. case_decide; [done|]. apply Hsame; [|done]. intros st' [Hk|[?|[??]]]%known_snoc; [by left|done..].
Qed.

(** Any number of calls of disciplined participants. *)
Lemma versions_execute g0 s g s' hist : executes s g s' → store_ok s →
  Versions run_id pipeline g0.*2 (runs_of s !! run_id) hist →
  (∀ a, disciplined (by_ a (g0 ++ g))) → Forall (λ x, deletes x.2 = false) g →
  store_ok s' ∧ (∃ k, Versions run_id pipeline (g0 ++ g).*2 (runs_of s' !! run_id) (hist ++ k)) ∧
  (is_Some (runs_of s !! run_id) → is_Some (runs_of s' !! run_id)).
Proof.
  intros Hex Hok HV. induction Hex as [|g s1 a call Hex IH Hc|g s1 s2 Hex IH Hok2 Hruns]; intros Hd Hdel.
  - rewrite app_nil_r. split; [done|]. split; [exists []; by rewrite app_nil_r|done].
  - apply Forall_app in Hdel as [Hdel He]. rewrite Forall_singleton in He. simpl in He.
    destruct IH as (Hok1 & (k & HV1) & Hsome); [|done|].
    { intros b before e after Hb Hw. apply (Hd b before e (after ++ by_ b [(a, (perform call s1).1)])); [|done].
      by rewrite (assoc_L (++)), by_app, Hb, <-(assoc_L (++)). }
    destruct (perform_applies run_id call s1 Hok1 Hc) as [Hok2 Happ]. split; [done|].
    destruct (versions_step _ _ _ _ _ HV1 Happ) as [(k' & HV2) Hsome2]; [|done|].
    { intros Hw. apply (save_ok_by a). apply (Hd a _ _ []); [|done].
      rewrite (assoc_L (++)), by_app. f_equal. unfold by_. simpl. by rewrite decide_True. }
    split; [|tauto]. exists (k ++ k'). by rewrite !(assoc_L (++)), fmap_app.
  - destruct IH as (_ & HV1 & Hsome); [done..|]. rewrite Hruns. done.
Qed.

(** A later state of the run: at a later version with statuses that only
    advanced, or the same run. *)
Definition advanced (st1 st2 : RunState) : Prop :=
  (rs_version st1 ≤ rs_version st2)%Z ∧ run_le (from_run_state st1) (from_run_state st2) ∧
  (rs_version st1 = rs_version st2 → from_run_state st1 = from_run_state st2).

Lemma entry_advanced log cur hist st1 st2 : Versions run_id pipeline log cur hist → entry pipeline hist st1 → entry pipeline hist st2 →
  (rs_version st1 ≤ rs_version st2)%Z → advanced st1 st2.
Proof.
  intros HV (_ & i & Hi & H1) (_ & j & Hj & H2) Hle. split; [done|]. split.
  - apply (chain_le hist (v_chain _ _ _ _ _ HV) (j - i) i); [done|]. by replace (j - i + i) with j by lia.
  - intros Heq. assert (i = j) as -> by lia. congruence.
Qed.

Lemma versions_start s : runs_of s !! run_id = None → Versions run_id pipeline [] (runs_of s !! run_id) [new_run (node_info pipeline)].
Proof.
  intros ->. split; [done| | |done].
  - intros [|i] r r'; simpl; done.
  - intros st [Hk|[[v Hk]|Hk]]; [by apply elem_of_nil in Hk..|]. by apply initial_entry.
Qed.

(** C3: Any number of coordinators of a run on one store, their calls interleaved
    in any order, with saves that fail or whose answers are lost, leases that
    expire under them, and crashes at any point: until the run is deleted, its
    stored state only advances. Whatever it was at one moment, later it is
    there with a version at least as high, the same graph, every node's status
    reached from the earlier one, and changed only if the version did. *)
Theorem stored_run_only_advances s0 g1 s1 g2 s2 st1 :
  store_ok s0 → runs_of s0 !! run_id = None →
  executes s0 g1 s1 → executes s1 g2 s2 →
  (∀ a, participant (by_ a (g1 ++ g2))) → Forall (λ x, deletes x.2 = false) (g1 ++ g2) →
  runs_of s1 !! run_id = Some st1 →
  ∃ st2, runs_of s2 !! run_id = Some st2 ∧ advanced st1 st2.
Proof.
  intros Hok Hnone Hex1 Hex2 Hpart [Hdel1 Hdel2]%Forall_app Hst1.
  destruct (versions_execute [] s0 g1 s1 _ Hex1 Hok (versions_start s0 Hnone)) as (Hok1 & (k1 & HV1) & _); [|done|].
  { intros a before e after Hb. apply (participant_disciplined _ (Hpart a) before e (after ++ by_ a g2)).
    rewrite by_app. simpl in Hb. by rewrite Hb, <-(assoc_L (++)). }
  destruct (versions_execute g1 s1 g2 s2 _ Hex2 Hok1 HV1) as (_ & (k2 & HV2) & Hsome); [|done|].
  { intros a. apply participant_disciplined, Hpart. }
  destruct Hsome as [st2 Hst2]; [by eexists|]. exists st2. split; [done|].
  pose proof (v_cur _ _ _ _ _ HV1) as Hc1. pose proof (v_cur _ _ _ _ _ HV2) as Hc2. rewrite Hst1 in Hc1. rewrite Hst2 in Hc2.
  destruct Hc1 as [He1 Hv1], Hc2 as [He2 Hv2].
  eapply entry_advanced; [exact HV2|by apply entry_app|done|]. rewrite Hv1, Hv2, !length_app. lia.
Qed.

(** What every state that is ever written or read satisfies, deletions or not. *)
Definition fits (st : RunState) : Prop :=
  (0 ≤ rs_version st)%Z ∧ rs_pipeline st = pipeline ∧ run_le (new_run (node_info pipeline)) (from_run_state st).

Lemma initial_fits st : is_initial pipeline st → fits st.
Proof. intros (Hv & Hp & Hr). unfold fits. rewrite Hv, Hr. split; [done|]. split; [done|apply run_le_refl]. Qed.

Lemma save_fits log st v ans : (∀ st', known run_id pipeline log st' → fits st') →
  save_ok run_id pipeline log (ESave run_id st v ans) → fits st.
Proof.
  intros Hk (_ & Hp & [[Hinit _]|(Hv & base & Hbase & _ & Hle)]); [by apply initial_fits|].
  destruct (Hk base Hbase) as (_ & _ & Hb). split; [rewrite Hv; apply Z.mod_pos; done|]. split; [done|]. by etrans.
Qed.

Lemma fits_execute s0 g s : executes s0 g s → store_ok s0 → runs_of s0 !! run_id = None → (∀ a, disciplined (by_ a g)) →
  store_ok s ∧ (∀ st, known run_id pipeline g.*2 st → fits st) ∧ (∀ st, runs_of s !! run_id = Some st → fits st).
Proof.
  intros Hex Hok Hnone. induction Hex as [|g s a call Hex IH Hc|g s s' Hex IH Hok' Hruns]; intros Hd.
  - split; [done|]. split; [|by rewrite Hnone]. intros st [Hk|[[v Hk]|Hk]]; [by apply elem_of_nil in Hk..|]. by apply initial_fits.
  - destruct IH as (Hok1 & Hk1 & Hcur1).
    { intros b before e after Hb. apply (Hd b before e (after ++ by_ b [(a, (perform call s).1)])). by rewrite by_app, Hb, <-(assoc_L (++)). }
    destruct (perform_applies run_id call s Hok1 Hc) as [Hok2 Happ]. split; [done|]. specialize (Hd a (by_ a g) (perform call s).1 []).
    assert (writes (perform call s).1 = true → save_ok run_id pipeline g.*2 (perform call s).1) as Hsave.
    { intros Hw. apply (save_ok_by a), Hd; [|done]. rewrite by_app. f_equal. unfold by_. simpl. by rewrite decide_True. }
    rewrite fmap_app. cbn [fmap list_fmap snd]. clear Hd Hex. destruct (perform call s) as [e s']. cbn [fst snd] in *.
    assert (∀ st v ans, e = ESave run_id st v ans → fits st) as Hwritten.
    { intros st v ans ->. eapply save_fits; [exact Hk1|]. apply Hsave. cbn. by apply str_eqb_true. }
    split.
    + intros st [Hk|[->|[v ->]]]%known_snoc; [by apply Hk1| |by eapply Hwritten].
      destruct Happ as [_ Happ]. apply Hcur1. by rewrite <-Happ.
    + intros st Hst. destruct e as [r st' v ans|r ans|r ans|r server ttl ans|r server v ttl ans|r ans|ans|ans|ans];
        cbn [applies] in Happ; try (apply Hcur1; by rewrite <-Happ).
      * case_decide as Hr; [subst r|apply Hcur1; by rewrite <-Happ]. destruct Happ as [_ Happ].
        assert (runs_of s' !! run_id = runs_of s !! run_id ∨ runs_of s' !! run_id = Some st') as [E|E]
          by (destruct ans as [[]|]; naive_solver); [apply Hcur1; by rewrite <-E|]. simplify_eq. by eapply Hwritten.
      * destruct Happ as [E _]. apply Hcur1. by rewrite <-E.
      * case_decide; [destruct Happ as [E|E]; [congruence|]|rename Happ into E]; apply Hcur1; by rewrite <-E.
  - destruct (IH Hd) as (_ & Hk & Hcur). rewrite Hruns. done.
Qed.

(** C13: At every moment, through deletions and fresh starts too, the state that
    is stored for a run fits the run's pipeline, if whoever saves it is a
    coordinator of that pipeline and nothing was stored at first: its version is
    not negative, it names the pipeline of its coordinators, it has a status and
    a list of dependencies for exactly the pipeline's nodes, and the
    dependencies of a name are the [after] entries of the last node so named. *)
Theorem stored_state_fits s0 g s st :
  store_ok s0 → runs_of s0 !! run_id = None → executes s0 g s →
  (∀ a, participant (by_ a g)) → runs_of s !! run_id = Some st →
  (0 ≤ rs_version st)%Z ∧ rs_pipeline st = pipeline ∧
  (∀ n, is_Some (rs_statuses st !! n) ↔ n ∈ pn_name <$> pl_nodes pipeline) ∧
  (∀ n, is_Some (rs_dependencies st !! n) ↔ n ∈ pn_name <$> pl_nodes pipeline) ∧
  ∀ n deps, rs_dependencies st !! n = Some deps →
    ∃ before node after, pl_nodes pipeline = before ++ node :: after ∧ pn_name node = n ∧ (n ∉ pn_name <$> after) ∧
      ∀ d, d ∈ deps ↔ d ∈ pn_after node.
Proof.
  intros Hok Hnone Hex Hpart Hst.
  destruct (fits_execute s0 g s Hex Hok Hnone) as (_ & _ & Hfits); [intros a; apply participant_disciplined, Hpart|].
  destruct (Hfits st Hst) as (Hv & Hp & [Hdeps Hsts]). cbn [new_run from_run_state dependencies statuses] in *.
  assert (∀ n, n ∈ ni_name <$> node_info pipeline ↔ n ∈ pn_name <$> pl_nodes pipeline) as Hnames
    by (intros n; unfold node_info; by rewrite <-list_fmap_compose).
  split; [done|]. split; [done|]. split; [|split].
  - intros n. specialize (Hsts n). rewrite <-Hnames, <-(collect_map_lookup_is_Some ni_name (λ _, Pending)).
    destruct (collect_map _ _ _ !! n), (rs_statuses st !! n); split; intros []; try done; by eexists.
  - intros n. rewrite <-Hnames, <-(collect_map_lookup_is_Some ni_name (λ i, list_to_set (C := gset string) (ni_dependencies i))).
    rewrite <-Hdeps, lookup_fmap. by rewrite fmap_is_Some.
  - intros n deps Hn. assert ((list_to_set <$> rs_dependencies st : gmap string (gset string)) !! n = Some (list_to_set deps)) as Hset
      by (by rewrite lookup_fmap, Hn).
    rewrite Hdeps in Hset. apply collect_map_last in Hset as (b & i & a & Hl & Hi & Hlast & Hsame).
    unfold node_info in Hl. apply fmap_app_inv in Hl as (b' & r' & -> & Hr & Hl).
    symmetry in Hr. apply fmap_cons_inv in Hr as (node & a' & -> & -> & ->). exists b', node, a'. split; [done|]. split; [done|]. split.
    + rewrite <-list_fmap_compose in Hlast. exact Hlast.
    + intros d. rewrite <-(elem_of_list_to_set (C := gset string)), <-Hsame. by rewrite elem_of_list_to_set.
Qed.

Lemma executes_split s0 g1 g2 s : executes s0 (g1 ++ g2) s → ∃ s1, executes s0 g1 s1 ∧ executes s1 g2 s.
Proof.
  intros Hex. remember (g1 ++ g2) as g eqn:Hg. revert g2 Hg.
  induction Hex as [|g s a call Hex IH Hc|g s s' Hex IH Hok Hruns]; intros g2 Hg.
  - symmetry in Hg. apply app_nil in Hg as [-> ->]. exists s0. split; constructor.
  - destruct g2 as [|x g2 _] using rev_ind.
    + rewrite app_nil_r in Hg. subst g1. exists (perform call s).2. split; constructor; done.
    + rewrite (assoc_L (++)) in Hg. apply app_inj_tail in Hg as [-> <-]. destruct (IH g2 eq_refl) as (s1 & H1 & H2).
      exists s1. split; [done|]. by constructor.
  - destruct (IH g2 Hg) as (s1 & H1 & H2). exists s1. split; [done|]. by econstructor.
Qed.

Lemma executes_one s0 a e s : store_ok s0 → executes s0 [(a, e)] s → applies run_id (runs_of s0 !! run_id) e (runs_of s !! run_id).
Proof.
  intros Hok Hex. remember [(a, e)] as g eqn:Hg. induction Hex as [|g s b call Hex IH Hc|g s s' Hex IH Hok' Hruns]; [done| |].
  - destruct g as [|x g]; [|by destruct g]. injection Hg as -> <-.
    assert (store_ok s ∧ runs_of s = runs_of s0) as [Hok1 Hruns].
    { clear IH Hc. remember [] as g eqn:Hg. induction Hex as [|g s b' call' Hex IH Hc|g s s' Hex IH Hok' Hruns]; [done|by destruct g|].
      split; [done|]. rewrite Hruns. by apply IH. }
    rewrite <-Hruns. by apply perform_applies.
  - rewrite Hruns. by apply IH.
Qed.

Lemma executes_call_version s0 a st v ans s : store_ok s0 → executes s0 [(a, ESave run_id st v ans)] s → version_ok v.
Proof. intros Hok Hex. pose proof (executes_one _ _ _ _ Hok Hex) as Happ. cbn in Happ. rewrite decide_True in Happ by done. apply Happ. Qed.

(** C6: Let nothing be stored for a run at first, let nobody but coordinators of
    the run save it, and let nothing delete its state before the second of two
    accepted saves, by whatever coordinators. Then that second save writes a
    higher version than the first, unless both write the run's initial state:
    within one life of the stored state no two saves advance it from the same
    version. (After a deletion a fresh start begins at version zero again.) *)
Theorem one_writer_per_version s0 g1 a st v g2 b st' v' g3 s :
  store_ok s0 → runs_of s0 !! run_id = None →
  executes s0 (g1 ++ [(a, ESave run_id st v (Ok true))] ++ g2 ++ [(b, ESave run_id st' v' (Ok true))] ++ g3) s →
  (∀ a', participant (by_ a' (g1 ++ [(a, ESave run_id st v (Ok true))] ++ g2 ++ [(b, ESave run_id st' v' (Ok true))] ++ g3))) →
  Forall (λ x, deletes x.2 = false) (g1 ++ [(a, ESave run_id st v (Ok true))] ++ g2) →
  (rs_version st < rs_version st')%Z ∨ is_initial pipeline st ∧ is_initial pipeline st'.
Proof.
  intros Hok Hnone Hex Hpart Hdel.
  set (x := (a, ESave run_id st v (Ok true))) in *. set (y := (b, ESave run_id st' v' (Ok true))) in *.
  apply executes_split in Hex as (s1 & Hex1 & Hex). apply executes_split in Hex as (s2 & Hx & Hex).
  apply executes_split in Hex as (s3 & Hex3 & Hex). apply executes_split in Hex as (s4 & Hy & _).
  apply Forall_app in Hdel as [Hdel1 Hdel]. apply Forall_app in Hdel as [Hdelx Hdel2].
  assert (∀ h rest a', g1 ++ [x] ++ g2 ++ [y] ++ g3 = h ++ rest → disciplined (by_ a' h)) as Hdisc.
  { intros h rest a' Hh before e after Hb. apply (participant_disciplined _ (Hpart a') before e (after ++ by_ a' rest)).
    by rewrite Hh, by_app, Hb, <-(assoc_L (++)). }
  destruct (versions_execute [] s0 g1 s1 _ Hex1 Hok (versions_start s0 Hnone)) as (Hok1 & (k1 & HV1) & _);
    [intros a'; by apply (Hdisc _ ([x] ++ g2 ++ [y] ++ g3))|done|].
  destruct (versions_execute g1 s1 [x] s2 _ Hx Hok1 HV1) as (Hok2 & (k2 & HV2) & _);
    [intros a'; apply (Hdisc _ (g2 ++ [y] ++ g3)); by rewrite <-(assoc_L (++))|done|].
  destruct (versions_execute (g1 ++ [x]) s2 g2 s3 _ Hex3 Hok2 HV2) as (Hok3 & (k3 & HV3) & _);
    [intros a'; apply (Hdisc _ ([y] ++ g3)); by rewrite <-!(assoc_L (++))|done|].
  pose proof (executes_one _ _ _ _ Hok3 Hy) as Happ. subst x y. cbn [applies] in Happ. rewrite decide_True in Happ by done.
  destruct Happ as (_ & Hcas & _). symmetry in Hcas. pose proof (accepted_last _ _ _ _ _ _ HV3 Hcas) as Hv'.
  assert (known run_id pipeline (g1 ++ [(a, ESave run_id st v (Ok true))]).*2 st) as Hk.
  { right; left. exists v. rewrite fmap_app. apply elem_of_app. right. by left. }
  destruct (v_known _ _ _ _ _ HV2 st Hk) as (Hp & i & Hver & Hi). pose proof (lookup_lt_Some _ _ _ Hi) as Hlt.
  assert (save_ok run_id pipeline (by_ b (g1 ++ [(a, ESave run_id st v (Ok true))] ++ g2)) (ESave run_id st' v' (Ok true))) as (_ & Hp' & Hs).
  { apply (Hdisc (g1 ++ [(a, ESave run_id st v (Ok true))] ++ g2 ++ [(b, ESave run_id st' v' (Ok true))]) g3 b) with (after := []).
    - by rewrite <-!(assoc_L (++)).
    - rewrite !by_app, <-!(assoc_L (++)). do 3 f_equal. unfold by_. simpl. by rewrite decide_True.
    - by apply str_eqb_true. }
  rewrite !length_app in Hv'. rewrite !length_app in Hlt. simpl in Hv', Hlt.
  destruct Hs as [[Hinit ->]|(Hnext & _)].
  - right. split; [|done]. destruct k1, k2; simpl in *; try lia. assert (i = 0) as -> by lia. simplify_eq/=.
    split; [lia|]. split; [done|]. congruence.
  - left. pose proof (executes_call_version _ _ _ _ _ _ Hok3 Hy) as Hvok.
    rewrite Hnext, Hver. unfold u64_add, u64_max. unfold version_ok in Hvok. rewrite Z.mod_small; lia.
Qed.
End system.

(** ** Two coordinators of one run *)
Module Example.
Import InMemory.

#[local] Existing Instances canonical_order log_dispatcher.
#[local] Instance libraries : Libraries := {| node_to_json n := Ok (ni_name n); from_timestamp s _ := Some s |}.

Definition pipeline : Pipeline := mkPipeline "ci" None (Some false) None ∅ (mkSecrets [] [])
  [mkNode "a" None None None None [] ∅ (mkSecrets [] []) [] false None None None ∅].
Definition config : AppConfig := with_limits 3600 600 120 false 30.
Definition context : RunContext := mkRunContext "acme" "app" "abc" None None None None "push" "yaml" 0 None None None.
Definition tick (e : LoopEvent) : Tick (S:=Oracle) (D:=LogDispatcher) (H:=NoOpRunHistory) := mkTick id id id 1000 e.

(** The first coordinator creates the run and dispatches its node; when it
    hears that the node failed, its save comes too late. *)
Definition answers_a : Oracle := mkOracle (λ n, Ok (n <? 4)%nat) (λ _, Ok None) (λ _, Ok ()) (λ _, Ok (Some 1%Z)) (λ _, Ok []) [].
Definition life_a : list StoreEvent := life "r" pipeline "s1" config false context 5000 answers_a (mkLogDispatcher []) NoOp true
  [tick (FromBackplane (Some (NodeCompleted "a" false)))].

(** The state that it leaves. *)
Definition left_behind : RunState := mkRunState 1 {["a" := Running]} {["a" := []]} pipeline.

(** The second coordinator takes the expired lease and sees the node succeed. *)
Definition answers_b : Oracle := mkOracle (λ _, Ok true) (λ _, Ok (Some left_behind)) (λ _, Ok ()) (λ _, Ok (Some 2%Z)) (λ _, Ok []) [].
Definition life_b : list StoreEvent := life "r" pipeline "s2" config false context 9000 answers_b (mkLogDispatcher []) NoOp true
  [tick (FromBackplane (Some (NodeCompleted "a" true)))].

Definition call_of (e : StoreEvent) : StoreCall :=
  match e with
  | ESave r st v _ => CallSave r st v | ELoad r _ => CallLoad r | EDelete r _ => CallDelete r
  | EAcquire r server ttl _ => CallAcquire r server ttl | ERenew r server v ttl _ => CallRenew r server v ttl
  | ERelease r _ => CallRelease r | EOrphans _ => CallOrphans | ETerminal _ => CallTerminal | EPing _ => CallPing
  end.
Definition calls_of (a : nat) (l : list StoreEvent) : list (nat * StoreCall) := (λ e, (a, call_of e)) <$> l.

Definition calls1 : list (nat * StoreCall) := calls_of 0 (take 4 life_a).
(** Participant 2 is the page that shows the run. *)
Definition calls2 : list (nat * StoreCall) :=
  calls_of 1 (take 2 life_b) ++ [(2, CallLoad "r")] ++ calls_of 1 (take 1 (drop 2 life_b)) ++ calls_of 0 (take 1 (drop 4 life_a)).

Definition first_part := perform_all calls1 InMemory.new.
(** The lease of the first coordinator expires. *)
Definition expired : InMemoryStateStore := mkStore (runs first_part.2) ∅ (lease_counter first_part.2).
Definition second_part := perform_all calls2 expired.
Definition all_events : list (nat * StoreEvent) := first_part.1 ++ second_part.1.

Lemma events_of_a : by_ 0 all_events = take 5 life_a.
Proof. vm_compute. reflexivity. Qed.
Lemma events_of_b : by_ 1 all_events = take 3 life_b.
Proof. vm_compute. reflexivity. Qed.
Lemma participants : ∀ a, participant "r" pipeline (D := LogDispatcher) (H := NoOpRunHistory) (by_ a all_events).
Proof.
  intros [|[|[|a]]].
  - rewrite events_of_a. apply (coordinator_of _ _ _ canonical_order "s1" config false context 5000 answers_a (mkLogDispatcher []) NoOp true
      [tick (FromBackplane (Some (NodeCompleted "a" false)))]); [reflexivity|repeat constructor|exact (prefix_take life_a 5)].
  - rewrite events_of_b. apply (coordinator_of _ _ _ canonical_order "s2" config false context 9000 answers_b (mkLogDispatcher []) NoOp true
      [tick (FromBackplane (Some (NodeCompleted "a" true)))]); [reflexivity|repeat constructor|exact (prefix_take life_b 3)].
  - apply observer. vm_compute. repeat constructor.
  - apply observer. vm_compute. constructor.
Qed.
Lemma nothing_deleted : Forall (λ x : nat * StoreEvent, deletes "r" x.2 = false) all_events.
Proof. vm_compute. repeat constructor. Qed.
Lemma first_executes : executes InMemory.new first_part.1 first_part.2.
Proof. apply executes_perform_all. vm_compute. reflexivity. Qed.
Lemma second_executes : executes first_part.2 second_part.1 second_part.2.
Proof.
  assert (executes first_part.2 [] expired) as Hexpired by exact (executes_time first_part.2 [] first_part.2 expired (executes_none _) I eq_refl).
  assert (executes expired second_part.1 second_part.2) as Hrest by (apply executes_perform_all; vm_compute; reflexivity).
  exact (executes_trans _ [] expired second_part.1 second_part.2 Hexpired Hrest).
Qed.
Lemma all_execute : executes InMemory.new all_events second_part.2.
Proof. exact (executes_trans _ _ _ _ _ first_executes second_executes). Qed.

(** The first coordinator's late save is rejected; the node stays successful. *)
Lemma stored_run_only_advances_witness :
  ∃ st2, runs second_part.2 !! "r" = Some st2 ∧ advanced left_behind st2 ∧ rs_statuses st2 !! "a" = Some Success.
Proof.
  destruct (stored_run_only_advances "r" pipeline (D := LogDispatcher) (H := NoOpRunHistory) InMemory.new first_part.1 first_part.2
    second_part.1 second_part.2 left_behind) as (st2 & Hst2 & Hadv).
  - exact I.
  - reflexivity.
  - exact first_executes.
  - exact second_executes.
  - exact participants.
  - exact nothing_deleted.
  - vm_compute. reflexivity.
  - exists st2. split; [exact Hst2|]. split; [exact Hadv|].
    assert (rs_statuses <$> (runs second_part.2 !! "r") = Some {["a" := Success]}) as Hs by (vm_compute; reflexivity).
    change (runs_of second_part.2) with (runs second_part.2) in Hst2. rewrite Hst2 in Hs. injection Hs as ->. reflexivity.
Defined.

Lemma stored_state_fits_witness :
  ∃ st, runs second_part.2 !! "r" = Some st ∧ (0 ≤ rs_version st)%Z ∧ rs_pipeline st = pipeline ∧
    (∀ n, is_Some (rs_statuses st !! n) ↔ n ∈ ["a"]).
Proof.
  destruct (runs second_part.2 !! "r") as [st|] eqn:Hst; [|vm_compute in Hst; discriminate Hst].
  exists st. split; [reflexivity|].
  destruct (stored_state_fits "r" pipeline (D := LogDispatcher) (H := NoOpRunHistory) InMemory.new all_events second_part.2 st)
    as (Hv & Hp & Hn & _); [exact I|reflexivity|exact all_execute|exact participants|exact Hst|].
  split; [exact Hv|]. split; [exact Hp|exact Hn].
Defined.

(** The save of the running node, and later that of its success. *)
Lemma one_writer_per_version_witness :
  ∃ g1 a st v g2 b st' v' g3,
    all_events = g1 ++ [(a, ESave "r" st v (Ok true))] ++ g2 ++ [(b, ESave "r" st' v' (Ok true))] ++ g3 ∧
    a ≠ b ∧ ((rs_version st < rs_version st')%Z ∨ is_initial pipeline st ∧ is_initial pipeline st').
Proof.
  exists (take 3 all_events), 0, left_behind, 0%Z, (take 3 (drop 4 all_events)), 1,
    (mkRunState 2 {["a" := Success]} {["a" := []]} pipeline), 1%Z, (drop 8 all_events).
  assert (all_events = take 3 all_events ++ [(0, ESave "r" left_behind 0 (Ok true))] ++ take 3 (drop 4 all_events) ++
    [(1, ESave "r" (mkRunState 2 {["a" := Success]} {["a" := []]} pipeline) 1 (Ok true))] ++ drop 8 all_events) as Heq
    by (vm_compute; reflexivity).
  split; [exact Heq|]. split; [lia|].
  apply (one_writer_per_version "r" pipeline (D := LogDispatcher) (H := NoOpRunHistory) InMemory.new (take 3 all_events) 0 left_behind 0
    (take 3 (drop 4 all_events)) 1 (mkRunState 2 {["a" := Success]} {["a" := []]} pipeline) 1 (drop 8 all_events) second_part.2);
    [exact I|reflexivity|rewrite <-Heq; exact all_execute|rewrite <-Heq; exact participants|].
  vm_compute. repeat constructor.
Defined.
End Example.
