(* ===== verification/EndToEnd.v ===== *)
(** * From a node's fate to its status

    How the components work together to learn what became of a node. The wrapper
    in a node's pod writes a status object to S3 and pokes the server; the server
    reads the object and publishes a completion on the backplane, where the
    coordinator of the run takes it up; if the poke is lost, the coordinator finds
    the same object when it reconciles. A node whose pod disappeared while its run
    had no coordinator is found by the watcher that the next coordinator seeds.
    This file composes the server, the in-memory backplane, the pod watcher and the
    coordinator along these paths. *)

From S2P Require Import Prelude AppConfig Json Http Tenancy Auth Pipeline StateStore Run SourceManager PodWatcher RunHistory Dispatcher Backplane KubeDispatcher Coordinator CoordinatorFacts CoordinatorTheorems GithubProvider GithubTheorems Server.

(** ** The coordinator's end *)

Section coordinator.
Context {S D H : Type} `{SS : StateStore S, DD : Dispatcher D, RH : RunHistory H, HO : HashOrder, LB : Libraries}.
Abbreviation Co := (Coordinator S D H).
Implicit Types (c : Co) (n : string).

Definition reported (success : bool) : NodeStatus := if success then Success else Failed.
Definition unfinished n c : Prop := statuses (run c) !! n = Some Pending ∨ statuses (run c) !! n = Some Running.

Lemma le_terminal c c' n s : coord_le c c' → statuses (run c) !! n = Some s → is_terminal s = true → statuses (run c') !! n = Some s.
Proof. intros [_ Hle _]. by apply run_le_terminal. Qed.

(** A completion of an unfinished node sets its status, whatever follows. *)
Lemma completed_status n success c : unfinished n c →
  statuses (run (handle_node_completed n success c).2) !! n = Some (reported success).
Proof.
  intros Hn. assert (is_terminal (reported success) = true) as Hterm by by destruct success.
  unfold handle_node_completed. destruct success; rewrite bind_eq.
  - eapply le_terminal; [apply (settles_completed_rest true n)| |done].
    unfold on_run, mark_success. by destruct Hn as [-> | ->]; cbn; rewrite lookup_insert_eq.
  - eapply le_terminal; [apply (settles_completed_rest false n)| |done].
    unfold on_run, mark_failed. by destruct Hn as [-> | ->]; cbn; rewrite lookup_insert_eq.
Qed.

Lemma stop_or_complete_keeps n s (m : M Co bool) c :
  statuses (run (m c).2) !! n = Some s → is_terminal s = true → statuses (run (stop_or_complete m c).2) !! n = Some s.
Proof.
  intros Hs Ht. unfold stop_or_complete. rewrite bind_eq. destruct (m c) as [[] c1]; cbn [fst snd] in *; [|done].
  rewrite bind_eq. pose proof (abort_run_spec RsFailure c1) as Ha. destruct (abort_run RsFailure c1) as [summary c2].
  destruct Ha as [Hle _ _ _]. by eapply le_terminal.
Qed.

Lemma event_completes n success c : unfinished n c →
  statuses (run (loop_step (FromBackplane (Some (NodeCompleted n success))) c).2) !! n = Some (reported success).
Proof.
  intros Hn. cbn [loop_step]. apply stop_or_complete_keeps; [|by destruct success]. rewrite bind_eq. by apply completed_status.
Qed.

(** A completed outcome found in S3 does the same. *)
Lemma outcome_completes n success started finished c : unfinished n c →
  statuses (run (fold_completion (n, Completed success started finished) c).2) !! n = Some (reported success).
Proof. intros Hn. cbn [fold_completion]. rewrite bind_eq. by apply completed_status. Qed.

(** ** Pods that were lost while no coordinator ran *)

(** A signal about a node's deletion fails it if it is unfinished, and changes
    nothing about it otherwise. *)
Lemma deletion_fails n s c : statuses (run c) !! n = Some s →
  statuses (run (loop_step (Internal (NodeInfraFailed n PodDeletedUnexpectedly)) c).2) !! n =
    Some (if is_terminal s then s else Failed).
Proof.
  intros Hs. cbn [loop_step]. apply stop_or_complete_keeps; [|by destruct s].
  pose proof (failure_stops_iff n PodDeletedUnexpectedly c (handle_node_infra_failed n PodDeletedUnexpectedly)) as Hf.
  rewrite Hs in Hf. specialize (Hf ltac:(set_solver)). destruct s; cbn [is_terminal]; [tauto|tauto|by rewrite Hf..].
Qed.

(** The end of the first listing reports, as messages to the coordinator, the
    seeded nodes without a pod. *)
Lemma first_listing_reports seed pre sent s new s' n :
  watcher_loop pre (seeded seed) = ((sent, true), s) → watcher_step (event InitDone) s = (Some new, s') →
  event InitDone ∉ pre → (∀ sig, sig ∈ sent → signal_pod_uid sig ≠ REHYDRATION_SENTINEL_UID) →
  (NodeInfraFailed n PodDeletedUnexpectedly ∈ relay_signal <$> new ↔ n ∈ seed ∧ ¬ listed n pre).
Proof.
  intros Hrun Hstep Hfirst Huids. rewrite <-(presence_diff_complete _ _ _ _ _ _ n Hrun Hstep Hfirst Huids), list_elem_of_fmap.
  split; [|by exists (deletion_signal n REHYDRATION_SENTINEL_UID)]. intros (sig & Heq & Hsig).
  enough (∃ m, sig = deletion_signal m REHYDRATION_SENTINEL_UID) as [m ->] by (cbn in Heq; by simplify_eq).
  cbn in Hstep. unfold emit_presence_diff, mbind, state_bind, take_missing_after_init in Hstep.
  destruct (presence_diff_emitted s); [cbn in Hstep; simplify_eq; set_solver|].
  match type of Hstep with context [emit_each ?l ?s1] =>
    pose proof (emit_each_spec l s1 (NoDup_hash_keys _)) as He; destruct (emit_each l s1) as [out s2] end.
  simplify_eq. destruct He as (_ & _ & He). apply He in Hsig as (m & _ & -> & _). by exists m.
Qed.

(** What a started coordinator gives the watcher of its run. *)
Lemma start_seeds_watcher run_id server pipeline config reporter rc now store (disp : D) history c store' disp' history' :
  start_coordinator run_id server pipeline config reporter rc now store disp history = (Some c, (store', disp', history')) →
  ∃ d, start_pod_watcher run_id (list_to_set (running_nodes (run c))) d = (watcher_open c, disp').
Proof.
  unfold start_coordinator. destruct (try_acquire_lease run_id server 30 store) as [[[v|]|e] s1]; [|done..].
  destruct (record_pipeline_started _ history) as [u h1]. destruct (initialize_run_state _ _ _ s1) as [[[r version] rehydrated] s2].
  destruct (start_pod_watcher run_id _ disp) as [watched d] eqn:Hw. intros [= <- <- <- <-]. by exists disp.
Qed.

(** C25: Nodes whose pods were lost while their run had no coordinator are found. A
    coordinator that starts seeds the watcher with the nodes that its run shows as
    running. The end of the first listing then sends it a deletion for exactly
    those of them that no listed pod belongs to; and whatever has happened to the
    run by the time it takes the message up, the node is failed if it was still
    unfinished, and keeps its status if it was not. *)
Theorem lost_pods_fail_nodes run_id server pipeline config reporter rc now store (disp : D) history c store' disp' history' :
  start_coordinator run_id server pipeline config reporter rc now store disp history = (Some c, (store', disp', history')) →
  let seed := list_to_set (running_nodes (run c)) in
  (∃ d, start_pod_watcher run_id seed d = (watcher_open c, disp')) ∧
  ∀ pre sent s new s' n,
    watcher_loop pre (seeded seed) = ((sent, true), s) → watcher_step (event InitDone) s = (Some new, s') →
    event InitDone ∉ pre → (∀ sig, sig ∈ sent → signal_pod_uid sig ≠ REHYDRATION_SENTINEL_UID) →
    (NodeInfraFailed n PodDeletedUnexpectedly ∈ relay_signal <$> new ↔ statuses (run c) !! n = Some Running ∧ ¬ listed n pre) ∧
    ∀ c1 st, statuses (run c1) !! n = Some st →
      statuses (run (loop_step (Internal (NodeInfraFailed n PodDeletedUnexpectedly)) c1).2) !! n =
        Some (if is_terminal st then st else Failed).
Proof.
  intros Hstart seed. split; [by eapply start_seeds_watcher|]. intros pre sent s new s' n Hrun Hstep Hfirst Huids. split.
  - rewrite (first_listing_reports _ _ _ _ _ _ n Hrun Hstep Hfirst Huids). unfold seed. by rewrite elem_of_list_to_set, elem_of_running.
  - intros c1 st. apply deletion_fails.
Qed.
End coordinator.

(** ** The path *)

Section path.
Import InMemoryBus BusFacts.
Context {S D H G B C R : Type} `{SS : StateStore S, DD : Dispatcher D, RH : RunHistory H, GH : GithubApi G, S3 : S3Client B, BS : BroadcastSpec C R}.
Context `{HO : HashOrder, LB : Libraries}.
Variable from_slice : list ascii → result string NodeOutcome.
Abbreviation W := (Server S D H G B Client (InMemoryBackplane (C := C))).

(** A subscriber that is not behind by the capacity reads what is published. *)
Lemma published_is_drained run_id receiver e (b : InMemoryBackplane (C := C)) :
  let unread := pending receiver (sender_of run_id b) in
  bus_ok b → receives_from receiver (sender_of run_id b) → length unread < 128 →
  drain (Datatypes.S (length unread)) (run_id, receiver) (bus_op (Publish run_id e) b) = unread ++ [e].
Proof.
  intros unread Hok Hfrom Hlen. destruct (bus_op_spec (Publish run_id e) b Hok) as [Hok' Hp].
  destruct (Hp run_id receiver Hfrom) as [Hfrom' Hpend]. rewrite (drain_spec _ run_id receiver _ Hok' Hfrom'), Hpend.
  unfold events_of. cbn [omap list_omap]. rewrite decide_True by done. fold unread. rewrite length_app. cbn [length].
  replace (length unread + 1 - 128) with 0 by lia. rewrite drop_0, firstn_all2; [done|]. rewrite length_app. cbn. lia.
Qed.

(** C24: A poke that is answered with success reaches the run's coordinator: the
    status object says that the node finished, a subscriber of the run that is
    not behind by 128 events reads, after what it had not read yet, the
    completion with the object's success flag, and the coordinator that takes it
    up for an unfinished node gives it that status for good, the same status as
    when it finds the object itself. *)
Theorem poke_completes_node run_id n (w : W) receiver :
  let unread := pending receiver (sender_of run_id (sv_backplane w)) in
  bus_ok (sv_backplane w) → receives_from receiver (sender_of run_id (sv_backplane w)) → length unread < 128 →
  a_status (handle_node_poke from_slice run_id n w).1 = OK →
  ∃ outcome success started finished,
    (get_node_status from_slice run_id n (up_client (pw_bucket (sv_provider w)))).1 = Ok outcome ∧
    reconcile_from outcome = Completed success started finished ∧
    drain (Datatypes.S (length unread)) (run_id, receiver) (sv_backplane (handle_node_poke from_slice run_id n w).2) =
      unread ++ [NodeCompleted n success] ∧
    ∀ c : Coordinator S D H, unfinished n c →
      statuses (run (loop_step (FromBackplane (Some (NodeCompleted n success))) c).2) !! n = Some (reported success) ∧
      statuses (run (fold_completion (n, reconcile_from outcome) c).2) !! n = Some (reported success).
Proof.
  intros unread Hok Hfrom Hlen. unfold handle_node_poke. rewrite bind_eq. unfold ask_bucket, on_provider, on_bucket.
  destruct (get_node_status _ _ _ _) as [[outcome|[]] b] eqn:Hstatus; cbn; try done.
  destruct outcome as [[success|] started [finished|]]; cbn; [|by destruct started..].
  rewrite bind_eq. unfold ask_backplane. cbn [publish_node_completed in_memory_backplane bus_publish_event]. intros _.
  exists (mkOutcome (Some success) started (Some finished)), success, started, finished.
  split; [done|]. split; [done|]. split.
  - exact (published_is_drained run_id receiver (NodeCompleted n success) (sv_backplane w) Hok Hfrom Hlen).
  - intros c Hn. split; [by apply event_completes|exact (outcome_completes n success started finished c Hn)].
Qed.
End path.

(** ** Witnesses *)

Module Example.
Import InMemory InMemoryBus BusFacts.
#[local] Existing Instances canonical_order KubeDispatcher.Example.bucket_client GithubTheorems.Example.github
  Backplane.Example.log_channel Backplane.Example.log_channel_spec CoordinatorTheorems.Example.cluster_dispatcher
  CoordinatorTheorems.Example.libraries.

Abbreviation Cluster := CoordinatorTheorems.Example.Cluster.
Abbreviation Channel := (nat * list BackplaneEvent)%type.
Abbreviation W :=
  (Server InMemoryStateStore Cluster NoOpRunHistory nat KubeDispatcher.Example.Bucket (Client (G:=nat)) (InMemoryBackplane (C := Channel))).

Definition status_of (_ : list ascii) : result string NodeOutcome := Ok (mkOutcome (Some true) (Some 6000%Z) (Some 7000%Z)).
(** A coordinator has subscribed to the run and has one event to read. *)
Definition bus : InMemoryBackplane (C := Channel) :=
  bus_op (Publish "r" (NodeCompleted "a" true)) (bus_op (Join "r") InMemoryBus.new).
Definition world : W :=
  mkServer (mkProvider (mkStore ∅ ∅ 0) (CoordinatorTheorems.Example.mkCluster ∅ ∅) NoOp 0
    (mkUpload {["runs/r/nodes/b/status.json" := []]} [] []) 0 [] []) bus.

Lemma poke_completes_node_witness :
  (handle_node_poke status_of "r" "b" world).1 = mkAnswer OK NoContent ∧
  ∃ success, drain 2 ("r", 0) (sv_backplane (handle_node_poke status_of "r" "b" world).2) =
    [NodeCompleted "a" true; NodeCompleted "b" success] ∧
  statuses (run (loop_step (FromBackplane (Some (NodeCompleted "b" success)))
    (CoordinatorTheorems.Example.coord Running Running 4 InMemory.new)).2) !! "b" = Some (reported success).
Proof.
  split; [vm_compute; reflexivity|].
  destruct (poke_completes_node (S := InMemoryStateStore) (D := Cluster) (H := NoOpRunHistory) status_of "r" "b" world 0)
    as (outcome & success & started & finished & _ & _ & Hdrain & Hco).
  - apply bus_op_spec, bus_op_spec. intros r. reflexivity.
  - vm_compute. repeat constructor.
  - vm_compute. repeat constructor.
  - vm_compute. reflexivity.
  - exists success. split; [exact Hdrain|]. apply Hco. right. vm_compute. reflexivity.
Defined.

(** A crashed server left [b] and [c] running; only [c] still has a pod. *)
Definition stored : InMemoryStateStore := CoordinatorTheorems.Example.store_with (CoordinatorTheorems.Example.saved Running Running).
Definition resumed := CoordinatorTheorems.Example.start "s2" stored CoordinatorTheorems.Example.cluster.
Definition listing : list WatcherInput := [event (InitApply (running_pod "c" "u1"))].

Lemma lost_pods_fail_nodes_witness :
  match resumed.1 with
  | Some c =>
      let s := (watcher_loop listing (seeded (list_to_set (running_nodes (run c))))).2 in
      let new := default [] (watcher_step (event InitDone) s).1 in
      relay_signal <$> new = [NodeInfraFailed "b" PodDeletedUnexpectedly] ∧
      statuses (run (loop_step (Internal (NodeInfraFailed "b" PodDeletedUnexpectedly)) c).2) !! "b" = Some Failed
  | None => False
  end.
Proof.
  assert (match resumed.1 with
    | Some c => let r := watcher_loop listing (seeded (list_to_set (running_nodes (run c)))) in
        r.1 = ([PodRunning "c" "u1"], true) ∧ (watcher_step (event InitDone) r.2).1 = Some [deletion_signal "b" REHYDRATION_SENTINEL_UID] ∧
        statuses (run c) !! "b" = Some Running
    | None => False end) as Hex by (vm_compute; split_and!; reflexivity).
  unfold resumed in *. destruct (CoordinatorTheorems.Example.start "s2" stored CoordinatorTheorems.Example.cluster) as [[c|] [[s2 d2] h2]] eqn:Hs;
    [|exact Hex]. cbn [fst] in *. unfold CoordinatorTheorems.Example.start in Hs.
  pose proof (lost_pods_fail_nodes _ _ _ _ _ _ _ _ _ _ _ _ _ _ Hs) as [_ Hall].
  destruct (watcher_loop listing _) as [sent st] eqn:Hl. cbv zeta in *. cbn [fst snd] in *. destruct Hex as (-> & Hnew & Hb).
  destruct (watcher_step (event InitDone) st) as [new st'] eqn:Hw. cbn [fst] in *. subst new. cbn [default]. split; [reflexivity|].
  destruct (Hall listing [PodRunning "c" "u1"] st _ st' "b" Hl Hw) as [_ Hf].
  - unfold listing, event. intros Hin%list_elem_of_singleton. discriminate Hin.
  - intros sig ->%list_elem_of_singleton. discriminate.
  - exact (Hf c Running Hb).
Defined.
End Example.
