(* ===== verification/Encoding.v ===== *)
(** * What is written as JSON

    The encodings that [derive(Serialize, Deserialize)] generates for the values
    that leave the process and come back: run states in Redis
    ([state_store/src/lib.rs], with the pipeline document of
    [pipelines/src/pipeline.rs] in them), events on RabbitMQ
    ([backplane/src/lib.rs]), the status objects of the wrapper
    ([coordinator/src/source_manager.rs]), and the node definitions of the
    history. The attributes of the fields are those of the source. Printing a
    document and parsing its text are serde_json's ([JsonText]).

    A derived reader takes a structure from an object, whose unknown fields it
    ignores, or from an array of its fields in order; it takes a variant of an
    enum by its name. *)

From Stdlib Require Import DecimalString DecimalN.
From S2P Require Import Prelude AppConfig Json Pipeline RedisStore StateStore Run SourceManager PodWatcher RunHistory Dispatcher Backplane Coordinator.

(** ** The traits *)

Class Serialize (A : Type) : Type := to_json : A → result string Json.
Class Deserialize (A : Type) : Type := of_json : Json → result string A.

(** What is written is read back, and is never [null]. *)
Class SerdeSpec (A : Type) `{Serialize A, Deserialize A} : Prop := {
  round_trip a j : to_json a = Ok j → of_json j = Ok a;
  not_null a : to_json a ≠ Ok JNull;
}.

(** ** Primitive types *)

#[export] Instance string_to_json : Serialize string := λ s, mret (JString s).
#[export] Instance string_of_json : Deserialize string := λ j,
  match j with JString s => Ok s | _ => Err "invalid type: expected a string" end.
#[export] Instance bool_to_json : Serialize bool := λ b, mret (JBool b).
#[export] Instance bool_of_json : Deserialize bool := λ j,
  match j with JBool b => Ok b | _ => Err "invalid type: expected a boolean" end.

(** An unsigned integer of at most [max]; the model's integers outside that
    range are no values of the type. A number with a sign, a fraction or an
    exponent is refused. *)
Definition digits_of (z : Z) : string := NilZero.string_of_uint (N.to_uint (Z.to_N z)).
Definition value_of (text : string) : option Z := Z.of_N ∘ N.of_uint <$> NilZero.uint_of_string text.
Definition unsigned_to_json (max z : Z) : result string Json :=
  if bool_decide (0 ≤ z ≤ max)%Z then Ok (JNumber (digits_of z)) else Err "number out of range".
Definition unsigned_of_json (max : Z) (j : Json) : result string Z :=
  match j with
  | JNumber text =>
      match value_of text with
      | Some z => if (z <=? max)%Z then Ok z else Err "invalid value: number out of range"
      | None => Err "invalid type: expected an unsigned integer"
      end
  | _ => Err "invalid type: expected an unsigned integer"
  end.
Definition u128_max : Z := 340282366920938463463374607431768211455.
#[export] Instance u64_to_json : Serialize Z := unsigned_to_json u64_max.
#[export] Instance u64_of_json : Deserialize Z := unsigned_of_json u64_max.

(** [Option<T>]: [None] is [null]. *)
#[export] Instance option_to_json {A} `{Serialize A} : Serialize (option A) := λ o,
  match o with Some a => to_json a | None => mret JNull end.
Definition nullable {A} (read : Json → result string A) (j : Json) : result string (option A) :=
  match j with JNull => Ok None | _ => a ← read j; mret (Some a) end.

#[export] Instance list_to_json {A} `{Serialize A} : Serialize (list A) := λ l, items ← mapM to_json l; mret (JArray items).
#[export] Instance list_of_json {A} `{Deserialize A} : Deserialize (list A) := λ j,
  match j with JArray items => mapM of_json items | _ => Err "invalid type: expected a sequence" end.

(** [HashMap<String, T>]: written in the map's order; of two entries under one
    name the later one is kept. *)
#[export] Instance map_to_json {A} `{HashOrder, Serialize A} : Serialize (gmap string A) := λ m,
  entries ← mapM (λ '(k, a), j ← to_json a; mret (k, j)) (hash_iter m); mret (JObject entries).
#[export] Instance map_of_json {A} `{Deserialize A} : Deserialize (gmap string A) := λ j,
  match j with
  | JObject fields => entries ← mapM (λ '(k, j), a ← of_json j; mret (k, a)) fields; mret (collect_map fst snd entries)
  | _ => Err "invalid type: expected a map"
  end.

(** ** Structures *)

(** A field that is skipped is [None]. *)
Definition present (fields : list (string * option Json)) : list (string * Json) :=
  omap (λ '(name, value), (name,.) <$> value) fields.
Definition object (fields : list (string * option Json)) : Json := JObject (present fields).

Definition always {A} `{Serialize A} (a : A) : result string (option Json) := j ← to_json a; mret (Some j).
(** [skip_serializing_if] *)
Definition unless {A} `{Serialize A} (skip : bool) (a : A) : result string (option Json) :=
  if skip then mret None else always a.
(** [skip_serializing_if = "Option::is_none"] *)
Definition when_some {A} `{Serialize A} (o : option A) : result string (option Json) :=
  match o with Some a => always a | None => mret None end.

Inductive Fields := ByName (fields : list (string * Json)) | InOrder (fields : list (string * Json)).
Definition field (name : string) (fields : Fields) : option Json :=
  match fields with ByName l | InOrder l => json_assoc name l end.

Definition struct_fields (names : list string) (j : Json) : result string Fields :=
  match j with
  | JObject fields =>
      if bool_decide (NoDup (List.filter (λ k, bool_decide (k ∈ names)) fields.*1)) then Ok (ByName fields)
      else Err "duplicate field"
  | JArray items => if (length names <? length items)%nat then Err "invalid length" else Ok (InOrder (zip names items))
  | _ => Err "invalid type: expected a structure"
  end.

Definition required {A} `{Deserialize A} (name : string) (fields : Fields) : result string A :=
  match field name fields with Some j => of_json j | None => Err ("missing field `" +:+ name +:+ "`") end.
(** [#[serde(default)]] and [#[serde(default, deserialize_with = ..)]] *)
Definition defaulted_with {A} (read : Json → result string A) (d : A) (name : string) (fields : Fields) : result string A :=
  match field name fields with Some j => read j | None => Ok d end.
Definition defaulted {A} `{Deserialize A} : A → string → Fields → result string A := defaulted_with of_json.
Definition defaulted_option {A} `{Deserialize A} : string → Fields → result string (option A) :=
  defaulted_with (nullable of_json) None.
(** An [Option] without an attribute may be missing in an object only. *)
Definition optional_with {A} (read : Json → result string A) (name : string) (fields : Fields) : result string (option A) :=
  match field name fields with
  | Some j => nullable read j
  | None => match fields with ByName _ => Ok None | InOrder _ => Err "invalid length" end
  end.
Definition optional {A} `{Deserialize A} : string → Fields → result string (option A) := optional_with of_json.

(** ** Enums *)

(** The name of a variant and its contents. *)
Definition variant (j : Json) : result string (string * option Json) :=
  match j with
  | JString name => Ok (name, None)
  | JObject [(name, contents)] => Ok (name, Some contents)
  | _ => Err "invalid type: expected an enum"
  end.
Definition unit_contents (contents : option Json) : bool :=
  match contents with None | Some JNull => true | Some _ => false end.
(** An enum of names only. *)
Definition unit_variant {A} (names : list (string * A)) (j : Json) : result string A :=
  v ← variant j;
  match List.find (λ p, str_eqb p.1 v.1) names with
  | Some (_, a) => if unit_contents v.2 then Ok a else Err "invalid type: expected a unit variant"
  | None => Err "unknown variant"
  end.

Definition status_name (s : NodeStatus) : string :=
  match s with Pending => "Pending" | Running => "Running" | Success => "Success" | Failed => "Failed" end.
#[export] Instance node_status_to_json : Serialize NodeStatus := λ s, mret (JString (status_name s)).
#[export] Instance node_status_of_json : Deserialize NodeStatus :=
  unit_variant ((λ s, (status_name s, s)) <$> [Pending; Running; Success; Failed]).

(** ** The pipeline document *)

#[export] Instance refs_to_json : Serialize Refs := λ r,
  branches ← when_some (branches r);
  tags ← when_some (tags r);
  mret (object [("branches", branches); ("tags", tags)]).
#[export] Instance refs_of_json : Deserialize Refs := λ j,
  fields ← struct_fields ["branches"; "tags"] j;
  let filter j := value ← nullable of_json j; mret (deserialize_ref_filter value) in
  branches ← defaulted_with filter None "branches" fields;
  tags ← defaulted_with filter None "tags" fields;
  mret (mkRefs branches tags).

#[export] Instance triggers_to_json : Serialize PipelineTriggers := λ t,
  push ← when_some (trig_push t);
  pull_request ← when_some (trig_pull_request t);
  schedule ← when_some (trig_schedule t);
  mret (object [("push", push); ("pull_request", pull_request); ("schedule", schedule)]).
#[export] Instance triggers_of_json : Deserialize PipelineTriggers := λ j,
  fields ← struct_fields ["push"; "pull_request"; "schedule"] j;
  let trigger j := value ← nullable of_json j; mret (deserialize_trigger value) in
  push ← defaulted_with trigger None "push" fields;
  pull_request ← defaulted_with trigger None "pull_request" fields;
  schedule ← optional "schedule" fields;
  mret (mkTriggers push pull_request schedule).

(** The untagged enums: the first variant that fits. *)
#[export] Instance step_to_json : Serialize PipelineStep := λ s,
  match s with
  | Inline cmd => to_json cmd
  | Named name run => name ← always name; run ← always run; mret (object [("name", name); ("run", run)])
  end.
#[export] Instance step_of_json : Deserialize PipelineStep := λ j,
  match of_json j with
  | Ok cmd => Ok (Inline cmd)
  | Err _ =>
      match (fields ← struct_fields ["name"; "run"] j;
             name ← required "name" fields; run ← required "run" fields; mret (Named name run)) with
      | Ok step => Ok step
      | Err _ => Err "data did not match any variant of untagged enum PipelineStep"
      end
  end.

#[export] Instance file_secret_to_json : Serialize FileSecret := λ f,
  match f with
  | FileSecretDefault name => to_json name
  | FileSecretCustom name path => name ← always name; path ← always path; mret (object [("name", name); ("path", path)])
  end.
#[export] Instance file_secret_of_json : Deserialize FileSecret := λ j,
  match of_json j with
  | Ok name => Ok (FileSecretDefault name)
  | Err _ =>
      match (fields ← struct_fields ["name"; "path"] j;
             name ← required "name" fields; path ← required "path" fields; mret (FileSecretCustom name path)) with
      | Ok secret => Ok secret
      | Err _ => Err "data did not match any variant of untagged enum FileSecret"
      end
  end.

(** [Vec::is_empty], [HashMap::is_empty], [is_false] *)
Definition no_items {A} (l : list A) : bool := match l with [] => true | _ => false end.
Definition no_entries (m : gmap string string) : bool := bool_decide (m = ∅).

#[export] Instance secrets_to_json : Serialize Secrets := λ s,
  env ← unless (no_items (secrets_env s)) (secrets_env s);
  files ← unless (no_items (secrets_files s)) (secrets_files s);
  mret (object [("env", env); ("files", files)]).
#[export] Instance secrets_of_json : Deserialize Secrets := λ j,
  fields ← struct_fields ["env"; "files"] j;
  env ← defaulted [] "env" fields;
  files ← defaulted [] "files" fields;
  mret (mkSecrets env files).

Section documents.
Context `{HashOrder}.

#[export] Instance pipeline_node_to_json : Serialize PipelineNode := λ n,
  name ← always (pn_name n);
  image ← when_some (pn_image n);
  timeout_secs ← when_some (pn_timeout_secs n);
  startup_timeout_secs ← when_some (pn_startup_timeout_secs n);
  checkout ← when_some (pn_checkout n);
  after ← unless (no_items (pn_after n)) (pn_after n);
  env ← unless (no_entries (pn_env n)) (pn_env n);
  secrets ← unless (secrets_is_empty (pn_secrets n)) (pn_secrets n);
  steps ← unless (no_items (pn_steps n)) (pn_steps n);
  privileged ← unless (negb (pn_privileged n)) (pn_privileged n);
  cache_size ← when_some (pn_cache_size n);
  cpu ← when_some (pn_cpu n);
  memory ← when_some (pn_memory n);
  volumes ← unless (no_entries (pn_volumes n)) (pn_volumes n);
  mret (object [("name", name); ("image", image); ("timeout_secs", timeout_secs); ("startup_timeout_secs", startup_timeout_secs);
    ("checkout", checkout); ("after", after); ("env", env); ("secrets", secrets); ("steps", steps); ("privileged", privileged);
    ("cache_size", cache_size); ("cpu", cpu); ("memory", memory); ("volumes", volumes)]).
#[export] Instance pipeline_node_of_json : Deserialize PipelineNode := λ j,
  fields ← struct_fields ["name"; "image"; "timeout_secs"; "startup_timeout_secs"; "checkout"; "after"; "env"; "secrets"; "steps";
                          "privileged"; "cache_size"; "cpu"; "memory"; "volumes"] j;
  name ← required "name" fields;
  image ← defaulted_option "image" fields;
  timeout_secs ← optional "timeout_secs" fields;
  startup_timeout_secs ← optional "startup_timeout_secs" fields;
  checkout ← defaulted_option "checkout" fields;
  after ← defaulted [] "after" fields;
  env ← defaulted ∅ "env" fields;
  secrets ← defaulted (mkSecrets [] []) "secrets" fields;
  steps ← defaulted [] "steps" fields;
  privileged ← defaulted false "privileged" fields;
  cache_size ← defaulted_option "cache_size" fields;
  cpu ← defaulted_option "cpu" fields;
  memory ← defaulted_option "memory" fields;
  volumes ← defaulted ∅ "volumes" fields;
  mret (mkNode name image timeout_secs startup_timeout_secs checkout after env secrets steps privileged cache_size cpu memory volumes).

#[export] Instance pipeline_to_json : Serialize Pipeline := λ p,
  name ← always (pl_name p);
  timeout_secs ← when_some (pl_timeout_secs p);
  fail_fast ← when_some (pl_fail_fast p);
  on ← when_some (pl_on p);
  env ← unless (no_entries (pl_env p)) (pl_env p);
  secrets ← unless (secrets_is_empty (pl_secrets p)) (pl_secrets p);
  nodes ← always (pl_nodes p);
  mret (object [("name", name); ("timeout_secs", timeout_secs); ("fail_fast", fail_fast); ("on", on); ("env", env);
    ("secrets", secrets); ("nodes", nodes)]).
#[export] Instance pipeline_of_json : Deserialize Pipeline := λ j,
  fields ← struct_fields ["name"; "timeout_secs"; "fail_fast"; "on"; "env"; "secrets"; "nodes"] j;
  name ← required "name" fields;
  timeout_secs ← optional "timeout_secs" fields;
  fail_fast ← optional "fail_fast" fields;
  on ← optional "on" fields;
  env ← defaulted ∅ "env" fields;
  secrets ← defaulted (mkSecrets [] []) "secrets" fields;
  nodes ← required "nodes" fields;
  mret (mkPipeline name timeout_secs fail_fast on env secrets nodes).

(** ** Run states *)

#[export] Instance run_state_to_json : Serialize RunState := λ st,
  version ← always (rs_version st);
  statuses ← always (rs_statuses st);
  dependencies ← always (rs_dependencies st);
  pipeline ← always (rs_pipeline st);
  mret (object [("version", version); ("statuses", statuses); ("dependencies", dependencies); ("pipeline", pipeline)]).
#[export] Instance run_state_of_json : Deserialize RunState := λ j,
  fields ← struct_fields ["version"; "statuses"; "dependencies"; "pipeline"] j;
  version ← required "version" fields;
  statuses ← required "statuses" fields;
  dependencies ← required "dependencies" fields;
  pipeline ← required "pipeline" fields;
  mret (mkRunState version statuses dependencies pipeline).

(** ** Node definitions of the history, which are only written *)

#[export] Instance file_secret_spec_to_json : Serialize FileSecretSpec := λ f,
  name ← always (fss_name f); path ← always (fss_path f); mret (object [("name", name); ("path", path)]).
#[export] Instance node_info_to_json : Serialize NodeInfo := λ n,
  name ← always (ni_name n);
  image ← always (ni_image n);
  steps ← always (ni_steps n);
  dependencies ← always (ni_dependencies n);
  timeout_secs ← always (ni_timeout_secs n);
  startup_timeout_secs ← always (ni_startup_timeout_secs n);
  checkout ← always (ni_checkout n);
  env ← always (ni_env n);
  env_secrets ← always (ni_env_secrets n);
  file_secrets ← always (ni_file_secrets n);
  privileged ← always (ni_privileged n);
  cache_size ← always (ni_cache_size n);
  cpu ← always (ni_cpu n);
  memory ← always (ni_memory n);
  volumes ← always (ni_volumes n);
  mret (object [("name", name); ("image", image); ("steps", steps); ("dependencies", dependencies); ("timeout_secs", timeout_secs);
    ("startup_timeout_secs", startup_timeout_secs); ("checkout", checkout); ("env", env); ("env_secrets", env_secrets);
    ("file_secrets", file_secrets); ("privileged", privileged); ("cache_size", cache_size); ("cpu", cpu); ("memory", memory);
    ("volumes", volumes)]).
End documents.

(** ** Events and outcomes *)

#[export] Instance event_to_json : Serialize BackplaneEvent := λ e,
  match e with
  | NodeCompleted node_name success =>
      node_name ← always node_name; success ← always success;
      mret (object [("NodeCompleted", Some (object [("node_name", node_name); ("success", success)]))])
  | CancelRun => mret (JString "Cancel")
  end.
#[export] Instance event_of_json : Deserialize BackplaneEvent := λ j,
  v ← variant j;
  if str_eqb v.1 "NodeCompleted" then
    match v.2 with
    | None => Err "invalid type: expected a struct variant"
    | Some contents =>
        fields ← struct_fields ["node_name"; "success"] contents;
        node_name ← required "node_name" fields; success ← required "success" fields;
        mret (NodeCompleted node_name success)
    end
  else if str_eqb v.1 "Cancel" then
    if unit_contents v.2 then Ok CancelRun else Err "invalid type: expected a unit variant"
  else Err "unknown variant".

(** The wrapper's status object: milliseconds are [u128]. *)
#[export] Instance outcome_of_json : Deserialize NodeOutcome := λ j,
  fields ← struct_fields ["success"; "started_at"; "finished_at"] j;
  success ← optional "success" fields;
  started_at ← optional_with (unsigned_of_json u128_max) "started_at" fields;
  finished_at ← optional_with (unsigned_of_json u128_max) "finished_at" fields;
  mret (mkOutcome success started_at finished_at).

(** ** Text *)

(** serde_json's printer and parser; what is not JSON cannot be printed. *)
Class JsonText : Type := {
  json_to_string : Json → result string string;
  json_from_str : string → result string Json;
  json_read_back j t : json_to_string j = Ok t → json_from_str t = Ok j;
}.

Section text.
Context `{JsonText}.

Definition to_string {A} `{Serialize A} (a : A) : result string string := j ← to_json a; json_to_string j.
Definition from_str {A} `{Deserialize A} (t : string) : result string A := j ← json_from_str t; of_json j.
Definition to_vec {A} `{Serialize A} (a : A) : result string (list ascii) := t ← to_string a; mret (bytes t).
Definition from_slice {A} `{Deserialize A} (bs : list ascii) : result string A := from_str (of_bytes bs).

#[export] Instance event_text : Rabbit.EventText := {|
  Rabbit.event_to_vec := to_vec;
  Rabbit.event_from_slice bs := ok (from_slice bs) |}.
End text.

(** cjson and [tonumber] in Redis's Lua, on the same text. *)
Class LuaText `{JsonText} : Type := {
  lua_decode_version : string → result string (option Z);
  lua_encode_lease : LeaseData → string;
  lua_decode_lease : string → result string LeaseData;
  lua_tonumber : Z → Z;
  lua_reads_version j t v : json_to_string j = Ok t → json_get "version" j = Some (JNumber (digits_of v)) → (0 ≤ v)%Z →
    lua_decode_version t = Ok (Some (lua_tonumber v));
  lua_lease_decoded v server : ∃ w, lua_decode_lease (lua_encode_lease (mkLease v server)) = Ok (mkLease w server) ∧
    (version_ok v → w = v);
  lua_tonumber_exact v : version_ok v → lua_tonumber v = v;
}.

(** ** Lemmas: numbers, lists, maps *)
Lemma value_of_digits z : (0 ≤ z)%Z → value_of (digits_of z) = Some z.
Proof.
  intros Hz. unfold value_of, digits_of. rewrite NilZero.usu.
  - cbn. by rewrite DecimalN.Unsigned.of_to, Z2N.id.
  - unfold N.to_uint. destruct (Z.to_N z) as [|p]; [done|]. apply DecimalPos.Unsigned.to_uint_nonnil.
Qed.

Lemma unsigned_round_trip max z j : unsigned_to_json max z = Ok j → unsigned_of_json max j = Ok z.
Proof.
  unfold unsigned_to_json. case_bool_decide as Hz; [|done]. intros [= <-]. cbn. rewrite value_of_digits by lia.
  rewrite (proj2 (Z.leb_le z max)) by lia. done.
Qed.

#[export] Instance string_serde : SerdeSpec string.
Proof. split; [by intros s j [= <-]|done]. Qed.
#[export] Instance bool_serde : SerdeSpec bool.
Proof. split; [by intros b j [= <-]|done]. Qed.
#[export] Instance u64_serde : SerdeSpec Z.
Proof. split; [apply unsigned_round_trip|]. intros z. unfold to_json, u64_to_json, unsigned_to_json. by case_bool_decide. Qed.
#[export] Instance node_status_serde : SerdeSpec NodeStatus.
Proof. split; [by intros [] j [= <-]|done]. Qed.

Lemma mapM_round_trip {A B} (f : A → result string B) (g : B → result string A) l l' :
  (∀ a b, f a = Ok b → g b = Ok a) → mapM f l = Ok l' → mapM g l' = Ok l.
Proof.
  intros Hfg. revert l'; induction l as [|a l IH]; intros l'; cbn; [by intros [= <-]|].
  destruct (f a) as [b|e] eqn:Hb; [|done]. cbn. destruct (mapM f l) as [bs|e]; [|done]. intros [= <-]. cbn.
  by rewrite (Hfg a b Hb), (IH bs eq_refl).
Qed.

#[export] Instance list_serde `{SerdeSpec A} : SerdeSpec (list A).
Proof.
  split.
  - intros l j. unfold to_json, list_to_json. destruct (mapM to_json l) as [items|e] eqn:Hl; [|done]. intros [= <-].
    eapply mapM_round_trip; [|exact Hl]. apply round_trip.
  - intros l. unfold to_json, list_to_json. by destruct (mapM to_json l).
Qed.

Lemma collect_hash_iter `{HashOrder} {A} (m : gmap string A) : collect_map fst snd (hash_iter m) = m.
Proof.
  apply map_eq. intros k. destruct (m !! k) as [a|] eqn:Hk.
  - destruct (collect_map fst snd (hash_iter m) !! k) as [b|] eqn:Hb.
    + apply collect_map_lookup_Some in Hb as ([k' b'] & Hin & <- & <-). apply elem_of_hash_iter in Hin. cbn in *. congruence.
    + assert (is_Some (collect_map fst snd (hash_iter m) !! k)) as [x Hx]; [|congruence].
      apply collect_map_lookup_is_Some, list_elem_of_fmap. exists (k, a). split; [done|]. by apply elem_of_hash_iter.
  - destruct (collect_map fst snd (hash_iter m) !! k) as [b|] eqn:Hb; [|done].
    apply collect_map_lookup_Some in Hb as ([k' b'] & Hin & <- & <-). apply elem_of_hash_iter in Hin. cbn in *. congruence.
Qed.

#[export] Instance map_serde `{HashOrder, SerdeSpec A} : SerdeSpec (gmap string A).
Proof.
  split.
  - intros m j. unfold to_json, map_to_json. set (f := λ '(k, a), _).
    destruct (mapM f (hash_iter m)) as [entries|e] eqn:Hm; [|done]. intros [= <-]. unfold of_json, map_of_json. set (g := λ '(k, j), _).
    rewrite (mapM_round_trip f g (hash_iter m) entries); [|intros [k a] [k' j]; subst f g; cbn|exact Hm].
    + cbn. by rewrite collect_hash_iter.
    + destruct (to_json a) as [x|e] eqn:Ha; [|done]. intros [= <- <-]. by rewrite (round_trip a x Ha).
  - intros m. unfold to_json, map_to_json. by destruct (mapM _ _).
Qed.

(** ** Lemmas: structures *)

Definition entry (name : string) (l : list (string * option Json)) : option Json :=
  match List.find (λ p, String.eqb p.1 name) l with Some (_, o) => o | None => None end.

Lemma present_keys l k j : (k, j) ∈ present l → k ∈ l.*1.
Proof.
  unfold present. rewrite list_elem_of_omap. intros ([k' o] & Hin & Hk). apply list_elem_of_fmap. exists (k', o).
  destruct o; [|done]. cbn in Hk. injection Hk as <- <-. by split.
Qed.
Lemma present_none l k : k ∉ l.*1 → json_assoc k (present l) = None.
Proof.
  intros Hk. unfold json_assoc. destruct (List.find _ (present l)) as [[k' j]|] eqn:Hf; [|done].
  apply List.find_some in Hf as [Hin Heq]. apply list_elem_of_In, present_keys in Hin. cbn in Heq.
  apply bool_decide_eq_true in Heq as ->. done.
Qed.

Lemma assoc_present l k : NoDup l.*1 → json_assoc k (present l) = entry k l.
Proof.
  induction l as [|[k' o] l IH]; [done|]. cbn [fmap list_fmap]. intros [Hk Hl]%NoDup_cons. cbn [fst] in Hk. unfold entry. cbn [List.find fst].
  destruct (String.eqb_spec k' k) as [<-|Hne].
  - destruct o as [j|]; [|change (json_assoc k' (present l) = None); by apply present_none]. unfold json_assoc. cbn. unfold str_eqb. by rewrite bool_decide_eq_true_2.
  - fold (entry k l). rewrite <-IH by done. destruct o as [j|]; [|done]. unfold json_assoc. cbn. unfold str_eqb. by rewrite bool_decide_eq_false_2.
Qed.

Lemma present_keys_nodup l : NoDup l.*1 → NoDup (present l).*1.
Proof.
  induction l as [|[k o] l IH]; [constructor|]. cbn [fmap list_fmap]. intros [Hk Hl]%NoDup_cons.
  destruct o as [j|]; [|by apply IH]. cbn. constructor; [|by apply IH].
  intros ([k' j'] & -> & Hin)%list_elem_of_fmap. by apply present_keys in Hin.
Qed.

(** A structure that was written with all its fields' names. *)
Lemma struct_fields_object l names : bool_decide (NoDup l.*1) = true → struct_fields names (object l) = Ok (ByName (present l)).
Proof.
  intros Hl%bool_decide_eq_true. unfold struct_fields, object. rewrite bool_decide_eq_true_2; [done|].
  apply NoDup_ListNoDup, List.NoDup_filter, NoDup_ListNoDup. by apply present_keys_nodup.
Qed.

Section fields.
Context `{SerdeSpec A}.
Implicit Types (a : A) (l : list (string * option Json)) (n : string).

Lemma always_read a o n l : bool_decide (NoDup l.*1) = true → entry n l = o → always a = Ok o → required n (ByName (present l)) = Ok a.
Proof.
  intros Hl%bool_decide_eq_true Hn Ha. unfold always in Ha. destruct (to_json a) as [j|e] eqn:Hj; [|done]. injection Ha as <-.
  unfold required, field. rewrite assoc_present, Hn by done. by apply round_trip.
Qed.
Lemma unless_read d (skip : bool) a o n l : bool_decide (NoDup l.*1) = true → entry n l = o → unless skip a = Ok o → (skip = true → a = d) →
  defaulted d n (ByName (present l)) = Ok a.
Proof.
  intros Hl%bool_decide_eq_true Hn Ha Hd. unfold defaulted, defaulted_with, field. rewrite assoc_present, Hn by done.
  unfold unless in Ha. destruct skip; [injection Ha as <-; by rewrite Hd|].
  unfold always in Ha. destruct (to_json a) as [j|e] eqn:Hj; [|done]. injection Ha as <-. by apply round_trip.
Qed.
Lemma nullable_read a j : to_json a = Ok j → nullable of_json j = Ok (Some a).
Proof.
  intros Ha. unfold nullable. rewrite (round_trip a j Ha). destruct j; [|done..]. by apply not_null in Ha.
Qed.
Lemma some_read (f : option A → option A) (oa : option A) o n l :
  bool_decide (NoDup l.*1) = true → entry n l = o → when_some oa = Ok o → (∀ a, f (Some a) = Some a) →
  defaulted_with (λ j, v ← nullable of_json j; mret (f v)) None n (ByName (present l)) = Ok oa.
Proof.
  intros Hl%bool_decide_eq_true Hn Ha Hf. unfold defaulted_with, field. rewrite assoc_present, Hn by done.
  destruct oa as [a|]; [|by injection Ha as <-]. unfold when_some, always in Ha. destruct (to_json a) as [j|e] eqn:Hj; [|done].
  injection Ha as <-. rewrite (nullable_read a j Hj). cbn. by rewrite Hf.
Qed.
Lemma option_read (oa : option A) o n l : bool_decide (NoDup l.*1) = true → entry n l = o → when_some oa = Ok o →
  match o with Some j => nullable of_json j = Ok oa | None => oa = None end ∧ json_assoc n (present l) = o.
Proof.
  intros Hl%bool_decide_eq_true Hn Ha. rewrite assoc_present by done. split; [|done].
  destruct oa as [a|]; [|by injection Ha as <-]. unfold when_some, always in Ha. destruct (to_json a) as [j|e] eqn:Hj; [|done].
  injection Ha as <-. by apply nullable_read.
Qed.
Lemma optional_read (oa : option A) o n l : bool_decide (NoDup l.*1) = true → entry n l = o → when_some oa = Ok o →
  optional n (ByName (present l)) = Ok oa.
Proof.
  intros Hl Hn Ha. destruct (option_read oa o n l Hl Hn Ha) as [Ho Hj]. unfold optional, optional_with, field. rewrite Hj.
  destruct o; [done|by subst oa].
Qed.
Lemma defaulted_option_read (oa : option A) o n l : bool_decide (NoDup l.*1) = true → entry n l = o → when_some oa = Ok o →
  defaulted_option n (ByName (present l)) = Ok oa.
Proof.
  intros Hl Hn Ha. destruct (option_read oa o n l Hl Hn Ha) as [Ho Hj]. unfold defaulted_option, defaulted_with, field. rewrite Hj.
  destruct o; [done|by subst oa].
Qed.
End fields.

(** ** Lemmas: what a skipped field stands for *)

Create HintDb serde.
Lemma no_items_true {A} (l : list A) : no_items l = true → l = [].
Proof. by destruct l. Qed.
Lemma no_entries_true m : no_entries m = true → m = ∅.
Proof. by intros ?%bool_decide_eq_true. Qed.
Lemma secrets_is_empty_true s : secrets_is_empty s = true → s = mkSecrets [] [].
Proof. unfold secrets_is_empty. destruct s as [env files]; cbn. by destruct env, files. Qed.
Lemma negb_true b : negb b = true → b = false.
Proof. by destruct b. Qed.
#[export] Hint Resolve no_items_true no_entries_true secrets_is_empty_true negb_true : serde.

(** Inverts the writing of a structure, one field after the other. *)
Ltac fields_of H :=
  repeat match type of H with
  | mbind _ ?m = Ok _ =>
      let E := fresh "Hfield" in destruct m as [?|?] eqn:E; cbn [mbind result_bind] in H; [|discriminate H]
  end.
(** Reads a field back. *)
Ltac read_field :=
  first [ erewrite always_read; [|reflexivity|reflexivity|eassumption]
        | erewrite unless_read; [|reflexivity|reflexivity|eassumption|solve [auto with serde]]
        | erewrite (some_read deserialize_ref_filter); [|reflexivity|reflexivity|eassumption|reflexivity]
        | erewrite (some_read deserialize_trigger); [|reflexivity|reflexivity|eassumption|reflexivity]
        | erewrite optional_read; [|reflexivity|reflexivity|eassumption]
        | erewrite defaulted_option_read; [|reflexivity|reflexivity|eassumption] ];
  cbn [mbind result_bind].
(** A structure that was written field by field is read back. *)
Ltac read_back H :=
  fields_of H; injection H as <-; rewrite struct_fields_object by reflexivity; cbn [mbind result_bind]; repeat read_field;
  match goal with |- _ = Ok ?x => by destruct x end.

#[export] Instance refs_serde : SerdeSpec Refs.
Proof.
  split; unfold to_json, refs_to_json; [|intros r Hj; fields_of Hj; discriminate].
  intros x j Hj. unfold of_json, refs_of_json. read_back Hj.
Qed.
#[export] Instance triggers_serde : SerdeSpec PipelineTriggers.
Proof.
  split; unfold to_json, triggers_to_json; [|intros r Hj; fields_of Hj; discriminate].
  intros x j Hj. unfold of_json, triggers_of_json. read_back Hj.
Qed.
#[export] Instance file_secret_serde : SerdeSpec FileSecret.
Proof.
  split; unfold to_json, file_secret_to_json; [|intros [name|name path] Hj; fields_of Hj; discriminate].
  intros [name|name path] j Hj; unfold of_json, file_secret_of_json; [by injection Hj as <-|].
  fields_of Hj; injection Hj as <-. cbn [of_json string_of_json object]. fold (object [("name", a); ("path", a0)]).
  rewrite struct_fields_object by reflexivity; cbn [mbind result_bind]. repeat read_field. reflexivity.
Qed.
#[export] Instance step_serde : SerdeSpec PipelineStep.
Proof.
  split; unfold to_json, step_to_json; [|intros [cmd|name run] Hj; fields_of Hj; discriminate].
  intros [cmd|name run] j Hj; unfold of_json, step_of_json; [by injection Hj as <-|].
  fields_of Hj; injection Hj as <-. cbn [of_json string_of_json object]. fold (object [("name", a); ("run", a0)]).
  rewrite struct_fields_object by reflexivity; cbn [mbind result_bind]. repeat read_field. reflexivity.
Qed.
#[export] Instance secrets_serde : SerdeSpec Secrets.
Proof.
  split; unfold to_json, secrets_to_json; [|intros s Hj; fields_of Hj; discriminate].
  intros x j Hj. unfold of_json, secrets_of_json. read_back Hj.
Qed.

Section specs.
Context `{HashOrder}.

#[export] Instance pipeline_node_serde : SerdeSpec PipelineNode.
Proof.
  split; unfold to_json, pipeline_node_to_json; [|intros n Hj; fields_of Hj; discriminate].
  intros x j Hj. unfold of_json, pipeline_node_of_json. read_back Hj.
Qed.
#[export] Instance pipeline_serde : SerdeSpec Pipeline.
Proof.
  split; unfold to_json, pipeline_to_json; [|intros p Hj; fields_of Hj; discriminate].
  intros x j Hj. unfold of_json, pipeline_of_json. read_back Hj.
Qed.
#[export] Instance run_state_serde : SerdeSpec RunState.
Proof.
  split; unfold to_json, run_state_to_json; [|intros st Hj; fields_of Hj; discriminate].
  intros x j Hj. unfold of_json, run_state_of_json. read_back Hj.
Qed.
End specs.

#[export] Instance event_serde : SerdeSpec BackplaneEvent.
Proof.
  split; unfold to_json, event_to_json; [|intros [n success|] Hj; fields_of Hj; discriminate].
  intros [n success|] j Hj; [|by injection Hj as <-]. fields_of Hj. injection Hj as <-.
  unfold of_json, event_of_json. cbn [object present variant mbind result_bind omap list_omap fst snd fmap option_fmap option_map].
  change (str_eqb "NodeCompleted" "NodeCompleted") with true. cbv iota.
  rewrite struct_fields_object by reflexivity. cbn [mbind result_bind]. repeat read_field. reflexivity.
Qed.

(** ** What can be written *)

(** The integers of a document are 64-bit ones. *)
Definition is_u64 (z : Z) : Prop := (0 ≤ z ≤ u64_max)%Z.
Definition opt_u64 (o : option Z) : Prop := match o with Some z => is_u64 z | None => True end.
Definition pipeline_u64 (p : Pipeline) : Prop :=
  opt_u64 (pl_timeout_secs p) ∧ Forall (λ n, opt_u64 (pn_timeout_secs n) ∧ opt_u64 (pn_startup_timeout_secs n)) (pl_nodes p).
Definition state_u64 (st : RunState) : Prop := is_u64 (rs_version st) ∧ pipeline_u64 (rs_pipeline st).

(** [a] can be written. *)
Definition writes {A} `{Serialize A} (a : A) : Prop := ∃ j, to_json a = Ok j.

Lemma mapM_writes {A B} (f : A → result string B) l : Forall (λ a, ∃ b, f a = Ok b) l → ∃ l', mapM f l = Ok l'.
Proof. induction 1 as [|a l [b Hb] _ [l' Hl]]; [by exists []|]. exists (b :: l'). cbn. by rewrite Hb, Hl. Qed.
Lemma writes_list `{Serialize A} (l : list A) : Forall writes l → writes l.
Proof. intros Hl. destruct (mapM_writes to_json l Hl) as [l' Hl']. exists (JArray l'). unfold to_json, list_to_json. by rewrite Hl'. Qed.
Lemma writes_map `{HashOrder, Serialize A} (m : gmap string A) : (∀ k a, m !! k = Some a → writes a) → writes m.
Proof.
  intros Hm. unfold writes, to_json, map_to_json. set (f := λ '(k, a), _). destruct (mapM_writes f (hash_iter m)) as [l Hl].
  - apply Forall_forall. intros [k a] Hka%elem_of_hash_iter. destruct (Hm k a Hka) as [j Hj]. exists (k, j). subst f. cbn. by rewrite Hj.
  - exists (JObject l). by rewrite Hl.
Qed.
Lemma writes_u64 z : is_u64 z → writes z.
Proof. intros Hz. eexists. unfold to_json, u64_to_json, unsigned_to_json. by rewrite bool_decide_eq_true_2. Qed.
Lemma writes_always `{Serialize A} (a : A) : writes a → ∃ o, always a = Ok o.
Proof. intros [j Hj]. exists (Some j). unfold always. by rewrite Hj. Qed.
Lemma writes_unless `{Serialize A} skip (a : A) : writes a → ∃ o, unless skip a = Ok o.
Proof. intros Ha. destruct skip; [by exists None|by apply writes_always]. Qed.
Lemma writes_when_some `{Serialize A} (oa : option A) : (∀ a, oa = Some a → writes a) → ∃ o, when_some oa = Ok o.
Proof. intros Ha. destruct oa as [a|]; [by apply writes_always, Ha|by exists None]. Qed.

Lemma writes_string (s : string) : writes s.
Proof. by eexists. Qed.
Lemma writes_bool (b : bool) : writes b.
Proof. by eexists. Qed.
Lemma writes_status (s : NodeStatus) : writes s.
Proof. by eexists. Qed.
Lemma writes_strings (l : list string) : writes l.
Proof. apply writes_list, Forall_forall. intros; apply writes_string. Qed.
Lemma writes_u64_some (o : option Z) z : opt_u64 o → o = Some z → writes z.
Proof. intros Ho ->. by apply writes_u64. Qed.
#[export] Hint Resolve writes_string writes_bool writes_status writes_strings writes_always writes_unless writes_when_some writes_u64
  writes_u64_some : serde.

(** Writes the fields of a structure. *)
Ltac write_fields :=
  repeat match goal with
  | |- context [mbind _ (always ?a)] =>
      let o := fresh "o" in let E := fresh "Ho" in destruct (writes_always a) as [o E]; [eauto with serde|rewrite E; cbn [mbind result_bind]; clear E]
  | |- context [mbind _ (unless ?b ?a)] =>
      let o := fresh "o" in let E := fresh "Ho" in destruct (writes_unless b a) as [o E]; [eauto with serde|rewrite E; cbn [mbind result_bind]; clear E]
  | |- context [mbind _ (when_some ?a)] =>
      let o := fresh "o" in let E := fresh "Ho" in destruct (writes_when_some a) as [o E]; [eauto with serde|rewrite E; cbn [mbind result_bind]; clear E]
  end; by eexists.

Lemma writes_refs (r : Refs) : writes r.
Proof. unfold writes, to_json, refs_to_json. write_fields. Qed.
#[export] Hint Resolve writes_refs : serde.
Lemma writes_triggers (t : PipelineTriggers) : writes t.
Proof. unfold writes, to_json, triggers_to_json. write_fields. Qed.
Lemma writes_step (s : PipelineStep) : writes s.
Proof. destruct s; [apply writes_string|]. unfold writes, to_json, step_to_json. write_fields. Qed.
Lemma writes_file_secret (f : FileSecret) : writes f.
Proof. destruct f; [apply writes_string|]. unfold writes, to_json, file_secret_to_json. write_fields. Qed.
Lemma writes_file_secrets (l : list FileSecret) : writes l.
Proof. apply writes_list, Forall_forall. intros; apply writes_file_secret. Qed.
Lemma writes_steps (l : list PipelineStep) : writes l.
Proof. apply writes_list, Forall_forall. intros; apply writes_step. Qed.
#[export] Hint Resolve writes_triggers writes_file_secrets writes_steps : serde.
Lemma writes_secrets (s : Secrets) : writes s.
Proof. unfold writes, to_json, secrets_to_json. write_fields. Qed.
Lemma writes_strings_map `{HashOrder} (m : gmap string string) : writes m.
Proof. apply writes_map. intros; apply writes_string. Qed.
#[export] Hint Resolve writes_secrets writes_strings_map : serde.

Section writing.
Context `{HashOrder}.

Lemma writes_node (n : PipelineNode) : opt_u64 (pn_timeout_secs n) → opt_u64 (pn_startup_timeout_secs n) → writes n.
Proof. intros ??. unfold writes, to_json, pipeline_node_to_json. write_fields. Qed.
Lemma writes_pipeline (p : Pipeline) : pipeline_u64 p → writes p.
Proof.
  intros [? Hn]. assert (writes (pl_nodes p)) by (apply writes_list; eapply Forall_impl; [exact Hn|]; intros n []; by apply writes_node).
  unfold writes, to_json, pipeline_to_json. write_fields.
Qed.
Lemma writes_run_state (st : RunState) : state_u64 st → writes st.
Proof.
  intros [? Hp%writes_pipeline].
  assert (writes (rs_statuses st)) by (apply writes_map; intros; apply writes_status).
  assert (writes (rs_dependencies st)) by (apply writes_map; intros; apply writes_strings).
  unfold writes, to_json, run_state_to_json. write_fields.
Qed.
End writing.

(** ** The libraries of the store and of the coordinator *)

Section libraries.
Context `{HO : HashOrder, JT : JsonText}.

(** The script of [save_run] finds the version at the top of the document. *)
Lemma version_on_top (st : RunState) j : to_json st = Ok j →
  is_u64 (rs_version st) ∧ json_get "version" j = Some (JNumber (digits_of (rs_version st))).
Proof.
  intros Hj. unfold to_json, run_state_to_json in Hj. fields_of Hj. injection Hj as <-.
  unfold always, to_json, u64_to_json, unsigned_to_json in Hfield. case_bool_decide as Hv; [|done]. injection Hfield as <-. by split.
Qed.

#[export, refine] Instance redis_libraries `{!LuaText} : RedisLibraries := {|
  state_to_string := to_string;
  state_from_str := from_str;
  cjson_decode_version := lua_decode_version;
  cjson_encode_lease := lua_encode_lease;
  cjson_decode_lease := lua_decode_lease;
  lua_number := lua_tonumber |}.
Proof.
  - intros st t. unfold to_string, from_str. destruct (to_json st) as [j|e] eqn:Hj; [|done]. cbn. intros Ht%json_read_back.
    rewrite Ht. cbn. by apply round_trip.
  - intros st t. unfold to_string. destruct (to_json st) as [j|e] eqn:Hj; [|done]. cbn. intros Ht.
    apply version_on_top in Hj as [[Hv _] Hj]. by apply (lua_reads_version j).
  - apply lua_lease_decoded.
  - apply lua_tonumber_exact.
Defined.

#[export] Instance coordinator_libraries (from_timestamp : Z → Z → option Z) : Libraries :=
  {| Coordinator.node_to_json := to_string; Coordinator.from_timestamp := from_timestamp |}.

Lemma event_read_back (e : BackplaneEvent) payload :
  Rabbit.event_to_vec e = Ok payload → Rabbit.event_from_slice payload = Some e.
Proof.
  cbn. unfold to_vec, to_string, from_slice, from_str. destruct (to_json e) as [j|x] eqn:Hj; [|done]. cbn.
  destruct (json_to_string j) as [t|x] eqn:Ht; [|done]. cbn. intros [= <-].
  rewrite string_of_list_ascii_of_string, (json_read_back j t Ht). cbn. by rewrite (round_trip e j Hj).
Qed.
End libraries.

(** ** Properties *)

(** C21: A run state is stored without loss. Every state whose integers are 64-bit
    ones can be written, whatever its pipeline, with the fields that the source
    skips left out; the document is read back as the very same state; and its
    version stands at the top of the document, as the decimal number that the
    store's script compares. *)
Theorem stored_states_survive `{HashOrder} (st : RunState) : state_u64 st →
  ∃ j, to_json st = Ok j ∧ of_json j = Ok st ∧
    ∃ text, json_get "version" j = Some (JNumber text) ∧ value_of text = Some (rs_version st).
Proof.
  intros Hst. destruct (writes_run_state st Hst) as [j Hj]. exists j. split; [done|]. split; [by apply round_trip|].
  destruct (version_on_top st j Hj) as [[Hv _] Htop]. eexists. split; [exact Htop|]. by apply value_of_digits.
Qed.

(** C28: An event that RabbitMQ accepted is delivered as it was published: a
    publication that is answered with success sent one payload under the key of
    the run, and whoever finds that payload next in its queue gets that event. *)
Theorem published_events_survive `{HashOrder, JsonText} run_id (e : BackplaneEvent) b :
  is_ok (Rabbit.rabbit_publish_event run_id e b).1 = true →
  ∃ payload, Rabbit.rb_calls (Rabbit.rabbit_publish_event run_id e b).2 = Rabbit.rb_calls b ++ RabbitFacts.publication run_id payload ∧
    ∀ queue c rest, Rabbit.rb_inbox c !! queue = Some (Ok payload :: rest) →
      (Rabbit.rabbit_next_event queue c).1 = (Some e, queue).
Proof.
  intros Hok. pose proof (proj1 (RabbitFacts.rabbit_routes run_id e)) as Hr.
  destruct (Rabbit.event_to_vec e) as [payload|x] eqn:He; [|by rewrite Hr in Hok].
  specialize (Hr b). destruct (Rabbit.rabbit_publish_event run_id e b) as [[[]|x] b']; [|done]. destruct Hr as (_ & _ & Hc).
  exists payload. split; [exact Hc|]. intros queue c rest Hq. unfold Rabbit.rabbit_next_event. rewrite Hq. cbn [default from_option id Rabbit.rabbit_receive].
  rewrite (event_read_back e payload He). rewrite bind_eq. by destruct (Rabbit.call _ (Rabbit.Ack payload) c).
Qed.

(** ** Witnesses *)

Module Example.
#[local] Existing Instances canonical_order.

(** A printer for events; other documents are not printed. *)
#[local, refine] Instance event_printer : JsonText := {|
  json_to_string j :=
    match j with
    | JString s => Ok (String "s" s)
    | JObject [(k, JObject [(k1, JString n); (k2, JBool b)])] =>
        if bool_decide (k = "NodeCompleted" ∧ k1 = "node_name" ∧ k2 = "success") then Ok (String (if b then "t" else "f") n) else Err "not an event"
    | _ => Err "not an event"
    end;
  json_from_str t :=
    match t with
    | String c n =>
        if byte_eqb c "s" then Ok (JString n)
        else Ok (JObject [("NodeCompleted", JObject [("node_name", JString n); ("success", JBool (byte_eqb c "t"))])])
    | EmptyString => Err "end of input"
    end |}.
Proof.
  intros j t. destruct j as [| | |s| |[|[k [| | | | |[|[k1 [| | |n| |]] [|[k2 [|[]| | | |]] []]]]] []]]; try discriminate;
    [by intros [= <-]|..]; case_bool_decide as Hk; try discriminate; destruct Hk as (-> & -> & ->); by intros [= <-].
Defined.

Definition broker : Rabbit.RabbitmqBackplane := Rabbit.mkRabbit [] [] ∅.
Definition payload : list ascii := bytes "tbuild".
Lemma published_events_survive_witness :
  (Rabbit.rabbit_next_event "q" (Rabbit.mkRabbit [] [] {["q" := [Ok payload]]})).1 = (Some (NodeCompleted "build" true), "q").
Proof.
  destruct (published_events_survive "r" (NodeCompleted "build" true) broker) as (p & Hc & Hn); [vm_compute; reflexivity|].
  assert (p = payload) as ->.
  { assert (Rabbit.rb_calls (Rabbit.rabbit_publish_event "r" (NodeCompleted "build" true) broker).2 = RabbitFacts.publication "r" payload) as Hp
      by (vm_compute; reflexivity).
    rewrite Hp in Hc. injection Hc as ->. reflexivity. }
  apply (Hn "q" _ []). reflexivity.
Defined.

(** A pipeline with every kind of field, some skipped and some empty. *)
Definition document : Pipeline := mkPipeline "ci" (Some 600%Z) None
  (Some (mkTriggers (Some (mkRefs (Some []) None)) (Some (mkRefs None None)) None)) {["A" := "1"]} (mkSecrets ["TOKEN"] [])
  [mkNode "build" (Some "alpine") None (Some 30%Z) (Some true) [] ∅ (mkSecrets [] [FileSecretDefault "K"; FileSecretCustom "C" "/c"])
     [Inline "make"; Named "test" "make test"] true None (Some "2") None {["data" := "/data"]};
   mkNode "deploy" None None None None ["build"] ∅ (mkSecrets [] []) [Inline "ship"] false None None None ∅].
Definition running : RunState := mkRunState 7 {["build" := Success; "deploy" := Running]} {["build" := []; "deploy" := ["build"]]} document.
Lemma stored_states_survive_witness : ∃ j, to_json running = Ok j ∧ of_json j = Ok running ∧
  json_get "version" j = Some (JNumber "7").
Proof.
  destruct (stored_states_survive running) as (j & Hj & Hr & _).
  - split; [by split|]. split; [by split|]. repeat constructor; discriminate.
  - exists j. split; [exact Hj|]. split; [exact Hr|]. vm_compute in Hj. injection Hj as <-. reflexivity.
Defined.
End Example.
